(* ===== verification/_CoqProject ===== *)
-Q . S2P
Prelude.v
ListHead.v
Nptl.v
Sim.v
StackCache.v
Demo.v
StackCacheProofs.v
AllocateStack.v
Reclaim.v
ThreadAttr.v
Tsd.v
Process.v
ThreadExit.v
PthreadJoin.v
PthreadCreate.v
Unix.v
GExecute.v
GSpawnIo.v
GSpawnChild.v
GSpawn.v
GSpawnPipes.v
GSpawnApi.v
GSpawnSync.v
SpawnDemo.v
LibcSystem.v
Popen.v
FrameIpc.v
FrameDemo.v
SysVTests.v
CallonIpc.v
Program.v
Setxid.v
SetxidProofs.v
SetxidDemo.v
LookupScope.v
Bytes.v
StaticTls.v
Launch.v
Queues.v
Backtrace.v
MoveDir.v
Deadlock.v
Inherit.v
