(* ===== verification/Prelude.v ===== *)
(** * The programs of EngineerLinux, modelled and verified

    The repository explains how Linux programs fail, with the sources of the libraries it
    talks about beside its own examples.  This library models the code that decides something: the thread
    library of glibc 2.32 (under src/Memory/HiddenOOM), the ways to start a process of glibc 2.27 and 2.32, of glib
    2.60.7 and of the repository itself (src/Process/StartProcess, src/Process/Schedule,
    src/Process/InheritProcess), the communication between processes and threads
    (src/Process/InterProcessComm), and the programs on which debugging tools are shown (src/Debugging tools).

    ** Conventions

    A C function is a Definition of the same name (a leading [__] or [_] is dropped).  A function that runs alone is a
    computation of the state monad [M] below: it returns, or stops for a reason ([Fault] is undefined
    behaviour, [Blocked] a wait that nothing ends, [Exited] and [Replaced] the ways a process leaves
    its code).  [wp m Q s] is total: from [s], [m] returns and [Q] holds.  Loops whose end is not evident take fuel,
    computed from the state where the loop starts; running out of it is [Blocked], so that a theorem
    about [wp] also shows that the fuel is enough (in a pure function the loop just ends, and the theorem about its
    result shows it).  Code that runs next to other threads is
    a tree of its accesses to what is shared (Program.v, LibcSystem.v), which a machine executes one at a time in any
    order; its theorems are about every reachable state.
    Addresses and sizes are [Z] with the reduction to 64 bits written out ([+w], [-w], [*w]); an
    [int] is [to_int] or a [Z] whose range a theorem states.

    What is not in the source is a parameter, a class of operations with a class of the laws that the code relies on:
    [Platform], [Kernel] (mmap, mprotect, the dynamic linker), [ListApi] (<list.h>), [Malloc], [Env] and [JoinEnv]
    (clone, scheduling, futexes, other threads), [System] and [GLib] (execve, what programs
    write, the environment), [Ftok], [Net], [Gscope], [TlsLayout], [LaunchSystem],
    [Dynlink] (the unwinder and [dladdr]), [FileSystem] (the order of a directory, what a link points to); the signal handler of
    set*id is an argument with its protocol.  Every one has an instance, on which the witnesses run the theorems.

    ** The thread library: allocatestack.c, pthread_create.c and the files around them

    - ListHead.v: the lists of descriptors, as pointers in memory and as Rocq lists.
    - Nptl.v, Sim.v: [struct pthread], the variables of the library, its primitive operations; a concrete platform.
    - StackCache.v, StackCacheProofs.v, Demo.v: [get_cached_stack], [free_stacks], [queue_stack], [__deallocate_stack],
      [__make_stacks_executable] and their helpers.  The relation [rep] says that the pointers form the lists of used, user
      and cached stacks, and that the size of the cache is the sum over it.  [get_cached_stack_best_fit] and
      [deallocate_stack_caches] state the operations on those lists.
    - AllocateStack.v: [allocate_stack].  [allocate_stack_room]: a new stack has its guard and the room asked for, or
      the lists are as before but for a cached stack thrown away; [exec_race_dangles]: stacks become executable meanwhile.  [check_size_exact]: which sizes the arithmetic refuses.
    - Reclaim.v: [__reclaim_stacks] after a fork at any store of a list operation, recorded in [in_flight_stack] or not.
    - ThreadAttr.v: the attribute functions, with ownership of their heap blocks; [getattr_np_owns], and
      [getattr_oldattr_leaks] for the flag of the old attributes.
    - Tsd.v: [__nptl_deallocate_tsd]; it terminates and frees every block once, whatever the destructors do.
    - Process.v, ThreadExit.v, PthreadJoin.v, PthreadCreate.v: [start_thread], [__free_tcb], joining, cancelling and
      [pthread_create] on top of the stack functions; who owns a descriptor at each point.
    - Program.v, Setxid.v, SetxidProofs.v, SetxidDemo.v: [__nptl_setxid] among running, starting, ending
      and sleeping threads.  As long as the signal is refused only to threads that do not exist:
      [nptl_setxid_everywhere]: when it returns, all have the new ids; [nptl_setxid_progress]: nothing waits for
      ever; [exiting_not_left] answers the question a comment in pthread_create.c leaves open (lines 562 to 565).
      [nptl_setxid_misses]: any other refusal is taken for a thread that does not exist.
    - LookupScope.v, Bytes.v, StaticTls.v: [__wait_lookup_done] among threads that look up symbols, and
      [__pthread_init_static_tls] on the memory of Bytes.v.

    ** Starting processes

    - Unix.v: a process with its descriptors, pipes, children and the programs that run; fork runs the child up to its exec.
    - GExecute.v, GSpawnIo.v, GSpawnChild.v, GSpawn.v, GSpawnPipes.v, GSpawnApi.v, GSpawnSync.v, SpawnDemo.v: gspawn.c,
      from the search for the program and the report through a pipe to the exported functions.  [fork_exec_starts],
      [fork_exec_pipes_ends] and [do_exec_closes] account for every descriptor with [close_descriptors] and without an
      intermediate child; [g_spawn_sync_collects] says that the
      caller gets exactly what the program wrote, under every interleaving, with descriptors below FD_SETSIZE
      ([high_descriptor_overruns] otherwise).
    - LibcSystem.v: [system] in both versions, called by any number of threads: [system_signals] is the
      invariant of the shared dispositions, [system_progress] the absence of deadlocks.
    - Popen.v: [popen] and [pclose] in both versions, against one specification; [popen_pclose]: the status of the shell, or -1
      and a shell that nobody waits for.
    - Launch.v: the repository's own [CreateProcess] and [CreateProcess_ex].  [split_words_exact]: the
      words of a command; [create_process_ex_runs]: the program that is started, and the process it
      was started from; [create_process_ex_overflows]: an array that is too short.
    - Inherit.v: server.c and subprocess.c of InheritProcess, two threads and the process they start.
      [inherited_port_stays]: the program keeps the port of the server, whose next bind fails and ends it;
      [sock_cloexec_keeps_none]: with SOCK_CLOEXEC it has no listening socket, but [fd_cloexec_race]: FD_CLOEXEC comes too late.

    ** Communication

    - FrameIpc.v: frame_ipc.c over System V segments and semaphores; [frame_ipc_refines]: a box with room for one frame, up to
      [frames_wear_out]: undo counters that overflow.
    - FrameDemo.v: a.c and b.c on top of it; [frames_arrive]: each frame is printed at most once and in order.
    - SysVTests.v: test3.cpp and sem_test.c; [process3_leaves] and [sem_test_orders].
    - CallonIpc.v: the class [Ipc] over a message queue or sockets; [mqueue_carries].
    - Queues.v: test1.cpp and test2.cpp with any number of threads: [queues_bounded], [queues_progress], and
      what the repository's text says about the two ways to tell a thread: [sem_keeps_pairs] and [cond_leaves_pairs].

    ** Programs for debugging tools

    - Backtrace.v: libbacktrace on a memory of bytes, and the handler of main.c.  [watch_backtrace_prints]: what is
      printed, frame by frame; [entry_room_suffices]: the room for a name.
    - MoveDir.v: move.c on a file system of paths and links.  [move_dir_merges]: the tree that results;
      [move_dir_returns]: it ends, unless it faults.  The fuel of the calls is 513: every level makes the path longer, and
      512 bytes are refused; that of the loop of [sendfile] is one more than the bytes of the file.
    - Deadlock.v: main.c of the strace example.  [main_deadlocks]: the three threads can block one another for ever;
      [two_go_on]: two of them cannot.

    ** Not modelled

    Calls that only log or print, probes, and the templates of ipc.hpp.  client.c, process.c and test_stack_cache.c only call the
    system and print.  The programs that are undefined on purpose, to be looked at with a debugger or
    a sanitizer, have no behaviour to state; documents and scripts.  Memory is sequentially consistent.
    A child that was forked runs up to its exec before its parent goes on, except in Inherit.v and except that programs once
    started are interleaved; the two share nothing that would tell.  *)

From Stdlib Require Export ZArith Lia.
From stdpp Require Export numbers gmap list.

#[global] Open Scope Z_scope.

(** * Machine words

    [size_t] and [uintptr_t] are 64-bit: a value is a [Z] in [0, 2^64) and an
    arithmetic operation is followed by [w64], the reduction modulo [2^64]. *)

Definition W64 : Z := 18446744073709551616.

Definition w64 (x : Z) : Z := x `mod` W64.

Definition is_w64 (x : Z) : Prop := 0 ≤ x < W64.

(** An [int]: the conversion of a value to 32 bits with a sign. *)
Definition to_int (x : Z) : Z := (x + 2147483648) `mod` 4294967296 - 2147483648.

Declare Scope word_scope.
Delimit Scope word_scope with W.
Notation "x +w y" := (w64 (x + y)) (at level 50, left associativity) : word_scope.
Notation "x -w y" := (w64 (x - y)) (at level 50, left associativity) : word_scope.
Notation "x *w y" := (w64 (x * y)) (at level 40, left associativity) : word_scope.
(** [x & ~m], the mask idiom the code uses to round down; [m] is one less than
    a power of two. *)
Notation "x &~ m" := (Z.land x (Z.lnot m)) (at level 40, left associativity) : word_scope.
#[global] Open Scope word_scope.

Lemma W64_pos : 0 < W64.
Proof. reflexivity. Qed.

Lemma w64_range x : is_w64 (w64 x).
Proof. apply Z.mod_pos_bound, W64_pos. Qed.

Lemma w64_small x : is_w64 x → w64 x = x.
Proof. apply Z.mod_small. Qed.

Lemma w64_idemp x : w64 (w64 x) = w64 x.
Proof. apply w64_small, w64_range. Qed.

Lemma w64_add_l x y : w64 (w64 x + y) = w64 (x + y).
Proof. apply Zplus_mod_idemp_l. Qed.

Lemma w64_sub_l x y : w64 (w64 x - y) = w64 (x - y).
Proof. apply Zminus_mod_idemp_l. Qed.

Lemma w64_le x : 0 ≤ x → w64 x ≤ x.
Proof. intros. apply Z.mod_le; [done | apply W64_pos]. Qed.

(** An unsigned sum that comes out smaller than one of its terms wrapped, and
    conversely: the overflow test of the code is exact. *)
Lemma w64_add_wraps x y :
  is_w64 x → is_w64 y → w64 (x + y) < y ↔ W64 ≤ x + y.
Proof.
  unfold is_w64, w64. intros Hx Hy. split; intros H.
  - destruct (decide (x + y < W64)); [|lia].
    rewrite Z.mod_small in H by lia. lia.
  - replace ((x + y) `mod` W64) with (x + y - W64); [lia|].
    rewrite <- (Z.mod_small (x + y - W64) W64) by lia.
    rewrite <- (Z.mod_add (x + y - W64) 1 W64) by (unfold W64; lia).
    f_equal. lia.
Qed.

(** Linear arithmetic with the bounds of words unfolded. *)
Ltac w64lia := unfold is_w64, W64 in *; lia.

(** ** Rounding to a power of two *)

Definition pow2_m1 (m : Z) : Prop := ∃ k, 0 ≤ k ∧ m = 2 ^ k - 1.

Lemma mask_sub x m : pow2_m1 m → x &~ m = x - x `mod` (m + 1).
Proof.
  intros (k & Hk & ->). replace (2 ^ k - 1 + 1) with (2 ^ k) by lia.
  rewrite <- Z.land_ones by done.
  replace (2 ^ k - 1) with (Z.ones k) by (rewrite Z.ones_equiv; lia).
  rewrite <- Z.ldiff_land.
  pose proof (Z.add_lor_land (Z.ldiff x (Z.ones k)) (Z.land x (Z.ones k))) as E.
  rewrite Z.lor_ldiff_and in E.
  replace (Z.land (Z.ldiff x (Z.ones k)) (Z.land x (Z.ones k))) with 0 in E.
  { lia. }
  symmetry. apply Z.bits_inj'. intros n Hn.
  rewrite !Z.land_spec, Z.ldiff_spec, Z.bits_0.
  destruct (Z.testbit x n), (Z.testbit (Z.ones k) n); done.
Qed.

Lemma pow2_m1_nonneg m : pow2_m1 m → 0 ≤ m.
Proof. intros (k & Hk & ->). pose proof (Z.pow_pos_nonneg 2 k). lia. Qed.

Lemma mask_bounds x m : pow2_m1 m → x - m ≤ x &~ m ≤ x.
Proof.
  intros H. rewrite mask_sub by done. pose proof (pow2_m1_nonneg _ H).
  pose proof (Z.mod_pos_bound x (m + 1)). lia.
Qed.

Lemma mask_aligned x m : pow2_m1 m → (x &~ m) `mod` (m + 1) = 0.
Proof.
  intros H. rewrite mask_sub by done. pose proof (pow2_m1_nonneg _ H).
  rewrite Zminus_mod_idemp_r, Z.sub_diag, Z.mod_0_l by lia. done.
Qed.

Lemma mask_of_aligned x m : pow2_m1 m → x `mod` (m + 1) = 0 → x &~ m = x.
Proof. intros H E. rewrite mask_sub by done. lia. Qed.

Lemma mask_nonneg x m : pow2_m1 m → 0 ≤ x → 0 ≤ x &~ m.
Proof.
  intros H Hx. rewrite mask_sub by done. pose proof (pow2_m1_nonneg _ H).
  pose proof (Z.mod_le x (m + 1)). lia.
Qed.

(** * Lists *)

Lemma elem_of_rev {A} (x : A) (l : list A) : x ∈ rev l ↔ x ∈ l.
Proof. by rewrite !list_elem_of_In, <- in_rev. Qed.

Lemma fmap_rev {A B} (f : A → B) l : f <$> rev l = rev (f <$> l).
Proof. apply map_rev. Qed.

Lemma filter_seq_ext (P Q : nat → Prop) `{∀ c, Decision (P c), ∀ c, Decision (Q c)} a n :
  (∀ c, (a ≤ c)%nat → P c ↔ Q c) → filter P (seq a n) = filter Q (seq a n).
Proof.
  revert a. induction n as [|n IH]; intros a HPQ; [done|]. cbn [seq].
  rewrite !filter_cons, IH by (intros; apply HPQ; lia).
  pose proof (HPQ a ltac:(lia)). do 2 case_decide; tauto || done.
Qed.

#[export] Instance set_unfold_rev {A} (x : A) (l : list A) P :
  SetUnfoldElemOf x l P → SetUnfoldElemOf x (rev l) P.
Proof. constructor. rewrite elem_of_rev. apply set_unfold_elem_of, _. Qed.

(** ** Sums over a list *)

Section Sum.
Context {A : Type} (f : A → Z).
Definition sumZ (l : list A) : Z := foldr (λ x n, f x + n) 0 l.
Lemma sumZ_app l l' : sumZ (l ++ l') = sumZ l + sumZ l'.
Proof. induction l as [|x l IH]; cbn; [done|]. fold (sumZ (l ++ l')) (sumZ l). lia. Qed.
Lemma sumZ_insert l t x y : l !! t = Some x → sumZ (<[t:=y]> l) = sumZ l - f x + f y.
Proof.
  revert t. induction l as [|z l IH]; intros [|t] H; [done..| |].
  - injection H as ->. change (f y + sumZ l = f x + sumZ l - f x + f y). lia.
  - change (f z + sumZ (<[t:=y]> l) = f z + sumZ l - f x + f y). rewrite (IH t H). lia.
Qed.
Hypothesis nonneg : ∀ x, 0 ≤ f x.
Lemma sumZ_nonneg l : 0 ≤ sumZ l.
Proof. induction l as [|x l IH]; cbn; [done|]. pose proof (nonneg x). fold (sumZ l). lia. Qed.
Lemma sumZ_member l t x : l !! t = Some x → f x ≤ sumZ l.
Proof.
  revert t. induction l as [|z l IH]; intros [|t] H; [done..| |]; cbn; fold (sumZ l).
  - injection H as ->. pose proof (sumZ_nonneg l). lia.
  - specialize (IH t H). pose proof (nonneg z). lia.
Qed.
Lemma sumZ_positive l : 0 < sumZ l → ∃ t x, l !! t = Some x ∧ 0 < f x.
Proof.
  induction l as [|z l IH]; cbn; [lia|]. fold (sumZ l). intros H.
  destruct (Z.lt_ge_cases 0 (f z)) as [Hz|Hz]; [by exists 0%nat, z|].
  destruct IH as (t & x & Hx & Hf); [lia|]. by exists (S t), x.
Qed.
Lemma sumZ_zero l : (∀ t x, l !! t = Some x → f x = 0) → sumZ l = 0.
Proof.
  intros H. destruct (Z.lt_ge_cases 0 (sumZ l)) as [Hp|Hp]; [|pose proof (sumZ_nonneg l); lia].
  destruct (sumZ_positive _ Hp) as (t & x & Hx & Hf). specialize (H _ _ Hx). lia.
Qed.
End Sum.

(** * Outcomes and the state monad

    A call either returns a value in a new state, or stops: a failed [assert],
    an [abort ()], an access to memory that is not mapped, an [exit], a wait
    that nobody ends, or a successful [execve].  A library function that fails returns an error value,
    which is an ordinary result. *)

Inductive stop := AssertFailed | Aborted | Fault | Exited | Blocked | Replaced.

#[export] Instance stop_eq_dec : EqDecision stop.
Proof. solve_decision. Defined.

Inductive outcome (S A : Type) : Type :=
  | Done (a : A) (s : S)
  | Stop (w : stop) (s : S).
Arguments Done {S A} a s.
Arguments Stop {S A} w s.

Definition M (S A : Type) : Type := S → outcome S A.

#[export] Instance M_ret {S} : MRet (M S) := λ A a s, Done a s.
#[export] Instance M_bind {S} : MBind (M S) := λ A B k m s,
  match m s with
  | Done a s' => k a s'
  | Stop w s' => Stop w s'
  end.
#[export] Instance M_fmap {S} : FMap (M S) := λ A B f m s,
  match m s with
  | Done a s' => Done (f a) s'
  | Stop w s' => Stop w s'
  end.

Section Primitives.
Context {S : Type}.

Definition gets {A} (f : S → A) : M S A := λ s, Done (f s) s.
Definition modify (f : S → S) : M S () := λ s, Done () (f s).
Definition stop_with {A} (w : stop) : M S A := λ s, Stop w s.
Definition assert (b : bool) : M S () :=
  if b then mret () else stop_with AssertFailed.
Definition from_option_or {A} (w : stop) (o : option A) : M S A :=
  match o with Some a => mret a | None => stop_with w end.
Definition when (b : bool) (m : M S ()) : M S () :=
  if b then m else mret ().

(** A [for] loop over a list of items, left to right. *)
Fixpoint mfor {A} (xs : list A) (body : A → M S ()) : M S () :=
  match xs with
  | [] => mret ()
  | x :: xs => body x;; mfor xs body
  end.

(** The same with an early exit: the body answers whether to [break]. *)
Fixpoint mfor_break {A} (xs : list A) (body : A → M S bool) : M S () :=
  match xs with
  | [] => mret ()
  | x :: xs => b ← body x; if b : bool then mret () else mfor_break xs body
  end.
End Primitives.

(** ** Total correctness

    [wp m Q s]: run in [s], the call returns, and [Q] holds of the result. *)

Definition wp {S A} (m : M S A) (Q : A → S → Prop) (s : S) : Prop :=
  match m s with
  | Done a s' => Q a s'
  | Stop _ _ => False
  end.

Section Wp.
Context {S : Type}.
Implicit Types s : S.

Lemma wp_ret {A} (a : A) Q s : Q a s → wp (mret a) Q s.
Proof. done. Qed.

Lemma wp_bind {A B} (m : M S A) (k : A → M S B) Q s :
  wp m (λ a s', wp (k a) Q s') s → wp (m ≫= k) Q s.
Proof. unfold wp, mbind, M_bind. by destruct (m s). Qed.

Lemma wp_bind_inv {A B} (m : M S A) (k : A → M S B) Q s :
  wp (m ≫= k) Q s → wp m (λ a s', wp (k a) Q s') s.
Proof. unfold wp, mbind, M_bind. by destruct (m s). Qed.

Lemma wp_mono {A} (m : M S A) (P Q : A → S → Prop) s :
  wp m P s → (∀ a s', P a s' → Q a s') → wp m Q s.
Proof. unfold wp. destruct (m s); auto. Qed.

Lemma wp_gets {A} (f : S → A) Q s : Q (f s) s → wp (gets f) Q s.
Proof. done. Qed.

Lemma wp_modify (f : S → S) Q s : Q () (f s) → wp (modify f) Q s.
Proof. done. Qed.

Lemma wp_assert b (Q : () → S → Prop) s : b = true → Q () s → wp (assert b) Q s.
Proof. by intros ->. Qed.

Lemma wp_from_option {A} w (o : option A) a Q s :
  o = Some a → Q a s → wp (from_option_or w o) Q s.
Proof. by intros ->. Qed.

Lemma wp_if {A} (b : bool) (m1 m2 : M S A) Q s :
  (b = true → wp m1 Q s) → (b = false → wp m2 Q s) →
  wp (if b then m1 else m2) Q s.
Proof. destruct b; auto. Qed.

Lemma wp_done {A} (m : M S A) Q s :
  wp m Q s → ∃ a s', m s = Done a s' ∧ Q a s'.
Proof. unfold wp. destruct (m s) as [a s'|]; [eauto | done]. Qed.

Lemma wp_run {A} (m : M S A) Q s a s' : wp m Q s → m s = Done a s' → Q a s'.
Proof. unfold wp. intros H E. by rewrite E in H. Qed.

Lemma wp_mfor {A} (I : list A → S → Prop) (xs : list A) body (Q : () → S → Prop) s :
  I xs s →
  (∀ x xs s, I (x :: xs) s → wp (body x) (λ _ s', I xs s') s) →
  (∀ s, I [] s → Q () s) →
  wp (mfor xs body) Q s.
Proof.
  intros HI Hb HQ. revert s HI. induction xs as [|x xs IH]; intros s HI; cbn.
  - by apply HQ.
  - apply wp_bind. eapply wp_mono; [by apply Hb|]. intros ? s'. apply IH.
Qed.

Lemma mbind_done {A B} (m : M S A) (k : A → M S B) s a s' :
  m s = Done a s' → (m ≫= k) s = k a s'.
Proof. unfold mbind, M_bind. by intros ->. Qed.

Lemma mbind_stop {A B} (m : M S A) (k : A → M S B) s w s' :
  m s = Stop w s' → (m ≫= k) s = Stop w s'.
Proof. unfold mbind, M_bind. by intros ->. Qed.

Lemma mbind_assoc {A B C} (m : M S A) (k : A → M S B) (h : B → M S C) s :
  ((m ≫= k) ≫= h) s = (m ≫= λ a, k a ≫= h) s.
Proof. unfold mbind, M_bind. by destruct (m s). Qed.
End Wp.

Lemma wp_conj {S A} (m : M S A) (P Q : A → S → Prop) s :
  wp m P s → wp m Q s → wp m (λ a s', P a s' ∧ Q a s') s.
Proof. unfold wp. by destruct (m s). Qed.

(** ** Calls that may stop

    [wpx m Q E s]: the call returns with [Q], or stops with [E]. *)

Definition wpx {S A} (m : M S A) (Q : A → S → Prop) (E : stop → S → Prop) (s : S) : Prop :=
  match m s with
  | Done a s' => Q a s'
  | Stop w s' => E w s'
  end.

Section Wpx.
Context {S : Type} (E : stop → S → Prop).
Implicit Types s : S.

Lemma wpx_ret {A} (a : A) (Q : A → S → Prop) s : Q a s → wpx (mret a) Q E s.
Proof. done. Qed.
Lemma wpx_bind {A B} (m : M S A) (k : A → M S B) Q s :
  wpx m (λ a s', wpx (k a) Q E s') E s → wpx (m ≫= k) Q E s.
Proof. unfold wpx, mbind, M_bind. by destruct (m s). Qed.
Lemma wpx_mono {A} (m : M S A) (P Q : A → S → Prop) (E' : stop → S → Prop) s :
  wpx m P E' s → (∀ a s', P a s' → Q a s') → (∀ w s', E' w s' → E w s') → wpx m Q E s.
Proof. unfold wpx. destruct (m s); auto. Qed.
Lemma wpx_wp {A} (m : M S A) (Q : A → S → Prop) s : wp m Q s → wpx m Q E s.
Proof. unfold wp, wpx. by destruct (m s). Qed.
Lemma wpx_gets {A} (f : S → A) (Q : A → S → Prop) s : Q (f s) s → wpx (gets f) Q E s.
Proof. done. Qed.
Lemma wpx_modify (f : S → S) (Q : () → S → Prop) s : Q () (f s) → wpx (modify f) Q E s.
Proof. done. Qed.
Lemma wpx_stop {A} w (Q : A → S → Prop) s : E w s → wpx (stop_with w) Q E s.
Proof. done. Qed.
Lemma wpx_if {A} (b : bool) (m1 m2 : M S A) (Q : A → S → Prop) s :
  (b = true → wpx m1 Q E s) → (b = false → wpx m2 Q E s) →
  wpx (if b then m1 else m2) Q E s.
Proof. destruct b; auto. Qed.
Lemma wpx_assert b (Q : () → S → Prop) s :
  (b = true → Q () s) → (b = false → E AssertFailed s) → wpx (assert b) Q E s.
Proof. destruct b; unfold wpx; cbn; auto. Qed.
End Wpx.

Create HintDb keeps.

(** ** Partial frames

    [keeps f m]: if the call returns, [f] of the state is as before. *)

Definition keeps {S A B} (f : S → B) (m : M S A) : Prop :=
  ∀ s, match m s with Done _ s' => f s' = f s | Stop _ _ => True end.

Section Keeps.
Context {S B : Type} (f : S → B).

Lemma keeps_ret {A} (a : A) : keeps f (mret a).
Proof. done. Qed.
Lemma keeps_gets {A} (g : S → A) : keeps f (gets g).
Proof. done. Qed.
Lemma keeps_stop {A} w : keeps f (stop_with (A := A) w).
Proof. done. Qed.
Lemma keeps_modify (g : S → S) : (∀ s, f (g s) = f s) → keeps f (modify g).
Proof. intros H s. apply H. Qed.
Lemma keeps_bind {A C} (m : M S A) (k : A → M S C) :
  keeps f m → (∀ a, keeps f (k a)) → keeps f (m ≫= k).
Proof.
  intros Hm Hk s. specialize (Hm s). unfold mbind, M_bind. destruct (m s) as [a s'|]; [|done].
  specialize (Hk a s'). destruct (k a s'); [congruence|done].
Qed.
Lemma keeps_when b (m : M S ()) : keeps f m → keeps f (when b m).
Proof. by destruct b. Qed.
Lemma keeps_mfor {A} (xs : list A) (body : A → M S ()) :
  (∀ x, keeps f (body x)) → keeps f (mfor xs body).
Proof.
  intros Hb. induction xs as [|x xs IH]; cbn; [apply keeps_ret|]. by apply keeps_bind.
Qed.
Lemma keeps_wp {A} (m : M S A) s :
  keeps f m → wp m (λ _ _, True) s → wp m (λ _ s', f s' = f s) s.
Proof. intros Hk. specialize (Hk s). unfold wp. by destruct (m s). Qed.
End Keeps.

#[export] Hint Resolve keeps_ret keeps_gets keeps_stop keeps_when keeps_mfor : keeps.

(** The tactics of the development: [wp_step] takes one statement of a call,
    [wp_go] all of them that need no thought.  A component adds the statements
    of its own by redefining [wp_prim]. *)
Ltac wp_prim := fail.
Ltac wp_step :=
  lazymatch goal with
  | |- wp (mret _) _ _ => apply wp_ret
  | |- wp (_ ≫= _) _ _ => apply wp_bind
  | |- wp (gets _) _ _ => apply wp_gets
  | |- wp (modify _) _ _ => apply wp_modify
  | |- wp (when _ _) _ _ => unfold when
  | |- wp (assert _) _ _ => apply wp_assert
  | |- wp (if _ then _ else _) _ _ => apply wp_if; intros
  | |- wp _ _ _ => wp_prim
  end.
Ltac wp_go := repeat (wp_step; cbn beta).

Ltac wpx_step :=
  lazymatch goal with
  | |- wpx (mret _) _ _ _ => apply wpx_ret
  | |- wpx (_ ≫= _) _ _ _ => apply wpx_bind
  | |- wpx (gets _) _ _ _ => apply wpx_gets
  | |- wpx (modify _) _ _ _ => apply wpx_modify
  | |- wpx (stop_with _) _ _ _ => apply wpx_stop
  | |- wpx (when _ _) _ _ _ => unfold when
  | |- wpx (assert _) _ _ _ => apply wpx_assert
  | |- wpx (if _ then _ else _) _ _ _ => apply wpx_if; intros
  end.
Ltac wpx_go := repeat (wpx_step; cbn beta).

(** * Record update

    [r <| f := v |>] replaces one field.  A record type gives its
    [Eta] expansion once; the setter of each field is computed from it. *)

Class Eta (R : Type) := eta_expand : R → R.
Class Setter {R A : Type} (proj : R → A) := set_field : A → R → R.
Arguments set_field {R A} proj {_} v r : simpl never.

Ltac solve_setter :=
  lazymatch goal with
  | |- @Setter ?R ?A ?proj =>
      let body := constr:(λ (new_value : A) (old_record : R), ltac:(
        let e := eval hnf in (eta_expand old_record) in
        let g := eval pattern (proj old_record) in e in
        lazymatch g with
        | ?h _ => let t := eval cbv beta in (h new_value) in exact t
        end)) in
      exact body
  end.
#[export] Hint Extern 1 (Setter _) => solve_setter : typeclass_instances.

Notation "r <| f := v |>" := (set_field f v r)
  (at level 1, left associativity, format "r <| f  :=  v |>").

(** [rs] reads fields of updated records: [f (r <| f := v |>)] is [v], and
    another field is that of [r]. *)
Ltac rs_step :=
  match goal with
  | |- context [?f (@set_field _ _ ?f ?i ?v ?r)] =>
      change (f (@set_field _ _ f i v r)) with v
  | |- context [?f (@set_field _ _ ?g ?i ?v ?r)] =>
      change (f (@set_field _ _ g i v r)) with (f r)
  end.
Ltac rs_step_in H :=
  match type of H with
  | context [?f (@set_field _ _ ?f ?i ?v ?r)] =>
      change (f (@set_field _ _ f i v r)) with v in H
  | context [?f (@set_field _ _ ?g ?i ?v ?r)] =>
      change (f (@set_field _ _ g i v r)) with (f r) in H
  end.
Tactic Notation "rs" := repeat rs_step.
Tactic Notation "rs" "in" hyp(H) := repeat rs_step_in H.
Ltac rs_all :=
  rs; repeat match goal with H : context [@set_field] |- _ => progress (rs in H) end.
