(* ===== verification/ListHead.v ===== *)
(** The doubly linked lists of descriptors.

    The thread library chains descriptors through an embedded [list_t], in
    rings that start and end at a list head.  [allocatestack.c] uses the
    operations of [<list.h>], which is not part of this repository: they are the
    typeclass [ListApi], with their documented behaviour in [ListLaws].  The
    clients are proved against the class; [list_h] is an instance with the usual
    pointer writes, which the examples run. *)
From S2P Require Import Prelude.

(** * Link memory *)

Abbreviation ptr := Z (only parsing).

(** One [list_t]: [next] and [prev]. *)
Record list_t := mkList { next : ptr; prev : ptr }.
#[export] Instance eta_list_t : Eta list_t := λ l, mkList (next l) (prev l).
#[export] Instance list_t_eq_dec : EqDecision list_t.
Proof. solve_decision. Defined.

(** Address of a [list_t] to its contents. *)
Abbreviation lmem := (gmap Z list_t).

(** A store into one field of a [list_t]. *)
Inductive write := WNext (p v : ptr) | WPrev (p v : ptr).

Definition write_addr (w : write) : ptr :=
  match w with WNext p _ | WPrev p _ => p end.

(** A fresh [list_t] is zero-filled memory, so a store into an address that
    holds none yet starts from two null pointers. *)
Definition lget (m : lmem) (p : ptr) : list_t := default (mkList 0 0) (m !! p).

Definition do_write (w : write) (m : lmem) : lmem :=
  match w with
  | WNext p v => <[p := (lget m p) <| next := v |>]> m
  | WPrev p v => <[p := (lget m p) <| prev := v |>]> m
  end.

Definition do_writes (ws : list write) (m : lmem) : lmem :=
  fold_left (λ m w, do_write w m) ws m.

Definition nxt (m : lmem) (p : ptr) : option ptr := next <$> m !! p.
Definition prv (m : lmem) (p : ptr) : option ptr := prev <$> m !! p.

(** * Rings *)

(** [lseg m x l z]: from [x], through the elements of [l] in order, to [z], each
    pair of neighbours pointing at each other. *)
Fixpoint lseg (m : lmem) (x : ptr) (l : list ptr) (z : ptr) : Prop :=
  match l with
  | [] => nxt m x = Some z ∧ prv m z = Some x
  | y :: l => nxt m x = Some y ∧ prv m y = Some x ∧ lseg m y l z
  end.

(** [ring m h l]: the list with head [h] holds exactly [l], in order, and can be
    walked in both directions. *)
Definition ring (m : lmem) (h : ptr) (l : list ptr) : Prop :=
  NoDup (h :: l) ∧ lseg m h l h.

Class ListApi := {
  (** the stores of [list_add (elem, head)], in order *)
  list_add_writes : lmem → ptr → ptr → list write;
  (** the stores of [list_del (elem)] *)
  list_del_writes : lmem → ptr → list write;
  (** [INIT_LIST_HEAD (head)] *)
  INIT_LIST_HEAD : ptr → lmem → lmem;
  (** [list_splice (add, head)] *)
  list_splice : ptr → ptr → lmem → lmem;
  (** the entries [list_for_each] visits, and those of
      [list_for_each_prev_safe], whose body may unlink the current entry *)
  list_for_each : lmem → ptr → list ptr;
  list_for_each_prev_safe : lmem → ptr → list ptr;
}.

Definition list_add `{ListApi} (e h : ptr) (m : lmem) : lmem :=
  do_writes (list_add_writes m e h) m.
Definition list_del `{ListApi} (e : ptr) (m : lmem) : lmem :=
  do_writes (list_del_writes m e) m.

(** Documented behaviour.  [list_add] inserts after the head: it fills in the
    new element, then makes the old first element point back at it, then
    publishes it in the head.  [list_del] makes the two neighbours of the
    element point at each other.  [list_splice] moves the entries of one list
    to the front of another. *)
Class ListLaws `{ListApi} := {
  list_add_order m e h : ∃ own,
    Permutation own [WNext e (next (lget m h)); WPrev e h] ∧
    list_add_writes m e h = own ++ [WPrev (next (lget m h)) e; WNext h e];
  list_del_order m e :
    Permutation (list_del_writes m e)
      [WPrev (next (lget m e)) (prev (lget m e));
       WNext (prev (lget m e)) (next (lget m e))];
  init_ring h m : ring (INIT_LIST_HEAD h m) h [];
  init_frame h m p : p ≠ h → INIT_LIST_HEAD h m !! p = m !! p;
  splice_ring a h m la lh :
    ring m a la → ring m h lh → NoDup (a :: la ++ h :: lh) →
    ring (list_splice a h m) h (la ++ lh);
  splice_frame a h m la lh p :
    ring m a la → ring m h lh → NoDup (a :: la ++ h :: lh) →
    p ∉ la ++ h :: lh → list_splice a h m !! p = m !! p;
  for_each_ring m h l : ring m h l → list_for_each m h = l;
  for_each_prev_ring m h l : ring m h l → list_for_each_prev_safe m h = rev l;
}.

(** * Link memory lemmas *)

Section LinkMemory.
Implicit Types (m : lmem) (l : list ptr).

Lemma nxt_WNext m p v q :
  nxt (do_write (WNext p v) m) q = if decide (p = q) then Some v else nxt m q.
Proof. unfold nxt. cbn. rewrite lookup_insert. by case_decide. Qed.

Lemma prv_WPrev m p v q :
  prv (do_write (WPrev p v) m) q = if decide (p = q) then Some v else prv m q.
Proof. unfold prv. cbn. rewrite lookup_insert. by case_decide. Qed.

Lemma nxt_WPrev m p v q x :
  nxt m q = Some x → nxt (do_write (WPrev p v) m) q = Some x.
Proof.
  unfold nxt. cbn. rewrite lookup_insert. case_decide as D; [|done].
  subst p. unfold lget. by destruct (m !! q).
Qed.

Lemma prv_WNext m p v q x :
  prv m q = Some x → prv (do_write (WNext p v) m) q = Some x.
Proof.
  unfold prv. cbn. rewrite lookup_insert. case_decide as D; [|done].
  subst p. unfold lget. by destruct (m !! q).
Qed.

Lemma nxt_lget m p x : nxt m p = Some x → next (lget m p) = x.
Proof. unfold nxt, lget. destruct (m !! p); naive_solver. Qed.

Lemma prv_lget m p x : prv m p = Some x → prev (lget m p) = x.
Proof. unfold prv, lget. destruct (m !! p); naive_solver. Qed.

Lemma do_write_frame w m p : p ≠ write_addr w → do_write w m !! p = m !! p.
Proof. destruct w; cbn; intros; by rewrite lookup_insert_ne. Qed.

Lemma do_writes_app ws1 ws2 m :
  do_writes (ws1 ++ ws2) m = do_writes ws2 (do_writes ws1 m).
Proof. apply fold_left_app. Qed.

Lemma do_writes_frame ws m p :
  p ∉ write_addr <$> ws → do_writes ws m !! p = m !! p.
Proof.
  revert m. induction ws as [|w ws IH]; intros m Hp; [done|].
  cbn. cbn in Hp. apply not_elem_of_cons in Hp as [??].
  rewrite IH by done. by apply do_write_frame.
Qed.

(** Stores into different fields commute, and a store repeated is one store. *)
Lemma writes_commute m a u b v :
  do_write (WPrev a u) (do_write (WNext b v) m) =
  do_write (WNext b v) (do_write (WPrev a u) m).
Proof.
  cbn. destruct (decide (a = b)) as [->|D].
  - unfold lget. rewrite !lookup_insert_eq, !insert_insert_eq. done.
  - unfold lget. rewrite !lookup_insert_ne by done.
    by rewrite insert_insert_ne by done.
Qed.

Lemma write_twice w m : do_write w (do_write w m) = do_write w m.
Proof.
  destruct w; cbn; unfold lget; by rewrite lookup_insert_eq, insert_insert_eq.
Qed.

Lemma lseg_app m x l1 y l2 z :
  lseg m x (l1 ++ y :: l2) z ↔ lseg m x l1 y ∧ lseg m y l2 z.
Proof. revert x. induction l1; intros; cbn; [tauto|]. rewrite IHl1. tauto. Qed.

Lemma lseg_agree m m' x l z :
  (∀ p v, p ∈ x :: l → nxt m p = Some v → nxt m' p = Some v) →
  (∀ p v, p ∈ l ++ [z] → prv m p = Some v → prv m' p = Some v) →
  lseg m x l z → lseg m' x l z.
Proof.
  revert x. induction l as [|y l IH]; intros x Hn Hp; cbn.
  - intros [??]. split; [apply Hn | apply Hp]; set_solver.
  - intros (? & ? & ?). split_and!; [apply Hn | apply Hp | apply IH]; set_solver.
Qed.

Lemma ring_frame m m' h l :
  (∀ p, p ∈ h :: l → m' !! p = m !! p) → ring m h l → ring m' h l.
Proof.
  intros E [Hnd Hs]. split; [done|]. revert Hs.
  apply lseg_agree; intros p v Hp; unfold nxt, prv; rewrite E; set_solver.
Qed.

Lemma ring_nxt m h l : ring m h l → nxt m h = Some (hd h l).
Proof. intros [_ Hs]. destruct l; cbn in *; naive_solver. Qed.

Lemma ring_prv_first m h l : ring m h l → prv m (hd h l) = Some h.
Proof. intros [_ Hs]. destruct l; cbn in *; naive_solver. Qed.

Lemma ring_mapped m h l p : ring m h l → p ∈ h :: l → is_Some (m !! p).
Proof.
  intros [_ Hs] Hp. enough (∃ v, nxt m p = Some v) as [v Hv].
  { unfold nxt in Hv. destruct (m !! p); [eauto | done]. }
  revert Hs Hp. generalize h at 1 3 as x. induction l as [|y l IH]; intros x; cbn.
  - intros [? _] ?. set_solver.
  - intros (? & ? & ?) [->|Hp]%elem_of_cons; [eauto|]. by apply (IH y).
Qed.
End LinkMemory.

(** * The effect of the list operations on a ring *)

(** The state after the stores into the element alone, and after the store that
    makes the old first element point back at it. *)
Definition add_own (e h : ptr) (m : lmem) : lmem :=
  <[e := mkList (next (lget m h)) h]> m.
Definition add_back (e h : ptr) (m : lmem) : lmem :=
  do_write (WPrev (next (lget m h)) e) (add_own e h m).

Section ListOps.
Context {LA : ListApi} {LL : ListLaws}.
Implicit Types (m : lmem) (l : list ptr).

Lemma own_writes m e h own :
  Permutation own [WNext e (next (lget m h)); WPrev e h] →
  do_writes own m = add_own e h m.
Proof.
  intros P. symmetry in P. apply Permutation_length_2_inv in P as [-> | ->]; cbn;
    unfold add_own, lget; by rewrite lookup_insert_eq, insert_insert_eq.
Qed.

Lemma list_add_eq m e h :
  list_add e h m = do_write (WNext h e) (add_back e h m).
Proof.
  unfold list_add. destruct (list_add_order m e h) as (own & P & ->).
  rewrite do_writes_app, (own_writes m e h own P). done.
Qed.

Lemma list_del_eq m e :
  list_del e m =
  do_write (WNext (prev (lget m e)) (next (lget m e)))
    (do_write (WPrev (next (lget m e)) (prev (lget m e))) m).
Proof.
  unfold list_del. pose proof (list_del_order m e) as P. symmetry in P.
  apply Permutation_length_2_inv in P as [-> | ->]; cbn [do_writes fold_left]; [done|].
  apply writes_commute.
Qed.

Lemma list_add_frame m e h l p :
  ring m h l → p ≠ e → p ∉ h :: l → list_add e h m !! p = m !! p.
Proof.
  intros R Hpe Hp. rewrite list_add_eq. unfold add_back.
  rewrite (nxt_lget _ _ _ (ring_nxt _ _ _ R)).
  rewrite do_write_frame by (cbn; set_solver).
  rewrite do_write_frame by (cbn; destruct l; set_solver).
  unfold add_own. by rewrite lookup_insert_ne.
Qed.

Lemma add_own_frame m e h p : p ≠ e → add_own e h m !! p = m !! p.
Proof. intros. unfold add_own. by rewrite lookup_insert_ne. Qed.

(** From the state between the second and the third store, publishing the
    element in the head completes the insertion. *)
Lemma ring_publish m e h l :
  ring m h l → e ∉ h :: l → ring (do_write (WNext h e) (add_back e h m)) h (e :: l).
Proof.
  intros R He. pose proof R as [Hnd Hs]. unfold add_back.
  rewrite (nxt_lget _ _ _ (ring_nxt _ _ _ R)).
  assert (Hown : ∀ p, p ≠ e → add_own e h m !! p = m !! p)
    by (intros; by apply add_own_frame).
  assert (Ee : nxt (add_own e h m) e = Some (hd h l) ∧ prv (add_own e h m) e = Some h).
  { unfold add_own, nxt, prv. rewrite lookup_insert_eq. cbn.
    by rewrite (nxt_lget _ _ _ (ring_nxt _ _ _ R)). }
  set (m1 := add_own e h m) in *.
  assert (Hsame : ∀ p, p ≠ e → nxt m1 p = nxt m p ∧ prv m1 p = prv m p).
  { intros p Hp. unfold nxt, prv. by rewrite Hown. }
  destruct Ee as [Ee1 Ee2].
  split; [apply NoDup_cons in Hnd as [??]; repeat constructor; set_solver|].
  cbn [lseg]. split_and!.
  - rewrite nxt_WNext. by case_decide.
  - apply prv_WNext. rewrite prv_WPrev. case_decide; [|done]. destruct l; set_solver.
  - destruct l as [|y l]; cbn [lseg hd] in *.
    + rewrite nxt_WNext. case_decide; [set_solver|]. split; [by apply nxt_WPrev|].
      apply prv_WNext. rewrite prv_WPrev. by case_decide.
    + destruct Hs as (Hs1 & Hs2 & Hs3). rewrite nxt_WNext.
      case_decide; [set_solver|]. split_and!; [by apply nxt_WPrev| |].
      { apply prv_WNext. rewrite prv_WPrev. by case_decide. }
      apply NoDup_cons in Hnd as [Hh Hnd]. apply NoDup_cons in Hnd as [Hy Hnd].
      revert Hs3. apply lseg_agree; intros p v Hp Hv.
      * rewrite nxt_WNext. case_decide; [set_solver|]. apply nxt_WPrev.
        by rewrite (proj1 (Hsame p ltac:(set_solver))).
      * apply prv_WNext. rewrite prv_WPrev.
        case_decide; [set_solver|]. by rewrite (proj2 (Hsame p ltac:(set_solver))).
Qed.

Lemma list_add_ring m e h l :
  ring m h l → e ∉ h :: l → ring (list_add e h m) h (e :: l).
Proof. intros. rewrite list_add_eq. by apply ring_publish. Qed.

Lemma ring_middle m h l1 e l2 :
  ring m h (l1 ++ e :: l2) →
  next (lget m e) = hd h l2 ∧ prev (lget m e) = List.last l1 h.
Proof.
  intros [_ Hs]. apply lseg_app in Hs as [H1 H2]. split.
  - apply nxt_lget. destruct l2; cbn in *; naive_solver.
  - apply prv_lget. destruct l1 as [|x l1 _] using rev_ind; cbn in *; [naive_solver|].
    rewrite last_last. apply lseg_app in H1. cbn in H1. naive_solver.
Qed.

Lemma list_del_frame m h l1 e l2 p :
  ring m h (l1 ++ e :: l2) → p ∉ h :: l1 ++ l2 → list_del e m !! p = m !! p.
Proof.
  intros R Hp. rewrite list_del_eq. destruct (ring_middle _ _ _ _ _ R) as [-> ->].
  rewrite do_write_frame, do_write_frame; [done| |]; cbn.
  - destruct l2; set_solver.
  - destruct l1 as [|x l1 _] using rev_ind; cbn; [|rewrite last_last]; set_solver.
Qed.

Lemma list_del_ring m h l1 e l2 :
  ring m h (l1 ++ e :: l2) → ring (list_del e m) h (l1 ++ l2).
Proof.
  intros R. pose proof R as [Hnd Hs]. rewrite list_del_eq.
  destruct (ring_middle _ _ _ _ _ R) as [-> ->].
  apply lseg_app in Hs as [H1 H2].
  assert (Hnd' : NoDup (h :: l1 ++ l2)).
  { apply NoDup_cons in Hnd as [Hh Hnd]. apply NoDup_app in Hnd as (N1 & N2 & N3).
    apply NoDup_cons in N3 as [N3 N4]. apply NoDup_cons; split; [set_solver|].
    apply NoDup_app; set_solver. }
  split; [done|].
  assert (Hl1 : lseg (do_write (WNext (List.last l1 h) (hd h l2))
      (do_write (WPrev (hd h l2) (List.last l1 h)) m)) h l1 (hd h l2)).
  { destruct l1 as [|x l1 _] using rev_ind; cbn [lseg List.last].
    - split; [rewrite nxt_WNext; by case_decide|].
      apply prv_WNext. rewrite prv_WPrev. by case_decide.
    - rewrite last_last. apply lseg_app in H1 as [H1 H1'].
      apply lseg_app. split.
      + revert H1. apply lseg_agree; intros p v Hp Hv.
        * rewrite nxt_WNext. case_decide; [|by apply nxt_WPrev].
          exfalso. subst p. rewrite <- app_assoc in Hnd'.
          clear -Hnd' Hp. apply NoDup_cons in Hnd' as [Hh Hnd'].
          apply NoDup_app in Hnd' as (N1 & N2 & N3). set_solver.
        * apply prv_WNext. rewrite prv_WPrev. case_decide; [|done].
          exfalso. rewrite <- app_assoc in Hnd'. subst p. clear -Hnd' Hp.
          apply NoDup_cons in Hnd' as [Hh Hnd'].
          apply NoDup_app in Hnd' as (N1 & N2 & N3).
          apply NoDup_cons in N3 as [N3 N4]. destruct l2; set_solver.
      + cbn [lseg]. split; [rewrite nxt_WNext; by case_decide|].
        apply prv_WNext. rewrite prv_WPrev. by case_decide. }
  destruct l2 as [|y l2]; [by rewrite app_nil_r|].
  apply lseg_app. split; [exact Hl1|]. cbn [lseg hd] in *.
  destruct H2 as (_ & _ & H2). revert H2.
  apply NoDup_cons in Hnd' as [Hh Hnd']. apply NoDup_app in Hnd' as (_ & Hd & Hnd').
  apply NoDup_cons in Hnd' as [Hy _].
  apply lseg_agree; intros p v Hp Hv.
  - rewrite nxt_WNext. case_decide; [|by apply nxt_WPrev]. exfalso. subst p.
    destruct l1 as [|x l1 _] using rev_ind; cbn in *; [|rewrite last_last in Hp]; set_solver.
  - apply prv_WNext. rewrite prv_WPrev. case_decide; [|done]. set_solver.
Qed.
End ListOps.

(** * Changing an end of a segment *)

Lemma last_in {A} (l : list A) x : List.last l x ∈ x :: l.
Proof.
  destruct l as [|y l _] using rev_ind; [set_solver|]. rewrite last_last. set_solver.
Qed.

Lemma last_cons {A} (l : list A) x y : List.last (y :: l) x = List.last l y.
Proof.
  revert x y. induction l as [|z l IH]; intros x y; [done|].
  transitivity (List.last (z :: l) x); [done|]. by rewrite !IH.
Qed.

Lemma lseg_end m m' x l z z' :
  NoDup (x :: l) →
  (∀ q v, q ∈ x :: l → q ≠ List.last l x → nxt m q = Some v → nxt m' q = Some v) →
  (∀ q v, q ∈ l → prv m q = Some v → prv m' q = Some v) →
  nxt m' (List.last l x) = Some z' → prv m' z' = Some (List.last l x) →
  lseg m x l z → lseg m' x l z'.
Proof.
  revert x. induction l as [|y l IH]; intros x Hnd Hn Hp En Ep; [done|].
  rewrite last_cons in *. apply NoDup_cons in Hnd as [Hx Hnd].
  pose proof (last_in l y) as Hl. cbn. intros (H1 & H2 & H3). split_and!.
  - apply Hn; set_solver.
  - apply Hp; set_solver.
  - apply IH; try done; intros q v Hq; [apply Hn | apply Hp]; set_solver.
Qed.

Lemma lseg_start m m' x x' l z :
  nxt m' x' = Some (hd z l) → prv m' (hd z l) = Some x' →
  (∀ q v, q ∈ l → nxt m q = Some v → nxt m' q = Some v) →
  (∀ q v, q ∈ tl (l ++ [z]) → prv m q = Some v → prv m' q = Some v) →
  lseg m x l z → lseg m' x' l z.
Proof.
  destruct l as [|y l]; [done|]. cbn [lseg hd tl app]. intros En Ep Hn Hp (_ & _ & H).
  split_and!; [done..|]. revert H. apply lseg_agree; eauto.
Qed.

(** * A fork in the middle of a list operation

    The states another thread can see while [list_add] or [list_del] runs: the
    memory after any prefix of the stores. *)

Section Interrupted.
Context {LA : ListApi} {LL : ListLaws}.
Implicit Types (m : lmem) (l : list ptr).

Definition add_interrupted (e h : ptr) (m m' : lmem) : Prop :=
  ∃ n, m' = do_writes (take n (list_add_writes m e h)) m.
Definition del_interrupted (e : ptr) (m m' : lmem) : Prop :=
  ∃ n, m' = do_writes (take n (list_del_writes m e)) m.

Lemma only_own_frame ws e m p :
  (∀ w, w ∈ ws → write_addr w = e) → p ≠ e → do_writes ws m !! p = m !! p.
Proof.
  intros Hw' Hp. apply do_writes_frame. intros (w & -> & Hw)%list_elem_of_fmap.
  by rewrite Hw' in Hp.
Qed.

(** The only three shapes: the element alone has been written; its successor
    points back at it but the head does not point at it yet; all is done. *)
Lemma add_interrupted_shapes e h m m' :
  add_interrupted e h m m' →
  (∀ p, p ≠ e → m' !! p = m !! p) ∨
  m' = add_back e h m ∨
  m' = list_add e h m.
Proof.
  intros [n ->]. destruct (list_add_order m e h) as (own & P & E). rewrite E.
  assert (Ho : ∀ w, w ∈ own → write_addr w = e).
  { intros w Hw. rewrite P in Hw. set_solver. }
  assert (L : length own = 2%nat) by (rewrite P; done).
  destruct (decide (n ≤ 2)%nat) as [Hn|Hn].
  - left. intros p Hp. apply (only_own_frame _ e); [|done].
    intros w Hw. apply Ho. rewrite take_app_le in Hw by lia.
    apply elem_of_take in Hw as (i & Hi & _). by apply list_elem_of_lookup_2 in Hi.
  - right. rewrite take_app_ge by lia. rewrite do_writes_app, (own_writes m e h own P).
    rewrite L. destruct (n - 2)%nat as [|[|k]] eqn:En; [lia|by left|right].
    rewrite list_add_eq. cbn. by rewrite take_nil.
Qed.

(** A delete replayed from any intermediate state completes it. *)
Lemma del_interrupted_replay e h l1 l2 m m' :
  ring m h (l1 ++ e :: l2) → del_interrupted e m m' →
  lget m' e = lget m e ∧
  do_write (WNext (prev (lget m e)) (next (lget m e)))
    (do_write (WPrev (next (lget m e)) (prev (lget m e))) m') = list_del e m.
Proof.
  intros R [n ->]. rewrite list_del_eq.
  assert (Hne : next (lget m e) ≠ e ∧ prev (lget m e) ≠ e).
  { destruct (ring_middle _ _ _ _ _ R) as [-> ->]. destruct R as [Hnd _].
    apply NoDup_cons in Hnd as [Hh Hnd]. apply NoDup_app in Hnd as (N1 & N2 & N3).
    apply NoDup_cons in N3 as [N3 N4]. pose proof (last_in l1 h).
    destruct l2; set_solver. }
  set (a := next (lget m e)) in *. set (b := prev (lget m e)) in *.
  pose proof (list_del_order m e) as P. fold a b in P. symmetry in P.
  apply Permutation_length_2_inv in P.
  assert (Hk : ∀ ws, (∀ w, w ∈ ws → write_addr w ≠ e) → lget (do_writes ws m) e = lget m e).
  { intros ws Hws. unfold lget. rewrite do_writes_frame; [done|].
    intros (w & E & Hw)%list_elem_of_fmap. by apply (Hws w). }
  split.
  - apply Hk. intros w Hw. apply elem_of_take in Hw as (i & Hi & _).
    apply list_elem_of_lookup_2 in Hi. destruct P as [E|E]; rewrite E in Hi;
      set_unfold in Hi; destruct Hi as [-> | [-> | []]]; tauto.
  - destruct P as [-> | ->]; destruct n as [|[|n]]; cbn [take do_writes fold_left];
      rewrite ?take_nil; cbn [do_writes fold_left];
      rewrite ?(writes_commute _ a b b a), ?write_twice; try done;
      rewrite <- ?(writes_commute _ a b b a), ?write_twice; try done;
      rewrite ?(writes_commute _ a b b a), ?write_twice; done.
Qed.
End Interrupted.

(** * An instance: the usual pointer writes *)

Module ListH.
(** Follow [f] from [p] until [h] comes round again. *)
Fixpoint walk (fuel : nat) (f : list_t → ptr) (m : lmem) (h p : ptr) : list ptr :=
  match fuel with
  | O => []
  | S k => if decide (p = h) then [] else p :: walk k f m h (f (lget m p))
  end.

Definition splice (a h : ptr) (m : lmem) : lmem :=
  let first := next (lget m a) in
  let last := prev (lget m a) in
  let old := next (lget m h) in
  if decide (first = a) then m
  else do_write (WNext h first) (do_write (WPrev old last)
         (do_write (WNext last old) (do_write (WPrev first h) m))).

#[export] Instance list_h : ListApi := {
  list_add_writes m e h :=
    [WNext e (next (lget m h)); WPrev e h; WPrev (next (lget m h)) e; WNext h e];
  list_del_writes m e :=
    [WPrev (next (lget m e)) (prev (lget m e)); WNext (prev (lget m e)) (next (lget m e))];
  INIT_LIST_HEAD h m := <[h := mkList h h]> m;
  list_splice := splice;
  list_for_each m h := walk (size m) next m h (next (lget m h));
  list_for_each_prev_safe m h := walk (size m) prev m h (prev (lget m h));
}.

Lemma walk_next m h x l fuel :
  h ∉ l → lseg m x l h → (length l ≤ fuel)%nat →
  walk fuel next m h (next (lget m x)) = l.
Proof.
  revert x fuel. induction l as [|y l IH]; intros x fuel Hh; cbn.
  - intros [E _] _. rewrite (nxt_lget _ _ _ E). destruct fuel; cbn; [done|].
    by rewrite decide_True.
  - intros (E & _ & Hs) Hf. rewrite (nxt_lget _ _ _ E).
    destruct fuel as [|k]; [cbn in Hf; lia|]. cbn. rewrite decide_False by set_solver.
    f_equal. apply IH; [set_solver | done | lia].
Qed.

Lemma walk_prev m h x l fuel :
  h ∉ l → lseg m h l x → (length l ≤ fuel)%nat →
  walk fuel prev m h (prev (lget m x)) = rev l.
Proof.
  revert x fuel. induction l as [|y l IH] using rev_ind; intros x fuel Hh; cbn.
  - intros [_ E] _. rewrite (prv_lget _ _ _ E). destruct fuel; cbn; [done|].
    by rewrite decide_True.
  - intros [Hs [_ E]]%lseg_app Hf. rewrite (prv_lget _ _ _ E), rev_app_distr.
    rewrite length_app in Hf. destruct fuel as [|k]; [cbn in Hf; lia|]. cbn in *.
    rewrite decide_False by set_solver. f_equal. apply IH; [set_solver | done | lia].
Qed.

Lemma ring_size m h l : ring m h l → (length l ≤ size m)%nat.
Proof.
  intros R. pose proof R as [Hnd _]. apply NoDup_cons in Hnd as [_ Hnd].
  rewrite <- (size_list_to_set (C := gset Z) l) by done. rewrite <- size_dom.
  apply subseteq_size. intros p Hp%elem_of_list_to_set. apply elem_of_dom.
  apply (ring_mapped _ _ _ _ R). set_solver.
Qed.

Lemma splice_eq a h m la lh :
  ring m a la → ring m h lh → la ≠ [] → NoDup (a :: la ++ h :: lh) →
  splice a h m =
  do_write (WNext h (hd a la)) (do_write (WPrev (hd h lh) (List.last la a))
    (do_write (WNext (List.last la a) (hd h lh)) (do_write (WPrev (hd a la) h) m))).
Proof.
  intros Ra Rh Hla Hnd. unfold splice.
  rewrite (nxt_lget _ _ _ (ring_nxt _ _ _ Ra)), (nxt_lget _ _ _ (ring_nxt _ _ _ Rh)).
  assert (E : prev (lget m a) = List.last la a).
  { apply prv_lget. destruct Ra as [_ Hs].
    destruct la as [|x l _] using rev_ind; [done|]. rewrite last_last.
    apply lseg_app in Hs as [_ [_ Hs]]. done. }
  rewrite E. case_decide as D; [|done]. destruct la; [done|].
  cbn in D. apply NoDup_cons in Hnd as [Hnd _]. set_solver.
Qed.

Lemma splice_ring_ok a h m la lh :
  ring m a la → ring m h lh → NoDup (a :: la ++ h :: lh) →
  ring (splice a h m) h (la ++ lh).
Proof.
  intros Ra Rh Hnd. destruct (decide (la = [])) as [->|Hla].
  { unfold splice. rewrite (nxt_lget _ _ _ (ring_nxt _ _ _ Ra)). cbn.
    by rewrite decide_True. }
  rewrite (splice_eq a h m la lh) by done. destruct la as [|y la]; [done|].
  cbn [hd]. set (q := List.last (y :: la) a). set (z := hd h lh).
  set (m' := do_write _ _).
  assert (Hq : q ∈ y :: la) by (unfold q; rewrite last_cons; apply last_in).
  pose proof Ra as [_ (Ha1 & Ha2 & Ha3)]. pose proof Rh as [Hndh Hsh].
  apply NoDup_cons in Hnd as [Hna Hnd].
  pose proof Hnd as (Nla & Nd & Nlh)%NoDup_app.
  assert (Hz : z ∈ h :: lh) by (unfold z; destruct lh; set_solver).
  assert (Hn : ∀ p v, p ≠ h → p ≠ q → nxt m p = Some v → nxt m' p = Some v).
  { intros p v ?? E. unfold m'. rewrite nxt_WNext, decide_False by done.
    apply nxt_WPrev. rewrite nxt_WNext, decide_False by done. by apply nxt_WPrev. }
  assert (Hp : ∀ p v, p ≠ y → p ≠ z → prv m p = Some v → prv m' p = Some v).
  { intros p v ?? E. unfold m'. apply prv_WNext. rewrite prv_WPrev, decide_False by done.
    apply prv_WNext. by rewrite prv_WPrev, decide_False by done. }
  assert (Ezp : prv m' z = Some q).
  { unfold m'. apply prv_WNext. by rewrite prv_WPrev, decide_True. }
  assert (Eqn : nxt m' q = Some z).
  { unfold m'. rewrite nxt_WNext, decide_False by set_solver.
    apply nxt_WPrev. by rewrite nxt_WNext, decide_True. }
  assert (Hy : lseg m' y la z).
  { apply (lseg_end m _ _ _ a); [done| | | | |done].
    - intros p v Hin Hne. apply Hn; [set_solver|]. unfold q. by rewrite last_cons.
    - intros p v Hin. apply Hp; [|set_solver].
      apply NoDup_cons in Nla as [? _]. set_solver.
    - unfold q in Eqn. by rewrite last_cons in Eqn.
    - unfold q in Ezp. by rewrite last_cons in Ezp. }
  split.
  { rewrite <- Permutation_middle in Hnd. done. }
  cbn [app lseg]. split_and!.
  - unfold m'. by rewrite nxt_WNext, decide_True.
  - unfold m'. apply prv_WNext. rewrite prv_WPrev, decide_False by set_solver.
    apply prv_WNext. by rewrite prv_WPrev, decide_True.
  - destruct lh as [|w lh]; [by rewrite app_nil_r|].
    apply lseg_app. split; [done|]. destruct Hsh as (_ & _ & Hsh).
    apply NoDup_cons in Nlh as [Hh Nlh]. apply NoDup_cons in Nlh as [Hw _].
    revert Hsh. apply lseg_agree; intros p v Hin; [apply Hn | apply Hp];
      unfold z; cbn; set_solver.
Qed.

#[export] Instance list_h_laws : ListLaws.
Proof.
  split; cbn.
  - intros m e h. exists [WNext e (next (lget m h)); WPrev e h]. done.
  - done.
  - intros h m. split; [repeat constructor; set_solver|]. cbn.
    unfold nxt, prv. by rewrite lookup_insert_eq.
  - intros h m p Hp. by rewrite lookup_insert_ne.
  - apply splice_ring_ok.
  - intros a h m la lh p Ra Rh Hnd Hp. destruct (decide (la = [])) as [->|Hla].
    { unfold splice. rewrite (nxt_lget _ _ _ (ring_nxt _ _ _ Ra)). cbn.
      by rewrite decide_True. }
    rewrite (splice_eq a h m la lh) by done. destruct la as [|y la]; [done|].
    rewrite last_cons. pose proof (last_in la y).
    rewrite !do_write_frame; [done|..]; cbn; destruct lh; set_solver.
  - intros m h l R. pose proof R as [Hnd Hs]. apply walk_next; [by inversion Hnd | done |].
    by apply ring_size in R.
  - intros m h l R. pose proof R as [Hnd Hs]. apply walk_prev; [by inversion Hnd | done |].
    by apply ring_size in R.
Qed.
End ListH.
