(* ===== verification/Nptl.v ===== *)
(** The data of the thread library and its primitive operations.

    [struct pthread], the global variables of [allocatestack.c] and
    [pthread_create.c], the platform constants and the kernel and dynamic-linker
    calls, which are parameters, and the loads, stores, locks and atomic
    operations the functions are written with. *)
From S2P Require Import Prelude ListHead.

(** * Error numbers and protection bits *)

Definition EPERM := 1.
Definition ENOENT := 2.
Definition ESRCH := 3.
Definition EINTR := 4.
Definition EAGAIN := 11.
Definition ENOMEM := 12.
Definition EINVAL := 22.
Definition EDEADLK := 35.
Definition ENOSYS := 38.
Definition ETIMEDOUT := 110.

Definition PROT_NONE := 0.
Definition PROT_READ := 1.
Definition PROT_WRITE := 2.
Definition PROT_EXEC := 4.

(** * Platform constants

    The configuration modelled is x86-64: [_STACK_GROWS_DOWN], [TLS_TCB_AT_TP],
    no separate register stack, [TLS_MULTIPLE_THREADS_IN_TCB], no
    [NEED_DL_SYSINFO].  The sizes, offsets, bit numbers and addresses come from
    headers and linker symbols outside the repository. *)

(** The default of [allocatestack.c], for platforms that do not define another. *)
Definition MINIMAL_REST_STACK : Z := 4096.

Class Platform := {
  offsetof_list : Z;            (* of [list] in [struct pthread] *)
  offsetof_robust_head : Z;
  sizeof_pthread : Z;
  TLS_TCB_SIZE : Z;
  static_tls_size : Z;          (* [__static_tls_size] *)
  static_tls_align_m1 : Z;      (* [__static_tls_align_m1] *)
  pagesize : Z;                 (* [__getpagesize ()] *)
  PTHREAD_STACK_MIN : Z;
  MULTI_PAGE_ALIASING : Z;
  TCB_ALIGNMENT : Z;
  STACK_ALIGN : Z;
  robust_futex_offset : Z;      (* the [offsetof] difference in [allocate_stack] *)
  (* the list heads *)
  stack_used : ptr;
  stack_cache : ptr;
  stack_user : ptr;             (* [__stack_user] *)
  (* bits of [cancelhandling] *)
  CANCELSTATE_BIT : Z; CANCELTYPE_BIT : Z; CANCELING_BIT : Z; CANCELED_BIT : Z;
  EXITING_BIT : Z; TERMINATED_BIT : Z; SETXID_BIT : Z;
  (* bits of the attribute flags *)
  FLAG_DETACHSTATE_BIT : Z; FLAG_NOTINHERITSCHED_BIT : Z; FLAG_STACKADDR_BIT : Z;
  FLAG_OLDATTR_BIT : Z; FLAG_SCHED_SET_BIT : Z; FLAG_POLICY_SET_BIT : Z;
  SIGCANCEL : Z; SIGSETXID : Z;
  PTHREAD_KEY_1STLEVEL_SIZE : nat; PTHREAD_KEY_2NDLEVEL_SIZE : nat;
  PTHREAD_DESTRUCTOR_ITERATIONS : nat;
}.

Class PlatformLaws `{Platform} := {
  page_pow2 : pow2_m1 (pagesize - 1);
  align_pow2 : pow2_m1 static_tls_align_m1;
  page_bound : pagesize < 2305843009213693952;
  stack_min_pos : 0 < PTHREAD_STACK_MIN;
  rest_bound : static_tls_align_m1 + TLS_TCB_SIZE < MINIMAL_REST_STACK + sizeof_pthread;
  aliasing_pages : MULTI_PAGE_ALIASING = 0 ∨
    pagesize < MULTI_PAGE_ALIASING ∧ W64 `mod` MULTI_PAGE_ALIASING = 0;
  align_page : static_tls_align_m1 < pagesize;
  list_in_pthread : 0 ≤ offsetof_list < sizeof_pthread;
  list_even : Z.even offsetof_list = true;
  tcb_holds_pthread : sizeof_pthread ≤ TLS_TCB_SIZE;
  static_tls_holds_tcb : TLS_TCB_SIZE ≤ static_tls_size;
  static_tls_bound : static_tls_size < 2305843009213693952;  (* 2^61 *)
  tcb_alignment : STACK_ALIGN ≤ TCB_ALIGNMENT;
  heads_distinct : NoDup [stack_used; stack_cache; stack_user];
  heads_even : Z.even stack_used = true ∧ Z.even stack_cache = true ∧ Z.even stack_user = true;
  heads_nonnull : 0 < stack_used ∧ 0 < stack_cache ∧ 0 < stack_user;
  cancel_bits : NoDup [CANCELSTATE_BIT; CANCELTYPE_BIT; CANCELING_BIT; CANCELED_BIT;
                       EXITING_BIT; TERMINATED_BIT; SETXID_BIT];
  cancel_bits_range :
    Forall (λ b, 0 ≤ b < 31) [CANCELSTATE_BIT; CANCELTYPE_BIT; CANCELING_BIT; CANCELED_BIT;
                              EXITING_BIT; TERMINATED_BIT; SETXID_BIT];
  flag_bits : NoDup [FLAG_DETACHSTATE_BIT; FLAG_NOTINHERITSCHED_BIT; FLAG_STACKADDR_BIT;
                     FLAG_OLDATTR_BIT; FLAG_SCHED_SET_BIT; FLAG_POLICY_SET_BIT];
  flag_bits_range :
    Forall (λ b, 0 ≤ b < 31) [FLAG_DETACHSTATE_BIT; FLAG_NOTINHERITSCHED_BIT;
      FLAG_STACKADDR_BIT; FLAG_OLDATTR_BIT; FLAG_SCHED_SET_BIT; FLAG_POLICY_SET_BIT];
}.

Definition bitmask (b : Z) : Z := Z.shiftl 1 b.

Section Masks.
Context {PF : Platform}.
Definition CANCELSTATE_BITMASK := bitmask CANCELSTATE_BIT.
Definition CANCELTYPE_BITMASK := bitmask CANCELTYPE_BIT.
Definition CANCELING_BITMASK := bitmask CANCELING_BIT.
Definition CANCELED_BITMASK := bitmask CANCELED_BIT.
Definition EXITING_BITMASK := bitmask EXITING_BIT.
Definition TERMINATED_BITMASK := bitmask TERMINATED_BIT.
Definition SETXID_BITMASK := bitmask SETXID_BIT.
Definition ATTR_FLAG_DETACHSTATE := bitmask FLAG_DETACHSTATE_BIT.
Definition ATTR_FLAG_NOTINHERITSCHED := bitmask FLAG_NOTINHERITSCHED_BIT.
Definition ATTR_FLAG_STACKADDR := bitmask FLAG_STACKADDR_BIT.
Definition ATTR_FLAG_OLDATTR := bitmask FLAG_OLDATTR_BIT.
Definition ATTR_FLAG_SCHED_SET := bitmask FLAG_SCHED_SET_BIT.
Definition ATTR_FLAG_POLICY_SET := bitmask FLAG_POLICY_SET_BIT.

(** The three list heads. *)
Definition heads : list ptr := [stack_used; stack_cache; stack_user].

(** [&pd->list] and [list_entry (entry, struct pthread, list)]. *)
Definition list_of (pd : ptr) : ptr := pd + offsetof_list.
Definition list_entry (entry : ptr) : ptr := entry - offsetof_list.

Lemma list_entry_of p : list_entry (list_of p) = p.
Proof. unfold list_entry, list_of. lia. Qed.

#[export] Instance list_of_inj : Inj (=) (=) list_of.
Proof. unfold list_of. intros x y. lia. Qed.

Lemma list_entries_of (l : list ptr) : list_entry <$> (list_of <$> l) = l.
Proof.
  rewrite <- list_fmap_compose. rewrite <- (list_fmap_id l) at 2.
  apply list_fmap_ext. intros. apply list_entry_of.
Qed.
End Masks.

(** [(x & mask) != 0] *)
Definition has (x mask : Z) : bool := negb (Z.land x mask =? 0).

Lemma bitmask_spec b n : 0 ≤ b → 0 ≤ n → Z.testbit (bitmask b) n = bool_decide (n = b).
Proof.
  intros Hb Hn. unfold bitmask. rewrite Z.shiftl_1_l.
  destruct (decide (n = b)) as [->|Hne].
  - rewrite Z.pow2_bits_true by done. by rewrite bool_decide_eq_true_2.
  - rewrite Z.pow2_bits_false by done. by rewrite bool_decide_eq_false_2.
Qed.

Lemma has_bit x b : 0 ≤ b → has x (bitmask b) = Z.testbit x b.
Proof.
  intros Hb. unfold has. destruct (Z.testbit x b) eqn:E.
  - apply negb_true_iff, Z.eqb_neq. intros H.
    assert (Ht : Z.testbit (Z.land x (bitmask b)) b = true).
    { rewrite Z.land_spec, E, bitmask_spec by done. by rewrite bool_decide_eq_true_2. }
    by rewrite H, Z.bits_0 in Ht.
  - apply negb_false_iff, Z.eqb_eq, Z.bits_inj'. intros n Hn.
    rewrite Z.land_spec, bitmask_spec, Z.bits_0 by done.
    case_bool_decide; [subst; by rewrite E | by rewrite andb_false_r].
Qed.

Lemma has_lor x y b : 0 ≤ b → has (Z.lor x y) (bitmask b) = has x (bitmask b) || has y (bitmask b).
Proof. intros Hb. by rewrite !has_bit, Z.lor_spec by done. Qed.

Lemma has_bitmask a b : 0 ≤ a → 0 ≤ b → has (bitmask a) (bitmask b) = bool_decide (b = a).
Proof. intros. by rewrite has_bit, bitmask_spec by done. Qed.

(** * [struct pthread] *)

(** One slot of thread-specific data, a block of them, and a pointer to a block:
    the first block is embedded in the descriptor. *)
Record pthread_key_data := mkKeyData { kd_seq : Z; kd_data : ptr }.
Inductive specific_ptr := SNull | S1stblock | SHeap (b : list pthread_key_data).

Record td_eventbuf := mkEventbuf { ev_mask : Z; ev_num : Z; ev_data : ptr }.

Record pthread := mkPthread {
  (* stack *)
  pd_stackblock : ptr; pd_stackblock_size : Z; pd_guardsize : Z;
  pd_reported_guardsize : Z; pd_user_stack : bool;
  (* identity and life cycle *)
  pd_tid : Z; pd_cancelhandling : Z; pd_joinid : ptr; pd_result : ptr;
  pd_flags : Z; pd_lock : Z; pd_setxid_futex : Z; pd_stopped_start : bool;
  pd_gscope_flag : Z;
  (* what the thread runs *)
  pd_start_routine : ptr; pd_arg : ptr; pd_c11 : bool;
  pd_schedpolicy : Z; pd_schedparam : Z; pd_sigmask : Z;
  (* header *)
  pd_multiple_threads : Z; pd_self : ptr; pd_tcb : ptr;
  (* cleanup, events, locale *)
  pd_cleanup : ptr; pd_nextevent : ptr; pd_eventbuf : td_eventbuf;
  pd_report_events : bool; pd_tls_state : Z; pd_tpp : ptr;
  (* robust list head *)
  pd_robust_list : ptr; pd_robust_prev : ptr; pd_robust_futex_offset : Z;
  pd_list_op_pending : ptr;
  (* dynamic TLS: the [to_free] pointers of [dtv[1 ..]] *)
  pd_dtv : list ptr;
  (* thread-specific data *)
  pd_specific_used : bool; pd_specific_1stblock : list pthread_key_data;
  pd_specific : list specific_ptr;
}.

#[export] Instance eta_pthread : Eta pthread := λ p, mkPthread
  (pd_stackblock p) (pd_stackblock_size p) (pd_guardsize p)
  (pd_reported_guardsize p) (pd_user_stack p)
  (pd_tid p) (pd_cancelhandling p) (pd_joinid p) (pd_result p)
  (pd_flags p) (pd_lock p) (pd_setxid_futex p) (pd_stopped_start p)
  (pd_gscope_flag p)
  (pd_start_routine p) (pd_arg p) (pd_c11 p)
  (pd_schedpolicy p) (pd_schedparam p) (pd_sigmask p)
  (pd_multiple_threads p) (pd_self p) (pd_tcb p)
  (pd_cleanup p) (pd_nextevent p) (pd_eventbuf p)
  (pd_report_events p) (pd_tls_state p) (pd_tpp p)
  (pd_robust_list p) (pd_robust_prev p) (pd_robust_futex_offset p)
  (pd_list_op_pending p) (pd_dtv p)
  (pd_specific_used p) (pd_specific_1stblock p) (pd_specific p).

Definition zero_block `{Platform} : list pthread_key_data :=
  replicate PTHREAD_KEY_2NDLEVEL_SIZE (mkKeyData 0 0).

(** A descriptor in zero-filled memory. *)
Definition pthread0 `{Platform} : pthread :=
  mkPthread 0 0 0 0 false 0 0 0 0 0 0 0 false 0 0 0 false 0 0 0 0 0 0 0 0
    (mkEventbuf 0 0 0) false 0 0 0 0 0 0 [] false zero_block
    (replicate PTHREAD_KEY_1STLEVEL_SIZE SNull).

(** Detached threads wait for themselves. *)
Definition IS_DETACHED (pd : ptr) (t : pthread) : bool := pd_joinid t =? pd.

(** [struct pthread_attr] and its heap-allocated extension: the address of the
    extension, the address and the contents of its CPU set, its signal mask. *)
Record attr_ext := mkExt {
  ext_addr : ptr; ext_cpuset : ptr; ext_cpusetsize : Z; ext_bytes : list Z;
  ext_sigmask : Z; ext_sigmask_set : bool;
}.
#[export] Instance eta_ext : Eta attr_ext := λ e, mkExt (ext_addr e) (ext_cpuset e)
  (ext_cpusetsize e) (ext_bytes e) (ext_sigmask e) (ext_sigmask_set e).

Record pthread_attr := mkAttr {
  attr_schedparam : Z; attr_schedpolicy : Z; attr_flags : Z; attr_guardsize : Z;
  attr_stackaddr : ptr; attr_stacksize : Z;
  attr_extension : option attr_ext;
}.
#[export] Instance eta_attr : Eta pthread_attr := λ a, mkAttr (attr_schedparam a)
  (attr_schedpolicy a) (attr_flags a) (attr_guardsize a) (attr_stackaddr a)
  (attr_stacksize a) (attr_extension a).

(** * Kernel and dynamic linker *)

Class Kernel (K : Type) := {
  (* length, protection; the address or an error number *)
  k_mmap : Z → Z → K → K * (ptr + Z);
  k_munmap : ptr → Z → K → K * option Z;
  k_mprotect : ptr → Z → Z → K → K * option Z;
  k_madvise_dontneed : ptr → Z → K → K;
  (* [_dl_allocate_tls]: the [to_free] slots of the new DTV, or no memory *)
  dl_allocate_tls : ptr → K → K * option (list ptr);
  dl_allocate_tls_init : ptr → K → K;
  dl_deallocate_tls : ptr → K → K;
  dl_make_stack_executable : K → K * Z;
}.

(** User memory is in the lower half of the address space. *)
Definition user_top : Z := 9223372036854775808.

(** Documented behaviour: which addresses are mapped.  [mmap] returns a
    page-aligned range none of whose addresses was mapped. *)
Class KernelLaws {K} `{!Kernel K, !Platform} := {
  mapped : K → Z → Prop;
  mmap_ok len prot k k' a :
    0 < len → k_mmap len prot k = (k', inl a) →
    0 < a ∧ a + len < user_top ∧ a `mod` pagesize = 0 ∧
    (∀ x, a ≤ x < a + len → ¬ mapped k x) ∧
    (∀ x, mapped k' x ↔ mapped k x ∨ a ≤ x < a + len);
  mmap_err len prot k k' e :
    k_mmap len prot k = (k', inr e) → 0 < e ∧ ∀ x, mapped k' x ↔ mapped k x;
  munmap_ok a len k k' :
    k_munmap a len k = (k', None) →
    ∀ x, mapped k' x ↔ mapped k x ∧ ¬ (a ≤ x < a + len);
  munmap_err a len k k' e :
    k_munmap a len k = (k', Some e) → 0 < e ∧ ∀ x, mapped k' x ↔ mapped k x;
  mprotect_mapped a len prot k x : mapped (k_mprotect a len prot k).1 x ↔ mapped k x;
  mprotect_errno a len prot k e : (k_mprotect a len prot k).2 = Some e → 0 < e;
  madvise_mapped a len k x : mapped (k_madvise_dontneed a len k) x ↔ mapped k x;
  allocate_tls_mapped p k x : mapped (dl_allocate_tls p k).1 x ↔ mapped k x;
  allocate_tls_init_mapped p k x : mapped (dl_allocate_tls_init p k) x ↔ mapped k x;
  deallocate_tls_mapped p k x : mapped (dl_deallocate_tls p k) x ↔ mapped k x;
  make_executable_mapped k x : mapped (dl_make_stack_executable k).1 x ↔ mapped k x;
}.

(** * Global state *)

Record nptl {K : Type} := mkNptl {
  pds : gmap Z pthread;           (* the descriptors in mapped memory *)
  links : lmem;                   (* their [list] fields and the list heads *)
  in_flight_stack : Z;
  stack_cache_actsize : Z;
  stack_cache_maxsize : Z;
  stack_cache_lock : Z;
  default_pthread_attr_lock : Z;
  default_stacksize : Z;          (* [__default_pthread_attr.internal.stacksize] *)
  nptl_nthreads : Z;              (* [__nptl_nthreads] *)
  errno : Z;
  freed : list ptr;               (* what [free] has been called on *)
  kern : K;
}.
Arguments nptl K : clear implicits.
Arguments mkNptl {K}.

#[export] Instance eta_nptl {K} : Eta (nptl K) := λ s, mkNptl
  (pds s) (links s) (in_flight_stack s) (stack_cache_actsize s)
  (stack_cache_maxsize s) (stack_cache_lock s) (default_pthread_attr_lock s)
  (default_stacksize s) (nptl_nthreads s) (errno s) (freed s) (kern s).

(** * Primitive operations *)

Section Primitives.
Context {K : Type} {PF : Platform} {LA : ListApi} {KN : Kernel K}.
Implicit Types s : nptl K.

Definition load_pd (p : ptr) : M (nptl K) pthread :=
  ds ← gets pds; from_option_or Fault (ds !! p).

(** Store into fields of the descriptor at [p]. *)
Definition upd_pd (p : ptr) (f : pthread → pthread) : M (nptl K) () :=
  t ← load_pd p; modify (λ s, s <| pds := <[p := f t]> (pds s) |>).

Definition set_errno (e : Z) : M (nptl K) () := modify (λ s, s <| errno := e |>).

Definition free_mem (p : ptr) : M (nptl K) () :=
  when (negb (p =? 0)) (modify (λ s, s <| freed := freed s ++ [p] |>)).

(** [lll_lock (stack_cache_lock, LLL_PRIVATE)]: a thread that finds the lock
    taken waits; here nobody else runs, so it waits for ever. *)
Definition lock_cache : M (nptl K) () :=
  l ← gets stack_cache_lock;
  if l =? 0 then modify (λ s, s <| stack_cache_lock := 1 |>) else stop_with Blocked.
Definition unlock_cache : M (nptl K) () :=
  modify (λ s, s <| stack_cache_lock := 0 |>).

Definition lock_default_attr : M (nptl K) () :=
  l ← gets default_pthread_attr_lock;
  if l =? 0 then modify (λ s, s <| default_pthread_attr_lock := 1 |>)
  else stop_with Blocked.
Definition unlock_default_attr : M (nptl K) () :=
  modify (λ s, s <| default_pthread_attr_lock := 0 |>).

(** What is left of a memory when [a, a + len) is unmapped. *)
Definition outside {V} (a len : Z) (m : gmap Z V) : gmap Z V :=
  filter (λ '(p, _), ¬ (a ≤ p < a + len)) m.

(** System calls: 0, or -1 with [errno] set. *)
Definition mmap (len prot : Z) : M (nptl K) (option ptr) :=
  k ← gets kern;
  match k_mmap len prot k with
  | (k', inl a) => modify (λ s, s <| kern := k' |>);; mret (Some a)
  | (k', inr e) => modify (λ s, s <| kern := k' |> <| errno := e |>);; mret None
  end.

Definition munmap (a : ptr) (len : Z) : M (nptl K) Z :=
  k ← gets kern;
  match k_munmap a len k with
  | (k', None) =>
      modify (λ s, s <| kern := k' |> <| pds := outside a len (pds s) |>
                     <| links := outside a len (links s) |>);;
      mret 0
  | (k', Some e) => modify (λ s, s <| kern := k' |> <| errno := e |>);; mret (-1)
  end.

Definition mprotect (a : ptr) (len prot : Z) : M (nptl K) Z :=
  k ← gets kern;
  match k_mprotect a len prot k with
  | (k', None) => modify (λ s, s <| kern := k' |>);; mret 0
  | (k', Some e) => modify (λ s, s <| kern := k' |> <| errno := e |>);; mret (-1)
  end.

Definition on_kernel (f : K → K) : M (nptl K) () :=
  modify (λ s, s <| kern := f (kern s) |>).
End Primitives.

(** The allocator of the C library, as the thread library calls it. *)
Class Free (S : Type) := free : ptr → M S ().
Class Malloc (S : Type) := {
  malloc_free :: Free S;
  calloc : Z → M S (option ptr);
  realloc : ptr → Z → M S (option ptr);
}.

(** * Rules for the primitive operations *)

Section Rules.
Context {K : Type} {PF : Platform} {LA : ListApi} {KN : Kernel K}.
Implicit Types s : nptl K.

Lemma wp_load_pd p t (Q : pthread → nptl K → Prop) s :
  pds s !! p = Some t → Q t s → wp (load_pd p) Q s.
Proof. intros E HQ. unfold load_pd. wp_go. by rewrite E. Qed.

Lemma wp_upd_pd p f t (Q : () → nptl K → Prop) s :
  pds s !! p = Some t → Q () (s <| pds := <[p := f t]> (pds s) |>) →
  wp (upd_pd p f) Q s.
Proof. intros E HQ. unfold upd_pd. wp_step. eapply wp_load_pd; [done|]. by wp_go. Qed.

Lemma wp_lock_cache (Q : () → nptl K → Prop) s :
  stack_cache_lock s = 0 → Q () (s <| stack_cache_lock := 1 |>) →
  wp lock_cache Q s.
Proof. intros E HQ. unfold lock_cache. wp_go; [done | lia]. Qed.

Lemma wp_lock_default_attr (Q : () → nptl K → Prop) s :
  default_pthread_attr_lock s = 0 → Q () (s <| default_pthread_attr_lock := 1 |>) →
  wp lock_default_attr Q s.
Proof. intros E HQ. unfold lock_default_attr. wp_go; [done | lia]. Qed.

Lemma wp_unlock_cache (Q : () → nptl K → Prop) s :
  Q () (s <| stack_cache_lock := 0 |>) → wp unlock_cache Q s.
Proof. done. Qed.

Lemma wp_unlock_default_attr (Q : () → nptl K → Prop) s :
  Q () (s <| default_pthread_attr_lock := 0 |>) → wp unlock_default_attr Q s.
Proof. done. Qed.

Lemma wp_on_kernel f (Q : () → nptl K → Prop) s :
  Q () (s <| kern := f (kern s) |>) → wp (on_kernel f) Q s.
Proof. done. Qed.

Lemma wp_munmap_ok a len (Q : Z → nptl K → Prop) s :
  (k_munmap a len (kern s)).2 = None →
  (∀ k', k_munmap a len (kern s) = (k', None) →
    Q 0 (s <| kern := k' |> <| pds := outside a len (pds s) |>
           <| links := outside a len (links s) |>)) →
  wp (munmap a len) Q s.
Proof.
  intros E HQ. unfold munmap. wp_go. destruct (k_munmap a len (kern s)) as [k' o].
  cbn in E. subst o. wp_go. by apply HQ.
Qed.

Lemma wp_free_all ps (Q : () → nptl K → Prop) s :
  Q () (s <| freed := freed s ++ filter (λ p, p ≠ 0) ps |>) → wp (mfor ps free_mem) Q s.
Proof.
  revert s. induction ps as [|p ps IH]; intros s HQ; cbn.
  - rewrite app_nil_r in HQ. by destruct s.
  - unfold free_mem, when. wp_step. rewrite filter_cons in HQ.
    destruct (Z.eqb_spec p 0) as [->|Hp]; cbn in *; wp_go; apply IH.
    + exact HQ.
    + rewrite decide_True in HQ by done. cbn in *.
      destruct s. unfold set_field in *. cbn in *. by rewrite <- app_assoc.
Qed.

Lemma outside_Some {V} a len (m : gmap Z V) p v :
  outside a len m !! p = Some v ↔ m !! p = Some v ∧ ¬ (a ≤ p < a + len).
Proof. unfold outside. rewrite map_lookup_filter_Some. done. Qed.

Lemma outside_lookup {V} a len (m : gmap Z V) p :
  ¬ (a ≤ p < a + len) → outside a len m !! p = m !! p.
Proof.
  intros Hp. apply option_eq. intros v. rewrite outside_Some. tauto.
Qed.

Lemma outside_None {V} a len (m : gmap Z V) p :
  a ≤ p < a + len → outside a len m !! p = None.
Proof.
  intros Hp. apply eq_None_not_Some. intros [v Hv%outside_Some]. tauto.
Qed.
End Rules.

(** * Rules with the documented behaviour of the kernel *)

Section KernelRules.
Context {K : Type} {PF : Platform} {LA : ListApi} {KN : Kernel K}.
Context {KL : KernelLaws (K := K)}.
Implicit Types s : nptl K.

Lemma wp_mmap len prot (Q : option ptr → nptl K → Prop) s :
  0 < len →
  (∀ k' a, 0 < a → a + len < user_top → a `mod` pagesize = 0 →
     (∀ x, a ≤ x < a + len → ¬ mapped (kern s) x) →
     (∀ x, mapped k' x ↔ mapped (kern s) x ∨ a ≤ x < a + len) →
     Q (Some a) (s <| kern := k' |>)) →
  (∀ k' e, 0 < e → (∀ x, mapped k' x ↔ mapped (kern s) x) →
     Q None (s <| kern := k' |> <| errno := e |>)) →
  wp (mmap len prot) Q s.
Proof.
  intros Hl H1 H2. unfold mmap. wp_go.
  destruct (k_mmap len prot (kern s)) as [k' [a|e]] eqn:E; wp_go.
  - destruct (mmap_ok _ _ _ _ _ Hl E) as (? & ? & ? & ? & ?). by apply H1.
  - destruct (mmap_err _ _ _ _ _ E). by apply H2.
Qed.

Lemma wp_mprotect a len prot (Q : Z → nptl K → Prop) s :
  (∀ k', (∀ x, mapped k' x ↔ mapped (kern s) x) → Q 0 (s <| kern := k' |>)) →
  (∀ k' e, 0 < e → (∀ x, mapped k' x ↔ mapped (kern s) x) →
     Q (-1) (s <| kern := k' |> <| errno := e |>)) →
  wp (mprotect a len prot) Q s.
Proof.
  intros H1 H2. unfold mprotect. wp_go.
  pose proof (mprotect_mapped a len prot (kern s)) as Hm.
  pose proof (mprotect_errno a len prot (kern s)) as He.
  destruct (k_mprotect a len prot (kern s)) as [k' [e|]]; cbn in *; wp_go; auto.
Qed.
End KernelRules.

Ltac wp_prim ::=
  lazymatch goal with
  | |- wp unlock_cache _ _ => apply wp_unlock_cache
  | |- wp unlock_default_attr _ _ => apply wp_unlock_default_attr
  | |- wp (on_kernel _) _ _ => apply wp_on_kernel
  end.
