(* ===== verification/Sim.v ===== *)
(** A concrete platform and kernel, to run the model on.

    The constants are those of x86-64 GNU/Linux; the kernel hands out addresses
    above everything that was ever mapped, so that what it returns can be
    computed.  The dynamic linker gives each thread an empty DTV. *)
From S2P Require Import Prelude ListHead Nptl.

(** The instances are active where the module is imported. *)
Module X86.

#[export] Instance x86_64 : Platform := {
  offsetof_list := 704; offsetof_robust_head := 736; sizeof_pthread := 2304;
  TLS_TCB_SIZE := 2304; static_tls_size := 4096; static_tls_align_m1 := 63;
  pagesize := 4096; PTHREAD_STACK_MIN := 16384; MULTI_PAGE_ALIASING := 65536;
  TCB_ALIGNMENT := 64; STACK_ALIGN := 16; robust_futex_offset := -32;
  stack_used := 4096; stack_cache := 4112; stack_user := 4128;
  CANCELSTATE_BIT := 0; CANCELTYPE_BIT := 1; CANCELING_BIT := 2; CANCELED_BIT := 3;
  EXITING_BIT := 4; TERMINATED_BIT := 5; SETXID_BIT := 6;
  FLAG_DETACHSTATE_BIT := 0; FLAG_NOTINHERITSCHED_BIT := 1; FLAG_STACKADDR_BIT := 3;
  FLAG_OLDATTR_BIT := 4; FLAG_SCHED_SET_BIT := 5; FLAG_POLICY_SET_BIT := 6;
  SIGCANCEL := 32; SIGSETXID := 33;
  PTHREAD_KEY_1STLEVEL_SIZE := 32; PTHREAD_KEY_2NDLEVEL_SIZE := 32;
  PTHREAD_DESTRUCTOR_ITERATIONS := 4;
}.

#[export] Instance x86_64_laws : PlatformLaws.
Proof.
  split; try (vm_compute; repeat split; congruence).
  - exists 12. done.
  - exists 6. done.
  - right. by vm_compute.
  - apply (bool_decide_eq_true_1 (NoDup _)). by vm_compute.
  - apply (bool_decide_eq_true_1 (NoDup _)). by vm_compute.
  - repeat constructor; cbn; lia.
  - apply (bool_decide_eq_true_1 (NoDup _)). by vm_compute.
  - repeat constructor; cbn; lia.
Qed.

(** The mappings made and undone so far, latest first; a security policy against
    executable memory; a dynamic linker that is out of memory. *)
Record simk := mkSim { events : list (bool * Z * Z); no_exec : bool; no_tls : bool }.
#[export] Instance eta_simk : Eta simk := λ k, mkSim (events k) (no_exec k) (no_tls k).

Definition EACCES := 13.

Fixpoint is_mapped (evs : list (bool * Z * Z)) (x : Z) : bool :=
  match evs with
  | [] => false
  | (b, a, len) :: evs => if (a <=? x) && (x <? a + len) then b else is_mapped evs x
  end.

(** An aligned address above everything that was mapped. *)
Definition top_of (evs : list (bool * Z * Z)) : Z :=
  4096 * ((foldr (λ '(_, a, len) m, Z.max (a + len) m) 4096 evs + 4095) `div` 4096).

Definition sim_mmap (len prot : Z) (k : simk) : simk * (ptr + Z) :=
  let a := top_of (events k) in
  if (0 <? len) && (a + len <? user_top) then
    (k <| events := (true, a, len) :: events k |>, inl a)
  else (k, inr ENOMEM).

#[export] Instance sim_kernel : Kernel simk := {
  k_mmap := sim_mmap;
  k_munmap a len k := (k <| events := (false, a, len) :: events k |>, None);
  k_mprotect _ _ prot k :=
    (k, if no_exec k && has prot PROT_EXEC then Some EACCES else None);
  k_madvise_dontneed _ _ k := k;
  dl_allocate_tls _ k := (k, if no_tls k then None else Some []);
  dl_allocate_tls_init _ k := k;
  dl_deallocate_tls _ k := k;
  dl_make_stack_executable k := (k, 0);
}.

Lemma top_of_bound evs : 4096 ≤ top_of evs ∧ top_of evs `mod` 4096 = 0 ∧
  ∀ b a len, (b, a, len) ∈ evs → a + len ≤ top_of evs.
Proof.
  unfold top_of. set (f := foldr _ _ evs).
  assert (Hf : 4096 ≤ f ∧ ∀ b a len, (b, a, len) ∈ evs → a + len ≤ f).
  { subst f. induction evs as [|[[b a] len] evs [IH1 IH2]]; cbn.
    - split; [done|]. intros b a len H. by apply not_elem_of_nil in H.
    - split; [lia|]. intros b' a' len' [[=-> -> ->]|H]%elem_of_cons; [lia|].
      pose proof (IH2 _ _ _ H). lia. }
  pose proof (Z.div_mod (f + 4095) 4096). pose proof (Z.mod_pos_bound (f + 4095) 4096).
  split_and!; [lia| |].
  - rewrite Z.mul_comm. by apply Z.mod_mul.
  - intros b a len H1. destruct Hf as [_ Hf]. pose proof (Hf _ _ _ H1). lia.
Qed.

Lemma is_mapped_below evs x : top_of evs ≤ x → is_mapped evs x = false.
Proof.
  pose proof (top_of_bound evs) as (_ & _ & H). intros Hx. revert H.
  generalize dependent (top_of evs). intros top Hx.
  induction evs as [|[[b a] len] evs IH]; intros H; cbn; [done|].
  pose proof (H b a len ltac:(set_solver)).
  destruct (Z.leb_spec a x), (Z.ltb_spec x (a + len)); cbn; try lia;
    apply IH; set_solver.
Qed.

#[export] Program Instance sim_laws : KernelLaws (K := simk) := {
  mapped k x := is_mapped (events k) x = true;
}.
Next Obligation.
  intros len prot k k' a Hlen. cbn. unfold sim_mmap.
  pose proof (top_of_bound (events k)) as (H1 & H2 & _).
  destruct (Z.ltb_spec 0 len), (Z.ltb_spec (top_of (events k) + len) user_top); cbn; try lia; try done.
  intros [= <- <-]. split_and!; [lia|lia|done| |].
  - intros x Hx. rewrite is_mapped_below by lia. done.
  - intros x. rs. cbn [is_mapped]. destruct (Z.leb_spec (top_of (events k)) x),
      (Z.ltb_spec x (top_of (events k) + len)); cbn; intuition lia.
Qed.
Next Obligation.
  intros len prot k k' e. cbn. unfold sim_mmap. case_match; [done|]. intros [= <- <-].
  split; done.
Qed.
Next Obligation.
  intros a len k k'. cbn. intros [= <-] x. rs. cbn [is_mapped].
  destruct (Z.leb_spec a x), (Z.ltb_spec x (a + len)); cbn; intuition lia.
Qed.
Next Obligation. intros a len k k' e. done. Qed.
Next Obligation. done. Qed.
Next Obligation.
  intros a len prot k e. cbn. destruct (no_exec k && has prot PROT_EXEC); [|done].
  by intros [= <-].
Qed.
Solve All Obligations with (cbn; naive_solver).

(** Nothing allocated: the three heads are mapped and point at themselves. *)
Definition s_init : nptl simk :=
  mkNptl ∅ {[ stack_used := mkList stack_used stack_used;
              stack_cache := mkList stack_cache stack_cache;
              stack_user := mkList stack_user stack_user ]}
    0 0 (40 * 1024 * 1024) 0 0 (8 * 1024 * 1024) 1 0 []
    (mkSim [(true, 4096, 4096)] false false).
End X86.
