(* ===== verification/StackCache.v ===== *)
(** The cache of thread stacks ([allocatestack.c]).

    Definitions: the list operations that record what is in flight, the search
    and removal of a cached stack, the eviction of stacks, queueing,
    deallocation and the permission changes.  Then the representation relation
    [rep] between the global state and three lists of descriptors, and what each
    operation does to the lists. *)
From S2P Require Import Prelude ListHead Nptl.

Section Defs.
Context {K : Type} {PF : Platform} {LA : ListApi} {KN : Kernel K}.

(** [FREE_P (descr)]: the kernel has cleared the thread id, or a join has set
    it to -1. *)
Definition FREE_P (t : pthread) : bool := pd_tid t <=? 0.

Definition stack_list_del (elem : ptr) : M (nptl K) () :=
  modify (λ s, s <| in_flight_stack := elem |>);;
  modify (λ s, s <| links := list_del elem (links s) |>);;
  modify (λ s, s <| in_flight_stack := 0 |>).

Definition stack_list_add (elem head : ptr) : M (nptl K) () :=
  modify (λ s, s <| in_flight_stack := Z.lor elem 1 |>);;
  modify (λ s, s <| links := list_add elem head (links s) |>);;
  modify (λ s, s <| in_flight_stack := 0 |>).

(** The loop of [get_cached_stack]: an exact match ends it, otherwise the
    smallest fitting block seen so far is kept. *)
Fixpoint cache_search (size : Z) (entries : list ptr) (result : option ptr)
    : M (nptl K) (option ptr) :=
  match entries with
  | [] => mret result
  | entry :: rest =>
      let curr := list_entry entry in
      c ← load_pd curr;
      if FREE_P c && (size <=? pd_stackblock_size c) then
        if pd_stackblock_size c =? size then mret (Some curr)
        else
          match result with
          | None => cache_search size rest (Some curr)
          | Some r =>
              rd ← load_pd r;
              cache_search size rest
                (if pd_stackblock_size c <? pd_stackblock_size rd
                 then Some curr else result)
          end
      else cache_search size rest result
  end.

(** Free the dynamic TLS blocks and clear the DTV. *)
Definition clear_dtv (p : ptr) : M (nptl K) () :=
  t ← load_pd p;
  mfor (pd_dtv t) free_mem;;
  upd_pd p (λ t, t <| pd_dtv := replicate (length (pd_dtv t)) 0 |>).

(** [None] for a null result; otherwise the descriptor, [*sizep] and [*memp]. *)
Definition get_cached_stack (size : Z) : M (nptl K) (option (ptr * Z * ptr)) :=
  lock_cache;;
  entries ← gets (λ s, list_for_each (links s) stack_cache);
  result ← cache_search size entries None;
  match result with
  | None => unlock_cache;; mret None
  | Some r =>
      rd ← load_pd r;
      if 4 *w size <? pd_stackblock_size rd then unlock_cache;; mret None
      else
        upd_pd r (λ t, t <| pd_setxid_futex := -1 |>);;
        stack_list_del (list_of r);;
        stack_list_add (list_of r) stack_used;;
        rd ← load_pd r;
        modify (λ s, s <| stack_cache_actsize :=
                          stack_cache_actsize s -w pd_stackblock_size rd |>);;
        unlock_cache;;
        upd_pd r (λ t, t <| pd_cancelhandling := 0 |> <| pd_cleanup := 0 |>
                         <| pd_nextevent := 0 |> <| pd_tls_state := 0 |>);;
        clear_dtv r;;
        on_kernel (dl_allocate_tls_init r);;
        mret (Some (r, pd_stackblock_size rd, pd_stackblock rd))
  end.

(** The body of the loop of [free_stacks]; the answer is whether to [break]. *)
Definition free_one (limit : Z) (entry : ptr) : M (nptl K) bool :=
  let curr := list_entry entry in
  c ← load_pd curr;
  if FREE_P c then
    stack_list_del entry;;
    modify (λ s, s <| stack_cache_actsize :=
                      stack_cache_actsize s -w pd_stackblock_size c |>);;
    on_kernel (dl_deallocate_tls curr);;
    r ← munmap (pd_stackblock c) (pd_stackblock_size c);
    if r =? 0 then
      a ← gets stack_cache_actsize; mret (a <=? limit)
    else stop_with Aborted
  else mret false.

Definition free_stacks (limit : Z) : M (nptl K) () :=
  entries ← gets (λ s, list_for_each_prev_safe (links s) stack_cache);
  mfor_break entries (free_one limit).

Definition nptl_stacks_freeres : M (nptl K) () := free_stacks 0.

Definition queue_stack (stack : ptr) : M (nptl K) () :=
  stack_list_add (list_of stack) stack_cache;;
  t ← load_pd stack;
  modify (λ s, s <| stack_cache_actsize :=
                    stack_cache_actsize s +w pd_stackblock_size t |>);;
  a ← gets stack_cache_actsize;
  m ← gets stack_cache_maxsize;
  when (m <? a) (free_stacks m).

(** 0, or an error number. *)
Definition change_stack_perm (pd : ptr) : M (nptl K) Z :=
  t ← load_pd pd;
  r ← mprotect (pd_stackblock t + pd_guardsize t)
        (pd_stackblock_size t -w pd_guardsize t)
        (Z.lor PROT_READ (Z.lor PROT_WRITE PROT_EXEC));
  if r =? 0 then mret 0 else gets errno.

(** The guard is at the low end of the block. *)
Definition guard_position (mem : ptr) : ptr := mem.

Definition setup_stack_prot (mem : ptr) (size : Z) (guard : ptr) (guardsize prot : Z)
    : M (nptl K) Z :=
  let guardend := guard + guardsize in
  r ← mprotect guardend (size -w guardsize) prot;
  if r =? 0 then mret 0 else gets errno.

(** [sp] is the current stack frame of the exiting thread. *)
Definition advise_stack_range (sp : Z) (mem : ptr) (size : Z) : M (nptl K) () :=
  let pagesize_m1 := pagesize - 1 in
  let freesize := (sp -w mem) &~ pagesize_m1 in
  assert (freesize <? size);;
  when (PTHREAD_STACK_MIN <? freesize)
    (on_kernel (k_madvise_dontneed mem (freesize -w PTHREAD_STACK_MIN))).

Definition deallocate_stack (pd : ptr) : M (nptl K) () :=
  lock_cache;;
  stack_list_del (list_of pd);;
  t ← load_pd pd;
  (if negb (pd_user_stack t) then queue_stack pd
   else on_kernel (dl_deallocate_tls pd));;
  unlock_cache.

(** Change the permissions of the stacks in a list until one fails. *)
Fixpoint change_perms (entries : list ptr) : M (nptl K) Z :=
  match entries with
  | [] => mret 0
  | runp :: rest =>
      err ← change_stack_perm (list_entry runp);
      if err =? 0 then change_perms rest else mret err
  end.

Definition make_stacks_executable : M (nptl K) Z :=
  k ← gets kern;
  let '(k', err) := dl_make_stack_executable k in
  modify (λ s, s <| kern := k' |>);;
  if negb (err =? 0) then mret err
  else
    lock_cache;;
    used ← gets (λ s, list_for_each (links s) stack_used);
    err ← change_perms used;
    err ← (if err =? 0 then
             cached ← gets (λ s, list_for_each (links s) stack_cache);
             change_perms cached
           else mret err);
    unlock_cache;;
    mret err.
End Defs.

(** * The three lists *)

Inductive which := Used | Cache | User.
#[export] Instance which_eq_dec : EqDecision which.
Proof. solve_decision. Defined.

(** The descriptors in use, cached, and on stacks the user provided. *)
Definition lists (u c r : list ptr) (i : which) : list ptr :=
  match i with Used => u | Cache => c | User => r end.

Section Rings.
Context {PF : Platform} {PL : PlatformLaws} {LA : ListApi} {LL : ListLaws}.
Implicit Types (m : lmem) (L : which → list ptr).

Definition head_of (i : which) : ptr :=
  match i with Used => stack_used | Cache => stack_cache | User => stack_user end.

(** The link memory holds the three lists [L], which share no descriptor. *)
Record rings m L : Prop := {
  rings_ring i : ring m (head_of i) (list_of <$> L i);
  rings_disj i j p : i ≠ j → p ∈ L i → p ∉ L j;
  rings_heads i p : p ∈ L i → list_of p ∉ heads;
}.

Lemma head_of_heads i : head_of i ∈ heads.
Proof. unfold heads. destruct i; set_solver. Qed.

Lemma head_of_inj i j : head_of i = head_of j → i = j.
Proof.
  pose proof heads_distinct as N. apply NoDup_cons in N as [N1 N].
  apply NoDup_cons in N as [N2 _]. destruct i, j; cbn; set_solver.
Qed.

Lemma rings_nodup m L i : rings m L → NoDup (L i).
Proof.
  intros R. destruct (rings_ring _ _ R i) as [N _]. apply NoDup_cons in N as [_ N].
  by apply NoDup_fmap_1 in N.
Qed.

Lemma rings_all_nodup m u c r : rings m (lists u c r) → NoDup (u ++ c ++ r).
Proof.
  intros R. pose proof (λ i, rings_nodup _ _ i R) as N.
  pose proof (rings_disj _ _ R) as D. rewrite !NoDup_app.
  split_and!; [apply (N Used) | | apply (N Cache) | | apply (N User)]; intros p Hp.
  - pose proof (D Used Cache p ltac:(done) Hp). pose proof (D Used User p ltac:(done) Hp).
    set_solver.
  - apply (D Cache User p); done.
Qed.

(** The elements of one list are not elements of another. *)
Lemma rings_apart m L i j x :
  rings m L → i ≠ j → x ∈ head_of i :: (list_of <$> L i) →
  x ∉ head_of j :: (list_of <$> L j).
Proof.
  intros R Hij. rewrite !elem_of_cons, !list_elem_of_fmap.
  intros [->|(p & -> & Hp)] [E|(q & E & Hq)].
  - by apply Hij, head_of_inj.
  - eapply (rings_heads _ _ R j q Hq). rewrite <- E. apply head_of_heads.
  - eapply (rings_heads _ _ R i p Hp). rewrite E. apply head_of_heads.
  - apply (inj list_of) in E as <-. by apply (rings_disj _ _ R i j p).
Qed.

(** A change to one list that leaves the links of the others alone. *)
Lemma rings_step i m m' L L' :
  rings m L →
  (∀ j, j ≠ i → L' j = L j) →
  ring m' (head_of i) (list_of <$> L' i) →
  (∀ j x, j ≠ i → x ∈ head_of j :: (list_of <$> L j) → m' !! x = m !! x) →
  (∀ p, p ∈ L' i → (list_of p ∉ heads) ∧ (∀ j, j ≠ i → p ∉ L j)) →
  rings m' L'.
Proof.
  intros R HL Hi Hm Hp. split.
  - intros j. destruct (decide (j = i)) as [->|Hj]; [done|]. rewrite HL by done.
    eapply ring_frame, (rings_ring _ _ R j). intros x. by apply Hm.
  - intros j k p Hjk Hin. destruct (decide (j = i)) as [->|Hj].
    + rewrite HL by done. by apply Hp.
    + rewrite (HL j) in Hin by done. destruct (decide (k = i)) as [->|Hk].
      * intros Hin'. by apply (proj2 (Hp p Hin') j Hj).
      * rewrite HL by done. by apply (rings_disj _ _ R j k).
  - intros j p Hin. destruct (decide (j = i)) as [->|Hj]; [by apply Hp|].
    rewrite (HL j) in Hin by done. by apply (rings_heads _ _ R j).
Qed.

Lemma rings_del i m L L' l1 p l2 :
  rings m L → L i = l1 ++ p :: l2 → L' i = l1 ++ l2 → (∀ j, j ≠ i → L' j = L j) →
  rings (list_del (list_of p) m) L'.
Proof.
  intros R E E' HL.
  pose proof (rings_ring _ _ R i) as Ri. rewrite E, fmap_app, fmap_cons in Ri.
  apply (rings_step i m _ L); [done | done | | |].
  - rewrite E', fmap_app. by apply list_del_ring.
  - intros j x Hj Hx. eapply list_del_frame; [exact Ri|].
    pose proof (rings_apart _ _ j i x R Hj Hx) as Hn. rewrite E in Hn.
    rewrite fmap_app, fmap_cons in Hn. set_solver.
  - intros q Hq. rewrite E' in Hq. assert (Hin : q ∈ L i) by (rewrite E; set_solver).
    split; [by apply (rings_heads _ _ R i)|]. intros j Hj. by apply (rings_disj _ _ R i j).
Qed.

Lemma rings_add i m L L' p :
  rings m L → L' i = p :: L i → (∀ j, j ≠ i → L' j = L j) →
  list_of p ∉ heads → (∀ j, p ∉ L j) →
  rings (list_add (list_of p) (head_of i) m) L'.
Proof.
  intros R E HL Hh Hf.
  assert (Hn : ∀ j, list_of p ∉ head_of j :: (list_of <$> L j)).
  { intros j. rewrite elem_of_cons, list_elem_of_fmap. intros [Ej|(q & Eq & Hq)].
    - apply Hh. rewrite Ej. apply head_of_heads.
    - apply (inj list_of) in Eq as <-. by apply (Hf j). }
  apply (rings_step i m _ L); [done | done | | |].
  - rewrite E, fmap_cons. apply list_add_ring; [apply (rings_ring _ _ R) | apply Hn].
  - intros j x Hj Hx. eapply list_add_frame; [apply (rings_ring _ _ R i)| |].
    + intros ->. by apply (Hn j).
    + by apply (rings_apart m L j i).
  - intros q Hq. rewrite E in Hq. apply elem_of_cons in Hq as [->|Hq]; [done|].
    split; [by apply (rings_heads _ _ R i)|]. intros j Hj. by apply (rings_disj _ _ R i j).
Qed.

Lemma rings_entries m L i : rings m L → list_for_each m (head_of i) = list_of <$> L i.
Proof. intros R. apply for_each_ring, (rings_ring _ _ R). Qed.

(** Only the heads and the linked elements matter. *)
Lemma rings_frame m m' L :
  (∀ x, x ∈ heads ∨ (∃ i p, p ∈ L i ∧ x = list_of p) → m' !! x = m !! x) →
  rings m L → rings m' L.
Proof.
  intros E R. split; [|apply R..]. intros i. eapply ring_frame, (rings_ring _ _ R i).
  intros x [->|(p & -> & Hp)%list_elem_of_fmap]%elem_of_cons; apply E.
  - left. apply head_of_heads.
  - right. eauto.
Qed.
End Rings.

(** * Representation *)

Definition geom (t : pthread) : ptr * Z * bool :=
  (pd_stackblock t, pd_stackblock_size t, pd_user_stack t).
Definition in_block (t : pthread) (a : Z) : Prop :=
  pd_stackblock t ≤ a < pd_stackblock t + pd_stackblock_size t.

Definition size_of (ds : gmap Z pthread) (p : ptr) : Z :=
  match ds !! p with Some t => pd_stackblock_size t | None => 0 end.
Fixpoint cached_size (ds : gmap Z pthread) (l : list ptr) : Z :=
  match l with [] => 0 | p :: l => size_of ds p + cached_size ds l end.

(** The block is free and large enough. *)
Definition fits (ds : gmap Z pthread) (size : Z) (p : ptr) : Prop :=
  ∃ t, ds !! p = Some t ∧ FREE_P t = true ∧ size ≤ pd_stackblock_size t.

(** The first of the smallest fitting blocks of [l], if any fits. *)
Definition best_fit (ds : gmap Z pthread) (size : Z) (l : list ptr) (res : option ptr) : Prop :=
  match res with
  | None => ∀ p, p ∈ l → ¬ fits ds size p
  | Some p => ∃ l1 l2, l = l1 ++ p :: l2 ∧ fits ds size p ∧
      (∀ q, q ∈ l1 → fits ds size q → size_of ds p < size_of ds q) ∧
      (∀ q, q ∈ l2 → fits ds size q → size_of ds p ≤ size_of ds q)
  end.

Section Rep.
Context {K : Type} {PF : Platform} {PL : PlatformLaws} {LA : ListApi} {LL : ListLaws}.
Context {KN : Kernel K} {KL : KernelLaws (K := K)}.
Implicit Types (s : nptl K) (L : which → list ptr).

(** The block of a thread: it holds the descriptor, is mapped, and contains no
    list head. *)
Record block_ok s (t : pthread) (p : ptr) : Prop := {
  block_pd : in_block t p;
  block_list : in_block t (list_of p);
  block_flag : pd_user_stack t = false;
  block_range : 0 < pd_stackblock t ∧ pd_stackblock t + pd_stackblock_size t < user_top;
  block_place : pd_stackblock t + pd_stackblock_size t - TLS_TCB_SIZE - static_tls_align_m1
                ≤ p ≤ pd_stackblock t + pd_stackblock_size t - TLS_TCB_SIZE;
  block_heads h : h ∈ heads → ¬ in_block t h;
  block_mapped a : in_block t a → mapped (kern s) a;
}.

Record rep s L : Prop := {
  rep_rings : rings (links s) L;
  rep_live i p : p ∈ L i → is_Some (pds s !! p);
  rep_act : stack_cache_actsize s = w64 (cached_size (pds s) (L Cache));
  rep_block i p t : i ≠ User → p ∈ L i → pds s !! p = Some t → block_ok s t p;
  rep_disj i j p q tp tq a : i ≠ User → j ≠ User → p ∈ L i → q ∈ L j → p ≠ q →
    pds s !! p = Some tp → pds s !! q = Some tq → in_block tp a → ¬ in_block tq a;
  rep_user i p q t : i ≠ User → p ∈ L i → q ∈ L User → pds s !! p = Some t →
    ¬ in_block t q ∧ ¬ in_block t (list_of q);
  rep_user_flag p t : p ∈ L User → pds s !! p = Some t →
    pd_user_stack t = true ∧ mapped (kern s) p ∧ mapped (kern s) (list_of p);
  rep_heads h : h ∈ heads → mapped (kern s) h;
}.

Lemma geom_eq t t' : geom t = geom t' →
  pd_stackblock t = pd_stackblock t' ∧ pd_stackblock_size t = pd_stackblock_size t' ∧
  pd_user_stack t = pd_user_stack t'.
Proof. unfold geom. naive_solver. Qed.

Lemma block_ok_ext s s' t t' p :
  geom t = geom t' → (∀ a, mapped (kern s) a → mapped (kern s') a) →
  block_ok s t p → block_ok s' t' p.
Proof.
  intros (E1 & E2 & E3)%geom_eq Hm []. unfold in_block in *.
  split; unfold in_block; rewrite <- ?E1, <- ?E2, <- ?E3; auto.
Qed.

Lemma cached_size_ext ds ds' l :
  (∀ p, p ∈ l → geom <$> ds' !! p = geom <$> ds !! p) →
  cached_size ds' l = cached_size ds l.
Proof.
  induction l as [|p l IH]; intros Hg; [done|]. cbn. rewrite IH by set_solver.
  f_equal. unfold size_of. pose proof (Hg p ltac:(set_solver)) as E.
  destruct (ds' !! p), (ds !! p); cbn in E; try done. unfold geom in E. naive_solver.
Qed.

(** Fields other than the geometry of the blocks, and kernel state other than
    the mapping, may change. *)
Lemma rep_ext s s' L :
  rep s L → links s' = links s → stack_cache_actsize s' = stack_cache_actsize s →
  (∀ i p, p ∈ L i → geom <$> pds s' !! p = geom <$> pds s !! p) →
  (∀ a, mapped (kern s) a → mapped (kern s') a) →
  rep s' L.
Proof.
  intros R El Ea Hg Hm.
  assert (Hb : ∀ i p t', p ∈ L i → pds s' !! p = Some t' →
            ∃ t, pds s !! p = Some t ∧ geom t = geom t').
  { intros i p t' Hp E. pose proof (Hg i p Hp) as G. rewrite E in G. cbn in G.
    destruct (pds s !! p) as [t|] eqn:Et; [|done]. exists t. split; [done|]. cbn in G. congruence. }
  split.
  - rewrite El. apply R.
  - intros i p Hp. destruct (rep_live _ _ R i p Hp) as [t Ht].
    pose proof (Hg i p Hp) as G. rewrite Ht in G.
    destruct (pds s' !! p); [eauto | done].
  - rewrite Ea, (rep_act _ _ R). f_equal. symmetry. apply cached_size_ext. eauto.
  - intros i p t Hi Hp E. destruct (Hb _ _ _ Hp E) as (t0 & E0 & G).
    eapply block_ok_ext; eauto using rep_block.
  - intros i j p q tp tq a Hi Hj Hp Hq Hpq Ep Eq.
    destruct (Hb _ _ _ Hp Ep) as (t0 & E0 & (G1 & G2 & _)%geom_eq).
    destruct (Hb _ _ _ Hq Eq) as (t1 & E1 & (G3 & G4 & _)%geom_eq).
    pose proof (rep_disj _ _ R i j p q t0 t1 a) as D. unfold in_block in *.
    rewrite G1, G2, G3, G4 in D. auto.
  - intros i p q t Hi Hp Hq E. destruct (Hb _ _ _ Hp E) as (t0 & E0 & (G1 & G2 & _)%geom_eq).
    pose proof (rep_user _ _ R i p q t0) as D. unfold in_block in *.
    rewrite G1, G2 in D. auto.
  - intros p t Hp E. destruct (Hb _ _ _ Hp E) as (t0 & E0 & (_ & _ & G)%geom_eq).
    rewrite <- G. destruct (rep_user_flag _ _ R p t0 Hp E0) as (? & ? & ?). auto.
  - intros h Hh. apply Hm, R, Hh.
Qed.

Lemma rep_mapped s L i p : rep s L → p ∈ L i → mapped (kern s) p ∧ mapped (kern s) (list_of p).
Proof.
  intros R Hp. destruct (rep_live _ _ R i p Hp) as [t Et].
  destruct (decide (i = User)) as [->|Hi].
  - by destruct (rep_user_flag _ _ R p t Hp Et) as (_ & ? & ?).
  - destruct (rep_block _ _ R i p t Hi Hp Et) as [B1 B2 _ _ _ _ B6]. auto.
Qed.

(** Memory that was not mapped does not matter. *)
Lemma rep_frame s s' L :
  rep s L →
  (∀ x, mapped (kern s) x →
     links s' !! x = links s !! x ∧ pds s' !! x = pds s !! x ∧ mapped (kern s') x) →
  stack_cache_actsize s' = stack_cache_actsize s →
  rep s' L.
Proof.
  intros R Hf Ea. set (s1 := s <| links := links s' |>).
  assert (R1 : rep s1 L).
  { pose proof R as [R1 R2 R3 R4 R5 R6 R7 R8]. split; try done.
    - apply (rings_frame (links s)); [|done]. intros x Hx.
      assert (mapped (kern s) x) as Hm.
      { destruct Hx as [Hx|(i & p & Hp & ->)]; [auto | by apply (rep_mapped _ _ i p R)]. }
      by destruct (Hf x Hm).
    - intros i p t Hi Hp E. by destruct (R4 i p t Hi Hp E). }
  apply (rep_ext s1); try done.
  - intros i p Hp. destruct (rep_mapped _ _ i p R Hp) as [Hm _].
    by destruct (Hf p Hm) as (_ & -> & _).
  - intros x Hx. by destruct (Hf x Hx) as (_ & _ & ?).
Qed.

Lemma cached_size_app ds l1 l2 :
  cached_size ds (l1 ++ l2) = cached_size ds l1 + cached_size ds l2.
Proof. induction l1 as [|p l IH]; cbn; [done|]. rewrite IH. lia. Qed.

Lemma best_fit_nil ds size : best_fit ds size [] None.
Proof. intros p Hp. by apply not_elem_of_nil in Hp. Qed.

Lemma fits_size ds size p : fits ds size p → size ≤ size_of ds p.
Proof. intros (t & E & _ & Hs). unfold size_of. by rewrite E. Qed.

Lemma best_fit_snoc_skip ds size l res p :
  ¬ fits ds size p → best_fit ds size l res → best_fit ds size (l ++ [p]) res.
Proof.
  intros Hp. destruct res as [r|]; cbn.
  - intros (l1 & l2 & -> & ? & ? & ?). exists l1, (l2 ++ [p]).
    rewrite <- app_assoc. split_and!; [done..|]. set_solver.
  - set_solver.
Qed.

Lemma best_fit_snoc_keep ds size l r p :
  size_of ds r ≤ size_of ds p → best_fit ds size l (Some r) →
  best_fit ds size (l ++ [p]) (Some r).
Proof.
  intros Hp (l1 & l2 & -> & ? & ? & ?). exists l1, (l2 ++ [p]).
  rewrite <- app_assoc. split_and!; [done..|]. set_solver.
Qed.

(** A block smaller than all that came before is the best of the longer list. *)
Lemma best_fit_snoc_new ds size l p :
  fits ds size p → (∀ q, q ∈ l → fits ds size q → size_of ds p < size_of ds q) →
  best_fit ds size (l ++ [p]) (Some p).
Proof. intros Hp Hl. exists l, []. split_and!; [done..|]. set_solver. Qed.

Lemma best_fit_min ds size l r q :
  best_fit ds size l (Some r) → q ∈ l → fits ds size q → size_of ds r ≤ size_of ds q.
Proof.
  intros (l1 & l2 & -> & Hr & H1 & H2) Hq Hf. apply elem_of_app in Hq as [Hq|Hq].
  - pose proof (H1 q Hq Hf). lia.
  - apply elem_of_cons in Hq as [->|Hq]; [lia | by apply H2].
Qed.

Lemma best_fit_exact ds size l p l2 :
  fits ds size p → size_of ds p = size →
  (∀ q, q ∈ l → fits ds size q → size < size_of ds q) →
  best_fit ds size (l ++ p :: l2) (Some p).
Proof.
  intros Hp Hs Hl. exists l, l2. split_and!; [done..| |].
  - intros q Hq Hf. rewrite Hs. by apply Hl.
  - intros q Hq Hf. rewrite Hs. by apply fits_size.
Qed.

(** The search returns the first of the smallest blocks that fit. *)
Lemma wp_cache_search s size rest :
  ∀ done result,
  (∀ p, p ∈ rest → is_Some (pds s !! p)) →
  best_fit (pds s) size done result →
  (∀ r, result = Some r → size < size_of (pds s) r) →
  wp (cache_search size (list_of <$> rest) result)
    (λ res s', s' = s ∧ best_fit (pds s) size (done ++ rest) res) s.
Proof.
  induction rest as [|p rest IH]; intros done result Hlive Hb Hex; cbn.
  { by rewrite app_nil_r. }
  rewrite list_entry_of. unfold load_pd. wp_go.
  destruct (Hlive p ltac:(set_solver)) as [t Et].
  eapply wp_from_option; [exact Et|]. cbn.
  assert (Hsz : size_of (pds s) p = pd_stackblock_size t)
    by (unfold size_of; by rewrite Et).
  assert (Hlive' : ∀ q, q ∈ rest → is_Some (pds s !! q)) by set_solver.
  replace (done ++ p :: rest) with ((done ++ [p]) ++ rest) by (by rewrite <- app_assoc).
  destruct (FREE_P t && (size <=? pd_stackblock_size t)) eqn:Ef; cbn.
  - apply andb_true_iff in Ef as [Ef El%Z.leb_le].
    assert (Hf : fits (pds s) size p) by (exists t; auto).
    destruct (Z.eqb_spec (pd_stackblock_size t) size) as [Eq|Ne]; cbn.
    + split; [done|]. rewrite <- app_assoc. apply best_fit_exact; [done|lia|].
      intros q Hq Hq'. destruct result as [r|]; [|by apply Hb in Hq].
      pose proof (best_fit_min _ _ _ _ _ Hb Hq Hq'). pose proof (Hex r eq_refl). lia.
    + destruct result as [r|].
      * unfold load_pd. wp_go.
        destruct (pds s !! r) as [tr|] eqn:Er.
        2:{ destruct Hb as (? & ? & ? & (t' & ? & ?) & ?). congruence. }
        assert (Hszr : size_of (pds s) r = pd_stackblock_size tr)
          by (unfold size_of; by rewrite Er).
        cbn. apply IH; [done| |].
        -- destruct (Z.ltb_spec (pd_stackblock_size t) (pd_stackblock_size tr)).
           ++ apply best_fit_snoc_new; [done|]. intros q Hq Hq'.
              pose proof (best_fit_min _ _ _ _ _ Hb Hq Hq'). lia.
           ++ apply best_fit_snoc_keep; [lia | done].
        -- intros r' Hr'. destruct (pd_stackblock_size t <? pd_stackblock_size tr);
             simplify_eq; [lia|]. by apply Hex.
      * apply IH; [done| |].
        -- apply best_fit_snoc_new; [done|]. intros q Hq Hq'. by apply Hb in Hq.
        -- intros r' [= <-]. lia.
  - apply IH; [done| |done]. apply best_fit_snoc_skip; [|done].
    intros (t' & Et' & Hf' & Hs'). rewrite Et in Et'. simplify_eq.
    rewrite Hf' in Ef. cbn in Ef. lia.
Qed.
End Rep.

(** * Moving blocks between the lists *)

Section Moves.
Context {K : Type} {PF : Platform} {PL : PlatformLaws} {LA : ListApi} {LL : ListLaws}.
Context {KN : Kernel K} {KL : KernelLaws (K := K)}.
Implicit Types (s : nptl K) (L : which → list ptr) (u c r : list ptr).

(** The blocks of [L'] are among those of [L], and a user's stack stays one. *)
Lemma rep_move s s' L L' :
  rep s L → rings (links s') L' →
  (∀ i p, p ∈ L' i → ∃ j, p ∈ L j ∧ (i = User ↔ j = User)) →
  stack_cache_actsize s' = w64 (cached_size (pds s') (L' Cache)) →
  (∀ i p, p ∈ L' i → geom <$> pds s' !! p = geom <$> pds s !! p) →
  (∀ a, mapped (kern s) a → mapped (kern s') a) →
  rep s' L'.
Proof.
  intros R Rg Hin Ha Hg Hm.
  assert (Hb : ∀ i p t', p ∈ L' i → pds s' !! p = Some t' →
    ∃ j t, p ∈ L j ∧ (i = User ↔ j = User) ∧ pds s !! p = Some t ∧ geom t = geom t').
  { intros i p t' Hp E. destruct (Hin i p Hp) as (j & Hj & Hij).
    pose proof (Hg i p Hp) as G. rewrite E in G.
    destruct (pds s !! p) as [t|] eqn:Et; [|done]. exists j, t.
    split_and!; try done. cbn in G. congruence. }
  split; [done| |done| | | | |].
  - intros i p Hp. destruct (Hin i p Hp) as (j & Hj & _).
    destruct (rep_live _ _ R j p Hj) as [t Ht]. pose proof (Hg i p Hp) as G.
    rewrite Ht in G. destruct (pds s' !! p); [eauto | done].
  - intros i p t Hi Hp E. destruct (Hb _ _ _ Hp E) as (j & t0 & Hj & Hij & E0 & G).
    eapply block_ok_ext; [exact G | exact Hm |]. eapply (rep_block _ _ R j); tauto.
  - intros i j p q tp tq a Hi Hj Hp Hq Hpq Ep Eq.
    destruct (Hb _ _ _ Hp Ep) as (i0 & t0 & Hi0 & Hii & E0 & (G1 & G2 & _)%geom_eq).
    destruct (Hb _ _ _ Hq Eq) as (j0 & t1 & Hj0 & Hjj & E1 & (G3 & G4 & _)%geom_eq).
    pose proof (rep_disj _ _ R i0 j0 p q t0 t1 a) as D. unfold in_block in *.
    rewrite G1, G2, G3, G4 in D. apply D; tauto.
  - intros i p q t Hi Hp Hq E.
    destruct (Hb _ _ _ Hp E) as (i0 & t0 & Hi0 & Hii & E0 & (G1 & G2 & _)%geom_eq).
    destruct (Hin User q Hq) as (j & Hj & [Hju _]).
    pose proof (rep_user _ _ R i0 p q t0) as D. unfold in_block in *.
    rewrite G1, G2 in D. rewrite (Hju eq_refl) in Hj. apply D; tauto.
  - intros p t Hp E. destruct (Hb _ _ _ Hp E) as (j & t0 & Hj & [Hju _] & E0 & G).
    apply geom_eq in G as (_ & _ & G). rewrite (Hju eq_refl) in Hj.
    rewrite <- G. destruct (rep_user_flag _ _ R p t0 Hj E0) as (? & ? & ?). auto.
  - intros h Hh. apply Hm, R, Hh.
Qed.

(** A block that is in no list any more is unmapped, with all it contains. *)
Lemma rep_unmap s s' L p t :
  rep s L → (∀ i, p ∉ L i) → pds s !! p = Some t →
  (∀ a, mapped (kern s') a ↔ mapped (kern s) a ∧ ¬ in_block t a) →
  pds s' = outside (pd_stackblock t) (pd_stackblock_size t) (pds s) →
  links s' = outside (pd_stackblock t) (pd_stackblock_size t) (links s) →
  stack_cache_actsize s' = stack_cache_actsize s →
  (* the block was one of the library's before *)
  (∀ h, h ∈ heads → ¬ in_block t h) →
  (∀ i q tq a, i ≠ User → q ∈ L i → pds s !! q = Some tq → in_block t a → ¬ in_block tq a) →
  (∀ q, q ∈ L User → ¬ in_block t q ∧ ¬ in_block t (list_of q)) →
  rep s' L.
Proof.
  intros R Hp Et Hm Ep El Ea Hh Hd Hu.
  assert (Hout : ∀ i q, q ∈ L i → ¬ in_block t q ∧ ¬ in_block t (list_of q)).
  { intros i q Hq. destruct (decide (i = User)) as [->|Hi]; [by apply Hu|].
    destruct (rep_live _ _ R i q Hq) as [tq Etq].
    destruct (rep_block _ _ R i q tq Hi Hq Etq).
    split; intros Hb; by eapply (Hd i q tq). }
  assert (Hpds : ∀ i q, q ∈ L i → pds s' !! q = pds s !! q).
  { intros i q Hq. rewrite Ep. apply outside_lookup. apply (Hout i q Hq). }
  split.
  - eapply rings_frame, (rep_rings _ _ R). intros x Hx. rewrite El.
    apply outside_lookup. destruct Hx as [Hx|(i & q & Hq & ->)]; [by apply Hh|].
    apply (Hout i q Hq).
  - intros i q Hq. rewrite (Hpds i q Hq). apply (rep_live _ _ R i q Hq).
  - rewrite Ea, (rep_act _ _ R). f_equal. symmetry. apply cached_size_ext.
    intros q Hq. by rewrite (Hpds Cache q Hq).
  - intros i q tq Hi Hq E. rewrite (Hpds i q Hq) in E.
    destruct (rep_block _ _ R i q tq Hi Hq E) as [B1 B2 B3 B4 Bp B5 B6].
    split; auto. intros a Ha. apply Hm. split; [auto|]. intros Hb.
    by eapply (Hd i q tq a).
  - intros i j q1 q2 t1 t2 a Hi Hj Hq1 Hq2 Hne E1 E2.
    rewrite (Hpds i q1 Hq1) in E1. rewrite (Hpds j q2 Hq2) in E2.
    by apply (rep_disj _ _ R i j q1 q2).
  - intros i q1 q2 t1 Hi Hq1 Hq2 E1. rewrite (Hpds i q1 Hq1) in E1.
    by apply (rep_user _ _ R i q1 q2).
  - intros q tq Hq E. rewrite (Hpds User q Hq) in E.
    destruct (rep_user_flag _ _ R q tq Hq E) as (? & ? & ?).
    destruct (Hout User q Hq). rewrite !Hm. tauto.
  - intros h Hhh. apply Hm. split; [by apply R | by apply Hh].
Qed.

Lemma wp_stack_list_del elem (Q : () → nptl K → Prop) s :
  Q () (s <| links := list_del elem (links s) |> <| in_flight_stack := 0 |>) →
  wp (stack_list_del elem) Q s.
Proof. intros HQ. unfold stack_list_del. wp_go. by destruct s. Qed.

Lemma wp_stack_list_add elem h (Q : () → nptl K → Prop) s :
  Q () (s <| links := list_add elem h (links s) |> <| in_flight_stack := 0 |>) →
  wp (stack_list_add elem h) Q s.
Proof. intros HQ. unfold stack_list_add. wp_go. by destruct s. Qed.

Lemma cached_size_middle ds l1 p l2 :
  cached_size ds (l1 ++ p :: l2) = size_of ds p + cached_size ds (l1 ++ l2).
Proof. rewrite !cached_size_app. cbn. lia. Qed.

Lemma rep_unlisted s L a p :
  rep s L → ¬ mapped (kern s) a → p = a ∨ list_of p = a → ∀ i, p ∉ L i.
Proof.
  intros R Ha Hp i Hi. apply Ha. destruct (rep_live _ _ R i p Hi) as [t Et].
  destruct (decide (i = User)) as [->|Hne].
  - destruct (rep_user_flag _ _ R p t Hi Et) as (_ & ? & ?). by destruct Hp as [<- | <-].
  - destruct (rep_block _ _ R i p t Hne Hi Et) as [B1 B2 _ _ _ _ B6].
    apply B6. by destruct Hp as [<- | <-].
Qed.

(** A block in memory that was not mapped before enters a list. *)
Lemma rep_grow s s' L L' i p t :
  rep s L → i ≠ User → L' i = p :: L i → (∀ j, j ≠ i → L' j = L j) →
  block_ok s' t p →
  (∀ a, in_block t a → ¬ mapped (kern s) a) →
  (∀ a, mapped (kern s) a → mapped (kern s') a) →
  pds s' = <[p := t]> (pds s) →
  links s' = list_add (list_of p) (head_of i) (links s) →
  stack_cache_actsize s' = w64 (cached_size (pds s') (L' Cache)) →
  rep s' L'.
Proof.
  intros R Hi E HL B Hfresh Hm Ep El Ea. pose proof B as [B1 B2 B3 B4 Bp B5 B6].
  assert (Hnot : ∀ j, p ∉ L j) by (eapply rep_unlisted; eauto).
  assert (Hold : ∀ j q, q ∈ L j → pds s' !! q = pds s !! q).
  { intros j q Hq. rewrite Ep, lookup_insert_ne; [done|]. intros ->. by apply (Hnot j). }
  assert (Hin : ∀ j q, q ∈ L' j → (j = i ∧ q = p) ∨ q ∈ L j).
  { intros j q. destruct (decide (j = i)) as [->|Hj]; [rewrite E|rewrite HL by done]; set_solver. }
  assert (Hpt : pds s' !! p = Some t) by (rewrite Ep; apply lookup_insert_eq).
  assert (Hdis : ∀ j q tq a, j ≠ User → q ∈ L j → pds s' !! q = Some tq →
            in_block tq a → ¬ in_block t a).
  { intros j q tq a Hj Hq. rewrite (Hold j q Hq). intros Etq Ha Ha'.
    apply (Hfresh a Ha'). by apply (rep_block _ _ R j q tq). }
  split.
  - rewrite El. apply (rings_add i _ L); [apply R|done|done| |done].
    intros Hh. apply (Hfresh (list_of p) B2), (rep_heads _ _ R _ Hh).
  - intros j q [[-> ->]|Hq]%Hin; [by exists t|]. rewrite (Hold j q Hq).
    by apply (rep_live _ _ R j).
  - done.
  - intros j q tq Hj [[-> ->]|Hq]%Hin Etq; [congruence|]. rewrite (Hold j q Hq) in Etq.
    eapply block_ok_ext; [reflexivity|exact Hm|]. by apply (rep_block _ _ R j).
  - intros j k q1 q2 t1 t2 a Hj Hk [[-> ->]|H1]%Hin [[-> ->]|H2]%Hin Hne E1 E2; try done.
    + simplify_eq. intros Ha Ha'. by eapply (Hdis k q2).
    + simplify_eq. by eapply (Hdis j q1).
    + rewrite (Hold j q1 H1) in E1. rewrite (Hold k q2 H2) in E2.
      by apply (rep_disj _ _ R j k q1 q2).
  - intros j q1 q2 t1 Hj H1 [[<- _]|H2]%Hin E1; [done|].
    destruct (rep_live _ _ R User q2 H2) as [t2 E2].
    destruct (rep_user_flag _ _ R q2 t2 H2 E2) as (_ & U1 & U2).
    apply Hin in H1 as [[-> ->]|H1].
    + simplify_eq. split; intros Ha; by apply (Hfresh _ Ha).
    + rewrite (Hold j q1 H1) in E1. by apply (rep_user _ _ R j q1 q2).
  - intros q tq [[<- _]|Hq]%Hin Etq; [done|]. rewrite (Hold User q Hq) in Etq.
    destruct (rep_user_flag _ _ R q tq Hq Etq) as (? & ? & ?). auto.
  - intros h Hh. apply Hm, R, Hh.
Qed.

(** A descriptor in the user's memory enters the list of user stacks. *)
Lemma rep_grow_user s s' u c r p t :
  rep s (lists u c r) → (∀ i, p ∉ lists u c r i) →
  (list_of p ∉ heads) →
  (∀ i q tq, i ≠ User → q ∈ lists u c r i → pds s !! q = Some tq →
     ¬ in_block tq p ∧ ¬ in_block tq (list_of p)) →
  pd_user_stack t = true → mapped (kern s) p → mapped (kern s) (list_of p) →
  (∀ a, mapped (kern s) a → mapped (kern s') a) →
  pds s' = <[p := t]> (pds s) →
  links s' = list_add (list_of p) stack_user (links s) →
  stack_cache_actsize s' = stack_cache_actsize s →
  rep s' (lists u c (p :: r)).
Proof.
  intros R Hnot Hh Hout Hu Hm1 Hm2 Hm Ep El Ea.
  set (L := lists u c r) in *. set (L' := lists u c (p :: r)).
  assert (Hold : ∀ j q, q ∈ L j → pds s' !! q = pds s !! q).
  { intros j q Hq. rewrite Ep, lookup_insert_ne; [done|]. intros ->. by apply (Hnot j). }
  assert (Hsame : ∀ j, j ≠ User → L' j = L j) by (by intros []).
  split.
  - rewrite El. apply (rings_add User _ L); [apply R|done|by intros []|done|done].
  - intros j q Hq. destruct (decide (q = p)) as [->|Hne]; [rewrite Ep, lookup_insert_eq; eauto|].
    rewrite Ep, lookup_insert_ne by done. apply (rep_live _ _ R j).
    destruct j; cbn in *; set_solver.
  - rewrite Ea, (rep_act _ _ R). f_equal. symmetry. apply cached_size_ext.
    intros q Hq. by rewrite (Hold Cache q Hq).
  - intros j q tq Hj. rewrite (Hsame j Hj). intros Hq Etq. rewrite (Hold j q Hq) in Etq.
    eapply block_ok_ext; [reflexivity|exact Hm|]. by apply (rep_block _ _ R j).
  - intros j k q1 q2 t1 t2 a Hj Hk. rewrite (Hsame j Hj), (Hsame k Hk).
    intros H1 H2 Hne E1 E2. rewrite (Hold j q1 H1) in E1. rewrite (Hold k q2 H2) in E2.
    by apply (rep_disj _ _ R j k q1 q2).
  - intros j q1 q2 t1 Hj. rewrite (Hsame j Hj). intros H1 [->|H2]%elem_of_cons E1;
      rewrite (Hold j q1 H1) in E1; [by apply (Hout j q1)|].
    by apply (rep_user _ _ R j q1 q2).
  - intros q tq [->|Hq]%elem_of_cons Etq.
    + rewrite Ep, lookup_insert_eq in Etq. simplify_eq. auto.
    + rewrite (Hold User q Hq) in Etq.
      destruct (rep_user_flag _ _ R q tq Hq Etq) as (? & ? & ?). auto.
  - intros h Hh'. apply Hm, R, Hh'.
Qed.
End Moves.
