(* ===== verification/Demo.v ===== *)
(** Concrete states with thread stacks in them.

    [map_block] maps a block, puts a descriptor at its top end and the descriptor
    into a list; the states it builds satisfy the representation relation, and
    are the inputs of the examples of the other files. *)
From S2P Require Import Prelude ListHead Nptl Sim StackCache.
Import X86 ListH.

Definition block_at (a size tid : Z) : pthread :=
  pthread0 <| pd_stackblock := a |> <| pd_stackblock_size := size |>
           <| pd_guardsize := 4096 |> <| pd_reported_guardsize := 4096 |>
           <| pd_tid := tid |>.

(** Where the next descriptor goes. *)
Definition next_pd (size : Z) (s : nptl simk) : ptr := top_of (events (kern s)) + size - 2304.

Definition map_block (i : which) (size tid : Z) (s : nptl simk) : nptl simk :=
  let a := top_of (events (kern s)) in
  let p := next_pd size s in
  s <| kern := (kern s) <| events := (true, a, size) :: events (kern s) |> |>
    <| pds := <[p := block_at a size tid]> (pds s) |>
    <| links := list_add (list_of p) (head_of i) (links s) |>
    <| stack_cache_actsize :=
         if decide (i = Cache) then stack_cache_actsize s +w size
         else stack_cache_actsize s |>.

Lemma mapped_below_top (k : simk) x : mapped k x → x < top_of (events k).
Proof.
  intros Hx. destruct (decide (top_of (events k) ≤ x)); [|lia].
  cbn in Hx. by rewrite is_mapped_below in Hx.
Qed.

Lemma map_block_grows i L L' size tid s :
  rep s L → i ≠ User → L' i = next_pd size s :: L i → (∀ j, j ≠ i → L' j = L j) →
  4096 ≤ size → top_of (events (kern s)) + size < user_top →
  stack_cache_actsize (map_block i size tid s) =
    w64 (cached_size (pds (map_block i size tid s)) (L' Cache)) →
  rep (map_block i size tid s) L'.
Proof.
  intros R Hi E HL Hsz Htop Ha.
  set (a := top_of (events (kern s))) in *.
  assert (Hm : ∀ x, mapped (kern s) x → mapped (kern (map_block i size tid s)) x).
  { intros x Hx. pose proof (mapped_below_top _ _ Hx) as Hb. fold a in Hb.
    change (is_mapped ((true, a, size) :: events (kern s)) x = true). cbn [is_mapped].
    destruct (Z.leb_spec a x); cbn; [lia|]. exact Hx. }
  assert (Hb : ∀ x, in_block (block_at a size tid) x → ¬ mapped (kern s) x).
  { intros x Hx Hmx. apply mapped_below_top in Hmx. fold a in Hmx. unfold in_block, block_at in Hx.
    rs in Hx. lia. }
  pose proof (top_of_bound (events (kern s))) as (Ht & _). fold a in Ht.
  apply (rep_grow s _ L L' i (next_pd size s) (block_at a size tid)); try done.
  split; unfold next_pd, list_of, in_block, block_at; rs; fold a; try (cbn; lia).
  - intros h Hh. pose proof (rep_heads _ _ R h Hh) as Hmh.
    apply mapped_below_top in Hmh. fold a in Hmh. lia.
  - intros x [H1 H2].
    change (is_mapped ((true, a, size) :: events (kern s)) x = true). cbn [is_mapped].
    rewrite (proj2 (Z.leb_le a x)), (proj2 (Z.ltb_lt x (a + size))) by lia.
    done.
Qed.

Lemma fresh_cached_size s L size v :
  rep s L → cached_size (<[next_pd size s := v]> (pds s)) (L Cache) =
  cached_size (pds s) (L Cache) ∨ size < 4096.
Proof.
  intros R. destruct (decide (size < 4096)); [by right|left].
  apply cached_size_ext. intros p Hp. rewrite lookup_insert_ne; [done|]. intros <-.
  destruct (rep_live _ _ R Cache _ Hp) as [t Et].
  destruct (rep_block _ _ R Cache _ t ltac:(done) Hp Et) as [B _ _ _ _ _ Bm].
  apply Bm, mapped_below_top in B. unfold next_pd in B. lia.
Qed.

Lemma map_block_used s u c r size tid :
  rep s (lists u c r) → 4096 ≤ size → top_of (events (kern s)) + size < user_top →
  rep (map_block Used size tid s) (lists (next_pd size s :: u) c r).
Proof.
  intros R ? ?. eapply map_block_grows; try done; [by intros []|].
  set (t := block_at (top_of (events (kern s))) size tid).
  change (stack_cache_actsize s = w64 (cached_size (<[next_pd size s := t]> (pds s)) c)).
  destruct (fresh_cached_size s _ size t R) as [E|]; [|lia]. cbn [lists] in E.
  by rewrite E, (rep_act _ _ R).
Qed.

Lemma map_block_cache s u c r size tid :
  rep s (lists u c r) → 4096 ≤ size → top_of (events (kern s)) + size < user_top →
  rep (map_block Cache size tid s) (lists u (next_pd size s :: c) r).
Proof.
  intros R ? ?. eapply map_block_grows; try done; [by intros []|].
  set (t := block_at (top_of (events (kern s))) size tid).
  change (stack_cache_actsize s +w size =
    w64 (cached_size (<[next_pd size s := t]> (pds s)) (next_pd size s :: c))).
  destruct (fresh_cached_size s _ size t R) as [E|]; [|lia]. cbn [lists] in E.
  cbn [cached_size]. rewrite E, (rep_act _ _ R), w64_add_l. f_equal.
  unfold size_of. rewrite lookup_insert_eq. cbn [lists].
  change (pd_stackblock_size t) with size. lia.
Qed.

Lemma rep_init : rep s_init (lists [] [] []).
Proof.
  split; try (intros [] *; set_solver); try set_solver.
  split; try (intros [] *; set_solver).
  intros []; (split; [apply NoDup_singleton | by vm_compute]).
Qed.

(** Three cached stacks, oldest first: 2 MiB whose thread is still exiting, 512 KiB
    and 2 MiB that are free; and one stack in use. *)
Definition KiB := 1024.
Definition MiB := 1048576.
Definition d1 := map_block Used (8 * MiB) 101 s_init.
Definition d2 := map_block Cache (2 * MiB) 102 d1.
Definition d3 := map_block Cache (512 * KiB) 0 d2.
Definition demo := map_block Cache (2 * MiB) 0 d3.
Definition demo_u := [next_pd (8 * MiB) s_init].
Definition demo_c := [next_pd (2 * MiB) d3; next_pd (512 * KiB) d2; next_pd (2 * MiB) d1].

Lemma rep_demo : rep demo (lists demo_u demo_c []).
Proof.
  assert (4096 ≤ 2 * MiB ∧ 4096 ≤ 512 * KiB ∧ 4096 ≤ 8 * MiB) as (? & ? & ?)
    by (unfold MiB, KiB; lia).
  assert (top_of (events (kern s_init)) + 8 * MiB < user_top) by (vm_compute; reflexivity).
  assert (top_of (events (kern d1)) + 2 * MiB < user_top) by (vm_compute; reflexivity).
  assert (top_of (events (kern d2)) + 512 * KiB < user_top) by (vm_compute; reflexivity).
  assert (top_of (events (kern d3)) + 2 * MiB < user_top) by (vm_compute; reflexivity).
  eapply map_block_cache; [|assumption..]. eapply map_block_cache; [|assumption..].
  eapply map_block_cache; [|assumption..]. eapply map_block_used; [|assumption..].
  apply rep_init.
Qed.

(** A thread on a stack its creator provided: a mapped area of 64 KiB, not one of
    the library's blocks. *)
Definition user_area (s : nptl simk) : Z := top_of (events (kern s)).
Definition user_pd (s : nptl simk) : ptr := user_area s + 61440.
Definition user_thread (s : nptl simk) : pthread :=
  pthread0 <| pd_stackblock := user_area s |> <| pd_stackblock_size := 65536 |>
           <| pd_user_stack := true |> <| pd_tid := 104 |>.
Definition map_area (s : nptl simk) : nptl simk :=
  s <| kern := (kern s) <| events := (true, user_area s, 65536) :: events (kern s) |> |>.
Definition map_user (s : nptl simk) : nptl simk :=
  map_area s <| pds := <[user_pd s := user_thread s]> (pds s) |>
             <| links := list_add (list_of (user_pd s)) stack_user (links s) |>.

Lemma map_area_mapped s x :
  mapped (kern (map_area s)) x ↔ mapped (kern s) x ∨ user_area s ≤ x < user_area s + 65536.
Proof.
  change (is_mapped ((true, user_area s, 65536) :: events (kern s)) x = true ↔
    is_mapped (events (kern s)) x = true ∨ user_area s ≤ x < user_area s + 65536).
  cbn [is_mapped]. unfold user_area.
  destruct (Z.leb_spec (top_of (events (kern s))) x),
    (Z.ltb_spec x (top_of (events (kern s)) + 65536)); cbn; intuition lia.
Qed.

Lemma map_area_rep s L : rep s L → rep (map_area s) L.
Proof.
  intros R. apply (rep_ext s _ _ R); try done.
  intros a Ha. apply map_area_mapped. by left.
Qed.

Lemma map_user_grows s u c r : rep s (lists u c r) → rep (map_user s) (lists u c (user_pd s :: r)).
Proof.
  intros R.
  assert (Hf : ∀ x, mapped (kern s) x → x ≠ user_pd s ∧ x ≠ list_of (user_pd s)).
  { intros x Hx%mapped_below_top. unfold user_pd, user_area, list_of.
    cbn [offsetof_list x86_64]. lia. }
  apply (rep_grow_user (map_area s) _ _ _ _ _ (user_thread s) (map_area_rep _ _ R)); try done.
  - intros i Hi. destruct (rep_live _ _ R i _ Hi) as [t Et].
    destruct (decide (i = User)) as [->|Hne].
    + destruct (rep_user_flag _ _ R _ t Hi Et) as (_ & Hm & _). by destruct (Hf _ Hm).
    + destruct (rep_block _ _ R i _ t Hne Hi Et) as [B _ _ _ _ _ Bm]. by destruct (Hf _ (Bm _ B)).
  - intros Hh. by destruct (Hf _ (rep_heads _ _ R _ Hh)).
  - intros i q tq Hne Hq Eq. destruct (rep_block _ _ R i q tq Hne Hq Eq) as [_ _ _ _ _ _ Bm].
    split; intros Hb; by destruct (Hf _ (Bm _ Hb)).
  - apply map_area_mapped. unfold user_pd. lia.
  - apply map_area_mapped. unfold user_pd, list_of. cbn [offsetof_list x86_64]. lia.
Qed.

Definition demo_user := map_user demo.

Lemma rep_demo_user : rep demo_user (lists demo_u demo_c [user_pd demo]).
Proof. apply map_user_grows, rep_demo. Qed.
