(* ===== verification/StackCacheProofs.v ===== *)
(** What the operations of the stack cache do ([allocatestack.c]).

    Each operation is related to its effect on the three lists of descriptors:
    the search takes the best fit, eviction goes from the oldest stack, and every
    operation releases the lock it took and keeps the representation. *)
From S2P Require Import Prelude ListHead Nptl Sim StackCache Demo.

(** Variables that no operation on the cache touches. *)
Definition config {K} (s : nptl K) : Z * Z * Z * Z :=
  (stack_cache_maxsize s, default_pthread_attr_lock s, default_stacksize s, nptl_nthreads s).

(** What [get_cached_stack] resets in the descriptor it hands out. *)
Definition recycled (t : pthread) : pthread :=
  t <| pd_setxid_futex := -1 |> <| pd_cancelhandling := 0 |> <| pd_cleanup := 0 |>
    <| pd_nextevent := 0 |> <| pd_tls_state := 0 |>
    <| pd_dtv := replicate (length (pd_dtv t)) 0 |>.

(** What eviction leaves of the cache, oldest stack first: free stacks go until
    the size is within the limit, stacks whose thread still runs stay. *)
Fixpoint evict (ds : gmap Z pthread) (limit : Z) (old_first : list ptr) (act : Z)
    : list ptr * Z :=
  match old_first with
  | [] => ([], act)
  | p :: rest =>
      match ds !! p with
      | Some t =>
          if FREE_P t then
            let act' := act -w pd_stackblock_size t in
            if act' <=? limit then (rest, act') else evict ds limit rest act'
          else let '(k, a) := evict ds limit rest act in (p :: k, a)
      | None => (old_first, act)
      end
  end.

(** The cache after a stack was put in front of it: eviction only runs when the
    size is over the maximum. *)
Definition trim (ds : gmap Z pthread) (limit : Z) (c : list ptr) (act : Z) : list ptr * Z :=
  if limit <? act then let '(k, a) := evict ds limit (rev c) act in (rev k, a) else (c, act).

(** The total size of the free stacks of a list. *)
Definition freed_size (ds : gmap Z pthread) (l : list ptr) : Z :=
  foldr (λ p n, match ds !! p with
                | Some t => if FREE_P t then pd_stackblock_size t + n else n
                | None => n
                end) 0 l.
Definition busy (ds : gmap Z pthread) (p : ptr) : bool :=
  match ds !! p with Some t => negb (FREE_P t) | None => false end.

Section Proofs.
Context {K : Type} {PF : Platform} {PL : PlatformLaws} {LA : ListApi} {LL : ListLaws}.
Context {KN : Kernel K} {KL : KernelLaws (K := K)}.
Implicit Types (s : nptl K) (L : which → list ptr) (u c r : list ptr).

Lemma rep_lists_live s u c r p :
  rep s (lists u c r) → p ∈ c → ∃ t, pds s !! p = Some t ∧ block_ok s t p.
Proof.
  intros R Hp. destruct (rep_live _ _ R Cache p Hp) as [t Et].
  exists t. split; [done|]. by apply (rep_block _ _ R Cache p).
Qed.

Lemma size_of_lookup ds p t : ds !! p = Some t → size_of ds p = pd_stackblock_size t.
Proof. unfold size_of. by intros ->. Qed.

Lemma lists_in (u c r u' c' r' : list ptr) i p :
  (p ∈ u' → p ∈ u ++ c) → (p ∈ c' → p ∈ u ++ c) → (p ∈ r' → p ∈ r) →
  p ∈ lists u' c' r' i → ∃ j, p ∈ lists u c r j ∧ (i = User ↔ j = User).
Proof.
  intros Hu Hc Hr Hp. destruct i; cbn in Hp.
  - destruct (proj1 (elem_of_app _ _ _) (Hu Hp)) as [H|H]; [by exists Used | by exists Cache].
  - destruct (proj1 (elem_of_app _ _ _) (Hc Hp)) as [H|H]; [by exists Used | by exists Cache].
  - exists User. auto.
Qed.

(** From the cache to the list of stacks in use. *)
Lemma rings_take m u c1 p c2 r :
  rings m (lists u (c1 ++ p :: c2) r) →
  rings (list_add (list_of p) stack_used (list_del (list_of p) m))
    (lists (p :: u) (c1 ++ c2) r).
Proof.
  intros R.
  assert (R' : rings (list_del (list_of p) m) (lists u (c1 ++ c2) r)).
  { apply (rings_del Cache m (lists u (c1 ++ p :: c2) r) _ c1 p c2); try done.
    by intros []. }
  apply (rings_add Used _ _ _ _ R'); try done; [by intros []| |].
  - apply (rings_heads _ _ R Cache). cbn. set_solver.
  - pose proof (rings_nodup _ _ Cache R) as N. cbn in N.
    rewrite <- Permutation_middle in N. apply NoDup_cons in N as [N _].
    intros j Hin. destruct (decide (j = Cache)) as [->|Hj]; [done|].
    apply (rings_disj _ _ R j Cache p Hj); [by destruct j | cbn; set_solver].
Qed.

Lemma wp_clear_dtv p t (Q : () → nptl K → Prop) s :
  pds s !! p = Some t →
  Q () (s <| freed := freed s ++ filter (λ p, p ≠ 0) (pd_dtv t) |>
          <| pds := <[p := t <| pd_dtv := replicate (length (pd_dtv t)) 0 |>]> (pds s) |>) →
  wp (clear_dtv p) Q s.
Proof.
  intros E HQ. unfold clear_dtv. wp_step. eapply wp_load_pd; [done|]. wp_step.
  apply wp_free_all. eapply wp_upd_pd; [rs; exact E|]. exact HQ.
Qed.

(** What [get_cached_stack] promises. *)
Definition search_post s u c r size (res : option (ptr * Z * ptr)) s' : Prop :=
  stack_cache_lock s' = 0 ∧ config s' = config s ∧ errno s' = errno s ∧
  (∀ a, mapped (kern s') a ↔ mapped (kern s) a) ∧
  match res with
  | None => s' = s ∧
      ∀ p, p ∈ c → fits (pds s) size p → 4 *w size < size_of (pds s) p
  | Some (p, sz, mem) => ∃ c1 c2 t,
      c = c1 ++ p :: c2 ∧ best_fit (pds s) size c (Some p) ∧
      pds s !! p = Some t ∧ sz = pd_stackblock_size t ∧ mem = pd_stackblock t ∧
      FREE_P t = true ∧ size ≤ sz ≤ 4 *w size ∧
      pds s' = <[p := recycled t]> (pds s) ∧
      freed s' = freed s ++ filter (λ p, p ≠ 0) (pd_dtv t) ∧
      rep s' (lists (p :: u) (c1 ++ c2) r)
  end.

(** The search and what follows it. *)
Lemma get_cached_stack_spec s u c r size :
  rep s (lists u c r) → stack_cache_lock s = 0 →
  wp (get_cached_stack size) (search_post s u c r size) s.
Proof.
  intros R Hlock. unfold search_post, get_cached_stack. wp_step. apply wp_lock_cache; [done|].
  set (s1 := s <| stack_cache_lock := 1 |>). do 2 wp_step.
  rewrite (rings_entries _ _ Cache (rep_rings _ _ R : rings (links s1) _)). wp_step.
  eapply wp_mono.
  { apply (wp_cache_search s1 size c []);
      [apply (rep_live _ _ R Cache) | apply best_fit_nil | done]. }
  cbn [app]. intros res s' [-> Hb]. change (pds s1) with (pds s) in Hb.
  destruct res as [p|].
  2:{ wp_go. split_and!; try done.
      - unfold s1. destruct s. cbn in Hlock. by rewrite Hlock.
      - intros p Hp Hf. by destruct (Hb p Hp). }
  destruct (Hb) as (c1 & c2 & Ec & (t & Et & Hfree & Hsz) & Hb1 & Hb2).
  wp_step. eapply wp_load_pd; [exact Et|]. wp_step.
  { wp_go. split_and!; try done.
    - unfold s1. destruct s. cbn in Hlock. by rewrite Hlock.
    - intros q Hq Hf. apply Z.ltb_lt in H. pose proof (best_fit_min _ _ _ _ _ Hb Hq Hf).
      rewrite (size_of_lookup _ _ _ Et) in *. lia. }
  apply Z.ltb_ge in H. wp_step. eapply wp_upd_pd; [exact Et|]. wp_step.
  apply wp_stack_list_del. wp_step. apply wp_stack_list_add. wp_step.
  eapply wp_load_pd; [rs; apply lookup_insert_eq|]. wp_go.
  eapply wp_upd_pd; [rs; apply lookup_insert_eq|]. wp_step.
  eapply wp_clear_dtv; [rs; apply lookup_insert_eq|]. wp_go.
  subst c s1. match goal with |- context [rep ?x _] => set (s' := x) end.
  assert (Ep : pds s' = <[p := recycled t]> (pds s)).
  { subst s'. rs. by rewrite !insert_insert_eq. }
  assert (Em : ∀ a, mapped (kern s') a ↔ mapped (kern s) a) by
    (intros a; apply allocate_tls_init_mapped).
  assert (Eg : ∀ q, geom <$> pds s' !! q = geom <$> pds s !! q).
  { intros q. rewrite Ep. destruct (decide (q = p)) as [->|Hne];
      [by rewrite lookup_insert_eq, Et | by rewrite lookup_insert_ne]. }
  split_and!; try done. exists c1, c2, t. split_and!; try done.
  apply (rep_move s _ (lists u (c1 ++ p :: c2) r)); [done| | | | |].
  - apply rings_take, R.
  - intros i q. apply lists_in; set_solver.
  - change (stack_cache_actsize s') with
      (stack_cache_actsize s -w pd_stackblock_size t).
    rewrite (rep_act _ _ R), (cached_size_ext (pds s) (pds s')) by auto. cbn [lists].
    rewrite cached_size_middle, (size_of_lookup _ _ _ Et), w64_sub_l. f_equal. lia.
  - auto.
  - intros a. apply Em.
Qed.

(** ** Eviction *)

(** A block leaves its list and is unmapped. *)
Lemma rep_forget s s' L L' i l1 p l2 t :
  rep s L → i ≠ User → L i = l1 ++ p :: l2 → L' i = l1 ++ l2 →
  (∀ j, j ≠ i → L' j = L j) → pds s !! p = Some t →
  stack_cache_actsize s' = w64 (cached_size (pds s) (L' Cache)) →
  pds s' = outside (pd_stackblock t) (pd_stackblock_size t) (pds s) →
  links s' = outside (pd_stackblock t) (pd_stackblock_size t)
               (list_del (list_of p) (links s)) →
  (∀ a, mapped (kern s') a ↔ mapped (kern s) a ∧ ¬ in_block t a) →
  rep s' L'.
Proof.
  intros R Hi E E' HL Et Ea Ep El Hm.
  assert (Hp : p ∈ L i) by (rewrite E; set_solver).
  destruct (rep_block _ _ R i p t Hi Hp Et) as [B1 B2 B3 B4 Bp B5 B6].
  assert (Hin : ∀ j q, q ∈ L' j → q ∈ L j).
  { intros j q. destruct (decide (j = i)) as [->|Hj]; [rewrite E, E'|rewrite HL by done];
      set_solver. }
  assert (Hnot : ∀ j, p ∉ L' j).
  { intros j Hj. destruct (decide (j = i)) as [->|Hne].
    - pose proof (rings_nodup _ _ i (rep_rings _ _ R)) as N. rewrite E in N. rewrite E' in Hj.
      rewrite <- Permutation_middle in N. apply NoDup_cons in N as [N _]. done.
    - apply Hin in Hj. by apply (rings_disj _ _ (rep_rings _ _ R) j i p Hne). }
  set (s1 := s <| links := list_del (list_of p) (links s) |>
               <| stack_cache_actsize := stack_cache_actsize s' |>).
  assert (R1 : rep s1 L').
  { apply (rep_move s s1 L L'); subst s1; rs; [done| | |done|done|done].
    - apply (rings_del i _ L _ l1 p l2); [apply R|done..].
    - intros j q Hq. exists j. split; [by apply Hin|done]. }
  apply (rep_unmap s1 s' L' p t); try done.
  - intros j q tq a Hj Hq Eq. apply (rep_disj _ _ R i j p q); try done; [by apply Hin|].
    intros ->. by apply (Hnot j).
  - intros q Hq. apply (rep_user _ _ R i p q t); try done. by apply Hin.
Qed.

Lemma rep_drop s s' u c1 p c2 r t :
  rep s (lists u (c1 ++ p :: c2) r) → pds s !! p = Some t →
  stack_cache_actsize s' = stack_cache_actsize s -w pd_stackblock_size t →
  pds s' = outside (pd_stackblock t) (pd_stackblock_size t) (pds s) →
  links s' = outside (pd_stackblock t) (pd_stackblock_size t)
               (list_del (list_of p) (links s)) →
  (∀ a, mapped (kern s') a ↔ mapped (kern s) a ∧ ¬ in_block t a) →
  rep s' (lists u (c1 ++ c2) r).
Proof.
  intros R Et Ea. apply (rep_forget s s' _ (lists u (c1 ++ c2) r) Cache c1 p c2 t R);
    try done; [by intros []|].
  rewrite Ea, (rep_act _ _ R). cbn [lists]. rewrite cached_size_middle, w64_sub_l.
  rewrite (size_of_lookup _ _ _ Et). f_equal. lia.
Qed.

Lemma rep_drop_used s s' u1 p u2 c r t :
  rep s (lists (u1 ++ p :: u2) c r) → pds s !! p = Some t →
  stack_cache_actsize s' = stack_cache_actsize s →
  pds s' = outside (pd_stackblock t) (pd_stackblock_size t) (pds s) →
  links s' = outside (pd_stackblock t) (pd_stackblock_size t)
               (list_del (list_of p) (links s)) →
  (∀ a, mapped (kern s') a ↔ mapped (kern s) a ∧ ¬ in_block t a) →
  rep s' (lists (u1 ++ u2) c r).
Proof.
  intros R Et Ea. apply (rep_forget s s' _ (lists (u1 ++ u2) c r) Used u1 p u2 t R);
    try done; [by intros []|].
  rewrite Ea. apply (rep_act _ _ R).
Qed.

Lemma evict_ext ds ds' limit l act :
  (∀ p, p ∈ l → ds' !! p = ds !! p) → evict ds' limit l act = evict ds limit l act.
Proof.
  revert act. induction l as [|p l IH]; intros act Hd; [done|]. cbn.
  rewrite Hd by set_solver. destruct (ds !! p) as [t|]; [|done].
  rewrite !IH by set_solver. done.
Qed.

Definition others_kept s s' (l : list ptr) : Prop :=
  ∀ p, p ∈ l → pds s' !! p = pds s !! p.

(** No other listed descriptor lies in the block of a cached one. *)
Lemma rep_outside s u c1 p c2 r t q :
  rep s (lists u (c1 ++ p :: c2) r) → pds s !! p = Some t →
  q ∈ u ++ c1 ++ c2 ++ r → ¬ in_block t q.
Proof.
  intros R Et Hq Hb.
  pose proof (rings_all_nodup _ _ _ _ (rep_rings _ _ R)) as N.
  assert (Hne : p ≠ q).
  { intros ->. revert N. rewrite <- app_assoc. cbn. rewrite !app_assoc.
    rewrite <- Permutation_middle, NoDup_cons. set_solver. }
  assert (Hin : ∃ i, q ∈ lists u (c1 ++ p :: c2) r i) by
    (rewrite !elem_of_app in Hq; destruct Hq as [?|[?|[?|?]]];
     [exists Used|exists Cache|exists Cache|exists User]; cbn; set_solver).
  destruct Hin as [i Hi].
  assert (Hp : p ∈ lists u (c1 ++ p :: c2) r Cache) by (cbn; set_solver).
  destruct (decide (i = User)) as [->|Hne'].
  - by destruct (rep_user _ _ R Cache p q t) as [? _].
  - destruct (rep_live _ _ R i q Hi) as [tq Etq].
    apply (rep_disj _ _ R Cache i p q t tq q); try done.
    apply (block_pd s), (rep_block _ _ R i); done.
Qed.

(** [munmap] of a block of the library does not fail. *)
Definition munmap_succeeds : Prop := ∀ a len (k : K), (k_munmap a len k).2 = None.

Lemma evict_incl ds limit l act p : p ∈ (evict ds limit l act).1 → p ∈ l.
Proof.
  revert act. induction l as [|q l IH]; intros act; [done|]. cbn.
  destruct (ds !! q) as [t|]; [|done]. destruct (FREE_P t); [case_match|].
  - set_solver.
  - intros ?%IH. set_solver.
  - destruct (evict ds limit l act) as [k a] eqn:E. cbn.
    specialize (IH act). rewrite E in IH. set_solver.
Qed.

Definition evicted s (k : list ptr) (a : Z) u c' r s' : Prop :=
  rep s' (lists u c' r) ∧ stack_cache_actsize s' = a ∧
  others_kept s s' (u ++ c' ++ r) ∧ config s' = config s ∧
  stack_cache_lock s' = stack_cache_lock s ∧ errno s' = errno s ∧
  freed s' = freed s.

Lemma free_stacks_loop u r limit rem : ∀ kept s,
  munmap_succeeds →
  rep s (lists u (rev rem ++ kept) r) →
  wp (mfor_break (list_of <$> rem) (free_one limit))
  (λ _ s', let '(k, a) := evict (pds s) limit rem (stack_cache_actsize s) in
     evicted s k a u (rev k ++ kept) r s') s.
Proof.
  induction rem as [|p rem IH]; intros kept s Hun R; cbn.
  { wp_go. by split_and!. }
  unfold free_one. rewrite list_entry_of.
  destruct (rep_lists_live s u _ r p R) as (t & Et & B); [cbn; set_solver|].
  do 2 wp_step. eapply wp_load_pd; [exact Et|]. rewrite Et.
  cbn [rev] in R. rewrite <- app_assoc in R. cbn [app] in R.
  destruct (FREE_P t).
  2:{ (* the thread still runs *) wp_go.
      eapply wp_mono; [by apply (IH (p :: kept))|]. intros [] s'. cbv beta.
      destruct (evict _ _ _ _) as [k a]. cbn [rev]. rewrite <- app_assoc. done. }
  wp_step. apply wp_stack_list_del. wp_go. apply wp_munmap_ok; [apply Hun|].
  intros k' Ek. match goal with |- wp _ _ ?x => set (s1 := x) end.
  rewrite Z.eqb_refl. cbv iota. do 2 wp_step. cbv beta. wp_step. cbv beta.
  change (stack_cache_actsize s1) with (stack_cache_actsize s -w pd_stackblock_size t).
  assert (R1 : rep s1 (lists u (rev rem ++ kept) r)).
  { eapply (rep_drop s s1); [exact R | exact Et | done..|].
    intros a. change (kern s1) with k'. rewrite (munmap_ok _ _ _ _ Ek). rs. by rewrite deallocate_tls_mapped. }
  assert (Hkept : ∀ q, q ∈ u ++ rev rem ++ kept ++ r → pds s1 !! q = pds s !! q).
  { intros q Hq. apply outside_lookup. intros Hb.
    eapply (rep_outside s u (rev rem) p kept r); eauto. }
  destruct (Z.leb_spec (stack_cache_actsize s -w pd_stackblock_size t) limit) as [Hl|Hl].
  { wp_go. unfold evicted. rewrite <- app_assoc. split_and!; try done. }
  eapply wp_mono; [by apply (IH kept s1)|]. intros [] s'. cbv beta.
  change (stack_cache_actsize s1) with (stack_cache_actsize s -w pd_stackblock_size t).
  rewrite (evict_ext (pds s) (pds s1)) by (intros q Hq; apply Hkept; set_solver).
  destruct (evict _ _ _ _) as [k a] eqn:E. unfold evicted. intros (? & ? & Ho & ?).
  split_and!; try done; [|naive_solver..].
  intros q Hq. rewrite Ho by done. apply Hkept.
  pose proof (evict_incl (pds s) limit rem (stack_cache_actsize s -w pd_stackblock_size t) q) as Hi.
  rewrite E in Hi. cbn in Hi. set_solver.
Qed.

Lemma wp_free_stacks u c r limit s :
  munmap_succeeds → rep s (lists u c r) →
  wp (free_stacks limit)
    (λ _ s', let '(k, a) := evict (pds s) limit (rev c) (stack_cache_actsize s) in
       evicted s k a u (rev k) r s') s.
Proof.
  intros Hun R. unfold free_stacks. do 2 wp_step. cbv beta.
  rewrite (for_each_prev_ring (links s) stack_cache (list_of <$> c))
    by apply (rings_ring _ _ (rep_rings _ _ R) Cache).
  rewrite <- (fmap_rev list_of). eapply wp_mono; [apply (free_stacks_loop u r limit (rev c) []); [done|]|].
  - by rewrite rev_involutive, app_nil_r.
  - intros [] s'. cbv beta. destruct (evict _ _ _ _). by rewrite app_nil_r.
Qed.

Lemma filter_app_busy ds l1 l2 :
  filter (λ p, busy ds p = true) (l1 ++ l2) =
  filter (λ p, busy ds p = true) l1 ++ filter (λ p, busy ds p = true) l2.
Proof. apply filter_app. Qed.

Lemma freed_size_busy ds l : (∀ q, q ∈ l → busy ds q = true) → freed_size ds l = 0.
Proof.
  induction l as [|q l IH]; intros H; cbn; [done|].
  assert (busy ds q = true) as Hq by set_solver. unfold busy in Hq.
  destruct (ds !! q) as [t|]; [|done]. destruct (FREE_P t); [done|]. apply IH. set_solver.
Qed.

(** Eviction removes the free stacks of a prefix, and no more than it must. *)
Lemma evict_spec ds limit l act k a :
  is_w64 act → (∀ p, p ∈ l → is_Some (ds !! p)) → evict ds limit l act = (k, a) →
  ∃ pre rest, l = pre ++ rest ∧ k = filter (λ p, busy ds p = true) pre ++ rest ∧
    a = act -w freed_size ds pre ∧ (rest = [] ∨ a ≤ limit) ∧
    ∀ pa p pb, pre = pa ++ p :: pb → busy ds p = false →
      (∀ q, q ∈ pa → busy ds q = true) ∨ limit < act -w freed_size ds pa.
Proof.
  revert act k a. induction l as [|p l IH]; intros act k a Hw Hl E; cbn in E.
  { simplify_eq. exists [], []. cbn. rewrite Z.sub_0_r, w64_small by done.
    split_and!; [done..|by left|]. by intros []. }
  destruct (Hl p ltac:(set_solver)) as [t Et]. rewrite Et in E.
  assert (Hl' : ∀ q, q ∈ l → is_Some (ds !! q)) by set_solver.
  assert (Hbusy : busy ds p = negb (FREE_P t)) by (unfold busy; by rewrite Et).
  destruct (FREE_P t) eqn:Ef; [destruct (Z.leb_spec (act -w pd_stackblock_size t) limit)|].
  - simplify_eq. exists [p], k. rewrite filter_cons, decide_False by (by rewrite Hbusy).
    cbn. rewrite Et, Ef, Z.add_0_r. split_and!; [done..|by right|].
    intros [|? [|]] ? ?; cbn; intros [=] _; left; set_solver.
  - destruct (IH _ _ _ (w64_range _) Hl' E) as (pre & rest & -> & -> & -> & Hr & Hmin).
    exists (p :: pre), rest. rewrite filter_cons, decide_False by (by rewrite Hbusy).
    cbn [freed_size foldr]. rewrite Et, Ef. fold (freed_size ds pre).
    rewrite w64_sub_l, <- Z.sub_add_distr in *.
    split_and!; [done..|].
    intros [|p' pa] q pb; cbn; intros [= <- Eq] Hq; [left; set_solver|].
    right. rewrite Et, Ef. fold (freed_size ds pa). destruct (Hmin pa q pb Eq Hq) as [Hb|Hb].
    + rewrite freed_size_busy, Z.add_0_r by done. lia.
    + by rewrite w64_sub_l, <- Z.sub_add_distr in Hb.
  - destruct (evict ds limit l act) as [k' a'] eqn:E'. simplify_eq.
    destruct (IH _ _ _ Hw Hl' E') as (pre & rest & -> & -> & -> & Hr & Hmin).
    exists (p :: pre), rest. rewrite filter_cons, decide_True by done.
    cbn [freed_size foldr]. rewrite Et, Ef. fold (freed_size ds pre).
    split_and!; [done..|].
    intros [|p' pa] q pb; cbn; intros [= <- Eq] Hq; [left; set_solver|].
    rewrite Et, Ef. destruct (Hmin pa q pb Eq Hq) as [Hb|Hb]; [left|by right]. set_solver.
Qed.

(** ** Returning a stack *)

Lemma rings_queue m u1 p u2 c r :
  rings m (lists (u1 ++ p :: u2) c r) →
  rings (list_add (list_of p) stack_cache (list_del (list_of p) m))
    (lists (u1 ++ u2) (p :: c) r).
Proof.
  intros R.
  assert (R' : rings (list_del (list_of p) m) (lists (u1 ++ u2) c r)).
  { apply (rings_del Used m (lists (u1 ++ p :: u2) c r) _ u1 p u2); try done.
    by intros []. }
  apply (rings_add Cache _ _ _ _ R'); try done; [by intros []| |].
  - apply (rings_heads _ _ R Used). cbn. set_solver.
  - pose proof (rings_nodup _ _ Used R) as N. cbn in N.
    rewrite <- Permutation_middle in N. apply NoDup_cons in N as [N _].
    intros j Hin. destruct (decide (j = Used)) as [->|Hj]; [done|].
    apply (rings_disj _ _ R j Used p Hj); [by destruct j | cbn; set_solver].
Qed.

Lemma wp_queue_stack s0 s u1 p u2 c r t :
  munmap_succeeds → rep s0 (lists (u1 ++ p :: u2) c r) → pds s0 !! p = Some t →
  s = s0 <| links := list_del (list_of p) (links s0) |> <| in_flight_stack := 0 |>
         <| stack_cache_lock := 1 |> →
  wp (queue_stack p) (λ _ s',
    let '(k, a) := trim (pds s0) (stack_cache_maxsize s0) (p :: c)
                     (stack_cache_actsize s0 +w pd_stackblock_size t) in
    rep s' (lists (u1 ++ u2) k r) ∧ stack_cache_actsize s' = a ∧
    others_kept s0 s' (u1 ++ u2 ++ k ++ r) ∧ config s' = config s0 ∧
    stack_cache_lock s' = 1 ∧ errno s' = errno s0 ∧ freed s' = freed s0) s.
Proof.
  intros Hun R Et ->. unfold queue_stack. wp_step. apply wp_stack_list_add. wp_step.
  eapply wp_load_pd; [exact Et|]. do 6 wp_step. cbv beta.
  match goal with |- wp _ _ ?x => set (s1 := x) end.
  assert (R1 : rep s1 (lists (u1 ++ u2) (p :: c) r)).
  { eapply (rep_move s0); [exact R| | | |done|done].
    - apply rings_queue, R.
    - intros i q Hq. destruct i; cbn in Hq.
      + exists Used. cbn. set_solver.
      + apply elem_of_cons in Hq as [->|Hq]; [exists Used | exists Cache]; cbn; set_solver.
      + exists User. done.
    - change (stack_cache_actsize s1) with (stack_cache_actsize s0 +w pd_stackblock_size t).
      rewrite (rep_act _ _ R). change (pds s1) with (pds s0). cbn.
      rewrite w64_add_l, (size_of_lookup _ _ _ Et). f_equal. lia. }
  change (stack_cache_maxsize _) with (stack_cache_maxsize s0).
  change (stack_cache_actsize s1) with (stack_cache_actsize s0 +w pd_stackblock_size t).
  unfold trim. destruct (stack_cache_maxsize s0 <? _).
  - eapply wp_mono; [by apply wp_free_stacks|]. intros [] s'. cbv beta.
    change (pds s1) with (pds s0).
    change (stack_cache_actsize s1) with (stack_cache_actsize s0 +w pd_stackblock_size t).
    destruct (evict _ _ _ _) as [k a]. unfold evicted. rewrite <- app_assoc.
    intros (? & ? & ? & -> & -> & -> & ->). done.
  - wp_step. split_and!; try done.
Qed.

Lemma wp_deallocate_stack s u1 p u2 c r t :
  munmap_succeeds → rep s (lists (u1 ++ p :: u2) c r) → stack_cache_lock s = 0 →
  pds s !! p = Some t →
  wp (deallocate_stack p) (λ _ s',
    let '(k, a) := trim (pds s) (stack_cache_maxsize s) (p :: c)
                     (stack_cache_actsize s +w pd_stackblock_size t) in
    rep s' (lists (u1 ++ u2) k r) ∧ stack_cache_actsize s' = a ∧
    others_kept s s' (u1 ++ u2 ++ k ++ r) ∧ config s' = config s ∧
    stack_cache_lock s' = 0 ∧ errno s' = errno s ∧ freed s' = freed s) s.
Proof.
  intros Hun R Hl Et. unfold deallocate_stack. wp_step. apply wp_lock_cache; [done|].
  wp_step. apply wp_stack_list_del. wp_step. eapply wp_load_pd; [exact Et|]. wp_step.
  destruct (rep_block _ _ R Used p t) as [_ _ -> _ _ _ _]; [done|cbn;set_solver|done|].
  cbn [negb]. eapply wp_mono.
  { eapply (wp_queue_stack s); [done|exact R|exact Et|done]. }
  intros [] s'. cbv beta. destruct (trim _ _ _ _) as [k a].
  intros (? & ? & ? & ? & ? & ? & ?). wp_go. split_and!; try done.
  by eapply rep_ext.
Qed.

Lemma wp_deallocate_user s u c r1 p r2 t :
  rep s (lists u c (r1 ++ p :: r2)) → stack_cache_lock s = 0 →
  pds s !! p = Some t →
  wp (deallocate_stack p) (λ _ s',
    rep s' (lists u c (r1 ++ r2)) ∧ pds s' = pds s ∧ config s' = config s ∧
    stack_cache_actsize s' = stack_cache_actsize s ∧
    kern s' = dl_deallocate_tls p (kern s) ∧
    stack_cache_lock s' = 0 ∧ errno s' = errno s ∧ freed s' = freed s) s.
Proof.
  intros R Hl Et. unfold deallocate_stack. wp_step. apply wp_lock_cache; [done|].
  wp_step. apply wp_stack_list_del. wp_step. eapply wp_load_pd; [exact Et|]. wp_step.
  destruct (rep_user_flag _ _ R p t) as [-> _]; [cbn; set_solver|done|]. cbn [negb].
  wp_go. split_and!; try done.
  eapply (rep_move s); [exact R| | | |done|].
  - rs. apply (rings_del User _ (lists u c (r1 ++ p :: r2)) _ r1 p r2); try done;
      [apply R | by intros []].
  - intros i q Hq. exists i. split; [|done]. destruct i; cbn in *; set_solver.
  - rs. apply (rep_act _ _ R).
  - intros a Ha. rs. by apply deallocate_tls_mapped.
Qed.
End Proofs.


(** * Permissions *)

Section Permissions.
Context {K : Type} {PF : Platform} {PL : PlatformLaws} {LA : ListApi} {LL : ListLaws}.
Context {KN : Kernel K} {KL : KernelLaws (K := K)}.
Implicit Types (s : nptl K) (u c r : list ptr).

(** The [mprotect] call that makes the stack of a descriptor executable. *)
Definition exec_call (ds : gmap Z pthread) (k : K) (p : ptr) : K * option Z :=
  match ds !! p with
  | Some t => k_mprotect (pd_stackblock t + pd_guardsize t)
                (pd_stackblock_size t -w pd_guardsize t)
                (Z.lor PROT_READ (Z.lor PROT_WRITE PROT_EXEC)) k
  | None => (k, None)
  end.
Definition exec_all (ds : gmap Z pthread) (ps : list ptr) (k : K) : K :=
  fold_left (λ k p, (exec_call ds k p).1) ps k.

(** All of [ps] was changed, or those before the first that failed. *)
Definition perms_changed s ps (err : Z) s' : Prop :=
  pds s' = pds s ∧ links s' = links s ∧ config s' = config s ∧
  stack_cache_actsize s' = stack_cache_actsize s ∧
  (∀ a, mapped (kern s') a ↔ mapped (kern s) a) ∧
  ((err = 0 ∧ kern s' = exec_all (pds s) ps (kern s)) ∨
   ∃ l1 p l2, ps = l1 ++ p :: l2 ∧ 0 < err ∧
     kern s' = exec_all (pds s) (l1 ++ [p]) (kern s) ∧
     (exec_call (pds s) (exec_all (pds s) l1 (kern s)) p).2 = Some err).

Lemma wp_change_perms ps s :
  (∀ p, p ∈ ps → is_Some (pds s !! p)) →
  wp (change_perms (list_of <$> ps)) (perms_changed s ps) s.
Proof.
  revert s. induction ps as [|p ps IH]; intros s Hl.
  { cbn. unfold perms_changed. tauto. }
  cbn [change_perms fmap list_fmap].
  destruct (Hl p ltac:(set_solver)) as [t Et]. rewrite list_entry_of.
  assert (Hex : ∀ k, exec_call (pds s) k p = k_mprotect (pd_stackblock t + pd_guardsize t)
    (pd_stackblock_size t -w pd_guardsize t)
    (Z.lor PROT_READ (Z.lor PROT_WRITE PROT_EXEC)) k)
    by (intros k; unfold exec_call; by rewrite Et).
  unfold change_stack_perm, mprotect. do 2 wp_step. eapply wp_load_pd; [done|].
  do 3 wp_step.
  match goal with |- context [k_mprotect ?a ?l ?r ?k] =>
    pose proof (mprotect_mapped a l r k) as Hm; pose proof (mprotect_errno a l r k) as He;
    specialize (Hex k); destruct (k_mprotect a l r k) as [k' [e|]] end; cbn in Hm, He.
  - pose proof (He e eq_refl). wp_go; rs_all; try (exfalso; lia).
    unfold perms_changed. split_and!; try done. right. exists [], p, ps. cbn. rewrite Hex. cbn.
    done.
  - wp_go; rs_all; try (exfalso; lia). eapply wp_mono; [apply IH; set_solver|].
    intros err s' (E1 & E2 & E3 & E5 & E6 & H1).
    unfold perms_changed. split_and!; try done; [intros a; rewrite E6; apply Hm|].
    destruct H1 as [[-> H1]|(l1 & q & l2 & -> & H1 & H2 & H3)]; [left|right].
    + split; [done|]. rewrite H1. cbn. by rewrite Hex.
    + exists (p :: l1), q, l2. cbn. rewrite Hex. done.
Qed.

Lemma perms_changed_app s ps qs e s1 s2 :
  perms_changed s ps 0 s1 → perms_changed s1 qs e s2 → perms_changed s (ps ++ qs) e s2.
Proof.
  intros (Ep & El & Ec & Ea & Hm1 & [[_ Hk]|(?&?&?&?&?&?)]) H2; [|lia].
  destruct H2 as (Ep2 & El2 & Ec2 & Ea2 & Hm2 & H2). rewrite Hk, Ep in H2.
  unfold perms_changed. rewrite Ep2, El2, Ec2, Ea2.
  split_and!; try done; [intros a; by rewrite Hm2, Hm1|].
  destruct H2 as [[-> H2]|(l1 & p & l2 & -> & ? & H2 & H3)]; [left|right].
  - split; [done|]. rewrite H2. unfold exec_all. by rewrite fold_left_app.
  - exists (ps ++ l1), p, l2. rewrite <- !app_assoc. unfold exec_all in *.
    rewrite !(fold_left_app _ ps). done.
Qed.

Lemma perms_changed_weaken s ps qs e s1 :
  perms_changed s ps e s1 → e ≠ 0 → perms_changed s (ps ++ qs) e s1.
Proof.
  intros (? & ? & ? & ? & ? & [[-> _]|(l1 & p & l2 & -> & ?)]) He; [done|].
  unfold perms_changed. split_and!; try done. right. exists l1, p, (l2 ++ qs).
  by rewrite <- app_assoc.
Qed.

Lemma perms_changed_rep s ps e s' L : rep s L → perms_changed s ps e s' → rep s' L.
Proof.
  intros R (Ep & El & Ec & Ea & Hm & _). eapply rep_ext; try done.
  - intros. by rewrite Ep.
  - intros a Ha. by apply Hm.
Qed.
End Permissions.

(** * Properties *)

Section Properties.
Context {K : Type} {PF : Platform} {PL : PlatformLaws} {LA : ListApi} {LL : ListLaws}.
Context {KN : Kernel K} {KL : KernelLaws (K := K)}.
Implicit Types (s : nptl K) (u c r : list ptr).

Lemma entry_rings s u c r :
  rep s (lists u c r) →
  list_for_each (links s) stack_used = list_of <$> u ∧
  list_for_each (links s) stack_cache = list_of <$> c.
Proof.
  intros R. split;
    [apply (rings_entries _ _ Used (rep_rings _ _ R)) |
     apply (rings_entries _ _ Cache (rep_rings _ _ R))].
Qed.

Lemma live_used_cached s u c r p :
  rep s (lists u c r) → p ∈ u ∨ p ∈ c → is_Some (pds s !! p).
Proof. intros R [Hp|Hp]; [apply (rep_live _ _ R Used p Hp) | apply (rep_live _ _ R Cache p Hp)]. Qed.

Lemma rep_act_w64 s L : rep s L → is_w64 (stack_cache_actsize s).
Proof. intros R. rewrite (rep_act _ _ R). apply w64_range. Qed.

Lemma rep_cached_live s u c r :
  rep s (lists u c r) → ∀ p, p ∈ rev c → is_Some (pds s !! p).
Proof. intros R p Hp. apply (live_used_cached s u c r p R). set_solver. Qed.

Lemma cached_size_rev ds l : cached_size ds (rev l) = cached_size ds l.
Proof.
  induction l as [|p l IH]; [done|]. cbn. rewrite cached_size_app, IH. cbn. lia.
Qed.

(** The free stacks are not larger than all stacks; sizes are positive. *)
Lemma freed_size_le ds l :
  (∀ p, p ∈ l → 0 < size_of ds p) → 0 ≤ freed_size ds l ≤ cached_size ds l.
Proof.
  induction l as [|p l IH]; cbn; intros H; [lia|].
  pose proof (H p ltac:(set_solver)) as Hp. specialize (IH ltac:(set_solver)).
  unfold freed_size in IH. unfold size_of in *.
  destruct (ds !! p) as [t|]; [|lia]. destruct (FREE_P t); lia.
Qed.

(** C23: [get_cached_stack] hands out the first of the smallest free cached blocks
    that hold [size] bytes, provided it is at most four times as large; the
    block moves from the cache to the list of stacks in use, the accounting of
    the cache follows, its old dynamic TLS blocks are freed once, and
    otherwise nothing changes.  The lock is released on every path. *)
Theorem get_cached_stack_best_fit s u c r size :
  rep s (lists u c r) → stack_cache_lock s = 0 →
  wp (get_cached_stack size) (search_post s u c r size) s.
Proof. apply get_cached_stack_spec. Qed.

(** What [free_stacks] promises: see the theorem below. *)
Definition evict_post s u c r limit s' : Prop :=
  ∃ pre rest, rev c = pre ++ rest ∧
    rep s' (lists u (rev (filter (λ p, busy (pds s) p = true) pre ++ rest)) r) ∧
    stack_cache_actsize s' = stack_cache_actsize s -w freed_size (pds s) pre ∧
    (rest = [] ∨ stack_cache_actsize s' ≤ limit) ∧
    (∀ pa p pb, pre = pa ++ p :: pb → busy (pds s) p = false →
       (∀ q, q ∈ pa → busy (pds s) q = true) ∨
       limit < stack_cache_actsize s -w freed_size (pds s) pa) ∧
    (∀ p, p ∈ u ++ filter (λ p, busy (pds s) p = true) pre ++ rest ++ r →
       pds s' !! p = pds s !! p) ∧
    config s' = config s ∧ stack_cache_lock s' = stack_cache_lock s.

(** [free_stacks] goes through the cache from the oldest stack ([pre] is what
    it visited): it unmaps the free ones, keeps those whose thread still runs,
    and goes on exactly until the cached size is within the limit or the
    list is exhausted; every stack that stays keeps its descriptor. *)
Theorem free_stacks_evicts s u c r limit :
  munmap_succeeds (K := K) → rep s (lists u c r) →
  wp (free_stacks limit) (λ _ s', evict_post s u c r limit s') s.
Proof.
  intros Hun R. eapply wp_mono; [by apply wp_free_stacks|]. intros [] s'. cbv beta.
  destruct (evict _ _ _ _) as [k a] eqn:E. intros (R' & Ha & Ho & ? & ? & ? & ?).
  destruct (evict_spec _ _ _ _ _ _ (rep_act_w64 _ _ R) (rep_cached_live s u c r R) E)
    as (pre & rest & El & -> & Ea & Hr & Hmin).
  exists pre, rest. rewrite Ha. split_and!; try done.
  intros p Hp. apply Ho. set_solver.
Qed.

(** [__nptl_stacks_freeres], at process exit, leaves no free stack in the
    cache when the accounting is exact (the sum of the sizes does not wrap). *)
Theorem stacks_freeres_empties s u c r :
  munmap_succeeds (K := K) → rep s (lists u c r) → is_w64 (cached_size (pds s) c) →
  wp nptl_stacks_freeres (λ _ s', ∃ c', rep s' (lists u c' r) ∧
    ∀ p, p ∈ c' → busy (pds s) p = true) s.
Proof.
  intros Hun R Hw. unfold nptl_stacks_freeres.
  eapply wp_mono; [by apply wp_free_stacks|]. intros [] s'. cbv beta.
  destruct (evict _ _ _ _) as [k a] eqn:E. intros (R' & Ha & Ho & _).
  destruct (evict_spec _ _ _ _ _ _ (rep_act_w64 _ _ R) (rep_cached_live s u c r R) E)
    as (pre & rest & El & -> & Ea & Hr & _).
  exists (rev (filter (λ p, busy (pds s) p = true) pre ++ rest)). split; [done|].
  assert (Hrest : rest = []).
  { destruct Hr as [|Hr]; [done|]. rewrite Ea, (rep_act _ _ R) in Hr. cbn [lists] in Hr.
    rewrite <- (cached_size_rev _ c), El, cached_size_app in Hr, Hw.
    destruct rest as [|p rest]; [done|exfalso].
    assert (Hpos : ∀ q, q ∈ pre ++ p :: rest → 0 < size_of (pds s) q).
    { intros q Hq. rewrite <- El in Hq.
      destruct (rep_lists_live s u c r q R) as (t & Et & B); [set_solver|].
      rewrite (size_of_lookup _ _ _ Et). destruct B as [B _ _ _ _ _ _].
      unfold in_block in B. lia. }
    pose proof (freed_size_le (pds s) pre ltac:(set_solver)).
    pose proof (freed_size_le (pds s) rest ltac:(set_solver)).
    pose proof (Hpos p ltac:(set_solver)). cbn [cached_size] in *.
    unfold is_w64 in Hw. rewrite (w64_small (_ + _)) in Hr by (unfold is_w64; lia).
    rewrite w64_small in Hr by (unfold is_w64; lia). lia. }
  subst rest. intros p. rewrite elem_of_rev, app_nil_r, list_elem_of_filter. tauto.
Qed.

(** C21: [__deallocate_stack] of a thread on a stack of the library puts the stack
    in front of the cache, adds its size to the accounting and, only when this
    exceeds the maximum, evicts from the oldest end. *)
Definition dealloc_post s u1 p u2 c r (t : pthread) s' : Prop :=
  let act := stack_cache_actsize s +w pd_stackblock_size t in
  stack_cache_lock s' = 0 ∧ config s' = config s ∧
  if stack_cache_maxsize s <? act then
    ∃ pre rest, rev (p :: c) = pre ++ rest ∧
      rep s' (lists (u1 ++ u2) (rev (filter (λ p, busy (pds s) p = true) pre ++ rest)) r) ∧
      (rest = [] ∨ stack_cache_actsize s' ≤ stack_cache_maxsize s)
  else rep s' (lists (u1 ++ u2) (p :: c) r).

Theorem deallocate_stack_caches s u1 p u2 c r t :
  munmap_succeeds (K := K) → rep s (lists (u1 ++ p :: u2) c r) → stack_cache_lock s = 0 →
  pds s !! p = Some t →
  wp (deallocate_stack p) (λ _ s', dealloc_post s u1 p u2 c r t s') s.
Proof.
  intros Hun R Hl Et. eapply wp_mono; [by apply (wp_deallocate_stack s u1 p u2 c r t)|].
  intros [] s'. cbv beta. unfold trim, dealloc_post.
  destruct (_ <? _).
  - destruct (evict _ _ _ _) as [k a] eqn:E. intros (R' & Ha & Ho & ? & ? & ? & ?).
    split_and!; [done..|].
    assert (Hlive : ∀ q, q ∈ rev (p :: c) → is_Some (pds s !! q)).
    { intros q Hq. apply (live_used_cached s (u1 ++ p :: u2) c r q R). set_solver. }
    destruct (evict_spec _ _ _ _ _ _ (w64_range _) Hlive E)
      as (pre & rest & El & -> & Ea & Hr & _).
    exists pre, rest. by rewrite Ha.
  - intros (? & ? & ? & ? & ? & ?). done.
Qed.

(** A thread on a stack the user provided: its descriptor leaves the list of
    user stacks, its TLS is freed, and its memory is neither cached nor
    unmapped. *)
Theorem deallocate_user_stack_keeps s u c r1 p r2 t :
  rep s (lists u c (r1 ++ p :: r2)) → stack_cache_lock s = 0 → pds s !! p = Some t →
  wp (deallocate_stack p) (λ _ s',
    rep s' (lists u c (r1 ++ r2)) ∧ pds s' = pds s ∧ config s' = config s ∧
    stack_cache_actsize s' = stack_cache_actsize s ∧
    kern s' = dl_deallocate_tls p (kern s) ∧ stack_cache_lock s' = 0) s.
Proof.
  intros R Hl Et. eapply wp_mono; [by apply (wp_deallocate_user s u c r1 p r2 t)|].
  intros [] s'. cbv beta. tauto.
Qed.

Definition exec_post s u c r (err : Z) s' : Prop :=
  stack_cache_lock s' = 0 ∧ rep s' (lists u c r) ∧
  let '(k, e) := dl_make_stack_executable (kern s) in
  if e =? 0 then perms_changed (s <| kern := k |>) (u ++ c) err s'
  else err = e ∧ s' = s <| kern := k |>.

(** [__make_stacks_executable] asks for executable memory for every stack in
    use and then every cached stack, in list order, up to the first failure,
    whose error number it returns; the lock is released on every path and the
    lists are left alone. *)
Theorem make_stacks_executable_all s u c r :
  rep s (lists u c r) → stack_cache_lock s = 0 →
  wp make_stacks_executable (exec_post s u c r) s.
Proof.
  intros R Hl. unfold exec_post, make_stacks_executable. do 2 wp_step.
  pose proof (make_executable_mapped (kern s)) as Hm.
  destruct (dl_make_stack_executable (kern s)) as [k e]. cbn in Hm. do 2 wp_step.
  set (s1 := s <| kern := k |>).
  assert (R1 : rep s1 (lists u c r)).
  { eapply rep_ext; try done. intros a Ha. by apply Hm. }
  destruct (Z.eqb_spec e 0) as [->|He]; cbn [negb].
  2:{ wp_go. done. }
  wp_step. apply wp_lock_cache; [done|]. do 2 wp_step.
  set (s2 := s1 <| stack_cache_lock := 1 |>).
  destruct (entry_rings s2 u c r ltac:(by eapply rep_ext)) as [Eu Ec].
  change (links s2) with (links s1) in *.
  rewrite Eu. wp_step. eapply wp_mono.
  { apply wp_change_perms. intros p Hp. apply (live_used_cached s1 u c r p R1). tauto. }
  intros e1 s3 H1. wp_step.
  apply (wp_mono _ (perms_changed s2 (u ++ c))).
  { destruct (Z.eqb_spec e1 0) as [->|He1]; [|wp_step; by apply perms_changed_weaken].
    do 2 wp_step. pose proof H1 as (Ep & El & _). rewrite El.
    change (links s2) with (links s1). rewrite Ec.
    eapply wp_mono.
    { apply wp_change_perms. intros p Hp. rewrite Ep.
      apply (live_used_cached s1 u c r p R1). tauto. }
    intros e s4 H4. eapply perms_changed_app; [|done]. done. }
  intros e s4 H4. wp_go. split_and!; [done| |exact H4].
  eapply (perms_changed_rep s1); [done|exact H4].
Qed.

(** What [advise_stack_range] did: nothing, or a range handed to the kernel that starts
    at the low end and stops at least [PTHREAD_STACK_MIN] below the frame. *)
Definition advised (sp mem : Z) (s s' : nptl K) : Prop :=
  (s' = s ∧ sp - mem < PTHREAD_STACK_MIN + pagesize) ∨
  ∃ len, 0 < len ∧ mem + len + PTHREAD_STACK_MIN ≤ sp ∧
    sp < mem + len + PTHREAD_STACK_MIN + pagesize ∧
    s' = s <| kern := k_madvise_dontneed mem len (kern s) |>.

(** [advise_stack_range], called on the stack [mem, mem + size) it gives back:
    the assertion holds, the range handed to the kernel starts at the low end
    and stops at least [PTHREAD_STACK_MIN] below the current frame, and at most
    a page more than that is kept. *)
Theorem advise_stack_range_below sp mem size s :
  0 ≤ mem ≤ sp → sp < mem + size → mem + size < W64 →
  wp (advise_stack_range sp mem size) (λ _ s', advised sp mem s s') s.
Proof.
  intros H1 H2 H3. unfold advise_stack_range, advised. rewrite w64_small by (unfold is_w64; lia).
  pose proof (mask_bounds (sp - mem) (pagesize - 1) page_pow2) as Hb.
  pose proof (mask_nonneg (sp - mem) (pagesize - 1) page_pow2 ltac:(lia)) as Hn.
  set (f := (sp - mem) &~ (pagesize - 1)) in *. pose proof stack_min_pos.
  wp_step. wp_step; [lia|]. wp_go.
  - right. exists (f - PTHREAD_STACK_MIN).
    rewrite w64_small by (unfold is_w64; lia). split_and!; [lia..|done].
  - left. split; [done|lia].
Qed.
End Properties.

(** * Examples *)

Section Examples.
Import X86 ListH.

Lemma sim_munmap : munmap_succeeds (K := simk).
Proof. by intros a len k. Qed.

(** A 256 KiB request gets the 512 KiB block, a 1 MiB request the free block of
    2 MiB, not the one whose thread is still exiting; 100 KiB get nothing. *)
Definition answer (o : outcome (nptl simk) (option (ptr * Z * ptr))) : option (option Z) :=
  match o with Done r _ => Some ((λ '(_, sz, _), sz) <$> r) | Stop _ _ => None end.
Example demo_256k : answer (get_cached_stack (256 * KiB) demo) = Some (Some (512 * KiB)).
Proof. by vm_compute. Qed.
Example demo_1m : answer (get_cached_stack (1 * MiB) demo) = Some (Some (2 * MiB)).
Proof. by vm_compute. Qed.
Example demo_100k : answer (get_cached_stack (100 * KiB) demo) = Some None.
Proof. by vm_compute. Qed.

Lemma get_cached_stack_best_fit_witness :
  wp (get_cached_stack (256 * KiB)) (search_post demo demo_u demo_c [] (256 * KiB)) demo.
Proof. apply get_cached_stack_best_fit; [apply rep_demo | vm_compute; reflexivity]. Defined.

Lemma free_stacks_evicts_witness :
  wp (free_stacks MiB) (λ _ s', evict_post demo demo_u demo_c [] MiB s') demo.
Proof. apply free_stacks_evicts; [apply sim_munmap | apply rep_demo]. Defined.

Lemma stacks_freeres_empties_witness :
  wp nptl_stacks_freeres (λ _ s', ∃ c', rep s' (lists demo_u c' []) ∧
    ∀ p, p ∈ c' → busy (pds demo) p = true) demo.
Proof.
  apply (stacks_freeres_empties demo demo_u demo_c []);
    [apply sim_munmap | apply rep_demo |].
  vm_compute. split; congruence.
Defined.

Definition demo_pd : pthread := block_at (top_of (events (kern s_init))) (8 * MiB) 101.

Lemma demo_pd_lookup : pds demo !! next_pd (8 * MiB) s_init = Some demo_pd.
Proof. vm_compute. reflexivity. Qed.

Lemma deallocate_stack_caches_witness :
  wp (deallocate_stack (next_pd (8 * MiB) s_init))
    (λ _ s', dealloc_post demo [] (next_pd (8 * MiB) s_init) [] demo_c [] demo_pd s') demo.
Proof.
  apply deallocate_stack_caches;
    [apply sim_munmap | apply rep_demo | vm_compute; reflexivity | apply demo_pd_lookup].
Defined.

Lemma demo_user_lookup : pds demo_user !! user_pd demo = Some (user_thread demo).
Proof. vm_compute. reflexivity. Qed.

Lemma deallocate_user_stack_keeps_witness :
  wp (deallocate_stack (user_pd demo)) (λ _ s',
    rep s' (lists demo_u demo_c []) ∧ pds s' = pds demo_user ∧
    config s' = config demo_user ∧
    stack_cache_actsize s' = stack_cache_actsize demo_user ∧
    kern s' = dl_deallocate_tls (user_pd demo) (kern demo_user) ∧ stack_cache_lock s' = 0)
    demo_user.
Proof.
  apply (deallocate_user_stack_keeps demo_user demo_u demo_c [] (user_pd demo) [] (user_thread demo));
    [apply rep_demo_user | vm_compute; reflexivity | apply demo_user_lookup].
Defined.

Lemma make_stacks_executable_all_witness :
  wp make_stacks_executable (exec_post demo demo_u demo_c []) demo.
Proof.
  apply (make_stacks_executable_all demo demo_u demo_c []);
    [apply rep_demo | vm_compute; reflexivity].
Defined.

Lemma advise_stack_range_below_witness :
  wp (advise_stack_range 1000000 8192 1048576) (λ _ s', advised 1000000 8192 s_init s') s_init.
Proof. apply advise_stack_range_below; unfold W64; lia. Defined.
End Examples.
