(* ===== verification/AllocateStack.v ===== *)
(** [allocate_stack] ([allocatestack.c]): a stack for a new thread.

    The function is split where its source has its cases: the size, a stack the
    user provided, the checks on the size, a new block, the guard area and the
    fields every descriptor gets.  The two reads of the dynamic linker's stack
    flags are arguments ([exec_now], [exec_later]), because another thread can
    make stacks executable between them. *)
From S2P Require Import Prelude ListHead Nptl Sim StackCache Demo StackCacheProofs.

Section Defs.
Context {K : Type} {PF : Platform} {LA : ListApi} {KN : Kernel K}.

(** The size of the attribute, or the default read under its lock. *)
Definition attr_size (attr : pthread_attr) : M (nptl K) Z :=
  if negb (attr_stacksize attr =? 0) then mret (attr_stacksize attr)
  else
    lock_default_attr;;
    size ← gets default_stacksize;
    unlock_default_attr;;
    mret size.

(** [_dl_allocate_tls (TLS_TPADJ (pd))]: whether there was memory; [malloc] sets
    [errno] when there is none. *)
Definition allocate_tls (pd : ptr) : M (nptl K) bool :=
  k ← gets kern;
  match dl_allocate_tls pd k with
  | (k', Some dtv) =>
      modify (λ s, s <| kern := k' |>);;
      upd_pd pd (λ t, t <| pd_dtv := dtv |>);;
      mret true
  | (k', None) => modify (λ s, s <| kern := k' |> <| errno := ENOMEM |>);; mret false
  end.

(** The fields of a descriptor on a new block; the memory is zero. *)
Definition new_pd (mem size guardsize : Z) : pthread :=
  pthread0 <| pd_stackblock := mem |> <| pd_stackblock_size := size |>
           <| pd_guardsize := guardsize |>
           <| pd_specific := S1stblock :: tail (pd_specific pthread0) |>
           <| pd_multiple_threads := 1 |> <| pd_setxid_futex := -1 |>.

(** A stack the user provided. *)
Definition user_stack (attr : pthread_attr) (size : Z) : M (nptl K) (Z + ptr) :=
  let stackaddr := attr_stackaddr attr in
  if negb (attr_stacksize attr =? 0)
     && (attr_stacksize attr <? static_tls_size +w MINIMAL_REST_STACK)
  then mret (inl EINVAL)
  else
    let adj := Z.land (stackaddr -w TLS_TCB_SIZE) static_tls_align_m1 in
    assert (adj +w TLS_TCB_SIZE <? size);;
    let pd := stackaddr -w TLS_TCB_SIZE -w adj in
    modify (λ s, s <| pds := <[pd := (new_pd (stackaddr -w size) size 0)
                                       <| pd_user_stack := true |>]> (pds s) |>);;
    ok ← allocate_tls pd;
    if negb ok then
      e ← gets errno; assert (e =? ENOMEM);; e ← gets errno; mret (inl e)
    else
      lock_cache;;
      modify (λ s, s <| links := list_add (list_of pd) stack_user (links s) |>);;
      unlock_cache;;
      mret (inr pd).

(** The rounded guard size and the size of the block with the guard. *)
Definition check_size (attr : pthread_attr) (size : Z) : option (Z * Z) :=
  let pagesize_m1 := pagesize - 1 in
  let guardsize := (attr_guardsize attr +w pagesize_m1) &~ pagesize_m1 in
  if (guardsize <? attr_guardsize attr) || (size +w guardsize <? guardsize) then None
  else
    let size := size +w guardsize in
    if size <? (guardsize +w static_tls_size +w MINIMAL_REST_STACK +w pagesize_m1)
                 &~ pagesize_m1
    then None
    else Some (guardsize, size).

Definition block_size (size : Z) : Z :=
  if negb (MULTI_PAGE_ALIASING =? 0) && (size `mod` MULTI_PAGE_ALIASING =? 0)
  then size +w pagesize else size.

(** The descriptor is at the end of the stack. *)
Definition pd_place (mem size : Z) : ptr :=
  (mem +w size -w TLS_TCB_SIZE) &~ static_tls_align_m1.

(** Stores into fresh memory; a descriptor that does not fit is a fault. *)
Definition init_new_pd (mem size guardsize : Z) : M (nptl K) () :=
  let pd := pd_place mem size in
  if (mem <=? pd) && (pd + sizeof_pthread <=? mem + size) then
    modify (λ s, s <| pds := <[pd := new_pd mem size guardsize]> (pds s) |>)
  else stop_with Fault.

(** A new block, in the list of stacks in use: the descriptor, the size and the
    address of the block. *)
Definition new_stack (size guardsize : Z) (exec_now exec_later : bool)
    : M (nptl K) (Z + ptr * Z * ptr) :=
  let prot := Z.lor (Z.lor PROT_READ PROT_WRITE) (if exec_now then PROT_EXEC else 0) in
  let size := block_size size in
  mem ← mmap size (if guardsize =? 0 then prot else PROT_NONE);
  match mem with
  | None => e ← gets errno; mret (inl e)
  | Some mem =>
      assert (negb (mem =? 0));;
      let pd := pd_place mem size in
      r ← (if 0 <? guardsize then
             setup_stack_prot mem size (guard_position mem) guardsize prot
           else mret 0);
      if negb (r =? 0) then munmap mem size;; e ← gets errno; mret (inl e)
      else
        init_new_pd mem size guardsize;;
        ok ← allocate_tls pd;
        if negb ok then
          e ← gets errno; assert (e =? ENOMEM);;
          munmap mem size;; e ← gets errno; mret (inl e)
        else
          lock_cache;;
          stack_list_add (list_of pd) stack_used;;
          unlock_cache;;
          err ← (if exec_later && negb (has prot PROT_EXEC) then change_stack_perm pd
                 else mret 0);
          if negb (err =? 0) then munmap mem size;; mret (inl err)
          else mret (inr (pd, size, mem))
  end.

(** [mprot_error] *)
Definition mprot_error (pd mem : ptr) (size : Z) : M (nptl K) Z :=
  lock_cache;;
  stack_list_del (list_of pd);;
  unlock_cache;;
  on_kernel (dl_deallocate_tls pd);;
  munmap mem size;;
  gets errno.

(** Create or resize the guard area; 0 or an error number. *)
Definition adjust_guard (pd mem : ptr) (size reqsize guardsize prot : Z) : M (nptl K) Z :=
  t ← load_pd pd;
  if pd_guardsize t <? guardsize then
    r ← mprotect (guard_position mem) guardsize PROT_NONE;
    if negb (r =? 0) then mprot_error pd mem size
    else upd_pd pd (λ t, t <| pd_guardsize := guardsize |>);; mret 0
  else if size -w reqsize <? pd_guardsize t -w guardsize then
    r ← mprotect (mem + guardsize) (pd_guardsize t -w guardsize) prot;
    if negb (r =? 0) then mprot_error pd mem size
    else upd_pd pd (λ t, t <| pd_guardsize := guardsize |>);; mret 0
  else mret 0.

(** A stack of the library: from the cache if possible. *)
Definition library_stack (attr : pthread_attr) (size : Z) (exec_now exec_later : bool)
    : M (nptl K) (Z + ptr) :=
  let prot := Z.lor (Z.lor PROT_READ PROT_WRITE) (if exec_now then PROT_EXEC else 0) in
  let size := size &~ static_tls_align_m1 in
  assert (negb (size =? 0));;
  match check_size attr size with
  | None => mret (inl EINVAL)
  | Some (guardsize, reqsize) =>
      cached ← get_cached_stack reqsize;
      found ← match cached with
              | Some (pd, size, mem) => mret (inr (pd, size, mem))
              | None => new_stack reqsize guardsize exec_now exec_later
              end;
      match found with
      | inl e => mret (inl e)
      | inr (pd, size, mem) =>
          err ← adjust_guard pd mem size reqsize guardsize prot;
          if negb (err =? 0) then mret (inl err)
          else
            upd_pd pd (λ t, t <| pd_reported_guardsize := guardsize |>);;
            mret (inr pd)
      end
  end.

(** The fields every descriptor gets, whatever its stack. *)
Definition finished (pd : ptr) (t : pthread) : pthread :=
  t <| pd_lock := 0 |>
    <| pd_robust_futex_offset := robust_futex_offset |>
    <| pd_list_op_pending := 0 |>
    <| pd_robust_prev := pd + offsetof_robust_head |>
    <| pd_robust_list := pd + offsetof_robust_head |>.
Definition finish_pd (pd : ptr) : M (nptl K) () := upd_pd pd (finished pd).

(** An error number, or the descriptor and the top of the stack. *)
Definition allocate_stack (attr : pthread_attr) (exec_now exec_later : bool)
    : M (nptl K) (Z + ptr * ptr) :=
  assert (Z.land (pagesize - 1) pagesize =? 0);;
  assert (STACK_ALIGN <=? TCB_ALIGNMENT);;
  size ← attr_size attr;
  found ← (if has (attr_flags attr) ATTR_FLAG_STACKADDR then user_stack attr size
           else library_stack attr size exec_now exec_later);
  match found with
  | inl e => mret (inl e)
  | inr pd =>
      finish_pd pd;;
      mret (inr (pd, pd + sizeof_pthread -w static_tls_size))
  end.
End Defs.

(** * Sizes *)

Section Sizes.
Context {PF : Platform} {PL : PlatformLaws}.

Lemma page_pos : 1 ≤ pagesize.
Proof. pose proof (pow2_m1_nonneg _ page_pow2). lia. Qed.

Lemma page_power : Z.land (pagesize - 1) pagesize = 0.
Proof.
  destruct page_pow2 as (k & Hk & E). rewrite E, Z.land_comm.
  replace pagesize with (2 ^ k) by lia.
  replace (2 ^ k - 1) with (Z.ones k) by (rewrite Z.ones_equiv; lia).
  rewrite Z.land_ones by done. apply Z.mod_same. lia.
Qed.

Lemma sizes_bound :
  0 ≤ static_tls_align_m1 < 2305843009213693952 ∧ 0 < sizeof_pthread ≤ TLS_TCB_SIZE ∧
  TLS_TCB_SIZE ≤ static_tls_size < 2305843009213693952 ∧
  TLS_TCB_SIZE + static_tls_align_m1 ≤ static_tls_size + MINIMAL_REST_STACK.
Proof.
  pose proof (pow2_m1_nonneg _ align_pow2). pose proof align_page. pose proof page_bound.
  pose proof list_in_pthread. pose proof tcb_holds_pthread. pose proof static_tls_holds_tcb.
  pose proof static_tls_bound. pose proof rest_bound. lia.
Qed.

(** Rounding a size up to whole pages. *)
Definition round_page (x : Z) : Z := (x + (pagesize - 1)) &~ (pagesize - 1).

Lemma round_page_bounds x : x ≤ round_page x ≤ x + (pagesize - 1).
Proof. unfold round_page. pose proof (mask_bounds (x + (pagesize - 1)) _ page_pow2). lia. Qed.

Lemma round_page_mod x : round_page x `mod` pagesize = 0.
Proof.
  unfold round_page. pose proof (mask_aligned (x + (pagesize - 1)) _ page_pow2) as H.
  by replace (pagesize - 1 + 1) with pagesize in H by lia.
Qed.

(** What the checks on the sizes establish: the guard is whole pages, no sum
    wrapped, and the block holds the guard, the static TLS and a minimal stack. *)
Lemma check_size_Some attr size g rs :
  is_w64 (attr_guardsize attr) → is_w64 size →
  check_size attr size = Some (g, rs) →
  g = round_page (attr_guardsize attr) ∧ rs = size + g ∧ 0 ≤ g ∧ rs < W64 ∧
  (rs < user_top → g + static_tls_size + MINIMAL_REST_STACK ≤ rs).
Proof.
  unfold check_size. intros Hg Hs. pose proof page_pos. pose proof page_bound.
  pose proof sizes_bound. set (ag := attr_guardsize attr) in *.
  assert (Hpw : is_w64 (pagesize - 1)) by w64lia.
  set (g0 := (ag +w (pagesize - 1)) &~ (pagesize - 1)).
  pose proof (mask_bounds (ag +w (pagesize - 1)) _ page_pow2) as Hb. fold g0 in Hb.
  pose proof (w64_range (ag + (pagesize - 1))) as Hr.
  pose proof (mask_nonneg (ag +w (pagesize - 1)) _ page_pow2 (proj1 Hr)) as Hn. fold g0 in Hn.
  destruct (Z.ltb_spec g0 ag) as [|Hg0]; [done|].
  assert (E0 : g0 = round_page ag).
  { unfold g0, round_page. f_equal. apply w64_small. split; [w64lia|].
    destruct (decide (ag + (pagesize - 1) < W64)); [done|exfalso].
    pose proof (proj2 (w64_add_wraps ag (pagesize - 1) Hg Hpw) ltac:(lia)).
    w64lia. }
  pose proof (round_page_bounds ag).
  destruct (Z.ltb_spec (size +w g0) g0) as [|Hs0]; [done|]. cbn [orb].
  assert (Hg0w : is_w64 g0) by w64lia.
  assert (Hns : size + g0 < W64).
  { destruct (decide (size + g0 < W64)); [done|exfalso].
    pose proof (proj2 (w64_add_wraps size g0 Hs Hg0w) ltac:(lia)). lia. }
  rewrite (w64_small (size + g0)) by w64lia.
  case_match eqn:Hlt; [done|]. apply Z.ltb_ge in Hlt. intros [= <- <-].
  split_and!; [done|done|apply Hg0w|done|]. unfold user_top. intros Hrs.
  set (mr := MINIMAL_REST_STACK) in *. assert (mr = 4096) by done.
  rewrite (w64_small (g0 + _)), (w64_small (g0 + _ + mr)), (w64_small (g0 + _ + mr + _))
    in Hlt by w64lia.
  pose proof (mask_bounds (g0 + static_tls_size + mr + (pagesize - 1)) _ page_pow2). w64lia.
Qed.

Lemma block_size_bounds size :
  0 ≤ size < W64 → size ≤ block_size size < W64.
Proof.
  intros Hs. unfold block_size. pose proof page_pos.
  destruct (Z.eqb_spec MULTI_PAGE_ALIASING 0) as [|Hne]; cbn [negb andb]; [lia|].
  destruct (Z.eqb_spec (size `mod` MULTI_PAGE_ALIASING) 0) as [Hm|]; [|lia].
  destruct aliasing_pages as [|[Hp Hw]]; [done|].
  set (m := MULTI_PAGE_ALIASING) in *.
  apply Z.mod_divide in Hm as [q ->]; [|lia]. apply Z.mod_divide in Hw as [w Hw]; [|lia].
  assert (q + 1 ≤ w) by nia.
  assert (q * m + m ≤ W64) by nia.
  rewrite w64_small by w64lia. lia.
Qed.

(** The descriptor and everything above the stack fit at the end of a block. *)
Lemma pd_place_bounds mem size :
  0 ≤ mem → mem + size < W64 → TLS_TCB_SIZE + static_tls_align_m1 ≤ size →
  mem + size - TLS_TCB_SIZE - static_tls_align_m1 ≤ pd_place mem size
    ≤ mem + size - TLS_TCB_SIZE.
Proof.
  intros. pose proof sizes_bound. unfold pd_place.
  rewrite (w64_small (mem + size)) by w64lia. rewrite w64_small by w64lia.
  pose proof (mask_bounds (mem + size - TLS_TCB_SIZE) _ align_pow2). lia.
Qed.
End Sizes.

(** * The parts *)

Section Parts.
Context {K : Type} {PF : Platform} {PL : PlatformLaws} {LA : ListApi} {LL : ListLaws}.
Context {KN : Kernel K} {KL : KernelLaws (K := K)}.
Implicit Types (s : nptl K) (u c r : list ptr).

Lemma wp_attr_size attr (Q : Z → nptl K → Prop) s :
  default_pthread_attr_lock s = 0 →
  Q (if attr_stacksize attr =? 0 then default_stacksize s else attr_stacksize attr) s →
  wp (attr_size attr) Q s.
Proof.
  intros Hl HQ. unfold attr_size. destruct (attr_stacksize attr =? 0); cbn [negb]; [|done].
  wp_step. apply wp_lock_default_attr; [done|]. wp_go. destruct s. cbn in Hl. by subst.
Qed.

Lemma wp_allocate_tls p t (Q : bool → nptl K → Prop) s :
  pds s !! p = Some t →
  (∀ k' dtv, (∀ x, mapped k' x ↔ mapped (kern s) x) →
     Q true (s <| kern := k' |> <| pds := <[p := t <| pd_dtv := dtv |>]> (pds s) |>)) →
  (∀ k', (∀ x, mapped k' x ↔ mapped (kern s) x) →
     Q false (s <| kern := k' |> <| errno := ENOMEM |>)) →
  wp (allocate_tls p) Q s.
Proof.
  intros Et H1 H2. unfold allocate_tls. wp_go.
  pose proof (allocate_tls_mapped p (kern s)) as Hm.
  destruct (dl_allocate_tls p (kern s)) as [k' [dtv|]]; cbn in Hm; wp_go.
  - eapply wp_upd_pd; [exact Et|]. wp_go. by apply H1.
  - by apply H2.
Qed.

Lemma wp_setup_stack_prot mem size g gs prot (Q : Z → nptl K → Prop) s :
  (∀ k', (∀ x, mapped k' x ↔ mapped (kern s) x) → Q 0 (s <| kern := k' |>)) →
  (∀ k' e, 0 < e → (∀ x, mapped k' x ↔ mapped (kern s) x) →
     Q e (s <| kern := k' |> <| errno := e |>)) →
  wp (setup_stack_prot mem size g gs prot) Q s.
Proof.
  intros H1 H2. unfold setup_stack_prot. wp_step.
  apply wp_mprotect; intros; wp_go; try lia; auto.
Qed.

(** Only the kernel's state, [errno] and one descriptor differ. *)
Definition during s s2 (k : K) mem sz : Prop :=
  links s2 = links s ∧ stack_cache_lock s2 = 0 ∧ config s2 = config s ∧
  stack_cache_actsize s2 = stack_cache_actsize s ∧
  (∀ x, ¬ (mem ≤ x < mem + sz) → pds s2 !! x = pds s !! x) ∧
  (∀ x, mapped (kern s2) x ↔ mapped k x).

(** Undoing a mapping nobody else knows of. *)
Lemma rep_undo s s' L mem size :
  rep s L → (∀ x, mem ≤ x < mem + size → ¬ mapped (kern s) x) →
  (∀ x, mapped (kern s') x ↔ mapped (kern s) x) →
  (∀ x, ¬ (mem ≤ x < mem + size) → pds s' !! x = pds s !! x) →
  links s' = outside mem size (links s) →
  stack_cache_actsize s' = stack_cache_actsize s →
  rep s' L.
Proof.
  intros R Hf Hm Hp Hl Ha. apply (rep_frame s); [done| |done].
  intros x Hx. assert (¬ (mem ≤ x < mem + size)) by (intros H; by apply (Hf x H)).
  rewrite Hl, outside_lookup, Hp, Hm by done. done.
Qed.

(** A new block holds its descriptor, and no list head. *)
Lemma new_block_ok s s' mem sz g dtv :
  0 < mem → mem + sz < user_top → TLS_TCB_SIZE + static_tls_align_m1 ≤ sz →
  (∀ h, h ∈ heads → mapped (kern s) h) →
  (∀ x, mem ≤ x < mem + sz → ¬ mapped (kern s) x) →
  (∀ x, mem ≤ x < mem + sz → mapped (kern s') x) →
  block_ok s' ((new_pd mem sz g) <| pd_dtv := dtv |>) (pd_place mem sz).
Proof.
  intros Hmem Htop Hfit Hh Hfresh Hm.
  pose proof (pd_place_bounds mem sz ltac:(lia) ltac:(unfold user_top in *; w64lia) Hfit) as Hpd.
  pose proof sizes_bound. pose proof list_in_pthread.
  set (t := (new_pd mem sz g) <| pd_dtv := dtv |>).
  assert (pd_stackblock t = mem) as E1 by done.
  assert (pd_stackblock_size t = sz) as E2 by done.
  split; unfold in_block, list_of; rewrite ?E1, ?E2; try lia; try done.
  intros h Hh' Hx. by apply (Hfresh h), Hh.
Qed.

(** Descriptors of running threads are not in fresh memory. *)
Lemma listed_mapped s u c r q :
  rep s (lists u c r) → q ∈ u ++ r → mapped (kern s) q.
Proof.
  intros R [Hq|Hq]%elem_of_app.
  - by destruct (rep_mapped _ _ Used _ R Hq).
  - by destruct (rep_mapped _ _ User _ R Hq).
Qed.

(** The block of a stack in use holds no other running thread's descriptor. *)
Lemma used_apart s pd u c r t q :
  rep s (lists (pd :: u) c r) → pds s !! pd = Some t → q ∈ u ++ r → ¬ in_block t q.
Proof.
  intros R Et [Hq|Hq]%elem_of_app Hb.
  - pose proof (rings_nodup _ _ Used (rep_rings _ _ R)) as N. cbn in N.
    apply NoDup_cons in N as [N _].
    destruct (rep_live _ _ R Used q ltac:(cbn; set_solver)) as [tq Etq].
    apply (rep_disj _ _ R Used Used pd q t tq q); try (done || cbn; set_solver).
    apply (block_pd s), (rep_block _ _ R Used); (done || cbn; set_solver).
  - by destruct (rep_user _ _ R Used pd q t ltac:(done) ltac:(cbn; set_solver) Hq Et).
Qed.

(** What a new block guarantees. *)
Definition new_post s u c r size guardsize (res : Z + ptr * Z * ptr) s' : Prop :=
  stack_cache_lock s' = 0 ∧ config s' = config s ∧ others_kept s s' (u ++ r) ∧
  match res with
  | inl e => 0 < e ∧ rep s' (lists u c r)
  | inr (pd, sz, mem) =>
      sz = block_size size ∧ 0 < mem ∧ mem + sz < user_top ∧ pd = pd_place mem sz ∧
      rep s' (lists (pd :: u) c r) ∧
      ∃ dtv, pds s' !! pd = Some ((new_pd mem sz guardsize) <| pd_dtv := dtv |>)
  end.

(** The exits that fail before the block is in a list. *)
Lemma wp_undo_new s s2 u c r size guardsize k1 mem sz e :
  munmap_succeeds (K := K) → rep s (lists u c r) → during s s2 k1 mem sz →
  (∀ x, mem ≤ x < mem + sz → ¬ mapped (kern s) x) → (∀ x, mapped k1 x ↔ mapped (kern s) x ∨ mem ≤ x < mem + sz) →
  0 < e → errno s2 = e →
  wp (munmap mem sz;; (e ← gets errno; mret (inl e))) (new_post s u c r size guardsize) s2.
Proof.
  intros Hun R (El & Hl2 & Hc2 & Ea & Ep & Hm2) Hfresh Hm1 He Ee. wp_step.
  apply wp_munmap_ok; [apply Hun|].
  intros k' Ek. wp_go. unfold new_post. rs. rewrite Ee.
  split_and!; [done..| |done|].
  { intros q Hq. rs. pose proof (listed_mapped _ _ _ _ _ R Hq) as Hq'.
    assert (¬ (mem ≤ q < mem + sz)) by (intros H; by apply (Hfresh q H)).
    by rewrite outside_lookup, Ep. }
  eapply (rep_undo s); [done|exact Hfresh| | | |done].
  - intros x. rs. rewrite (munmap_ok _ _ _ _ Ek), Hm2, Hm1. specialize (Hfresh x). tauto.
  - intros x Hx. rs. by rewrite outside_lookup, Ep.
  - rs. by rewrite El.
Qed.

(** A new block becomes the first of the used ones. *)
Lemma rep_new_block s s' u c r mem sz guardsize dtv :
  let pd := pd_place mem sz in
  let t := (new_pd mem sz guardsize) <| pd_dtv := dtv |> in
  rep s (lists u c r) → 0 < mem → mem + sz < user_top → TLS_TCB_SIZE + static_tls_align_m1 ≤ sz →
  (∀ x, mem ≤ x < mem + sz → ¬ mapped (kern s) x) →
  (∀ x, mapped (kern s') x ↔ mapped (kern s) x ∨ mem ≤ x < mem + sz) →
  pds s' = <[pd := t]> (pds s) → links s' = list_add (list_of pd) (head_of Used) (links s) →
  stack_cache_actsize s' = stack_cache_actsize s →
  rep s' (lists (pd :: u) c r).
Proof.
  intros pd t R Hmem Htop Hfit Hfresh Hm Ep El Ea.
  pose proof (pd_place_bounds mem sz ltac:(lia) ltac:(unfold user_top in *; w64lia) Hfit) as Hpd.
  pose proof sizes_bound as (? & ? & ? & ?).
  apply (rep_grow s s' _ _ Used pd t R); try done.
  - by intros [].
  - apply (new_block_ok s); [lia|done|done|apply (rep_heads _ _ R)|exact Hfresh|].
    intros x Hx. apply Hm. by right.
  - intros x Hx. apply Hm. by left.
  - rewrite Ea, (rep_act _ _ R).
    f_equal. symmetry. apply cached_size_ext. intros q Hq. rewrite Ep, lookup_insert_ne; [done|].
    intros <-. destruct (rep_mapped _ _ Cache _ R Hq) as [Hq' _]. apply (Hfresh pd); [fold pd in Hpd; lia|done].
Qed.

Lemma wp_new_stack s u c r size guardsize exec_now exec_later :
  munmap_succeeds (K := K) → rep s (lists u c r) → stack_cache_lock s = 0 →
  0 < size < W64 → 0 ≤ guardsize →
  (size < user_top → guardsize + static_tls_size + MINIMAL_REST_STACK ≤ size) →
  (exec_later = true → exec_now = true) →
  wp (new_stack size guardsize exec_now exec_later) (new_post s u c r size guardsize) s.
Proof.
  intros Hun R Hl Hsz Hg Hmin Hex. unfold new_stack.
  set (prot := Z.lor _ (if exec_now then _ else _)).
  pose proof (block_size_bounds size ltac:(lia)) as Hbs. set (sz := block_size size) in *.
  wp_step. apply wp_mmap; [lia| |].
  2:{ intros k' e He Hm. wp_go. split_and!; [done..|]. eapply rep_ext; [done..|].
      intros a Ha. by apply Hm. }
  intros k1 mem Hmem Htop Hmod Hfresh Hm1. cbv beta iota.
  assert (Hfit : TLS_TCB_SIZE + static_tls_align_m1 ≤ sz) by
    (pose proof sizes_bound; lia).
  pose proof (pd_place_bounds mem sz ltac:(lia) ltac:(unfold user_top in *; w64lia) Hfit) as Hpd.
  set (pd := pd_place mem sz) in *.
  do 2 wp_step; [destruct (Z.eqb_spec mem 0); [lia|done]|]. wp_step.
  apply (wp_mono _ (λ e s2, during s s2 k1 mem sz ∧ pds s2 = pds s ∧
                            (e = 0 ∨ 0 < e ∧ errno s2 = e))).
  { wp_step.
    - apply wp_setup_stack_prot; intros; unfold during; rs; (split_and!; [done..| | |]);
        (done || by intros; rewrite <- Hm1 || auto).
    - wp_step. unfold during. rs. split_and!; try done. by left. }
  intros e s2 (D & Ep2 & He). wp_step.
  { destruct He as [->|[??]]; [done|]. by eapply wp_undo_new. }
  destruct He as [->|He]; [|lia].
  wp_step. unfold init_new_pd. fold pd.
  pose proof sizes_bound as (? & ? & ? & ?).
  rewrite (proj2 (Z.leb_le mem pd)), (proj2 (Z.leb_le (pd + sizeof_pthread) (mem + sz))) by lia.
  cbn [andb]. do 2 wp_step. destruct D as (El & Hl2 & Hc2 & Ea & Ep & Hm2).
  eapply wp_allocate_tls; [rs; apply lookup_insert_eq| |].
  2:{ intros k' Hk'. cbn [negb]. do 3 wp_step. wp_step; [done|]. rs.
      eapply (wp_undo_new s _ u c r _ _ k1 mem sz ENOMEM); try done. unfold during. rs. split_and!; try done.
      - intros x Hx. rewrite lookup_insert_ne; [by apply Ep|]. intros <-. apply Hx. lia.
      - intros x. rewrite Hk'. rs. apply Hm2. }
  intros k3 dtv Hm3. cbn [negb]. rs in Hm3. wp_step. apply wp_lock_cache; [done|].
  wp_step. apply wp_stack_list_add. do 3 wp_step.
  assert (Hno : exec_later && negb (has prot PROT_EXEC) = false).
  { destruct exec_later; [|done]. unfold prot. by rewrite Hex by done. }
  rewrite Hno. cbv iota. wp_step. change (negb (0 =? 0)) with false. cbv iota. wp_step.
  match goal with |- new_post _ _ _ _ _ _ _ ?x => set (s3 := x) end.
  assert (Ep3 : pds s3 = <[pd := (new_pd mem sz guardsize) <| pd_dtv := dtv |>]> (pds s)).
  { subst s3. rs. by rewrite insert_insert_eq, Ep2. }
  unfold new_post. split_and!; try done; [| |exists dtv; by rewrite Ep3, lookup_insert_eq].
  { intros q Hq. rewrite Ep3, lookup_insert_ne; [done|]. intros <-.
    apply (Hfresh pd); [lia|]. by apply (listed_mapped s u c r). }
  apply (rep_new_block s s3 u c r mem sz guardsize dtv); try done.
  - intros x. change (kern s3) with k3. by rewrite Hm3, Hm2, Hm1.
  - by subst s3; rs; rewrite El.
Qed.

(** A stack that cannot be given the guard it needs is thrown away. *)
Lemma wp_mprot_error s u c r pd t :
  munmap_succeeds (K := K) → rep s (lists (pd :: u) c r) → stack_cache_lock s = 0 →
  pds s !! pd = Some t →
  wp (mprot_error pd (pd_stackblock t) (pd_stackblock_size t)) (λ e s',
    stack_cache_lock s' = 0 ∧ config s' = config s ∧ e = errno s ∧
    others_kept s s' (u ++ r) ∧ rep s' (lists u c r)) s.
Proof.
  intros Hun R Hl Et. unfold mprot_error. wp_step. apply wp_lock_cache; [done|].
  wp_step. apply wp_stack_list_del. wp_go. apply wp_munmap_ok; [apply Hun|].
  intros k' Ek. wp_go. split_and!; try done.
  { intros q Hq. rs. apply outside_lookup. by apply (used_apart s pd u c r). }
  apply (rep_drop_used s _ [] pd u c r t R Et); try done.
  intros x. rs. rewrite (munmap_ok _ _ _ _ Ek). rs. by rewrite deallocate_tls_mapped.
Qed.

(** A guard of at least the size asked for; what is over it is not more than what
    the block has over the size asked for. *)
Definition guard_post s u c r pd (t : pthread) reqsize guardsize (err : Z) s' : Prop :=
  stack_cache_lock s' = 0 ∧ config s' = config s ∧ others_kept s s' (u ++ r) ∧
  if err =? 0 then
    ∃ g, rep s' (lists (pd :: u) c r) ∧ pds s' !! pd = Some (t <| pd_guardsize := g |>) ∧
      guardsize ≤ g ∧ g - guardsize ≤ pd_stackblock_size t - reqsize
  else 0 < err ∧ rep s' (lists u c r).

Lemma upd_kept s pd u c r t s' :
  rep s (lists (pd :: u) c r) → pds s' = <[pd := t]> (pds s) → others_kept s s' (u ++ r).
Proof.
  intros R E q Hq. rewrite E. apply lookup_insert_ne. intros <-.
  pose proof (rings_all_nodup _ _ _ _ (rep_rings _ _ R)) as N. cbn in N.
  apply NoDup_cons in N as [N _]. set_solver.
Qed.

Lemma others_trans s0 s1 s2 l : others_kept s0 s1 l → others_kept s1 s2 l → others_kept s0 s2 l.
Proof. intros H1 H2 q Hq. by rewrite H2, H1. Qed.

Lemma rep_upd s s' L p t t' :
  rep s L → pds s !! p = Some t → geom t' = geom t → pds s' = <[p := t']> (pds s) →
  links s' = links s → stack_cache_actsize s' = stack_cache_actsize s →
  (∀ a, mapped (kern s) a → mapped (kern s') a) → rep s' L.
Proof.
  intros R Et Eg Ep El Ea Hm. apply (rep_ext s); try done.
  intros i q _. rewrite Ep. destruct (decide (q = p)) as [->|Hne];
    [rewrite lookup_insert_eq, Et; cbn; by rewrite Eg | by rewrite lookup_insert_ne].
Qed.

Lemma wp_adjust_guard s u c r pd t reqsize guardsize prot :
  munmap_succeeds (K := K) → rep s (lists (pd :: u) c r) → stack_cache_lock s = 0 →
  pds s !! pd = Some t → is_w64 (pd_guardsize t) → 0 ≤ guardsize ≤ reqsize →
  reqsize ≤ pd_stackblock_size t →
  wp (adjust_guard pd (pd_stackblock t) (pd_stackblock_size t) reqsize guardsize prot)
     (guard_post s u c r pd t reqsize guardsize) s.
Proof.
  intros Hun R Hl Et Hgt Hg Hrs. unfold adjust_guard. wp_step. eapply wp_load_pd; [exact Et|].
  destruct (rep_block _ _ R Used pd t ltac:(done) ltac:(cbn; set_solver) Et)
    as [_ _ _ Hrange _ _ _].
  assert (Hset : ∀ a len prot', guardsize - guardsize ≤ pd_stackblock_size t - reqsize →
    wp (r ← mprotect a len prot';
        if negb (r =? 0) then mprot_error pd (pd_stackblock t) (pd_stackblock_size t)
        else upd_pd pd (λ t, t <| pd_guardsize := guardsize |>);; mret 0)
       (guard_post s u c r pd t reqsize guardsize) s).
  { intros a len prot' _. wp_step. apply wp_mprotect.
    - intros k' Hm. cbn [negb Z.eqb]. wp_step. eapply wp_upd_pd; [exact Et|]. wp_step.
      split_and!; try done; [by eapply (upd_kept s pd u c r)|]. exists guardsize. split_and!; [|rs; apply lookup_insert_eq|lia..].
      apply (rep_upd s _ _ pd t (t <| pd_guardsize := guardsize |>) R Et); try done.
      intros x. rs. by rewrite Hm.
    - intros k' e He Hm. cbn [negb Z.eqb].
      set (s1 := s <| kern := k' |> <| errno := e |>).
      assert (R1 : rep s1 (lists (pd :: u) c r)).
      { apply (rep_ext s _ _ R); try done. intros x Hx. by apply Hm. }
      eapply wp_mono; [by apply (wp_mprot_error s1 u c r pd t)|].
      intros e' s' (? & ? & -> & ? & ?). unfold guard_post. change (errno s1) with e.
      destruct (Z.eqb_spec e 0); [lia|].
    split_and!; done. }
  destruct (Z.ltb_spec (pd_guardsize t) guardsize); [apply Hset; lia|].
  destruct (Z.ltb_spec (pd_stackblock_size t -w reqsize) (pd_guardsize t -w guardsize))
    as [|Hle]; [apply Hset; lia|].
  unfold user_top in Hrange.
  rewrite !w64_small in Hle by w64lia. wp_step. split_and!; try done.
  exists (pd_guardsize t). split_and!; [done|rewrite Et; by destruct t|lia..].
Qed.

(** At most one stack has left the cache. *)
Definition one_less (c c' : list ptr) : Prop :=
  c' = c ∨ ∃ c1 p c2, c = c1 ++ p :: c2 ∧ c' = c1 ++ c2.

Definition guards_ok s c : Prop :=
  ∀ p t, p ∈ c → pds s !! p = Some t → is_w64 (pd_guardsize t).

(** The thread can use what is between the guard and the static TLS: the size
    asked for less the static TLS, and never less than the minimum, up to the
    alignment of the TLS block and what the TCB has over the descriptor. *)
Definition roomy (t : pthread) (top size : Z) : Prop :=
  let slack := static_tls_align_m1 + (TLS_TCB_SIZE - sizeof_pthread) in
  pd_stackblock t + pd_guardsize t + MINIMAL_REST_STACK ≤ top + slack ∧
  pd_stackblock t + pd_guardsize t + (size - static_tls_size) ≤ top + slack.

Definition alloc_post s u c r guard size (res : Z + ptr) s' : Prop :=
  stack_cache_lock s' = 0 ∧ config s' = config s ∧ others_kept s s' (u ++ r) ∧
  ∃ c', one_less c c' ∧
  match res with
  | inl e => 0 < e ∧ rep s' (lists u c' r)
  | inr pd => ∃ t, rep s' (lists (pd :: u) c' r) ∧ pds s' !! pd = Some t ∧
      pd_reported_guardsize t = round_page guard ∧ round_page guard ≤ pd_guardsize t ∧
      roomy t (pd + sizeof_pthread - static_tls_size) size
  end.

(** From a block to the result: the guard and the reported guard size. *)
Lemma wp_with_guard s0 s u c c' r pd t guard size reqsize prot :
  munmap_succeeds (K := K) → rep s (lists (pd :: u) c' r) → stack_cache_lock s = 0 →
  config s = config s0 → others_kept s0 s (u ++ r) → one_less c c' →
  pds s !! pd = Some t → is_w64 (pd_guardsize t) →
  reqsize = size + round_page guard → 0 ≤ round_page guard → 0 ≤ size →
  reqsize ≤ pd_stackblock_size t →
  (reqsize < user_top → round_page guard + static_tls_size + MINIMAL_REST_STACK ≤ reqsize) →
  wp (err ← adjust_guard pd (pd_stackblock t) (pd_stackblock_size t) reqsize
              (round_page guard) prot;
      if negb (err =? 0) then mret (inl err)
      else
        upd_pd pd (λ t, t <| pd_reported_guardsize := round_page guard |>);;
        mret (inr pd))
     (alloc_post s0 u c r guard size) s.
Proof.
  intros Hun R Hl Hc Hk Hone Et Hgt Ereq Hg Hs Hrs Hmin. wp_step.
  eapply wp_mono; [by eapply wp_adjust_guard; eauto; lia|].
  intros err s1 (Hl1 & Hc1 & Hk1 & H1).
  pose proof (others_trans _ _ _ _ Hk Hk1) as Hk2. destruct (Z.eqb_spec err 0) as [->|He]; cbn [negb].
  2:{ wp_step. destruct H1 as [He' R1]. split_and!; [done|exact (eq_trans Hc1 Hc)|done|].
      exists c'. done. }
  destruct H1 as (g & R1 & Et1 & Hg1 & Hg2). wp_step. eapply wp_upd_pd; [exact Et1|]. wp_step.
  split_and!; [done|exact (eq_trans Hc1 Hc)| |].
  { eapply others_trans; [exact Hk2|]. by eapply (upd_kept s1 pd u c' r). }
  exists c'. split; [done|].
  set (t1 := t <| pd_guardsize := g |>) in *.
  exists (t1 <| pd_reported_guardsize := round_page guard |>).
  assert (pd_guardsize t1 = g) as Eg by done.
  assert (pd_stackblock t1 = pd_stackblock t) as Eb by done.
  split_and!; [|rs; apply lookup_insert_eq|done|done|..].
  - by apply (rep_upd s1 _ _ pd t1 (t1 <| pd_reported_guardsize := round_page guard |>) R1 Et1).
  - destruct (rep_block _ _ R Used pd t ltac:(done) ltac:(cbn; set_solver) Et)
      as [_ _ _ Hrange Hplace _ _].
    specialize (Hmin ltac:(unfold user_top in *; lia)).
    unfold roomy. rs. rewrite Eg, Eb. lia.
Qed.

Lemma wp_library_stack s u c r attr size exec_now exec_later :
  munmap_succeeds (K := K) → rep s (lists u c r) → stack_cache_lock s = 0 →
  guards_ok s c → is_w64 (attr_guardsize attr) → is_w64 size →
  size &~ static_tls_align_m1 ≠ 0 → (exec_later = true → exec_now = true) →
  wp (library_stack attr size exec_now exec_later)
     (alloc_post s u c r (attr_guardsize attr) (size &~ static_tls_align_m1)) s.
Proof.
  intros Hun R Hl Hgc Hg Hs Hnz Hex. unfold library_stack.
  set (sz := size &~ static_tls_align_m1) in *.
  assert (Hsz : is_w64 sz).
  { pose proof (mask_bounds size _ align_pow2). pose proof (mask_nonneg size _ align_pow2).
    fold sz in H, H0. pose proof sizes_bound. w64lia. }
  do 2 wp_step; [destruct (Z.eqb_spec sz 0); [lia|done]|].
  destruct (check_size attr sz) as [[g rs]|] eqn:Echk.
  2:{ wp_step. split_and!; [done..|]. exists c. split; [by left|]. done. }
  apply check_size_Some in Echk as (-> & Ers & Hg0 & Hrs & Hmin); [|done..].
  wp_step. eapply wp_mono; [by apply get_cached_stack_spec|].
  intros [[[pd sz'] mem]|] s1 (Hl1 & Hc1 & _ & _ & H1).
  - destruct H1 as (c1 & c2 & t & Ec & _ & Et & -> & -> & _ & [Hfit _] & Ep & _ & R1).
    do 2 wp_step.
    apply (wp_with_guard s s1 u c (c1 ++ c2) r pd (recycled t)); try done.
    + intros q Hq. rewrite Ep. apply lookup_insert_ne. intros <-.
      pose proof (rings_all_nodup _ _ _ _ (rep_rings _ _ R)) as N. rewrite Ec in N.
      apply NoDup_app in N as (_ & D1 & N). apply NoDup_app in N as (_ & D2 & _).
      pose proof (D1 pd). pose proof (D2 pd). set_solver.
    + right. by exists c1, pd, c2.
    + rewrite Ep. apply lookup_insert_eq.
    + change (is_w64 (pd_guardsize t)). apply (Hgc pd); [rewrite Ec; set_solver|done].
    + apply Hsz.
  - destruct H1 as [-> _]. wp_step. eapply wp_mono.
    { apply (wp_new_stack s u c r); try done. unfold is_w64 in Hsz. lia. }
    intros [e|[[pd sz'] mem]] s2 (Hl2 & Hc2 & Hk2 & H2).
    + wp_step. destruct H2 as [He R2]. split_and!; [done..|]. exists c. split; [by left|done].
    + destruct H2 as (-> & Hmem & Htop & -> & R2 & dtv & Et).
      pose proof (block_size_bounds rs ltac:(unfold is_w64 in Hsz; lia)).
      apply (wp_with_guard s s2 u c c r _ _ (attr_guardsize attr) sz rs _ Hun R2 Hl2 Hc2 Hk2
               ltac:(by left) Et); try done.
      * change (is_w64 (round_page (attr_guardsize attr))). w64lia.
      * apply Hsz.
      * change (rs ≤ block_size rs). lia.
Qed.
End Parts.

(** * Properties *)

Section Properties.
Context {K : Type} {PF : Platform} {PL : PlatformLaws} {LA : ListApi} {LL : ListLaws}.
Context {KN : Kernel K} {KL : KernelLaws (K := K)}.
Implicit Types (s : nptl K) (u c r : list ptr).

(** What [allocate_stack] promises for a stack of the library. *)
Definition stack_post s u c r attr (res : Z + ptr * ptr) s' : Prop :=
  let size := if attr_stacksize attr =? 0 then default_stacksize s else attr_stacksize attr in
  stack_cache_lock s' = 0 ∧ config s' = config s ∧ others_kept s s' (u ++ r) ∧
  ∃ c', one_less c c' ∧
  match res with
  | inl e => 0 < e ∧ rep s' (lists u c' r)
  | inr (pd, top) => ∃ t, rep s' (lists (pd :: u) c' r) ∧ pds s' !! pd = Some t ∧
      pd_lock t = 0 ∧
      pd_reported_guardsize t = round_page (attr_guardsize attr) ∧
      round_page (attr_guardsize attr) ≤ pd_guardsize t ∧
      top = pd + sizeof_pthread - static_tls_size ∧
      roomy t top (size &~ static_tls_align_m1)
  end.

(** A valid request for a stack of the library, and the stack flags do not change
    during the call. *)
Record library_request s c attr (exec_now exec_later : bool) : Prop := {
  lr_guards : guards_ok s c;
  lr_flag : has (attr_flags attr) ATTR_FLAG_STACKADDR = false;
  lr_guard : is_w64 (attr_guardsize attr);
  lr_size : is_w64 (attr_stacksize attr);
  lr_default : is_w64 (default_stacksize s);
  lr_min : static_tls_align_m1 < attr_stacksize attr ∨
    attr_stacksize attr = 0 ∧ static_tls_align_m1 < default_stacksize s;
  lr_exec : exec_later = true → exec_now = true;
}.

Lemma wp_allocate_stack s u c r attr exec_now exec_later :
  munmap_succeeds (K := K) → rep s (lists u c r) → stack_cache_lock s = 0 →
  default_pthread_attr_lock s = 0 → library_request s c attr exec_now exec_later →
  wp (allocate_stack attr exec_now exec_later) (stack_post s u c r attr) s.
Proof.
  intros Hun R Hl Hdl [Hgc Hflag Hg Hs Hds Hsize Hex]. unfold allocate_stack.
  do 2 wp_step; [by rewrite page_power|]. do 2 wp_step.
  { apply Z.leb_le, tcb_alignment. }
  wp_step. apply wp_attr_size; [done|]. rewrite Hflag. wp_step. cbv iota.
  unfold stack_post.
  set (size := if attr_stacksize attr =? 0 then _ else _).
  assert (Hsz : is_w64 size ∧ static_tls_align_m1 < size).
  { unfold size. destruct (Z.eqb_spec (attr_stacksize attr) 0); [|naive_solver].
    pose proof (pow2_m1_nonneg _ align_pow2). split; [done|]. lia. }
  destruct Hsz as [Hw Ha].
  eapply wp_mono.
  { apply (wp_library_stack s u c r attr size exec_now exec_later); try done.
    pose proof (mask_bounds size _ align_pow2). lia. }
  intros [e|pd] s1 (Hl1 & Hc1 & Hk1 & c' & Hone & H1).
  { wp_step. split_and!; [done..|]. by exists c'. }
  destruct H1 as (t & R1 & Et & Hrep & Hge & Hroom). wp_step.
  eapply wp_upd_pd; [exact Et|]. cbv beta. wp_step. split_and!; [done..| |].
  { eapply others_trans; [exact Hk1|]. by eapply (upd_kept s1 pd u c' r). }
  exists c'. split; [done|]. match goal with |- context [<[pd := ?x]> _] => set (t1 := x) end.
  exists t1. pose proof sizes_bound. pose proof rest_bound.
  assert (Etop : pd + sizeof_pthread -w static_tls_size = pd + sizeof_pthread - static_tls_size).
  { destruct (rep_block _ _ R1 Used pd t ltac:(done) ltac:(cbn; set_solver) Et)
      as [_ _ _ [Hr1 Hr2] Hplace _ _].
    destruct Hroom as [Hroom _]. pose proof (round_page_bounds (attr_guardsize attr)).
    apply w64_small. unfold user_top in Hr2. w64lia. }
  split_and!; [|rs; apply lookup_insert_eq|done|done|done|done|].
  - by apply (rep_upd s1 _ _ pd t t1 R1 Et).
  - rewrite Etop. exact Hroom.
Qed.

(** Memory that is the user's: mapped, and none of the library's business. *)
Record user_memory s u c r (lo hi : Z) : Prop := {
  um_mapped x : lo ≤ x < hi → mapped (kern s) x;
  um_heads h : h ∈ heads → ¬ (lo ≤ h < hi);
  um_blocks i q t x : i ≠ User → q ∈ lists u c r i → pds s !! q = Some t →
    lo ≤ x < hi → ¬ in_block t x;
  um_user q : q ∈ r → ¬ (lo ≤ q < hi);
}.

Definition user_post s u c r attr (size : Z) (res : Z + ptr * ptr) s' : Prop :=
  stack_cache_lock s' = 0 ∧ config s' = config s ∧ others_kept s s' (u ++ r) ∧
  match res with
  | inl e =>
      rep s' (lists u c r) ∧
      ((e = EINVAL ∧ 0 < attr_stacksize attr < static_tls_size + MINIMAL_REST_STACK ∧ s' = s) ∨
       e = ENOMEM)
  | inr (pd, top) => ∃ t, rep s' (lists u c (pd :: r)) ∧ pds s' !! pd = Some t ∧
      pd_lock t = 0 ∧ pd_user_stack t = true ∧ pd_stackblock t = attr_stackaddr attr - size ∧
      pd_stackblock_size t = size ∧ pd `mod` (static_tls_align_m1 + 1) = 0 ∧
      pd + sizeof_pthread ≤ attr_stackaddr attr ∧
      top = pd + sizeof_pthread - static_tls_size ∧ roomy t top size
  end.

Lemma aligned_down x m : pow2_m1 m → (x - Z.land x m) `mod` (m + 1) = 0.
Proof.
  intros (k & Hk & ->). replace (2 ^ k - 1 + 1) with (2 ^ k) by lia.
  replace (2 ^ k - 1) with (Z.ones k) by (rewrite Z.ones_equiv; lia).
  pose proof (Z.pow_pos_nonneg 2 k).
  rewrite Z.land_ones, Zminus_mod_idemp_r, Z.sub_diag, Z.mod_0_l by lia. done.
Qed.

Lemma land_bounds x m : pow2_m1 m → 0 ≤ Z.land x m ≤ m.
Proof.
  intros (k & Hk & ->). replace (2 ^ k - 1) with (Z.ones k) by (rewrite Z.ones_equiv; lia).
  rewrite Z.land_ones by done. pose proof (Z.mod_pos_bound x (2 ^ k)).
  pose proof (Z.pow_pos_nonneg 2 k). rewrite Z.ones_equiv. lia.
Qed.

(** The size of a stack the user provided. *)
Definition user_size s attr : Z :=
  if attr_stacksize attr =? 0 then default_stacksize s else attr_stacksize attr.

(** A stack in memory of the user. *)
Record user_request s u c r attr : Prop := {
  ur_flag : has (attr_flags attr) ATTR_FLAG_STACKADDR = true;
  ur_size : 0 ≤ attr_stacksize attr;
  ur_default : attr_stacksize attr = 0 →
    static_tls_size + MINIMAL_REST_STACK ≤ default_stacksize s;
  ur_lo : 0 ≤ attr_stackaddr attr - user_size s attr;
  ur_hi : attr_stackaddr attr < user_top;
  ur_memory : user_memory s u c r (attr_stackaddr attr - user_size s attr) (attr_stackaddr attr);
}.

Lemma wp_allocate_user s u c r attr exec_now exec_later :
  rep s (lists u c r) → stack_cache_lock s = 0 → default_pthread_attr_lock s = 0 →
  user_request s u c r attr →
  wp (allocate_stack attr exec_now exec_later) (user_post s u c r attr (user_size s attr)) s.
Proof.
  intros R Hl Hdl [Hflag Hs0 Hds Hlo Hhi UM]. cbv zeta in *.
  set (size := user_size s attr) in *. assert (Esize : size = user_size s attr) by done.
  unfold allocate_stack.
  do 2 wp_step; [by rewrite page_power|]. do 2 wp_step.
  { apply Z.leb_le, tcb_alignment. }
  wp_step. apply wp_attr_size; [done|]. rewrite Hflag. wp_step. cbv iota.
  fold (user_size s attr). rewrite <- Esize. unfold user_stack. set (sa := attr_stackaddr attr) in *.
  pose proof sizes_bound as (Ha & Hsz1 & Hsz2 & Hsz3). pose proof rest_bound as Hrb.
  rewrite (w64_small (static_tls_size + _)) by (unfold MINIMAL_REST_STACK; w64lia).
  destruct (negb (attr_stacksize attr =? 0) && _) eqn:Echk.
  { apply andb_true_iff in Echk as [E1%negb_true_iff%Z.eqb_neq E2%Z.ltb_lt].
    do 2 wp_step. split_and!; try done. left. split_and!; [done|lia..|done]. }
  assert (Hmin : static_tls_size + MINIMAL_REST_STACK ≤ size).
  { subst size. unfold user_size. destruct (Z.eqb_spec (attr_stacksize attr) 0); [by apply Hds|].
    cbn [negb andb] in Echk. by apply Z.ltb_ge in Echk. }
  unfold user_top in Hhi.
  rewrite (w64_small (sa - TLS_TCB_SIZE)) by w64lia.
  set (adj := Z.land (sa - TLS_TCB_SIZE) static_tls_align_m1).
  pose proof (land_bounds (sa - TLS_TCB_SIZE) _ align_pow2) as Hadj. fold adj in Hadj.
  rewrite (w64_small (adj + _)), (w64_small (sa - TLS_TCB_SIZE - adj)), (w64_small (sa - size))
    by w64lia.
  set (pd := sa - TLS_TCB_SIZE - adj).
  do 2 wp_step; [apply Z.ltb_lt; lia|]. do 2 wp_step. wp_step.
  set (t0 := (new_pd (sa - size) size 0) <| pd_user_stack := true |>).
  assert (Hpd : sa - size ≤ pd < sa) by lia. pose proof list_in_pthread.
  assert (Hlpd : sa - size ≤ list_of pd < sa) by (unfold list_of; lia).
  assert (Hnot : ∀ i, pd ∉ lists u c r i).
  { intros i Hi. destruct (decide (i = User)) as [->|Hne]; [by apply (um_user _ _ _ _ _ _ UM pd)|].
    destruct (rep_live _ _ R i pd Hi) as [t Et].
    apply (um_blocks _ _ _ _ _ _ UM i pd t pd Hne Hi Et Hpd).
    apply (block_pd s), (rep_block _ _ R i); done. }
  assert (Hkept : ∀ t', others_kept s (s <| pds := <[pd := t']> (pds s) |>) (u ++ r)).
  { intros t' q Hq. apply lookup_insert_ne. intros <-.
    apply elem_of_app in Hq as [Hq|Hq]; [by apply (Hnot Used)|by apply (Hnot User)]. }
  eapply wp_allocate_tls; [rs; apply lookup_insert_eq| |].
  2:{ intros k' Hk'. cbn [negb]. do 3 wp_step. wp_step; [done|]. wp_go.
      split_and!; try done; [exact (Hkept _)| |by right]. apply (rep_ext s); try done.
      - intros i q Hq. rs. rewrite lookup_insert_ne; [done|]. intros <-. by apply (Hnot i).
      - intros a Hma. apply Hk'. done. }
  intros k' dtv Hk'. cbn [negb]. wp_step. apply wp_lock_cache; [done|]. wp_go.
  unfold finish_pd. eapply wp_upd_pd; [rs; apply lookup_insert_eq|]. wp_step.
  match goal with |- user_post _ _ _ _ _ _ _ ?x => set (s1 := x) end.
  set (t1 := finished pd (t0 <| pd_dtv := dtv |>)).
  assert (Ep : pds s1 = <[pd := t1]> (pds s)) by (subst s1; rs; by rewrite !insert_insert_eq).
  assert (Eb : pd_stackblock t1 = sa - size ∧ pd_guardsize t1 = 0) by done.
  destruct Eb as [Eb Eg].
  rewrite w64_small by w64lia. unfold user_post.
  split_and!; [done..| |].
  { intros q Hq. rewrite Ep. by apply (Hkept t1). }
  exists t1. split_and!; try done; [|..|lia|].
  - apply (rep_grow_user s _ _ _ _ pd t1 R Hnot); try done.
    + intros Hh. by apply (um_heads _ _ _ _ _ _ UM _ Hh).
    + intros i q tq Hne Hq Eq. split; by apply (um_blocks _ _ _ _ _ _ UM i q tq).
    + apply (um_mapped _ _ _ _ _ _ UM); lia.
    + apply (um_mapped _ _ _ _ _ _ UM); lia.
    + intros x Hx. by apply Hk'.
  - rewrite Ep. apply lookup_insert_eq.
  - apply aligned_down, align_pow2.
  - unfold roomy. rewrite Eb, Eg. lia.
Qed.

(** What both kinds of stack have in common, as [pthread_create] uses it. *)
Definition allocated s u c r (res : Z + ptr * ptr) s' : Prop :=
  stack_cache_lock s' = 0 ∧ config s' = config s ∧ others_kept s s' (u ++ r) ∧ ∃ c',
  match res with
  | inl e => e ≠ 0 ∧ rep s' (lists u c' r)
  | inr (pd, _) => ∃ t, pds s' !! pd = Some t ∧ pd_lock t = 0 ∧
      (rep s' (lists (pd :: u) c' r) ∨ rep s' (lists u c' (pd :: r)))
  end.

Definition request s u c r attr (exec_now exec_later : bool) : Prop :=
  library_request s c attr exec_now exec_later ∨ user_request s u c r attr.

Lemma wp_allocate s u c r attr exec_now exec_later :
  munmap_succeeds (K := K) → rep s (lists u c r) → stack_cache_lock s = 0 →
  default_pthread_attr_lock s = 0 → request s u c r attr exec_now exec_later →
  wp (allocate_stack attr exec_now exec_later) (allocated s u c r) s.
Proof.
  intros Hun R Hl Hdl [Hq|Hq].
  - eapply wp_mono; [by apply wp_allocate_stack|].
    intros res s' (? & ? & ? & c' & _ & H). split_and!; [done..|]. exists c'.
    destruct res as [e|[pd top]]; [split; [lia|apply H]|].
    destruct H as (t & R' & Et & Hlk & _). exists t. split_and!; [done..|by left].
  - eapply wp_mono; [by apply wp_allocate_user|].
    intros res s' (? & ? & ? & H). split_and!; [done..|]. exists c.
    destruct res as [e|[pd top]].
    + destruct H as [R' [[-> _]| ->]]; done.
    + destruct H as (t & R' & Et & Hlk & _). exists t. split_and!; [done..|by right].
Qed.


(** [allocate_stack] on a stack the user provided: [EINVAL] exactly when a size
    was given and is below the minimum, with nothing changed; otherwise the
    descriptor is placed, aligned, at the top end of the user's memory, nothing
    is mapped, the thread goes to the list of user stacks and has the room it
    asked for.  When the TLS cannot be allocated the lists are unchanged. *)
Theorem allocate_user_stack_ok s u c r attr exec_now exec_later :
  rep s (lists u c r) → stack_cache_lock s = 0 → default_pthread_attr_lock s = 0 →
  user_request s u c r attr →
  wp (allocate_stack attr exec_now exec_later) (user_post s u c r attr (user_size s attr)) s.
Proof. apply wp_allocate_user. Qed.

(** the checks on the sizes are those of the comments, computed without
    wrapping: for a guard in the lower half of the address space, [EINVAL] is
    the answer exactly when the rounded sum does not fit a [size_t] or the block
    would be smaller than guard, static TLS and minimal stack in whole pages. *)
Theorem check_size_exact attr size :
  0 ≤ attr_guardsize attr < user_top → is_w64 size →
  check_size attr size =
    let g := round_page (attr_guardsize attr) in
    if (W64 <=? size + g) ||
       (size + g <? round_page (g + static_tls_size + MINIMAL_REST_STACK))
    then None else Some (g, size + g).
Proof.
  intros Hg Hs. unfold check_size. pose proof page_pos. pose proof page_bound.
  pose proof sizes_bound. set (ag := attr_guardsize attr) in *. unfold user_top in Hg.
  rewrite (w64_small (ag + _)) by w64lia. fold (round_page ag).
  pose proof (round_page_bounds ag). set (g := round_page ag) in *.
  destruct (Z.ltb_spec g ag); [lia|]. cbn [orb]. cbv zeta.
  destruct (Z.leb_spec W64 (size + g)) as [Hw|Hw].
  - rewrite (proj2 (Z.ltb_lt _ _)); [done|]. apply w64_add_wraps; [done|w64lia|done].
  - rewrite (w64_small (size + g)) by w64lia.
    destruct (Z.ltb_spec (size + g) g); [w64lia|]. cbn [orb].
    set (mr := MINIMAL_REST_STACK) in *. assert (mr = 4096) by done.
    rewrite (w64_small (g + _)), (w64_small (g + _ + mr)), (w64_small (g + _ + mr + _)) by w64lia.
    done.
Qed.
End Properties.

(** * Examples *)

Section Examples.
Import X86 ListH.

Definition attr_of (flags guard addr size : Z) : pthread_attr :=
  mkAttr 0 0 flags guard addr size None.

(** What a caller sees: an error number, or the size of the block, its guard and
    the room below the static TLS. *)
Definition room (o : outcome (nptl simk) (Z + ptr * ptr)) : option (Z + Z * Z * Z) :=
  match o with
  | Done (inl e) _ => Some (inl e)
  | Done (inr (pd, top)) s =>
      (λ t, inr (pd_stackblock_size t, pd_guardsize t,
                 top - pd_stackblock t - pd_guardsize t)) <$> pds s !! pd
  | Stop _ _ => None
  end.

(** 256 KiB come from the cached 512 KiB block, 64 KiB are mapped afresh (with a
    page more, against aliasing), a size below the minimum is refused. *)
Example alloc_256k : room (allocate_stack (attr_of 0 4096 0 (256 * KiB)) false false demo)
  = Some (inr (512 * KiB, 4096, 516096)).
Proof. by vm_compute. Qed.
Example alloc_64k : room (allocate_stack (attr_of 0 0 0 (64 * KiB)) false false demo)
  = Some (inr (69632, 0, 65536)).
Proof. by vm_compute. Qed.
Example alloc_small : room (allocate_stack (attr_of 0 4096 0 4096) false false demo)
  = Some (inl EINVAL).
Proof. by vm_compute. Qed.

(** With a guard of nearly [2^64] bytes the sum on the right of the check wraps,
    and the block passes although it is smaller than its guard and a stack. *)
Example check_size_wraps :
  check_size (attr_of 0 (W64 - 8192) 0 64) 64 = Some (W64 - 8192, W64 - 8128).
Proof. by vm_compute. Qed.

Lemma demo_guards : guards_ok demo demo_c.
Proof.
  assert (H : map_Forall (λ _ t, pd_guardsize t = 4096) (pds demo)).
  { apply (bool_decide_eq_true_1 (map_Forall (λ _ t, pd_guardsize t = 4096) (pds demo))).
    vm_compute. reflexivity. }
  intros p t _ E. rewrite (H p t E). split; [lia|]. vm_compute. reflexivity.
Qed.


(** The user's memory of the example: the area of [map_area]. *)
Definition user_attr : pthread_attr := attr_of 8 4096 (user_area demo + 65536) 65536.

Lemma demo_user_memory :
  user_memory (map_area demo) demo_u demo_c []
    (attr_stackaddr user_attr - 65536) (attr_stackaddr user_attr).
Proof.
  assert (E : attr_stackaddr user_attr - 65536 = user_area demo) by
    (change (user_area demo + 65536 - 65536 = user_area demo); lia).
  rewrite E. change (attr_stackaddr user_attr) with (user_area demo + 65536).
  pose proof (map_area_rep _ _ rep_demo) as R. split.
  - intros x Hx. apply map_area_mapped. by right.
  - intros h Hh Hx. apply (rep_heads _ _ rep_demo), mapped_below_top in Hh.
    unfold user_area in *. lia.
  - intros i q t x Hi Hq Et Hx Hb.
    destruct (rep_block _ _ rep_demo i q t Hi Hq Et) as [_ _ _ _ _ _ Bm].
    apply Bm, mapped_below_top in Hb. unfold user_area in *. lia.
  - intros q Hq. by apply not_elem_of_nil in Hq.
Qed.

Lemma allocate_user_stack_ok_witness :
  wp (allocate_stack user_attr false false)
     (user_post (map_area demo) demo_u demo_c [] user_attr 65536) (map_area demo).
Proof.
  apply allocate_user_stack_ok;
    [apply map_area_rep, rep_demo | vm_compute; reflexivity | vm_compute; reflexivity|].
  split; [vm_compute; reflexivity | vm_compute; congruence
    | vm_compute; congruence | vm_compute; congruence | vm_compute; reflexivity
    | apply demo_user_memory].
Defined.

Lemma check_size_exact_witness :
  check_size (attr_of 0 4096 0 65536) 65536 = Some (4096, 69632).
Proof.
  rewrite check_size_exact; [vm_compute; reflexivity | vm_compute; split; congruence
  | vm_compute; split; congruence].
Defined.

(** a defect.  Another thread makes stacks executable while a new block is being
    prepared, and the system refuses executable memory: [allocate_stack] unmaps
    the block it has just put in the list of stacks in use and returns the
    error, so the head of that list points into memory that is not mapped (and
    the TLS of the thread is not freed).  The state is that of a program with
    empty lists. *)
Theorem exec_race_dangles :
  ∃ p, match allocate_stack (attr_of 0 4096 0 (256 * KiB)) false true
              (s_init <| kern := (kern s_init) <| no_exec := true |> |>) with
       | Done res s' => res = inl EACCES ∧
           nxt (links s') stack_used = Some (list_of p) ∧ links s' !! list_of p = None ∧
           pds s' !! p = None ∧ is_mapped (events (kern s')) (list_of p) = false
       | Stop _ _ => False
       end.
Proof. exists 272128. vm_compute. repeat split. Qed.
End Examples.
