(* ===== verification/Reclaim.v ===== *)
(** [__reclaim_stacks] ([allocatestack.c]): the thread lists in the child of a fork.

    The fork may have interrupted a list operation of another thread at any
    store; [in_flight_stack] says which element was being added or removed.  The
    function repairs the lists, marks the stacks of the other threads as free and
    moves them to the cache. *)
From S2P Require Import Prelude ListHead Nptl Sim StackCache Demo StackCacheProofs.

Section Defs.
Context {K : Type} {PF : Platform} {LA : ListApi}.

Definition load_link (p : ptr) : M (nptl K) list_t :=
  m ← gets links; from_option_or Fault (m !! p).
Definition store_link (w : write) : M (nptl K) () :=
  modify (λ s, s <| links := do_write w (links s) |>).

(** The list whose head is inconsistent, if any. *)
Definition broken_list : M (nptl K) (option ptr) :=
  un ← load_link stack_used;
  up ← load_link (next un);
  if negb (prev up =? stack_used) then mret (Some stack_used)
  else
    cn ← load_link stack_cache;
    cp ← load_link (next cn);
    if negb (prev cp =? stack_cache) then mret (Some stack_cache) else mret None.

Definition repair_lists : M (nptl K) () :=
  in_flight ← gets in_flight_stack;
  if in_flight =? 0 then mret ()
  else
    let add_p := negb (Z.land in_flight 1 =? 0) in
    let elem := in_flight &~ 1 in
    if add_p then
      l ← broken_list;
      match l with
      | None => mret ()
      | Some l =>
          lh ← load_link l;
          ln ← load_link (next lh);
          assert (prev ln =? elem);;
          store_link (WNext elem (next lh));;
          store_link (WPrev elem l);;
          store_link (WNext l elem)
      end
    else
      e ← load_link elem;
      store_link (WPrev (next e) (prev e));;
      e ← load_link elem;
      store_link (WNext (prev e) (next e)).

(** Clear the thread-specific data of a descriptor; blocks of the second level stay
    allocated and keep the [specific_used] bit set. *)
Definition clear_specific (t : pthread) : pthread :=
  t <| pd_specific_1stblock := zero_block |>
    <| pd_specific_used :=
         existsb (λ sp, match sp with SNull => false | _ => true end) (tail (pd_specific t)) |>
    <| pd_specific :=
         match pd_specific t with
         | [] => []
         | first :: rest =>
             first :: ((λ sp, match sp with SHeap _ => SHeap zero_block | _ => sp end) <$> rest)
         end |>.

(** The body of the loop over the stacks in use. *)
Definition reclaim_one (self : ptr) (runp : ptr) : M (nptl K) () :=
  let curp := list_entry runp in
  if curp =? self then mret ()
  else
    upd_pd curp (λ t, t <| pd_tid := 0 |>);;
    t ← load_pd curp;
    modify (λ s, s <| stack_cache_actsize :=
                      stack_cache_actsize s +w pd_stackblock_size t |>);;
    when (pd_specific_used t) (upd_pd curp clear_specific).

(** The lists of the one thread that is left. *)
Definition relist_self (self : ptr) : M (nptl K) () :=
  modify (λ s, s <| links := list_splice stack_used stack_cache (links s) |>);;
  stack_list_del (list_of self);;
  modify (λ s, s <| links := INIT_LIST_HEAD stack_used (links s) |>);;
  modify (λ s, s <| links := INIT_LIST_HEAD stack_user (links s) |>);;
  t ← load_pd self;
  (if pd_user_stack t then
     modify (λ s, s <| links := list_add (list_of self) stack_user (links s) |>)
   else
     modify (λ s, s <| links := list_add (list_of self) stack_used (links s) |>)).

Definition reclaim_stacks (self : ptr) : M (nptl K) () :=
  repair_lists;;
  used ← gets (λ s, list_for_each (links s) stack_used);
  mfor used (reclaim_one self);;
  relist_self self;;
  modify (λ s, s <| nptl_nthreads := 1 |>);;
  modify (λ s, s <| in_flight_stack := 0 |>);;
  unlock_cache;;
  unlock_default_attr.
End Defs.

(** * What a fork can interrupt *)

(** An element the library links: an aligned address that is not a list head. *)
Definition elem_ok `{Platform} (e : ptr) : Prop :=
  0 < list_of e ∧ Z.even (list_of e) = true ∧ list_of e ∉ heads.

(** [interrupted m0 u c r m fl L]: the lists were [u], [c] and [r] in memory [m0];
    another thread was between two stores of a list operation when the memory was
    [m] and [in_flight_stack] was [fl]; [L] are the lists when the operation is
    completed, or forgotten if it had only written to the element itself.  Adding a
    stack of the user's does not set [in_flight_stack]: the child forgets it. *)
Inductive interrupted `{Platform, ListApi} (m0 : lmem) (u c r : list ptr)
    : lmem → Z → (which → list ptr) → Prop :=
  | Quiet : interrupted m0 u c r m0 0 (lists u c r)
  | AddLost i e m :
      i ≠ User → elem_ok e → (∀ j, e ∉ lists u c r j) →
      add_interrupted (list_of e) (head_of i) m0 m →
      (∀ p, p ≠ list_of e → m !! p = m0 !! p) →
      interrupted m0 u c r m (Z.lor (list_of e) 1) (lists u c r)
  | AddDone i e m L :
      i ≠ User → elem_ok e → (∀ j, e ∉ lists u c r j) →
      add_interrupted (list_of e) (head_of i) m0 m →
      ¬ (∀ p, p ≠ list_of e → m !! p = m0 !! p) →
      L i = e :: lists u c r i → (∀ j, j ≠ i → L j = lists u c r j) →
      interrupted m0 u c r m (Z.lor (list_of e) 1) L
  | DelDone i e l1 l2 m L :
      elem_ok e → del_interrupted (list_of e) m0 m →
      lists u c r i = l1 ++ e :: l2 →
      L i = l1 ++ l2 → (∀ j, j ≠ i → L j = lists u c r j) →
      interrupted m0 u c r m (list_of e) L
  | AddUser e m :
      elem_ok e → (∀ j, e ∉ lists u c r j) →
      add_interrupted (list_of e) stack_user m0 m →
      interrupted m0 u c r m 0 (lists u c r).

(** Where the thread finds itself afterwards. *)
Definition reclaimed_lists (self : ptr) (us : bool) (L : which → list ptr) : which → list ptr :=
  lists (if us then [] else [self]) (filter (λ p, p ≠ self) (L Used) ++ L Cache)
        (if us then [self] else []).
Definition reclaimed `{Platform} (t : pthread) : pthread :=
  let t := t <| pd_tid := 0 |> in
  if pd_specific_used t then clear_specific t else t.

Section Proofs.
Context {K : Type} {PF : Platform} {PL : PlatformLaws} {LA : ListApi} {LL : ListLaws}.
Implicit Types (s : nptl K) (u c r : list ptr) (L : which → list ptr).

Lemma even_land x : Z.even x = true → Z.land x 1 = 0.
Proof.
  intros E. change 1 with (Z.ones 1). rewrite Z.land_ones by lia.
  change (2 ^ 1) with 2. rewrite Zmod_even, E. done.
Qed.

Lemma in_flight_add x :
  0 < x → Z.even x = true →
  Z.lor x 1 ≠ 0 ∧ Z.land (Z.lor x 1) 1 ≠ 0 ∧ (Z.lor x 1) &~ 1 = x.
Proof.
  intros Hx E. pose proof (Z.add_lor_land x 1) as A. rewrite (even_land x E), Z.add_0_r in A.
  rewrite A. apply Z.even_spec in E as [y ->]. split_and!; [lia| |].
  - change 1 with (Z.ones 1) at 2. rewrite Z.land_ones by lia. change (2 ^ 1) with 2.
    rewrite Z.add_comm, Z.mul_comm, Z_mod_plus_full. done.
  - rewrite mask_sub by (exists 1; done). change (1 + 1) with 2.
    rewrite (Z.add_comm (2 * y)), Z.mul_comm at 2. rewrite Z_mod_plus_full.
    change (1 `mod` 2) with 1. lia.
Qed.

Lemma in_flight_del x :
  0 < x → Z.even x = true → x ≠ 0 ∧ Z.land x 1 = 0 ∧ x &~ 1 = x.
Proof.
  intros Hx E. split_and!; [lia|by apply even_land|]. apply mask_of_aligned; [by exists 1|].
  change (1 + 1) with 2. by rewrite Zmod_even, E.
Qed.

Lemma wp_load_link p l (Q : list_t → nptl K → Prop) s :
  links s !! p = Some l → Q l s → wp (load_link p) Q s.
Proof. intros E HQ. unfold load_link. wp_go. by rewrite E. Qed.

(** A consistent ring passes the test of [broken_list]. *)
Lemma ring_head_ok m h l :
  ring m h l → ∃ lh ln, m !! h = Some lh ∧ m !! (next lh) = Some ln ∧ prev ln = h.
Proof.
  intros R. pose proof (ring_nxt _ _ _ R) as E1. pose proof (ring_prv_first _ _ _ R) as E2.
  unfold nxt, prv in *. destruct (m !! h) as [lh|]; [|done]. cbn in E1.
  injection E1 as E1. exists lh. rewrite E1. destruct (m !! hd h l) as [ln|]; [|done].
  cbn in E2. injection E2 as E2. by exists ln.
Qed.

Lemma wp_broken_none s L :
  rings (links s) L → wp broken_list (λ b s', b = None ∧ s' = s) s.
Proof.
  intros R. unfold broken_list.
  destruct (ring_head_ok _ _ _ (rings_ring _ _ R Used)) as (lh & ln & E1 & E2 & E3).
  destruct (ring_head_ok _ _ _ (rings_ring _ _ R Cache)) as (lh' & ln' & E1' & E2' & E3').
  cbn [head_of] in *.
  wp_step. eapply wp_load_link; [done|]. wp_step. eapply wp_load_link; [done|].
  rewrite E3, Z.eqb_refl. cbn [negb]. wp_step. eapply wp_load_link; [done|].
  wp_step. eapply wp_load_link; [done|]. rewrite E3', Z.eqb_refl. cbn [negb]. by wp_step.
Qed.

(** The memory between the second and the third store of [list_add]. *)
Lemma add_back_facts m h l e :
  ring m h l → e ∉ h :: l →
  ∃ lh ln, add_back e h m !! h = Some lh ∧ next lh = hd h l ∧
    add_back e h m !! hd h l = Some ln ∧ prev ln = e ∧
    add_back e h m !! e = Some (mkList (hd h l) h).
Proof.
  intros R He. unfold add_back. pose proof (ring_nxt _ _ _ R) as En.
  pose proof (nxt_lget _ _ _ En) as En'. rewrite En'.
  assert (Hd : hd h l ≠ e) by (destruct l; set_solver).
  assert (Hh : h ≠ e) by set_solver.
  assert (Eo : ∀ p, p ≠ e → lget (add_own e h m) p = lget m p).
  { intros p Hp. unfold lget. by rewrite add_own_frame. }
  assert (Ee : add_own e h m !! e = Some (mkList (hd h l) h)).
  { unfold add_own. by rewrite lookup_insert_eq, En'. }
  cbn [do_write]. set (b := (lget (add_own e h m) (hd h l)) <| prev := e |>).
  assert (Hb : next b = next (lget m (hd h l))) by (unfold b; rs; by rewrite Eo).
  destruct (decide (hd h l = h)) as [E|Hne].
  - exists b, b. rewrite E in *.
    rewrite lookup_insert_eq, lookup_insert_ne by done. rewrite Hb, En'.
    split_and!; done.
  - unfold nxt in En. destruct (m !! h) as [lh|] eqn:Emh; [|done].
    exists lh, b. rewrite (lookup_insert_ne _ (hd h l) h) by done.
    rewrite lookup_insert_eq, add_own_frame, Emh, lookup_insert_ne by done.
    split_and!; try done. cbn in En. congruence.
Qed.

Lemma add_back_frame m h l e p :
  ring m h l → p ≠ e → p ∉ h :: l → add_back e h m !! p = m !! p.
Proof.
  intros R Hp Hn. unfold add_back. rewrite (nxt_lget _ _ _ (ring_nxt _ _ _ R)).
  rewrite do_write_frame by (cbn; destruct l; set_solver). by apply add_own_frame.
Qed.

Lemma own_rewritten m e a h :
  m !! e = Some (mkList a h) → do_write (WPrev e h) (do_write (WNext e a) m) = m.
Proof.
  intros E. cbn. unfold lget. rewrite lookup_insert_eq, E, insert_insert_eq. by apply insert_id.
Qed.

Lemma do_writes_some ws m p : is_Some (m !! p) → is_Some (do_writes ws m !! p).
Proof.
  revert m. induction ws as [|w ws IH]; intros m Hp; [done|]. apply IH.
  destruct w as [q v|q v]; cbn; destruct (decide (q = p)) as [->|Hne];
    rewrite ?lookup_insert_eq, ?lookup_insert_ne by done; eauto.
Qed.

(** Finding the broken list, and finishing the insertion. *)
Lemma wp_broken_some s m L i e :
  rings m L → i ≠ User → (∀ j, list_of e ∉ head_of j :: (list_of <$> L j)) →
  links s = add_back (list_of e) (head_of i) m →
  wp broken_list (λ b s', b = Some (head_of i) ∧ s' = s) s.
Proof.
  intros R Hi He El. unfold broken_list.
  destruct (add_back_facts _ _ _ _ (rings_ring _ _ R i) (He i)) as (lh & ln & E1 & E2 & E3 & E4 & _).
  assert (Hne : list_of e ≠ head_of i) by (specialize (He i); set_solver).
  destruct (decide (i = Used)) as [->|Hiu]; cbn [head_of] in *.
  - wp_step. eapply wp_load_link; [rewrite El; exact E1|]. rewrite E2.
    wp_step. eapply wp_load_link; [rewrite El; exact E3|]. rewrite E4.
    destruct (Z.eqb_spec (list_of e) stack_used); [done|]. cbn [negb]. by wp_step.
  - assert (i = Cache) as -> by (by destruct i). cbn [head_of] in *.
    assert (Ru : ring (links s) stack_used (list_of <$> L Used)).
    { eapply ring_frame, (rings_ring _ _ R Used). intros x Hx. rewrite El.
      apply (add_back_frame _ _ _ _ _ (rings_ring _ _ R Cache)).
      - intros ->. by apply (He Used).
      - by apply (rings_apart m L Used Cache). }
    destruct (ring_head_ok _ _ _ Ru) as (ul & un & U1 & U2 & U3).
    wp_step. eapply wp_load_link; [done|]. wp_step. eapply wp_load_link; [done|].
    rewrite U3, Z.eqb_refl. cbn [negb].
    wp_step. eapply wp_load_link; [rewrite El; exact E1|]. rewrite E2.
    wp_step. eapply wp_load_link; [rewrite El; exact E3|]. rewrite E4.
    destruct (Z.eqb_spec (list_of e) stack_cache); [done|]. cbn [negb]. by wp_step.
Qed.

(** What the repair leaves: the lists of used and of cached stacks are sound.  The list
    of the user's stacks may be torn, but its elements do not point into the others. *)
Record recovered m L : Prop := {
  rc_ring i : i ≠ User → ring m (head_of i) (list_of <$> L i);
  rc_disj i j p : i ≠ j → p ∈ L i → p ∉ L j;
  rc_heads i p : p ∈ L i → list_of p ∉ heads;
  rc_user p i x : p ∈ L User → i ≠ User →
    x = next (lget m (list_of p)) ∨ x = prev (lget m (list_of p)) → x ∉ head_of i :: (list_of <$> L i);
}.
Lemma user_links m L p x : rings m L → p ∈ L User →
  x = next (lget m (list_of p)) ∨ x = prev (lget m (list_of p)) → x ∈ stack_user :: (list_of <$> L User).
Proof.
  intros R (l1 & l2 & E)%list_elem_of_split. pose proof (rings_ring _ _ R User) as Rr. cbn [head_of] in Rr.
  rewrite E, fmap_app, fmap_cons in Rr |- *. destruct (ring_middle _ _ _ _ _ Rr) as [-> ->].
  intros [-> | ->].
  - destruct (list_of <$> l2); cbn [hd]; set_solver.
  - destruct (list_of <$> l1) as [|y l _] using rev_ind; [cbn; set_solver|]. rewrite last_last. set_solver.
Qed.
Lemma rings_recovered m L : rings m L → recovered m L.
Proof.
  intros R. split; [intros i _; apply R|apply R|apply R|].
  intros p i x Hp Hi Hx. apply (rings_apart m L User i); [done|congruence|]. by eapply user_links.
Qed.
Lemma recovered_apart m L i j x : recovered m L → i ≠ j → x ∈ head_of i :: (list_of <$> L i) →
  x ∉ head_of j :: (list_of <$> L j).
Proof.
  intros R Hij. rewrite !elem_of_cons, !list_elem_of_fmap.
  intros [->|(p & -> & Hp)] [E|(q & E & Hq)].
  - by apply Hij, head_of_inj.
  - apply (rc_heads _ _ R j q Hq). rewrite <- E. apply head_of_heads.
  - apply (rc_heads _ _ R i p Hp). rewrite E. apply head_of_heads.
  - apply (inj list_of) in E as <-. by apply (rc_disj _ _ R i j p).
Qed.
Lemma rc_nodup m L i : recovered m L → i ≠ User → NoDup (L i).
Proof.
  intros R Hi. destruct (rc_ring _ _ R i Hi) as [N _]. apply NoDup_cons in N as [_ N]. by apply NoDup_fmap_1 in N.
Qed.
Lemma lget_WPrev m a v x : lget (do_write (WPrev a v) m) x = if decide (a = x) then (lget m x) <| prev := v |> else lget m x.
Proof. unfold lget at 1. cbn [do_write]. rewrite lookup_insert. by case_decide; [subst|]. Qed.
(** A stack that was being added to those of the user. *)
Lemma add_user_recovered m0 m L e : rings m0 L → elem_ok e → (∀ j, e ∉ L j) →
  add_interrupted (list_of e) stack_user m0 m → recovered m L.
Proof.
  intros R (_ & _ & Hh) Hn Hadd. pose proof (rings_ring _ _ R User) as Rr. cbn [head_of] in Rr.
  assert (He : ∀ j, list_of e ∉ head_of j :: (list_of <$> L j)).
  { intros j. rewrite elem_of_cons, list_elem_of_fmap. intros [E|(q & E & Hq)].
    - apply Hh. rewrite E. apply head_of_heads.
    - apply (inj list_of) in E as <-. by apply (Hn j). }
  assert (Hfirst : hd stack_user (list_of <$> L User) ∈ stack_user :: (list_of <$> L User))
    by (destruct (list_of <$> L User); set_solver).
  assert (Hf : ∀ x, x ≠ list_of e → x ∉ stack_user :: (list_of <$> L User) → m !! x = m0 !! x).
  { intros x Hx Hu. destruct (add_interrupted_shapes _ _ _ _ Hadd) as [Hs|[-> | ->]]; [by apply Hs| |].
    - by apply (add_back_frame _ _ _ _ _ Rr).
    - by eapply list_add_frame. }
  assert (Hl : ∀ x, x ≠ list_of e → x ≠ stack_user →
    next (lget m x) = next (lget m0 x) ∧ (prev (lget m x) = prev (lget m0 x) ∨ prev (lget m x) = list_of e)).
  { intros x Hx Hu. destruct (add_interrupted_shapes _ _ _ _ Hadd) as [Hs|E].
    { unfold lget. rewrite Hs by done. auto. }
    assert (E' : lget m x = lget (add_back (list_of e) stack_user m0) x).
    { destruct E as [-> | ->]; [done|]. rewrite list_add_eq. unfold lget. by rewrite do_write_frame. }
    assert (Eo : lget (add_own (list_of e) stack_user m0) x = lget m0 x) by (unfold lget; by rewrite add_own_frame).
    rewrite E'. unfold add_back. rewrite lget_WPrev. case_decide; rewrite ?Eo; cbn; auto. }
  split; [|apply R|apply R|].
  - intros i Hi. eapply ring_frame, (rings_ring _ _ R i). intros x Hx. apply Hf.
    + intros ->. by apply (He i).
    + apply (rings_apart m0 L i User); [done|done|done].
  - intros p i x Hp Hi Hx. destruct (Hl (list_of p)) as [E1 E2].
    + intros E. apply (inj list_of) in E as ->. by apply (Hn User).
    + intros E. apply (rings_heads _ _ R User p Hp). rewrite E. apply (head_of_heads User).
    + rewrite E1 in Hx. destruct E2 as [E2|E2]; rewrite E2 in Hx.
      * apply (rings_apart m0 L User i); [done|congruence|]. by eapply user_links.
      * destruct Hx as [Hx| ->]; [|apply He]. apply (rings_apart m0 L User i); [done|congruence|].
        eapply user_links; eauto.
Qed.

(** The repair of an operation that was recorded gives the lists of [interrupted]. *)
Lemma wp_repair_rings s m0 u c r L :
  rings m0 (lists u c r) → interrupted m0 u c r (links s) (in_flight_stack s) L → in_flight_stack s ≠ 0 →
  wp repair_lists (λ _ s', ∃ m', s' = s <| links := m' |> ∧ rings m' L) s.
Proof.
  intros R0 Hint Hfl. unfold repair_lists. wp_step. wp_step. cbv beta.
  remember (links s) as m eqn:Em. remember (in_flight_stack s) as fl eqn:Efl.
  assert (Es : s = s <| links := m |>) by (rewrite Em; by destruct s).
  assert (Hfresh : ∀ e, elem_ok e → (∀ j, e ∉ lists u c r j) →
            ∀ j, list_of e ∉ head_of j :: (list_of <$> lists u c r j)).
  { intros e (_ & _ & Hh) Hn j. rewrite elem_of_cons, list_elem_of_fmap.
    intros [E|(q & E & Hq)].
    - apply Hh. rewrite E. apply head_of_heads.
    - apply (inj list_of) in E as <-. by apply (Hn j). }
  destruct Hint as [|i e m Hi Hok Hn Hadd Hsame|i e m L Hi Hok Hn Hadd Hdiff HL HL'|
                    i e l1 l2 m L Hok Hdel Hl HL HL'|]; [done| | | |done].
  - destruct (in_flight_add (list_of e)) as (N1 & N2 & N3); [apply Hok..|].
    rewrite (proj2 (Z.eqb_neq _ _) N1), (proj2 (Z.eqb_neq _ _) N2). cbn [negb].
    assert (R : rings m (lists u c r)).
    { apply (rings_frame m0); [|done]. intros x Hx. apply Hsame. intros ->.
      destruct Hx as [Hx|(j & p & Hp & Ep)]; [by apply Hok|].
      apply (inj list_of) in Ep as ->. by apply (Hn j). }
    wp_step. eapply wp_mono; [apply (wp_broken_none s (lists u c r)); by rewrite <- Em|].
    intros b s' [-> ->]. wp_step. exists m. split; [exact Es|exact R].
  - destruct (in_flight_add (list_of e)) as (N1 & N2 & N3); [apply Hok..|].
    rewrite (proj2 (Z.eqb_neq _ _) N1), (proj2 (Z.eqb_neq _ _) N2), N3. cbn [negb].
    assert (RL : rings (list_add (list_of e) (head_of i) m0) L).
    { apply (rings_add i m0 (lists u c r)); try done. apply Hok. }
    destruct (add_interrupted_shapes _ _ _ _ Hadd) as [Hs|[Eb|Eb]]; [done| |].
    + wp_step. eapply wp_mono; [apply (wp_broken_some s m0 (lists u c r) i e); eauto; congruence|].
      intros b s' [-> ->].
      destruct (add_back_facts _ _ _ _ (rings_ring _ _ R0 i) (Hfresh e Hok Hn i))
        as (lh & ln & E1 & E2 & E3 & E4 & E5). rewrite <- Eb in E1, E3, E5.
      wp_step. eapply wp_load_link; [rewrite <- Em; exact E1|]. rewrite E2.
      wp_step. eapply wp_load_link; [rewrite <- Em; exact E3|].
      do 2 wp_step; [by apply Z.eqb_eq|]. unfold store_link. wp_go.
      eexists. split; [reflexivity|]. rs. rewrite <- Em. rewrite list_add_eq, <- Eb in RL.
      by rewrite own_rewritten.
    + wp_step. eapply wp_mono; [apply (wp_broken_none s L); by rewrite <- Em, Eb|].
      intros b s' [-> ->]. wp_step. exists m. split; [done|]. by rewrite Eb.
  - destruct (in_flight_del (list_of e)) as (N1 & N2 & N3); [apply Hok..|].
    rewrite (proj2 (Z.eqb_neq _ _) N1), N2, N3. cbn [negb Z.eqb].
    assert (RL : rings (list_del (list_of e) m0) L)
      by (eapply (rings_del i m0 (lists u c r)); eauto).
    pose proof (rings_ring _ _ R0 i) as Ri. rewrite Hl, fmap_app, fmap_cons in Ri.
    destruct (del_interrupted_replay _ _ _ _ _ _ Ri Hdel) as [Eg Erep].
    destruct (ring_middle _ _ _ _ _ Ri) as [Enx _].
    assert (Hne : next (lget m0 (list_of e)) ≠ list_of e).
    { rewrite Enx. destruct Ri as [Hnd _]. apply NoDup_cons in Hnd as [Hh Hnd].
      apply NoDup_app in Hnd as (_ & _ & Hnd). apply NoDup_cons in Hnd as [Hnd _].
      destruct (list_of <$> l2); set_solver. }
    assert (Hx : m !! list_of e = Some (lget m0 (list_of e))).
    { rewrite <- Eg. unfold lget. destruct Hdel as [n ->].
      destruct (do_writes_some (take n (list_del_writes m0 (list_of e))) m0 (list_of e))
        as [x ->]; [|done]. apply (ring_mapped _ _ _ _ Ri). set_solver. }
    wp_step. eapply wp_load_link; [rewrite <- Em; exact Hx|]. unfold store_link.
    do 2 wp_step. wp_step. eapply wp_load_link.
    { rs. rewrite <- Em, do_write_frame by (cbn; done). exact Hx. }
    wp_go. eexists. split; [reflexivity|]. rs. rewrite <- Em. by rewrite Erep.
Qed.

(** The repair gives the lists of [interrupted]. *)
Lemma wp_repair s m0 u c r L :
  rings m0 (lists u c r) → interrupted m0 u c r (links s) (in_flight_stack s) L →
  wp repair_lists (λ _ s', ∃ m', s' = s <| links := m' |> ∧ recovered m' L) s.
Proof.
  intros R0 Hint.
  assert (Es : s = s <| links := links s |>) by (by destruct s).
  destruct (decide (in_flight_stack s = 0)) as [E0|E0].
  - unfold repair_lists. wp_step. wp_step. rewrite E0. change (0 =? 0) with true. cbv iota. wp_step.
    exists (links s). split; [exact Es|].
    remember (links s) as m eqn:Em. remember (in_flight_stack s) as fl eqn:Efl.
    destruct Hint as [|i e m Hi Hok|i e m L Hi Hok|i e l1 l2 m L Hok|e m Hok Hn Hadd].
    + by apply rings_recovered.
    + by destruct (in_flight_add (list_of e)) as (N1 & _); [apply Hok..|].
    + by destruct (in_flight_add (list_of e)) as (N1 & _); [apply Hok..|].
    + by destruct (in_flight_del (list_of e)) as (N1 & _); [apply Hok..|].
    + by eapply add_user_recovered.
  - eapply wp_mono; [by apply (wp_repair_rings s m0 u c r L)|].
    intros [] s' (m' & -> & R). exists m'. split; [done|by apply rings_recovered].
Qed.

(** ** Marking the stacks of the other threads *)

Lemma wp_mark self l : ∀ s,
  NoDup l → (∀ p, p ∈ l → is_Some (pds s !! p)) → is_w64 (stack_cache_actsize s) →
  wp (mfor (list_of <$> l) (reclaim_one self)) (λ _ s', ∃ ds a,
    s' = s <| pds := ds |> <| stack_cache_actsize := a |> ∧
    a = stack_cache_actsize s +w cached_size (pds s) (filter (λ p, p ≠ self) l) ∧
    (∀ p t, p ∈ l → p ≠ self → pds s !! p = Some t → ds !! p = Some (reclaimed t)) ∧
    (∀ p, p ∉ l ∨ p = self → ds !! p = pds s !! p)) s.
Proof.
  induction l as [|p l IH]; intros s Hnd Hl Hw.
  { cbn [fmap list_fmap mfor]. wp_step. exists (pds s), (stack_cache_actsize s).
    split_and!; [by destruct s| |set_solver|done].
    cbn. rewrite Z.add_0_r. by rewrite w64_small. }
  cbn [fmap list_fmap mfor]. apply NoDup_cons in Hnd as [Hp Hnd].
  destruct (Hl p ltac:(set_solver)) as [t Et].
  rewrite filter_cons. wp_step. unfold reclaim_one at 1. rewrite list_entry_of.
  destruct (Z.eqb_spec p self) as [->|Hne].
  - rewrite decide_False by (intros H; by apply H). wp_step.
    eapply wp_mono; [apply IH; set_solver|].
    intros [] s' (ds & a & -> & -> & H1 & H2). exists ds. eexists.
    split_and!; [done|done| |].
    + intros q tq [->|Hq]%elem_of_cons Hqs; [done|]. by apply H1.
    + intros q Hq. apply H2. set_solver.
  - rewrite decide_True by done. cbn [cached_size]. wp_step.
    eapply wp_upd_pd; [exact Et|]. wp_step. eapply wp_load_pd; [rs; apply lookup_insert_eq|].
    set (t0 := t <| pd_tid := 0 |>). do 2 wp_step.
    apply (wp_mono _ (λ _ s2, s2 = s <| pds := <[p := reclaimed t]> (pds s) |>
      <| stack_cache_actsize := stack_cache_actsize s +w pd_stackblock_size t |>)).
    { unfold reclaimed. fold t0. wp_step. wp_step.
      - eapply wp_upd_pd; [rs; apply lookup_insert_eq|]. rewrite H.
        rewrite <- (insert_insert_eq (pds s) p (clear_specific t0) t0). reflexivity.
      - wp_step. by rewrite H. }
    intros _ s2 ->. eapply wp_mono.
    { apply IH; [done| |apply w64_range]. intros q Hq. rs.
      destruct (decide (q = p)) as [->|Hqp]; [by rewrite lookup_insert_eq|].
      rewrite lookup_insert_ne by done. set_solver. }
    intros [] s' (ds & a & -> & -> & H1 & H2). rs in H1. rs in H2.
    exists ds. eexists. split_and!; [reflexivity| | |].
    + rs. rewrite w64_add_l. unfold size_of. rewrite Et, Z.add_assoc. do 2 f_equal.
      apply cached_size_ext. intros q Hq. rewrite lookup_insert_ne; [done|].
      intros <-. apply list_elem_of_filter in Hq as [_ Hq]. done.
    + intros q tq Hq Hqs Eq. destruct (decide (q = p)) as [->|Hqp].
      * rewrite H2 by (by left). rewrite lookup_insert_eq. congruence.
      * apply H1; [set_solver|done|]. by rewrite lookup_insert_ne.
    + intros q Hq. destruct (decide (q = p)) as [->|Hqp]; [set_solver|].
      rewrite H2 by set_solver. by rewrite lookup_insert_ne.
Qed.

(** ** The lists of the child *)

Lemma filter_self u1 self u2 :
  NoDup (u1 ++ self :: u2) → filter (λ p, p ≠ self) (u1 ++ self :: u2) = u1 ++ u2.
Proof.
  intros N. rewrite filter_app, filter_cons, decide_False by (intros H; by apply H).
  assert (Hf : ∀ l : list ptr, self ∉ l → filter (λ p, p ≠ self) l = l).
  { intros l Hl. induction l as [|x l IH]; [done|]. rewrite filter_cons, decide_True by set_solver.
    f_equal. apply IH. set_solver. }
  apply NoDup_app in N as (_ & N1 & N2). apply NoDup_cons in N2 as [N2 _].
  rewrite !Hf; [done|done|]. set_solver.
Qed.

Lemma filter_other (self : ptr) (l : list ptr) : self ∉ l → filter (λ p, p ≠ self) l = l.
Proof.
  intros Hl. induction l as [|x l IH]; [done|]. rewrite filter_cons, decide_True by set_solver.
  f_equal. apply IH. set_solver.
Qed.

(** A head no list uses any more is made the head of an empty list. *)
Lemma init_other m h h' l : ring m h l → h' ∉ h :: l → ring (INIT_LIST_HEAD h' m) h l.
Proof.
  intros R Hn. eapply ring_frame, R. intros p Hp. apply init_frame. intros ->. done.
Qed.

Lemma add_other m h l h' l' e :
  ring m h l → ring m h' l' → e ∉ h :: l → (∀ p, p ∈ h :: l → p ∉ h' :: l') →
  ring (list_add e h' m) h l.
Proof.
  intros R R' He Hd. eapply ring_frame, R. intros p Hp.
  eapply list_add_frame; [exact R'| |by apply Hd]. intros ->. done.
Qed.

Lemma rings_lists m u c r :
  ring m stack_used (list_of <$> u) → ring m stack_cache (list_of <$> c) →
  ring m stack_user (list_of <$> r) → NoDup (u ++ c ++ r) →
  (∀ p, p ∈ u ++ c ++ r → list_of p ∉ heads) → rings m (lists u c r).
Proof.
  intros Ru Rc Rr N Hh. rewrite !NoDup_app in N. destruct N as (_ & N1 & _ & N2 & _).
  split.
  - by intros [].
  - intros [] [] p; cbn; try done; intros H1 H2; set_solver.
  - intros [] p Hp; apply Hh; cbn in Hp; set_solver.
Qed.

(** Splicing the used stacks into the cache. *)
Lemma splice_recovered m L : recovered m L →
  let m' := list_splice stack_used stack_cache m in
  ring m' stack_cache (list_of <$> (L Used ++ L Cache)) ∧ ∀ p, p ∈ L User → m' !! list_of p = m !! list_of p.
Proof.
  intros R m'. pose proof (rc_ring _ _ R Used ltac:(done)) as Ru. pose proof (rc_ring _ _ R Cache ltac:(done)) as Rc.
  cbn [head_of] in Ru, Rc.
  assert (N : NoDup (stack_used :: (list_of <$> L Used) ++ stack_cache :: (list_of <$> L Cache))).
  { change (NoDup ((stack_used :: (list_of <$> L Used)) ++ stack_cache :: (list_of <$> L Cache))).
    apply NoDup_app. split_and!; [apply Ru| |apply Rc]. intros x Hx. by apply (recovered_apart m L Used Cache x R). }
  split.
  - rewrite fmap_app. by apply splice_ring.
  - intros p Hp. eapply splice_frame; [exact Ru|exact Rc|done|].
    assert (Hn : ∀ i, i ≠ User → list_of p ∉ head_of i :: (list_of <$> L i)).
    { intros i Hi. apply (recovered_apart m L User i); [done|congruence|]. apply elem_of_cons. right. by apply list_elem_of_fmap_2. }
    pose proof (Hn Used ltac:(done)). pose proof (Hn Cache ltac:(done)). cbn [head_of] in *. set_solver.
Qed.

(** From the cache ring alone to the three lists. *)
Lemma relist_end m c self (us : bool) :
  ring m stack_cache (list_of <$> c) → NoDup c → self ∉ c →
  (∀ p, p ∈ self :: c → list_of p ∉ heads) →
  rings (list_add (list_of self) (if us then stack_user else stack_used)
           (INIT_LIST_HEAD stack_user (INIT_LIST_HEAD stack_used m)))
        (lists (if us then [] else [self]) c (if us then [self] else [])).
Proof.
  intros Rc N Hs Hh.
  assert (Hheads : ∀ h, h ∈ heads → h ∉ list_of <$> (self :: c)).
  { intros h Hhh (p & -> & Hp)%list_elem_of_fmap. by apply (Hh p). }
  pose proof (Hheads stack_used ltac:(unfold heads; set_solver)) as H1.
  pose proof (Hheads stack_cache ltac:(unfold heads; set_solver)) as H2.
  pose proof (Hheads stack_user ltac:(unfold heads; set_solver)) as H3.
  rewrite fmap_cons in H1, H2, H3. pose proof heads_distinct as D.
  apply NoDup_cons in D as [D1 D]. apply NoDup_cons in D as [D2 _].
  assert (D12 : stack_used ≠ stack_cache) by set_solver.
  assert (D13 : stack_used ≠ stack_user) by set_solver.
  assert (D23 : stack_cache ≠ stack_user) by set_solver.
  assert (Hsc : list_of self ∉ list_of <$> c).
  { intros (p & E & Hp)%list_elem_of_fmap. apply (inj list_of) in E as <-. done. }
  set (m4 := INIT_LIST_HEAD stack_user _).
  assert (R4c : ring m4 stack_cache (list_of <$> c)).
  { apply init_other; [apply init_other; [done|]|]; set_solver. }
  assert (R4u : ring m4 stack_used []) by (apply init_other; [apply init_ring|set_solver]).
  assert (R4r : ring m4 stack_user []) by apply init_ring.
  destruct us; apply rings_lists; cbn [fmap list_fmap app].
  - eapply add_other; [exact R4u|exact R4r|set_solver|set_solver].
  - eapply add_other; [exact R4c|exact R4r|set_solver|set_solver].
  - apply list_add_ring; [done|set_solver].
  - apply NoDup_app. split_and!; [done|set_solver|apply NoDup_singleton].
  - intros p Hp. apply Hh. set_solver.
  - apply list_add_ring; [done|set_solver].
  - eapply add_other; [exact R4c|exact R4u|set_solver|set_solver].
  - eapply add_other; [exact R4r|exact R4u|set_solver|set_solver].
  - rewrite app_nil_r. by apply NoDup_cons.
  - intros p Hp. apply Hh. set_solver.
Qed.

(** Without the caller, whose stack is the user's or one of those in use. *)
Lemma unlink_self m L self (us : bool) : recovered m L → self ∈ (if us then L User else L Used) →
  ring (list_del (list_of self) (list_splice stack_used stack_cache m)) stack_cache
    (list_of <$> (filter (λ p, p ≠ self) (L Used) ++ L Cache)).
Proof.
  intros R Hself. destruct (splice_recovered _ _ R) as [Rc Hlinks]. destruct us.
  - rewrite filter_other by (by apply (rc_disj _ _ R User Used)).
    eapply ring_frame, Rc. intros x Hx.
    assert (Hx' : ∀ y, y = next (lget m (list_of self)) ∨ y = prev (lget m (list_of self)) → x ≠ y).
    { intros y Hy ->. pose proof (rc_user _ _ R self Used y Hself ltac:(done) Hy) as Hu.
      pose proof (rc_user _ _ R self Cache y Hself ltac:(done) Hy) as Hc. cbn [head_of] in Hu, Hc. set_solver. }
    rewrite list_del_eq. unfold lget. rewrite (Hlinks self Hself). fold (lget m (list_of self)).
    rewrite !do_write_frame; [done|cbn [write_addr]; auto..].
  - apply list_elem_of_split in Hself as (u1 & u2 & Eu). pose proof (rc_nodup _ _ Used R ltac:(done)) as N.
    rewrite Eu in N, Rc |- *. rewrite filter_self by done. rewrite <- !app_assoc in *. cbn [app] in *.
    rewrite fmap_app, fmap_cons in Rc. rewrite fmap_app. by apply list_del_ring.
Qed.

Lemma wp_relist self t s L :
  recovered (links s) L → pds s !! self = Some t →
  self ∈ (if pd_user_stack t then L User else L Used) →
  wp (relist_self self) (λ _ s', ∃ m, s' = s <| links := m |> <| in_flight_stack := 0 |> ∧
    rings m (reclaimed_lists self (pd_user_stack t) L)) s.
Proof.
  intros R Et Hself. unfold relist_self.
  do 3 wp_step. apply wp_stack_list_del. do 5 wp_step. eapply wp_load_pd; [exact Et|].
  pose proof (unlink_self _ _ _ _ R Hself) as Rc. unfold reclaimed_lists.
  set (rest := filter (λ p, p ≠ self) (L Used) ++ L Cache) in *.
  assert (Hin : ∀ p, p ∈ rest → p ≠ self ∧ list_of p ∉ heads).
  { intros p [[Hne Hp]%list_elem_of_filter|Hp]%elem_of_app.
    - split; [done|by apply (rc_heads _ _ R Used)].
    - split; [|by apply (rc_heads _ _ R Cache)]. intros ->.
      destruct (pd_user_stack t); [apply (rc_disj _ _ R User Cache self)|apply (rc_disj _ _ R Used Cache self)]; done. }
  assert (N : NoDup rest).
  { apply NoDup_app. split_and!; [apply NoDup_filter; by apply (rc_nodup _ _ Used R)| |by apply (rc_nodup _ _ Cache R)].
    intros p [_ Hp]%list_elem_of_filter. by apply (rc_disj _ _ R Used Cache). }
  assert (Hh : ∀ p, p ∈ self :: rest → list_of p ∉ heads).
  { intros p [->|Hp]%elem_of_cons; [|by apply Hin]. destruct (pd_user_stack t); by apply (rc_heads _ _ R _ self Hself). }
  assert (Hs : self ∉ rest) by (intros Hp; by destruct (Hin self Hp)).
  destruct (pd_user_stack t); wp_go; (eexists; split; [reflexivity|]); rs.
  - by apply (relist_end _ rest self true).
  - by apply (relist_end _ rest self false).
Qed.
End Proofs.

(** * Properties *)

Section Properties.
Context {K : Type} {PF : Platform} {PL : PlatformLaws} {LA : ListApi} {LL : ListLaws}.
Implicit Types (s : nptl K) (u c r : list ptr) (L : which → list ptr).

Definition child_post s self us L s' : Prop :=
  rings (links s') (reclaimed_lists self us L) ∧
  in_flight_stack s' = 0 ∧ stack_cache_lock s' = 0 ∧ default_pthread_attr_lock s' = 0 ∧
  nptl_nthreads s' = 1 ∧
  (∀ p t, p ∈ L Used → p ≠ self → pds s !! p = Some t →
     pds s' !! p = Some (reclaimed t) ∧ FREE_P (reclaimed t) = true) ∧
  (∀ p, p ∉ L Used ∨ p = self → pds s' !! p = pds s !! p) ∧
  stack_cache_actsize s' =
    stack_cache_actsize s +w cached_size (pds s) (filter (λ p, p ≠ self) (L Used)) ∧
  (stack_cache_actsize s = w64 (cached_size (pds s) (L Cache)) →
   stack_cache_actsize s' = w64 (cached_size (pds s') (reclaimed_lists self us L Cache))).

Lemma reclaimed_geom t : geom (reclaimed t) = geom t ∧ FREE_P (reclaimed t) = true.
Proof. unfold reclaimed. by destruct (pd_specific_used _). Qed.

(** C19: [__reclaim_stacks], in the child of a fork that hit another thread between
    any two stores of a list operation ([interrupted]: the adding of a stack of the user's, which is not
    recorded, included): the lists come out well-formed, with the
    operation completed, or forgotten when nothing but the element itself had been
    written, or when it was the adding of a stack of the user's.  The calling thread is alone in the list its stack belongs to, the
    stacks of all other threads are marked free, cleared of thread-specific data
    and cached; stacks already cached keep their state, also those whose thread had not
    quite ended, which are never free in the child.  The cache accounting
    grows by the stacks added, so it is right whenever it was right; the locks are
    released, one thread is counted. *)
Theorem reclaim_stacks_recovers s self t m0 u c r L :
  rings m0 (lists u c r) → interrupted m0 u c r (links s) (in_flight_stack s) L →
  (∀ p, p ∈ L Used → is_Some (pds s !! p)) → is_w64 (stack_cache_actsize s) →
  pds s !! self = Some t → self ∈ (if pd_user_stack t then L User else L Used) →
  wp (reclaim_stacks self) (λ _ s', child_post s self (pd_user_stack t) L s') s.
Proof.
  intros R0 Hint Hlive Hw Et Hself. unfold reclaim_stacks. wp_step.
  eapply wp_mono; [by apply (wp_repair s m0 u c r L)|]. intros [] s1 (m1 & -> & R1).
  do 2 wp_step. cbv beta.
  change (links (s <| links := m1 |>)) with m1. rewrite (for_each_ring _ stack_used _ (rc_ring _ _ R1 Used ltac:(done))).
  wp_step. eapply wp_mono.
  { apply wp_mark; [by apply (rc_nodup m1)|exact Hlive|exact Hw]. }
  intros [] s2 (ds & a & -> & Ea & H1 & H2). wp_step. rs in H1. rs in H2. rs in Ea.
  eapply wp_mono.
  { apply (wp_relist self t _ L); [exact R1| |exact Hself]. rs. by rewrite H2 by (by right). }
  intros [] s3 (m & -> & R3). wp_go.
  match goal with |- child_post _ _ _ _ ?x => set (s4 := x) end.
  assert (Hf : ∀ p, p ∈ L Used → p ≠ self → geom <$> ds !! p = geom <$> pds s !! p).
  { intros p Hp Hne. destruct (Hlive p Hp) as [tp Etp].
    rewrite (H1 p tp Hp Hne Etp), Etp. cbn. by rewrite (proj1 (reclaimed_geom tp)). }
  unfold child_post. split_and!; try done.
  - intros p tp Hp Hne Etp. split; [by apply (H1 p tp)|apply reclaimed_geom].
  - intros Hact. change (stack_cache_actsize s4) with a. change (pds s4) with ds.
    rewrite Ea, Hact, w64_add_l. f_equal. unfold reclaimed_lists. cbn [lists].
    rewrite cached_size_app.
    rewrite (cached_size_ext (pds s) ds (filter _ (L Used))).
    2:{ intros p [Hne Hp]%list_elem_of_filter. by apply Hf. }
    rewrite (cached_size_ext (pds s) ds (L Cache)); [lia|].
    intros p Hp. rewrite H2; [done|]. left.
    by apply (rc_disj _ _ R1 Cache Used p).
Qed.
End Properties.

(** * Examples *)

Section Examples.
Import X86 ListH.

(** Two threads; the second is giving its stack back: its descriptor has left the
    list of stacks in use and is being put into the cache. *)
Definition two := map_block Used MiB 102 d1.
Definition self_pd : ptr := next_pd (8 * MiB) s_init.
Definition other_pd : ptr := next_pd MiB d1.

Lemma rep_two : rep two (lists [other_pd; self_pd] [] []).
Proof.
  assert (4096 ≤ MiB ∧ 4096 ≤ 8 * MiB) as [? ?] by (unfold MiB; lia).
  assert (top_of (events (kern s_init)) + 8 * MiB < user_top) by (vm_compute; reflexivity).
  assert (top_of (events (kern d1)) + MiB < user_top) by (vm_compute; reflexivity).
  eapply map_block_used; [|assumption..]. eapply map_block_used; [|assumption..].
  apply rep_init.
Qed.

Definition between : lmem := list_del (list_of other_pd) (links two).

Lemma rings_between : rings between (lists [self_pd] [] []).
Proof.
  eapply (rings_del Used _ _ _ [] other_pd [self_pd] (rep_rings _ _ rep_two));
    [reflexivity..|]. by intros [].
Qed.

(** The fork comes when three of the four stores have been made. *)
Definition torn : nptl simk :=
  two <| links := do_writes (take 3 (list_add_writes between (list_of other_pd) stack_cache))
                    between |>
      <| in_flight_stack := Z.lor (list_of other_pd) 1 |>.

Definition torn_lists : which → list ptr := lists [self_pd] [other_pd] [].

Lemma torn_interrupted :
  interrupted between [self_pd] [] [] (links torn) (in_flight_stack torn) torn_lists.
Proof.
  apply (AddDone _ _ _ _ Cache other_pd); [done| | |by exists 3%nat| |done|by intros []].
  - split_and!; [vm_compute; reflexivity|vm_compute; reflexivity|].
    apply (bool_decide_eq_true_1 (list_of other_pd ∉ heads)). vm_compute. reflexivity.
  - intros j. apply (bool_decide_eq_true_1 (other_pd ∉ _)). by destruct j; vm_compute.
  - intros H. specialize (H stack_cache). revert H. vm_compute. intros H.
    discriminate H. discriminate.
Qed.

Lemma reclaim_stacks_recovers_witness :
  wp (reclaim_stacks self_pd) (λ _ s', child_post torn self_pd false torn_lists s') torn.
Proof.
  apply (reclaim_stacks_recovers torn self_pd (block_at (top_of (events (kern s_init))) (8 * MiB) 101)
           between [self_pd] [] [] torn_lists).
  - apply rings_between.
  - apply torn_interrupted.
  - intros p Hp. apply list_elem_of_singleton in Hp as ->. vm_compute. eauto.
  - vm_compute. split; congruence.
  - vm_compute. reflexivity.
  - vm_compute. left.
Defined.

(** The fork comes after the insertion and before [queue_stack] adds the size. *)
Definition uncounted : nptl simk :=
  two <| links := list_add (list_of other_pd) stack_cache between |>
      <| pds := alter (λ t, t <| pd_tid := 0 |>) other_pd (pds two) |>.

(** A defect.  The child of a fork that comes between the insertion of a stack
    in the cache and the update of [stack_cache_actsize] keeps a size that is too
    small; when it takes that stack from the cache the size wraps below zero, to
    just under [2^64], and from then on every stack put in the cache triggers the
    eviction of all free ones. *)
Theorem reclaim_undercounts :
  match (reclaim_stacks self_pd;; get_cached_stack MiB) uncounted with
  | Done (Some (p, size, _)) s' =>
      p = other_pd ∧ size = MiB ∧ stack_cache_actsize s' = W64 - MiB ∧
      list_for_each (links s') stack_cache = []
  | _ => False
  end.
Proof. vm_compute. repeat split. Qed.
End Examples.
