(* ===== verification/ThreadAttr.v ===== *)
(** Thread attributes ([pthread_attr_destroy.c], [pthread_attr_extension.c],
    [pthread_attr_setaffinity.c], [pthread_getattr_np.c]).

    The functions are written against the allocator interface [Malloc]; the
    theorems are about the instance [heap], which refuses allocations as an oracle
    says and stops at a [free] of something that is not allocated.  [holds]
    splits the heap into the blocks of an attribute and the rest, and every
    operation is shown to leave the rest alone. *)
From S2P Require Import Prelude ListHead Nptl Sim.

(** [sizeof (struct pthread_attr_extension)] *)
Definition sizeof_ext : Z := 152.

Section Destroy.
Context {S : Type} {PF : Platform} {FR : Free S}.

Definition pthread_attr_destroy (attr : pthread_attr) : M S Z :=
  (if has (attr_flags attr) ATTR_FLAG_OLDATTR then mret ()
   else match attr_extension attr with
        | Some e => free (ext_cpuset e);; free (ext_addr e)
        | None => mret ()
        end);;
  mret 0.
End Destroy.

Section Defs.
Context {S : Type} {PF : Platform} {ML : Malloc S}.

(** 0 and the attribute with an extension, or [errno]. *)
Definition pthread_attr_extension (attr : pthread_attr) : M S (Z * pthread_attr) :=
  match attr_extension attr with
  | Some _ => mret (0, attr)
  | None =>
      p ← calloc sizeof_ext;
      match p with
      | None => mret (ENOMEM, attr)
      | Some p => mret (0, attr <| attr_extension := Some (mkExt p 0 0 [] 0 false) |>)
      end
  end.

(** [cpuset == NULL || cpusetsize == 0] *)
Definition clear_affinity (attr : pthread_attr) : M S (Z * pthread_attr) :=
  match attr_extension attr with
  | Some e =>
      free (ext_cpuset e);;
      mret (0, attr <| attr_extension :=
        Some (e <| ext_cpuset := 0 |> <| ext_cpusetsize := 0 |> <| ext_bytes := [] |>) |>)
  | None => mret (0, attr)
  end.

Definition pthread_attr_setaffinity (attr : pthread_attr) (cpusetsize : Z)
    (cpuset : option (list Z)) : M S (Z * pthread_attr) :=
  match cpuset with
  | Some bytes =>
      if cpusetsize =? 0 then clear_affinity attr
      else
        '(ret, attr) ← pthread_attr_extension attr;
        if negb (ret =? 0) then mret (ret, attr)
        else
          match attr_extension attr with
          | None => stop_with Fault
          | Some e =>
              if ext_cpusetsize e =? cpusetsize then
                mret (0, attr <| attr_extension :=
                  Some (e <| ext_bytes := take (Z.to_nat cpusetsize) bytes |>) |>)
              else
                newp ← realloc (ext_cpuset e) cpusetsize;
                match newp with
                | None => mret (ENOMEM, attr)
                | Some p =>
                    mret (0, attr <| attr_extension :=
                      Some (e <| ext_cpuset := p |> <| ext_cpusetsize := cpusetsize |>
                              <| ext_bytes := take (Z.to_nat cpusetsize) bytes |>) |>)
                end
          end
  | None => clear_affinity attr
  end.

(** ** [pthread_getattr_np] *)

(** What the system says about the main thread's stack: [errno] of [fopen] if it
    failed, the stack limit or [errno], [__libc_stack_end], and the ranges of the
    lines of [/proc/self/maps] ([None]: a line that does not parse). *)
Record proc_info := mkProc {
  open_error : option Z; stack_limit : Z + Z; libc_stack_end : Z;
  maps_lines : list (option (Z * Z));
}.

Definition stack_end_page (se : Z) : Z := (se &~ (pagesize - 1)) +w pagesize.

(** The address and the size of the stack, if a line covers its end. *)
Fixpoint scan_maps (rlim se last_to : Z) (lines : list (option (Z * Z))) : option (Z * Z) :=
  match lines with
  | [] => None
  | None :: rest => scan_maps rlim se last_to rest
  | Some (from, to) :: rest =>
      if (from <=? se) && (se <? to) then
        let stackaddr := stack_end_page se in
        let stacksize := (rlim -w (to -w stackaddr)) &~ (pagesize - 1) in
        Some (stackaddr,
              if stackaddr -w last_to <? stacksize then stackaddr -w last_to else stacksize)
      else scan_maps rlim se to rest
  end.

(** 0 and the stack of the initial thread, or an error number. *)
Definition main_stack (pi : proc_info) : Z + Z * Z :=
  match open_error pi with
  | Some e => inl e
  | None =>
      match stack_limit pi with
      | inl e => inl e
      | inr rlim =>
          match scan_maps rlim (libc_stack_end pi) 0 (maps_lines pi) with
          | Some r => inr r
          | None => inl ENOENT
          end
      end
  end.

(** The loop that finds a size large enough for the CPU set: the last answer, the
    size, the buffer and its contents. *)
Fixpoint affinity_loop (getaffinity : Z → Z * list Z) (fuel : nat) (size : Z) (cpuset : ptr)
    : M S (Z * Z * ptr * list Z) :=
  match fuel with
  | O => stop_with Blocked
  | Datatypes.S fuel =>
      let size := 2 * size in
      newp ← realloc cpuset size;
      match newp with
      | None => mret (ENOMEM, size, cpuset, [])
      | Some p =>
          let '(ret, bytes) := getaffinity size in
          if (ret =? EINVAL) && (size <? 1024 * 1024) then
            affinity_loop getaffinity fuel size p
          else mret (ret, size, p, bytes)
      end
  end.

Definition affinity_part (getaffinity : Z → Z * list Z) (attr : pthread_attr)
    : M S (Z * pthread_attr) :=
  '(ret, size, cpuset, bytes) ← affinity_loop getaffinity 17 16 0;
  '(ret, attr) ← (if ret =? 0 then pthread_attr_setaffinity attr size (Some bytes)
                  else mret (if ret =? ENOSYS then 0 else ret, attr));
  free cpuset;;
  mret (ret, attr).

(** The fields read from the descriptor. *)
Definition attr_of_thread (pi : proc_info) (th : ptr) (t : pthread) (attr : pthread_attr)
    : Z * pthread_attr :=
  let attr := attr <| attr_schedparam := pd_schedparam t |>
                   <| attr_schedpolicy := pd_schedpolicy t |>
                   <| attr_flags := if IS_DETACHED th t
                                    then Z.lor (pd_flags t) ATTR_FLAG_DETACHSTATE
                                    else pd_flags t |>
                   <| attr_guardsize := pd_reported_guardsize t |> in
  let '(ret, attr) :=
    if negb (pd_stackblock t =? 0) then
      (0, attr <| attr_stacksize := pd_stackblock_size t -w pd_guardsize t |>
               <| attr_stackaddr := pd_stackblock t +w pd_stackblock_size t |>)
    else
      match main_stack pi with
      | inl e => (e, attr)
      | inr (addr, size) =>
          (0, attr <| attr_stacksize := size |> <| attr_stackaddr := addr |>)
      end in
  (ret, attr <| attr_flags := Z.lor (attr_flags attr) ATTR_FLAG_STACKADDR |>).

(** [init] is the result of [__pthread_attr_init]; the lock is [thread->lock]. *)
Definition pthread_getattr_np (lock unlock : M S ()) (init : Z * pthread_attr)
    (pi : proc_info) (getaffinity : Z → Z * list Z) (th : ptr) (t : pthread)
    : M S (Z * pthread_attr) :=
  let '(ret, attr) := init in
  if negb (ret =? 0) then mret (ret, attr)
  else
    lock;;
    let '(ret, attr) := attr_of_thread pi th t attr in
    '(ret, attr) ← (if ret =? 0 then affinity_part getaffinity attr else mret (ret, attr));
    unlock;;
    (if negb (ret =? 0) then pthread_attr_destroy attr else mret 0);;
    mret (ret, attr).
End Defs.

(** * A heap *)

(** Allocated blocks and their sizes; which of the next allocations fail; the lock of
    the thread looked at. *)
Record heap := mkHeap { blocks : gmap Z Z; oom : list bool; tlock : Z }.
#[export] Instance eta_heap : Eta heap := λ h, mkHeap (blocks h) (oom h) (tlock h).

Definition answer_oom : M heap bool := λ h,
  match oom h with
  | [] => Done false h
  | b :: bs => Done b (h <| oom := bs |>)
  end.

Definition new_addr (h : heap) : ptr := fresh ({[0]} ∪ dom (blocks h) : gset Z).

Definition heap_alloc (size : Z) : M heap (option ptr) :=
  b ← answer_oom;
  if b : bool then mret None
  else
    p ← gets new_addr;
    modify (λ h, h <| blocks := <[p := size]> (blocks h) |>);;
    mret (Some p).

Definition heap_free (p : ptr) : M heap () :=
  if p =? 0 then mret ()
  else
    h ← gets blocks;
    match h !! p with
    | Some _ => modify (λ h, h <| blocks := delete p (blocks h) |>)
    | None => stop_with Fault
    end.

(** On failure the old block stays; on success it is gone. *)
Definition heap_realloc (p : ptr) (size : Z) : M heap (option ptr) :=
  h ← gets blocks;
  if (p =? 0) || bool_decide (is_Some (h !! p)) then
    q ← heap_alloc size;
    match q with
    | None => mret None
    | Some q => heap_free p;; mret (Some q)
    end
  else stop_with Fault.

#[export] Instance heap_free_inst : Free heap := heap_free.
#[export] Instance heap_malloc : Malloc heap := {
  malloc_free := heap_free_inst; calloc := heap_alloc; realloc := heap_realloc;
}.

Definition lock_thread : M heap () :=
  l ← gets tlock;
  if l =? 0 then modify (λ h, h <| tlock := 1 |>) else stop_with Blocked.
Definition unlock_thread : M heap () := modify (λ h, h <| tlock := 0 |>).

(** The blocks [m] are those of the attribute and the rest [F]; the CPU set has the
    size that is recorded for it. *)
Definition holds (m : gmap Z Z) (attr : pthread_attr) (F : gmap Z Z) : Prop :=
  match attr_extension attr with
  | None => m = F
  | Some e =>
      ext_addr e ≠ 0 ∧ Z.of_nat (length (ext_bytes e)) = ext_cpusetsize e ∧
      ∃ G, m = <[ext_addr e := sizeof_ext]> G ∧ G !! ext_addr e = None ∧
        if ext_cpuset e =? 0 then G = F ∧ ext_cpusetsize e = 0
        else G = <[ext_cpuset e := ext_cpusetsize e]> F ∧ F !! ext_cpuset e = None
  end.

(** * Rules *)

Section Rules.
Implicit Types h : heap.

Lemma new_addr_fresh h : new_addr h ≠ 0 ∧ blocks h !! new_addr h = None.
Proof.
  pose proof (is_fresh ({[0]} ∪ dom (blocks h) : gset Z)) as Hf. fold (new_addr h) in Hf.
  split; [set_solver|]. apply not_elem_of_dom. set_solver.
Qed.

Lemma wp_heap_alloc size (Q : option ptr → heap → Prop) h :
  (∀ o, Q None (h <| oom := o |>)) →
  (∀ o p, p ≠ 0 → blocks h !! p = None →
     Q (Some p) (h <| oom := o |> <| blocks := <[p := size]> (blocks h) |>)) →
  wp (heap_alloc size) Q h.
Proof.
  intros H1 H2. pose proof (new_addr_fresh h) as [Hp Hf].
  destruct h as [m [|[] o] l]; unfold heap_alloc; wp_step; unfold answer_oom, wp; cbn.
  - exact (H2 [] _ Hp Hf).
  - exact (H1 o).
  - exact (H2 o _ Hp Hf).
Qed.

Lemma wp_heap_free p (Q : () → heap → Prop) h :
  (p = 0 → Q () h) →
  (p ≠ 0 → is_Some (blocks h !! p) ∧ Q () (h <| blocks := delete p (blocks h) |>)) →
  wp (heap_free p) Q h.
Proof.
  intros H1 H2. unfold heap_free. destruct (Z.eqb_spec p 0) as [->|Hp]; [by apply H1|].
  destruct (H2 Hp) as [[v Ev] HQ]. wp_go. by rewrite Ev.
Qed.

Lemma wp_heap_realloc p size (Q : option ptr → heap → Prop) h :
  (p ≠ 0 → is_Some (blocks h !! p)) →
  (∀ o, Q None (h <| oom := o |>)) →
  (∀ o q, q ≠ 0 → blocks h !! q = None →
     Q (Some q) (h <| oom := o |> <| blocks :=
       if p =? 0 then <[q := size]> (blocks h) else <[q := size]> (delete p (blocks h)) |>)) →
  wp (heap_realloc p size) Q h.
Proof.
  intros Hs H1 H2. unfold heap_realloc. do 2 wp_step. cbv beta.
  assert (E : (p =? 0) || bool_decide (is_Some (blocks h !! p)) = true).
  { destruct (Z.eqb_spec p 0); [done|]. cbn. by apply bool_decide_eq_true_2, Hs. }
  rewrite E. cbv iota. wp_step. apply wp_heap_alloc.
  - intros o. wp_step. apply H1.
  - intros o q Hq Hf. wp_step. apply wp_heap_free.
    + intros ->. wp_step. specialize (H2 o q Hq Hf). by rewrite Z.eqb_refl in H2.
    + intros Hp. destruct (Hs Hp) as [v Ev]. rs.
      assert (Hne : q ≠ p) by (intros ->; congruence).
      rewrite lookup_insert_ne by done. split; [eauto|]. wp_step.
      specialize (H2 o q Hq Hf). rewrite (proj2 (Z.eqb_neq p 0) Hp) in H2.
      rewrite delete_insert_ne by done. exact H2.
Qed.

End Rules.

(** * The operations on an attribute *)

Section Attr.
Context {PF : Platform}.
Implicit Types (h : heap) (F : gmap Z Z).

Lemma wp_destroy attr F (Q : Z → heap → Prop) h :
  has (attr_flags attr) ATTR_FLAG_OLDATTR = false → holds (blocks h) attr F →
  Q 0 (h <| blocks := F |>) → wp (pthread_attr_destroy attr) Q h.
Proof.
  intros Hf Hh HQ. unfold pthread_attr_destroy, holds in *. rewrite Hf.
  destruct (attr_extension attr) as [e|].
  2:{ wp_go. subst F. by destruct h. }
  destruct Hh as (Ha & _ & G & Em & EG & HG). cbn [free heap_malloc]. do 2 wp_step.
  destruct (Z.eqb_spec (ext_cpuset e) 0) as [Ec|Ec].
  - destruct HG as [-> _]. apply wp_heap_free; [intros _|done]. apply wp_heap_free; [done|].
    intros _. rewrite Em, lookup_insert_eq. split; [eauto|]. wp_step.
    by rewrite delete_insert_id.
  - destruct HG as [-> HF]. apply wp_heap_free; [done|]. intros _.
    assert (Hne : ext_addr e ≠ ext_cpuset e).
    { intros E. by rewrite E, lookup_insert_eq in EG. }
    rewrite Em, lookup_insert_ne, lookup_insert_eq by done. split; [eauto|].
    apply wp_heap_free; [done|]. intros _. rs.
    rewrite delete_insert_ne, delete_insert_id by done. rewrite lookup_insert_eq.
    split; [eauto|]. wp_step. rewrite lookup_insert_ne in EG by done.
    by rewrite delete_insert_id.
Qed.

Definition cpuset_of (attr : pthread_attr) : list Z :=
  match attr_extension attr with Some e => ext_bytes e | None => [] end.

(** The rest of the heap is untouched, only the extension differs, and the CPU set
    is the new one, or the old one when there was no memory. *)
Definition affinity_post h F (attr : pthread_attr) (want : list Z)
    (res : Z * pthread_attr) h' : Prop :=
  let '(ret, attr') := res in
  tlock h' = tlock h ∧ holds (blocks h') attr' F ∧
  (∃ x, attr' = attr <| attr_extension := x |>) ∧
  ((ret = 0 ∧ cpuset_of attr' = want) ∨ (ret = ENOMEM ∧ cpuset_of attr' = cpuset_of attr)).

Lemma wp_extension attr F (Q : Z * pthread_attr → heap → Prop) h :
  holds (blocks h) attr F →
  (∀ h' attr' e, tlock h' = tlock h → holds (blocks h') attr' F →
     attr' = attr <| attr_extension := Some e |> → cpuset_of attr' = cpuset_of attr →
     Q (0, attr') h') →
  (∀ h', tlock h' = tlock h → blocks h' = blocks h → Q (ENOMEM, attr) h') →
  wp (pthread_attr_extension attr) Q h.
Proof.
  intros Hh H1 H2. unfold pthread_attr_extension.
  destruct (attr_extension attr) as [e|] eqn:Ee.
  - wp_step. apply (H1 h attr e); try done. destruct attr. cbn in Ee. by subst.
  - wp_step. apply wp_heap_alloc.
    + intros o. wp_step. by apply H2.
    + intros o p Hp Hf. wp_step. eapply H1; [done| |done|].
      * unfold holds in *. rs. rewrite Ee in Hh. subst F. split_and!; [done..|].
        exists (blocks h). by split_and!.
      * unfold cpuset_of. rs. by rewrite Ee.
Qed.

Lemma wp_clear_affinity attr F h :
  holds (blocks h) attr F →
  wp (clear_affinity attr) (affinity_post h F attr []) h.
Proof.
  intros Hh. unfold clear_affinity, holds in *.
  destruct (attr_extension attr) as [e|] eqn:Ee.
  2:{ wp_step. unfold affinity_post, holds, cpuset_of. cbv beta iota. rewrite Ee. split_and!; [done..| |by left].
      exists None. destruct attr. cbn in Ee. by subst. }
  destruct Hh as (Ha & Hlen & G & Em & EG & HG). wp_step. apply wp_heap_free.
  - intros Ec. rewrite Ec in HG. destruct HG as [-> Hs]. wp_step.
    unfold affinity_post, holds, cpuset_of. cbv beta iota. rs. cbv beta iota. rs.
    split_and!; [done|done|done|by exists F|eauto|by left].
  - intros Hc. rewrite (proj2 (Z.eqb_neq _ 0) Hc) in HG. destruct HG as [-> HF].
    assert (Hne : ext_addr e ≠ ext_cpuset e) by (intros E; by rewrite E, lookup_insert_eq in EG).
    rewrite Em, lookup_insert_ne, lookup_insert_eq by done. split; [eauto|]. wp_step.
    unfold affinity_post, holds, cpuset_of. cbv beta iota. rs. cbv beta iota. rs.
    rewrite lookup_insert_ne in EG by done.
    split_and!; [done|done|done| |eauto|by left].
    exists F. rewrite delete_insert_ne, delete_insert_id by done. by split_and!.
Qed.

Lemma wp_setaffinity attr size bytes F h :
  holds (blocks h) attr F → 0 < size ≤ Z.of_nat (length bytes) →
  wp (pthread_attr_setaffinity attr size (Some bytes))
     (affinity_post h F attr (take (Z.to_nat size) bytes)) h.
Proof.
  intros Hh Hs. unfold pthread_attr_setaffinity.
  destruct (Z.eqb_spec size 0); [lia|]. wp_step. eapply wp_extension; [done| |].
  2:{ intros h' Hl Hb. change (negb (ENOMEM =? 0)) with true. cbv iota. wp_step.
      unfold affinity_post. cbv iota. rewrite Hb. split_and!; [done..| |by right].
      exists (attr_extension attr). by destruct attr. }
  intros h' attr' e Hl Hh' Ea Hc. change (negb (0 =? 0)) with false. cbv iota.
  unfold holds in Hh'. rewrite Ea in Hh' |- *. rs. rs in Hh'.
  destruct Hh' as (Hp & Hlen & G & Em & EG & HG).
  assert (Htake : Z.of_nat (length (take (Z.to_nat size) bytes)) = size)
    by (rewrite length_take; lia).
  destruct (Z.eqb_spec (ext_cpusetsize e) size) as [Es|Es].
  - wp_step. unfold affinity_post, holds, cpuset_of. cbv beta iota. rs. cbv beta iota. rs. rewrite Es.
    split_and!; [done..| |eauto|by left]. exists G. by rewrite <- Es.
  - wp_step. apply wp_heap_realloc.
    + intros Hcp. rewrite (proj2 (Z.eqb_neq _ 0) Hcp) in HG. destruct HG as [-> HF].
      assert (Hne : ext_addr e ≠ ext_cpuset e)
        by (intros E; by rewrite E, lookup_insert_eq in EG).
      rewrite Em, lookup_insert_ne, lookup_insert_eq by done. eauto.
    + intros o. wp_step. unfold affinity_post, holds. cbv beta iota. rs. cbv beta iota. rs.
      split_and!; [done|done|done|by exists G|eauto|]. right. split; [done|].
      by rewrite <- Ea.
    + intros o q Hq Hf. wp_step. unfold affinity_post, holds, cpuset_of. cbv beta iota. rs. cbv beta iota. rs.
      rewrite (proj2 (Z.eqb_neq q 0) Hq).
      assert (Hqe : q ≠ ext_addr e) by (intros ->; by rewrite Em, lookup_insert_eq in Hf).
      split_and!; [done|done|done| |eauto|by left].
      exists (<[q := size]> F). rewrite Em in Hf |- *. rewrite lookup_insert_ne in Hf by done.
      rewrite lookup_insert_ne by done.
      destruct (Z.eqb_spec (ext_cpuset e) 0) as [Ec|Ec].
      * destruct HG as [-> _]. rewrite insert_insert_ne by done. by split_and!.
      * destruct HG as [-> HF].
        assert (Hne : ext_addr e ≠ ext_cpuset e)
          by (intros E; by rewrite E, lookup_insert_eq in EG).
        rewrite lookup_insert_ne in EG by done.
        rewrite delete_insert_ne, delete_insert_id by done.
        assert (q ≠ ext_cpuset e) by (intros ->; by rewrite lookup_insert_eq in Hf).
        rewrite lookup_insert_ne in Hf by done.
        rewrite insert_insert_ne by done. by split_and!.
Qed.

(** ** The loop over the sizes *)

(** The heap with the buffer of the loop in it. *)
Definition with_buf (m : gmap Z Z) (q : ptr) (F : gmap Z Z) : Prop :=
  if q =? 0 then m = F else ∃ v, m = <[q := v]> F ∧ F !! q = None.

Definition loop_post h F (ga : Z → Z * list Z) (res : Z * Z * ptr * list Z) h' : Prop :=
  let '(ret, sz, q, bytes) := res in
  tlock h' = tlock h ∧ with_buf (blocks h') q F ∧
  (ret = ENOMEM ∨
   q ≠ 0 ∧ ga sz = (ret, bytes) ∧ 32 ≤ sz ≤ 1024 * 1024 ∧
     (ret = EINVAL → 1024 * 1024 ≤ sz)).

Lemma wp_affinity_loop ga F fuel : ∀ size p h,
  with_buf (blocks h) p F → 16 ≤ size < 1024 * 1024 →
  1024 * 1024 ≤ size * 2 ^ Z.of_nat fuel → (∃ k, 0 ≤ k ∧ size = 2 ^ k) →
  wp (affinity_loop ga fuel size p) (loop_post h F ga) h.
Proof.
  induction fuel as [|fuel IH]; intros size p h Hb Hs Hfuel Hpow.
  { cbn in Hfuel. lia. }
  cbn [affinity_loop]. cbv zeta. wp_step.
  assert (H2 : 2 * size ≤ 1024 * 1024).
  { destruct Hpow as (k & Hk & ->). change (1024 * 1024) with (2 ^ 20) in *.
    rewrite <- Z.pow_succ_r by done. apply Z.pow_le_mono_r; [done|].
    destruct (decide (k < 20)); [lia|]. pose proof (Z.pow_le_mono_r 2 20 k). lia. }
  unfold with_buf in Hb. apply wp_heap_realloc.
  - intros Hp. rewrite (proj2 (Z.eqb_neq p 0) Hp) in Hb. destruct Hb as (v & -> & _).
    rewrite lookup_insert_eq. eauto.
  - intros o. wp_step. unfold loop_post. by split_and!; [|..|left].
  - intros o q Hq Hf. cbv iota.
    set (h1 := h <| oom := o |> <| blocks := _ |>).
    assert (Hb1 : with_buf (blocks h1) q F).
    { unfold with_buf. rewrite (proj2 (Z.eqb_neq q 0) Hq). exists (2 * size). subst h1. rs.
      destruct (Z.eqb_spec p 0) as [->|Hp]; [by rewrite <- Hb|].
      destruct Hb as (v & Eb & HF). rewrite Eb in Hf |- *.
      assert (q ≠ p) by (intros ->; by rewrite lookup_insert_eq in Hf).
      rewrite lookup_insert_ne in Hf by done. by rewrite delete_insert_id. }
    destruct (ga (2 * size)) as [ret bytes] eqn:Ega.
    destruct ((ret =? EINVAL) && (2 * size <? 1024 * 1024)) eqn:Eloop.
    + apply andb_true_iff in Eloop as [_ Hlt%Z.ltb_lt].
      eapply wp_mono; [apply (IH _ _ h1 Hb1); [lia| |]|].
      * rewrite Nat2Z.inj_succ, Z.pow_succ_r in Hfuel by lia. lia.
      * destruct Hpow as (k & Hk & ->). exists (Z.succ k). rewrite Z.pow_succ_r by done. lia.
      * intros [[[r s] q'] bs] h' (Hl & ?). by split.
    + wp_step. unfold loop_post. split_and!; [done|done|]. right.
      split_and!; [done|done|lia..|]. intros ->. cbn in Eloop.
      by apply Z.ltb_ge in Eloop.
Qed.

Lemma holds_free_frame m attr F q v :
  holds m attr (<[q := v]> F) → F !! q = None →
  m !! q = Some v ∧ holds (delete q m) attr F.
Proof.
  intros Hh HF. unfold holds in *. destruct (attr_extension attr) as [e|].
  2:{ subst m. by rewrite lookup_insert_eq, delete_insert_id. }
  destruct Hh as (Ha & Hlen & G & -> & EG & HG).
  assert (Hq : G !! q = Some v ∧ q ≠ ext_addr e ∧
    (ext_cpuset e ≠ 0 → q ≠ ext_cpuset e)).
  { destruct (Z.eqb_spec (ext_cpuset e) 0) as [Ec|Ec].
    - destruct HG as [-> _]. rewrite lookup_insert_eq. split_and!; [done| |done].
      intros ->. by rewrite lookup_insert_eq in EG.
    - destruct HG as [-> HF'].
      assert (q ≠ ext_cpuset e) by (intros ->; by rewrite lookup_insert_eq in HF').
      rewrite lookup_insert_ne, lookup_insert_eq by done. split_and!; [done| |done].
      intros ->. by rewrite lookup_insert_ne, lookup_insert_eq in EG. }
  destruct Hq as (Hq1 & Hq2 & Hq3). rewrite lookup_insert_ne by done.
  split; [done|]. split_and!; [done|done|]. exists (delete q G).
  rewrite delete_insert_ne by done. split; [done|].
  rewrite lookup_delete_ne by done. split; [done|].
  destruct (Z.eqb_spec (ext_cpuset e) 0) as [Ec|Ec].
  - destruct HG as [-> Hs]. by rewrite delete_insert_id.
  - destruct HG as [-> HF']. rewrite delete_insert_ne by auto.
    rewrite lookup_insert_ne in HF' by auto. by rewrite delete_insert_id.
Qed.

(** The CPU set is what the kernel answers at a size that it accepts; there is none if it has no such call. *)
Definition affinity_of (ga : Z → Z * list Z) (cpuset : list Z) : Prop :=
  ∃ sz, 32 ≤ sz ≤ 1024 * 1024 ∧
    ((ga sz).1 = 0 ∧ cpuset = take (Z.to_nat sz) (ga sz).2 ∨ (ga sz).1 = ENOSYS ∧ cpuset = []).

Definition part_post ga h F attr (res : Z * pthread_attr) h' : Prop :=
  let '(ret, attr') := res in
  tlock h' = tlock h ∧ holds (blocks h') attr' F ∧
  (∃ x, attr' = attr <| attr_extension := x |>) ∧ (ret = 0 → affinity_of ga (cpuset_of attr')).

Lemma wp_affinity_part ga F attr h :
  (∀ z, 0 < z → z ≤ Z.of_nat (length (ga z).2)) →
  attr_extension attr = None → blocks h = F →
  wp (affinity_part ga attr) (part_post ga h F attr) h.
Proof.
  intros Hga Hext HF. unfold affinity_part. wp_step.
  eapply wp_mono.
  { apply (wp_affinity_loop ga F 17 16 0 h); [done|lia|done|by exists 4]. }
  intros [[[ret sz] q] bytes] h1 (Hl1 & Hb1 & Hres). cbv beta iota. wp_step.
  assert (Hh1 : holds (blocks h1) attr (blocks h1)) by (unfold holds; by rewrite Hext).
  assert (Hself : attr = attr <| attr_extension := None |>) by
    (destruct attr; cbn in Hext; by subst).
  assert (Hfree : ∀ ret' attr' h2, tlock h2 = tlock h1 → holds (blocks h2) attr' (blocks h1) →
    (∃ x, attr' = attr <| attr_extension := x |>) → (ret' = 0 → affinity_of ga (cpuset_of attr')) →
    wp (free q;; mret (ret', attr')) (part_post ga h F attr) h2).
  { intros ret' attr' h2 Hl2 Hh2 Hx Hc. wp_step. unfold with_buf in Hb1. apply wp_heap_free.
    - intros ->. rewrite Z.eqb_refl in Hb1. wp_step. unfold part_post. cbv beta iota.
      split_and!; [by rewrite Hl2|by rewrite <- Hb1|done..].
    - intros Hq. rewrite (proj2 (Z.eqb_neq q 0) Hq) in Hb1. destruct Hb1 as (v & Eb & HFq).
      rewrite Eb in Hh2. destruct (holds_free_frame _ _ _ _ _ Hh2 HFq) as [Hv Hh'].
      split; [by rewrite Hv; eauto|]. wp_step. unfold part_post. cbv beta iota.
      split_and!; [by rs; rewrite Hl2|done..]. }
  destruct (Z.eqb_spec ret 0) as [->|Hr].
  - destruct Hres as [|(Hq & Ega & Hsz & _)]; [done|].
    eapply wp_mono.
    { apply (wp_setaffinity attr sz bytes (blocks h1) h1 Hh1).
      pose proof (Hga sz ltac:(lia)) as Hlen. rewrite Ega in Hlen. cbn in Hlen. lia. }
    intros [ret' attr'] h2 (Hl2 & Hh2 & Hx & Hc). cbv beta iota. apply Hfree; [done..|]. intros ->.
    destruct Hc as [[_ Hc]|[[=] _]]. exists sz. rewrite Ega. split; [lia|by left].
  - wp_step. cbv beta iota. apply Hfree; [done|done|by exists None|]. destruct (Z.eqb_spec ret ENOSYS) as [->|]; [|done]. intros _.
    destruct Hres as [[=]|(Hq & Ega & Hsz & _)]. exists sz. rewrite Ega. split; [lia|right]. split; [done|].
    unfold cpuset_of. by rewrite Hext.
Qed.
End Attr.

(** * Properties *)

Section Properties.
Context {PF : Platform} {PL : PlatformLaws}.
Implicit Types (h : heap) (F : gmap Z Z).

Lemma flag_range :
  0 ≤ FLAG_OLDATTR_BIT ∧ 0 ≤ FLAG_STACKADDR_BIT ∧ 0 ≤ FLAG_DETACHSTATE_BIT ∧
  FLAG_OLDATTR_BIT ≠ FLAG_STACKADDR_BIT ∧ FLAG_OLDATTR_BIT ≠ FLAG_DETACHSTATE_BIT.
Proof.
  pose proof flag_bits_range as R. rewrite !Forall_cons in R.
  pose proof flag_bits as N. rewrite !NoDup_cons in N. set_unfold. intuition lia.
Qed.

(** [pthread_attr_setaffinity_np] stores exactly the CPU set it is given, or
    leaves the old one when memory runs out; the other fields of the attribute
    and all other memory are untouched, and the recorded size is that of the
    block. *)
Theorem setaffinity_exact attr size cpuset F h :
  holds (blocks h) attr F →
  (∀ bytes, cpuset = Some bytes → 0 ≤ size ≤ Z.of_nat (length bytes)) →
  wp (pthread_attr_setaffinity attr size cpuset)
     (affinity_post h F attr
        match cpuset with Some bytes => take (Z.to_nat size) bytes | None => [] end) h.
Proof.
  intros Hh Hs. destruct cpuset as [bytes|]; [|by apply wp_clear_affinity].
  specialize (Hs bytes eq_refl). destruct (decide (size = 0)) as [->|Hne].
  - unfold pthread_attr_setaffinity. by apply wp_clear_affinity.
  - apply wp_setaffinity; [done|lia].
Qed.

(** What [pthread_getattr_np] reports of a thread on a block of the library, or of the initial thread. *)
Definition reports (pi : proc_info) (th : ptr) (t : pthread) (attr : pthread_attr) : Prop :=
  attr_schedparam attr = pd_schedparam t ∧ attr_schedpolicy attr = pd_schedpolicy t ∧
  attr_guardsize attr = pd_reported_guardsize t ∧
  attr_flags attr = Z.lor (if IS_DETACHED th t then Z.lor (pd_flags t) ATTR_FLAG_DETACHSTATE
                           else pd_flags t) ATTR_FLAG_STACKADDR ∧
  (pd_stackblock t ≠ 0 →
   attr_stacksize attr = pd_stackblock_size t -w pd_guardsize t ∧
   attr_stackaddr attr = pd_stackblock t +w pd_stackblock_size t) ∧
  (pd_stackblock t = 0 → ∀ addr size, main_stack pi = inr (addr, size) →
   attr_stackaddr attr = addr ∧ attr_stacksize attr = size).

Lemma attr_of_thread_spec pi th t attr0 ret attr :
  attr_of_thread pi th t attr0 = (ret, attr) →
  attr_extension attr = attr_extension attr0 ∧ reports pi th t attr ∧
  (pd_stackblock t ≠ 0 → ret = 0) ∧ (pd_stackblock t = 0 → ∀ e, main_stack pi = inl e → ret = e).
Proof.
  unfold attr_of_thread, reports. destruct (Z.eqb_spec (pd_stackblock t) 0) as [E|E]; cbn [negb].
  - destruct (main_stack pi) as [e|[a sz]]; intros [= <- <-]; rs; (split_and!; try done).
    + by intros _ e' [= ->].
    + by intros _ a' sz' [= -> ->].
  - intros [= <- <-]. rs. split_and!; done.
Qed.

Lemma reports_ext pi th t attr x : reports pi th t attr → reports pi th t (attr <| attr_extension := x |>).
Proof. done. Qed.

Lemma reports_not_old pi th t attr :
  has (pd_flags t) ATTR_FLAG_OLDATTR = false → reports pi th t attr →
  has (attr_flags attr) ATTR_FLAG_OLDATTR = false.
Proof.
  intros Hf (_ & _ & _ & -> & _). unfold ATTR_FLAG_OLDATTR, ATTR_FLAG_STACKADDR,
    ATTR_FLAG_DETACHSTATE in *. destruct flag_range as (? & ? & ? & ? & ?).
  rewrite has_lor, has_bitmask by done. rewrite (bool_decide_eq_false_2 (_ = _)) by done.
  rewrite orb_false_r. destruct (IS_DETACHED th t); [|done].
  rewrite has_lor, has_bitmask, Hf by done. by rewrite bool_decide_eq_false_2.
Qed.

Definition getattr_post pi ga h th t (res : Z * pthread_attr) h' : Prop :=
  let '(ret, attr) := res in
  tlock h' = 0 ∧
  if ret =? 0 then
    reports pi th t attr ∧ affinity_of ga (cpuset_of attr) ∧
    (pd_stackblock t = 0 → ∀ e, main_stack pi = inl e → e = 0) ∧
    holds (blocks h') attr (blocks h) ∧
    wp (pthread_attr_destroy attr) (λ _ h'', blocks h'' = blocks h) h'
  else blocks h' = blocks h.

(** C38: [pthread_getattr_np] terminates, releases the lock of the thread, and does not
    leak: when it fails the heap is as before, when it succeeds the attribute
    owns what was allocated, and destroying it gives back the old heap.  The
    stack it reports excludes the guard and ends where the block ends; that of the initial thread is the one that is found
    in the lines of /proc; the CPU set is the kernel's answer at a size that it accepts.  The thread does not have the flag of the old
    attributes: with it the attribute is not freed ([getattr_oldattr_leaks]). *)
Theorem getattr_np_owns h attr0 pi ga th t :
  tlock h = 0 → attr_extension attr0 = None →
  (∀ z, 0 < z → z ≤ Z.of_nat (length (ga z).2)) →
  has (pd_flags t) ATTR_FLAG_OLDATTR = false →
  wp (pthread_getattr_np lock_thread unlock_thread (0, attr0) pi ga th t)
     (getattr_post pi ga h th t) h.
Proof.
  intros Hl Hext Hga Hold. unfold pthread_getattr_np. change (negb (0 =? 0)) with false.
  cbv iota. wp_step. unfold lock_thread. do 2 wp_step. rewrite Hl, Z.eqb_refl. cbv iota. wp_step.
  set (h1 := h <| tlock := 1 |>).
  destruct (attr_of_thread pi th t attr0) as [ret attr] eqn:Ea.
  destruct (attr_of_thread_spec _ _ _ _ _ _ Ea) as (Hext' & Hrep & _ & Hmain). wp_step.
  apply (wp_mono _ (λ res h2, part_post ga h1 (blocks h) attr res h2 ∧ (res.1 = 0 → ret = 0))).
  { destruct (Z.eqb_spec ret 0) as [->|Hr].
    - eapply wp_mono; [apply (wp_affinity_part ga (blocks h) attr h1 Hga); [congruence|done]|done].
    - wp_step. unfold part_post. cbv beta iota. unfold holds. rewrite Hext', Hext.
      split_and!; [done|done| |done|done]. exists None. rewrite Hext in Hext'. destruct attr. cbn in Hext'. by subst. }
  intros [ret2 attr2] h2 [(Hl2 & Hh2 & (x & ->) & Hcpu) Hret]. cbv beta iota. unfold unlock_thread.
  do 2 wp_step.
  set (attr2 := attr <| attr_extension := x |>) in *.
  assert (Hno : has (attr_flags attr2) ATTR_FLAG_OLDATTR = false).
  { apply (reports_not_old pi th t attr2 Hold). by apply reports_ext. }
  wp_step. destruct (Z.eqb_spec ret2 0) as [->|Hr]; cbn [negb].
  - do 2 wp_step. unfold getattr_post. cbv beta iota. rewrite Z.eqb_refl.
    split_and!; [done|by apply reports_ext|by apply Hcpu|by intros H0 e He; rewrite <- (Hmain H0 e He); apply Hret|done|].
    by apply (wp_destroy attr2 (blocks h)).
  - apply (wp_destroy attr2 (blocks h)); [done|done|]. wp_step.
    unfold getattr_post. cbv beta iota. by rewrite (proj2 (Z.eqb_neq ret2 0) Hr).
Qed.
End Properties.

(** * Examples *)

Section Examples.
Import X86.

Definition attr_init0 : pthread_attr := mkAttr 0 0 0 4096 0 0 None.
Definition heap0 : heap := mkHeap ∅ [false; false; true] 0.

(** A kernel for which 64 bytes are enough, and a thread with a stack of 8 MiB. *)
Definition ga64 (z : Z) : Z * list Z :=
  if z <? 64 then (EINVAL, replicate (Z.to_nat z) 0) else (0, replicate (Z.to_nat z) 255).
Definition thread8 : pthread :=
  pthread0 <| pd_stackblock := 1048576 |> <| pd_stackblock_size := 8388608 |>
           <| pd_guardsize := 4096 |> <| pd_reported_guardsize := 4096 |> <| pd_joinid := 5 |>.
Definition no_proc : proc_info := mkProc None (inr 0) 0 [].

(** The third allocation, of the extension, fails: error, and an empty heap. *)
Example getattr_oom :
  match pthread_getattr_np lock_thread unlock_thread (0, attr_init0) no_proc ga64 5 thread8 heap0 with
  | Done (ret, _) h => ret = ENOMEM ∧ blocks h = ∅ ∧ tlock h = 0
  | Stop _ _ => False
  end.
Proof. vm_compute. repeat split. Qed.

Example getattr_8m :
  match pthread_getattr_np lock_thread unlock_thread (0, attr_init0) no_proc ga64 5 thread8
          (mkHeap ∅ [] 0) with
  | Done (ret, attr) h =>
      ret = 0 ∧ attr_stacksize attr = 8384512 ∧ attr_stackaddr attr = 9437184 ∧
      attr_flags attr = 9 ∧ length (cpuset_of attr) = 64%nat ∧ size (blocks h) = 2%nat
  | Stop _ _ => False
  end.
Proof. vm_compute. repeat split. Qed.

Lemma ga64_long z : 0 < z → z ≤ Z.of_nat (length (ga64 z).2).
Proof. intros Hz. unfold ga64. case_match; cbn; rewrite length_replicate; lia. Qed.

Lemma getattr_np_owns_witness :
  wp (pthread_getattr_np lock_thread unlock_thread (0, attr_init0) no_proc ga64 5 thread8)
     (getattr_post no_proc ga64 heap0 5 thread8) heap0.
Proof.
  apply getattr_np_owns; [reflexivity | reflexivity | exact ga64_long | vm_compute; reflexivity].
Defined.

Lemma setaffinity_exact_witness :
  wp (pthread_attr_setaffinity attr_init0 8 (Some (replicate 16 1)))
     (affinity_post heap0 ∅ attr_init0 (replicate 8 1)) heap0.
Proof.
  apply (setaffinity_exact attr_init0 8 (Some (replicate 16 1)) ∅ heap0); [reflexivity|].
  intros bytes E. injection E as <-. vm_compute. split; congruence.
Defined.

(** A defect.  The flags of a thread created through the old [pthread_create] have
    [ATTR_FLAG_OLDATTR]; [pthread_getattr_np] copies them, and destroying the
    attribute it filled in leaves the extension and the CPU set allocated. *)
Theorem getattr_oldattr_leaks :
  match (res ← pthread_getattr_np lock_thread unlock_thread (0, attr_init0) no_proc ga64 5
                 (thread8 <| pd_flags := ATTR_FLAG_OLDATTR |>);
         pthread_attr_destroy res.2;; mret res.1) (mkHeap ∅ [] 0) with
  | Done ret h => ret = 0 ∧ size (blocks h) = 2%nat
  | Stop _ _ => False
  end.
Proof. vm_compute. repeat split. Qed.
End Examples.
