(* ===== verification/Tsd.v ===== *)
(** Thread-specific data at thread exit ([__nptl_deallocate_tsd], pthread_create.c).

    The destructors are the user's: [destr idx data] is what the destructor of key
    [idx] does to the descriptor of the exiting thread (it may set values again,
    and may allocate blocks of the second level), and is arbitrary. *)
From S2P Require Import Prelude ListHead Nptl Sim.

(** The descriptor, the destructor calls made and the blocks freed, oldest first. *)
Record tsd_state := mkTsd {
  tsd_pd : pthread; tsd_calls : list (nat * ptr); tsd_freed : list nat;
}.
#[export] Instance eta_tsd : Eta tsd_state := λ s, mkTsd (tsd_pd s) (tsd_calls s) (tsd_freed s).

Section Defs.
Context {PF : Platform}.
(** [__pthread_keys]: the sequence number, and whether there is a destructor. *)
Variable keys : nat → Z * bool.
Variable destr : nat → ptr → pthread → pthread.

Definition set_block (cnt : nat) (b : list pthread_key_data) (t : pthread) : pthread :=
  match pd_specific t !! cnt with
  | Some S1stblock => t <| pd_specific_1stblock := b |>
  | Some (SHeap _) => t <| pd_specific := <[cnt := SHeap b]> (pd_specific t) |>
  | _ => t
  end.

(** The block [specific[cnt]] points to. *)
Definition level2 (t : pthread) (cnt : nat) : option (list pthread_key_data) :=
  match pd_specific t !! cnt with
  | Some S1stblock => Some (pd_specific_1stblock t)
  | Some (SHeap b) => Some b
  | _ => None
  end.

Definition level2_entry (t : pthread) (cnt inner : nat) : option pthread_key_data :=
  b ← level2 t cnt; b !! inner.

(** One entry: clear it, and call the destructor if the key is the one the data was
    stored under. *)
Definition run_entry (cnt inner idx : nat) : M tsd_state () :=
  t ← gets tsd_pd;
  match level2 t cnt with
  | None => stop_with Fault
  | Some b =>
      match b !! inner with
      | None => stop_with Fault
      | Some kd =>
          if kd_data kd =? 0 then mret ()
          else
            modify (λ s, s <| tsd_pd :=
              set_block cnt (<[inner := mkKeyData (kd_seq kd) 0]> b) (tsd_pd s) |>);;
            when ((kd_seq kd =? (keys idx).1) && (keys idx).2)
              (modify (λ s, s <| tsd_calls := tsd_calls s ++ [(idx, kd_data kd)] |>
                              <| tsd_pd := destr idx (kd_data kd) (tsd_pd s) |>))
      end
  end.

(** The entries of one block, from [inner] on, and those of all blocks. *)
Fixpoint run_block (n cnt inner idx : nat) : M tsd_state nat :=
  match n with
  | O => mret idx
  | S n => run_entry cnt inner idx;; run_block n cnt (S inner) (S idx)
  end.

Fixpoint run_blocks (n cnt idx : nat) : M tsd_state () :=
  match n with
  | O => mret ()
  | S n =>
      t ← gets tsd_pd;
      idx ← match level2 t cnt with
            | Some _ => run_block PTHREAD_KEY_2NDLEVEL_SIZE cnt 0 idx
            | None => mret (idx + PTHREAD_KEY_1STLEVEL_SIZE)%nat
            end;
      run_blocks n (S cnt) idx
  end.

(** The rounds; whether the last one left data behind. *)
Fixpoint run_rounds (n : nat) : M tsd_state bool :=
  match n with
  | O => mret true
  | S n =>
      modify (λ s, s <| tsd_pd := (tsd_pd s) <| pd_specific_used := false |> |>);;
      run_blocks PTHREAD_KEY_1STLEVEL_SIZE 0 0;;
      t ← gets tsd_pd;
      if negb (pd_specific_used t) then mret false else run_rounds n
  end.

(** Free the blocks of the second level. *)
Definition free_block (cnt : nat) : M tsd_state () :=
  t ← gets tsd_pd;
  match level2 t cnt with
  | Some _ =>
      modify (λ s, s <| tsd_freed := tsd_freed s ++ [cnt] |>
        <| tsd_pd := (tsd_pd s) <| pd_specific := <[cnt := SNull]> (pd_specific (tsd_pd s)) |> |>)
  | None => mret ()
  end.

(** The loop body runs before the number of rounds is tested. *)
Definition nptl_deallocate_tsd : M tsd_state () :=
  t ← gets tsd_pd;
  if negb (pd_specific_used t) then mret ()
  else
    dirty ← run_rounds (Nat.max 1 PTHREAD_DESTRUCTOR_ITERATIONS);
    when dirty (modify (λ s, s <| tsd_pd :=
      (tsd_pd s) <| pd_specific_1stblock := zero_block |> |>));;
    mfor (seq 1 (PTHREAD_KEY_1STLEVEL_SIZE - 1)) free_block;;
    modify (λ s, s <| tsd_pd := (tsd_pd s) <| pd_specific_used := false |> |>).

(** * What the destructors may do *)

(** The table has its size, slot 0 is the embedded block, the others are null or on
    the heap, and every block has its size. *)
Definition table_ok (t : pthread) : Prop :=
  length (pd_specific t) = PTHREAD_KEY_1STLEVEL_SIZE ∧
  pd_specific t !! 0%nat = Some S1stblock ∧
  length (pd_specific_1stblock t) = PTHREAD_KEY_2NDLEVEL_SIZE ∧
  ∀ cnt sp, (0 < cnt)%nat → pd_specific t !! cnt = Some sp →
    match sp with
    | SNull => True
    | S1stblock => False
    | SHeap b => length b = PTHREAD_KEY_2NDLEVEL_SIZE
    end.

(** A destructor calls [pthread_setspecific], which keeps the table well-formed and
    never frees a block. *)
Definition destr_ok : Prop :=
  ∀ idx data t, table_ok t →
    table_ok (destr idx data t) ∧
    ∀ cnt, is_Some (level2 t cnt) → is_Some (level2 (destr idx data t) cnt).
End Defs.

(** The call of the destructor of key [idx], if its data asks for one, and the calls
    in the order of the keys. *)
Definition call_of `{Platform} (keys : nat → Z * bool) (t : pthread) (idx : nat)
    : option (nat * ptr) :=
  match level2_entry t (idx `div` PTHREAD_KEY_2NDLEVEL_SIZE) (idx `mod` PTHREAD_KEY_2NDLEVEL_SIZE) with
  | Some kd =>
      if negb (kd_data kd =? 0) && (kd_seq kd =? (keys idx).1) && (keys idx).2
      then Some (idx, kd_data kd) else None
  | None => None
  end.
Definition pending_calls `{Platform} (keys : nat → Z * bool) (t : pthread) : list (nat * ptr) :=
  omap (call_of keys t) (seq 0 (PTHREAD_KEY_1STLEVEL_SIZE * PTHREAD_KEY_2NDLEVEL_SIZE)).

Section Proofs.
Context {PF : Platform}.
Variable keys : nat → Z * bool.
Variable destr : nat → ptr → pthread → pthread.
Hypothesis Hdestr : destr_ok destr.

Lemma level2_len t cnt b :
  table_ok t → level2 t cnt = Some b → length b = PTHREAD_KEY_2NDLEVEL_SIZE.
Proof.
  intros (_ & H0 & H1 & H2). unfold level2. destruct cnt as [|cnt].
  - rewrite H0. congruence.
  - destruct (pd_specific t !! S cnt) as [[]|] eqn:E; try done; intros [= <-].
    + done.
    + apply (H2 (S cnt) (SHeap b0)); [lia|done].
Qed.

Lemma table_pos t : table_ok t → (0 < PTHREAD_KEY_1STLEVEL_SIZE)%nat.
Proof. intros (E & E0 & _). apply lookup_lt_Some in E0. lia. Qed.

Lemma set_block_ok t cnt b :
  table_ok t → is_Some (level2 t cnt) → length b = PTHREAD_KEY_2NDLEVEL_SIZE →
  table_ok (set_block cnt b t) ∧
  (∀ c, level2 (set_block cnt b t) c = if decide (c = cnt) then Some b else level2 t c).
Proof.
  intros T Hs Hb. pose proof T as (T1 & T2 & T3 & T4). unfold set_block, level2 in *.
  destruct (pd_specific t !! cnt) as [[| |b0]|] eqn:E; try by destruct Hs.
  - assert (cnt = 0%nat) as ->.
    { destruct cnt; [done|]. by destruct (T4 (S cnt) S1stblock ltac:(lia) E). }
    split; [by split_and!|]. intros c. rs. case_decide as D; [by subst; rewrite E|].
    destruct (pd_specific t !! c) as [[]|] eqn:Ec; try done.
    destruct c; [done|]. by destruct (T4 (S c) S1stblock ltac:(lia) Ec).
  - assert (Hc : (0 < cnt)%nat) by (destruct cnt; [congruence|lia]).
    assert (Hlt : (cnt < length (pd_specific t))%nat) by (by eapply lookup_lt_Some).
    split.
    + unfold table_ok. rs. split_and!; [by rewrite length_insert| |done|].
      * by rewrite list_lookup_insert_ne by lia.
      * intros c sp Hc0. destruct (decide (c = cnt)) as [->|Hne].
        -- rewrite list_lookup_insert_eq by done. by intros [= <-].
        -- rewrite list_lookup_insert_ne by done. by apply T4.
    + intros c. rs. case_decide as D; [subst; by rewrite list_lookup_insert_eq|].
      by rewrite list_lookup_insert_ne by done.
Qed.

(** What holds after some of the entries were run. *)
Definition ran (s0 s : tsd_state) (n : nat) : Prop :=
  table_ok (tsd_pd s) ∧ tsd_freed s = tsd_freed s0 ∧
  (∀ cnt, is_Some (level2 (tsd_pd s0) cnt) → is_Some (level2 (tsd_pd s) cnt)) ∧
  ∃ l, tsd_calls s = tsd_calls s0 ++ l ∧ (length l ≤ n)%nat ∧
    ∀ idx data, (idx, data) ∈ l → data ≠ 0 ∧ (keys idx).2 = true.

Lemma ran_trans s0 s1 s2 n m : ran s0 s1 n → ran s1 s2 m → ran s0 s2 (n + m).
Proof.
  intros (T1 & F1 & L1 & l1 & C1 & N1 & G1) (T2 & F2 & L2 & l2 & C2 & N2 & G2).
  split_and!; [done|congruence|auto|]. exists (l1 ++ l2).
  rewrite C2, C1, <- app_assoc, length_app. split_and!; [done|lia|]. set_solver.
Qed.

Lemma ran_refl s : table_ok (tsd_pd s) → ran s s 0.
Proof.
  intros T. split_and!; [done|done|done|]. exists []. rewrite app_nil_r.
  split_and!; [done|done|]. set_solver.
Qed.

Lemma ran_mono s0 s n m : ran s0 s n → (n ≤ m)%nat → ran s0 s m.
Proof. intros (? & ? & ? & l & ? & ? & ?) Hm. split_and!; try done. exists l. split_and!; [done|lia|done]. Qed.

Lemma wp_run_entry cnt inner idx s :
  table_ok (tsd_pd s) → is_Some (level2 (tsd_pd s) cnt) →
  (inner < PTHREAD_KEY_2NDLEVEL_SIZE)%nat →
  wp (run_entry keys destr cnt inner idx) (λ _ s', ran s s' 1) s.
Proof.
  intros T [b Eb] Hi. unfold run_entry. wp_step. wp_step. cbv beta. rewrite Eb.
  pose proof (level2_len _ _ _ T Eb) as Hlen.
  destruct (lookup_lt_is_Some_2 b inner ltac:(lia)) as [kd Ekd]. rewrite Ekd.
  destruct (Z.eqb_spec (kd_data kd) 0) as [|Hd].
  { wp_step. apply (ran_mono _ _ 0); [by apply ran_refl|lia]. }
  do 2 wp_step. set (b' := <[inner := _]> b).
  destruct (set_block_ok (tsd_pd s) cnt b' T ltac:(by rewrite Eb; eauto)
              ltac:(unfold b'; by rewrite length_insert)) as [T' L'].
  set (s1 := s <| tsd_pd := _ |>).
  assert (Hlv : ∀ c, is_Some (level2 (tsd_pd s) c) → is_Some (level2 (set_block cnt b' (tsd_pd s)) c)).
  { intros c Hc. rewrite L'. case_decide; [eauto|done]. }
  wp_step. wp_step.
  - apply andb_true_iff in H as [_ Hk]. wp_step.
    destruct (Hdestr idx (kd_data kd) (set_block cnt b' (tsd_pd s)) T') as [T2 L2].
    split_and!; [done|done|auto|]. exists [(idx, kd_data kd)].
    split_and!; [done|done|]. intros i d Hin. apply list_elem_of_singleton in Hin. by simplify_eq.
  - wp_step. split_and!; [done|done|done|]. exists []. rewrite app_nil_r.
    split_and!; [done|cbn; lia|]. set_solver.
Qed.

Lemma wp_run_block n cnt : ∀ inner idx s,
  table_ok (tsd_pd s) → is_Some (level2 (tsd_pd s) cnt) →
  (inner + n ≤ PTHREAD_KEY_2NDLEVEL_SIZE)%nat →
  wp (run_block keys destr n cnt inner idx) (λ idx' s', idx' = (idx + n)%nat ∧ ran s s' n) s.
Proof.
  induction n as [|n IH]; intros inner idx s T L Hn; cbn [run_block].
  { wp_step. split; [lia|by apply ran_refl]. }
  wp_step. eapply wp_mono; [by apply wp_run_entry; [..|lia]|]. intros [] s1 R1.
  pose proof R1 as (T1 & _ & L1 & _).
  eapply wp_mono; [apply IH; auto; lia|]. intros idx' s2 [-> R2].
  split; [lia|]. by apply (ran_trans _ s1 _ 1 n).
Qed.

Lemma wp_run_blocks n : ∀ cnt idx s,
  table_ok (tsd_pd s) →
  wp (run_blocks keys destr n cnt idx) (λ _ s', ran s s' (n * PTHREAD_KEY_2NDLEVEL_SIZE)) s.
Proof.
  induction n as [|n IH]; intros cnt idx s T; cbn [run_blocks].
  { wp_step. by apply ran_refl. }
  do 2 wp_step. cbv beta. wp_step.
  apply (wp_mono _ (λ _ s', ran s s' PTHREAD_KEY_2NDLEVEL_SIZE)).
  { destruct (level2 (tsd_pd s) cnt) as [b|] eqn:Eb.
    - eapply wp_mono; [apply wp_run_block; [done|by rewrite Eb; eauto|lia]|]. by intros ? ? [_ ?].
    - wp_step. apply (ran_mono _ _ 0); [by apply ran_refl|lia]. }
  intros idx' s1 R1. eapply wp_mono; [apply IH, R1|]. intros [] s2 R2.
  by apply (ran_trans s s1 s2).
Qed.

Lemma wp_run_rounds n : ∀ s,
  table_ok (tsd_pd s) →
  wp (run_rounds keys destr n) (λ _ s',
    ran s s' (n * (PTHREAD_KEY_1STLEVEL_SIZE * PTHREAD_KEY_2NDLEVEL_SIZE))) s.
Proof.
  induction n as [|n IH]; intros s T; cbn [run_rounds].
  { wp_step. by apply ran_refl. }
  do 2 wp_step. wp_step. set (s1 := s <| tsd_pd := _ |>).
  eapply wp_mono; [by apply (wp_run_blocks _ 0 0 s1)|]. intros [] s2 R2.
  assert (R2' : ran s s2 (PTHREAD_KEY_1STLEVEL_SIZE * PTHREAD_KEY_2NDLEVEL_SIZE)) by done.
  pose proof R2 as (T2 & _). do 2 wp_step. cbv beta. wp_step.
  - wp_step. eapply ran_mono; [done|lia].
  - eapply wp_mono; [by apply IH|]. intros b s3 R3.
    rewrite Nat.mul_succ_l, Nat.add_comm. by apply (ran_trans s s2 s3).
Qed.

(** ** Freeing the blocks *)

Lemma wp_free_blocks n : ∀ a s,
  (a + n ≤ length (pd_specific (tsd_pd s)))%nat →
  wp (mfor (seq a n) free_block) (λ _ s',
    tsd_calls s' = tsd_calls s ∧
    tsd_freed s' = tsd_freed s ++ filter (λ c, is_Some (level2 (tsd_pd s) c)) (seq a n) ∧
    pd_specific_1stblock (tsd_pd s') = pd_specific_1stblock (tsd_pd s) ∧
    length (pd_specific (tsd_pd s')) = length (pd_specific (tsd_pd s)) ∧
    (∀ c, (a ≤ c < a + n)%nat → level2 (tsd_pd s') c = None) ∧
    (∀ c, (c < a)%nat → pd_specific (tsd_pd s') !! c = pd_specific (tsd_pd s) !! c)) s.
Proof.
  induction n as [|n IH]; intros a s Hn; cbn [seq mfor].
  { wp_step. rewrite app_nil_r. split_and!; try done. intros c Hc. lia. }
  wp_step. unfold free_block at 1. do 2 wp_step. cbv beta. rewrite filter_cons.
  destruct (level2 (tsd_pd s) a) as [b|] eqn:Eb.
  - rewrite decide_True by eauto. wp_step. set (s1 := s <| tsd_freed := _ |> <| tsd_pd := _ |>).
    assert (Hlen : length (pd_specific (tsd_pd s1)) = length (pd_specific (tsd_pd s)))
      by (subst s1; rs; apply length_insert).
    assert (H1 : ∀ c, c ≠ a → pd_specific (tsd_pd s1) !! c = pd_specific (tsd_pd s) !! c)
      by (intros c Hc; subst s1; rs; by apply list_lookup_insert_ne).
    assert (Ha : pd_specific (tsd_pd s1) !! a = Some SNull)
      by (subst s1; rs; apply list_lookup_insert_eq; lia).
    eapply wp_mono; [apply (IH (S a) s1); lia|].
    intros [] s2 (C & F & B & L & N & O). split_and!; try done; [|congruence|..].
    + rewrite F. subst s1. rs. rewrite <- app_assoc. cbn. do 2 f_equal.
      apply filter_seq_ext. intros c Hc. unfold level2. by rewrite <- H1 by lia.
    + intros c Hc. destruct (decide (c = a)) as [->|Hne]; [|apply N; lia].
      unfold level2. rewrite O by lia. by rewrite Ha.
    + intros c Hc. rewrite O, H1 by lia. done.
  - rewrite decide_False by (intros [? ?]; congruence). wp_step.
    eapply wp_mono; [apply (IH (S a) s); lia|].
    intros [] s2 (C & F & B & L & N & O). split_and!; try done.
    + intros c Hc. destruct (decide (c = a)) as [->|Hne]; [|apply N; lia].
      unfold level2 in *. rewrite O, B by lia. exact Eb.
    + intros c Hc. apply O. lia.
Qed.

(** ** The calls, for destructors that leave the data alone *)

Lemma index_split cnt inner n :
  (inner < n)%nat → ((cnt * n + inner) `div` n = cnt ∧ (cnt * n + inner) `mod` n = inner)%nat.
Proof.
  intros H. split.
  - rewrite Nat.div_add_l by lia. rewrite Nat.div_small by done. lia.
  - rewrite Nat.add_comm, Nat.Div0.mod_add, Nat.mod_small by done. done.
Qed.
End Proofs.

Section Quiet.
Context {PF : Platform}.
Variable keys : nat → Z * bool.
Let quiet : nat → ptr → pthread → pthread := λ _ _ t, t.

(** Only entries before [idx] have been cleared. *)
Definition same_from (t0 t : pthread) (idx : nat) : Prop :=
  table_ok t ∧ (∀ cnt, is_Some (level2 t cnt) ↔ is_Some (level2 t0 cnt)) ∧
  ∀ cnt inner, (inner < PTHREAD_KEY_2NDLEVEL_SIZE)%nat →
    (idx ≤ cnt * PTHREAD_KEY_2NDLEVEL_SIZE + inner)%nat →
    level2_entry t cnt inner = level2_entry t0 cnt inner.

Lemma wp_quiet_entry t0 cnt inner s :
  let idx := (cnt * PTHREAD_KEY_2NDLEVEL_SIZE + inner)%nat in
  same_from t0 (tsd_pd s) idx → is_Some (level2 (tsd_pd s) cnt) →
  (inner < PTHREAD_KEY_2NDLEVEL_SIZE)%nat →
  wp (run_entry keys quiet cnt inner idx) (λ _ s',
    same_from t0 (tsd_pd s') (S idx) ∧
    pd_specific_used (tsd_pd s') = pd_specific_used (tsd_pd s) ∧
    tsd_calls s' = tsd_calls s ++ omap (call_of keys t0) [idx]) s.
Proof.
  intros idx (T & HL & HE) [b Eb] Hi. unfold run_entry. do 2 wp_step. cbv beta. rewrite Eb.
  pose proof (level2_len _ _ _ T Eb) as Hlen.
  destruct (lookup_lt_is_Some_2 b inner ltac:(lia)) as [kd Ekd]. rewrite Ekd.
  assert (Hcall : call_of keys t0 idx =
    if negb (kd_data kd =? 0) && (kd_seq kd =? (keys idx).1) && (keys idx).2
    then Some (idx, kd_data kd) else None).
  { unfold call_of. destruct (index_split cnt inner _ Hi) as [E1 E2]. fold idx in E1, E2.
    rewrite E1, E2.
    rewrite <- HE by (done || lia). unfold level2_entry. rewrite Eb. cbn. by rewrite Ekd. }
  cbn [omap list_omap]. rewrite Hcall.
  destruct (Z.eqb_spec (kd_data kd) 0) as [Hd|Hd]; cbn [negb andb].
  { wp_step. rewrite app_nil_r. split_and!; [|done|done].
    split_and!; [done|done|]. intros c i Hi' Hle. apply HE; [done|lia]. }
  do 2 wp_step. set (b' := <[inner := _]> b).
  destruct (set_block_ok (tsd_pd s) cnt b' T ltac:(by rewrite Eb; eauto)
              ltac:(unfold b'; by rewrite length_insert)) as [T' L'].
  assert (HS : same_from t0 (set_block cnt b' (tsd_pd s)) (S idx)).
  { split_and!; [done| |].
    - intros c. rewrite L'. case_decide; [subst c|by apply HL].
      rewrite <- HL, Eb. split; eauto.
    - intros c i Hi' Hle. rewrite <- HE by (done || lia). unfold level2_entry. rewrite L'.
      case_decide; [subst c|done]. rewrite Eb. cbn. unfold b'.
      apply list_lookup_insert_ne. lia. }
  assert (Hused : pd_specific_used (set_block cnt b' (tsd_pd s)) = pd_specific_used (tsd_pd s)).
  { unfold set_block. by destruct (pd_specific (tsd_pd s) !! cnt) as [[]|]. }
  wp_step. destruct ((kd_seq kd =? (keys idx).1) && (keys idx).2); wp_step; rs.
  - by split_and!.
  - rewrite app_nil_r. by split_and!.
Qed.

Lemma wp_quiet_block t0 n cnt : ∀ inner s,
  let idx := (cnt * PTHREAD_KEY_2NDLEVEL_SIZE + inner)%nat in
  same_from t0 (tsd_pd s) idx → is_Some (level2 (tsd_pd s) cnt) →
  (inner + n ≤ PTHREAD_KEY_2NDLEVEL_SIZE)%nat →
  wp (run_block keys quiet n cnt inner idx) (λ idx' s',
    idx' = (idx + n)%nat ∧ same_from t0 (tsd_pd s') (idx + n) ∧
    pd_specific_used (tsd_pd s') = pd_specific_used (tsd_pd s) ∧
    tsd_calls s' = tsd_calls s ++ omap (call_of keys t0) (seq idx n)) s.
Proof.
  induction n as [|n IH]; intros inner s idx HS HL Hn; cbn [run_block].
  { wp_step. rewrite Nat.add_0_r. cbn. rewrite app_nil_r. by split_and!. }
  wp_step. eapply wp_mono; [by apply wp_quiet_entry; [..|lia]|].
  intros [] s1 (HS1 & U1 & C1). fold idx in HS1, C1.
  replace (S idx) with (cnt * PTHREAD_KEY_2NDLEVEL_SIZE + S inner)%nat in * by lia.
  eapply wp_mono; [apply IH; [done| |lia]|].
  { destruct HS as (_ & HL0 & _). destruct HS1 as (_ & HL1 & _). by apply HL1, HL0. }
  intros idx' s2 (-> & HS2 & U2 & C2). split_and!; [lia| |congruence|].
  - by replace (idx + S n)%nat with (cnt * PTHREAD_KEY_2NDLEVEL_SIZE + S inner + n)%nat by lia.
  - rewrite C2, C1, <- app_assoc, <- omap_app. do 2 f_equal. cbn [seq app]. f_equal.
    f_equal. lia.
Qed.

Lemma no_calls t0 cnt n : ∀ inner,
  level2 t0 cnt = None → (inner + n ≤ PTHREAD_KEY_2NDLEVEL_SIZE)%nat →
  omap (call_of keys t0) (seq (cnt * PTHREAD_KEY_2NDLEVEL_SIZE + inner) n) = [].
Proof.
  induction n as [|n IH]; intros inner E Hn; [done|]. cbn [seq omap list_omap].
  assert (Hc : call_of keys t0 (cnt * PTHREAD_KEY_2NDLEVEL_SIZE + inner) = None).
  { unfold call_of. destruct (index_split cnt inner PTHREAD_KEY_2NDLEVEL_SIZE) as [-> ->]; [lia|].
    unfold level2_entry. by rewrite E. }
  rewrite Hc. replace (S (cnt * PTHREAD_KEY_2NDLEVEL_SIZE + inner))
    with (cnt * PTHREAD_KEY_2NDLEVEL_SIZE + S inner)%nat by lia.
  apply IH; [done|lia].
Qed.

Lemma wp_quiet_blocks t0 n : ∀ cnt s,
  PTHREAD_KEY_1STLEVEL_SIZE = PTHREAD_KEY_2NDLEVEL_SIZE →
  same_from t0 (tsd_pd s) (cnt * PTHREAD_KEY_2NDLEVEL_SIZE) →
  wp (run_blocks keys quiet n cnt (cnt * PTHREAD_KEY_2NDLEVEL_SIZE)) (λ _ s',
    table_ok (tsd_pd s') ∧ (∀ c, is_Some (level2 (tsd_pd s') c) ↔ is_Some (level2 t0 c)) ∧
    pd_specific_used (tsd_pd s') = pd_specific_used (tsd_pd s) ∧
    tsd_calls s' = tsd_calls s ++ omap (call_of keys t0)
      (seq (cnt * PTHREAD_KEY_2NDLEVEL_SIZE) (n * PTHREAD_KEY_2NDLEVEL_SIZE))) s.
Proof.
  induction n as [|n IH]; intros cnt s Hsz HS; cbn [run_blocks].
  { wp_step. cbn. rewrite app_nil_r. destruct HS as (? & ? & _). by split_and!. }
  do 2 wp_step. cbv beta. wp_step. set (N := PTHREAD_KEY_2NDLEVEL_SIZE) in *.
  apply (wp_mono _ (λ idx' s', idx' = (S cnt * N)%nat ∧ same_from t0 (tsd_pd s') (S cnt * N) ∧
    pd_specific_used (tsd_pd s') = pd_specific_used (tsd_pd s) ∧
    tsd_calls s' = tsd_calls s ++ omap (call_of keys t0) (seq (cnt * N) N))).
  { destruct (level2 (tsd_pd s) cnt) as [b|] eqn:Eb.
    - eapply wp_mono.
      { replace (cnt * N)%nat with (cnt * N + 0)%nat by lia.
        apply (wp_quiet_block t0); [by rewrite Nat.add_0_r|by rewrite Eb; eauto|fold N; lia]. }
      fold N. intros idx' s' (-> & H1 & H2 & H3). rewrite Nat.add_0_r in *.
      replace (S cnt * N)%nat with (cnt * N + N)%nat by lia. by split_and!.
    - wp_step. split; [lia|]. assert (E0 : level2 t0 cnt = None).
      { destruct HS as (_ & HL & _). destruct (level2 t0 cnt) eqn:E; [|done].
        destruct (proj2 (HL cnt)) as [x Hx]; [eauto|congruence]. }
      pose proof (no_calls t0 cnt N 0 E0 ltac:(fold N; lia)) as E. fold N in E.
      rewrite Nat.add_0_r in E. rewrite E, app_nil_r.
      destruct HS as (H1 & H2 & H3). split; [|done]. split; [done|]. split; [done|].
      intros c i Hi Hle. apply H3; [done|]. fold N in Hle |- *. lia. }
  intros idx' s1 (-> & HS1 & U1 & C1). eapply wp_mono; [by apply IH|].
  intros [] s2 (T2 & L2 & U2 & C2). split_and!; [done|done|congruence|].
  rewrite C2, C1, <- app_assoc, <- omap_app. do 2 f_equal.
  rewrite (Nat.mul_succ_l n), (Nat.add_comm (n * N)), seq_app. do 2 f_equal. lia.
Qed.
End Quiet.

(** ** What else the exit of a thread leaves alone *)

Section Frame.
Context {PF : Platform} {B : Type}.
Variable keys : nat → Z * bool.
Variable destr : nat → ptr → pthread → pthread.
(** A part of the descriptor that is not thread-specific data. *)
Variable f : pthread → B.
Hypothesis Hf : ∀ t used b l, f (t <| pd_specific_used := used |>) = f t ∧
  f (t <| pd_specific_1stblock := b |>) = f t ∧ f (t <| pd_specific := l |>) = f t.
Hypothesis Hdestr : ∀ idx data t, f (destr idx data t) = f t.

Lemma deallocate_tsd_keeps : keeps (λ s, f (tsd_pd s)) (nptl_deallocate_tsd keys destr).
Proof.
  assert (Hused : ∀ used, keeps (λ s, f (tsd_pd s))
    (modify (λ s, s <| tsd_pd := (tsd_pd s) <| pd_specific_used := used |> |>))).
  { intros used. apply keeps_modify. intros s. apply (Hf _ used [] []). }
  assert (Hentry : ∀ cnt inner idx, keeps (λ s, f (tsd_pd s)) (run_entry keys destr cnt inner idx)).
  { intros cnt inner idx. unfold run_entry. apply keeps_bind; [auto with keeps|]. intros t.
    destruct (level2 t cnt) as [b|]; [|auto with keeps].
    destruct (b !! inner) as [kd|]; [|auto with keeps].
    destruct (kd_data kd =? 0); [auto with keeps|]. apply keeps_bind.
    - apply keeps_modify. intros s. rs. unfold set_block.
      destruct (pd_specific (tsd_pd s) !! cnt) as [[]|]; try done;
        first [apply (Hf _ true _ []) | apply (Hf _ true [] _)].
    - intros _. apply keeps_when, keeps_modify. intros s. rs. apply Hdestr. }
  assert (Hblock : ∀ n cnt inner idx,
    keeps (λ s, f (tsd_pd s)) (run_block keys destr n cnt inner idx)).
  { induction n; intros; cbn [run_block]; [auto with keeps|]. by apply keeps_bind. }
  assert (Hblocks : ∀ n cnt idx, keeps (λ s, f (tsd_pd s)) (run_blocks keys destr n cnt idx)).
  { induction n; intros; cbn [run_blocks]; [auto with keeps|].
    apply keeps_bind; [auto with keeps|]. intros t. apply keeps_bind; [|done].
    destruct (level2 t cnt); [apply Hblock|auto with keeps]. }
  assert (Hrounds : ∀ n, keeps (λ s, f (tsd_pd s)) (run_rounds keys destr n)).
  { induction n; cbn [run_rounds]; [auto with keeps|]. apply keeps_bind; [apply Hused|]. intros _.
    apply keeps_bind; [apply Hblocks|]. intros _. apply keeps_bind; [auto with keeps|]. intros t.
    destruct (negb _); [auto with keeps|done]. }
  unfold nptl_deallocate_tsd. apply keeps_bind; [auto with keeps|]. intros t.
  destruct (negb _); [auto with keeps|]. apply keeps_bind; [apply Hrounds|]. intros dirty.
  apply keeps_bind.
  { apply keeps_when, keeps_modify. intros s. apply (Hf _ true _ []). }
  intros _. apply keeps_bind; [|intros _; apply Hused]. apply keeps_mfor. intros cnt.
  unfold free_block. apply keeps_bind; [auto with keeps|]. intros t'.
  destruct (level2 t' cnt); [|auto with keeps]. apply keeps_modify. intros s. apply (Hf _ true [] _).
Qed.
End Frame.

(** * Properties *)

Section Properties.
Context {PF : Platform} {PL : PlatformLaws}.

Definition cleaned (keys : nat → Z * bool) (s s' : tsd_state) : Prop :=
  pd_specific_used (tsd_pd s') = false ∧
  (pd_specific_used (tsd_pd s) = false → s' = s) ∧
  (pd_specific_used (tsd_pd s) = true →
     (∀ cnt, (0 < cnt < PTHREAD_KEY_1STLEVEL_SIZE)%nat → level2 (tsd_pd s') cnt = None) ∧
     (∃ fs, tsd_freed s' = tsd_freed s ++ fs ∧ NoDup fs ∧
        (∀ cnt, (0 < cnt < PTHREAD_KEY_1STLEVEL_SIZE)%nat →
           is_Some (level2 (tsd_pd s) cnt) → cnt ∈ fs) ∧
        ∀ cnt, cnt ∈ fs → (0 < cnt < PTHREAD_KEY_1STLEVEL_SIZE)%nat) ∧
     ∃ calls, tsd_calls s' = tsd_calls s ++ calls ∧
       (length calls ≤ Nat.max 1 PTHREAD_DESTRUCTOR_ITERATIONS *
          (PTHREAD_KEY_1STLEVEL_SIZE * PTHREAD_KEY_2NDLEVEL_SIZE))%nat ∧
       ∀ idx data, (idx, data) ∈ calls → data ≠ 0 ∧ (keys idx).2 = true).

Lemma wp_deallocate_tsd keys destr s :
  destr_ok destr → table_ok (tsd_pd s) →
  wp (nptl_deallocate_tsd keys destr) (λ _ s', cleaned keys s s') s.
Proof.
  intros HD T. pose proof (table_pos _ T) as HN. unfold nptl_deallocate_tsd. do 2 wp_step. cbv beta. wp_step.
  { apply negb_true_iff in H. wp_step. unfold cleaned. split_and!; [done|done|congruence]. }
  apply negb_false_iff in H. wp_step. eapply wp_mono; [by apply wp_run_rounds|].
  intros dirty s1 (T1 & F1 & L1 & calls & C1 & N1 & G1). wp_step.
  apply (wp_mono _ (λ _ s2, tsd_calls s2 = tsd_calls s1 ∧ tsd_freed s2 = tsd_freed s1 ∧
    pd_specific (tsd_pd s2) = pd_specific (tsd_pd s1) ∧
    ∀ c, is_Some (level2 (tsd_pd s1) c) → is_Some (level2 (tsd_pd s2) c))).
  { wp_step. wp_step; [|wp_step; by split_and!]. wp_step. rs. split_and!; try done.
    unfold level2. rs. intros c. destruct (pd_specific (tsd_pd s1) !! c) as [[]|]; eauto. }
  intros [] s2 (C2 & F2 & S2 & L2). wp_step. destruct T1 as (Hlen & _).
  eapply wp_mono; [apply wp_free_blocks; rewrite S2; lia|].
  intros [] s3 (C3 & F3 & _ & _ & Hn & _). wp_step. unfold cleaned. rs.
  split_and!; [done|congruence|]. intros _. split_and!.
  - intros cnt Hc. apply Hn. lia.
  - eexists. split; [by rewrite F3, F2, F1|]. split_and!.
    + apply NoDup_filter, NoDup_seq.
    + intros cnt Hc Hs. apply list_elem_of_filter. split; [auto|]. apply elem_of_seq. lia.
    + intros cnt [_ Hc%elem_of_seq]%list_elem_of_filter. lia.
  - exists calls. rewrite C3, C2. by split_and!.
Qed.

(** C37: [__nptl_deallocate_tsd] terminates whatever the destructors do, calls a
    destructor only for data that is not null under a key that has one, at most
    once per key and round; it frees every block of the second level exactly
    once, also those the destructors allocated, leaves no pointer to them, and
    clears [specific_used]. *)
Theorem deallocate_tsd_cleans keys destr s :
  destr_ok destr → table_ok (tsd_pd s) →
  wp (nptl_deallocate_tsd keys destr) (λ _ s', cleaned keys s s') s.
Proof. apply wp_deallocate_tsd. Qed.

(** When the destructors do not store new data, each is called exactly once, in
    the order of the keys, with the data of its own key: the index the code
    counts along is that of the key, because both levels of the table have the
    same size. *)
Theorem deallocate_tsd_calls keys s :
  PTHREAD_KEY_1STLEVEL_SIZE = PTHREAD_KEY_2NDLEVEL_SIZE →
  table_ok (tsd_pd s) → pd_specific_used (tsd_pd s) = true →
  wp (nptl_deallocate_tsd keys (λ _ _ t, t)) (λ _ s',
    tsd_calls s' = tsd_calls s ++ pending_calls keys (tsd_pd s)) s.
Proof.
  intros Hsz T Hu. pose proof (table_pos _ T) as HN. unfold nptl_deallocate_tsd. do 2 wp_step. cbv beta. rewrite Hu.
  cbn [negb]. wp_step. destruct (Nat.max 1 _) as [|rounds] eqn:Er; [lia|].
  cbn [run_rounds]. do 3 wp_step. set (s1 := s <| tsd_pd := _ |>).
  eapply wp_mono.
  { apply (wp_quiet_blocks keys (tsd_pd s) PTHREAD_KEY_1STLEVEL_SIZE 0 s1 Hsz).
    split_and!; done. }
  intros [] s2 (T2 & _ & U2 & C2). do 2 wp_step. cbv beta. rewrite U2.
  change (pd_specific_used (tsd_pd s1)) with false. cbn [negb]. do 3 wp_step. cbn [when].
  wp_step. wp_step. destruct T2 as (Hlen & _).
  eapply wp_mono; [apply wp_free_blocks; lia|].
  intros [] s3 (C3 & _). wp_step. rs. rewrite C3, C2. done.
Qed.
End Properties.

(** * Examples *)

Section Examples.
Import X86.

(** Key 3 with a destructor, key 33 of the second block without one, key 40 with
    one but deleted and created again since the data was stored. *)
Definition demo_keys (idx : nat) : Z * bool :=
  if (idx =? 3)%nat then (1, true) else if (idx =? 40)%nat then (3, true) else (1, false).
Definition demo_block (l : list (nat * pthread_key_data)) : list pthread_key_data :=
  foldr (λ '(i, kd), <[i := kd]>) zero_block l.
Definition tsd_demo : tsd_state :=
  mkTsd (pthread0 <| pd_specific_used := true |>
    <| pd_specific_1stblock := demo_block [(3%nat, mkKeyData 1 77)] |>
    <| pd_specific := S1stblock :: SHeap (demo_block [(1%nat, mkKeyData 1 5); (8%nat, mkKeyData 1 6)])
         :: replicate 30 SNull |>) [] [].

(** A destructor that stores its data again. *)
Definition stubborn (idx : nat) (data : ptr) (t : pthread) : pthread :=
  match pd_specific t !! (idx `div` 32)%nat with
  | Some S1stblock =>
      t <| pd_specific_used := true |>
        <| pd_specific_1stblock :=
             <[(idx `mod` 32)%nat := mkKeyData 1 data]> (pd_specific_1stblock t) |>
  | _ => t
  end.

Example stubborn_runs :
  (tsd_calls <$> match nptl_deallocate_tsd demo_keys stubborn tsd_demo with
                 | Done _ s => Some s | Stop _ _ => None end)
  = Some (replicate 4 (3%nat, 77)).
Proof. vm_compute. reflexivity. Qed.

Lemma table_demo : table_ok (tsd_pd tsd_demo).
Proof.
  split_and!; [vm_compute; reflexivity|reflexivity|vm_compute; reflexivity|].
  intros [|[|cnt]] sp H E; [lia| |].
  - cbn in E. injection E as <-. vm_compute. reflexivity.
  - by apply lookup_replicate in E as [-> _].
Qed.

Lemma stubborn_ok : destr_ok stubborn.
Proof.
  intros idx data t T. unfold stubborn. pose proof T as (T1 & T2 & T3 & T4).
  destruct (pd_specific t !! (idx `div` 32)%nat) as [[| |b]|] eqn:E; try (split; [exact T|auto]; fail).
  split.
  - split_and!; [exact T1|exact T2|rs; by rewrite length_insert|exact T4].
  - unfold level2. rs. intros cnt. destruct (pd_specific t !! cnt) as [[]|]; eauto.
Qed.

Lemma deallocate_tsd_cleans_witness :
  table_ok (tsd_pd tsd_demo) ∧ destr_ok stubborn ∧
  wp (nptl_deallocate_tsd demo_keys stubborn)
    (λ _ s', cleaned demo_keys tsd_demo s') tsd_demo.
Proof.
  split; [apply table_demo|]. split; [apply stubborn_ok|].
  apply (deallocate_tsd_cleans demo_keys stubborn tsd_demo stubborn_ok table_demo).
Defined.

Lemma deallocate_tsd_calls_witness :
  pending_calls demo_keys (tsd_pd tsd_demo) = [(3%nat, 77)] ∧
  wp (nptl_deallocate_tsd demo_keys (λ _ _ t, t)) (λ _ s',
    tsd_calls s' = tsd_calls tsd_demo ++ pending_calls demo_keys (tsd_pd tsd_demo)) tsd_demo.
Proof.
  split; [vm_compute; reflexivity|].
  apply (deallocate_tsd_calls demo_keys tsd_demo); [reflexivity|apply table_demo|reflexivity].
Defined.
End Examples.
