(* ===== verification/Process.v ===== *)
(** The state around the thread library: what [pthread_create.c], [createthread.c],
    [pthread_join_common.c] and [pthread_cancel.c] see besides [nptl].

    Other threads are an argument: [run_thread pd] is everything they do from the
    moment the thread of [pd] is let go, and is an arbitrary function on the
    library's state (it may end the thread and unmap its descriptor).  The
    system calls of these files are arguments too. *)
From S2P Require Import Prelude ListHead Nptl Sim StackCache Demo StackCacheProofs AllocateStack.

(** [unsigned int]. *)
Definition w32 (x : Z) : Z := x `mod` 4294967296.

Record process {K : Type} := mkProcess {
  lib : nptl K;
  last_event : ptr;               (* [__nptl_last_event] *)
  single_threaded : bool;         (* [__libc_single_threaded] *)
  sigmask : Z;                    (* of the calling thread *)
  attr_freed : list ptr;          (* what [__pthread_attr_destroy] freed *)
}.
Arguments process K : clear implicits.
Arguments mkProcess {K}.
#[export] Instance eta_process {K} : Eta (process K) := λ s, mkProcess
  (lib s) (last_event s) (single_threaded s) (sigmask s) (attr_freed s).

(** The rest of the system. *)
Class Env (K : Type) := {
  run_thread : ptr → nptl K → nptl K;
  cancel_thread : ptr → nptl K → nptl K;          (* after [tgkill (..., SIGCANCEL)] *)
  sys_clone : ptr → nptl K → Z + Z;               (* [errno], or the thread id *)
  sys_setaffinity : Z → Z → list Z → nptl K → option Z;
  sys_setscheduler : Z → Z → Z → nptl K → option Z;
  getattr_default : nptl K → Z + pthread_attr;    (* [__pthread_getattr_default_np] *)
  collect_default_sched : pthread → pthread;
  TD_CREATE : Z; TD_DEATH : Z;                    (* event numbers, from 1 *)
  threads_events : Z;                             (* [__nptl_threads_events] *)
}.

(** Documented behaviour: error numbers are positive, and
    [collect_default_sched] fills in the scheduling fields. *)
Class EnvLaws (K : Type) `{!Env K} := {
  clone_errno p n e : sys_clone p n = inl e → e ≠ 0;
  setaffinity_errno tid sz b n e : sys_setaffinity tid sz b n = Some e → e ≠ 0;
  setscheduler_errno tid p q n e : sys_setscheduler tid p q n = Some e → e ≠ 0;
  getattr_errno n e : getattr_default n = inl e → e ≠ 0;
  collect_fields t : ∃ p q fl, collect_default_sched t =
    t <| pd_schedpolicy := p |> <| pd_schedparam := q |> <| pd_flags := fl |>;
}.

Section Defs.
Context {K : Type} {PF : Platform} {LA : ListApi} {KN : Kernel K} {EV : Env K}.

(** A call into the library's own state. *)
Definition lift {A} (m : M (nptl K) A) : M (process K) A := λ s,
  match m (lib s) with
  | Done a n => Done a (s <| lib := n |>)
  | Stop w n => Stop w (s <| lib := n |>)
  end.

#[export] Instance process_free : Free (process K) := λ p,
  when (negb (p =? 0)) (modify (λ s, s <| attr_freed := attr_freed s ++ [p] |>)).

(** [lll_lock (pd->lock, LLL_PRIVATE)] by a thread that nobody else wakes. *)
Definition lock_pd (pd : ptr) : M (nptl K) () :=
  t ← load_pd pd;
  if pd_lock t =? 0 then upd_pd pd (λ t, t <| pd_lock := 1 |>) else stop_with Blocked.

(** [lll_unlock (pd->lock, LLL_PRIVATE)]: the thread that waits for it runs. *)
Definition unlock_pd (pd : ptr) : M (nptl K) () :=
  upd_pd pd (λ t, t <| pd_lock := 0 |>);; modify (run_thread pd).

(** All signals; [__libc_signal_block_all], [__libc_signal_restore_set]. *)
Definition SIGALL_SET : Z := 18446744073709551615.
Definition block_all : M (process K) Z :=
  m ← gets sigmask; modify (λ s, s <| sigmask := SIGALL_SET |>);; mret m.
Definition restore_set (m : Z) : M (process K) () := modify (λ s, s <| sigmask := m |>).
Definition sigdelset (m sig : Z) : Z := Z.clearbit m (sig - 1).

(** Whether event [ev] is wanted for a thread. *)
Definition wants_event (ev : Z) (t : pthread) : bool :=
  Z.testbit (Z.lor threads_events (ev_mask (pd_eventbuf t))) (ev - 1).

(** Push the descriptor on the list of the debugger. *)
Definition enqueue_event (pd : ptr) (ev : Z) : M (process K) () :=
  lift (upd_pd pd (λ t, t <| pd_eventbuf := mkEventbuf (ev_mask (pd_eventbuf t)) ev pd |>));;
  last ← gets last_event;
  lift (upd_pd pd (λ t, t <| pd_nextevent := last |>));;
  modify (λ s, s <| last_event := pd |>).
End Defs.

Section Rules.
Context {K : Type} {PF : Platform} {PL : PlatformLaws} {LA : ListApi} {LL : ListLaws}.
Context {KN : Kernel K} {KL : KernelLaws (K := K)} {EV : Env K}.

Lemma wp_lift {A} (m : M (nptl K) A) (Q : A → process K → Prop) s :
  wp m (λ a n, Q a (s <| lib := n |>)) (lib s) → wp (lift m) Q s.
Proof. unfold wp, lift. by destruct (m (lib s)). Qed.

Lemma wp_lock_pd p t (Q : () → nptl K → Prop) s :
  pds s !! p = Some t → pd_lock t = 0 →
  Q () (s <| pds := <[p := t <| pd_lock := 1 |>]> (pds s) |>) → wp (lock_pd p) Q s.
Proof.
  intros Et El HQ. unfold lock_pd. wp_step. eapply wp_load_pd; [done|]. rewrite El.
  cbn [Z.eqb]. by eapply wp_upd_pd.
Qed.

Lemma wp_unlock_pd p t (Q : () → nptl K → Prop) s :
  pds s !! p = Some t →
  Q () (run_thread p (s <| pds := <[p := t <| pd_lock := 0 |>]> (pds s) |>)) →
  wp (unlock_pd p) Q s.
Proof. intros Et HQ. unfold unlock_pd. wp_step. by eapply wp_upd_pd. Qed.

(** Where a running thread's descriptor is, and the lists without it. *)
Definition placed (n : nptl K) (pd : ptr) (u c r : list ptr) : Prop :=
  (∃ u1 u2, u = u1 ++ u2 ∧ rep n (lists (u1 ++ pd :: u2) c r)) ∨
  (∃ r1 r2, r = r1 ++ r2 ∧ rep n (lists u c (r1 ++ pd :: r2))).

Lemma placed_notin n pd u c r : placed n pd u c r → pd ∉ u ++ r.
Proof.
  intros [(l1 & l2 & -> & R)|(l1 & l2 & -> & R)];
    pose proof (rings_all_nodup _ _ _ _ (rep_rings _ _ R)) as N; revert N.
  - rewrite <- app_assoc. cbn. rewrite <- Permutation_middle, NoDup_cons. set_solver.
  - rewrite !app_assoc, <- Permutation_middle, NoDup_cons. set_solver.
Qed.

(** Fields of other parts may change. *)
Lemma placed_ext n n' pd u c r :
  placed n pd u c r → pds n' = pds n → links n' = links n →
  stack_cache_actsize n' = stack_cache_actsize n → kern n' = kern n → placed n' pd u c r.
Proof.
  intros [(l1 & l2 & -> & R)|(l1 & l2 & -> & R)] Ep El Ea Ek; [left|right];
    exists l1, l2; (split; [done|]); (apply (rep_ext n _ _ R El Ea);
    [intros i q _; by rewrite Ep | intros a; by rewrite Ek]).
Qed.

(** Stores into descriptors that leave the blocks alone. *)
Lemma placed_upd n n' pd u c r p t t' :
  placed n pd u c r → pds n !! p = Some t → geom t' = geom t → pds n' = <[p := t']> (pds n) →
  links n' = links n → stack_cache_actsize n' = stack_cache_actsize n → kern n' = kern n →
  placed n' pd u c r.
Proof.
  intros [(l1 & l2 & -> & R)|(l1 & l2 & -> & R)] Et Eg Ep El Ea Ek; [left|right];
    exists l1, l2; (split; [done|]);
    (eapply (rep_upd n n' _ p t t' R Et Eg Ep El Ea); intros a; by rewrite Ek).
Qed.

(** [__deallocate_stack] of a thread of either kind. *)
Lemma wp_deallocate n pd u c r t :
  munmap_succeeds (K := K) → placed n pd u c r → stack_cache_lock n = 0 → pds n !! pd = Some t →
  wp (deallocate_stack pd) (λ _ n',
    (∃ c', rep n' (lists u c' r)) ∧ others_kept n n' (u ++ r) ∧ config n' = config n ∧
    stack_cache_lock n' = 0 ∧ errno n' = errno n ∧ freed n' = freed n) n.
Proof.
  intros Hun [(l1 & l2 & -> & R)|(l1 & l2 & -> & R)] Hl Et.
  - eapply wp_mono; [by apply (wp_deallocate_stack n l1 pd l2 c r t)|].
    intros [] n'. destruct (trim _ _ _ _) as [k a]. intros (R' & _ & Ho & ? & ? & ? & ?).
    split_and!; try done; [by exists k|]. intros q Hq. apply Ho. set_solver.
  - eapply wp_mono; [by apply (wp_deallocate_user n u c l1 pd l2 t)|].
    intros [] n' (R' & Ep & ? & _ & _ & ? & ? & ?).
    split_and!; try done; [by exists c|]. intros q _. by rewrite Ep.
Qed.
End Rules.

(** * Threads to run the model with *)

Module SimThreads.
Import X86 ListH.

(** A new thread ends at once, and its descriptor is gone when [clone] returns; a
    thread that is cancelled ends and tells the kernel. *)
Definition gone (pd : ptr) (n : nptl simk) : nptl simk := n <| pds := delete pd (pds n) |>.
Definition ended (pd : ptr) (n : nptl simk) : nptl simk :=
  n <| pds := alter (λ t, t <| pd_tid := 0 |>) pd (pds n) |>
    <| nptl_nthreads := w32 (nptl_nthreads n - 1) |>.

(** The system refuses to bind a thread to processors. *)
#[export] Instance demo_env : Env simk := {
  run_thread := gone; cancel_thread := ended;
  sys_clone _ _ := inr 200;
  sys_setaffinity _ _ _ _ := Some EINVAL; sys_setscheduler _ _ _ _ := None;
  getattr_default _ := inr (mkAttr 0 0 0 4096 0 (256 * KiB)
    (Some (mkExt 7000 0 0 [] 0 false)));
  collect_default_sched t := t; TD_CREATE := 8; TD_DEATH := 9; threads_events := 0;
}.
#[export] Instance demo_env_laws : EnvLaws simk.
Proof.
  split; try done.
  - intros ? ? ? ? ? [= <-]. done.
  - intros t. exists (pd_schedpolicy t), (pd_schedparam t), (pd_flags t). by destruct t.
Qed.

Definition demo_self : ptr := next_pd (8 * MiB) s_init.
Definition demo_process : process simk := mkProcess demo 0 true 5 [].

Lemma demo_self_live : is_Some (pds demo !! demo_self).
Proof. apply (rep_live _ _ rep_demo Used). apply list_elem_of_singleton. reflexivity. Qed.

Lemma demo_self_placed : placed demo demo_self [] demo_c [].
Proof. left. exists [], []. split; [reflexivity|]. apply rep_demo. Qed.
End SimThreads.
