(* ===== verification/ThreadExit.v ===== *)
(** The end of a thread ([start_thread], [__free_tcb], [__find_in_stack_list],
    pthread_create.c).

    What the thread runs and what other threads do meanwhile are arguments: the
    user's routine, the destructors of thread-specific data, and the threads that
    answer a pending set*id call.  [None] as the result of the routine stands for
    a thread that was cancelled or called [pthread_exit], which comes back
    through [setjmp] with its result already stored. *)
From S2P Require Import Prelude ListHead Nptl Sim StackCache Demo StackCacheProofs AllocateStack Tsd Process.

Section Defs.
Context {K : Type} {PF : Platform} {LA : ListApi} {KN : Kernel K} {EV : Env K}.
Implicit Types pd : ptr.

(** The descriptor, if it is in a list of running threads. *)
Definition find_in_stack_list pd : M (nptl K) (option ptr) :=
  lock_cache;;
  used ← gets (λ s, list_for_each (links s) stack_used);
  user ← gets (λ s, list_for_each (links s) stack_user);
  let found := existsb (λ e, list_entry e =? pd) used
               || existsb (λ e, list_entry e =? pd) user in
  unlock_cache;;
  mret (if found then Some pd else None).

(** [atomic_bit_test_set (&pd->cancelhandling, bit)]: whether it was set before. *)
Definition test_set_bit pd (mask : Z) : M (nptl K) bool :=
  t ← load_pd pd;
  upd_pd pd (λ t, t <| pd_cancelhandling := Z.lor (pd_cancelhandling t) mask |>);;
  mret (has (pd_cancelhandling t) mask).

(** [debugging]: the library was built with [DEBUGGING_P]. *)
Definition free_tcb (debugging : bool) pd : M (nptl K) () :=
  before ← test_set_bit pd TERMINATED_BITMASK;
  if before : bool then mret ()
  else
    (if debugging then
       r ← find_in_stack_list pd;
       match r with Some _ => mret () | None => stop_with Aborted end
     else mret ());;
    t ← load_pd pd;
    when (negb (pd_tpp t =? 0))
      (upd_pd pd (λ t, t <| pd_tpp := 0 |>);; free_mem (pd_tpp t));;
    deallocate_stack pd.

(** What surrounds the thread. *)
Variable user_code : ptr → ptr → bool → nptl K → nptl K * option ptr.
Variable user_mask : ptr → ptr → bool → nptl K → Z.       (* the signal mask that it leaves *)
Variable keys : nat → Z * bool.
Variable destr : nat → ptr → pthread → pthread.
Variable setxid_reply : nptl K → nptl K.

(** [atomic_exchange_acq (&pd->setxid_futex, 0)]; a waiter is woken. *)
Definition allow_setxid pd : M (nptl K) () := upd_pd pd (λ t, t <| pd_setxid_futex := 0 |>).

(** The stopped thread waits for the creator's unlock. *)
Definition wait_for_creator pd : M (nptl K) () :=
  t ← load_pd pd;
  when (pd_stopped_start t) (lock_pd pd;; upd_pd pd (λ t, t <| pd_lock := 0 |>)).

(** The routine, and the code after the second return of [setjmp] when it was left by an unwinding. *)
Definition run_user pd : M (process K) () :=
  t ← lift (load_pd pd);
  n ← gets lib;
  let '(n', ret) := user_code (pd_start_routine t) (pd_arg t) (pd_c11 t) n in
  modify (λ s, s <| lib := n' |> <| sigmask := user_mask (pd_start_routine t) (pd_arg t) (pd_c11 t) n |>);;
  match ret with
  | Some ret => lift (upd_pd pd (λ t, t <| pd_result := ret |>))
  | None => t ← lift (load_pd pd); restore_set (pd_sigmask t);; lift (allow_setxid pd)
  end.

(** The destructors of thread-specific data, on the descriptor. *)
Definition deallocate_tsd pd : M (nptl K) () :=
  t ← load_pd pd;
  match nptl_deallocate_tsd keys destr (mkTsd t [] []) with
  | Done _ ts => upd_pd pd (λ _, tsd_pd ts)
  | Stop w _ => stop_with w
  end.

(** [atomic_decrement_and_test (&__nptl_nthreads)], and [exit (0)] for the last. *)
Definition one_less_thread : M (nptl K) () :=
  modify (λ n, n <| nptl_nthreads := w32 (nptl_nthreads n - 1) |>);;
  k ← gets nptl_nthreads;
  when (k =? 0) (stop_with Exited).

Definition report_death pd : M (process K) () :=
  t ← lift (load_pd pd);
  when (pd_report_events t && wants_event TD_DEATH t && (pd_nextevent t =? 0))
    (enqueue_event pd TD_DEATH).

(** Wait, [fuel] times at most, until no set*id call is pending. *)
Fixpoint wait_setxid (fuel : nat) pd : M (nptl K) () :=
  match fuel with
  | O => stop_with Blocked
  | S fuel =>
      modify setxid_reply;;
      t ← load_pd pd;
      if has (pd_cancelhandling t) SETXID_BITMASK then wait_setxid fuel pd
      else upd_pd pd (λ t, t <| pd_setxid_futex := 0 |>)
  end.

Definition answer_setxid (fuel : nat) pd : M (nptl K) () :=
  t ← load_pd pd;
  when (has (pd_cancelhandling t) SETXID_BITMASK) (wait_setxid fuel pd).

(** [__exit_thread]: the kernel clears the thread id, if it is still mapped. *)
Definition exit_thread pd : M (nptl K) () :=
  modify (λ n, n <| pds := alter (λ t, t <| pd_tid := 0 |>) pd (pds n) |>).

(** From the end of the routine on; [sp] is the current stack frame. *)
Definition end_thread (debugging : bool) (sp : Z) (fuel : nat) pd : M (process K) () :=
  lift (deallocate_tsd pd);;
  lift one_less_thread;;
  report_death pd;;
  lift (
    upd_pd pd (λ t, t <| pd_cancelhandling := Z.lor (pd_cancelhandling t) EXITING_BITMASK |>);;
    t ← load_pd pd;
    when (negb (pd_user_stack t))
      (advise_stack_range sp (pd_stackblock t) (pd_stackblock_size t));;
    answer_setxid fuel pd;;
    t ← load_pd pd;
    when (IS_DETACHED pd t) (free_tcb debugging pd);;
    exit_thread pd).

Definition start_thread (debugging : bool) (sp : Z) (fuel : nat) pd : M (process K) () :=
  t ← lift (load_pd pd);
  restore_set (pd_sigmask t);;
  lift (allow_setxid pd;; wait_for_creator pd);;
  run_user pd;;
  end_thread debugging sp fuel pd.
End Defs.

(** * Freeing a descriptor *)

Section FreeTcb.
Context {K : Type} {PF : Platform} {PL : PlatformLaws} {LA : ListApi} {LL : ListLaws}.
Context {KN : Kernel K} {KL : KernelLaws (K := K)} {EV : Env K}.
Implicit Types n : nptl K.

Lemma lor_has x b : 0 ≤ b → has x (bitmask b) = true → Z.lor x (bitmask b) = x.
Proof.
  intros Hb. rewrite has_bit by done. intros Hx. apply Z.bits_inj'. intros i Hi.
  rewrite Z.lor_spec, bitmask_spec by done.
  case_bool_decide; [subst; by rewrite Hx|by rewrite orb_false_r].
Qed.

Lemma cancel_bit_range :
  0 ≤ CANCELING_BIT ∧ 0 ≤ CANCELED_BIT ∧ 0 ≤ EXITING_BIT ∧ 0 ≤ TERMINATED_BIT ∧ 0 ≤ SETXID_BIT.
Proof. pose proof cancel_bits_range as H. repeat apply Forall_cons in H as [? H]. lia. Qed.

Lemma cancel_bit_distinct :
  TERMINATED_BIT ≠ EXITING_BIT ∧ SETXID_BIT ≠ EXITING_BIT ∧ TERMINATED_BIT ≠ SETXID_BIT.
Proof.
  pose proof cancel_bits as N. repeat (apply NoDup_cons in N as [? N]). set_solver.
Qed.

Lemma wp_find_in_stack_list n pd u c r (Q : option ptr → nptl K → Prop) :
  placed n pd u c r → stack_cache_lock n = 0 → Q (Some pd) n → wp (find_in_stack_list pd) Q n.
Proof.
  intros Hp Hl HQ. unfold find_in_stack_list. wp_step. apply wp_lock_cache; [done|].
  do 4 wp_step. cbv beta. wp_step. wp_step. wp_step.
  assert (∃ i L, rep n L ∧ pd ∈ L i ∧ i ≠ Cache) as (i & L & R & Hin & Hi).
  { destruct Hp as [(l1 & l2 & -> & R)|(l1 & l2 & -> & R)];
      [exists Used | exists User]; eexists; (split_and!; [exact R|cbn; set_solver|done]). }
  assert (Hf : existsb (λ e, list_entry e =? pd) (list_for_each (links n) (head_of i)) = true).
  { rewrite (rings_entries _ _ i (rep_rings _ _ R)). apply existsb_exists.
    exists (list_of pd). rewrite list_entry_of, Z.eqb_refl. split; [|done].
    apply list_elem_of_In, list_elem_of_fmap. eauto. }
  rs. destruct i; [|done|]; cbn in Hf; rewrite Hf, ?orb_true_r; cbn [orb];
    by destruct n; cbn in Hl; subst.
Qed.

(** What [__free_tcb] does for a thread whose descriptor nobody has freed yet. *)
Definition tcb_freed n u r (t : pthread) n' : Prop :=
  (∃ c', rep n' (lists u c' r)) ∧ others_kept n n' (u ++ r) ∧ config n' = config n ∧
  stack_cache_lock n' = 0 ∧ freed n' = freed n ++ filter (λ p, p ≠ 0) [pd_tpp t].

Definition free_post n u r (t : pthread) n' : Prop :=
  if has (pd_cancelhandling t) TERMINATED_BITMASK then n' = n else tcb_freed n u r t n'.

Lemma placed_kept n pd u c r t : placed n pd u c r → others_kept n (n <| pds := <[pd := t]> (pds n) |>) (u ++ r).
Proof.
  intros Hp q Hq. apply lookup_insert_ne. intros <-. by apply (placed_notin n pd u c r).
Qed.

Lemma wp_free_tcb debugging n pd u c r t :
  munmap_succeeds (K := K) → placed n pd u c r → stack_cache_lock n = 0 → pds n !! pd = Some t →
  wp (free_tcb debugging pd) (λ _ n', free_post n u r t n') n.
Proof.
  intros Hun Hp Hl Et. pose proof cancel_bit_range as (_ & _ & _ & Hb & _).
  unfold free_tcb, test_set_bit, free_post. do 2 wp_step. eapply wp_load_pd; [exact Et|]. wp_step.
  eapply wp_upd_pd; [exact Et|]. wp_step. destruct (has _ _) eqn:Eh.
  { wp_step. unfold TERMINATED_BITMASK in *. rewrite lor_has by done.
    destruct n, t. unfold set_field. cbn in *. by rewrite insert_id. }
  set (t1 := t <| pd_cancelhandling := _ |>). set (n1 := n <| pds := _ |>).
  assert (Hp1 : placed n1 pd u c r) by (by eapply (placed_upd n n1 pd u c r pd t t1)).
  assert (Et1 : pds n1 !! pd = Some t1) by (subst n1; rs; apply lookup_insert_eq).
  assert (Hk1 : others_kept n n1 (u ++ r)) by by eapply placed_kept.
  wp_step. apply (wp_mono _ (λ _ n2, n2 = n1)).
  { destruct debugging; [|by wp_step]. wp_step. eapply wp_find_in_stack_list; [exact Hp1|done|].
    by wp_step. }
  intros [] ? ->. wp_step. eapply wp_load_pd; [exact Et1|].
  wp_step. apply (wp_mono _ (λ _ n2, ∃ t2, placed n2 pd u c r ∧ pds n2 !! pd = Some t2 ∧
    stack_cache_lock n2 = 0 ∧ others_kept n n2 (u ++ r) ∧ config n2 = config n ∧
    freed n2 = freed n ++ filter (λ p, p ≠ 0) [pd_tpp t])).
  { change (pd_tpp t1) with (pd_tpp t). rewrite filter_cons.
    destruct (Z.eqb_spec (pd_tpp t) 0) as [E|E]; cbn [negb when].
    - rewrite decide_False by tauto. wp_step. exists t1. rewrite app_nil_r. by split_and!.
    - rewrite decide_True by done. wp_step. eapply wp_upd_pd; [exact Et1|].
      unfold free_mem. rewrite (proj2 (Z.eqb_neq _ _) E). cbn [negb when]. wp_step.
      set (t2 := t1 <| pd_tpp := 0 |>). exists t2. rs. split_and!; try done.
      + by eapply (placed_upd n1 _ pd u c r pd t1 t2).
      + apply lookup_insert_eq.
      + eapply others_trans; [exact Hk1|]. by eapply (placed_kept n1). }
  intros [] n2 (t2 & Hp2 & Et2 & Hl2 & Hk2 & Hc2 & Hf2).
  eapply wp_mono; [by eapply wp_deallocate|].
  intros [] n3 (Hrep & Hk3 & Hc3 & Hl3 & _ & Hf3). split_and!; try done; [|congruence..].
  by eapply others_trans.
Qed.
End FreeTcb.

(** * The end of a thread *)

(** The thread runs: its descriptor is in a list of running threads. *)
Record running `{Platform, ListApi, !Kernel K, !KernelLaws (K := K)} (pd : ptr) (t : pthread)
    (n : nptl K) : Prop := {
  run_placed : ∃ u c r, placed n pd u c r;
  run_pd : pds n !! pd = Some t;
  run_lock : stack_cache_lock n = 0;
}.

(** What must not change under a thread that ends. *)
Definition fate `{Platform} (t : pthread) : ptr * Z * bool * bool :=
  (geom t, has (pd_cancelhandling t) TERMINATED_BITMASK).

Section Exit.
Context {K : Type} {PF : Platform} {PL : PlatformLaws} {LA : ListApi} {LL : ListLaws}.
Context {KN : Kernel K} {KL : KernelLaws (K := K)} {EV : Env K}.
Implicit Types (n : nptl K) (s : process K).

Lemma running_upd pd t t' n n' :
  running pd t n → geom t' = geom t → pds n' = <[pd := t']> (pds n) →
  links n' = links n → stack_cache_actsize n' = stack_cache_actsize n → kern n' = kern n →
  stack_cache_lock n' = stack_cache_lock n → running pd t' n'.
Proof.
  intros [(u & c & r & Hp) Et Hl] Eg E El Ea Ek Elk. split; [|by rewrite E, lookup_insert_eq|congruence].
  exists u, c, r. by eapply placed_upd.
Qed.

Lemma wp_running_upd pd t f (Q : () → nptl K → Prop) n :
  running pd t n → geom (f t) = geom t →
  (∀ n', running pd (f t) n' → nptl_nthreads n' = nptl_nthreads n → Q () n') →
  wp (upd_pd pd f) Q n.
Proof.
  intros Hr Eg HQ. eapply wp_upd_pd; [apply Hr|]. apply HQ; [|done]. by eapply running_upd.
Qed.

Variable user_code : ptr → ptr → bool → nptl K → nptl K * option ptr.
Variable user_mask : ptr → ptr → bool → nptl K → Z.
Variable keys : nat → Z * bool.
Variable destr : nat → ptr → pthread → pthread.
Variable setxid_reply : nptl K → nptl K.
Variables (pd sp : Z) (fuel : nat) (t0 : pthread).

(** Whatever the user's code and the other threads do, they do not free a thread
    that has not ended, it is not the last one, and a pending set*id call is
    answered in time. *)
Hypothesis Huser : ∀ f a b n t, running pd t n → fate t = fate t0 → table_ok t →
  ∃ t', running pd t' (user_code f a b n).1 ∧ fate t' = fate t0 ∧ table_ok t' ∧
    1 < nptl_nthreads (user_code f a b n).1 < 4294967296.
Hypothesis Hdestr : destr_ok destr.
Hypothesis Hframe : ∀ idx data t, (geom (destr idx data t), pd_result (destr idx data t),
  pd_cancelhandling (destr idx data t)) = (geom t, pd_result t, pd_cancelhandling t).
Hypothesis Hreply : ∀ n t, running pd t n → ∃ t', running pd t' (setxid_reply n) ∧
  (fate t', pd_result t', pd_joinid t', has (pd_cancelhandling t') EXITING_BITMASK) =
  (fate t, pd_result t, pd_joinid t, has (pd_cancelhandling t) EXITING_BITMASK).
Hypothesis Hanswer : ∀ n, ∃ k, (k < fuel)%nat ∧
  ∀ t, pds (Nat.iter (S k) setxid_reply n) !! pd = Some t →
    has (pd_cancelhandling t) SETXID_BITMASK = false.
Hypothesis Hsp : pd_user_stack t0 = false →
  pd_stackblock t0 ≤ sp < pd_stackblock t0 + pd_stackblock_size t0.
Hypothesis Hblock : 0 ≤ pd_stackblock t0 ∧ pd_stackblock_size t0 < W64.
Hypothesis Hterm : has (pd_cancelhandling t0) TERMINATED_BITMASK = false.
Hypothesis Hun : munmap_succeeds (K := K).

Lemma wp_run_tsd t n (Q : () → nptl K → Prop) :
  running pd t n → table_ok t →
  (∀ t' n', running pd t' n' → fate t' = fate t → pd_result t' = pd_result t →
     nptl_nthreads n' = nptl_nthreads n → Q () n') →
  wp (deallocate_tsd keys destr pd) Q n.
Proof.
  intros Hr T HQ. unfold deallocate_tsd. wp_step. eapply wp_load_pd; [apply Hr|].
  set (part := λ t, (geom t, pd_result t, pd_cancelhandling t)).
  assert (H : wp (nptl_deallocate_tsd keys destr)
    (λ _ (ts : tsd_state), part (tsd_pd ts) = part (tsd_pd (mkTsd t [] []))) (mkTsd t [] [])).
  { apply (keeps_wp (λ ts : tsd_state, part (tsd_pd ts))).
    - apply deallocate_tsd_keeps; [by intros|exact Hframe].
    - eapply wp_mono; [by apply wp_deallocate_tsd|done]. }
  apply wp_done in H as (a & ts & -> & E). cbn [tsd_pd] in E. unfold part in E.
  injection E as Eb Esz Eu Er Ec.
  eapply wp_running_upd; [exact Hr|unfold geom; congruence|]. intros n' Hr' En.
  apply (HQ (tsd_pd ts)); [done|unfold fate, geom; congruence|done|done].
Qed.

(** The answer to a set*id call leaves what the exit needs. *)
Definition same_end (t t' : pthread) : Prop :=
  (fate t', pd_result t', pd_joinid t', has (pd_cancelhandling t') EXITING_BITMASK) =
  (fate t, pd_result t, pd_joinid t, has (pd_cancelhandling t) EXITING_BITMASK).

Lemma wp_wait_setxid k : ∀ fl t n (Q : () → nptl K → Prop),
  (k < fl)%nat → running pd t n →
  (∀ t, pds (Nat.iter (S k) setxid_reply n) !! pd = Some t →
     has (pd_cancelhandling t) SETXID_BITMASK = false) →
  (∀ t' n', running pd t' n' → same_end t t' → Q () n') →
  wp (wait_setxid setxid_reply fl pd) Q n.
Proof.
  induction k as [|k IH]; intros [|fl] t n Q Hk Hr Hdone HQ; try lia; cbn [wait_setxid];
    do 2 wp_step; wp_step; destruct (Hreply n t Hr) as (t' & Hr' & E);
    (eapply wp_load_pd; [apply Hr'|]).
  - rewrite (Hdone t') by apply Hr'. eapply wp_running_upd; [exact Hr'|done|].
    intros n' Hr2 _. eapply HQ; [exact Hr2|exact E].
  - destruct (has (pd_cancelhandling t') SETXID_BITMASK) eqn:Eh.
    + eapply (IH fl t'); [lia|exact Hr'| |].
      * intros t2. rewrite <- Nat.iter_succ_r. apply Hdone.
      * intros t2 n2 Hr2 E2. eapply HQ; [exact Hr2|]. unfold same_end in *. congruence.
    + eapply wp_running_upd; [exact Hr'|done|]. intros n' Hr2 _. eapply HQ; [exact Hr2|exact E].
Qed.

Lemma wp_answer_setxid t n (Q : () → nptl K → Prop) :
  running pd t n → (∀ t' n', running pd t' n' → same_end t t' → Q () n') →
  wp (answer_setxid setxid_reply fuel pd) Q n.
Proof.
  intros Hr HQ. unfold answer_setxid. wp_step. eapply wp_load_pd; [apply Hr|]. wp_step. wp_step.
  - destruct (Hanswer n) as (k & Hk & Hdone). by eapply (wp_wait_setxid k).
  - wp_step. by eapply HQ.
Qed.

(** The descriptor of a joinable thread waits for the joiner; that of a detached
    one is given back, and reads as free if it is still mapped. *)
Definition thread_ended (t1 : pthread) n' : Prop :=
  if IS_DETACHED pd t1 then
    (∃ u c r, rep n' (lists u c r) ∧ pd ∉ u ++ r) ∧
    ∀ t', pds n' !! pd = Some t' → pd_tid t' = 0
  else
    ∃ u c r t', placed n' pd u c r ∧ pds n' !! pd = Some t' ∧ pd_tid t' = 0 ∧
      pd_result t' = pd_result t1 ∧ has (pd_cancelhandling t') TERMINATED_BITMASK = false.

Lemma wp_exit_thread n (Q : () → nptl K → Prop) :
  Q () (n <| pds := alter (λ t, t <| pd_tid := 0 |>) pd (pds n) |>) → wp (exit_thread pd) Q n.
Proof. done. Qed.

Lemma rep_exit n u c r :
  rep n (lists u c r) →
  rep (n <| pds := alter (λ t, t <| pd_tid := 0 |>) pd (pds n) |>) (lists u c r).
Proof.
  intros R. apply (rep_ext n _ _ R); try done. intros i p _. rs.
  destruct (decide (p = pd)) as [->|Hne]; [|by rewrite lookup_alter_ne].
  rewrite lookup_alter_eq. by destruct (pds n !! pd).
Qed.

Lemma wp_last_part debugging t n :
  running pd t n → fate t = fate t0 →
  wp (t ← load_pd pd; when (IS_DETACHED pd t) (free_tcb debugging pd);; exit_thread pd)
     (λ _ n', thread_ended t n') n.
Proof.
  intros Hr Hf. wp_step. eapply wp_load_pd; [apply Hr|]. do 2 wp_step. wp_step;
    unfold thread_ended; rewrite H.
  - destruct Hr as [(u & c & r & Hp) Et Hl]. eapply wp_mono; [by apply (wp_free_tcb debugging n pd u c r t)|].
    intros [] n' Hpost. unfold free_post in Hpost. unfold fate in Hf. injection Hf as _ _ _ Eh.
    rewrite Eh, Hterm in Hpost. destruct Hpost as ([c' R'] & _). apply wp_exit_thread. split.
    + exists u, c', r. split; [by apply rep_exit|]. by apply (placed_notin n pd u c r).
    + intros t'. rs. rewrite lookup_alter_eq. destruct (pds n' !! pd); [|done]. by intros [= <-].
  - wp_step. apply wp_exit_thread. destruct Hr as [(u & c & r & Hp) Et Hl].
    exists u, c, r, (t <| pd_tid := 0 |>).
    assert (E : alter (λ t, t <| pd_tid := 0 |>) pd (pds n) = <[pd := t <| pd_tid := 0 |>]> (pds n)).
    { apply map_eq. intros q. destruct (decide (q = pd)) as [->|Hne].
      - by rewrite lookup_alter_eq, lookup_insert_eq, Et.
      - by rewrite lookup_alter_ne, lookup_insert_ne. }
    rs. rewrite E. split_and!; try done; [by apply (placed_upd n _ pd u c r pd t (t <| pd_tid := 0 |>))|
      apply lookup_insert_eq|].
    unfold fate in Hf. injection Hf as _ _ _ Eh. by rewrite Eh.
Qed.

Lemma wp_one_less t n (Q : () → nptl K → Prop) :
  running pd t n → 1 < nptl_nthreads n < 4294967296 →
  (∀ n', running pd t n' → Q () n') → wp one_less_thread Q n.
Proof.
  intros Hr Hn HQ. unfold one_less_thread. do 2 wp_step. wp_step. wp_step. cbv beta. rs.
  unfold w32. rewrite Z.mod_small by lia. wp_step.
  destruct (Z.eqb_spec (nptl_nthreads n - 1) 0); [lia|]. wp_step. apply HQ.
  destruct Hr as [(u & c & r & Hp) Et Hl]. split; try done. exists u, c, r.
  by eapply placed_ext.
Qed.

Lemma wp_report_death t (Q : () → process K → Prop) s :
  running pd t (lib s) →
  (∀ s' t', running pd t' (lib s') → fate t' = fate t → pd_result t' = pd_result t → sigmask s' = sigmask s → Q () s') →
  wp (report_death pd) Q s.
Proof.
  intros Hr HQ. unfold report_death. wp_step. apply wp_lift. eapply wp_load_pd; [apply Hr|].
  wp_step. wp_step; [|wp_step; by eapply HQ]. unfold enqueue_event. wp_step. apply wp_lift.
  eapply wp_running_upd; [exact Hr|done|]. intros n1 Hr1 _. do 3 wp_step. apply wp_lift.
  eapply wp_running_upd; [exact Hr1|done|]. intros n2 Hr2 _. wp_step. eapply HQ; [exact Hr2|done..].
Qed.

Lemma wp_advise t n (Q : () → nptl K → Prop) :
  running pd t n → fate t = fate t0 → (∀ n', running pd t n' → Q () n') →
  wp (when (negb (pd_user_stack t))
        (advise_stack_range sp (pd_stackblock t) (pd_stackblock_size t))) Q n.
Proof.
  intros Hr Hf HQ. unfold fate, geom in Hf. injection Hf as E1 E2 E3 _. rewrite E1, E2, E3.
  wp_step. wp_step; [|wp_step; by apply HQ]. specialize (Hsp (proj1 (negb_true_iff _) H)).
  unfold advise_stack_range. pose proof (mask_bounds (sp - pd_stackblock t0) _ page_pow2).
  rewrite (w64_small (sp - _)) by w64lia. wp_step. wp_step; [apply Z.ltb_lt; lia|].
  wp_step. wp_step; [|wp_step; by apply HQ]. wp_step. apply HQ.
  destruct Hr as [(u & c & r & Hp) Et Hl]. split; try done. exists u, c, r.
  destruct Hp as [(l1 & l2 & El & R)|(l1 & l2 & El & R)]; [left|right]; exists l1, l2;
    (split; [done|]); (apply (rep_ext n _ _ R); try done; intros a Ha; by apply madvise_mapped).
Qed.

Lemma wp_end_thread debugging t s :
  running pd t (lib s) → fate t = fate t0 → table_ok t →
  1 < nptl_nthreads (lib s) < 4294967296 →
  wp (end_thread keys destr setxid_reply debugging sp fuel pd) (λ _ s',
    ∃ t1, has (pd_cancelhandling t1) EXITING_BITMASK = true ∧ fate t1 = fate t0 ∧
      pd_result t1 = pd_result t ∧ thread_ended t1 (lib s') ∧ sigmask s' = sigmask s) s.
Proof.
  intros Hr Hf T Hn. unfold end_thread. wp_step. apply wp_lift.
  eapply wp_run_tsd; [exact Hr|exact T|]. intros t1 n1 Hr1 Hf1 Er1 En1.
  wp_step. apply wp_lift. eapply wp_one_less; [exact Hr1|cbn [lib]; rs; lia|].
  intros n2 Hr2. wp_step. eapply wp_report_death; [exact Hr2|]. intros s3 t3 Hr3 Hf3 Er3 Em3.
  apply wp_lift. wp_step. eapply wp_running_upd; [exact Hr3|done|]. intros n4 Hr4 _.
  set (t4 := t3 <| pd_cancelhandling := _ |>) in *.
  pose proof cancel_bit_range as (_ & _ & Hb1 & Hb2 & _).
  pose proof cancel_bit_distinct as (Hne & _).
  assert (Hx4 : has (pd_cancelhandling t4) EXITING_BITMASK = true).
  { subst t4. rs. unfold EXITING_BITMASK. rewrite has_lor, has_bitmask by done.
    by rewrite bool_decide_eq_true_2, orb_true_r. }
  assert (Hf4 : fate t4 = fate t0).
  { rewrite <- Hf, <- Hf1, <- Hf3. unfold fate. subst t4. rs. f_equal.
    unfold TERMINATED_BITMASK, EXITING_BITMASK. rewrite has_lor, has_bitmask by done.
    by rewrite bool_decide_eq_false_2, orb_false_r. }
  wp_step. eapply wp_load_pd; [apply Hr4|]. wp_step. eapply wp_advise; [exact Hr4|exact Hf4|].
  intros n5 Hr5. wp_step. eapply wp_answer_setxid; [exact Hr5|]. intros t6 n6 Hr6 E6.
  assert (fate t6 = fate t0 ∧ pd_result t6 = pd_result t4 ∧
    has (pd_cancelhandling t6) EXITING_BITMASK = true) as (Ef6 & Er6 & Ex6).
  { rewrite <- Hf4, <- Hx4. unfold same_end in E6. split_and!; congruence. }
  eapply wp_mono; [eapply (wp_last_part debugging t6); [exact Hr6|exact Ef6]|].
  intros [] n7 H7. exists t6. split_and!; [exact Ex6|exact Ef6| |exact H7|exact Em3].
  rewrite Er6. change (pd_result t4) with (pd_result t3). congruence.
Qed.

(** The result is that of the routine, unless it did not return; the mask is what the routine left, or the one of the
    descriptor when it was left by an unwinding. *)
Definition exit_post (s' : process K) : Prop :=
  ∃ n1 t1, has (pd_cancelhandling t1) EXITING_BITMASK = true ∧ fate t1 = fate t0 ∧
    thread_ended t1 (lib s') ∧
    let '(n2, ret) := user_code (pd_start_routine t0) (pd_arg t0) (pd_c11 t0) n1 in
    match ret with
    | Some v => pd_result t1 = v ∧ sigmask s' = user_mask (pd_start_routine t0) (pd_arg t0) (pd_c11 t0) n1
    | None => ∃ t2, pds n2 !! pd = Some t2 ∧ sigmask s' = pd_sigmask t2
    end.

Lemma wp_start_thread debugging s :
  running pd t0 (lib s) → table_ok t0 → pd_lock t0 = 0 →
  wp (start_thread user_code user_mask keys destr setxid_reply debugging sp fuel pd)
     (λ _ s', exit_post s') s.
Proof.
  intros Hr T Hl. unfold start_thread. wp_step. apply wp_lift. eapply wp_load_pd; [apply Hr|].
  wp_step. unfold restore_set at 1. wp_step. wp_step. apply wp_lift. wp_step. unfold allow_setxid at 1.
  eapply wp_running_upd; [exact Hr|done|]. intros n1 Hr1 _. set (t1 := t0 <| pd_setxid_futex := 0 |>) in *.
  unfold wait_for_creator. wp_step. eapply wp_load_pd; [apply Hr1|].
  apply (wp_mono _ (λ _ n2, ∃ l, running pd (t1 <| pd_lock := l |>) n2)).
  { wp_step. wp_step; [|wp_step; exists (pd_lock t1); by destruct t0].
    wp_step. eapply wp_lock_pd; [apply Hr1|exact Hl|].
    eapply (wp_running_upd pd (t1 <| pd_lock := 1 |>)); [by eapply running_upd|done|].
    intros n2 Hr2 _. exists 0. by destruct t0. }
  intros [] n2 [l Hr2]. set (t2 := t1 <| pd_lock := l |>) in *. wp_step. unfold run_user. wp_step. apply wp_lift.
  eapply wp_load_pd; [apply Hr2|]. wp_step. apply wp_gets. rs.
  destruct (Huser (pd_start_routine t0) (pd_arg t0) (pd_c11 t0) n2 t2 Hr2 eq_refl T)
    as (t3 & Hr3 & Hf3 & T3 & Hn3).
  change (pd_start_routine t2) with (pd_start_routine t0). change (pd_arg t2) with (pd_arg t0).
  change (pd_c11 t2) with (pd_c11 t0).
  destruct (user_code _ _ _ n2) as [n3 ret] eqn:Eu. cbn [fst] in *. wp_step. wp_step.
  set (mask := user_mask _ _ _ n2).
  assert (Hend : ∀ t4 n4, running pd t4 n4 → fate t4 = fate t0 → table_ok t4 → nptl_nthreads n4 = nptl_nthreads n3 →
    ∀ s4, lib s4 = n4 → match ret with
                        | Some v => pd_result t4 = v ∧ sigmask s4 = mask
                        | None => ∃ t2, pds n3 !! pd = Some t2 ∧ sigmask s4 = pd_sigmask t2
                        end →
    wp (end_thread keys destr setxid_reply debugging sp fuel pd) (λ _ s', exit_post s') s4).
  { intros t4 n4 Hr4 Hf4 T4 En4 s4 <- Hres.
    eapply wp_mono; [apply (wp_end_thread debugging t4); [done..|by rewrite En4]|].
    intros [] s5 (t5 & Hx & Hf5 & Er & Hend & Em). exists n2, t5. split_and!; try done.
    rewrite Eu, Er, Em. exact Hres. }
  destruct ret as [v|].
  - apply wp_lift. eapply wp_running_upd; [exact Hr3|done|]. intros n4 Hr4 En4.
    by eapply (Hend (t3 <| pd_result := v |>) n4).
  - wp_step. apply wp_lift. eapply wp_load_pd; [apply Hr3|]. wp_step. unfold restore_set. wp_step. apply wp_lift.
    unfold allow_setxid. eapply wp_running_upd; [exact Hr3|done|]. intros n4 Hr4 En4.
    eapply (Hend (t3 <| pd_setxid_futex := 0 |>) n4); try done. exists t3. split; [apply Hr3|done].
Qed.
End Exit.

(** * Properties *)

Section Properties.
Context {K : Type} {PF : Platform} {PL : PlatformLaws} {LA : ListApi} {LL : ListLaws}.
Context {KN : Kernel K} {KL : KernelLaws (K := K)} {EV : Env K}.
Implicit Types n : nptl K.

(** What the surroundings of a thread that ends may do: they do not free it before
    it has ended, it is not the last thread, destructors only store
    thread-specific data (or detach the thread), and a pending set*id call is
    answered within [fuel] waits. *)
Record surroundings (user_code : ptr → ptr → bool → nptl K → nptl K * option ptr)
    (destr : nat → ptr → pthread → pthread) (setxid_reply : nptl K → nptl K)
    (sp : Z) (fuel : nat) (pd : ptr) (t0 : pthread) : Prop := {
  sur_user f a b n t : running pd t n → fate t = fate t0 → table_ok t →
    ∃ t', running pd t' (user_code f a b n).1 ∧ fate t' = fate t0 ∧ table_ok t' ∧
      1 < nptl_nthreads (user_code f a b n).1 < 4294967296;
  sur_destr : destr_ok destr;
  sur_frame idx data t : (geom (destr idx data t), pd_result (destr idx data t),
    pd_cancelhandling (destr idx data t)) = (geom t, pd_result t, pd_cancelhandling t);
  sur_reply n t : running pd t n → ∃ t', running pd t' (setxid_reply n) ∧
    (fate t', pd_result t', pd_joinid t', has (pd_cancelhandling t') EXITING_BITMASK) =
    (fate t, pd_result t, pd_joinid t, has (pd_cancelhandling t) EXITING_BITMASK);
  sur_answer n : ∃ k, (k < fuel)%nat ∧
    ∀ t, pds (Nat.iter (S k) setxid_reply n) !! pd = Some t →
      has (pd_cancelhandling t) SETXID_BITMASK = false;
  sur_sp : pd_user_stack t0 = false →
    pd_stackblock t0 ≤ sp < pd_stackblock t0 + pd_stackblock_size t0;
  sur_block : 0 ≤ pd_stackblock t0 ∧ pd_stackblock_size t0 < W64;
  sur_term : has (pd_cancelhandling t0) TERMINATED_BITMASK = false;
}.

(** C3: [start_thread], from the routine to the end of the thread.  The exit always
    completes: the destructors end, a pending set*id call is waited for, and the
    range discarded of the stack passes its assertion.  The thread is marked as
    exiting and its result is what the routine returned; when the routine did not return but was left by an unwinding, the
    signals are those of the descriptor again.  A joinable thread keeps
    its descriptor, listed and not yet freed, with its id cleared for the
    joiner; the descriptor of a detached one is given back: it is in no list of
    running threads, and where it is still mapped it reads as free. *)
Theorem start_thread_ends user_code user_mask keys destr setxid_reply debugging sp fuel pd t0
    (s : process K) :
  munmap_succeeds (K := K) → surroundings user_code destr setxid_reply sp fuel pd t0 →
  running pd t0 (lib s) → table_ok t0 → pd_lock t0 = 0 →
  wp (start_thread user_code user_mask keys destr setxid_reply debugging sp fuel pd)
     (λ _ s', exit_post user_code user_mask pd t0 s') s.
Proof. intros Hun [] Hr T Hl. by eapply wp_start_thread. Qed.

(** [__free_tcb] frees a descriptor at most once: whoever comes second finds
    [TERMINATED_BIT] set and changes nothing.  The first frees the
    priority-protection data, if there is any, exactly once and returns the
    stack, library's or user's; the debugging check finds every running thread,
    so it does not abort; no other thread's descriptor is touched. *)
Theorem free_tcb_once debugging n pd u c r t :
  munmap_succeeds (K := K) → placed n pd u c r → stack_cache_lock n = 0 → pds n !! pd = Some t →
  wp (free_tcb debugging pd) (λ _ n', free_post n u r t n') n.
Proof. apply wp_free_tcb. Qed.
End Properties.

(** * Examples *)

Section Examples.
Import X86 ListH SimThreads.

(** The thread in use of the example state, detached, with a routine that creates
    another thread and returns 42; other threads clear a pending set*id request. *)
Definition exit_td : pthread :=
  (block_at 8192 (8 * MiB) 101) <| pd_joinid := demo_self |> <| pd_cancelhandling := 64 |>
    <| pd_specific := S1stblock :: replicate 31 SNull |>.
Definition exit_code (f a : ptr) (b : bool) (n : nptl simk) : nptl simk * option ptr :=
  (n <| nptl_nthreads := 2 |>, Some 42).
Definition clear_setxid (n : nptl simk) : nptl simk :=
  n <| pds := alter (λ t, t <| pd_cancelhandling := Z.clearbit (pd_cancelhandling t) 6 |>)
                demo_self (pds n) |>.
Definition exit_process : process simk :=
  demo_process <| lib := demo <| pds := <[demo_self := exit_td]> (pds demo) |> |>.

(** The stack of the thread is in the cache, free for another. *)
Example exit_run :
  match start_thread exit_code (λ _ _ _ _, 0) (λ _, (0, false)) (λ _ _ t, t) clear_setxid true 8000000 3
          demo_self exit_process with
  | Done _ s => (λ t, (pd_tid t, pd_result t)) <$> pds (lib s) !! demo_self
  | Stop _ _ => None
  end = Some (0, 42).
Proof. vm_compute. reflexivity. Qed.

Lemma exit_running : running demo_self exit_td (lib exit_process).
Proof.
  assert (Et : pds demo !! demo_self = Some (block_at 8192 (8 * MiB) 101))
    by (vm_compute; reflexivity).
  split; [|apply lookup_insert_eq|reflexivity]. exists [], demo_c, [].
  apply (placed_upd demo _ _ _ _ _ _ _ exit_td demo_self_placed Et); reflexivity.
Qed.

Lemma exit_table : table_ok exit_td.
Proof.
  split_and!; [vm_compute; reflexivity|reflexivity|vm_compute; reflexivity|].
  intros [|cnt] sp H E; [lia|]. by apply lookup_replicate in E as [-> _].
Qed.

Lemma has_clearbit x a b : 0 ≤ a → 0 ≤ b → has (Z.clearbit x a) (bitmask b) =
  if decide (b = a) then false else has x (bitmask b).
Proof.
  intros Ha Hb. rewrite !has_bit by done. destruct (decide (b = a)) as [->|Hne].
  - by rewrite Z.clearbit_eq.
  - by rewrite Z.clearbit_neq by lia.
Qed.

Lemma exit_surroundings :
  surroundings exit_code (λ _ _ t, t) clear_setxid 8000000 3 demo_self exit_td.
Proof.
  split.
  - intros f a b n t [(u & c & r & Hp) Et Hl] Hf T. exists t. split_and!; try done.
    split; [exists u, c, r; by eapply placed_ext|done|done].
  - intros idx data t T. by split.
  - done.
  - intros n t Hr. exists (t <| pd_cancelhandling := Z.clearbit (pd_cancelhandling t) 6 |>). split.
    + eapply running_upd; [exact Hr|reflexivity| |reflexivity..]. unfold clear_setxid. rs.
      apply map_eq. intros q. destruct (decide (q = demo_self)) as [->|Hne].
      * rewrite lookup_alter_eq, lookup_insert_eq. by rewrite (run_pd _ _ _ Hr).
      * by rewrite lookup_alter_ne, lookup_insert_ne.
    + unfold fate, TERMINATED_BITMASK, EXITING_BITMASK. rs. by rewrite !has_clearbit.
  - intros n. exists 0%nat. split; [lia|]. intros t. unfold clear_setxid. cbn [Nat.iter nat_rect]. rs.
    rewrite lookup_alter_eq. destruct (pds n !! demo_self); [|done]. intros [= <-].
    unfold SETXID_BITMASK. rs. by rewrite has_clearbit.
  - intros _. vm_compute. split; congruence.
  - vm_compute. split; congruence.
  - vm_compute. reflexivity.
Qed.

Lemma start_thread_ends_witness :
  wp (start_thread exit_code (λ _ _ _ _, 0) (λ _, (0, false)) (λ _ _ t, t) clear_setxid true 8000000 3
        demo_self) (λ _ s', exit_post exit_code (λ _ _ _ _, 0) demo_self exit_td s') exit_process.
Proof.
  apply start_thread_ends; [apply sim_munmap | apply exit_surroundings | apply exit_running
    | apply exit_table | vm_compute; reflexivity].
Defined.

Lemma free_tcb_once_witness :
  ∃ t, pds demo !! demo_self = Some t ∧
  wp (free_tcb true demo_self) (λ _ n', free_post demo [] [] t n') demo.
Proof.
  destruct demo_self_live as [t Et]. exists t. split; [exact Et|].
  apply (free_tcb_once true demo demo_self [] demo_c []);
    [apply sim_munmap | apply demo_self_placed | reflexivity | exact Et].
Defined.
End Examples.
