(* ===== verification/PthreadJoin.v ===== *)
(** Joining and cancelling a thread ([pthread_join_common.c], [pthread_join.c],
    [pthread_cancel.c]).

    The tests of the thread library's header, the clock and the futex wait, during
    which other threads run, are arguments. *)
From S2P Require Import Prelude ListHead Nptl Sim StackCache Demo StackCacheProofs AllocateStack Tsd Process ThreadExit.

(** How a wait that is a cancellation point ends. *)
Inductive wake := Woken | TimedOut | Cancelled.

Class JoinEnv (K : Type) := {
  INVALID_TD_P : pthread → bool;
  INVALID_NOT_TERMINATED_TD_P : pthread → bool;
  CANCEL_ENABLED_AND_CANCELED : Z → bool;
  CANCEL_ENABLED_AND_CANCELED_AND_ASYNCHRONOUS : Z → bool;
  valid_nanoseconds : Z → bool;
  clock_gettime : Z → nptl K → option (Z * Z);
  (* the address of the thread id, the expected value, the timeout *)
  futex_wait_cancel : ptr → Z → option (Z * Z) → nptl K → nptl K * wake;
  offsetof_joinid : Z;
  sys_tgkill : Z → Z → nptl K → nptl K * option Z;
}.

(** The documented meaning of the first two tests: the id of a thread that ended is
    0, that of a thread that was joined is negative. *)
Class JoinLaws (K : Type) `{!JoinEnv K} := {
  invalid_td t : INVALID_TD_P t = (pd_tid t <=? 0);
  invalid_not_terminated t : INVALID_NOT_TERMINATED_TD_P t = (pd_tid t <? 0);
}.

(** [atomic_compare_exchange_weak_acquire (mem, expected, desired)]: the new [*mem],
    the new [*expected], and whether the exchange was made. *)
Definition compare_exchange (mem expected desired : ptr) : ptr * ptr * bool :=
  if mem =? expected then (desired, expected, true) else (mem, mem, false).

Section Defs.
Context {K : Type} {PF : Platform} {LA : ListApi} {KN : Kernel K} {EV : Env K} {JE : JoinEnv K}.
Implicit Types pd self : ptr.

(** The handler works on its own parameter; nothing outside changes. *)
Definition cleanup self (arg : ptr) : M (nptl K) () :=
  let '(arg, self, _) := compare_exchange arg self 0 in mret ().

(** [a - b], nanoseconds in [0, 10^9) when both are. *)
Definition time_left (a b : Z * Z) : Z * Z :=
  let sec := a.1 - b.1 in
  let nsec := a.2 - b.2 in
  if nsec <? 0 then (sec - 1, nsec + 1000000000) else (sec, nsec).

Definition futex_wait pd (tid : Z) (timeout : option (Z * Z)) : M (nptl K) wake :=
  n ← gets id;
  let '(n', w) := futex_wait_cancel pd tid timeout n in
  modify (λ _, n');;
  mret w.

(** An error number, 0 when the thread has ended, [None] when the waiter was
    cancelled; [fuel] waits at most. *)
Fixpoint clockwait_loop (fuel : nat) pd (clockid : Z) (abstime : Z * Z)
    : M (nptl K) (option Z) :=
  t ← load_pd pd;
  if pd_tid t =? 0 then mret (Some 0)
  else
    n ← gets id;
    match clock_gettime clockid n with
    | None => mret (Some EINVAL)
    | Some now =>
        let rt := time_left abstime now in
        if rt.1 <? 0 then mret (Some ETIMEDOUT)
        else
          match fuel with
          | O => stop_with Blocked
          | S fuel =>
              w ← futex_wait pd (pd_tid t) (Some rt);
              match w with
              | TimedOut => mret (Some ETIMEDOUT)
              | Woken => clockwait_loop fuel pd clockid abstime
              | Cancelled => mret None
              end
          end
    end.

Definition clockwait_tid (fuel : nat) pd (clockid : Z) (abstime : Z * Z)
    : M (nptl K) (option Z) :=
  if negb (valid_nanoseconds abstime.2) then mret (Some EINVAL)
  else clockwait_loop fuel pd clockid abstime.

Fixpoint wait_tid (fuel : nat) pd : M (nptl K) (option Z) :=
  t ← load_pd pd;
  if pd_tid t =? 0 then mret (Some 0)
  else
    match fuel with
    | O => stop_with Blocked
    | S fuel =>
        w ← futex_wait pd (pd_tid t) None;
        match w with Cancelled => mret None | _ => wait_tid fuel pd end
    end.

(** The error number and the value of the thread; [None] when the caller was
    cancelled while it waited. *)
Definition pthread_clockjoin_ex (debugging : bool) (fuel : nat) self pd (clockid : Z)
    (abstime : option (Z * Z)) (block : bool) : M (nptl K) (option (Z * ptr)) :=
  t ← load_pd pd;
  if INVALID_NOT_TERMINATED_TD_P t then mret (Some (ESRCH, 0))
  else if IS_DETACHED pd t then mret (Some (EINVAL, 0))
  else
    self_t ← load_pd self;
    if ((pd =? self)
        || ((pd_joinid self_t =? pd)
            && (Z.land (pd_cancelhandling t)
                  (Z.lor CANCELING_BITMASK (Z.lor CANCELED_BITMASK
                     (Z.lor EXITING_BITMASK TERMINATED_BITMASK))) =? 0)))
       && negb (CANCEL_ENABLED_AND_CANCELED (pd_cancelhandling self_t))
    then mret (Some (EDEADLK, 0))
    else
      let '(joinid, _, exchanged) := compare_exchange (pd_joinid t) self 0 in
      upd_pd pd (λ t, t <| pd_joinid := joinid |>);;
      if exchanged : bool then mret (Some (EINVAL, 0))
      else
        waited ← (if block then
                    match abstime with
                    | Some abstime => clockwait_tid fuel pd clockid abstime
                    | None => wait_tid fuel pd
                    end
                  else mret (Some 0));
        match waited with
        | None => cleanup self (pd + offsetof_joinid);; mret None
        | Some result =>
            t ← load_pd pd;
            let pd_result := pd_result t in
            if result =? 0 then
              upd_pd pd (λ t, t <| pd_tid := -1 |>);;
              free_tcb debugging pd;;
              mret (Some (result, pd_result))
            else
              upd_pd pd (λ t, t <| pd_joinid := 0 |>);;
              mret (Some (result, 0))
        end.

Definition pthread_join (debugging : bool) (fuel : nat) self pd : M (nptl K) (option (Z * ptr)) :=
  pthread_clockjoin_ex debugging fuel self pd 0 None true.

(** ** Cancellation

    [interfere i] is what other threads do between the read and the [i]-th
    exchange of the loop. *)
Variable interfere : nat → nptl K → nptl K.

(** [atomic_compare_and_exchange_bool_acq (&pd->cancelhandling, newval, oldval)]:
    false if it was exchanged. *)
Definition exchange_cancelhandling pd (newval oldval : Z) : M (nptl K) bool :=
  t ← load_pd pd;
  if pd_cancelhandling t =? oldval then
    upd_pd pd (λ t, t <| pd_cancelhandling := newval |>);; mret false
  else mret true.

Fixpoint cancel_loop (fuel : nat) self pd : M (nptl K) Z :=
  match fuel with
  | O => stop_with Blocked
  | S fuel =>
      t ← load_pd pd;
      let oldval := pd_cancelhandling t in
      let newval := Z.lor oldval (Z.lor CANCELING_BITMASK CANCELED_BITMASK) in
      if oldval =? newval then mret 0
      else if CANCEL_ENABLED_AND_CANCELED_AND_ASYNCHRONOUS newval then
        modify (interfere fuel);;
        again ← exchange_cancelhandling pd (Z.lor oldval CANCELING_BITMASK) oldval;
        if again : bool then cancel_loop fuel self pd
        else
          t ← load_pd pd;
          n ← gets id;
          let '(n', err) := sys_tgkill (pd_tid t) SIGCANCEL n in
          modify (λ _, n');;
          mret (match err with Some e => e | None => 0 end)
      else
        upd_pd self (λ t, t <| pd_multiple_threads := 1 |>);;
        modify (interfere fuel);;
        again ← exchange_cancelhandling pd newval oldval;
        if again : bool then cancel_loop fuel self pd else mret 0
  end.

Definition pthread_cancel (fuel : nat) self pd : M (nptl K) Z :=
  t ← load_pd pd;
  if INVALID_TD_P t then mret ESRCH else cancel_loop fuel self pd.
End Defs.

(** * Joining *)

Section Join.
Context {K : Type} {PF : Platform} {PL : PlatformLaws} {LA : ListApi} {LL : ListLaws}.
Context {KN : Kernel K} {KL : KernelLaws (K := K)} {EV : Env K} {JE : JoinEnv K} {JL : JoinLaws K}.
Implicit Types n : nptl K.
Variables (self pd : ptr).

(** What is the same while the caller waits: the thread may end, but is not freed. *)
Definition joined_fate (t : pthread) := (fate t, pd_joinid t).

(** Waiting does not free the thread. *)
Definition wait_ok : Prop := ∀ tid to n t, running pd t n →
  ∃ t', running pd t' (futex_wait_cancel pd tid to n).1 ∧ joined_fate t' = joined_fate t.

(** One wait for the end of the thread, and the end within [k] waits. *)
Definition one_wait (to : option (Z * Z)) n : nptl K :=
  match pds n !! pd with
  | Some t => (futex_wait_cancel pd (pd_tid t) to n).1
  | None => n
  end.
Definition ends_in (k : nat) n : Prop :=
  ∀ t, pds (Nat.iter k (one_wait None) n) !! pd = Some t → pd_tid t = 0.

(** Where a wait leaves the thread: ended, or still to be joined by another. *)
Definition waited_for (t : pthread) (res : option Z) n' : Prop :=
  ∃ t', running pd t' n' ∧ joined_fate t' = joined_fate t ∧ (res = Some 0 → pd_tid t' = 0).

Hypothesis Hwait : wait_ok.

Lemma wp_futex_wait t tid to n (Q : wake → nptl K → Prop) :
  running pd t n →
  (∀ w t', running pd t' (futex_wait_cancel pd tid to n).1 → joined_fate t' = joined_fate t →
     Q w (futex_wait_cancel pd tid to n).1) →
  wp (futex_wait pd tid to) Q n.
Proof.
  intros Hr HQ. unfold futex_wait. do 2 wp_step. cbv beta. unfold id.
  destruct (Hwait tid to n t Hr) as (t' & Hr' & Hf).
  destruct (futex_wait_cancel pd tid to n) as [n' w]. do 2 wp_step. wp_step. by eapply HQ.
Qed.

Lemma wp_wait_tid k : ∀ fuel t n, (k ≤ fuel)%nat → running pd t n → ends_in k n →
  wp (wait_tid fuel pd) (λ res n', waited_for t res n' ∧ (res = None ∨ res = Some 0)) n.
Proof.
  induction k as [|k IH]; intros [|fuel] t n Hk Hr Hend; try lia; cbn [wait_tid]; wp_step;
    (eapply wp_load_pd; [apply Hr|]).
  1,2: rewrite (Hend t) by apply Hr; cbn [Z.eqb]; wp_step; (split; [|by right]);
    exists t; split_and!; [done|done|intros _; apply (Hend t), Hr].
  destruct (Z.eqb_spec (pd_tid t) 0) as [E|E].
  { wp_step. split; [by exists t|by right]. }
  wp_step. eapply wp_futex_wait; [exact Hr|]. intros w t' Hr' Hf.
  assert (Hgo : wp (wait_tid fuel pd) (λ res n', waited_for t res n' ∧ (res = None ∨ res = Some 0))
    (futex_wait_cancel pd (pd_tid t) None n).1).
  { eapply wp_mono; [apply (IH fuel t'); [lia|exact Hr'|]|].
    - intros t2. unfold ends_in in Hend. rewrite Nat.iter_succ_r in Hend.
      unfold one_wait at 2 in Hend. rewrite (run_pd _ _ _ Hr) in Hend. apply Hend.
    - intros res n' [(t2 & ? & ? & ?) ?]. split; [|done]. exists t2. split_and!; [done|congruence|done]. }
  destruct w; [exact Hgo|exact Hgo|]. wp_step. split; [|by left]. by exists t'.
Qed.

(** The same for a wait until [abstime]: within [k] waits the thread has ended, the
    clock has failed or the time is over. *)
Definition timed_wait clockid abstime n : nptl K :=
  match pds n !! pd, clock_gettime clockid n with
  | Some t, Some now => (futex_wait_cancel pd (pd_tid t) (Some (time_left abstime now)) n).1
  | _, _ => n
  end.
Definition timed_ends_in clockid abstime (k : nat) n : Prop :=
  let n' := Nat.iter k (timed_wait clockid abstime) n in
  ∀ t, pds n' !! pd = Some t → pd_tid t = 0 ∨
    ∀ now, clock_gettime clockid n' = Some now → (time_left abstime now).1 < 0.

Lemma wp_clockwait clockid abstime k : ∀ fuel t n,
  (k ≤ fuel)%nat → running pd t n → timed_ends_in clockid abstime k n →
  wp (clockwait_loop fuel pd clockid abstime) (λ res n', waited_for t res n' ∧
    res ∈ [None; Some 0; Some EINVAL; Some ETIMEDOUT]) n.
Proof.
  assert (Hin : ∀ res t t' n', running pd t' n' → joined_fate t' = joined_fate t →
    (res = Some 0 → pd_tid t' = 0) → res ∈ [None; Some 0; Some EINVAL; Some ETIMEDOUT] →
    waited_for t res n' ∧ res ∈ [None; Some 0; Some EINVAL; Some ETIMEDOUT]).
  { intros res t t' n' ? ? ? ?. split; [by exists t'|done]. }
  induction k as [|k IH]; intros fuel t n Hk Hr Hend; destruct fuel as [|fuel]; try lia;
    cbn [clockwait_loop]; wp_step; (eapply wp_load_pd; [apply Hr|]);
    (destruct (Z.eqb_spec (pd_tid t) 0) as [E|E]; [wp_step; apply (Hin _ t t); (done || set_solver)|]);
    wp_step; wp_step; cbv beta; unfold id;
    (destruct (clock_gettime clockid n) as [now|] eqn:Ec;
      [|wp_step; apply (Hin _ t t); (done || set_solver)]).
  1,2: destruct (Hend t (run_pd _ _ _ Hr)) as [H0|H0]; [done|];
    rewrite (proj2 (Z.ltb_lt _ _) (H0 now Ec)); wp_step; apply (Hin _ t t); (done || set_solver).
  destruct (Z.ltb_spec (time_left abstime now).1 0).
  { wp_step; apply (Hin _ t t); (done || set_solver). }
  wp_step. eapply wp_futex_wait; [exact Hr|]. intros w t' Hr' Hf.
  destruct w; [|wp_step; apply (Hin _ t t'); (done || set_solver)..].
  eapply wp_mono; [apply (IH fuel t'); [lia|exact Hr'|]|].
  - intros t2. unfold timed_ends_in in Hend. rewrite Nat.iter_succ_r in Hend.
    unfold timed_wait at 2 4 in Hend. rewrite (run_pd _ _ _ Hr), Ec in Hend. apply Hend.
  - intros res n' [(t2 & ? & Hf2 & ?) ?]. apply (Hin _ t t2); try done. congruence.
Qed.

Definition deadlock (t self_t : pthread) : bool :=
  ((pd =? self)
   || ((pd_joinid self_t =? pd)
       && (Z.land (pd_cancelhandling t)
             (Z.lor CANCELING_BITMASK (Z.lor CANCELED_BITMASK
                (Z.lor EXITING_BITMASK TERMINATED_BITMASK))) =? 0)))
  && negb (CANCEL_ENABLED_AND_CANCELED (pd_cancelhandling self_t)).

(** The thread has ended, its value is returned and its descriptor freed; or it
    still waits to be joined. *)
Definition wait_post (res : option (Z * ptr)) n' : Prop :=
  match res with
  | None => ∃ t', running pd t' n'
  | Some (e, v) =>
      if e =? 0 then
        ∃ u c r n1 t1, running pd t1 n1 ∧ pd_tid t1 = 0 ∧ v = pd_result t1 ∧
          placed n1 pd u c r ∧ (∃ c', rep n' (lists u c' r)) ∧ others_kept n1 n' (u ++ r) ∧
          freed n' = freed n1 ++ filter (λ p, p ≠ 0) [pd_tpp t1]
      else (e = EINVAL ∨ e = ETIMEDOUT) ∧ v = 0 ∧
        ∃ t', running pd t' n' ∧ pd_joinid t' = 0
  end.

Definition join_post (t self_t : pthread) n (res : option (Z * ptr)) n' : Prop :=
  if pd_tid t <? 0 then res = Some (ESRCH, 0) ∧ n' = n
  else if IS_DETACHED pd t then res = Some (EINVAL, 0) ∧ n' = n
  else if deadlock t self_t then res = Some (EDEADLK, 0) ∧ n' = n
  else if pd_joinid t =? self then res = Some (EINVAL, 0)
  else wait_post res n'.

Hypothesis Hun : munmap_succeeds (K := K).

Lemma wp_join_ended debugging t n :
  running pd t n → pd_tid t = 0 → has (pd_cancelhandling t) TERMINATED_BITMASK = false →
  wp (upd_pd pd (λ t, t <| pd_tid := -1 |>);; free_tcb debugging pd;; mret (Some (0, pd_result t)))
     (λ res n', wait_post res n') n.
Proof.
  intros Hr Htid Hterm. pose proof Hr as [(u & c & r & Hp) Et Hl]. wp_step.
  eapply wp_upd_pd; [exact Et|]. set (t1 := t <| pd_tid := -1 |>). set (n1 := n <| pds := _ |>).
  wp_step. eapply wp_mono.
  { apply (wp_free_tcb debugging n1 pd u c r t1); try done.
    - by eapply (placed_upd n n1 pd u c r pd t t1).
    - apply lookup_insert_eq. }
  intros [] n' Hpost. unfold free_post in Hpost.
  change (pd_cancelhandling t1) with (pd_cancelhandling t) in Hpost. rewrite Hterm in Hpost.
  destruct Hpost as (Hrep & Hk & _ & _ & Hf). wp_step.
  exists u, c, r, n, t. split_and!; try done. eapply others_trans; [|exact Hk].
  by eapply placed_kept.
Qed.

Lemma wp_clockjoin debugging fuel clockid abstime t self_t n :
  running pd t n → pds n !! self = Some self_t →
  has (pd_cancelhandling t) TERMINATED_BITMASK = false →
  match abstime with
  | None => ∃ k, (k ≤ fuel)%nat ∧ ends_in k n
  | Some a => ∃ k, (k ≤ fuel)%nat ∧ timed_ends_in clockid a k n
  end →
  wp (pthread_clockjoin_ex debugging fuel self pd clockid abstime true) (join_post t self_t n) n.
Proof.
  intros Hr Eself Hterm Htime. unfold pthread_clockjoin_ex, join_post. wp_step.
  eapply wp_load_pd; [apply Hr|]. rewrite invalid_not_terminated.
  destruct (pd_tid t <? 0); [by wp_step|]. destruct (IS_DETACHED pd t); [by wp_step|]. wp_step.
  eapply wp_load_pd; [exact Eself|]. fold (deadlock t self_t).
  destruct (deadlock t self_t); [by wp_step|]. unfold compare_exchange.
  destruct (pd_joinid t =? self).
  { wp_step. eapply wp_upd_pd; [apply Hr|]. by wp_step. }
  wp_step. eapply wp_upd_pd; [apply Hr|].
  assert (En : n <| pds := <[pd := t <| pd_joinid := pd_joinid t |>]> (pds n) |> = n).
  { destruct n, t. unfold set_field. cbn in *. rewrite insert_id; [done|]. apply Hr. }
  rewrite En. wp_step.
  apply (wp_mono _ (λ res n', waited_for t res n' ∧
    res ∈ [None; Some 0; Some EINVAL; Some ETIMEDOUT])).
  { destruct abstime as [a|].
    - unfold clockwait_tid. destruct (negb _).
      { wp_step. split; [by exists t|set_solver]. }
      destruct Htime as (k & Hk & Hend). by eapply wp_clockwait.
    - destruct Htime as (k & Hk & Hend). eapply wp_mono; [by eapply wp_wait_tid|].
      intros res n' [? [-> | ->]]; (split; [done|set_solver]). }
  intros res n1 [(t1 & Hr1 & Hf1 & Htid) Hres]. destruct res as [e|].
  2:{ wp_step. unfold cleanup, compare_exchange. destruct (_ =? self); wp_step; wp_step; by exists t1. }
  wp_step. eapply wp_load_pd; [apply Hr1|]. destruct (Z.eqb_spec e 0) as [->|He].
  - apply wp_join_ended; [done|by apply Htid|]. unfold joined_fate, fate in Hf1.
    by injection Hf1 as _ _ _ -> _.
  - wp_step. eapply wp_running_upd; [exact Hr1|done|]. intros n2 Hr2 _. wp_step. unfold wait_post.
    rewrite (proj2 (Z.eqb_neq e 0) He). split; [set_solver|]. split; [done|]. eexists. by split.
Qed.
End Join.

(** * Cancelling *)

Section Cancel.
Context {K : Type} {PF : Platform} {PL : PlatformLaws} {LA : ListApi} {LL : ListLaws}.
Context {KN : Kernel K} {KL : KernelLaws (K := K)} {JE : JoinEnv K} {JL : JoinLaws K}.
Implicit Types n : nptl K.
Variable interfere : nat → nptl K → nptl K.
Variables (self pd : ptr).

Definition both n : Prop := is_Some (pds n !! pd) ∧ is_Some (pds n !! self).

(** Other threads may change anything but do not free the two descriptors. *)
Definition interfere_ok : Prop := ∀ i n, both n → both (interfere i n).
(** Some round sees no change of [cancelhandling]. *)
Definition quiet_round (i : nat) : Prop := ∀ n,
  pd_cancelhandling <$> pds (interfere i n) !! pd = pd_cancelhandling <$> pds n !! pd.

(** The bits were added to what was there at that moment: [n1] is the state right
    before the store. *)
Definition cancel_post (res : Z) n' : Prop :=
  ∃ n1 t1, pds n1 !! pd = Some t1 ∧
    let both_bits := Z.lor CANCELING_BITMASK CANCELED_BITMASK in
    (res = 0 ∧ n' = n1 <| pds := <[pd := t1 <| pd_cancelhandling :=
                             Z.lor (pd_cancelhandling t1) both_bits |>]> (pds n1) |>) ∨
    (CANCEL_ENABLED_AND_CANCELED_AND_ASYNCHRONOUS (Z.lor (pd_cancelhandling t1) both_bits) = true ∧
     let n2 := n1 <| pds := <[pd := t1 <| pd_cancelhandling :=
                   Z.lor (pd_cancelhandling t1) CANCELING_BITMASK |>]> (pds n1) |> in
     n' = (sys_tgkill (pd_tid t1) SIGCANCEL n2).1 ∧
     res = match (sys_tgkill (pd_tid t1) SIGCANCEL n2).2 with Some e => e | None => 0 end).

Hypothesis Hint : interfere_ok.

Lemma wp_exchange_cancelhandling newval oldval t n (Q : bool → nptl K → Prop) :
  pds n !! pd = Some t →
  (pd_cancelhandling t ≠ oldval → Q true n) →
  (pd_cancelhandling t = oldval →
     Q false (n <| pds := <[pd := t <| pd_cancelhandling := newval |>]> (pds n) |>)) →
  wp (exchange_cancelhandling pd newval oldval) Q n.
Proof.
  intros Et H1 H2. unfold exchange_cancelhandling. wp_step. eapply wp_load_pd; [exact Et|].
  destruct (Z.eqb_spec (pd_cancelhandling t) oldval) as [E|E]; [|wp_step; by apply H1].
  wp_step. eapply wp_upd_pd; [exact Et|]. wp_step. by apply H2.
Qed.

Lemma wp_cancel_loop fuel : ∀ n,
  both n → (∃ i, (i < fuel)%nat ∧ quiet_round i) →
  wp (cancel_loop interfere fuel self pd) (λ res n', cancel_post res n') n.
Proof.
  induction fuel as [|fuel IH]; intros n Hb (i & Hi & Hq); [lia|]. cbn [cancel_loop].
  destruct Hb as [[t Et] [st Est]]. wp_step. eapply wp_load_pd; [exact Et|].
  set (bits := Z.lor CANCELING_BITMASK CANCELED_BITMASK).
  destruct (Z.eqb_spec (pd_cancelhandling t) (Z.lor (pd_cancelhandling t) bits)) as [E|E].
  { wp_step. exists n, t. split; [exact Et|]. left. split; [done|]. fold bits. rewrite <- E.
    destruct n, t. unfold set_field. cbn in *. by rewrite insert_id. }
  (* another round, or the quiet one *)
  assert (Hround : ∀ n1 oldval t2, both n1 → oldval = pd_cancelhandling <$> pds n1 !! pd →
    pds (interfere fuel n1) !! pd = Some t2 → Some (pd_cancelhandling t2) ≠ oldval →
    wp (cancel_loop interfere fuel self pd) (λ res n', cancel_post res n') (interfere fuel n1)).
  { intros n1 oldval t2 Hb1 Eo Et2 Hne. apply IH; [by apply Hint|].
    destruct (decide (i = fuel)) as [->|]; [|exists i; split; [lia|done]].
    specialize (Hq n1). rewrite Et2 in Hq. cbn in Hq. congruence. }
  destruct (CANCEL_ENABLED_AND_CANCELED_AND_ASYNCHRONOUS _) eqn:Easync.
  - do 2 wp_step. destruct (Hint fuel n) as [[t2 Et2] _]; [by split; eauto|]. wp_step.
    eapply wp_exchange_cancelhandling; [exact Et2| |].
    + intros Hne. apply (Hround n (Some (pd_cancelhandling t)) t2); [by split; eauto|by rewrite Et|
        done|congruence].
    + intros Eq. wp_step. eapply wp_load_pd; [apply lookup_insert_eq|]. do 2 wp_step. cbv beta.
      unfold id. set (n2 := (interfere fuel n) <| pds := _ |>).
      rs. destruct (sys_tgkill (pd_tid t2) SIGCANCEL n2) as [n3 err] eqn:Ek.
      do 2 wp_step. wp_step. exists (interfere fuel n), t2. split; [exact Et2|]. right.
      rewrite Eq. split; [exact Easync|]. cbv zeta. fold n2. by rewrite Ek.
  - wp_step. eapply wp_upd_pd; [exact Est|]. do 2 wp_step. wp_step.
    set (n1 := n <| pds := _ |>).
    assert (Hb1 : both n1).
    { subst n1. split; rs; (destruct (decide (self = pd)) as [->|Hne];
        [rewrite lookup_insert_eq; eauto|]); [rewrite lookup_insert_ne by done; eauto|
        rewrite lookup_insert_eq; eauto]. }
    assert (Ech : pd_cancelhandling <$> pds n1 !! pd = Some (pd_cancelhandling t)).
    { subst n1. rs. destruct (decide (self = pd)) as [->|Hne].
      - rewrite lookup_insert_eq. cbn. rs. congruence.
      - by rewrite lookup_insert_ne, Et. }
    destruct (Hint fuel n1 Hb1) as [[t2 Et2] _].
    eapply wp_exchange_cancelhandling; [exact Et2| |].
    + intros Hne. eapply (Hround n1 (Some (pd_cancelhandling t)) t2); [done|by rewrite Ech|done|congruence].
    + intros Eq. wp_step. exists (interfere fuel n1), t2. split; [exact Et2|]. left.
      split; [done|]. by rewrite Eq.
Qed.
End Cancel.

(** * Properties *)

Section Properties.
Context {K : Type} {PF : Platform} {PL : PlatformLaws} {LA : ListApi} {LL : ListLaws}.
Context {KN : Kernel K} {KL : KernelLaws (K := K)} {EV : Env K} {JE : JoinEnv K} {JL : JoinLaws K}.
Implicit Types n : nptl K.

(** C36: joining a thread, with or without a time limit: a handle of a joined thread,
    a detached thread and a deadlock are refused with nothing changed; otherwise
    the caller returns 0 only when the thread has ended, with the thread's value,
    and its descriptor is freed, its stack given back and no other descriptor
    touched; when the time is over (or the clock fails) the thread is kept,
    marked as not waited for; a caller that is cancelled while it waits leaves
    the thread joinable. *)
Theorem clockjoin_frees debugging fuel self pd clockid abstime t self_t n :
  wait_ok pd → munmap_succeeds (K := K) → running pd t n → pds n !! self = Some self_t →
  has (pd_cancelhandling t) TERMINATED_BITMASK = false →
  match abstime with
  | None => ∃ k, (k ≤ fuel)%nat ∧ ends_in pd k n
  | Some a => ∃ k, (k ≤ fuel)%nat ∧ timed_ends_in pd clockid a k n
  end →
  wp (pthread_clockjoin_ex debugging fuel self pd clockid abstime true)
     (join_post self pd t self_t n) n.
Proof. intros. by apply wp_clockjoin. Qed.

(** [pthread_cancel], with other threads changing [cancelhandling] between its
    reads and its exchanges: it ends as soon as one round is not disturbed; the
    bits are added to what is there at that moment, so that no bit another thread
    set is lost; a thread that can be cancelled at any time is marked as being
    cancelled before it is sent [SIGCANCEL], and the result is that of the
    signal; a handle of a thread that has ended is refused with nothing changed. *)
Theorem pthread_cancel_marks interfere fuel self pd t n :
  interfere_ok interfere self pd → (∃ i, (i < fuel)%nat ∧ quiet_round interfere pd i) →
  pds n !! pd = Some t → is_Some (pds n !! self) →
  wp (pthread_cancel interfere fuel self pd) (λ res n',
    if pd_tid t <=? 0 then res = ESRCH ∧ n' = n else cancel_post pd res n') n.
Proof.
  intros Hint Hq Et Es. unfold pthread_cancel. wp_step. eapply wp_load_pd; [exact Et|].
  rewrite invalid_td. destruct (pd_tid t <=? 0); [by wp_step|].
  apply wp_cancel_loop; [done|split; eauto|done].
Qed.
End Properties.

(** * Examples *)

Section Examples.
Import X86 ListH SimThreads.

(** Two more threads in use: one to be joined and another joiner. *)
Definition join_demo1 : nptl simk := map_block Used (2 * MiB) 105 demo.
Definition join_demo : nptl simk := map_block Used (2 * MiB) 106 join_demo1.
Definition target : ptr := next_pd (2 * MiB) join_demo1.
Definition joiner_b : ptr := next_pd (2 * MiB) demo.

(** The thread ends during the wait. *)
Definition target_ends (pd : ptr) (n : nptl simk) : nptl simk :=
  n <| pds := alter (λ t, t <| pd_tid := 0 |> <| pd_result := 77 |>) pd (pds n) |>.

Definition sim_join (wait : ptr → nptl simk → nptl simk) : JoinEnv simk := {|
  INVALID_TD_P t := pd_tid t <=? 0; INVALID_NOT_TERMINATED_TD_P t := pd_tid t <? 0;
  CANCEL_ENABLED_AND_CANCELED x := x =? 8;
  CANCEL_ENABLED_AND_CANCELED_AND_ASYNCHRONOUS x := Z.testbit x 1;
  valid_nanoseconds x := (0 <=? x) && (x <? 1000000000);
  clock_gettime _ _ := Some (100, 0);
  futex_wait_cancel pd _ _ n := (wait pd n, Woken);
  offsetof_joinid := 1568;
  sys_tgkill _ _ n := (n, None);
|}.

Lemma sim_join_laws wait : @JoinLaws simk (sim_join wait).
Proof. by split. Qed.

(** The other joiner's call, made while the first one waits. *)
Definition b_joins (pd : ptr) (n : nptl simk) : nptl simk :=
  match @pthread_join _ _ _ _ (sim_join target_ends) false 3 joiner_b pd n with
  | Done _ n' => n'
  | Stop _ n' => n'
  end.

Example join_run :
  match @pthread_join _ _ _ _ (sim_join target_ends) true 3 demo_self target join_demo with
  | Done r n => (r, list_for_each (links n) stack_used)
  | Stop _ _ => (None, [])
  end = (Some (0, 77), [list_of joiner_b; list_of demo_self]).
Proof. vm_compute. reflexivity. Qed.

(** a defect.  The exchange on [joinid] has its expected and its desired value the
    wrong way round: it never records the waiter, so a second joiner is not
    refused, although the code says there can be only one.  The second joiner
    gets the value and frees the descriptor; the first, woken, finds the id to be
    -1 instead of 0 and waits again, for a wake-up that never comes. *)
Theorem two_joiners :
  let others := @pthread_join _ _ _ _ (sim_join target_ends) false 3 joiner_b target join_demo in
  match @pthread_join _ _ _ _ (sim_join b_joins) false 20 demo_self target join_demo with
  | Stop w n => w = Blocked ∧ pd_tid <$> pds n !! target = Some (-1)
  | Done _ _ => False
  end ∧
  match others with Done r _ => r = Some (0, 77) | Stop _ _ => False end.
Proof. vm_compute. repeat split. Qed.

#[local] Instance demo_join : JoinEnv simk := sim_join target_ends.
#[local] Instance demo_join_laws : JoinLaws simk := sim_join_laws target_ends.

Lemma join_rep : rep join_demo (lists [target; joiner_b; demo_self] demo_c []).
Proof.
  apply map_block_used; [|unfold MiB; lia|vm_compute; reflexivity].
  apply map_block_used; [|unfold MiB; lia|vm_compute; reflexivity]. apply rep_demo.
Qed.

Definition target_td : pthread := block_at (top_of (events (kern join_demo1))) (2 * MiB) 106.

Lemma target_running : running target target_td join_demo.
Proof.
  split; [|apply lookup_insert_eq|reflexivity]. exists [joiner_b; demo_self], demo_c, [].
  left. exists [], [joiner_b; demo_self]. split; [reflexivity|]. apply join_rep.
Qed.

Lemma target_wait_ok : wait_ok target.
Proof.
  intros tid to n t Hr. exists (t <| pd_tid := 0 |> <| pd_result := 77 |>). split; [|done].
  cbn [futex_wait_cancel demo_join sim_join fst]. eapply running_upd; [exact Hr|reflexivity| |reflexivity..].
  unfold target_ends. rs. apply map_eq. intros q. destruct (decide (q = target)) as [->|Hne].
  - by rewrite lookup_alter_eq, lookup_insert_eq, (run_pd _ _ _ Hr).
  - by rewrite lookup_alter_ne, lookup_insert_ne.
Qed.

Lemma target_ends_in : ends_in target 1 join_demo.
Proof.
  unfold ends_in. cbn [Nat.iter nat_rect]. unfold one_wait.
  rewrite (run_pd _ _ _ target_running). intros t. cbn [futex_wait_cancel demo_join sim_join fst].
  unfold target_ends. rs. rewrite lookup_alter_eq, (run_pd _ _ _ target_running).
  by intros [= <-].
Qed.

Lemma clockjoin_frees_witness :
  ∃ self_t, pds join_demo !! demo_self = Some self_t ∧
  wp (pthread_clockjoin_ex true 1 demo_self target 0 None true)
     (join_post demo_self target target_td self_t join_demo)
     join_demo.
Proof.
  destruct (rep_live _ _ join_rep Used demo_self) as [self_t Et]; [cbn; set_solver|].
  exists self_t. split; [exact Et|].
  apply (clockjoin_frees true 1 demo_self target 0 None
           target_td self_t join_demo);
    [apply target_wait_ok | apply sim_munmap | apply target_running | exact Et
    | vm_compute; reflexivity | exists 1%nat; split; [lia|apply target_ends_in]].
Defined.

(** Another thread sets a bit in the first round; the second is quiet. *)
Definition disturb (i : nat) (n : nptl simk) : nptl simk :=
  if (i =? 0)%nat then n
  else n <| pds := alter (λ t, t <| pd_cancelhandling := Z.lor (pd_cancelhandling t) 64 |>)
                     target (pds n) |>.

Example cancel_run :
  match pthread_cancel disturb 2 demo_self target join_demo with
  | Done r n => (r, pd_cancelhandling <$> pds n !! target)
  | Stop _ _ => (0, None)
  end = (0, Some 76).
Proof. vm_compute. reflexivity. Qed.

Lemma disturb_ok : interfere_ok disturb demo_self target.
Proof.
  intros i n [H1 H2]. unfold disturb. destruct (i =? 0)%nat; [done|]. split; rs.
  - rewrite lookup_alter_eq. by apply fmap_is_Some.
  - destruct (decide (demo_self = target)) as [->|Hne];
      [rewrite lookup_alter_eq; by apply fmap_is_Some|by rewrite lookup_alter_ne].
Qed.

Lemma pthread_cancel_marks_witness :
  wp (pthread_cancel disturb 2 demo_self target) (λ res n',
    if pd_tid target_td <=? 0 then res = ESRCH ∧ n' = join_demo
    else cancel_post target res n') join_demo.
Proof.
  apply (pthread_cancel_marks disturb 2 demo_self target
           target_td join_demo);
    [apply disturb_ok | exists 0%nat; split; [lia|intros n; reflexivity]
    | apply (run_pd _ _ _ target_running) | apply (rep_live _ _ join_rep Used); cbn; set_solver].
Defined.
End Examples.
