(* ===== verification/PthreadCreate.v ===== *)
(** [pthread_create] ([pthread_create.c], [createthread.c]).

    The function is split where its source has its steps: the attributes, the
    initialisation of the descriptor, the scheduling parameters, the signal mask,
    the creation of the thread, and the two ends.  [*newthread] is part of the
    result.  Calls that only prepare stdio, probes and the architecture's TLS
    header have no effect on the state modelled and are left out. *)
From S2P Require Import Prelude ListHead Nptl Sim StackCache Demo StackCacheProofs AllocateStack ThreadAttr Process.

(** The [attr] argument: [NULL], [ATTR_C11_THREAD] or a pointer to attributes. *)
Inductive attr_arg := NoAttr | C11Attr | Attr (a : pthread_attr).

Section Defs.
Context {K : Type} {PF : Platform} {LA : ListApi} {KN : Kernel K} {EV : Env K}.
Implicit Types pd self : ptr.

(** The mask of the flags a thread gets from its creator. *)
Definition SCHED_FLAGS : Z := Z.lor ATTR_FLAG_SCHED_SET ATTR_FLAG_POLICY_SET.

(** The new descriptor, from the creator's. *)
Definition init_tcb pd (self_t : pthread) (iattr : pthread_attr) (start_routine arg : ptr)
    (c11 : bool) (t : pthread) : pthread :=
  t <| pd_self := pd |> <| pd_tcb := pd |>
    <| pd_start_routine := start_routine |> <| pd_arg := arg |> <| pd_c11 := c11 |>
    <| pd_flags := Z.lor (Z.land (attr_flags iattr) (Z.lnot SCHED_FLAGS))
                         (Z.land (pd_flags self_t) SCHED_FLAGS) |>
    <| pd_joinid := if has (attr_flags iattr) ATTR_FLAG_DETACHSTATE then pd else 0 |>
    <| pd_eventbuf := pd_eventbuf self_t |>
    <| pd_schedpolicy := pd_schedpolicy self_t |>
    <| pd_schedparam := pd_schedparam self_t |>.

(** The scheduling parameters the user provided. *)
Definition user_sched (iattr : pthread_attr) (t : pthread) : pthread :=
  if has (attr_flags iattr) ATTR_FLAG_NOTINHERITSCHED
     && negb (Z.land (attr_flags iattr) SCHED_FLAGS =? 0) then
    let t := if has (attr_flags iattr) ATTR_FLAG_POLICY_SET then
               t <| pd_schedpolicy := attr_schedpolicy iattr |>
                 <| pd_flags := Z.lor (pd_flags t) ATTR_FLAG_POLICY_SET |>
             else t in
    let t := if has (attr_flags iattr) ATTR_FLAG_SCHED_SET then
               t <| pd_schedparam := attr_schedparam iattr |>
                 <| pd_flags := Z.lor (pd_flags t) ATTR_FLAG_SCHED_SET |>
             else t in
    if negb (Z.land (pd_flags t) SCHED_FLAGS =? SCHED_FLAGS) then collect_default_sched t
    else t
  else t.

(** The mask the thread starts with. *)
Definition start_mask (iattr : pthread_attr) (original : Z) : Z :=
  match attr_extension iattr with
  | Some e => if ext_sigmask_set e then ext_sigmask e else sigdelset original SIGCANCEL
  | None => sigdelset original SIGCANCEL
  end.

Definition report_thread_creation self pd : M (process K) bool :=
  self_t ← lift (load_pd self);
  if pd_report_events self_t then t ← lift (load_pd pd); mret (wants_event TD_CREATE t)
  else mret false.

(** [ARCH_CLONE]: the thread id is stored before the thread can run, and a thread
    that need not wait runs at once.  [None], or [errno]. *)
Definition clone pd : M (process K) (option Z) :=
  n ← gets lib;
  match sys_clone pd n with
  | inl e => lift (set_errno e);; mret (Some e)
  | inr tid =>
      lift (upd_pd pd (λ t, t <| pd_tid := tid |>));;
      t ← lift (load_pd pd);
      when (negb (pd_stopped_start t)) (lift (modify (run_thread pd)));;
      mret None
  end.

(** [err_out]: cancel the thread that has started. *)
Definition err_out pd (res : Z) : M (process K) Z :=
  t ← lift (load_pd pd); lift (modify (cancel_thread pd));; mret res.

Definition set_affinity pd (attr : pthread_attr) (stopped_start : bool) : M (process K) (option Z) :=
  match attr_extension attr with
  | Some e =>
      if negb (ext_cpuset e =? 0) then
        assert stopped_start;;
        t ← lift (load_pd pd);
        n ← gets lib;
        mret (sys_setaffinity (pd_tid t) (ext_cpusetsize e) (ext_bytes e) n)
      else mret None
  | None => mret None
  end.

Definition set_scheduler pd (attr : pthread_attr) (stopped_start : bool) : M (process K) (option Z) :=
  if has (attr_flags attr) ATTR_FLAG_NOTINHERITSCHED then
    assert stopped_start;;
    t ← lift (load_pd pd);
    n ← gets lib;
    mret (sys_setscheduler (pd_tid t) (pd_schedpolicy t) (pd_schedparam t) n)
  else mret None.

Definition need_setaffinity (attr : pthread_attr) : bool :=
  match attr_extension attr with Some e => negb (ext_cpuset e =? 0) | None => false end.

(** The result, [*stopped_start] and [*thread_ran]. *)
Definition create_thread pd (attr : pthread_attr) (stopped_start : bool)
    : M (process K) (Z * bool * bool) :=
  let stopped_start :=
    if need_setaffinity attr || has (attr_flags attr) ATTR_FLAG_NOTINHERITSCHED then true
    else stopped_start in
  lift (upd_pd pd (λ t, t <| pd_stopped_start := stopped_start |>));;
  when stopped_start (lift (lock_pd pd));;
  r ← clone pd;
  match r with
  | Some e => mret (e, stopped_start, false)
  | None =>
      res ← set_affinity pd attr stopped_start;
      match res with
      | Some e => e ← err_out pd e; mret (e, stopped_start, true)
      | None =>
          res ← set_scheduler pd attr stopped_start;
          match res with
          | Some e => e ← err_out pd e; mret (e, stopped_start, true)
          | None => mret (0, stopped_start, true)
          end
      end
  end.

(** Start the thread, stopped if the debugger wants to know of it. *)
Definition start_thread_of self pd (iattr : pthread_attr) : M (process K) (Z * bool * bool) :=
  report ← report_thread_creation self pd;
  if report : bool then
    '(retval, stopped_start, thread_ran) ← create_thread pd iattr true;
    when (retval =? 0)
      (assert stopped_start;;
       t ← lift (load_pd pd);
       assert (pd_stopped_start t);;
       enqueue_event pd TD_CREATE);;
    mret (retval, stopped_start, thread_ran)
  else create_thread pd iattr false.

(** The thread could not be created: give everything back. *)
Definition undo_create pd : M (process K) () :=
  lift (modify (λ n, n <| nptl_nthreads := w32 (nptl_nthreads n - 1) |>);;
        upd_pd pd (λ t, t <| pd_setxid_futex := 0 |>);;
        deallocate_stack pd).

Definition finish_create self pd (retval : Z) (stopped_start thread_ran : bool)
    : M (process K) Z :=
  if negb (retval =? 0) then
    (if thread_ran then assert stopped_start else undo_create pd);;
    mret (if retval =? ENOMEM then EAGAIN else retval)
  else
    when stopped_start (lift (unlock_pd pd));;
    lift (upd_pd self (λ t, t <| pd_multiple_threads := 1 |>));;
    mret retval.

(** From a stack to the result. *)
Definition create_on self pd (iattr : pthread_attr) (start_routine arg : ptr) (c11 : bool)
    : M (process K) Z :=
  self_t ← lift (load_pd self);
  lift (upd_pd pd (init_tcb pd self_t iattr start_routine arg c11));;
  lift (upd_pd pd (user_sched iattr));;
  lift (modify (λ n, n <| nptl_nthreads := w32 (nptl_nthreads n + 1) |>));;
  original ← block_all;
  lift (upd_pd pd (λ t, t <| pd_sigmask := start_mask iattr original |>));;
  '(retval, stopped_start, thread_ran) ← start_thread_of self pd iattr;
  restore_set original;;
  finish_create self pd retval stopped_start thread_ran.

(** The result and [*newthread], if it was stored. *)
Definition create_with self (iattr : pthread_attr) (start_routine arg : ptr) (c11 : bool)
    (exec_now exec_later : bool) : M (process K) (Z * option ptr) :=
  res ← lift (allocate_stack iattr exec_now exec_later);
  match res with
  | inl err => mret (if err =? ENOMEM then EAGAIN else err, None)
  | inr (pd, _) =>
      retval ← create_on self pd iattr start_routine arg c11;
      mret (retval, Some pd)
  end.

Definition pthread_create_2_1 self (attr : attr_arg) (start_routine arg : ptr)
    (exec_now exec_later : bool) : M (process K) (Z * option ptr) :=
  modify (λ s, s <| single_threaded := false |>);;
  match attr with
  | Attr iattr => create_with self iattr start_routine arg false exec_now exec_later
  | _ =>
      n ← gets lib;
      match getattr_default n with
      | inl ret => mret (ret, None)
      | inr iattr =>
          r ← create_with self iattr start_routine arg
                (match attr with C11Attr => true | _ => false end) exec_now exec_later;
          pthread_attr_destroy iattr;;
          mret r
      end
  end.

(** Attributes of the old size: only the first three fields are read. *)
Definition convert_old (a : pthread_attr) : pthread_attr :=
  mkAttr (attr_schedparam a) (attr_schedpolicy a) (attr_flags a) pagesize 0 0 None.
Definition pthread_create_2_0 self (attr : attr_arg) (start_routine arg : ptr)
    (exec_now exec_later : bool) : M (process K) (Z * option ptr) :=
  match attr with
  | NoAttr => pthread_create_2_1 self NoAttr start_routine arg exec_now exec_later
  | C11Attr => stop_with Fault  (* not a pointer to attributes *)
  | Attr a => pthread_create_2_1 self (Attr (convert_old a)) start_routine arg exec_now exec_later
  end.
End Defs.

(** * Ownership of the descriptor *)

(** What the creator asks the new thread to do. *)
Record job := mkJob { j_routine : ptr; j_arg : ptr; j_c11 : bool; j_attr : pthread_attr; j_mask : Z }.

(** The fields the new thread starts from. *)
Record ready `{Platform} (j : job) (pd : ptr) (t : pthread) : Prop := {
  ready_routine : pd_start_routine t = j_routine j;
  ready_arg : pd_arg t = j_arg j;
  ready_c11 : pd_c11 t = j_c11 j;
  ready_self : pd_self t = pd ∧ pd_tcb t = pd;
  ready_joinid : pd_joinid t =
    if has (attr_flags (j_attr j)) ATTR_FLAG_DETACHSTATE then pd else 0;
  ready_mask : pd_sigmask t = start_mask (j_attr j) (j_mask j);
}.

(** The creator owns the descriptor: it is in its list, the other threads'
    descriptors are as in [n0], the cache is not locked, and [nth] threads are
    counted. *)
Record owned `{Platform, ListApi, !Kernel K, !KernelLaws (K := K)} (n0 : nptl K)
    (u c r : list ptr) (nth : Z) (pd : ptr) (t : pthread) (n : nptl K) : Prop := {
  own_placed : placed n pd u c r;
  own_pd : pds n !! pd = Some t;
  own_lock : stack_cache_lock n = 0;
  own_others : others_kept n0 n (u ++ r);
  own_config : config n = (stack_cache_maxsize n0, default_pthread_attr_lock n0,
                           default_stacksize n0, nth);
}.

Section Proofs.
Context {K : Type} {PF : Platform} {PL : PlatformLaws} {LA : ListApi} {LL : ListLaws}.
Context {KN : Kernel K} {KL : KernelLaws (K := K)} {EV : Env K} {EL : EnvLaws K}.
Variables (n0 : nptl K) (u c r : list ptr) (self : ptr) (self_t : pthread).
Hypothesis Hself : self ∈ u ++ r.
Hypothesis Eself : pds n0 !! self = Some self_t.
Implicit Types s : process K.

Lemma owned_upd nth pd t t' n n' :
  owned n0 u c r nth pd t n → geom t' = geom t → pds n' = <[pd := t']> (pds n) →
  links n' = links n → stack_cache_actsize n' = stack_cache_actsize n → kern n' = kern n →
  stack_cache_lock n' = stack_cache_lock n → config n' = config n →
  owned n0 u c r nth pd t' n'.
Proof.
  intros [Hp Ep Hl Ho Hc] Eg E El Ea Ek Elk Ec. split.
  - by eapply placed_upd.
  - rewrite E. apply lookup_insert_eq.
  - congruence.
  - intros q Hq. rewrite E, lookup_insert_ne; [by apply Ho|]. intros <-.
    by apply (placed_notin n pd u c r).
  - congruence.
Qed.

Lemma owned_ext nth nth' pd t n n' :
  owned n0 u c r nth pd t n → pds n' = pds n → links n' = links n →
  stack_cache_actsize n' = stack_cache_actsize n → kern n' = kern n →
  stack_cache_lock n' = stack_cache_lock n →
  config n' = (stack_cache_maxsize n, default_pthread_attr_lock n, default_stacksize n, nth') →
  owned n0 u c r nth' pd t n'.
Proof.
  intros [Hp Ep Hl Ho Hc] E El Ea Ek Elk Ec. split; [by eapply placed_ext|congruence|congruence| |].
  - intros q Hq. rewrite E. by apply Ho.
  - unfold config in *. congruence.
Qed.

Lemma wp_owned_upd nth pd t f (Q : () → process K → Prop) s :
  owned n0 u c r nth pd t (lib s) → geom (f t) = geom t →
  (∀ n, owned n0 u c r nth pd (f t) n → Q () (s <| lib := n |>)) →
  wp (lift (upd_pd pd f)) Q s.
Proof.
  intros Ho Eg HQ. apply wp_lift. eapply wp_upd_pd; [apply Ho|]. apply HQ.
  by eapply owned_upd.
Qed.

Lemma wp_load p t (Q : pthread → process K → Prop) s :
  pds (lib s) !! p = Some t → Q t s → wp (lift (load_pd p)) Q s.
Proof. intros E HQ. apply wp_lift. eapply wp_load_pd; [done|]. by destruct s. Qed.

Lemma owned_self nth pd t n : owned n0 u c r nth pd t n → pds n !! self = Some self_t.
Proof. intros []. by rewrite own_others0. Qed.

(** ** The parts *)

Lemma user_sched_fields a t :
  ∃ p q fl, user_sched a t =
    t <| pd_schedpolicy := p |> <| pd_schedparam := q |> <| pd_flags := fl |>.
Proof.
  unfold user_sched. destruct (_ && _); [|exists (pd_schedpolicy t), (pd_schedparam t), (pd_flags t);
    by destruct t].
  assert (H : ∃ p q fl,
    (let t1 := if has (attr_flags a) ATTR_FLAG_POLICY_SET then
               t <| pd_schedpolicy := attr_schedpolicy a |>
                 <| pd_flags := Z.lor (pd_flags t) ATTR_FLAG_POLICY_SET |> else t in
     if has (attr_flags a) ATTR_FLAG_SCHED_SET then
               t1 <| pd_schedparam := attr_schedparam a |>
                 <| pd_flags := Z.lor (pd_flags t1) ATTR_FLAG_SCHED_SET |> else t1) =
    t <| pd_schedpolicy := p |> <| pd_schedparam := q |> <| pd_flags := fl |>).
  { destruct (has _ ATTR_FLAG_POLICY_SET), (has _ ATTR_FLAG_SCHED_SET); cbv zeta.
    - exists (attr_schedpolicy a), (attr_schedparam a),
        (Z.lor (Z.lor (pd_flags t) ATTR_FLAG_POLICY_SET) ATTR_FLAG_SCHED_SET). by destruct t.
    - exists (attr_schedpolicy a), (pd_schedparam t), (Z.lor (pd_flags t) ATTR_FLAG_POLICY_SET).
      by destruct t.
    - exists (pd_schedpolicy t), (attr_schedparam a), (Z.lor (pd_flags t) ATTR_FLAG_SCHED_SET).
      by destruct t.
    - exists (pd_schedpolicy t), (pd_schedparam t), (pd_flags t). by destruct t. }
  destruct H as (p & q & fl & E). cbv zeta in E |- *. rewrite E.
  destruct (negb _); [|by exists p, q, fl].
  destruct (collect_fields (t <| pd_schedpolicy := p |> <| pd_schedparam := q |>
    <| pd_flags := fl |>)) as (p' & q' & fl' & ->). exists p', q', fl'. by destruct t.
Qed.

Lemma init_ready pd a routine arg c11 mask t :
  let j := mkJob routine arg c11 a mask in
  let t' := user_sched a (init_tcb pd self_t a routine arg c11 t) in
  ready j pd (t' <| pd_sigmask := start_mask a mask |>) ∧ geom t' = geom t ∧ pd_lock t' = pd_lock t.
Proof.
  cbv zeta. destruct (user_sched_fields a (init_tcb pd self_t a routine arg c11 t))
    as (p & q & fl & ->). by split_and!.
Qed.

Lemma wp_clone nth pd t (Q : option Z → process K → Prop) s :
  owned n0 u c r nth pd t (lib s) →
  (∀ e n, e ≠ 0 → owned n0 u c r nth pd t n → Q (Some e) (s <| lib := n |>)) →
  (∀ tid n, owned n0 u c r nth pd (t <| pd_tid := tid |>) n →
     Q None (s <| lib := if pd_stopped_start t then n else run_thread pd n |>)) →
  wp (clone pd) Q s.
Proof.
  intros Ho He Hn. unfold clone. do 2 wp_step. destruct (sys_clone pd (lib s)) as [e|tid] eqn:E.
  - wp_step. apply wp_lift. unfold set_errno. do 2 wp_step. apply He; [by eapply clone_errno|].
    eapply owned_ext; try done. destruct Ho as [_ _ _ _ Hc]. unfold config in *. rs. congruence.
  - wp_step. eapply wp_owned_upd; [exact Ho|done|]. intros n Hn'. wp_step.
    eapply wp_load; [apply Hn'|]. wp_step. specialize (Hn tid n Hn').
    unfold when. change (pd_stopped_start (t <| pd_tid := tid |>)) with (pd_stopped_start t).
    destruct (pd_stopped_start t); cbn [negb]; cbv iota.
    + by do 2 wp_step.
    + apply wp_lift. by do 2 wp_step.
Qed.

Lemma wp_set_affinity nth pd t attr stopped (Q : option Z → process K → Prop) s :
  (need_setaffinity attr = true → stopped = true ∧ owned n0 u c r nth pd t (lib s)) →
  (∀ res, (∀ e, res = Some e → e ≠ 0 ∧ stopped = true) → Q res s) →
  wp (set_affinity pd attr stopped) Q s.
Proof.
  intros Hst HQ. unfold set_affinity, need_setaffinity in *.
  destruct (attr_extension attr) as [e|]; [|by apply HQ].
  destruct (negb (ext_cpuset e =? 0)); [|by apply HQ].
  destruct (Hst eq_refl) as [-> Ho]. do 2 wp_step; [done|]. wp_step.
  eapply wp_load; [apply Ho|]. do 3 wp_step. cbv beta.
  apply HQ. intros x Hx. split; [by eapply setaffinity_errno|done].
Qed.

Lemma wp_set_scheduler nth pd t attr stopped (Q : option Z → process K → Prop) s :
  (has (attr_flags attr) ATTR_FLAG_NOTINHERITSCHED = true →
     stopped = true ∧ owned n0 u c r nth pd t (lib s)) →
  (∀ res, (∀ e, res = Some e → e ≠ 0 ∧ stopped = true) → Q res s) →
  wp (set_scheduler pd attr stopped) Q s.
Proof.
  intros Hst HQ. unfold set_scheduler.
  destruct (has _ ATTR_FLAG_NOTINHERITSCHED); [|by apply HQ].
  destruct (Hst eq_refl) as [-> Ho]. do 2 wp_step; [done|]. wp_step.
  eapply wp_load; [apply Ho|]. do 3 wp_step. cbv beta.
  apply HQ. intros x Hx. split; [by eapply setscheduler_errno|done].
Qed.

(** The outcome of starting the thread: who owns the descriptor, and in which
    state it was let go. *)
Definition launched (j : job) (nth : Z) pd (must_stop : bool) (s0 : process K)
    (res : Z * bool * bool) s : Prop :=
  let '(e, stopped, ran) := res in
  sigmask s = sigmask s0 ∧ attr_freed s = attr_freed s0 ∧
  stopped = must_stop || need_setaffinity (j_attr j)
              || has (attr_flags (j_attr j)) ATTR_FLAG_NOTINHERITSCHED ∧
  ∃ n t, owned n0 u c r nth pd t n ∧ ready j pd t ∧ pd_stopped_start t = stopped ∧
    pd_lock t = (if stopped then 1 else 0) ∧
    if ran then
      if e =? 0 then lib s = (if stopped then n else run_thread pd n)
      else stopped = true ∧ lib s = cancel_thread pd n
    else e ≠ 0 ∧ lib s = n.

Lemma ready_status j pd t b l tid :
  ready j pd t →
  ready j pd (t <| pd_stopped_start := b |> <| pd_lock := l |> <| pd_tid := tid |>).
Proof. by intros []. Qed.

Lemma wp_err_out j nth pd t must_stop s0 e s :
  sigmask s = sigmask s0 → attr_freed s = attr_freed s0 →
  must_stop || need_setaffinity (j_attr j)
    || has (attr_flags (j_attr j)) ATTR_FLAG_NOTINHERITSCHED = true →
  owned n0 u c r nth pd t (lib s) → ready j pd t → pd_stopped_start t = true → pd_lock t = 1 →
  e ≠ 0 →
  wp (e ← err_out pd e; mret (e, true, true)) (launched j nth pd must_stop s0) s.
Proof.
  intros Hm Hf Hst Ho Hr Hs Hl He. unfold err_out. do 2 wp_step.
  eapply wp_load; [apply Ho|]. wp_step. apply wp_lift. do 3 wp_step.
  split_and!; [done|done|done|]. exists (lib s), t. split_and!; try done.
  destruct (Z.eqb_spec e 0); done.
Qed.

Lemma wp_create_thread j nth pd t must_stop s :
  owned n0 u c r nth pd t (lib s) → ready j pd t → pd_lock t = 0 →
  wp (create_thread pd (j_attr j) must_stop) (launched j nth pd must_stop s) s.
Proof.
  intros Ho Hr Hl. unfold create_thread. set (attr := j_attr j).
  assert (Est : (if need_setaffinity attr || has (attr_flags attr) ATTR_FLAG_NOTINHERITSCHED
                 then true else must_stop) =
    must_stop || need_setaffinity attr || has (attr_flags attr) ATTR_FLAG_NOTINHERITSCHED).
  { by destruct must_stop, (need_setaffinity attr), (has _ _). }
  rewrite Est. set (st := must_stop || _ || _).
  wp_step. eapply wp_owned_upd; [exact Ho|done|]. intros n1 Ho1. wp_step.
  set (l := if st then 1 else 0).
  apply (wp_mono _ (λ _ s2, sigmask s2 = sigmask s ∧ attr_freed s2 = attr_freed s ∧
    owned n0 u c r nth pd (t <| pd_stopped_start := st |> <| pd_lock := l |>) (lib s2))).
  { unfold when. subst l. destruct st.
    - apply wp_lift. eapply wp_lock_pd; [apply Ho1|done|]. split_and!; [done|done|].
      by eapply owned_upd.
    - wp_step. split_and!; [done|done|]. cbn [lib]. rs.
      replace (t <| pd_stopped_start := false |> <| pd_lock := 0 |>)
        with (t <| pd_stopped_start := false |>); [done|]. rewrite <- Hl. by destruct t. }
  intros [] s2 (Em & Ef & Ho2). wp_step. eapply wp_clone; [exact Ho2| |].
  - intros e n He Hn. wp_step. split_and!; [done|done|done|].
    eexists n, _. split_and!; [exact Hn| |done|done|done|done].
    by apply (ready_status j pd t st l (pd_tid t)).
  - intros tid n3 Ho3. rs. cbv iota.
    set (t3 := t <| pd_stopped_start := st |> <| pd_lock := l |> <| pd_tid := tid |>) in *.
    assert (Hr3 : ready j pd t3) by by apply ready_status.
    set (s3 := s2 <| lib := _ |>). wp_step.
    assert (Hnone : wp (mret (0, st, true)) (launched j nth pd must_stop s) s3).
    { wp_step. split_and!; [done|done|done|]. exists n3, t3. split_and!; done. }
    assert (Hst : st = true → owned n0 u c r nth pd t3 (lib s3)).
    { intros E. subst s3. rs. by rewrite E. }
    assert (Herr : ∀ e, e ≠ 0 → st = true →
      wp (e ← err_out pd e; mret (e, st, true)) (launched j nth pd must_stop s) s3).
    { intros e He Est'. rewrite Est'. eapply wp_err_out; try done; [by apply Hst|..];
        subst t3 l; rs; by rewrite ?Est'. }
    eapply (wp_set_affinity nth pd t3).
    { intros E. assert (st = true) by (subst st; fold attr; rewrite E; by destruct must_stop). auto. }
    intros [e|] He; [destruct (He e eq_refl); by apply Herr|]. wp_step.
    eapply (wp_set_scheduler nth pd t3).
    { intros E. assert (st = true) by (subst st; rewrite E; apply orb_true_r). auto. }
    intros [e'|] He'; [destruct (He' e' eq_refl); by apply Herr|]. exact Hnone.
Qed.

Lemma ready_event j pd t ev last :
  ready j pd t → ready j pd (t <| pd_eventbuf := ev |> <| pd_nextevent := last |>).
Proof. by intros []. Qed.

(** Telling the debugger of the new thread. *)
Lemma wp_enqueue_created j nth pd s0 e st ran s :
  launched j nth pd true s0 (e, st, ran) s →
  wp (when (e =? 0)
       (assert st;; t ← lift (load_pd pd); assert (pd_stopped_start t);;
        enqueue_event pd TD_CREATE))
     (λ _ s', launched j nth pd true s0 (e, st, ran) s') s.
Proof.
  intros H. pose proof H as (Em & Ef & Est & n & t & Ho & Hr & Hs & Hl & Hran).
  change (st = true) in Est. subst st.
  destruct (Z.eqb_spec e 0) as [->|He]; [|by wp_step]. destruct ran; [|by destruct Hran].
  cbn in Hran. cbn [when]. do 2 wp_step; [done|]. wp_step.
  eapply (wp_load _ t); [rewrite Hran; apply Ho|]. do 2 wp_step; [done|].
  unfold enqueue_event. wp_step. rewrite <- Hran in Ho. eapply wp_owned_upd; [exact Ho|done|].
  intros n1 Ho1. do 3 wp_step. eapply wp_owned_upd; [exact Ho1|done|]. intros n2 Ho2. wp_step.
  split_and!; [done|done|done|]. eexists n2, _. split_and!; [exact Ho2| |done|done|done].
  by apply ready_event.
Qed.

Lemma wp_start_thread_of j nth pd t s :
  owned n0 u c r nth pd t (lib s) → ready j pd t → pd_lock t = 0 →
  wp (start_thread_of self pd (j_attr j)) (λ res s', ∃ b, launched j nth pd b s res s') s.
Proof.
  intros Ho Hr Hl. unfold start_thread_of, report_thread_creation. do 2 wp_step.
  eapply wp_load; [by eapply owned_self|]. destruct (pd_report_events self_t).
  2:{ wp_step. eapply wp_mono; [by eapply wp_create_thread|]. eauto. }
  wp_step. eapply wp_load; [apply Ho|]. wp_step. destruct (wants_event TD_CREATE t).
  2:{ eapply wp_mono; [by eapply wp_create_thread|]. eauto. }
  wp_step. eapply wp_mono; [by eapply wp_create_thread|]. intros [[e st] ran] s1 H. wp_step.
  eapply wp_mono; [by eapply wp_enqueue_created|]. intros [] s2 H2. wp_step. by exists true.
Qed.

(** ** The ends *)

Hypothesis Hun : munmap_succeeds (K := K).
Hypothesis Hthreads : 0 ≤ nptl_nthreads n0 < 4294967296.
Hypothesis Halive : ∀ pd n, pd ≠ self → is_Some (pds n !! self) → is_Some (pds (run_thread pd n) !! self).

(** The thread was let go in state [n], complete and unlocked, and what follows is
    its doing, but for the flag in the creator's own descriptor. *)
Definition thread_created (j : job) pd s' : Prop :=
  ∃ n t t', owned n0 u c r (w32 (nptl_nthreads n0 + 1)) pd t n ∧ ready j pd t ∧ pd_lock t = 0 ∧
    pds (run_thread pd n) !! self = Some t' ∧
    lib s' = (run_thread pd n) <| pds :=
      <[self := t' <| pd_multiple_threads := 1 |>]> (pds (run_thread pd n)) |>.

(** Everything is as before the call, but perhaps for the stacks in the cache. *)
Definition nothing_created s' : Prop :=
  (∃ c', rep (lib s') (lists u c' r)) ∧ others_kept n0 (lib s') (u ++ r) ∧
  config (lib s') = config n0 ∧ stack_cache_lock (lib s') = 0.

(** The thread ran, could not be set up as asked, and was sent a cancellation. *)
Definition thread_cancelled (j : job) pd s' : Prop :=
  ∃ n t, owned n0 u c r (w32 (nptl_nthreads n0 + 1)) pd t n ∧ ready j pd t ∧
    pd_lock t = 1 ∧ pd_stopped_start t = true ∧ lib s' = cancel_thread pd n.

Definition creation (j : job) pd (e : Z) s' : Prop :=
  if e =? 0 then thread_created j pd s'
  else e ≠ ENOMEM ∧ (nothing_created s' ∨ thread_cancelled j pd s').

Lemma wp_undo_create pd t s :
  owned n0 u c r (w32 (nptl_nthreads n0 + 1)) pd t (lib s) →
  wp (undo_create pd) (λ _ s', nothing_created s' ∧
    sigmask s' = sigmask s ∧ attr_freed s' = attr_freed s) s.
Proof.
  intros Ho. unfold undo_create. apply wp_lift. do 2 wp_step.
  set (n1 := (lib s) <| nptl_nthreads := _ |>).
  assert (Ho1 : owned n0 u c r (nptl_nthreads n0) pd t n1).
  { eapply owned_ext; try done. destruct Ho as [_ _ _ _ Hc]. unfold config in *. subst n1. rs.
    do 2 f_equal. injection Hc as _ _ _ ->. unfold w32. rewrite Zminus_mod_idemp_l.
    replace (nptl_nthreads n0 + 1 - 1) with (nptl_nthreads n0) by lia. by apply Z.mod_small. }
  wp_step. eapply wp_upd_pd; [apply Ho1|].
  assert (Ho2 : owned n0 u c r (nptl_nthreads n0) pd (t <| pd_setxid_futex := 0 |>)
    (n1 <| pds := <[pd := t <| pd_setxid_futex := 0 |>]> (pds n1) |>)) by by eapply owned_upd.
  eapply wp_mono; [eapply wp_deallocate; [exact Hun|apply Ho2..]|].
  intros [] n (Hrep & Hk & Hc & Hl & _). split; [|done]. split; [exact Hrep|]. split_and!; [| |exact Hl].
  - eapply others_trans; [apply Ho2|done].
  - cbn [lib]. rs. rewrite Hc. apply Ho2.
Qed.

Lemma wp_finish_create j pd must_stop s0 e st ran s :
  launched j (w32 (nptl_nthreads n0 + 1)) pd must_stop s0 (e, st, ran) s →
  wp (finish_create self pd e st ran) (λ e' s', creation j pd e' s' ∧
    sigmask s' = sigmask s ∧ attr_freed s' = attr_freed s) s.
Proof.
  intros (_ & _ & _ & n & t & Ho & Hr & Hs & Hl & Hran). unfold finish_create.
  assert (Hcode : ∀ e', e ≠ 0 → e' = (if e =? ENOMEM then EAGAIN else e) →
    (e' =? 0) = false ∧ e' ≠ ENOMEM).
  { intros e' He ->. destruct (Z.eqb_spec e ENOMEM); [done|]. by destruct (Z.eqb_spec e 0). }
  destruct (Z.eqb_spec e 0) as [->|He]; cbn [negb].
  - destruct ran; [|by destruct Hran]. cbn in Hran.
    assert (Hgo : ∀ t1 n1, owned n0 u c r (w32 (nptl_nthreads n0 + 1)) pd t1 n1 → ready j pd t1 →
      pd_lock t1 = 0 → ∀ s1, lib s1 = run_thread pd n1 → sigmask s1 = sigmask s →
      attr_freed s1 = attr_freed s →
      wp (lift (upd_pd self (λ t, t <| pd_multiple_threads := 1 |>));; mret 0)
         (λ e' s', creation j pd e' s' ∧ sigmask s' = sigmask s ∧ attr_freed s' = attr_freed s) s1).
    { intros t1 n1 Ho1 Hr1 Hl1 s1 E1 Em Ef. wp_step. apply wp_lift.
      destruct (Halive pd n1) as [t' Et']; [|by erewrite owned_self|].
      { intros ->. by apply (placed_notin _ _ _ _ _ (own_placed _ _ _ _ _ _ _ _ Ho1)). }
      eapply wp_upd_pd; [by rewrite E1|]. wp_step. split_and!; [|done|done].
      exists n1, t1, t'. split_and!; try done. cbn [lib]. rs. by rewrite E1. }
    wp_step. unfold when. destruct st.
    + apply wp_lift. rewrite Hran. eapply wp_unlock_pd; [apply Ho|].
      apply (Hgo (t <| pd_lock := 0 |>) (n <| pds := <[pd := t <| pd_lock := 0 |>]> (pds n) |>));
        [by eapply owned_upd|by destruct Hr|done..].
    + wp_step. by eapply Hgo.
  - wp_step. destruct ran.
    + assert (st = true ∧ lib s = cancel_thread pd n) as [-> Ec] by
        (destruct (Z.eqb_spec e 0); done).
      wp_step; [done|]. wp_step. destruct (Hcode _ He eq_refl) as [E1 E2]. split_and!; [|done|done].
      unfold creation. rewrite E1. split; [done|]. right. exists n, t. by split_and!.
    + destruct Hran as [_ Hran]. rewrite <- Hran in Ho.
      eapply wp_mono; [by eapply wp_undo_create|]. intros [] s1 (Hn & ? & ?). wp_step.
      destruct (Hcode _ He eq_refl) as [E1 E2]. split_and!; [|done|done].
      unfold creation. rewrite E1. split; [done|]. by left.
Qed.

Lemma wp_create_on pd t iattr routine arg c11 s :
  owned n0 u c r (nptl_nthreads n0) pd t (lib s) → pd_lock t = 0 →
  wp (create_on self pd iattr routine arg c11) (λ e s',
    creation (mkJob routine arg c11 iattr (sigmask s)) pd e s' ∧
    sigmask s' = sigmask s ∧ attr_freed s' = attr_freed s) s.
Proof.
  intros Ho Hl. unfold create_on. wp_step. eapply wp_load; [by eapply owned_self|].
  destruct (init_ready pd iattr routine arg c11 (sigmask s) t) as (Hr & Hg & Hl').
  wp_step. eapply wp_owned_upd; [exact Ho|done|]. intros n1 Ho1.
  wp_step. eapply wp_owned_upd; [exact Ho1|exact Hg|]. intros n2 Ho2.
  wp_step. apply wp_lift. wp_step.
  assert (Ho3 : owned n0 u c r (w32 (nptl_nthreads n0 + 1)) pd
    (user_sched iattr (init_tcb pd self_t iattr routine arg c11 t))
    (n2 <| nptl_nthreads := w32 (nptl_nthreads n2 + 1) |>)).
  { eapply owned_ext; try done. destruct Ho2 as [_ _ _ _ Hc]. unfold config in *. rs. congruence. }
  unfold block_all. do 6 wp_step. cbv beta.
  wp_step. eapply wp_owned_upd; [exact Ho3|done|]. intros n4 Ho4. wp_step.
  eapply wp_mono; [eapply (wp_start_thread_of (mkJob routine arg c11 iattr (sigmask s)));
    [exact Ho4|exact Hr|rs; congruence]|].
  intros [[e st] ran] s5 [b H5]. pose proof H5 as (_ & Ef & _).
  wp_step. unfold restore_set. wp_step.
  eapply wp_mono.
  { apply (wp_finish_create (mkJob routine arg c11 iattr (sigmask s)) pd b
             (s5 <| sigmask := sigmask s |>)).
    destruct H5 as (_ & _ & H5). split; [reflexivity|]. split; [reflexivity|exact H5]. }
  intros e' s6 (Hc & Em6 & Ef6). split_and!; [exact Hc|exact Em6|]. rewrite Ef6. exact Ef.
Qed.
End Proofs.

(** * Properties *)

Section Properties.
Context {K : Type} {PF : Platform} {PL : PlatformLaws} {LA : ListApi} {LL : ListLaws}.
Context {KN : Kernel K} {KL : KernelLaws (K := K)} {EV : Env K} {EL : EnvLaws K}.
Implicit Types (s : process K) (u c r : list ptr).

(** The attributes in force, and the blocks of their copy. *)
Definition attr_used (attr : attr_arg) (n : nptl K) : Z + pthread_attr :=
  match attr with Attr a => inr a | _ => getattr_default n end.
Definition attr_blocks (a : pthread_attr) : list ptr :=
  if has (attr_flags a) ATTR_FLAG_OLDATTR then []
  else match attr_extension a with
       | Some e => filter (λ p, p ≠ 0) [ext_cpuset e; ext_addr e]
       | None => []
       end.

Lemma wp_free_attr p (Q : () → process K → Prop) s :
  Q () (s <| attr_freed := attr_freed s ++ filter (λ p, p ≠ 0) [p] |>) → wp (free p) Q s.
Proof.
  unfold free, process_free. rewrite filter_cons.
  destruct (Z.eqb_spec p 0) as [->|Hp]; cbn [negb when]; intros HQ; wp_go.
  - rewrite app_nil_r in HQ. by destruct s.
  - by rewrite decide_True in HQ.
Qed.

Lemma wp_destroy_attr a (Q : Z → process K → Prop) s :
  Q 0 (s <| attr_freed := attr_freed s ++ attr_blocks a |>) → wp (pthread_attr_destroy a) Q s.
Proof.
  unfold pthread_attr_destroy, attr_blocks. intros HQ. wp_step. revert HQ.
  assert (Hnil : s <| attr_freed := attr_freed s ++ [] |> = s)
    by (rewrite app_nil_r; by destruct s).
  destruct (has _ _); [rewrite Hnil; intros; by do 2 wp_step|].
  destruct (attr_extension a) as [e|]; [|rewrite Hnil; intros; by do 2 wp_step]. intros HQ. wp_step.
  apply wp_free_attr, wp_free_attr. wp_step. cbn [attr_freed].
  change [ext_cpuset e; ext_addr e] with ([ext_cpuset e] ++ [ext_addr e]) in HQ.
  rewrite filter_app, app_assoc in HQ. by destruct s.
Qed.

(** What [pthread_create] promises. *)
Definition create_post u c r self attr iattr routine arg s (res : Z * option ptr) s' : Prop :=
  sigmask s' = sigmask s ∧
  attr_freed s' = attr_freed s ++ (match attr with Attr _ => [] | _ => attr_blocks iattr end) ∧
  let j := mkJob routine arg (match attr with C11Attr => true | _ => false end) iattr (sigmask s) in
  ∃ c', match res with
  | (e, None) => e ≠ 0 ∧ e ≠ ENOMEM ∧ nothing_created (lib s) u r s'
  | (e, Some pd) => creation (lib s) u c' r self j pd e s'
  end.

Lemma wp_create_with u c r self iattr routine arg (c11 : bool) exec_now exec_later s :
  munmap_succeeds (K := K) → rep (lib s) (lists u c r) → stack_cache_lock (lib s) = 0 →
  default_pthread_attr_lock (lib s) = 0 → self ∈ u ++ r →
  0 ≤ nptl_nthreads (lib s) < 4294967296 →
  (∀ pd n, pd ≠ self → is_Some (pds n !! self) → is_Some (pds (run_thread pd n) !! self)) →
  request (lib s) u c r iattr exec_now exec_later →
  wp (create_with self iattr routine arg c11 exec_now exec_later) (λ res s',
    sigmask s' = sigmask s ∧ attr_freed s' = attr_freed s ∧
    let j := mkJob routine arg c11 iattr (sigmask s) in
    ∃ c', match res with
    | (e, None) => e ≠ 0 ∧ e ≠ ENOMEM ∧ nothing_created (lib s) u r s'
    | (e, Some pd) => creation (lib s) u c' r self j pd e s'
    end) s.
Proof.
  intros Hun R Hl Hdl Hself Hth Halive Hreq. unfold create_with. wp_step. apply wp_lift.
  assert (∃ self_t, pds (lib s) !! self = Some self_t) as [self_t Eself].
  { apply elem_of_app in Hself as [H|H];
      [by apply (rep_live _ _ R Used)|by apply (rep_live _ _ R User)]. }
  eapply wp_mono; [by apply (wp_allocate (lib s) u c r)|].
  intros [e|[pd top]] n (Hl' & Hc & Ho & c' & H).
  - wp_step. split_and!; [done|done|]. exists c'. destruct H as [He R'].
    assert (nothing_created (lib s) u r (s <| lib := n |>)) by (split; [by exists c'|done]).
    by destruct (Z.eqb_spec e ENOMEM).
  - destruct H as (t & Et & Hlk & HR). wp_step.
    eapply wp_mono; [eapply (wp_create_on (lib s) u c' r self self_t); try done|].
    + split; try done. destruct HR as [HR|HR]; [left; by exists [], u|right; by exists [], r].
    + intros e s' (Hcr & ? & ?). wp_step. split_and!; [done|done|]. by exists c'.
Qed.

End Properties.

(** * Examples *)

Section Examples.
Import X86 ListH SimThreads.

(** The default attributes: the copy's extension is freed, the thread has come and
    gone, and the mask is the caller's. *)
Example create_default :
  match pthread_create_2_1 demo_self NoAttr 1000 2000 false false demo_process with
  | Done (0, Some pd) s => (sigmask s, attr_freed s, bool_decide (pds (lib s) !! pd = None))
  | _ => (0, [], false)
  end = (5, [7000], true).
Proof. vm_compute. reflexivity. Qed.


(** a defect the code's comment admits (bug 19511): when a joinable thread has
    started and cannot be bound to its processors, the error is returned, and
    although the thread has ended nobody frees its stack: it stays in the list of
    stacks in use for ever, not detached, and no one may join it. *)
Theorem setup_failure_leaks :
  match pthread_create_2_1 demo_self
          (Attr (mkAttr 0 0 0 4096 0 (256 * KiB) (Some (mkExt 7000 7100 8 [1] 0 false))))
          1000 2000 false false demo_process with
  | Done (e, Some pd) s => e = EINVAL ∧
      list_for_each (links (lib s)) stack_used = [list_of pd; list_of demo_self] ∧
      (λ t, (pd_tid t, pd_joinid t)) <$> pds (lib s) !! pd = Some (0, 0) ∧
      nptl_nthreads (lib s) = nptl_nthreads demo
  | _ => False
  end.
Proof. vm_compute. repeat split. Qed.
End Examples.
