(* ===== verification/Unix.v ===== *)
(** A Unix process as the programs that start other programs see it: its table of
    file descriptors, [errno], its children, and the system calls on them.

    A process and the system around it are one state.  What the system decides is
    part of it: [u_io] lists what the coming calls answer when they do not simply
    succeed, [u_sched] which of the running programs go on while a call waits.  A
    process that [execve]s stops with [Replaced], one that [_exit]s with [Exited];
    [fork] runs the child up to that point, since the two share nothing but pipes,
    and a program that was started goes on from there by [u_sched]. *)
From S2P Require Import Prelude ListHead Nptl.
From Stdlib Require Export Ascii.
From stdpp Require Export strings.
#[global] Open Scope Z_scope.
#[global] Open Scope word_scope.

(** C strings, without the terminating zero. *)
Definition str := list ascii.
Definition lit (s : string) : str := String.list_ascii_of_string s.

Definition EACCES := 13.
Definition EBADF := 9.
Definition ECHILD := 10.
Definition ENOEXEC := 8.
Definition ENODEV := 19.
Definition ENOTDIR := 20.
Definition ESTALE := 116.

(** What a descriptor refers to: the null device, an end of a pipe, anything else. *)
Inductive file := NullRead | NullWrite | PipeRead (p : Z) | PipeWrite (p : Z) | Other (n : Z).
#[export] Instance file_eq_dec : EqDecision file.
Proof. solve_decision. Defined.

(** Open files and whether they are closed on [execve]. *)
Abbreviation fdtable := (gmap Z (file * bool)).

(** What a call answers: an error, or no more than a number of bytes. *)
Inductive answer := Err (e : Z) | Count (n : nat).

(** What [execve] is given: the file, the arguments, the environment, the directory,
    the descriptors that stay open and the signals reset to the default action. *)
Record image := mkImage {
  im_file : str; im_argv : list str; im_envp : list str; im_cwd : option str;
  im_fds : gmap Z file; im_default : list Z;
}.

(** A program that runs: its process, its descriptors, what it has still to write,
    and the status it ends with. *)
Record running := mkRunning {
  r_pid : Z; r_fds : gmap Z file; r_todo : list (Z * list Z); r_status : Z;
}.

Record uproc := mkUproc {
  (* the process *)
  u_fds : fdtable;
  u_errno : Z;
  u_cwd : option str;                  (* the directory changed to *)
  u_default : list Z;                  (* signals reset to the default action *)
  u_kids : list Z;                     (* children not waited for *)
  u_status : Z;                        (* of [_exit] *)
  u_exec : option image;               (* the program that replaced it *)
  (* the system *)
  u_io : list answer;
  u_sched : list (list Z);
  u_next : Z;                          (* the next pipe or process *)
  u_pipes : gmap Z (list Z);           (* bytes written and not read *)
  u_running : list running;
  u_zombies : list (Z * Z);            (* processes that ended, and their status *)
  u_out : list (Z * list Z);           (* what was written elsewhere *)
  u_tried : list image;                (* the [execve] calls, oldest first *)
}.
#[export] Instance eta_uproc : Eta uproc := λ s, mkUproc
  (u_fds s) (u_errno s) (u_cwd s) (u_default s) (u_kids s) (u_status s) (u_exec s)
  (u_io s) (u_sched s) (u_next s) (u_pipes s) (u_running s) (u_zombies s) (u_out s)
  (u_tried s).

(** What the system knows: whether a file can be executed, what a program writes on
    which descriptor and the status it ends with, the file [posix_spawnp] finds, the
    environment, the names [/proc/self/fd] lists (read by read), and the limits on
    descriptors. *)
Class System := {
  sys_exec : image → option Z;
  sys_runs : image → list (Z * list Z) * Z;
  sys_spawnp : image → str + Z;
  sys_environ : list str;
  sys_proc_fd : fdtable → list (list str);
  sys_rlim_max : option Z;
  sys_open_max : Z;
}.

(** * Descriptor tables *)

Fixpoint free_from (fuel : nat) (fd : Z) (t : fdtable) : Z :=
  match fuel with
  | O => fd
  | S fuel => match t !! fd with Some _ => free_from fuel (fd + 1) t | None => fd end
  end.
(** The lowest descriptor that is not open. *)
Definition lowest_free (t : fdtable) : Z := free_from (size t) 0 t.

(** What [execve] leaves open. *)
Definition exec_fds (t : fdtable) : gmap Z file :=
  omap (λ v : file * bool, if v.2 then None else Some v.1) t.

(** * Pipes and the programs that run *)

Definition pipe_of (p : Z) (s : uproc) : list Z := default [] (u_pipes s !! p).

(** Bytes written on a file. *)
Definition deliver (f : file) (buf : list Z) (s : uproc) : uproc :=
  match f with
  | PipeWrite p => s <| u_pipes := <[p := pipe_of p s ++ buf]> (u_pipes s) |>
  | Other n => s <| u_out := u_out s ++ [(n, buf)] |>
  | _ => s
  end.

(** A program goes on by one write; with nothing left to write it ends. *)
Definition goes_on (r : running) (s : uproc) : uproc * option running :=
  match r_todo r with
  | [] => (s <| u_zombies := u_zombies s ++ [(r_pid r, r_status r)] |>, None)
  | (fd, buf) :: todo =>
      (match r_fds r !! fd with Some f => deliver f buf s | None => s end,
       Some (mkRunning (r_pid r) (r_fds r) todo (r_status r)))
  end.

Fixpoint step_in (pid : Z) (before rs : list running) (s : uproc) : uproc :=
  match rs with
  | [] => s
  | r :: rs =>
      if r_pid r =? pid then
        let '(s, r') := goes_on r s in
        s <| u_running := before ++ option_list r' ++ rs |>
      else step_in pid (before ++ [r]) rs s
  end.
Definition step_program (pid : Z) (s : uproc) : uproc := step_in pid [] (u_running s) s.
Definition step_programs (pids : list Z) (s : uproc) : uproc := foldl (flip step_program) s pids.

(** Every program to its end. *)
Definition run_out : uproc → uproc := λ s,
  step_programs (mjoin ((λ r, replicate (S (length (r_todo r))) (r_pid r)) <$> u_running s)) s.

Definition holds_write (p : Z) (fds : gmap Z file) : bool :=
  bool_decide (map_Exists (λ _ f, f = PipeWrite p) fds).
Definition has_writer (p : Z) (s : uproc) : bool :=
  bool_decide (map_Exists (λ _ v, v.1 = PipeWrite p) (u_fds s)) ||
  existsb (λ r, holds_write p (r_fds r)) (u_running s).
(** A read would not wait: there are bytes, or nobody is left to write. *)
Definition readable (p : Z) (s : uproc) : bool :=
  negb (bool_decide (pipe_of p s = [])) || negb (has_writer p s).
Definition ended (pid : Z) (s : uproc) : bool :=
  bool_decide (pid ∈ (u_zombies s).*1).

Section Syscalls.
Definition set_uerrno (e : Z) : M uproc () := modify (λ s, s <| u_errno := e |>).

(** The next answer of the system, [None] when it has nothing special to say. *)
Definition next_answer : M uproc (option answer) := λ s,
  match u_io s with
  | [] => Done None s
  | a :: io => Done (Some a) (s <| u_io := io |>)
  end.

(** Wait for a condition while the programs go on; when the schedule says no more
    they all run to their end. *)
Fixpoint await_loop (sched : list (list Z)) (ready : uproc → bool) : M uproc () := λ s,
  if ready s then Done () s else
  match sched with
  | [] => let s := run_out s in if ready s then Done () s else Stop Blocked s
  | pids :: sched => await_loop sched ready ((step_programs pids s) <| u_sched := sched |>)
  end.
Definition await (ready : uproc → bool) : M uproc () := λ s,
  match u_sched s with
  | [] => await_loop [] ready s
  | pids :: sched => await_loop sched ready ((step_programs pids s) <| u_sched := sched |>)
  end.

Definition new_fd (f : file) (cloexec : bool) : M uproc Z :=
  fd ← gets (λ s, lowest_free (u_fds s));
  modify (λ s, s <| u_fds := <[fd := (f, cloexec)]> (u_fds s) |>);;
  mret fd.

Definition close (fd : Z) : M uproc () :=
  modify (λ s, s <| u_fds := delete fd (u_fds s) |>).

(** -1 with [errno], or the descriptor. *)
Definition dup2 (fd1 fd2 : Z) : M uproc Z :=
  a ← next_answer;
  match a with
  | Some (Err e) => set_uerrno e;; mret (-1)
  | _ =>
      t ← gets u_fds;
      match t !! fd1 with
      | None => set_uerrno EBADF;; mret (-1)
      | Some (f, _) =>
          when (negb (fd1 =? fd2))
            (modify (λ s, s <| u_fds := <[fd2 := (f, false)]> (u_fds s) |>));;
          mret fd2
      end
  end.

(** [open], for a file that is there. *)
Definition open_file (f : file) (cloexec : bool) : M uproc Z :=
  a ← next_answer;
  match a with
  | Some (Err e) => set_uerrno e;; mret (-1)
  | _ => new_fd f cloexec
  end.

(** The two ends of a new pipe, or [None] with [errno]. *)
Definition pipe2 (cloexec : bool) : M uproc (option (Z * Z)) :=
  a ← next_answer;
  match a with
  | Some (Err e) => set_uerrno e;; mret None
  | _ =>
      p ← gets u_next;
      modify (λ s, s <| u_next := p + 1 |> <| u_pipes := <[p := []]> (u_pipes s) |>);;
      r ← new_fd (PipeRead p) cloexec;
      w ← new_fd (PipeWrite p) cloexec;
      mret (Some (r, w))
  end.

(** [fcntl (fd, F_SETFD, FD_CLOEXEC)]; its result is not used. *)
Definition fcntl_cloexec (fd : Z) : M uproc () :=
  t ← gets u_fds;
  match t !! fd with
  | None => set_uerrno EBADF
  | Some (f, _) => modify (λ s, s <| u_fds := <[fd := (f, true)]> (u_fds s) |>)
  end.

(** A write that may be cut short; -1 with [errno], or the number of bytes.  Pipes
    block: a write on one fails only when it is interrupted. *)
Definition write (fd : Z) (buf : list Z) : M uproc Z :=
  a ← next_answer;
  t ← gets u_fds;
  match t !! fd with
  | None => set_uerrno EBADF;; mret (-1)
  | Some (f, _) =>
      let fails := match a, f with
                   | Some (Err e), PipeWrite _ => if e =? EINTR then Some e else None
                   | Some (Err e), _ => Some e
                   | _, _ => None
                   end in
      match fails with
      | Some e => set_uerrno e;; mret (-1)
      | None =>
          let n := match a with Some (Count n) => n `min` length buf | _ => length buf end%nat in
          modify (deliver f (take n buf));;
          mret (Z.of_nat n)
      end
  end.

(** Up to [n] bytes, none at the end; [None] with [errno].  Only pipes are read;
    anything else is at its end. *)
Definition read (fd : Z) (n : nat) : M uproc (option (list Z)) :=
  a ← next_answer;
  t ← gets u_fds;
  match t !! fd with
  | None => set_uerrno EBADF;; mret None
  | Some (f, _) =>
      match a, f with
      | Some (Err e), _ => set_uerrno e;; mret None
      | _, PipeRead p =>
          if bool_decide (n = 0%nat) then mret (Some []) else
          await (readable p);;
          buf ← gets (pipe_of p);
          let k := match a with Some (Count c) => 1 `max` (c `min` n) | _ => n end%nat in
          modify (λ s, s <| u_pipes := <[p := drop k buf]> (u_pipes s) |>);;
          mret (Some (take k buf))
      | _, _ => mret (Some [])
      end
  end.

Definition fd_readable (fd : Z) (s : uproc) : bool :=
  match u_fds s !! fd with Some (PipeRead p, _) => readable p s | _ => true end.
(** [select], for reading, with no time limit: the descriptors that are ready, or
    [None] with [errno]. *)
Definition select (fds : list Z) : M uproc (option (list Z)) :=
  a ← next_answer;
  match a with
  | Some (Err e) => set_uerrno e;; mret None
  | _ =>
      await (λ s, existsb (λ fd, fd_readable fd s) fds);;
      ready ← gets (λ s, List.filter (λ fd, fd_readable fd s) fds);
      mret (Some ready)
  end.

Definition chdir (dir : str) : M uproc Z :=
  a ← next_answer;
  match a with
  | Some (Err e) => set_uerrno e;; mret (-1)
  | _ => modify (λ s, s <| u_cwd := Some dir |>);; mret 0
  end.

(** [signal (sig, SIG_DFL)]. *)
Definition signal_default (sig : Z) : M uproc () :=
  modify (λ s, s <| u_default := sig :: u_default s |>).

Definition _exit {A} (code : Z) : M uproc A :=
  modify (λ s, s <| u_status := code * 256 |>);; stop_with Exited.

(** -1 with [errno], or the process, and its status. *)
Definition waitpid (pid : Z) : M uproc (Z * Z) :=
  a ← next_answer;
  match a with
  | Some (Err e) => set_uerrno e;; mret (-1, 0)
  | _ =>
      kids ← gets u_kids;
      if bool_decide (pid ∈ kids) then
        await (ended pid);;
        zs ← gets u_zombies;
        modify (λ s, s <| u_zombies := List.filter (λ z, negb (z.1 =? pid)) zs |>
                       <| u_kids := List.filter (λ k, negb (k =? pid)) kids |>);;
        mret (pid, default 0 (snd <$> List.find (λ z, z.1 =? pid) zs))
      else set_uerrno ECHILD;; mret (-1, 0)
  end.

Context `{!System}.

(** It returns only when it fails; the new program starts with an [errno] of its own. *)
Definition execve (file : str) (argv envp : list str) : M uproc () :=
  im ← gets (λ s, mkImage file argv envp (u_cwd s) (exec_fds (u_fds s)) (u_default s));
  modify (λ s, s <| u_tried := u_tried s ++ [im] |>);;
  match sys_exec im with
  | None => modify (λ s, s <| u_exec := Some im |> <| u_errno := 0 |>);; stop_with Replaced
  | Some e => set_uerrno e
  end.

(** The status of a process that stopped for another reason than [_exit]. *)
Definition stop_status (w : stop) (s : uproc) : Z :=
  match w with Exited => u_status s | Fault => 11 | _ => 6 end.

(** The parent goes on with its own descriptors, and the system as the child left
    it. *)
Definition parent_of (s c : uproc) : uproc :=
  c <| u_fds := u_fds s |> <| u_errno := u_errno s |> <| u_cwd := u_cwd s |>
    <| u_default := u_default s |> <| u_kids := u_kids s |> <| u_status := u_status s |>
    <| u_exec := u_exec s |>.
Definition born (s : uproc) (pid : Z) (w : stop) (c : uproc) : uproc :=
  let s' := (parent_of s c) <| u_kids := pid :: u_kids s |> in
  match w, u_exec c with
  | Replaced, Some im =>
      let '(todo, status) := sys_runs im in
      s' <| u_running := u_running c ++ [mkRunning pid (im_fds im) todo status] |>
  | _, _ => s' <| u_zombies := u_zombies c ++ [(pid, stop_status w c)] |>
  end.

(** The child never comes back from what it runs. *)
Definition fork_child (pid : Z) (child : M uproc ()) : M uproc Z := λ s,
  match child (s <| u_next := pid + 1 |> <| u_kids := [] |> <| u_exec := None |>) with
  | Stop w c => Done pid (born s pid w c)
  | Done _ c => Stop Fault c
  end.
(** -1 with [errno], or the child's process. *)
Definition fork (child : M uproc ()) : M uproc Z :=
  a ← next_answer;
  match a with
  | Some (Err e) => set_uerrno e;; mret (-1)
  | _ => pid ← gets u_next; fork_child pid child
  end.

(** ** [posix_spawn] *)

Inductive file_action := ADup2 (fd1 fd2 : Z) | AClose (fd : Z).

(** What the child does with its descriptors; [None] is a descriptor that is not
    open. *)
Definition perform (t : fdtable) (a : file_action) : option fdtable :=
  match a with
  | ADup2 fd1 fd2 => (λ v : file * bool, <[fd2 := (v.1, false)]> t) <$> t !! fd1
  | AClose fd => Some (delete fd t)
  end.
Fixpoint perform_all (t : fdtable) (acts : list file_action) : option fdtable :=
  match acts with
  | [] => Some t
  | a :: acts => t' ← perform t a; perform_all t' acts
  end.

(** A library function that answers 0 or an error. *)
Definition libc_call : M uproc Z :=
  a ← next_answer;
  mret (match a with Some (Err e) => e | _ => 0 end).

(** [posix_spawn], or [posix_spawnp] with [search]: 0 and the new process, or an
    error and no process. *)
Definition posix_spawn (search : bool) (file : str) (acts : list file_action) (sigdefault : list Z)
    (argv envp : list str) : M uproc (Z * Z) :=
  r ← libc_call;
  if negb (r =? 0) then mret (r, 0) else
  t ← gets u_fds;
  match perform_all t acts with
  | None => mret (EBADF, 0)
  | Some t =>
      im ← gets (λ s, mkImage file argv envp (u_cwd s) (exec_fds t) (sigdefault ++ u_default s));
      match (if search then sys_spawnp im else inl file) with
      | inr e => mret (e, 0)
      | inl file =>
          let im := mkImage file argv envp (im_cwd im) (im_fds im) (im_default im) in
          match sys_exec im with
          | Some e => mret (e, 0)
          | None =>
              pid ← gets u_next;
              modify (λ s, s <| u_next := pid + 1 |> <| u_kids := pid :: u_kids s |>
                <| u_running := u_running s ++
                     [mkRunning pid (im_fds im) (sys_runs im).1 (sys_runs im).2] |>);;
              mret (0, pid)
          end
      end
  end.
End Syscalls.

(** [retry: r = call; if (failed && errno == EINTR) goto retry;]  Every interrupted
    call has taken an answer. *)
Section Retry.
Context {A : Type} (failed : A → bool) (call : M uproc A).

Fixpoint retry_loop (fuel : nat) : M uproc A :=
  match fuel with
  | O => stop_with Blocked
  | S fuel =>
      r ← call;
      e ← gets u_errno;
      if failed r && (e =? EINTR) then retry_loop fuel else mret r
  end.
Definition retry : M uproc A := n ← gets (λ s, length (u_io s)); retry_loop (S n).
End Retry.

(** * Lemmas *)

Lemma free_from_spec fuel fd t :
  fd ≤ free_from fuel fd t ≤ fd + Z.of_nat fuel ∧
  (∀ x, fd ≤ x < free_from fuel fd t → is_Some (t !! x)) ∧
  (t !! free_from fuel fd t = None ∨ free_from fuel fd t = fd + Z.of_nat fuel).
Proof.
  revert fd. induction fuel as [|fuel IH]; intros fd; cbn [free_from].
  { split_and!; [lia..| |by right; lia]. intros x Hx. lia. }
  destruct (t !! fd) eqn:E; [|split_and!; [lia..| |by left]; intros x Hx; lia].
  destruct (IH (fd + 1)) as (H1 & H2 & H3). split_and!; [lia..| |destruct H3; [by left|right; lia]].
  intros x Hx. destruct (decide (x = fd)) as [->|]; [eauto|]. apply H2. lia.
Qed.

(** A run of open descriptors is no longer than the table. *)
Lemma run_size (t : fdtable) n fd :
  (∀ x, fd ≤ x < fd + Z.of_nat n → is_Some (t !! x)) → (n ≤ size t)%nat.
Proof.
  revert t fd. induction n as [|n IH]; intros t fd H; [lia|].
  destruct (H fd ltac:(lia)) as [v Hv].
  assert (Hn : (n ≤ size (delete fd t))%nat).
  { apply (IH _ (fd + 1)). intros x Hx. rewrite lookup_delete_ne by lia. apply H. lia. }
  rewrite map_size_delete_Some in Hn by eauto.
  assert (size t ≠ 0%nat); [|lia]. intros E%map_size_empty_inv. subst. by rewrite lookup_empty in Hv.
Qed.

Lemma lowest_free_spec t :
  0 ≤ lowest_free t ∧ t !! lowest_free t = None ∧ ∀ x, 0 ≤ x < lowest_free t → is_Some (t !! x).
Proof.
  unfold lowest_free. destruct (free_from_spec (size t) 0 t) as (H1 & H2 & [H3|H3]);
    (split_and!; [lia| |done]); [done|].
  destruct (t !! free_from (size t) 0 t) eqn:E; [|done]. exfalso.
  assert (Hn : (S (size t) ≤ size t)%nat); [|lia].
  apply (run_size t (S (size t)) 0). intros x Hx.
  destruct (decide (x = free_from (size t) 0 t)) as [->|]; [eauto|]. apply H2. lia.
Qed.

Lemma exec_fds_lookup t fd : exec_fds t !! fd =
  match t !! fd with Some (f, false) => Some f | _ => None end.
Proof. unfold exec_fds. rewrite lookup_omap. by destruct (t !! fd) as [[f []]|]. Qed.

Lemma wp_new_fd f b (Q : Z → uproc → Prop) s :
  (∀ fd, fd = lowest_free (u_fds s) → Q fd (s <| u_fds := <[fd := (f, b)]> (u_fds s) |>)) →
  wp (new_fd f b) Q s.
Proof. intros HQ. unfold new_fd. wp_go. by apply HQ. Qed.

Lemma wp_next_answer (Q : option answer → uproc → Prop) s :
  (u_io s = [] → Q None s) →
  (∀ a io, u_io s = a :: io → Q (Some a) (s <| u_io := io |>)) →
  wp next_answer Q s.
Proof. unfold wp, next_answer. destruct (u_io s) as [|a io]; auto. Qed.

(** * The system goes on

    [later P s s']: between two states of a process the programs went on, the system
    took decisions, [errno] and the record of [execve]s changed, and the process itself
    used the pipes in [P]. *)

Inductive moves (P : Z → Prop) (s : uproc) : uproc → Prop :=
  | moves_program pid : moves P s (step_program pid s)
  | moves_sched v : moves P s (s <| u_sched := v |>)
  | moves_io v : v `suffix_of` u_io s → moves P s (s <| u_io := v |>)
  | moves_errno e : moves P s (s <| u_errno := e |>)
  | moves_tried v : moves P s (s <| u_tried := v |>)
  | moves_next n : u_next s ≤ n → moves P s (s <| u_next := n |>)
  | moves_pipe p v : P p → moves P s (s <| u_pipes := <[p := v]> (u_pipes s) |>).
Definition later (P : Z → Prop) : uproc → uproc → Prop := rtc (moves P).
Definition nothing : Z → Prop := λ _, False.

#[export] Instance later_preorder P : PreOrder (later P).
Proof. apply _. Qed.

Lemma later_one P s s1 s2 : moves P s1 s2 → later P s s1 → later P s s2.
Proof. intros H1 H2. by eapply rtc_r. Qed.
Create HintDb later.
#[export] Hint Resolve later_one : later.
#[export] Hint Constructors moves : later.
Lemma later_refl P s : later P s s.
Proof. done. Qed.
#[export] Hint Resolve later_refl : later.

Lemma later_weaken (P Q : Z → Prop) s s' : (∀ p, P p → Q p) → later P s s' → later Q s s'.
Proof.
  intros HPQ. induction 1 as [|s1 s2 s3 H _ IH]; [done|]. etrans; [|done].
  destruct H; eapply later_one; eauto with later.
Qed.

Lemma later_any P s s' : later nothing s s' → later P s s'.
Proof. by apply later_weaken. Qed.
#[export] Hint Resolve later_any : later.

(** What the process has to itself does not change. *)
Definition own (s : uproc) :=
  (u_fds s, u_cwd s, u_default s, u_kids s, u_status s, u_exec s).

Lemma deliver_own f buf s : own (deliver f buf s) = own s.
Proof. by destruct f. Qed.

Lemma goes_on_own r s : own (goes_on r s).1 = own s.
Proof.
  unfold goes_on. destruct (r_todo r) as [|[fd buf] todo]; [done|]. cbn [fst].
  destruct (r_fds r !! fd); [apply deliver_own|done].
Qed.

Lemma step_own pid s : own (step_program pid s) = own s.
Proof.
  unfold step_program. generalize (@nil running). induction (u_running s) as [|r rs IH]; intros b; [done|].
  cbn [step_in]. destruct (r_pid r =? pid); [|apply IH].
  pose proof (goes_on_own r s). by destruct (goes_on r s).
Qed.

Lemma later_own P s s' : later P s s' → own s' = own s.
Proof. induction 1 as [|s1 s2 s3 H _ IH]; [done|]. rewrite IH. destruct H; [apply step_own|done..]. Qed.

Lemma later_fds P s s' : later P s s' → u_fds s' = u_fds s.
Proof. intros H. pose proof (later_own _ _ _ H). unfold own in *. congruence. Qed.
Lemma later_kids P s s' : later P s s' → u_kids s' = u_kids s.
Proof. intros H. pose proof (later_own _ _ _ H). unfold own in *. congruence. Qed.

Lemma step_next pid s : u_next (step_program pid s) = u_next s.
Proof.
  unfold step_program. generalize (@nil running). induction (u_running s) as [|r rs IH]; intros b; [done|].
  cbn [step_in]. destruct (r_pid r =? pid); [|apply IH]. unfold goes_on.
  destruct (r_todo r) as [|[fd buf] todo]; [done|]. by destruct (r_fds r !! fd) as [[]|].
Qed.
Lemma later_next P s s' : later P s s' → u_next s ≤ u_next s'.
Proof.
  induction 1 as [|s1 s2 s3 H _ IH]; [done|]. etrans; [|exact IH].
  destruct H; try done. by rewrite step_next.
Qed.

(** ** One program goes on *)

Lemma step_spec pid s :
  step_program pid s = s ∨
  ∃ pre r post, u_running s = pre ++ r :: post ∧ r_pid r = pid ∧
    step_program pid s = (goes_on r s).1 <| u_running := pre ++ option_list (goes_on r s).2 ++ post |>.
Proof.
  unfold step_program. enough (H : ∀ before rs, u_running s = before ++ rs →
    step_in pid before rs s = s ∨ ∃ pre r post, u_running s = pre ++ r :: post ∧ r_pid r = pid ∧
      step_in pid before rs s =
        (goes_on r s).1 <| u_running := pre ++ option_list (goes_on r s).2 ++ post |>) by by apply H.
  intros before rs. revert before. induction rs as [|r rs IH]; intros before E; [by left|].
  cbn [step_in]. destruct (Z.eqb_spec (r_pid r) pid) as [Hr|Hr].
  - right. exists before, r, rs. split_and!; [done..|]. by destruct (goes_on r s).
  - apply IH. by rewrite <- app_assoc.
Qed.

Lemma goes_on_same r s r' : (goes_on r s).2 = Some r' → r_pid r' = r_pid r ∧ r_fds r' = r_fds r.
Proof. unfold goes_on. destruct (r_todo r) as [|[fd buf] todo]; [done|]. by intros [= <-]. Qed.

(** No program has the writing end of a pipe. *)
Definition unheld (p : Z) (s : uproc) : Prop :=
  ∀ r fd, r ∈ u_running s → r_fds r !! fd ≠ Some (PipeWrite p).

Lemma step_running pid s r :
  r ∈ u_running (step_program pid s) →
  ∃ r0, r0 ∈ u_running s ∧ r_pid r = r_pid r0 ∧ r_fds r = r_fds r0.
Proof.
  destruct (step_spec pid s) as [->|(pre & r0 & post & E & _ & ->)]; [by eauto|]. rs.
  rewrite E. rewrite !elem_of_app. intros [Hr|[Hr|Hr]].
  - exists r. split; [set_solver|done].
  - destruct ((goes_on r0 s).2) as [r1|] eqn:E1; [|by apply elem_of_nil in Hr].
    apply list_elem_of_singleton in Hr as ->. exists r0. split; [set_solver|by apply goes_on_same in E1].
  - exists r. split; [set_solver|done].
Qed.

Lemma later_running P s s' r :
  later P s s' → r ∈ u_running s' →
  ∃ r0, r0 ∈ u_running s ∧ r_pid r = r_pid r0 ∧ r_fds r = r_fds r0.
Proof.
  intros H. revert r. induction H as [|s1 s2 s3 H _ IH]; intros r Hr; [eauto|].
  destruct (IH r Hr) as (r1 & H1 & E1 & E2).
  assert (∃ r0, r0 ∈ u_running s1 ∧ r_pid r1 = r_pid r0 ∧ r_fds r1 = r_fds r0) as (r0 & ? & ? & ?).
  { destruct H; [by eapply step_running|by eauto..]. }
  exists r0. split_and!; congruence || done.
Qed.

Lemma later_unheld P p s s' : later P s s' → unheld p s → unheld p s'.
Proof.
  intros H Hu r fd Hr. destruct (later_running _ _ _ _ H Hr) as (r0 & H0 & _ & E).
  rewrite E. by apply Hu.
Qed.

Lemma pipe_of_deliver p f buf s :
  pipe_of p (deliver f buf s) = pipe_of p s ++ (if bool_decide (f = PipeWrite p) then buf else []).
Proof.
  case_bool_decide as E; [subst f|]; unfold pipe_of; cbn [deliver]; rs.
  - by rewrite lookup_insert_eq.
  - rewrite app_nil_r. destruct f as [| | |q|]; try done. cbn [deliver]. rs.
    rewrite lookup_insert_ne by congruence. done.
Qed.

(** What a program has still to write on a pipe; what a pipe will have carried. *)
Definition writes_to (p : Z) (r : running) : list Z :=
  mjoin ((λ w : Z * list Z, if bool_decide (r_fds r !! w.1 = Some (PipeWrite p)) then w.2 else [])
    <$> r_todo r).
Definition pending (p : Z) (rs : list running) : list Z := mjoin (writes_to p <$> rs).
Definition total (p : Z) (s : uproc) : list Z := pipe_of p s ++ pending p (u_running s).

(** At most one program has the writing end. *)
Definition holder (p : Z) (r : running) : Prop := map_Exists (λ _ f, f = PipeWrite p) (r_fds r).
Definition sole (p : Z) (s : uproc) : Prop := (length (filter (holder p) (u_running s)) ≤ 1)%nat.

Lemma writes_not_holder p r : ¬ holder p r → writes_to p r = [].
Proof.
  intros H. unfold writes_to. induction (r_todo r) as [|[fd buf] todo IH]; [done|]. cbn.
  rewrite bool_decide_false; [apply IH|]. intros E. apply H. by exists fd, (PipeWrite p).
Qed.

Lemma pending_none p rs : filter (holder p) rs = [] → pending p rs = [].
Proof.
  induction rs as [|r rs IH]; [done|]. rewrite filter_cons. case_decide as Hd; [done|].
  intros E. unfold pending. cbn. rewrite writes_not_holder by done. by apply IH.
Qed.

Lemma pending_app p rs1 rs2 : pending p (rs1 ++ rs2) = pending p rs1 ++ pending p rs2.
Proof. unfold pending. by rewrite fmap_app, join_app. Qed.

Lemma unheld_none p s : unheld p s ↔ filter (holder p) (u_running s) = [].
Proof.
  split.
  - intros Hu. destruct (filter (holder p) (u_running s)) as [|r rs] eqn:E; [done|].
    assert (Hin : r ∈ filter (holder p) (u_running s)) by (rewrite E; set_solver).
    apply list_elem_of_filter in Hin as [(fd & f & Hf & ->) Hr]. by destruct (Hu r fd Hr).
  - intros E r fd Hr Hf.
    assert (Hin : r ∈ filter (holder p) (u_running s)).
    { apply list_elem_of_filter. split; [|done]. by exists fd, (PipeWrite p). }
    rewrite E in Hin. by apply elem_of_nil in Hin.
Qed.

Lemma unheld_sole p s : unheld p s → sole p s.
Proof. intros H%unheld_none. unfold sole. rewrite H. cbn. lia. Qed.

Lemma unheld_total p s : unheld p s → total p s = pipe_of p s.
Proof. intros H%unheld_none. unfold total. rewrite pending_none by done. apply app_nil_r. Qed.

(** A step moves bytes from what a program has to write to the pipe. *)
Lemma goes_on_total p r s :
  pipe_of p (goes_on r s).1 ++ pending p (option_list (goes_on r s).2) = pipe_of p s ++ writes_to p r.
Proof.
  unfold goes_on, writes_to. destruct (r_todo r) as [|[fd buf] todo] eqn:E; [done|]. cbn [fst snd].
  change (pending p (option_list (Some ?x))) with (writes_to p x ++ []).
  rewrite app_nil_r, fmap_cons. unfold writes_to. cbn [r_todo r_fds mjoin list_join fst snd].
  destruct (r_fds r !! fd) as [f|] eqn:Ef.
  - rewrite pipe_of_deliver, <- app_assoc. f_equal. f_equal. do 2 case_bool_decide; congruence.
  - rewrite bool_decide_false by done. done.
Qed.

Lemma goes_on_filter p r s :
  (length (filter (holder p) (option_list (goes_on r s).2)) ≤ length (filter (holder p) [r]))%nat.
Proof.
  destruct ((goes_on r s).2) as [r'|] eqn:E; [|cbn; lia]. apply goes_on_same in E as [_ E].
  change (option_list (Some r')) with [r']. rewrite !filter_cons, !filter_nil.
  assert (holder p r' ↔ holder p r) by (unfold holder; by rewrite E).
  do 2 case_decide; tauto || (cbn; lia).
Qed.

Lemma step_sole pid p s : sole p s → sole p (step_program pid s).
Proof.
  unfold sole. destruct (step_spec pid s) as [->|(pre & r & post & E & _ & ->)]; [done|]. rs.
  rewrite E, !filter_app, filter_cons, !length_app. pose proof (goes_on_filter p r s) as Hf.
  rewrite filter_cons in Hf. case_decide; cbn [length filter list_filter] in *; lia.
Qed.

Lemma step_total pid p s : sole p s → total p (step_program pid s) = total p s.
Proof.
  unfold sole, total. destruct (step_spec pid s) as [->|(pre & r & post & E & _ & ->)]; [done|]. rs.
  change (pipe_of p (?x <| u_running := ?y |>)) with (pipe_of p x).
  rewrite E, filter_app, filter_cons, length_app, !pending_app. intros Hs.
  pose proof (goes_on_total p r s) as Ht.
  change (pending p (r :: post)) with (writes_to p r ++ pending p post).
  destruct (decide (holder p r)) as [Hr|Hr]; cbn [length] in Hs.
  - rewrite (pending_none p pre) by (apply length_zero_iff_nil; lia).
    cbn [app]. by rewrite !app_assoc, Ht.
  - rewrite writes_not_holder, app_nil_r in Ht by done. rewrite writes_not_holder by done.
    cbn [app].
    assert (Hn : pending p (option_list (goes_on r s).2) = []).
    { destruct ((goes_on r s).2) as [r'|] eqn:Er; [|done]. apply goes_on_same in Er as [_ Er].
      change (pending p (option_list (Some r'))) with (writes_to p r' ++ []).
      rewrite writes_not_holder; [done|]. unfold holder. by rewrite Er. }
    rewrite Hn in *. rewrite app_nil_r in Ht. by rewrite Ht.
Qed.

Lemma later_sole P p s s' : later P s s' → sole p s → sole p s'.
Proof. induction 1 as [|s1 s2 s3 H _ IH]; [done|]. intros Hs. apply IH. destruct H; [by apply step_sole|done..]. Qed.

Lemma later_total P p s s' : later P s s' → ¬ P p → sole p s → total p s' = total p s.
Proof.
  intros Hl HP. induction Hl as [|s1 s2 s3 H Hl IH]; intros Hu; [done|].
  rewrite IH by (apply (later_sole P p s1); [by apply rtc_once|done]).
  destruct H as [pid|v|v|e|v|n|q k Hq]; [by apply step_total|done..|].
  unfold total, pipe_of. rs. by rewrite lookup_insert_ne by congruence.
Qed.

Lemma step_io pid s : u_io (step_program pid s) = u_io s.
Proof.
  destruct (step_spec pid s) as [->|(pre & r & post & _ & _ & ->)]; [done|]. rs.
  unfold goes_on. destruct (r_todo r) as [|[fd buf] todo]; [done|]. cbn [fst].
  destruct (r_fds r !! fd) as [[]|]; done.
Qed.

Lemma later_io P s s' : later P s s' → u_io s' `suffix_of` u_io s.
Proof.
  induction 1 as [|s1 s2 s3 H _ IH]; [done|]. etrans; [exact IH|].
  destruct H; try done. by rewrite step_io.
Qed.

(** ** Every program to its end *)

Lemma run_one r rs s :
  u_running s = r :: rs →
  u_running (step_programs (replicate (S (length (r_todo r))) (r_pid r)) s) = rs.
Proof.
  revert s. destruct r as [pid fds todo st]. cbn [r_todo r_pid]. revert fds.
  induction todo as [|[fd buf] todo IH]; intros fds s E; cbn [length replicate step_programs foldl flip].
  - unfold step_program. rewrite E. cbn [step_in r_pid]. by rewrite Z.eqb_refl.
  - apply (IH fds). unfold step_program. rewrite E. cbn [step_in r_pid]. by rewrite Z.eqb_refl.
Qed.

Lemma run_out_none s : u_running (run_out s) = [].
Proof.
  unfold run_out. remember (u_running s) as rs eqn:E. revert s E.
  induction rs as [|r rs IH]; intros s E; [done|]. cbn [fmap list_fmap mjoin list_join].
  unfold step_programs. rewrite foldl_app. apply IH. symmetry. by apply run_one.
Qed.

Lemma later_steps P s pids s1 : later P s s1 → later P s (step_programs pids s1).
Proof.
  revert s1. induction pids as [|pid pids IH]; intros s1 H; [done|]. apply IH.
  eapply later_one; [|done]. apply moves_program.
Qed.

(** Waiting ends when the condition holds at the latest when no program is left. *)
Lemma wp_await P (ready : uproc → bool) (Q : () → uproc → Prop) s :
  (∀ s', later P s s' → u_running s' = [] → ready s' = true) →
  (∀ s', later P s s' → ready s' = true → Q () s') →
  wp (await ready) Q s.
Proof.
  intros Hr HQ.
  assert (H : ∀ sched s1, later P s s1 → wp (await_loop sched ready) Q s1).
  { induction sched as [|pids sched IH]; intros s1 H1; unfold wp; cbn [await_loop];
      (destruct (ready s1) eqn:E1; [by apply HQ|]).
    - assert (later P s (run_out s1)) by by apply later_steps.
      pose proof (Hr _ H (run_out_none s1)) as E. rewrite E. by apply HQ.
    - apply IH. eapply later_one; [apply moves_sched|]. by apply later_steps. }
  unfold wp, await. destruct (u_sched s) as [|pids sched]; apply H; [done|].
  eapply later_one; [apply moves_sched|]. by apply later_steps.
Qed.

(** * The calls *)

(** The process itself has no writing end of a pipe. *)
Definition unwritten (p : Z) (s : uproc) : Prop :=
  ∀ fd v, u_fds s !! fd = Some v → v.1 ≠ PipeWrite p.

Lemma has_writer_none p s : unwritten p s → unheld p s → has_writer p s = false.
Proof.
  intros Ho Hu. unfold has_writer. apply orb_false_iff. split.
  - apply bool_decide_eq_false. intros (fd & v & Hv & E). by apply (Ho fd v).
  - apply not_true_iff_false. rewrite existsb_exists. intros (r & Hr & Hh).
    apply bool_decide_eq_true in Hh as (fd & f & Hf & ->). apply list_elem_of_In in Hr.
    by apply (Hu r fd).
Qed.

Lemma readable_spec p s :
  readable p s = true → pipe_of p s ≠ [] ∨ (pipe_of p s = [] ∧ unheld p s).
Proof.
  unfold readable, has_writer. case_bool_decide as E; [|by left]. cbn.
  intros H%negb_true_iff%orb_false_iff. right. split; [done|]. intros r fd Hr Hf.
  destruct H as [_ H]. apply not_true_iff_false in H. apply H, existsb_exists. exists r.
  split; [by apply list_elem_of_In|]. apply bool_decide_eq_true. by exists fd, (PipeWrite p).
Qed.

Lemma later_unwritten P p s s' : later P s s' → unwritten p s → unwritten p s'.
Proof. intros H Hu. unfold unwritten. by rewrite (later_fds _ _ _ H). Qed.

(** A call that fails takes the answer. *)
Definition less_io (s s' : uproc) : Prop := (length (u_io s') < length (u_io s))%nat.
Definition refused (e : Z) (s s' : uproc) : Prop := less_io s s' ∧ Err e ∈ u_io s.

(** Nothing goes wrong: calls are at most interrupted or cut short. *)
Definition calm (s : uproc) : Prop := ∀ e, Err e ∈ u_io s → e = EINTR.

Lemma later_answers P s s' a : later P s s' → a ∈ u_io s' → a ∈ u_io s.
Proof. intros H%later_io Ha. destruct H as [l E]. rewrite E. set_solver. Qed.

Lemma later_calm P s s' : later P s s' → calm s → calm s'.
Proof. intros H Hc e He. by eapply Hc, later_answers. Qed.

Lemma less_refused P e s s1 s2 : later P s s1 → refused e s1 s2 → refused e s s2.
Proof.
  intros H [Hl He]. split; [|by eapply later_answers].
  pose proof (suffix_length _ _ (later_io _ _ _ H)). unfold less_io in *. lia.
Qed.

Lemma wp_answer (Q : option answer → uproc → Prop) s :
  (∀ a s', later nothing s s' → (∀ e, a = Some (Err e) → refused e s s') → Q a s') →
  wp next_answer Q s.
Proof.
  intros HQ. apply wp_next_answer; [by intros; apply HQ|]. intros a io E. apply HQ.
  - apply rtc_once. apply moves_io. rewrite E. by exists [a].
  - intros e [= ->]. unfold refused, less_io. rs. rewrite E. cbn. split; [lia|set_solver].
Qed.

Lemma wp_failed {A} (r : A) e s1 s (Q : A → uproc → Prop) :
  later nothing s s1 → refused e s s1 →
  (∀ s', later nothing s s' → refused e s s' → u_errno s' = e → Q r s') →
  wp (set_uerrno e;; mret r) Q s1.
Proof.
  intros Hl Hi HQ. unfold set_uerrno. wp_go. apply HQ; [|done..].
  eapply later_one; [apply moves_errno|done].
Qed.

(** What a read gives, in terms of all that the pipe will have carried. *)
Definition read_post (p : Z) (n : nat) (s : uproc) (r : option (list Z)) (s' : uproc) : Prop :=
  match r with
  | None => later nothing s s' ∧ refused (u_errno s') s s'
  | Some buf =>
      later (eq p) s s' ∧ (length buf ≤ n)%nat ∧
      (sole p s → total p s = buf ++ total p s') ∧
      (n ≠ 0%nat → buf = [] → total p s' = [] ∧ unheld p s')
  end.

Lemma unwritten_readable p s : unwritten p s → u_running s = [] → readable p s = true.
Proof.
  intros Ho E. unfold readable. rewrite has_writer_none; [apply orb_true_r|done|].
  intros r fd. rewrite E. by intros ?%elem_of_nil.
Qed.

Lemma take_total p k s :
  total p s = take k (pipe_of p s) ++
    total p (s <| u_pipes := <[p := drop k (pipe_of p s)]> (u_pipes s) |>).
Proof.
  assert (E : pipe_of p (s <| u_pipes := <[p := drop k (pipe_of p s)]> (u_pipes s) |>)
    = drop k (pipe_of p s)) by (unfold pipe_of at 1; rs; by rewrite lookup_insert_eq).
  unfold total. rewrite E. rs. by rewrite app_assoc, take_drop.
Qed.

Lemma take_end p k s :
  k ≠ 0%nat → pipe_of p s ≠ [] ∨ (pipe_of p s = [] ∧ unheld p s) → take k (pipe_of p s) = [] →
  let s' := s <| u_pipes := <[p := drop k (pipe_of p s)]> (u_pipes s) |> in
  total p s' = [] ∧ unheld p s'.
Proof.
  intros Hk [Hr|[E Hu]] Ht; [by destruct k, (pipe_of p s)|]. intros s'.
  assert (Hu' : unheld p s') by done. split; [|done]. rewrite unheld_total by done.
  unfold s', pipe_of at 1. rs. rewrite lookup_insert_eq, E. by destruct k.
Qed.

Lemma wp_read fd n p b (Q : option (list Z) → uproc → Prop) s :
  u_fds s !! fd = Some (PipeRead p, b) → unwritten p s →
  (∀ r s', read_post p n s r s' → Q r s') →
  wp (read fd n) Q s.
Proof.
  intros Hfd Hu HQ. unfold read. wp_step. apply wp_answer. intros a s1 H1 Hio. wp_go.
  rewrite (later_fds _ _ _ H1), Hfd.
  destruct a as [[e|c]|].
  { eapply wp_failed; [done|by eapply Hio|]. intros s' Hl Hi <-. by apply HQ. }
  all: case_bool_decide as Hn; wp_go;
    [apply HQ; split_and!; [by apply later_any|cbn; lia| |done];
     intros Hs; by rewrite (later_total _ p _ _ H1) by (done || by intros [])|].
  all: apply (wp_await nothing);
    [intros s2 Hl Er; apply unwritten_readable; [|done];
     eapply later_unwritten; [|done]; etrans; done|].
  all: intros s2 H2 Hr%readable_spec; wp_go; apply HQ.
  all: assert (H02 : later nothing s s2) by (etrans; done).
  all: split; [eapply later_one; [by apply moves_pipe|]; by apply later_any|].
  all: split; [rewrite length_take; lia|].
  all: split; [intros Hs; etrans; [symmetry; apply (later_total _ p _ _ H02); [by intros []|done]|
    apply take_total]|].
  all: intros _; by apply take_end; [lia|].
Qed.

(** Retrying: every interrupted call has taken an answer. *)
Lemma wp_retry {A} (I : uproc → Prop) (failed : A → bool) (call : M uproc A) Q s :
  I s →
  (∀ s, I s → wp call (λ r s',
     (failed r = true → I s' ∧ less_io s s') ∧
     (failed r = false ∨ u_errno s' ≠ EINTR → Q r s')) s) →
  wp (retry failed call) Q s.
Proof.
  intros HI Hc. unfold retry. wp_go.
  assert (H : ∀ fuel s, I s → (length (u_io s) < fuel)%nat → wp (retry_loop failed call fuel) Q s);
    [|apply H; [done|lia]]. clear s HI.
  induction fuel as [|fuel IH]; intros s HI Hf; [lia|]. cbn [retry_loop]. wp_step.
  eapply wp_mono; [by apply Hc|]. intros r s' [H1 H2]. wp_go.
  - apply andb_true_iff in H as [Hr He]. destruct (H1 Hr) as [HI' Hl].
    apply IH; [done|]. unfold less_io in *. lia.
  - apply H2. apply andb_false_iff in H as [?|?%Z.eqb_neq]; auto.
Qed.

(** The system does not see what a process does to its own descriptors. *)
Lemma step_with_fds t pid s :
  step_program pid (s <| u_fds := t |>) = (step_program pid s) <| u_fds := t |>.
Proof.
  unfold step_program. rs. generalize (@nil running).
  induction (u_running s) as [|r rs IH]; intros b; [done|]. cbn [step_in].
  destruct (r_pid r =? pid); [|apply IH]. unfold goes_on.
  destruct (r_todo r) as [|[fd buf] todo]; [done|]. by destruct (r_fds r !! fd) as [[]|].
Qed.

Lemma later_with_fds P t s s' : later P s s' → later P (s <| u_fds := t |>) (s' <| u_fds := t |>).
Proof.
  induction 1 as [|s1 s2 s3 H _ IH]; [done|]. etrans; [|exact IH]. apply rtc_once.
  destruct H as [pid|v|v H|e|v|n H|q k H].
  - rewrite <- step_with_fds. constructor.
  - exact (moves_sched P (s1 <| u_fds := t |>) v).
  - assert (M : moves P (s1 <| u_fds := t |>) (s1 <| u_fds := t |> <| u_io := v |>)) by by constructor.
    exact M.
  - exact (moves_errno P (s1 <| u_fds := t |>) e).
  - exact (moves_tried P (s1 <| u_fds := t |>) v).
  - assert (M : moves P (s1 <| u_fds := t |>) (s1 <| u_fds := t |> <| u_next := n |>)) by by constructor.
    exact M.
  - exact (moves_pipe P (s1 <| u_fds := t |>) q k H).
Qed.

(** The process now has the descriptors [t]; otherwise only the system went on, and the
    process used the pipes in [P]. *)
Definition went (P : Z → Prop) (t : fdtable) (s s' : uproc) : Prop :=
  later P s (s' <| u_fds := u_fds s |>) ∧ u_fds s' = t.
Abbreviation retabled := (went nothing).

Lemma later_went P s s' : later P s s' → went P (u_fds s) s s'.
Proof.
  intros H. pose proof (later_fds _ _ _ H) as E. split; [|done]. rewrite <- E. by destruct s'.
Qed.
Lemma later_retabled s s' : later nothing s s' → retabled (u_fds s) s s'.
Proof. apply later_went. Qed.

Lemma went_later P s s' : went P (u_fds s) s s' → later P s s'.
Proof. intros [H E]. rewrite <- E in H. by destruct s'. Qed.

Lemma went_any P t s s' : retabled t s s' → went P t s s'.
Proof. intros [H E]. split; [by apply later_any|done]. Qed.

Lemma set_fds_went P t s s' : later P s s' → went P t s (s' <| u_fds := t |>).
Proof.
  intros H. split; [|done]. rewrite <- (later_fds _ _ _ H). by destruct s'.
Qed.
Lemma set_fds_retabled t s s' : later nothing s s' → retabled t s (s' <| u_fds := t |>).
Proof. apply set_fds_went. Qed.

Lemma went_trans P t1 t2 s s1 s2 : went P t1 s s1 → went P t2 s1 s2 → went P t2 s s2.
Proof.
  intros [H1 E1] [H2 E2]. split; [|done]. etrans; [exact H1|].
  apply (later_with_fds _ (u_fds s)) in H2. exact H2.
Qed.
Lemma retabled_trans t1 t2 s s1 s2 : retabled t1 s s1 → retabled t2 s1 s2 → retabled t2 s s2.
Proof. apply went_trans. Qed.

Lemma went_calm P t s s' : went P t s s' → calm s → calm s'.
Proof. intros [H _] Hc. by apply (later_calm _ _ _ H). Qed.
Lemma retabled_calm t s s' : retabled t s s' → calm s → calm s'.
Proof. apply went_calm. Qed.

(** Between two states of possibly different processes only the system went on. *)
Definition system_later (s c : uproc) : Prop := later nothing s (parent_of s c).

Lemma parent_of_id s : parent_of s s = s.
Proof. by destruct s. Qed.

Lemma step_parent_of x pid s : step_program pid (parent_of x s) = parent_of x (step_program pid s).
Proof.
  unfold step_program. change (u_running (parent_of x s)) with (u_running s).
  generalize (@nil running). induction (u_running s) as [|r rs IH]; intros b; [done|]. cbn [step_in].
  destruct (r_pid r =? pid); [|apply IH]. unfold goes_on.
  destruct (r_todo r) as [|[fd buf] todo]; [done|]. by destruct (r_fds r !! fd) as [[]|].
Qed.

Lemma later_parent_of P x s s' : later P s s' → later P (parent_of x s) (parent_of x s').
Proof.
  induction 1 as [|s1 s2 s3 H _ IH]; [done|]. etrans; [|exact IH].
  destruct H as [pid|v|v H|e|v|n H|q k H]; [| | |apply later_refl| | |].
  - rewrite <- step_parent_of. apply rtc_once. constructor.
  - assert (M : moves P (parent_of x s1) ((parent_of x s1) <| u_sched := v |>)) by constructor.
    apply rtc_once. exact M.
  - assert (M : moves P (parent_of x s1) ((parent_of x s1) <| u_io := v |>)) by by constructor.
    apply rtc_once. exact M.
  - assert (M : moves P (parent_of x s1) ((parent_of x s1) <| u_tried := v |>)) by constructor.
    apply rtc_once. exact M.
  - assert (M : moves P (parent_of x s1) ((parent_of x s1) <| u_next := n |>)) by by constructor.
    apply rtc_once. exact M.
  - assert (M : moves P (parent_of x s1) ((parent_of x s1)
      <| u_pipes := <[q := k]> (u_pipes (parent_of x s1)) |>))
      by by constructor.
    apply rtc_once. exact M.
Qed.

Lemma system_later_refl s : system_later s s.
Proof. unfold system_later. by rewrite parent_of_id. Qed.

Lemma later_system s s' : later nothing s s' → system_later s s'.
Proof. intros H%(later_parent_of _ s). by rewrite parent_of_id in H. Qed.

Lemma system_later_trans s s1 s2 : system_later s s1 → system_later s1 s2 → system_later s s2.
Proof. intros H1 H2%(later_parent_of _ s). unfold system_later. by etrans; [exact H1|]. Qed.

Lemma retabled_system t s s' : retabled t s s' → system_later s s'.
Proof. intros [H _]. apply later_system in H. exact H. Qed.

Lemma system_calm s c : system_later s c → calm s → calm c.
Proof. intros H Hc. by apply (later_calm _ _ _ H). Qed.

Lemma later_cwd P s s' : later P s s' → u_cwd s' = u_cwd s.
Proof. intros H. pose proof (later_own _ _ _ H). unfold own in *. congruence. Qed.
Lemma later_default P s s' : later P s s' → u_default s' = u_default s.
Proof. intros H. pose proof (later_own _ _ _ H). unfold own in *. congruence. Qed.
Lemma retabled_default t s s' : retabled t s s' → u_default s' = u_default s.
Proof. intros [H _]. by apply later_default in H. Qed.
Lemma retabled_cwd t s s' : retabled t s s' → u_cwd s' = u_cwd s.
Proof. intros [H _]. by apply later_cwd in H. Qed.
Lemma later_status P s s' : later P s s' → u_status s' = u_status s.
Proof. intros H. pose proof (later_own _ _ _ H). unfold own in *. congruence. Qed.

Lemma later_pipe P p s s' : later P s s' → ¬ P p → unheld p s → pipe_of p s' = pipe_of p s.
Proof.
  intros H HP Hu. pose proof (later_total _ p _ _ H HP (unheld_sole _ _ Hu)) as E.
  rewrite !unheld_total in E by (done || by eapply later_unheld). done.
Qed.
