(* ===== verification/GExecute.v ===== *)
(** Finding and executing a program file: [g_execute] of gspawn.c, with
    [script_execute] and [my_strchrnul].

    The reference is the search itself: the files the search path names, tried in
    order, up to the first that runs or fails for a reason of its own. *)
From S2P Require Import Prelude Nptl Unix.

Implicit Types s : uproc.

(** GLib's look-ups of environment variables. *)
Class GLib := {
  g_environ_getenv : option (list str) → str → option str;
  g_getenv : str → option str;
}.

(** [memcpy (buf + off, data, ...)], where it stays inside the buffer. *)
Definition memcpy (off : Z) (data buf : str) : option str :=
  if (0 <=? off) && (off + Z.of_nat (length data) <=? Z.of_nat (length buf)) then
    Some (take (Z.to_nat off) buf ++ data ++ drop (Z.to_nat off + length data) buf)
  else None.

(** The offset of the first [c], or of the end. *)
Fixpoint my_strchrnul (p : str) (c : ascii) : nat :=
  match p with
  | [] => O
  | x :: p => if Ascii.eqb x c then O else S (my_strchrnul p c)
  end.

(** [strchr (file, '/') != NULL] *)
Definition has_slash (file : str) : bool := existsb (Ascii.eqb "/"%char) file.

Definition SH : str := lit "/bin/sh".
Definition DEFAULT_PATH : str := lit "/bin:/usr/bin:.".

Section Execute.
Context `{!System, !GLib}.

(** [if (envp) execve (...); else execv (...);] *)
Definition exec_file (file : str) (argv : list str) (envp : option (list str)) : M uproc () :=
  execve file argv (default sys_environ envp).

(** With no arguments at all the shell's argument list has no room for its end. *)
Definition script_execute (file : str) (argv : list str) (envp : option (list str)) :
    M uproc () :=
  match argv with
  | [] => stop_with Fault
  | _ :: args => exec_file SH (SH :: file :: args) envp
  end.

(** Execute a file, by the shell when the system cannot. *)
Definition execute_file (file : str) (argv : list str) (envp : option (list str)) :
    M uproc () :=
  exec_file file argv envp;;
  e ← gets u_errno;
  when (e =? ENOEXEC) (script_execute file argv envp).

Section Search.
Context (argv : list str) (envp : option (list str)).

(** The [do] loop: [name] is the buffer, with the slash at [slash]; [path] is what
    is left of the search path.  [None] is the [return -1] inside. *)
Fixpoint search_loop (fuel : nat) (slash : nat) (name path : str) (got_eacces : bool) :
    M uproc (option bool) :=
  match fuel with
  | O => stop_with Blocked
  | S fuel =>
      let n := my_strchrnul path ":"%char in
      '(name, startp) ←
        (if bool_decide (n = O) then mret (name, slash + 1)%nat
         else name' ← from_option_or Fault
                        (memcpy (Z.of_nat slash - Z.of_nat n) (take n path) name);
              mret (name', slash - n)%nat);
      execute_file (drop startp name) argv envp;;
      e ← gets u_errno;
      let next got :=
        match drop n path with
        | [] => mret (Some got)
        | _ :: path => search_loop fuel slash name path got
        end in
      if e =? EACCES then next true
      else if (e =? ENOENT) || (e =? ESTALE) || (e =? ENOTDIR) then next got_eacces
      else if (e =? ENODEV) || (e =? ETIMEDOUT) then next got_eacces
      else mret None
  end.
End Search.

Definition search_path_value (envp : option (list str)) (search_path search_path_from_envp : bool) :
    str :=
  let path := if search_path_from_envp then g_environ_getenv envp (lit "PATH") else None in
  let path := match path with
              | None => if search_path then g_getenv (lit "PATH") else None
              | _ => path
              end in
  default DEFAULT_PATH path.

(** It returns (-1) only when no program was started. *)
Definition g_execute (file : str) (argv : list str) (envp : option (list str))
    (search_path search_path_from_envp : bool) : M uproc Z :=
  if bool_decide (file = []) then
    set_uerrno ENOENT;; mret (-1)
  else if negb (search_path || search_path_from_envp) || has_slash file then
    execute_file file argv envp;; mret (-1)
  else
    let path := search_path_value envp search_path search_path_from_envp in
    let pathlen := length path in
    let name := replicate (pathlen + 1 + length file) zero in
    name ← from_option_or Fault (memcpy (Z.of_nat pathlen + 1) file name);
    name ← from_option_or Fault (memcpy (Z.of_nat pathlen) ["/"%char] name);
    got ← search_loop argv envp (S pathlen) pathlen name path false;
    match got with
    | None => mret (-1)
    | Some got_eacces => when got_eacces (set_uerrno EACCES);; mret (-1)
    end.
End Execute.

(** * The search *)

(** The parts of a string between the [c]s. *)
Fixpoint fields (c : ascii) (p : str) : list str :=
  match p with
  | [] => [[]]
  | x :: p =>
      if Ascii.eqb x c then [] :: fields c p
      else match fields c p with
           | f :: fs => (x :: f) :: fs
           | [] => [[x]]
           end
  end.

Definition in_dir (file dir : str) : str :=
  if bool_decide (dir = []) then file else dir ++ "/"%char :: file.

(** The errors that say a file is not there, or not for us. *)
Definition keeps_looking (e : Z) : bool :=
  bool_decide (e ∈ [EACCES; ENOENT; ESTALE; ENOTDIR; ENODEV; ETIMEDOUT]).

Section Reference.
Context `{!System, !GLib}.
Section Of.
Context (argv : list str) (envp : option (list str)) (s : uproc).

(** The files the search tries. *)
Definition candidates (file : str) (search_path search_path_from_envp : bool) : list str :=
  if bool_decide (file = []) then []
  else if negb (search_path || search_path_from_envp) || has_slash file then [file]
  else in_dir file <$> fields ":"%char (search_path_value envp search_path search_path_from_envp).

Definition image_of (file : str) (args : list str) : image :=
  mkImage file args (default sys_environ envp) (u_cwd s) (exec_fds (u_fds s)) (u_default s).

(** What executing one file amounts to: the program started or the error, and the
    calls made. *)
Definition verdict (file : str) : (image + Z) * list image :=
  let im := image_of file argv in
  match sys_exec im with
  | None => (inl im, [im])
  | Some e =>
      if e =? ENOEXEC then
        let sh := image_of SH (SH :: file :: tail argv) in
        (match sys_exec sh with None => inl sh | Some e => inr e end, [im; sh])
      else (inr e, [im])
  end.

Definition passed_over (v : image + Z) : bool :=
  match v with inl _ => false | inr e => keeps_looking e end.

(** The first file that is not passed over decides; when there is none the error is
    EACCES if any file had it, the last one's otherwise. *)
Fixpoint resolve (eacces : bool) (files : list str) : (image + Z) * list image :=
  match files with
  | [] => (inr ENOENT, [])
  | file :: files =>
      let '(v, ims) := verdict file in
      let eacces := eacces || match v with inr e => e =? EACCES | _ => false end in
      if passed_over v then
        match files with
        | [] => (inr (match v with inr e => if eacces then EACCES else e | _ => ENOENT end), ims)
        | _ => let '(r, ims') := resolve eacces files in (r, ims ++ ims')
        end
      else (v, ims)
  end.
End Of.

(** The process after the calls. *)
Definition resolved (s : uproc) (r : (image + Z) * list image) : outcome uproc Z :=
  let s := s <| u_tried := u_tried s ++ r.2 |> in
  match r.1 with
  | inl im => Stop Replaced (s <| u_exec := Some im |> <| u_errno := 0 |>)
  | inr e => Done (-1) (s <| u_errno := e |>)
  end.
End Reference.

(** * The buffer *)

Lemma fields_split c p :
  fields c p = take (my_strchrnul p c) p ::
    match drop (my_strchrnul p c) p with [] => [] | _ :: p' => fields c p' end.
Proof.
  induction p as [|x p IH]; [done|]. cbn [fields my_strchrnul].
  destruct (Ascii.eqb x c); [done|]. rewrite IH. done.
Qed.

Lemma strchrnul_le c p : (my_strchrnul p c ≤ length p)%nat.
Proof. induction p as [|x p IH]; cbn; [lia|]. destruct (Ascii.eqb x c); lia. Qed.

(** The buffer always ends in the slash and the name of the file. *)
Definition name_buffer (slash : nat) (file name : str) : Prop :=
  (slash ≤ length name)%nat ∧ drop slash name = "/"%char :: file.

Lemma memcpy_in off data buf :
  (off + length data ≤ length buf)%nat →
  memcpy (Z.of_nat off) data buf = Some (take off buf ++ data ++ drop (off + length data) buf).
Proof.
  intros H. unfold memcpy. rewrite Nat2Z.id.
  destruct (Z.leb_spec 0 (Z.of_nat off)), (Z.leb_spec (Z.of_nat off + Z.of_nat (length data))
    (Z.of_nat (length buf))); done || lia.
Qed.

Lemma name_start slash file name : name_buffer slash file name → drop (slash + 1) name = file.
Proof. intros [_ H]. by rewrite Nat.add_1_r, <- (Nat.add_1_r slash), <- drop_drop, H. Qed.

(** A directory copied in front of the slash makes the full name. *)
Lemma name_prefix slash file name dir :
  name_buffer slash file name → (length dir ≤ slash)%nat → dir ≠ [] →
  ∃ name', memcpy (Z.of_nat slash - Z.of_nat (length dir)) dir name = Some name' ∧
    name_buffer slash file name' ∧ drop (slash - length dir) name' = in_dir file dir.
Proof.
  intros [Hlen Hd] Hle Hne.
  replace (Z.of_nat slash - Z.of_nat (length dir)) with (Z.of_nat (slash - length dir)) by lia.
  rewrite memcpy_in by lia. eexists. split; [done|].
  replace (slash - length dir + length dir)%nat with slash by lia. rewrite Hd.
  assert (Ht : length (take (slash - length dir) name) = (slash - length dir)%nat)
    by (rewrite length_take; lia).
  split; [split|].
  - rewrite !length_app, Ht. cbn. lia.
  - rewrite app_assoc, drop_app_length'; [done|]. rewrite length_app. lia.
  - rewrite drop_app_length' by done. unfold in_dir. by rewrite bool_decide_false.
Qed.

Lemma name_init pathlen file :
  ∃ n1 n2, memcpy (Z.of_nat pathlen + 1) file (replicate (pathlen + 1 + length file) zero) = Some n1 ∧
    memcpy (Z.of_nat pathlen) ["/"%char] n1 = Some n2 ∧ name_buffer pathlen file n2.
Proof.
  replace (Z.of_nat pathlen + 1) with (Z.of_nat (pathlen + 1)) by lia.
  rewrite memcpy_in by (rewrite length_replicate; lia).
  do 2 eexists. split; [done|].
  rewrite take_replicate, drop_replicate.
  replace (pathlen + 1 + length file - (pathlen + 1 + length file))%nat with 0%nat by lia.
  rewrite app_nil_r. rewrite memcpy_in by (rewrite length_app, length_replicate; cbn; lia).
  split; [done|]. rewrite Nat.min_l by lia. split.
  - rewrite !length_app, length_take, length_app, length_replicate. cbn. lia.
  - rewrite drop_app_length' by (rewrite length_take, length_app, length_replicate; lia).
    cbn [length app]. f_equal. by rewrite drop_app_length' by (rewrite length_replicate; lia).
Qed.

(** * The search is the reference *)

Section Correct.
Context `{!System, !GLib}.
Context (argv : list str) (envp : option (list str)).
Hypothesis some_args : argv ≠ [].

(** The process after a file was tried without success. *)
Definition tried_in (s : uproc) (e : Z) (ims : list image) : uproc :=
  s <| u_tried := u_tried s ++ ims |> <| u_errno := e |>.

Definition attempted (s : uproc) (v : (image + Z) * list image) : outcome uproc () :=
  match v.1 with
  | inl im => Stop Replaced (s <| u_tried := u_tried s ++ v.2 |> <| u_exec := Some im |> <| u_errno := 0 |>)
  | inr e => Done () (tried_in s e v.2)
  end.

Lemma execute_file_verdict file s :
  execute_file file argv envp s = attempted s (verdict argv envp s file).
Proof.
  unfold execute_file, exec_file, verdict, attempted. fold (image_of envp s file argv).
  cbv [execve gets modify mbind M_bind]. fold (image_of envp s file argv).
  destruct (sys_exec (image_of envp s file argv)) as [e|]; [|done].
  change (set_uerrno e (s <| u_tried := u_tried s ++ [image_of envp s file argv] |>))
    with (Done () (tried_in s e [image_of envp s file argv])).
  cbn [mbind]. unfold when. change (u_errno (tried_in s e _)) with e.
  destruct (e =? ENOEXEC); [|done].
  unfold script_execute. destruct argv as [|a args]; [done|]. cbn [tail].
  unfold exec_file. cbv [execve gets modify mbind M_bind].
  change (mkImage SH (SH :: file :: args) (default sys_environ envp) (u_cwd (tried_in s e _))
    (exec_fds (u_fds (tried_in s e _))) (u_default (tried_in s e _))) with (image_of envp s SH (SH :: file :: args)).
  set (sh := image_of envp s SH _). cbv beta. unfold tried_in. rs. rewrite <- app_assoc.
  by destruct (sys_exec sh).
Qed.

Lemma verdict_tried s e ims file :
  verdict argv envp (tried_in s e ims) file = verdict argv envp s file.
Proof. done. Qed.

Lemma resolve_tried s e ims eacces files :
  resolve argv envp (tried_in s e ims) eacces files = resolve argv envp s eacces files.
Proof.
  revert eacces. induction files as [|f files IH]; intros eacces; [done|].
  cbn [resolve]. rewrite verdict_tried. destruct (verdict argv envp s f) as [v ims'].
  destruct (passed_over v); [|done]. destruct files; [done|]. by rewrite IH.
Qed.

Lemma resolved_tried s e ims r : resolved (tried_in s e ims) r = resolved s (r.1, ims ++ r.2).
Proof. unfold resolved, tried_in. rs. rewrite <- app_assoc. by destruct (r.1). Qed.

Lemma keeps_looking_spec e :
  keeps_looking e = (e =? EACCES) || ((e =? ENOENT) || (e =? ESTALE) || (e =? ENOTDIR)) ||
    ((e =? ENODEV) || (e =? ETIMEDOUT)).
Proof.
  unfold keeps_looking. repeat case_bool_decide;
  rewrite ?elem_of_cons, ?elem_of_nil in *;
  destruct (Z.eqb_spec e EACCES), (Z.eqb_spec e ENOENT), (Z.eqb_spec e ESTALE),
    (Z.eqb_spec e ENOTDIR), (Z.eqb_spec e ENODEV), (Z.eqb_spec e ETIMEDOUT); cbn; tauto || done.
Qed.

(** What [g_execute] does with the outcome of the loop. *)
Definition after_loop (got : option bool) : M uproc Z :=
  match got with
  | None => mret (-1)
  | Some got_eacces => when got_eacces (set_uerrno EACCES);; mret (-1)
  end.

(** One file of the search, and the rest. *)
Lemma resolve_cons s got f files :
  resolve argv envp s got (f :: files) =
  match verdict argv envp s f with
  | (inl im, ims) => (inl im, ims)
  | (inr e, ims) =>
      if keeps_looking e then
        match files with
        | [] => (inr (if got || (e =? EACCES) then EACCES else e), ims)
        | _ => let '(r, ims') := resolve argv envp s (got || (e =? EACCES)) files in (r, ims ++ ims')
        end
      else (inr e, ims)
  end.
Proof. cbn [resolve]. by destruct (verdict argv envp s f) as [[im|e] ims]. Qed.

(** The name of the file in a directory, put in the buffer. *)
Lemma name_placed slash file name dir s :
  name_buffer slash file name → (length dir ≤ slash)%nat →
  ∃ name' start,
    (if bool_decide (length dir = 0%nat) then mret (name, slash + 1)%nat
     else name' ← from_option_or Fault (memcpy (Z.of_nat slash - Z.of_nat (length dir)) dir name);
          mret (name', slash - length dir)%nat) s = Done (name', start) s ∧
    name_buffer slash file name' ∧ drop start name' = in_dir file dir.
Proof.
  intros Hb Hle. case_bool_decide as Hd.
  - exists name, (slash + 1)%nat. split_and!; [done|done|].
    rewrite (name_start _ _ _ Hb). unfold in_dir. apply length_zero_iff_nil in Hd.
    by rewrite bool_decide_true.
  - destruct (name_prefix slash file name dir Hb Hle) as (name' & E & Hb' & Hn).
    { by intros ->. }
    exists name', (slash - length dir)%nat. rewrite E. done.
Qed.

Lemma search_loop_resolve file slash fuel : ∀ name path got s,
  name_buffer slash file name → (length path < fuel)%nat → (length path ≤ slash)%nat →
  (search_loop argv envp fuel slash name path got ≫= after_loop) s =
  resolved s (resolve argv envp s got (in_dir file <$> fields ":"%char path)).
Proof.
  induction fuel as [|fuel IH]; intros name path got s Hb Hf Hs; [lia|].
  cbn [search_loop]. rewrite (fields_split ":"%char path). set (n := my_strchrnul path ":"%char).
  pose proof (strchrnul_le ":"%char path : n ≤ length path)%nat as Hn.
  assert (Hl : length (take n path) = n) by (rewrite length_take; lia).
  destruct (name_placed slash file name (take n path) s Hb ltac:(lia)) as (name' & start & E & Hb' & Hd).
  rewrite Hl in E. rewrite fmap_cons, resolve_cons.
  rewrite mbind_assoc, (mbind_done _ _ _ _ _ E); cbn beta iota. rewrite mbind_assoc, Hd.
  pose proof (execute_file_verdict (in_dir file (take n path)) s) as Ex.
  destruct (verdict argv envp s (in_dir file (take n path))) as [[im|e] ims].
  { by rewrite (mbind_stop _ _ _ _ _ Ex). }
  rewrite (mbind_done _ _ _ _ _ Ex), mbind_assoc.
  rewrite (mbind_done (gets u_errno) _ (tried_in s e ims) e _ eq_refl); cbn beta. rewrite keeps_looking_spec.
  assert (Hnext : ∀ got', (match drop n path with
      | [] => mret (Some got')
      | _ :: path => search_loop argv envp fuel slash name' path got'
      end ≫= after_loop) (tried_in s e ims) =
    resolved s (match in_dir file <$> match drop n path with [] => [] | _ :: p' => fields ":"%char p' end with
      | [] => (inr (if got' then EACCES else e), ims)
      | _ => let '(r, ims') := resolve argv envp s got'
               (in_dir file <$> match drop n path with [] => [] | _ :: p' => fields ":"%char p' end) in
             (r, ims ++ ims')
      end)).
  { intros got'. destruct (drop n path) as [|x path'] eqn:Ed; [by destruct got'|].
    pose proof (f_equal length Ed) as HL. rewrite length_drop in HL. cbn [length] in HL.
    rewrite IH by (done || lia). rewrite resolve_tried, resolved_tried.
    destruct (resolve argv envp s got' _). by rewrite fields_split, fmap_cons. }
  destruct (e =? EACCES).
  { cbn [orb]. rewrite orb_true_r. exact (Hnext true). }
  rewrite orb_false_r. cbn [orb].
  destruct ((e =? ENOENT) || (e =? ESTALE) || (e =? ENOTDIR)); [exact (Hnext got)|].
  destruct ((e =? ENODEV) || (e =? ETIMEDOUT)); [exact (Hnext got)|done].
Qed.

Lemma g_execute_resolve file search_path search_path_from_envp s :
  g_execute file argv envp search_path search_path_from_envp s =
  resolved s (resolve argv envp s false
    (candidates envp file search_path search_path_from_envp)).
Proof.
  unfold g_execute, candidates. case_bool_decide as Hf.
  { unfold resolved. cbn [resolve fst snd]. rewrite app_nil_r. by destruct s. }
  destruct (negb (search_path || search_path_from_envp) || has_slash file).
  - rewrite resolve_cons. pose proof (execute_file_verdict file s) as E.
    destruct (verdict argv envp s file) as [[im|e] ims].
    { by rewrite (mbind_stop _ _ _ _ _ E). }
    rewrite (mbind_done _ _ _ _ _ E). cbn [orb].
    destruct (keeps_looking e); [|done]. by destruct (Z.eqb_spec e EACCES) as [->|].
  - destruct (name_init (length (search_path_value envp search_path search_path_from_envp)) file)
      as (n1 & n2 & E1 & E2 & Hb).
    cbv zeta. rewrite E1. rewrite (mbind_done (from_option_or Fault (Some n1)) _ s n1 s eq_refl).
    rewrite E2, (mbind_done (from_option_or Fault (Some n2)) _ s n2 s eq_refl).
    apply search_loop_resolve; [done|lia..].
Qed.
End Correct.

(** C31: [g_execute] is the search over its candidates: the file alone, or the file in
    every directory of the search path (an empty one is the current directory); each
    is executed, or passed to the shell when the system cannot, the first that runs
    replaces the process and the first error of its own is reported; when every file
    is missing or refused the error is EACCES if any was, the last one otherwise
    (ENOENT for an empty name). *)
Theorem g_execute_searches `{!System, !GLib} file argv envp search_path search_path_from_envp s
    (Hargs : argv ≠ []) :
  g_execute file argv envp search_path search_path_from_envp s =
  resolved s (resolve argv envp s false
    (candidates envp file search_path search_path_from_envp)).
Proof. by apply g_execute_resolve. Qed.

(** With an empty argument list the shell's list is not terminated. *)
Example script_without_arguments `{!System} file envp s :
  script_execute file [] envp s = Stop Fault s.
Proof. done. Qed.

(** * A concrete search *)

Module DemoExecute.
(** [/a/x] is not executable for us, [/b/x] a script without an interpreter line. *)
#[export] Instance demo_system : System := {|
  sys_exec im :=
    if bool_decide (im_file im = lit "/a/x") then Some EACCES
    else if bool_decide (im_file im = lit "/b/x") then Some ENOEXEC
    else if bool_decide (im_file im = SH) then None
    else Some ENOENT;
  sys_runs _ := ([], 0);
  sys_spawnp _ := inr ENOENT;
  sys_environ := [lit "PATH=/a::/b"];
  sys_proc_fd _ := [];
  sys_rlim_max := Some 1024;
  sys_open_max := 1024;
|}.
#[export] Instance demo_glib : GLib := {|
  g_environ_getenv _ _ := None;
  g_getenv _ := Some (lit "/a::/b");
|}.
Definition demo_start : uproc := mkUproc
  {[0 := (Other 0, false); 1 := (Other 1, false); 2 := (Other 2, false)]}
  0 None [] [] 0 None [] [] 1 ∅ [] [] [] [].
End DemoExecute.
Import DemoExecute.

(** The files tried, in order, and the last is the shell with the script. *)
Lemma g_execute_searches_witness :
  ∃ s', g_execute (lit "x") [lit "x"; lit "y"] None true false DemoExecute.demo_start =
    Stop Replaced s' ∧
  (λ im, (im_file im, im_argv im)) <$> u_tried s' =
    [(lit "/a/x", [lit "x"; lit "y"]); (lit "x", [lit "x"; lit "y"]);
     (lit "/b/x", [lit "x"; lit "y"]); (SH, [SH; lit "/b/x"; lit "y"])].
Proof.
  eexists. split.
  - rewrite g_execute_searches by discriminate. vm_compute. reflexivity.
  - vm_compute. reflexivity.
Defined.
