(* ===== verification/GSpawnIo.v ===== *)
(** How the processes of gspawn.c talk: [write_all], [write_err_and_exit],
    [read_ints] and [read_data] on pipes, the calls that are retried when interrupted,
    the names of descriptors under [/proc], and what an exit status says. *)
From S2P Require Import Prelude Nptl Unix.

Implicit Types s : uproc.

(** The errors reported: one constructor for every [g_set_error].  A failed
    [g_return_val_if_fail] answers FALSE and sets no error. *)
Inductive gerror :=
  | BadArguments
  | ReadFailed (errno : Z)                       (* from a child process *)
  | ReadPipeFailed (errno : Z)                   (* from a child pipe *)
  | SelectFailed (errno : Z)
  | WaitFailed (errno : Z)
  | PipeFailed (errno : Z)
  | ForkFailed (errno : Z)
  | SpawnFailed (file : str) (errno : Z)
  | ChdirFailed (dir : option str) (errno : Z)
  | ExecFailed (file : str) (errno : Z)
  | RedirectFailed (errno : Z)
  | ChildForkFailed (errno : Z)
  | UnknownFailure (file : str)
  | ShortPid (errno : Z)
  | ShellParseFailed
  | ExitCode (code : Z)
  | KilledBy (sig : Z)
  | StoppedBy (sig : Z)
  | ExitedAbnormally.

(** * Integers on a pipe *)

(** The four bytes of an [int], lowest first, and back. *)
Definition bytes_of_int (z : Z) : list Z :=
  [z `mod` 256; (z / 256) `mod` 256; (z / 65536) `mod` 256; (z / 16777216) `mod` 256].
Definition int_of_bytes (b0 b1 b2 b3 : Z) : Z :=
  let u := b0 + 256 * b1 + 65536 * b2 + 16777216 * b3 in
  if u <? 2147483648 then u else u - 4294967296.
Fixpoint ints_of (bytes : list Z) : list Z :=
  match bytes with
  | b0 :: b1 :: b2 :: b3 :: bytes => int_of_bytes b0 b1 b2 b3 :: ints_of bytes
  | _ => []
  end.
Definition is_int (z : Z) : Prop := -2147483648 ≤ z < 2147483648.

(** The variable is -1 afterwards. *)
Definition close_and_invalidate (fd : Z) : M uproc Z :=
  if fd <? 0 then mret fd else close fd;; mret (-1).

Fixpoint write_all_loop (fuel : nat) (fd : Z) (buf : list Z) : M uproc bool :=
  match buf with
  | [] => mret true
  | _ =>
      match fuel with
      | O => stop_with Blocked
      | S fuel =>
          count ← write fd buf;
          if count <? 0 then
            e ← gets u_errno;
            if negb (e =? EINTR) then mret false else write_all_loop fuel fd buf
          else write_all_loop fuel fd (drop (Z.to_nat count) buf)
      end
  end.
Definition write_all (fd : Z) (buf : list Z) : M uproc bool :=
  n ← gets (λ s, length (u_io s)); write_all_loop (S n) fd buf.

Definition write_err_and_exit {A} (fd msg : Z) : M uproc A :=
  en ← gets u_errno;
  write_all fd (bytes_of_int msg);;
  write_all fd (bytes_of_int en);;
  _exit 1.

(** The loop of [read_ints], with the bytes read so far; [None] is a failed read. *)
Fixpoint read_ints_loop (fuel : nat) (fd : Z) (n : nat) (bytes : list Z) :
    M uproc (option (list Z)) :=
  match fuel with
  | O => stop_with Blocked
  | S fuel =>
      if (8 <=? length bytes)%nat then mret (Some bytes) else
      chunk ← retry (λ r, bool_decide (r = None)) (read fd (4 * n - length bytes));
      match chunk with
      | None => mret None
      | Some [] => mret (Some bytes)
      | Some chunk => read_ints_loop fuel fd n (bytes ++ chunk)
      end
  end.
(** Nine rounds are enough: each but the last reads a byte. *)
Definition read_ints (fd : Z) (n_ints_in_buf : nat) : M uproc (gerror + list Z) :=
  r ← read_ints_loop 9 fd n_ints_in_buf [];
  match r with
  | None => e ← gets u_errno; mret (inl (ReadPipeFailed e))
  | Some bytes => mret (inr (ints_of bytes))
  end.

Inductive ReadResult := READ_FAILED (err : gerror) | READ_OK | READ_EOF.

(** The string is returned with what was read. *)
Definition read_data (str : list Z) (fd : Z) : M uproc (ReadResult * list Z) :=
  bytes ← retry (λ r, bool_decide (r = None)) (read fd 4096);
  match bytes with
  | Some [] => mret (READ_EOF, str)
  | Some bytes => mret (READ_OK, str ++ bytes)
  | None => e ← gets u_errno; mret (READ_FAILED (ReadFailed e), str)
  end.

Definition sane_dup2 (fd1 fd2 : Z) : M uproc Z := retry (λ r, r <? 0) (dup2 fd1 fd2).
Definition sane_open (f : file) (cloexec : bool) : M uproc Z :=
  retry (λ r, r <? 0) (open_file f cloexec).

(** * Descriptors by name *)

Definition G_MAXINT := 2147483647.

Definition g_ascii_isdigit (c : ascii) : bool :=
  (48 <=? Z.of_nat (nat_of_ascii c)) && (Z.of_nat (nat_of_ascii c) <=? 57).
Definition digit (c : ascii) : Z := Z.of_nat (nat_of_ascii c) - 48.

Fixpoint filename_to_fd_loop (p : str) (fd : Z) : Z :=
  match p with
  | [] => fd
  | c :: p =>
      if negb (g_ascii_isdigit c) then -1
      else if (fd >? G_MAXINT / 10) || ((fd =? G_MAXINT / 10) && (digit c >? G_MAXINT `mod` 10)) then -1
      else filename_to_fd_loop p (fd * 10 + digit c)
  end.
Definition filename_to_fd (p : str) : Z :=
  match p with [] => -1 | _ => filename_to_fd_loop p 0 end.

(** * Exit statuses *)

Definition WEXITSTATUS (status : Z) : Z := Z.shiftr (Z.land status 65280) 8.
Definition WTERMSIG (status : Z) : Z := Z.land status 127.
Definition WSTOPSIG (status : Z) : Z := WEXITSTATUS status.
Definition WIFEXITED (status : Z) : bool := WTERMSIG status =? 0.
(** A signed 8-bit sum, halved. *)
Definition WIFSIGNALED (status : Z) : bool :=
  let c := Z.land status 127 + 1 in
  Z.shiftr (if c <? 128 then c else c - 256) 1 >? 0.
Definition WIFSTOPPED (status : Z) : bool := Z.land status 255 =? 127.

Definition g_spawn_check_exit_status (exit_status : Z) : option gerror :=
  if WIFEXITED exit_status then
    if negb (WEXITSTATUS exit_status =? 0) then Some (ExitCode (WEXITSTATUS exit_status))
    else None
  else if WIFSIGNALED exit_status then Some (KilledBy (WTERMSIG exit_status))
  else if WIFSTOPPED exit_status then Some (StoppedBy (WSTOPSIG exit_status))
  else Some ExitedAbnormally.

(** * What they do *)

(** ** Descriptors by name *)

Definition value (p : str) : Z := foldl (λ v c, v * 10 + digit c) 0 p.

Lemma value_from p v : 0 ≤ v → Forall (λ c, g_ascii_isdigit c = true) p →
  v ≤ foldl (λ v c, v * 10 + digit c) v p.
Proof.
  revert v. induction p as [|c p IH]; intros v Hv Hp; cbn [foldl]; [done|].
  inversion_clear Hp as [|?? Hc Hp']. unfold g_ascii_isdigit in Hc.
  assert (0 ≤ digit c) by (unfold digit; lia). etrans; [|apply IH; [lia|done]]. lia.
Qed.

Lemma filename_to_fd_loop_spec p fd :
  0 ≤ fd ≤ G_MAXINT →
  filename_to_fd_loop p fd =
    if forallb g_ascii_isdigit p && (foldl (λ v c, v * 10 + digit c) fd p <=? G_MAXINT)
    then foldl (λ v c, v * 10 + digit c) fd p else -1.
Proof.
  revert fd. induction p as [|c p IH]; intros fd Hfd; cbn [filename_to_fd_loop forallb foldl].
  { cbn. by destruct (Z.leb_spec fd G_MAXINT); [|lia]. }
  destruct (g_ascii_isdigit c) eqn:Hc; [cbn [negb andb]|done].
  assert (Hd : 0 ≤ digit c ≤ 9) by (unfold digit, g_ascii_isdigit in *; lia).
  assert (Hov : ((fd >? G_MAXINT / 10) || ((fd =? G_MAXINT / 10) && (digit c >? G_MAXINT `mod` 10)))
    = (fd * 10 + digit c >? G_MAXINT)).
  { unfold G_MAXINT in *. change (2147483647 / 10) with 214748364. change (2147483647 `mod` 10) with 7.
    lia. }
  rewrite Hov. destruct (Z.gtb_spec (fd * 10 + digit c) G_MAXINT) as [Hb|Hb]; [|apply IH; lia].
  destruct (forallb g_ascii_isdigit p) eqn:Hp; [|done]. cbn [andb].
  assert (fd * 10 + digit c ≤ foldl (λ v c, v * 10 + digit c) (fd * 10 + digit c) p).
  { apply value_from; [lia|]. apply Forall_forall. intros x Hx.
    rewrite forallb_forall in Hp. by apply Hp, list_elem_of_In. }
  by destruct (Z.leb_spec (foldl (λ v c, v * 10 + digit c) (fd * 10 + digit c) p) G_MAXINT); [lia|].
Qed.

(** A name of digits. *)
Definition decimal (p : str) : bool := negb (bool_decide (p = [])) && forallb g_ascii_isdigit p.

Lemma filename_to_fd_spec p :
  filename_to_fd p = if decimal p && (value p <=? G_MAXINT) then value p else -1.
Proof.
  destruct p as [|c p]; [done|]. unfold filename_to_fd, value.
  rewrite filename_to_fd_loop_spec by (unfold G_MAXINT; lia). unfold decimal.
  by rewrite bool_decide_false by done.
Qed.

(** A name under [/proc/self/fd] is read as the number it writes in decimal, for
    every number an [int] holds; anything else, a larger number included, is -1, and
    no intermediate product overflows. *)
Theorem filename_to_fd_exact p :
  filename_to_fd p = if decimal p && (value p <=? G_MAXINT) then value p else -1.
Proof. apply filename_to_fd_spec. Qed.

(** ** Exit statuses *)

(** How a process can change state, as [waitpid] encodes it. *)
Inductive ending :=
  | Exited_with (code : Z) | Killed_by (sig : Z) (core : bool) | Stopped_by (sig : Z) | Continued.
Definition possible (e : ending) : Prop :=
  match e with
  | Exited_with code => 0 ≤ code < 256
  | Killed_by sig _ => 1 ≤ sig ≤ 64
  | Stopped_by sig => 1 ≤ sig ≤ 64
  | Continued => True
  end.
Definition wait_status (e : ending) : Z :=
  match e with
  | Exited_with code => code * 256
  | Killed_by sig core => sig + (if core then 128 else 0)
  | Stopped_by sig => sig * 256 + 127
  | Continued => 65535
  end.

Definition ending_error (e : ending) : option gerror :=
  match e with
  | Exited_with code => if code =? 0 then None else Some (ExitCode code)
  | Killed_by sig _ => Some (KilledBy sig)
  | Stopped_by sig => Some (StoppedBy sig)
  | Continued => Some ExitedAbnormally
  end.

Lemma below_forall (P : Z → bool) n :
  forallb (λ k, P (Z.of_nat k)) (seq 0 n) = true → ∀ z, 0 ≤ z < Z.of_nat n → P z = true.
Proof.
  rewrite forallb_forall. intros H z Hz. specialize (H (Z.to_nat z)).
  rewrite in_seq, Z2Nat.id in H by lia. apply H. lia.
Qed.

#[export] Instance gerror_eq_dec : EqDecision gerror.
Proof. solve_decision. Defined.

(** The statuses are few enough to be tried. *)
Definition decoded (e : ending) : bool :=
  bool_decide (g_spawn_check_exit_status (wait_status e) = ending_error e).

Lemma decoded_all e : possible e → decoded e = true.
Proof.
  destruct e as [code|sig core|sig|]; cbn [possible]; intros H.
  - apply (below_forall (λ code, decoded (Exited_with code)) 256); [by vm_compute|lia].
  - assert (E : (sig =? 0) || decoded (Killed_by sig core) = true).
    { apply (below_forall (λ sig, (sig =? 0) || decoded (Killed_by sig core)) 65);
        [destruct core; by vm_compute|lia]. }
    destruct (Z.eqb_spec sig 0); [lia|done].
  - assert (E : (sig =? 0) || decoded (Stopped_by sig) = true).
    { apply (below_forall (λ sig, (sig =? 0) || decoded (Stopped_by sig)) 65); [by vm_compute|lia]. }
    destruct (Z.eqb_spec sig 0); [lia|done].
  - by vm_compute.
Qed.

(** [g_spawn_check_exit_status] accepts exactly a normal exit with code 0, and
    otherwise says how the process ended. *)
Theorem check_exit_status_decodes e (H : possible e) :
  g_spawn_check_exit_status (wait_status e) = ending_error e.
Proof. exact (bool_decide_eq_true_1 _ (decoded_all e H)). Qed.

Lemma check_exit_status_decodes_witness :
  g_spawn_check_exit_status (wait_status (Killed_by 11 true)) = Some (KilledBy 11).
Proof. apply (check_exit_status_decodes (Killed_by 11 true)). cbn. lia. Defined.

(** ** Bytes *)

Lemma int_round_trip z : is_int z →
  int_of_bytes (z `mod` 256) ((z / 256) `mod` 256) ((z / 65536) `mod` 256) ((z / 16777216) `mod` 256) = z.
Proof.
  unfold is_int, int_of_bytes. intros H. assert (E1 : z / 65536 = z / 256 / 256) by (rewrite Z.div_div by lia; done).
  assert (E2 : z / 16777216 = z / 256 / 256 / 256) by (rewrite !Z.div_div by lia; done).
  rewrite E1, E2. clear E1 E2.
  assert (Hq : -128 ≤ z / 256 / 256 / 256 < 128) by (Z.to_euclidean_division_equations; lia).
  assert (Hm : (z / 256 / 256 / 256) `mod` 256 =
    z / 256 / 256 / 256 + (if z / 256 / 256 / 256 <? 0 then 256 else 0)).
  { generalize dependent (z / 256 / 256 / 256). intros q Hq. case_match; [|rewrite Z.mod_small; lia].
    rewrite <- (Z.mod_add _ 1), Z.mod_small by lia. lia. }
  rewrite Hm, (Z.mod_eq z 256), (Z.mod_eq (z / 256) 256), (Z.mod_eq (z / 256 / 256) 256) by lia.
  set (q3 := z / 256 / 256 / 256) in *. set (q2 := z / 256 / 256) in *.
  set (q1 := z / 256) in *. clearbody q1 q2 q3. cbv zeta.
  destruct (Z.ltb_spec q3 0).
  - replace (_ <? _) with false; [lia|]. symmetry. apply Z.ltb_ge. lia.
  - replace (_ <? _) with true; [lia|]. symmetry. apply Z.ltb_lt. lia.
Qed.

Lemma ints_of_bytes zs : Forall is_int zs → ints_of (zs ≫= bytes_of_int) = zs.
Proof.
  induction 1 as [|z zs Hz _ IH]; [done|]. cbn [mbind list_bind bytes_of_int app ints_of].
  by rewrite int_round_trip, IH.
Qed.

(** ** Writing *)

(** Only the bytes on a pipe, [errno] and the system's answers have changed. *)
Definition wrote (p : Z) (buf : list Z) (s s' : uproc) : Prop :=
  ∃ io e m, s' = s <| u_io := io |> <| u_errno := e |> <| u_pipes := m |> ∧
    io `suffix_of` u_io s ∧
    (m = u_pipes s ∧ buf = [] ∨ m = <[p := pipe_of p s ++ buf]> (u_pipes s)).

Lemma wrote_nothing p io e s :
  io `suffix_of` u_io s → wrote p [] s (s <| u_io := io |> <| u_errno := e |>).
Proof. intros H. exists io, e, (u_pipes s). auto. Qed.

Lemma wrote_refl p s : wrote p [] s s.
Proof. exists (u_io s), (u_errno s), (u_pipes s). split_and!; [by destruct s|done|by left]. Qed.

Lemma wrote_trans p b1 b2 s s1 s2 : wrote p b1 s s1 → wrote p b2 s1 s2 → wrote p (b1 ++ b2) s s2.
Proof.
  intros (io1 & e1 & m1 & -> & L1 & H1) (io2 & e2 & m2 & -> & L2 & H2).
  exists io2, e2, m2. rs in L2. rs in H2. split_and!; [done|by etrans|].
  destruct H1 as [[-> ->]| ->]; [done|]. right.
  assert (E : pipe_of p (s <| u_io := io1 |> <| u_errno := e1 |>
    <| u_pipes := <[p := pipe_of p s ++ b1]> (u_pipes s) |>) = pipe_of p s ++ b1).
  { unfold pipe_of at 1. rs. by rewrite lookup_insert_eq. }
  rewrite E in H2. destruct H2 as [[-> ->]| ->]; [by rewrite app_nil_r|].
  by rewrite insert_insert_eq, app_assoc.
Qed.

Lemma wrote_pipe p buf s s' : wrote p buf s s' → pipe_of p s' = pipe_of p s ++ buf.
Proof.
  intros (io & e & m & -> & _ & [[-> ->]| ->]); [by rewrite app_nil_r|].
  unfold pipe_of at 1. rs. by rewrite lookup_insert_eq.
Qed.

Lemma wrote_later (P : Z → Prop) p buf s s' : P p → wrote p buf s s' → later P s s'.
Proof.
  intros HP (io & e & m & -> & Hio & Hm).
  assert (L : later P s (s <| u_io := io |> <| u_errno := e |>)).
  { eapply later_one; [apply moves_errno|]. eapply later_one; [by apply moves_io|done]. }
  destruct Hm as [[-> _]| ->]; [exact L|]. etrans; [exact L|]. apply rtc_once.
  exact (moves_pipe P (s <| u_io := io |> <| u_errno := e |>) p _ HP).
Qed.

Lemma wrote_fds p buf s s' : wrote p buf s s' → u_fds s' = u_fds s.
Proof. by intros (io & e & m & -> & _). Qed.

Lemma wp_write fd buf p b (Q : Z → uproc → Prop) s :
  u_fds s !! fd = Some (PipeWrite p, b) → buf ≠ [] →
  (∀ s', wrote p [] s s' → u_errno s' = EINTR → less_io s s' → Q (-1) s') →
  (∀ n s', wrote p (take n buf) s s' → (n ≤ length buf)%nat →
     less_io s s' ∨ n = length buf → Q (Z.of_nat n) s') →
  wp (write fd buf) Q s.
Proof.
  intros Hfd Hb HE HQ. unfold write. wp_step.
  assert (Hw : ∀ io n, io `suffix_of` u_io s →
    wrote p (take n buf) s (deliver (PipeWrite p) (take n buf) (s <| u_io := io |>))).
  { intros io n Hio. eexists io, (u_errno s), _. split; [by destruct s|]. split; [done|].
    by right. }
  apply wp_next_answer.
  - intros E. wp_go. rewrite Hfd. wp_go. apply HQ; [|lia|by right].
    specialize (Hw (u_io s) (length buf) ltac:(done)). by destruct s.
  - intros a io E. wp_go. rs. rewrite Hfd.
    assert (Hl : less_io s (s <| u_io := io |>)) by (unfold less_io; rs; rewrite E; cbn; lia).
    assert (Hle : io `suffix_of` u_io s) by (rewrite E; by exists [a]).
    assert (Hlen : ∀ n, less_io s (deliver (PipeWrite p) (take n buf) (s <| u_io := io |>))) by done.
    destruct a as [e|c].
    + destruct (Z.eqb_spec e EINTR) as [->|]; [|wp_go; apply HQ; [by apply Hw|lia|by right]].
      unfold set_uerrno. wp_go. apply HE; [|done|done]. by apply wrote_nothing.
    + wp_go. apply HQ; [by apply Hw|lia|by left].
Qed.

Lemma wp_write_all fd buf p b (Q : bool → uproc → Prop) s :
  u_fds s !! fd = Some (PipeWrite p, b) →
  (∀ s', wrote p buf s s' → Q true s') →
  wp (write_all fd buf) Q s.
Proof.
  intros Hfd HQ. unfold write_all. wp_go.
  assert (H : ∀ fuel buf' sent s1, wrote p sent s s1 → buf = sent ++ buf' →
    (length (u_io s1) < fuel)%nat ∨ buf' = [] → wp (write_all_loop fuel fd buf') Q s1);
    [|apply (H _ buf []); [apply wrote_refl|done|lia]].
  induction fuel as [|fuel IH]; intros buf' sent s1 Hw E Hf;
    (destruct buf' as [|x buf']; cbn [write_all_loop];
     [apply wp_ret, HQ; by rewrite E, app_nil_r|]); destruct Hf as [Hf|]; [lia|done| |done].
  wp_step. eapply wp_write; [by rewrite (wrote_fds _ _ _ _ Hw)|done| |].
  - intros s2 Hw2 He Hl. wp_go; [by rewrite He in *| |lia].
    apply (IH _ sent); [|done|unfold less_io in *; lia].
    rewrite <- (app_nil_r sent). by eapply wrote_trans.
  - intros n s2 Hw2 Hn Hl. wp_go; [lia..|]. rewrite Nat2Z.id.
    apply (IH _ (sent ++ take n (x :: buf'))); [by eapply wrote_trans|by rewrite <- app_assoc, take_drop|].
    destruct Hl as [Hl| ->]; [left; unfold less_io in *; lia|right; apply drop_all].
Qed.

Lemma wp_write_err {A} fd msg p b (Q : A → uproc → Prop) (E : stop → uproc → Prop) s :
  u_fds s !! fd = Some (PipeWrite p, b) →
  (∀ s', wrote p (bytes_of_int msg ++ bytes_of_int (u_errno s)) s s' →
     E Exited (s' <| u_status := 256 |>)) →
  wpx (write_err_and_exit (A := A) fd msg) Q E s.
Proof.
  intros Hfd HE. unfold write_err_and_exit. wpx_go. apply wpx_wp.
  eapply wp_write_all; [done|]. intros s1 H1. apply wpx_bind, wpx_wp.
  eapply wp_write_all; [by rewrite (wrote_fds _ _ _ _ H1)|]. intros s2 H2.
  unfold _exit. wpx_go. apply HE. by eapply wrote_trans.
Qed.

(** ** Reading *)

Lemma wp_retry_read fd n p b (Q : option (list Z) → uproc → Prop) s :
  u_fds s !! fd = Some (PipeRead p, b) → unwritten p s →
  (∀ r s', read_post p n s r s' → (r = None → u_errno s' ≠ EINTR) → Q r s') →
  wp (retry (λ r, bool_decide (r = None)) (read fd n)) Q s.
Proof.
  intros Hfd Hu HQ. apply (wp_retry (later nothing s)); [done|].
  intros s1 H1. eapply wp_read; [by rewrite (later_fds _ _ _ H1)|by eapply later_unwritten|].
  intros r s2 H2. destruct r as [buf|]; cbn [read_post] in H2.
  - split; [intros Hf; by apply bool_decide_eq_true in Hf|]. intros _.
    destruct H2 as (Hl & Hlen & Ht & Hend). apply HQ; [|done].
    split; [etrans; [by apply later_any|done]|]. split_and!; [done| |done].
    intros Hs. rewrite <- Ht by (by eapply later_sole). symmetry.
    apply (later_total _ p _ _ H1); [by intros []|done].
  - destruct H2 as [Hl Hr]. split; [intros _; split; [by etrans|by destruct Hr]|].
    intros [|He]; [done|]. apply HQ; [|done]. split; [by etrans|by eapply less_refused].
Qed.

(** Reading to the end of a pipe that nobody writes any more, or to the end of the
    buffer. *)
Lemma wp_read_ints_loop fd n p b fuel : ∀ bytes (Q : option (list Z) → uproc → Prop) s,
  u_fds s !! fd = Some (PipeRead p, b) → unwritten p s → unheld p s → (n ≤ 2)%nat →
  (length bytes ≤ 4 * n)%nat → (8 < fuel + length bytes)%nat →
  (∀ s', later (eq p) s s' → ¬ calm s → Q None s') →
  (∀ s', later (eq p) s s' → Q (Some (take (4 * n) (bytes ++ pipe_of p s))) s') →
  wp (read_ints_loop fuel fd n bytes) Q s.
Proof.
  induction fuel as [|fuel IH]; intros bytes Q s Hfd Hw Hu Hn Hb Hf Hnone Hsome; [lia|].
  cbn [read_ints_loop]. apply wp_if; [intros Hfull%Nat.leb_le|intros _].
  { apply wp_ret. assert (length bytes = 4 * n)%nat as E by lia. specialize (Hsome s).
    rewrite <- E, take_app_length in Hsome. by apply Hsome. }
  wp_step. eapply wp_retry_read; [done..|]. intros [buf|] s1 H1 He; cbn [read_post] in H1.
  - destruct H1 as (Hl & Hlen & Ht & Hend). specialize (Ht (unheld_sole _ _ Hu)).
    assert (Hu1 : unheld p s1) by by eapply later_unheld.
    rewrite !unheld_total in Ht by done.
    destruct buf as [|x buf].
    + apply wp_ret. specialize (Hsome s1 Hl). destruct (decide (4 * n - length bytes = 0)%nat) as [E|E].
      * replace (4 * n)%nat with (length bytes) in Hsome by lia. by rewrite take_app_length in Hsome.
      * destruct (Hend E eq_refl) as [Hend' _]. rewrite unheld_total in Hend' by done.
        rewrite Ht, Hend', app_nil_r in Hsome. by rewrite take_ge in Hsome by lia.
    + apply IH; [by rewrite (later_fds _ _ _ Hl)|by eapply later_unwritten|done|done
        |rewrite length_app; lia|rewrite length_app; cbn; lia| |].
      * intros s2 H2 Hc. apply Hnone; [by etrans|]. intros Hc'. by eapply Hc, later_calm.
      * intros s2 H2. rewrite <- app_assoc, <- Ht. apply Hsome. by etrans.
  - destruct H1 as [Hl [_ Hr]]. apply wp_ret, Hnone; [by apply later_any|].
    intros Hc. by apply (He eq_refl), Hc.
Qed.

Lemma wp_read_ints fd n p b (Q : gerror + list Z → uproc → Prop) s :
  u_fds s !! fd = Some (PipeRead p, b) → unwritten p s → unheld p s → (n ≤ 2)%nat →
  (∀ e s', later (eq p) s s' → ¬ calm s → Q (inl (ReadPipeFailed e)) s') →
  (∀ s', later (eq p) s s' → Q (inr (ints_of (take (4 * n) (pipe_of p s)))) s') →
  wp (read_ints fd n) Q s.
Proof.
  intros Hfd Hw Hu Hn HE HQ. unfold read_ints. wp_step.
  eapply wp_read_ints_loop; [done..|cbn; lia|cbn; lia| |].
  - intros s1 H1 Hc. wp_go. by apply HE.
  - intros s1 H1. wp_go. by apply HQ.
Qed.

(** C35: What a child that could not start its program reports before it exits, the
    kind of failure and [errno], is what the parent reads, however the writes and the
    reads are cut up and interrupted. *)
Theorem error_report_round_trip fd msg p b fd1 b1 s s1
    (Hfd : u_fds s !! fd = Some (PipeWrite p, b)) (Hempty : pipe_of p s = [])
    (Hmsg : is_int msg) (Herrno : is_int (u_errno s))
    (Hfd1 : u_fds s1 !! fd1 = Some (PipeRead p, b1)) (Hclosed : unwritten p s1 ∧ unheld p s1)
    (Hcalm : calm s1) :
  wpx (write_err_and_exit (A := ()) fd msg) (λ _ _, False)
    (λ w c, w = Exited ∧
       (pipe_of p s1 = pipe_of p c →
        wp (read_ints fd1 2) (λ r _, r = inr [msg; u_errno s]) s1)) s.
Proof.
  eapply wp_write_err; [done|]. intros s' Hw'%wrote_pipe. split; [done|].
  change (pipe_of p (s' <| u_status := 256 |>)) with (pipe_of p s').
  rewrite Hw', Hempty. cbn [app]. intros Hs1.
  destruct Hclosed as [Hw Hu]. eapply wp_read_ints; [done..| |]; [done|].
  intros s2 _. rewrite Hs1. rewrite take_ge by done.
  pose proof (ints_of_bytes [msg; u_errno s]) as E. cbn [mbind list_bind] in E.
  rewrite app_nil_r in E. rewrite E; [done|].
  apply Forall_cons_2; [done|]. by apply Forall_cons_2.
Qed.

(** ** Redirecting *)

(** The table after [dup2]. *)
Definition redirected (fd1 fd2 : Z) (t : fdtable) : fdtable :=
  match t !! fd1 with
  | Some v => if fd1 =? fd2 then t else <[fd2 := (v.1, false)]> t
  | None => t
  end.

(** An answer that refuses a call that is retried. *)
Lemma wp_retry_refused {A} (failed : A → bool) (bad : A) e (Q : A → uproc → Prop) s s1 s2 :
  failed bad = true → later nothing s s1 → later nothing s1 s2 → refused e s1 s2 →
  (∀ s', later nothing s s' → ¬ calm s → Q bad s') →
  wp (set_uerrno e;; mret bad) (λ r s',
    (failed r = true → later nothing s s' ∧ less_io s1 s') ∧
    (failed r = false ∨ u_errno s' ≠ EINTR → Q r s')) s2.
Proof.
  intros Hb H1 H2 Hr HE. eapply wp_failed; [exact H2|exact Hr|]. intros s3 H3 [Hl Hin] He.
  assert (H03 : later nothing s s3) by (etrans; [exact H1|exact H3]).
  split; [by intros _|]. intros [|Hne]; [congruence|]. apply HE; [done|]. intros Hc. apply Hne. rewrite He.
  exact (Hc _ (later_answers _ _ _ _ H1 Hin)).
Qed.

Definition refusal (a : option answer) : option Z :=
  match a with Some (Err e) => Some e | _ => None end.

Lemma wp_sane_dup2 fd1 fd2 v (Q : Z → uproc → Prop) s :
  u_fds s !! fd1 = Some v → 0 ≤ fd2 →
  (∀ s', later nothing s s' → ¬ calm s → Q (-1) s') →
  (∀ s1, later nothing s s1 → Q fd2 (s1 <| u_fds := redirected fd1 fd2 (u_fds s) |>)) →
  wp (sane_dup2 fd1 fd2) Q s.
Proof.
  intros Hfd H0 HE HQ. apply (wp_retry (later nothing s)); [done|]. intros s1 H1.
  unfold dup2. wp_step. apply wp_answer. intros a s2 H2 Ha.
  assert (H12 : later nothing s s2) by by etrans.
  destruct (refusal a) as [e|] eqn:Ea.
  - destruct a as [[e'|]|]; [injection Ea as ->|done..].
    eapply (wp_retry_refused (λ r, r <? 0)); [done|exact H1|exact H2|by apply Ha|done].
  - destruct a as [[|]|]; [done|..]; clear Ea; wp_go; rewrite (later_fds _ _ _ H12), Hfd; destruct v as [f c];
      wp_go; (split; [intros Hf; lia|intros _]).
    all: specialize (HQ s2 H12); unfold redirected in HQ; rewrite Hfd in HQ; cbn [fst] in HQ.
    all: destruct (Z.eqb_spec fd1 fd2); try done.
    all: rewrite (later_fds _ _ _ H12) || rewrite <- (later_fds _ _ _ H12) in HQ; by destruct s2.
Qed.

Lemma wp_sane_open f c (Q : Z → uproc → Prop) s :
  (∀ s', later nothing s s' → ¬ calm s → Q (-1) s') →
  (∀ s1, later nothing s s1 →
     Q (lowest_free (u_fds s)) (s1 <| u_fds := <[lowest_free (u_fds s) := (f, c)]> (u_fds s) |>)) →
  wp (sane_open f c) Q s.
Proof.
  intros HE HQ. apply (wp_retry (later nothing s)); [done|]. intros s1 H1.
  unfold open_file. wp_step. apply wp_answer. intros a s2 H2 Ha.
  assert (H12 : later nothing s s2) by by etrans.
  destruct (refusal a) as [e|] eqn:Ea.
  - destruct a as [[e'|]|]; [injection Ea as ->|done..].
    eapply (wp_retry_refused (λ r, r <? 0)); [done|exact H1|exact H2|by apply Ha|done].
  - destruct a as [[|]|]; [done|..]; clear Ea; apply wp_new_fd; intros fd ->;
      (split; [intros Hf; pose proof (lowest_free_spec (u_fds s2)); lia|intros _]);
      rewrite (later_fds _ _ _ H12); by apply HQ.
Qed.
