(* ===== verification/GSpawnChild.v ===== *)
(** The child of gspawn.c between [fork] and [execve]: [set_cloexec], [fdwalk] and
    [do_exec].

    The reference is a function on tables of descriptors: what [do_exec] makes of the
    table it starts with, and so what the new program finds open. *)
From S2P Require Import Prelude Nptl Unix GExecute GSpawnIo.

Implicit Types s : uproc.

(** The kinds of failure a child reports. *)
Definition CHILD_CHDIR_FAILED := 0.
Definition CHILD_EXEC_FAILED := 1.
Definition CHILD_DUP2_FAILED := 2.
Definition CHILD_FORK_FAILED := 3.

Section Child.
Context `{!System, !GLib}.

Definition set_cloexec (data fd : Z) : M uproc Z :=
  when (fd >=? data) (fcntl_cloexec fd);; mret 0.

(** The entries of one read of the directory: the [break] leaves only these. *)
Fixpoint walk_entries (cb : Z → M uproc Z) (dir_fd res : Z) (names : list str) : M uproc Z :=
  match names with
  | [] => mret res
  | d_name :: names =>
      let fd := filename_to_fd d_name in
      if (fd <? 0) || (fd =? dir_fd) then walk_entries cb dir_fd res names
      else
        res ← cb fd;
        if negb (res =? 0) then mret res else walk_entries cb dir_fd res names
  end.
Fixpoint walk_directory (cb : Z → M uproc Z) (dir_fd res : Z) (reads : list (list str)) :
    M uproc Z :=
  match reads with
  | [] => mret res
  | names :: reads => res ← walk_entries cb dir_fd res names; walk_directory cb dir_fd res reads
  end.
(** [for (fd = first; n more; fd++)] *)
Fixpoint walk_all (cb : Z → M uproc Z) (n : nat) (fd : Z) : M uproc Z :=
  match n with
  | O => mret 0
  | S n => res ← cb fd; if negb (res =? 0) then mret res else walk_all cb n (fd + 1)
  end.

Definition PROC_SELF_FD := Other (-1).

Definition fdwalk (cb : Z → M uproc Z) : M uproc Z :=
  dir_fd ← open_file PROC_SELF_FD false;
  if dir_fd >=? 0 then
    t ← gets u_fds;
    res ← walk_directory cb dir_fd 0 (sys_proc_fd t);
    close dir_fd;;
    mret res
  else
    let open_max := match sys_rlim_max with Some m => to_int m | None => sys_open_max end in
    walk_all cb (Z.to_nat open_max) 0.

(** [chdir] when a directory is given; 0 otherwise. *)
Definition chdir_to (working_directory : option str) : M uproc Z :=
  match working_directory with Some dir => chdir dir | None => mret 0 end.

(** One standard descriptor: from [fd] when one is given, from the null device when
    [to_null]; [checked] says that the opening of the null device is asserted. *)
Definition redirect (child_err_report_fd fd std : Z) (to_null checked : bool) (null : file) :
    M uproc () :=
  if fd >=? 0 then
    r ← sane_dup2 fd std;
    when (r <? 0) (write_err_and_exit child_err_report_fd CHILD_DUP2_FAILED);;
    set_cloexec 0 fd;;
    mret ()
  else when to_null
    (null_fd ← sane_open null false;
     when checked (assert (negb (null_fd =? -1)));;
     sane_dup2 null_fd std;;
     close_and_invalidate null_fd;;
     mret ()).

(** What the caller of the functions that start a program asks for. *)
Record request := mkRequest {
  working_directory : option str;
  argv : list str;
  envp : option (list str);
  close_descriptors : bool;
  search_path : bool;
  search_path_from_envp : bool;
  stdout_to_null : bool;
  stderr_to_null : bool;
  child_inherits_stdin : bool;
  file_and_argv_zero : bool;
  child_setup : option (M uproc ());
}.

Definition argv_pass (rq : request) : list str :=
  if file_and_argv_zero rq then tail (argv rq) else argv rq.

Definition do_exec (child_err_report_fd stdin_fd stdout_fd stderr_fd : Z) (rq : request) :
    M uproc () :=
  r ← chdir_to (working_directory rq);
  when (r <? 0) (write_err_and_exit child_err_report_fd CHILD_CHDIR_FAILED);;
  (if close_descriptors rq then fdwalk (set_cloexec 3)
   else set_cloexec 0 child_err_report_fd);;
  redirect child_err_report_fd stdin_fd 0 (negb (child_inherits_stdin rq)) true NullRead;;
  redirect child_err_report_fd stdout_fd 1 (stdout_to_null rq) true NullWrite;;
  redirect child_err_report_fd stderr_fd 2 (stderr_to_null rq) false NullWrite;;
  match child_setup rq with Some f => f | None => mret () end;;
  file ← from_option_or Fault (head (argv rq));
  g_execute file (argv_pass rq) (envp rq) (search_path rq) (search_path_from_envp rq);;
  write_err_and_exit child_err_report_fd CHILD_EXEC_FAILED.
End Child.

(** * Tables *)

(** Closed on [execve]: every descriptor from [low] on. *)
Definition marked (low : Z) (t : fdtable) : fdtable :=
  map_imap (λ fd v, Some (v.1, v.2 || (low <=? fd))) t.
Definition mark_one (fd : Z) (t : fdtable) : fdtable :=
  alter (λ v : file * bool, (v.1, true)) fd t.

Definition redirected_std (fd std : Z) (to_null : bool) (null : file) (t : fdtable) : fdtable :=
  if fd >=? 0 then mark_one fd (redirected fd std t)
  else if to_null then <[std := (null, false)]> t else t.

(** The descriptors of the new program. *)
Definition prepared (child_err_report_fd stdin_fd stdout_fd stderr_fd : Z) (rq : request)
    (t : fdtable) : fdtable :=
  let t := if close_descriptors rq then marked 3 t else mark_one child_err_report_fd t in
  redirected_std stderr_fd 2 (stderr_to_null rq) NullWrite
    (redirected_std stdout_fd 1 (stdout_to_null rq) NullWrite
      (redirected_std stdin_fd 0 (negb (child_inherits_stdin rq)) NullRead t)).

Lemma marked_lookup low t fd :
  marked low t !! fd = (λ v : file * bool, (v.1, v.2 || (low <=? fd))) <$> t !! fd.
Proof. unfold marked. rewrite map_lookup_imap. by destruct (t !! fd). Qed.

Lemma mark_one_lookup fd t k :
  mark_one fd t !! k = if decide (k = fd) then (λ v : file * bool, (v.1, true)) <$> t !! k else t !! k.
Proof. unfold mark_one. case_decide as E; [subst; apply lookup_alter_eq|by apply lookup_alter_ne]. Qed.

Lemma mark_one_insert fd t f c : t !! fd = Some (f, c) → mark_one fd t = <[fd := (f, true)]> t.
Proof.
  intros E. apply map_eq. intros k. rewrite mark_one_lookup. case_decide as Hk.
  - subst. by rewrite E, lookup_insert_eq.
  - by rewrite lookup_insert_ne.
Qed.

(** Marking the descriptors of a list that are at least [low]. *)
Definition mark_list (low : Z) (fds : list Z) (t : fdtable) : fdtable :=
  foldl (λ t fd, if low <=? fd then mark_one fd t else t) t fds.

Lemma mark_list_lookup low fds t k :
  mark_list low fds t !! k =
    if bool_decide (k ∈ fds) && (low <=? k) then (λ v : file * bool, (v.1, true)) <$> t !! k else t !! k.
Proof.
  revert t. induction fds as [|fd fds IH]; intros t; [done|]. 
  change (mark_list low (fd :: fds) t)
    with (mark_list low fds (if low <=? fd then mark_one fd t else t)).
  rewrite IH. clear IH.
  rewrite (bool_decide_ext (k ∈ fd :: fds) (k = fd ∨ k ∈ fds)) by apply elem_of_cons.
  destruct (decide (k = fd)) as [->|Hne].
  - rewrite (bool_decide_true (fd = fd ∨ fd ∈ fds)) by by left. cbn [andb].
    destruct (Z.leb_spec low fd); rewrite ?andb_true_r, ?andb_false_r; [|done].
    rewrite mark_one_lookup, decide_True by done. by case_bool_decide; destruct (t !! fd) as [[f c]|].
  - rewrite (bool_decide_ext (k = fd ∨ k ∈ fds) (k ∈ fds)) by naive_solver.
    destruct (low <=? fd); [|done]. by rewrite mark_one_lookup, decide_False.
Qed.

(** What is known of the system: [/proc/self/fd] lists, in decimal, the descriptors
    that are open; the errors of [execve] are error numbers. *)
Class SystemLaws `{!System} := {
  proc_fd_lists t fd : is_Some (t !! fd) → 0 ≤ fd ≤ G_MAXINT →
    ∃ name, name ∈ mjoin (sys_proc_fd t) ∧ decimal name = true ∧ value name = fd;
  exec_errors im e : sys_exec im = Some e → 0 < e < 4096;
}.

Definition open_limit `{!System} : Z :=
  match sys_rlim_max with Some m => to_int m | None => sys_open_max end.

(** Descriptors are numbers within the limit. *)
Definition table_ok `{!System} (t : fdtable) : Prop :=
  ∀ fd, is_Some (t !! fd) → 0 ≤ fd ≤ G_MAXINT ∧ fd < open_limit.

Section ChildProofs.
Context {Sys : System} {Gl : GLib} {Laws : SystemLaws}.

Lemma wp_set_cloexec low fd (Q : Z → uproc → Prop) s :
  (∀ s', retabled (if low <=? fd then mark_one fd (u_fds s) else u_fds s) s s' → Q 0 s') →
  wp (set_cloexec low fd) Q s.
Proof.
  intros HQ. unfold set_cloexec, fcntl_cloexec. wp_step. rewrite Z.geb_leb in *.
  destruct (low <=? fd); wp_go; [|by apply HQ, later_retabled].
  destruct (u_fds s !! fd) as [[f c]|] eqn:E; unfold set_uerrno; wp_go; apply HQ.
  - rewrite (mark_one_insert _ _ _ _ E). by apply set_fds_retabled.
  - split; [|rs; apply map_eq; intros k; rewrite mark_one_lookup; case_decide; [subst; by rewrite E|done]].
    eapply later_one; [|done]. exact (moves_errno nothing s EBADF).
Qed.

(** The descriptors named in the directory, the directory's own left out. *)
Definition listed (dir_fd : Z) (names : list str) : list Z :=
  List.filter (λ fd, negb ((fd <? 0) || (fd =? dir_fd))) (filename_to_fd <$> names).

Lemma wp_walk_entries low dir_fd names : ∀ (Q : Z → uproc → Prop) s,
  (∀ s', retabled (mark_list low (listed dir_fd names) (u_fds s)) s s' → Q 0 s') →
  wp (walk_entries (set_cloexec low) dir_fd 0 names) Q s.
Proof.
  induction names as [|name names IH]; intros Q s HQ; cbn [walk_entries].
  { apply wp_ret, HQ. by apply later_retabled. }
  unfold listed in HQ. cbn [fmap list_fmap List.filter] in HQ.
  destruct ((filename_to_fd name <? 0) || (filename_to_fd name =? dir_fd)); [by apply IH|].
  wp_step. apply wp_set_cloexec. intros s1 H1. cbn [negb Z.eqb]. apply IH. intros s2 H2. apply HQ.
  eapply retabled_trans; [exact H1|]. destruct H1 as [_ E1]. rewrite E1 in H2. exact H2.
Qed.

Lemma wp_walk_directory low dir_fd reads : ∀ (Q : Z → uproc → Prop) s,
  (∀ s', retabled (mark_list low (listed dir_fd (mjoin reads)) (u_fds s)) s s' → Q 0 s') →
  wp (walk_directory (set_cloexec low) dir_fd 0 reads) Q s.
Proof.
  induction reads as [|names reads IH]; intros Q s HQ; cbn [walk_directory].
  { apply wp_ret, HQ. by apply later_retabled. }
  wp_step. apply wp_walk_entries. intros s1 H1. apply IH. intros s2 H2. apply HQ.
  eapply retabled_trans; [exact H1|]. destruct H1 as [_ E1]. rewrite E1 in H2.
  cbn [mjoin list_join]. unfold listed in *. rewrite fmap_app, List.filter_app. unfold mark_list in *.
  by rewrite foldl_app.
Qed.

Lemma wp_walk_all low n : ∀ first (Q : Z → uproc → Prop) s,
  (∀ s', retabled (mark_list low ((λ k, first + Z.of_nat k) <$> seq 0 n) (u_fds s)) s s' → Q 0 s') →
  wp (walk_all (set_cloexec low) n first) Q s.
Proof.
  induction n as [|n IH]; intros first Q s HQ; cbn [walk_all].
  { apply wp_ret, HQ. by apply later_retabled. }
  wp_step. apply wp_set_cloexec. intros s1 H1. cbn [negb Z.eqb]. apply IH. intros s2 H2. apply HQ.
  eapply retabled_trans; [exact H1|]. destruct H1 as [_ E1]. rewrite E1 in H2.
  assert (E : (λ k, first + Z.of_nat k) <$> seq 1 n = (λ k, first + 1 + Z.of_nat k) <$> seq 0 n).
  { rewrite <- fmap_S_seq, <- list_fmap_compose. apply list_fmap_ext. intros. cbn. lia. }
  cbn [seq]. rewrite fmap_cons, E, Z.add_0_r. exact H2.
Qed.

Lemma listed_name dir_fd names fd :
  fd ≠ dir_fd → 0 ≤ fd ≤ G_MAXINT →
  (∃ name, name ∈ names ∧ decimal name = true ∧ value name = fd) → fd ∈ listed dir_fd names.
Proof.
  intros Hd Hfd (name & Hin & Hdec & Hval). unfold listed.
  apply list_elem_of_In, filter_In. split.
  - apply list_elem_of_In, list_elem_of_fmap. exists name. split; [|done].
    rewrite filename_to_fd_spec, Hdec, Hval. cbn [andb]. by destruct (Z.leb_spec fd G_MAXINT); [|lia].
  - destruct (Z.ltb_spec fd 0), (Z.eqb_spec fd dir_fd); done || lia.
Qed.

Lemma mark_listed t t1 fds low :
  (∀ k, is_Some (t !! k) → low ≤ k → k ∈ fds) → (∀ k, is_Some (t !! k) → t1 !! k = t !! k) →
  ∀ k, is_Some (t !! k) → mark_list low fds t1 !! k = marked low t !! k.
Proof.
  intros Hin Ht k Hk. rewrite mark_list_lookup, marked_lookup, Ht by done.
  destruct Hk as [[f c] Hk]. rewrite Hk. destruct (Z.leb_spec low k).
  - rewrite bool_decide_true by (by apply Hin). cbn. by rewrite orb_true_r.
  - rewrite andb_false_r. cbn. by rewrite orb_false_r.
Qed.

Lemma wp_fdwalk low (Q : Z → uproc → Prop) s :
  table_ok (u_fds s) →
  (∀ r s', retabled (marked low (u_fds s)) s s' → Q r s') →
  wp (fdwalk (set_cloexec low)) Q s.
Proof.
  intros Hok HQ. unfold fdwalk, open_file. wp_step. wp_step. apply wp_answer. intros a s1 H1 Ha.
  pose proof (later_fds _ _ _ H1) as E1.
  destruct (refusal a) as [e|] eqn:Er.
  - destruct a as [[e'|]|]; [|done..]. unfold set_uerrno. wp_go; [done|].
    apply wp_walk_all. rs. rewrite E1. intros s2 [H2 E2]. apply HQ. split.
    + etrans; [exact H1|]. etrans; [apply rtc_once, (moves_errno _ _ e')|]. rs in H2.
      rewrite <- E1. exact H2.
    + rewrite E2. apply map_eq. intros k. destruct (u_fds s !! k) as [v|] eqn:Ek.
      * apply mark_listed; [|done|by eauto]. intros k' Hk' _.
        apply Hok in Hk' as [? ?]. apply list_elem_of_fmap. exists (Z.to_nat k').
        rewrite elem_of_seq. unfold open_limit in *. lia.
      * rewrite mark_list_lookup, marked_lookup, Ek. by destruct (_ && _).
  - assert (Hnew : ∀ d s2, d = lowest_free (u_fds s) →
      retabled (<[d := (PROC_SELF_FD, false)]> (u_fds s)) s s2 →
      wp (t ← gets u_fds; res ← walk_directory (set_cloexec low) d 0 (sys_proc_fd t); close d;; mret res) Q s2).
    { intros d s2 -> H2. pose proof (lowest_free_spec (u_fds s)) as (_ & Hd & _).
      set (d := lowest_free (u_fds s)) in *. wp_go. apply wp_walk_directory. intros s3 H3.
      unfold close. wp_go. apply HQ. destruct H2 as [H2 E2]. rewrite E2 in H3.
      assert (H13 := retabled_trans _ _ _ _ _ (conj H2 E2) H3). destruct H13 as [H13 E3].
      split; [exact H13|]. rs. rewrite E3. apply map_eq. intros k.
      destruct (decide (k = d)) as [->|Hk].
      { by rewrite lookup_delete_eq, marked_lookup, Hd. }
      rewrite lookup_delete_ne by done. destruct (u_fds s !! k) as [v|] eqn:Ek.
      - apply mark_listed; [| |by eauto].
        + intros k' Hk' _. pose proof (Hok k' Hk') as [Hr _].
          assert (k' ≠ d) by (intros ->; rewrite Hd in Hk'; by destruct Hk').
          apply listed_name; [done..|]. apply proc_fd_lists; [|done]. by rewrite lookup_insert_ne.
        + intros k' Hk'. apply lookup_insert_ne. intros ->. rewrite Hd in Hk'. by destruct Hk'.
      - rewrite mark_list_lookup, marked_lookup, lookup_insert_ne, Ek by done. by destruct (_ && _). }
    pose proof (lowest_free_spec (u_fds s)) as (Hpos & _).
    destruct a as [[|]|]; [done|..]; apply wp_new_fd; rewrite E1; intros d ->; cbn beta;
      (apply wp_if; [intros _|rewrite Z.geb_leb; intros Hn; lia]);
      (apply (Hnew (lowest_free (u_fds s))); [done|by apply set_fds_retabled]).
Qed.

(** ** Redirection *)

Definition std_open (t : fdtable) : Prop := ∀ i, 0 ≤ i ≤ 2 → is_Some (t !! i).
(** No descriptor, or an open one that is not standard. *)
Definition given (fd : Z) (t : fdtable) : Prop := fd < 0 ∨ (3 ≤ fd ∧ is_Some (t !! fd)).
Definition err_end (p fd : Z) (t : fdtable) : Prop :=
  3 ≤ fd ∧ ∃ b, t !! fd = Some (PipeWrite p, b).

Lemma redirected_high fd std to_null null t k :
  0 ≤ std ≤ 2 → 3 ≤ k → ∃ b : bool, redirected_std fd std to_null null t !! k =
    (λ v : file * bool, (v.1, v.2 || b)) <$> t !! k.
Proof.
  intros Hstd Hk. unfold redirected_std, redirected.
  assert (Hid : ∃ b : bool, t !! k = (λ v : file * bool, (v.1, v.2 || b)) <$> t !! k).
  { exists false. destruct (t !! k) as [[f c]|]; [|done]. cbn. by rewrite orb_false_r. }
  assert (Hins : ∀ v, <[std := v]> t !! k = t !! k) by (intros; apply lookup_insert_ne; lia).
  destruct (fd >=? 0).
  - rewrite mark_one_lookup. case_decide as E.
    + exists true. destruct (t !! fd) as [v|]; [destruct (fd =? std)|]; rewrite ?Hins;
        destruct (t !! k) as [[f c]|]; cbn; by rewrite ?orb_true_r.
    + destruct (t !! fd) as [v|]; [destruct (fd =? std)|]; by rewrite ?Hins.
  - destruct to_null; by rewrite ?Hins.
Qed.

Lemma redirected_low fd std to_null null t k :
  is_Some (t !! k) → is_Some (redirected_std fd std to_null null t !! k).
Proof.
  intros Hk. unfold redirected_std, redirected.
  assert (Hins : ∀ v, is_Some (<[std := v]> t !! k)).
  { intros v. destruct (decide (k = std)) as [->|]; [by rewrite lookup_insert_eq|by rewrite lookup_insert_ne]. }
  destruct (fd >=? 0).
  - rewrite mark_one_lookup.
    assert (is_Some (match t !! fd with
      | Some v => if fd =? std then t else <[std := (v.1, false)]> t | None => t end !! k)) as [x Hx].
    { destruct (t !! fd) as [v|]; [destruct (fd =? std)|]; auto. }
    rewrite Hx. case_decide; cbn; eauto.
  - destruct to_null; auto.
Qed.

(** A child that could not go on: it reported a failure and exited. *)
Definition reported (p msg e : Z) (s c : uproc) : Prop :=
  ∃ s1 s2, system_later s s1 ∧ wrote p (bytes_of_int msg ++ bytes_of_int e) s1 s2 ∧
    c = s2 <| u_status := 256 |>.

Lemma reported_system p msg e s s1 c : system_later s s1 → reported p msg e s1 c → reported p msg e s c.
Proof. intros H (s2 & s3 & H2 & H3 & ->). exists s2, s3. split_and!; [by eapply system_later_trans|done..]. Qed.

Lemma wpx_report {A} msg fd p b (Q : A → uproc → Prop) (E : stop → uproc → Prop) s s1 :
  system_later s s1 → u_fds s1 !! fd = Some (PipeWrite p, b) →
  (∀ c, reported p msg (u_errno s1) s c → E Exited c) →
  wpx (write_err_and_exit fd msg) Q E s1.
Proof.
  intros Hs Hfd HE. eapply wp_write_err; [done|]. intros s2 H2. apply HE. by exists s1, s2.
Qed.

(** What is opened at the lowest free descriptor, moved to a standard one and closed
    again leaves only the standard one. *)
Lemma moved_away (t : fdtable) n std v :
  t !! n = None → n ≠ std → delete n (<[std := v]> (<[n := v]> t)) = <[std := v]> t.
Proof.
  intros Hn Hne. rewrite delete_insert_ne by done. by rewrite delete_insert_eq, delete_id.
Qed.

Lemma std_lowest t : std_open t → 3 ≤ lowest_free t.
Proof.
  intros Ho. pose proof (lowest_free_spec t) as (Hp & Hn & _).
  destruct (decide (lowest_free t ≤ 2)); [|lia]. destruct (Ho (lowest_free t)) as [v Hv]; [lia|congruence].
Qed.

(** The results for the null device are not all checked: it must not be refused. *)
Lemma wpx_redirect err fd std to_null checked null p (Q : () → uproc → Prop) (E : stop → uproc → Prop) s :
  err_end p err (u_fds s) → 0 ≤ std ≤ 2 → std_open (u_fds s) → given fd (u_fds s) →
  0 ≤ fd ∨ to_null = false ∨ calm s →
  (∀ s', retabled (redirected_std fd std to_null null (u_fds s)) s s' → Q () s') →
  (∀ e c, ¬ calm s → reported p CHILD_DUP2_FAILED e s c → E Exited c) →
  wpx (redirect err fd std to_null checked null) Q E s.
Proof.
  intros [Herr [b Hb]] Hstd Hopen Hgiven Hck HQ HE. unfold redirect.
  unfold redirected_std in HQ. destruct (Z.geb_spec fd 0) as [H0|H0].
  - destruct Hgiven as [|[Hfd [v Hv]]]; [lia|]. wpx_step.
    apply wpx_wp. eapply wp_sane_dup2; [done|lia| |].
    + intros s1 H1 Hc. wpx_step. cbn [when Z.ltb Z.compare].
      eapply wpx_report; [by apply later_system|by rewrite (later_fds _ _ _ H1)|]. intros c. by apply HE.
    + intros s1 H1. wpx_step. unfold when. destruct (Z.ltb_spec std 0); [lia|]. wpx_go.
      apply wpx_wp, wp_set_cloexec. rs. intros s2 H2. wpx_go. apply HQ.
      eapply retabled_trans; [by apply set_fds_retabled|].
      destruct (Z.leb_spec 0 fd); [done|lia].
  - unfold when at 1. destruct to_null; [|by apply wpx_ret, HQ, later_retabled].
    destruct Hck as [|[|Hc]]; [lia|done|]. pose proof (std_lowest _ Hopen) as H3.
    pose proof (lowest_free_spec (u_fds s)) as (_ & Hn & _). set (n := lowest_free (u_fds s)) in *.
    wpx_step. apply wpx_wp, wp_sane_open; [done|]. fold n. intros s1 H1. cbn beta.
    wpx_step. apply wpx_wp. unfold when.
    assert (Ha : (n =? -1) = false) by lia. rewrite Ha.
    assert (Hwhen : ∀ (P : () → uproc → Prop) s', P () s' →
      wp (if checked then assert (negb false) else mret ()) P s') by (by destruct checked).
    apply Hwhen. clear Hwhen. wpx_step. apply wpx_wp.
    eapply (wp_sane_dup2 _ _ (null, false)); [rs; apply lookup_insert_eq|lia| |].
    + intros s2 _ Hn2. exfalso. apply Hn2. by apply (later_calm _ _ _ H1).
    + intros s2 H2. rs. unfold redirected. rewrite lookup_insert_eq. destruct (Z.eqb_spec n std); [lia|].
      unfold close_and_invalidate, close. wpx_step. wpx_step; [lia|]. wpx_go. apply HQ.
      eapply retabled_trans; [by apply (set_fds_retabled (<[n := (null, false)]> (u_fds s)) s s1)|].
      rs. cbn [fst]. rewrite moved_away by done. by apply set_fds_retabled.
Qed.

Lemma redirected_std_keeps fd std to_null null t p err :
  0 ≤ std ≤ 2 → err_end p err t → std_open t →
  err_end p err (redirected_std fd std to_null null t) ∧ std_open (redirected_std fd std to_null null t).
Proof.
  intros Hstd [He [b Hb]] Hopen. split; [|intros i Hi; by apply redirected_low, Hopen].
  split; [done|]. destruct (redirected_high fd std to_null null t err Hstd He) as [b' ->].
  rewrite Hb. by eexists.
Qed.

Lemma given_redirected fd fd' std to_null null t :
  given fd t → given fd (redirected_std fd' std to_null null t).
Proof. intros [|[H3 Hfd]]; [by left|right]. split; [done|]. by apply redirected_low. Qed.

(** ** The child *)

(** What the descriptors a child starts from must be. *)
Record startable (p err stdin_fd stdout_fd stderr_fd : Z) (t : fdtable) : Prop := {
  st_err : err_end p err t;
  st_std : std_open t;
  st_ok : table_ok t;
  st_in : given stdin_fd t;
  st_out : given stdout_fd t;
  st_errout : given stderr_fd t;
}.

(** [child_setup] leaves the descriptors alone. *)
Definition harmless (rq : request) : Prop :=
  ∀ f s, child_setup rq = Some f → wp f (λ _ s', later nothing s s') s.

(** Nothing is sent to the null device, unless nothing goes wrong. *)
Definition null_safe (stdin_fd stdout_fd stderr_fd : Z) (rq : request) (s : uproc) : Prop :=
  calm s ∨ ((0 ≤ stdin_fd ∨ child_inherits_stdin rq = true) ∧
            (0 ≤ stdout_fd ∨ stdout_to_null rq = false) ∧
            (0 ≤ stderr_fd ∨ stderr_to_null rq = false)).

(** The search for the program, in the state [do_exec] prepares. *)
Definition search_result (err stdin_fd stdout_fd stderr_fd : Z) (rq : request) (file : str) (s : uproc) :
    (image + Z) * list image :=
  resolve (argv_pass rq) (envp rq)
    (s <| u_fds := prepared err stdin_fd stdout_fd stderr_fd rq (u_fds s) |>
       <| u_cwd := match working_directory rq with Some dir => Some dir | None => u_cwd s end |>)
    false (candidates (envp rq) file (search_path rq) (search_path_from_envp rq)).

(** How a child ends: it is the program, or it reported why it is not. *)
Definition launched (p err stdin_fd stdout_fd stderr_fd : Z) (rq : request) (file : str) (s : uproc)
    (w : stop) (c : uproc) : Prop :=
  let r := (search_result err stdin_fd stdout_fd stderr_fd rq file s).1 in
  match w with
  | Replaced => ∃ im, r = inl im ∧ u_exec c = Some im ∧ system_later s c
  | Exited => ∃ msg e, reported p msg e s c ∧
      (msg = CHILD_EXEC_FAILED ∧ r = inr e ∨
       msg = CHILD_CHDIR_FAILED ∧ working_directory rq ≠ None ∨
       msg = CHILD_DUP2_FAILED ∧ ¬ calm s)
  | _ => False
  end.

(** A program named by a file the search tries: the file itself, or the shell on it. *)
Definition named_by (args : list str) (f : str) (im : image) : Prop :=
  (im_file im = f ∧ im_argv im = args) ∨ (im_file im = SH ∧ im_argv im = SH :: f :: tail args).

(** The program is the one the request is for. *)
Definition asked_for (rq : request) (file : str) (im : image) : Prop :=
  im_envp im = default sys_environ (envp rq) ∧
  ∃ f, f ∈ candidates (envp rq) file (search_path rq) (search_path_from_envp rq) ∧
    named_by (argv_pass rq) f im.

Lemma resolve_ext (args : list str) (env : option (list str)) s1 s2 eacces files :
  u_fds s1 = u_fds s2 → u_cwd s1 = u_cwd s2 → u_default s1 = u_default s2 →
  resolve args env s1 eacces files = resolve args env s2 eacces files.
Proof.
  intros Hf Hc Hd.
  assert (Hi : ∀ f a, image_of env s1 f a = image_of env s2 f a) by (intros; unfold image_of; by rewrite Hf, Hc, Hd).
  assert (Hv : ∀ f, verdict args env s1 f = verdict args env s2 f) by (intros; unfold verdict; by rewrite !Hi).
  revert eacces. induction files as [|f files IH]; intros eacces; [done|]. cbn [resolve].
  rewrite Hv. destruct (verdict args env s2 f) as [v ims].
  destruct (passed_over v); [|done]. destruct files; [done|]. by rewrite IH.
Qed.

Lemma wp_chdir_to dir (Q : Z → uproc → Prop) s :
  (∀ s', later nothing s s' → dir ≠ None → Q (-1) s') →
  (∀ s1, later nothing s s1 →
     Q 0 (s1 <| u_cwd := match dir with Some d => Some d | None => u_cwd s end |>)) →
  wp (chdir_to dir) Q s.
Proof.
  intros HE HQ. destruct dir as [dir|]; cbn [chdir_to].
  - unfold chdir. wp_step. apply wp_answer. intros a s1 H1 Ha.
    destruct (refusal a) as [e|] eqn:Er.
    + destruct a as [[e'|]|]; [injection Er as ->|done..].
      eapply wp_failed; [exact H1|by apply Ha|]. intros s2 H2 Hr _. by apply HE.
    + destruct a as [[|]|]; [done|..]; wp_go; by apply HQ.
  - apply wp_ret. specialize (HQ s (later_refl _ _)). by destruct s.
Qed.

(** The table with the descriptors marked that must not reach the program. *)
Definition hidden (err : Z) (rq : request) (t : fdtable) : fdtable :=
  if close_descriptors rq then marked 3 t else mark_one err t.

Lemma hidden_lookup err rq t k :
  ∃ b : bool, hidden err rq t !! k = (λ v : file * bool, (v.1, v.2 || b)) <$> t !! k.
Proof.
  unfold hidden. destruct (close_descriptors rq).
  - rewrite marked_lookup. eauto.
  - rewrite mark_one_lookup. case_decide.
    + exists true. destruct (t !! k) as [[f c]|]; [|done]. cbn. by rewrite orb_true_r.
    + exists false. destruct (t !! k) as [[f c]|]; [|done]. cbn. by rewrite orb_false_r.
Qed.

Lemma wp_hide err rq (Q : Z → uproc → Prop) s :
  table_ok (u_fds s) → 3 ≤ err →
  (∀ r s', retabled (hidden err rq (u_fds s)) s s' → Q r s') →
  wp (if close_descriptors rq then fdwalk (set_cloexec 3) else set_cloexec 0 err) Q s.
Proof.
  intros Hok He HQ. unfold hidden in HQ. destruct (close_descriptors rq).
  - by apply wp_fdwalk.
  - apply wp_set_cloexec. destruct (Z.leb_spec 0 err); [|lia]. apply HQ.
Qed.

Lemma given_hidden fd err rq t : given fd t → given fd (hidden err rq t).
Proof.
  intros [|[H3 [v Hv]]]; [by left|right]. split; [done|].
  destruct (hidden_lookup err rq t fd) as [b ->]. rewrite Hv. by eexists.
Qed.
Lemma err_end_hidden p err rq t : err_end p err t → err_end p err (hidden err rq t).
Proof.
  intros [H3 [b Hb]]. split; [done|]. destruct (hidden_lookup err rq t err) as [b' ->]. rewrite Hb.
  by eexists.
Qed.
Lemma std_open_hidden err rq t : std_open t → std_open (hidden err rq t).
Proof.
  intros Ho i Hi. destruct (hidden_lookup err rq t i) as [b ->]. destruct (Ho i Hi) as [v ->]. by eexists.
Qed.

(** The three redirections and what comes after them. *)
Lemma wpx_redirects p err i o e rq (Q : () → uproc → Prop) (E : stop → uproc → Prop) s k :
  err_end p err (u_fds s) → std_open (u_fds s) →
  given i (u_fds s) → given o (u_fds s) → given e (u_fds s) → null_safe i o e rq s →
  (∀ s', retabled (redirected_std e 2 (stderr_to_null rq) NullWrite
      (redirected_std o 1 (stdout_to_null rq) NullWrite
        (redirected_std i 0 (negb (child_inherits_stdin rq)) NullRead (u_fds s)))) s s' →
    wpx k Q E s') →
  (∀ x c, ¬ calm s → reported p CHILD_DUP2_FAILED x s c → E Exited c) →
  wpx (redirect err i 0 (negb (child_inherits_stdin rq)) true NullRead;;
       redirect err o 1 (stdout_to_null rq) true NullWrite;;
       redirect err e 2 (stderr_to_null rq) false NullWrite;; k) Q E s.
Proof.
  intros He Hs Hi Ho Hee Hn HQ HE.
  assert (Hsafe : (0 ≤ i ∨ negb (child_inherits_stdin rq) = false ∨ calm s) ∧
    (0 ≤ o ∨ stdout_to_null rq = false ∨ calm s) ∧ (0 ≤ e ∨ stderr_to_null rq = false ∨ calm s)).
  { unfold null_safe in Hn. rewrite negb_false_iff. tauto. }
  destruct Hsafe as (Hsi & Hso & Hse).
  set (t1 := redirected_std i 0 (negb (child_inherits_stdin rq)) NullRead (u_fds s)) in *.
  destruct (redirected_std_keeps i 0 (negb (child_inherits_stdin rq)) NullRead (u_fds s) p err ltac:(lia) He Hs)
    as [He1 Hs1]. fold t1 in He1, Hs1.
  set (t2 := redirected_std o 1 (stdout_to_null rq) NullWrite t1) in *.
  destruct (redirected_std_keeps o 1 (stdout_to_null rq) NullWrite t1 p err ltac:(lia) He1 Hs1) as [He2 Hs2].
  fold t2 in He2, Hs2.
  wpx_step. eapply wpx_redirect; [exact He|lia|done|done|done| |done]. intros s1 R1. fold t1 in R1.
  assert (C1 := retabled_calm _ _ _ R1). pose proof (proj2 R1) as E1.
  wpx_step. eapply wpx_redirect; rewrite ?E1; [exact He1|lia|done|by apply given_redirected|tauto| |].
  2:{ intros x c Hc Hr. eapply (HE x); [tauto|]. by eapply reported_system; [eapply retabled_system|]. }
  fold t2. intros s2 R2'. assert (R2 := retabled_trans _ _ _ _ _ R1 R2').
  assert (C2 := retabled_calm _ _ _ R2). pose proof (proj2 R2) as E2.
  wpx_step. eapply wpx_redirect; rewrite ?E2; [exact He2|lia|done|by do 2 apply given_redirected|tauto| |].
  2:{ intros x c Hc Hr. eapply (HE x); [tauto|]. by eapply reported_system; [eapply retabled_system|]. }
  intros s3 R3. apply HQ. by eapply retabled_trans.
Qed.

(** The pipe that reports failures is still there when [execve] returns. *)
Lemma redirects_end p err i o e rq s :
  err_end p err (u_fds s) → std_open (u_fds s) →
  err_end p err (prepared err i o e rq (u_fds s)).
Proof.
  intros He Hs. unfold prepared. fold (hidden err rq (u_fds s)).
  assert (H : err_end p err (hidden err rq (u_fds s)) ∧ std_open (hidden err rq (u_fds s))).
  { split; [by apply err_end_hidden|by apply std_open_hidden]. }
  generalize dependent (hidden err rq (u_fds s)). intros t [He0 Hs0].
  destruct (redirected_std_keeps i 0 (negb (child_inherits_stdin rq)) NullRead t p err) as [He1 Hs1];
    [lia|done..|].
  destruct (redirected_std_keeps o 1 (stdout_to_null rq) NullWrite _ p err ltac:(lia) He1 Hs1) as [He2 Hs2].
  exact (proj1 (redirected_std_keeps e 2 (stderr_to_null rq) NullWrite _ p err ltac:(lia) He2 Hs2)).
Qed.

Lemma wpx_do_exec p err i o e rq file args s :
  startable p err i o e (u_fds s) → null_safe i o e rq s → harmless rq →
  argv rq = file :: args → argv_pass rq ≠ [] →
  wpx (do_exec err i o e rq) (λ _ _, False) (launched p err i o e rq file s) s.
Proof.
  intros [He Hs Hok Hi Ho Hee] Hn Hh Hargv Hpass. unfold do_exec.
  wpx_step. apply wpx_wp, wp_chdir_to.
  { intros s1 H1 Hd. cbn beta. wpx_step. cbn [when Z.ltb Z.compare].
    destruct He as [_ [b Hb]]. eapply wpx_report; [by apply later_system|by rewrite (later_fds _ _ _ H1)|].
    intros c Hc. exists CHILD_CHDIR_FAILED, (u_errno s1). auto. }
  intros s1 H1. cbn beta. wpx_step. cbn [when Z.ltb Z.compare]. wpx_step.
  set (s2 := s1 <| u_cwd := _ |>).
  assert (Hsys2 : system_later s s2) by (apply later_system in H1; exact H1).
  assert (Hf2 : u_fds s2 = u_fds s) by exact (later_fds _ _ _ H1).
  wpx_step. apply wpx_wp, wp_hide; [by rewrite Hf2|by destruct He|]. intros _ s3 R3. rewrite Hf2 in R3.
  pose proof (proj2 R3) as Hf3.
  assert (Hsys3 : system_later s s3) by (eapply system_later_trans; [exact Hsys2|by eapply retabled_system]).
  eapply (wpx_redirects p); rewrite ?Hf3;
    [by apply err_end_hidden|by apply std_open_hidden|by apply given_hidden..| | |].
  { destruct Hn as [Hc|?]; [left|by right]. by eapply system_calm. }
  2:{ intros x c Hc Hr. exists CHILD_DUP2_FAILED, x. split; [by eapply reported_system|].
      right. right. split; [done|]. intros Hc'. by eapply Hc, system_calm. }
  intros s4 R4. wpx_step.
  assert (Hsetup : wp (match child_setup rq with Some f => f | None => mret () end)
    (λ _ s', later nothing s4 s') s4).
  { destruct (child_setup rq) as [f|] eqn:Ef; [by apply Hh|apply wp_ret; done]. }
  apply wpx_wp. eapply wp_mono; [exact Hsetup|]. intros [] s5 H5. cbn beta in H5 |- *.
  rewrite Hargv. wpx_step. apply wpx_ret. wpx_step.
  assert (Hsys5 : system_later s s5).
  { eapply system_later_trans; [exact Hsys3|]. eapply system_later_trans; [by eapply retabled_system|].
    by apply later_system. }
  assert (Hr : resolve (argv_pass rq) (envp rq) s5 false
      (candidates (envp rq) file (search_path rq) (search_path_from_envp rq)) =
    search_result err i o e rq file s).
  { apply resolve_ext.
    - rewrite (later_fds _ _ _ H5). exact (proj2 R4).
    - rewrite (later_cwd _ _ _ H5), (retabled_cwd _ _ _ R4), (retabled_cwd _ _ _ R3).
      done.
    - rewrite (later_default _ _ _ H5), (retabled_default _ _ _ R4), (retabled_default _ _ _ R3).
      exact (later_default _ _ _ H1). }
  unfold wpx at 1. rewrite g_execute_resolve, Hr by done. unfold resolved.
  destruct (search_result err i o e rq file s) as [[im|x] ims] eqn:Es; cbn [fst snd].
  - exists im. rewrite Es. split_and!; [done|done|].
    eapply system_later_trans; [exact Hsys5|].
    apply rtc_once. exact (moves_tried nothing s5 (u_tried s5 ++ ims)).
  - set (s6 := _ <| u_errno := x |>).
    assert (Hsys6 : system_later s s6).
    { eapply system_later_trans; [exact Hsys5|]. apply later_system. eapply later_one; [apply moves_errno|].
      apply rtc_once, moves_tried. }
    destruct (redirects_end p err i o e rq s He Hs) as [_ [b Hb]].
    eapply (wpx_report _ _ p b); [exact Hsys6| |].
    + unfold s6. rs. rewrite (later_fds _ _ _ H5), (proj2 R4). exact Hb.
    + intros c Hc. exists CHILD_EXEC_FAILED, x. split; [exact Hc|]. left. by rewrite Es.
Qed.

(** ** What the program finds *)

(** A descriptor that stays open. *)
Definition seen (t : fdtable) (k : Z) : option file :=
  match t !! k with Some (f, false) => Some f | _ => None end.

(** The file behind a standard descriptor of the program. *)
Definition source (fd std : Z) (to_null : bool) (null : file) (t : fdtable) : option file :=
  if fd >=? 0 then fst <$> t !! fd else if to_null then Some null else seen t std.

Lemma seen_redirected fd std to_null null t k :
  0 ≤ std ≤ 2 → given fd t → k ≤ 2 →
  seen (redirected_std fd std to_null null t) k =
    if decide (k = std) then source fd std to_null null t else seen t k.
Proof.
  intros Hstd Hg Hk. unfold seen, redirected_std, redirected, source.
  destruct (Z.geb_spec fd 0) as [H0|H0].
  - destruct Hg as [|[H3 [v Hv]]]; [lia|]. rewrite mark_one_lookup, decide_False by lia. rewrite Hv.
    destruct (Z.eqb_spec fd std); [lia|]. case_decide as E.
    + subst. by rewrite lookup_insert_eq.
    + by rewrite lookup_insert_ne.
  - destruct to_null; case_decide as E; [subst| |by subst|done].
    + by rewrite lookup_insert_eq.
    + by rewrite lookup_insert_ne.
Qed.

Lemma fst_marked (b : bool) (x : option (file * bool)) :
  fst <$> ((λ v : file * bool, (v.1, v.2 || b)) <$> x) = fst <$> x.
Proof. by destruct x as [[f c]|]. Qed.

(** A source is the same before and after another descriptor is redirected. *)
Lemma source_redirected fd std to_null null fd' std' to_null' null' t :
  0 ≤ std ≤ 2 → 0 ≤ std' ≤ 2 → std ≠ std' → given fd t → given fd' t →
  source fd std to_null null (redirected_std fd' std' to_null' null' t) = source fd std to_null null t.
Proof.
  intros Hstd Hstd' Hne Hg Hg'. unfold source. rewrite seen_redirected by (lia || done).
  rewrite decide_False by done. destruct (Z.geb_spec fd 0); [|done].
  destruct Hg as [|[H3 _]]; [lia|].
  destruct (redirected_high fd' std' to_null' null' t fd Hstd' H3) as [b ->]. apply fst_marked.
Qed.

Lemma seen_high t k : seen (marked 3 t) k = if decide (3 ≤ k) then None else seen t k.
Proof.
  unfold seen. rewrite marked_lookup. destruct (t !! k) as [[f c]|]; cbn; [|by case_decide].
  destruct (Z.leb_spec 3 k); case_decide; try lia; by rewrite ?orb_true_r, ?orb_false_r.
Qed.

Lemma source_marked fd std to_null null t :
  0 ≤ std ≤ 2 → source fd std to_null null (marked 3 t) = source fd std to_null null t.
Proof.
  intros H. unfold source. rewrite seen_high, decide_False, marked_lookup by lia.
  by rewrite fst_marked.
Qed.

Lemma seen_high_redirected fd std to_null null t k :
  0 ≤ std ≤ 2 → 3 ≤ k → seen t k = None → seen (redirected_std fd std to_null null t) k = None.
Proof.
  intros Hstd Hk. unfold seen. destruct (redirected_high fd std to_null null t k Hstd Hk) as [b ->].
  by destruct (t !! k) as [[f []]|].
Qed.

Lemma prepared_fds err i o e rq t k :
  close_descriptors rq = true → given i t → given o t → given e t → table_ok t →
  exec_fds (prepared err i o e rq t) !! k =
    if decide (k = 0) then source i 0 (negb (child_inherits_stdin rq)) NullRead t
    else if decide (k = 1) then source o 1 (stdout_to_null rq) NullWrite t
    else if decide (k = 2) then source e 2 (stderr_to_null rq) NullWrite t
    else None.
Proof.
  intros Hc Hi Ho He Hok. rewrite exec_fds_lookup. fold (seen (prepared err i o e rq t) k).
  unfold prepared. rewrite Hc.
  assert (Gm : ∀ fd, given fd t → given fd (marked 3 t)).
  { intros fd [|[H3 [v Hv]]]; [by left|right]. split; [done|]. rewrite marked_lookup, Hv. by eexists. }
  assert (Hneg : k < 0 → seen (marked 3 t) k = None).
  { intros Hk. rewrite seen_high, decide_False by lia. unfold seen.
    destruct (t !! k) as [v|] eqn:E; [|done]. destruct (Hok k ltac:(by eexists)). lia. }
  destruct (decide (3 ≤ k)) as [Hk|Hk].
  - rewrite !decide_False by lia.
    do 3 (apply seen_high_redirected; [lia|done|]). by rewrite seen_high, decide_True.
  - rewrite seen_redirected by (lia || (do 2 apply given_redirected; by auto)).
    rewrite (source_redirected e 2) by (lia || done || (apply given_redirected; by auto)).
    rewrite (source_redirected e 2) by (lia || done || by auto). rewrite source_marked by lia.
    rewrite seen_redirected by (lia || (apply given_redirected; by auto)).
    rewrite (source_redirected o 1) by (lia || done || by auto). rewrite source_marked by lia.
    rewrite seen_redirected by (lia || by auto). rewrite source_marked by lia.
    repeat case_decide; try lia; try done. apply Hneg. lia.
Qed.

Lemma resolve_started args env s eacces files im ims :
  resolve args env s eacces files = (inl im, ims) →
  sys_exec im = None ∧ im_fds im = exec_fds (u_fds s) ∧ im_cwd im = u_cwd s ∧
  im_envp im = default sys_environ env ∧ ∃ f, f ∈ files ∧ named_by args f im.
Proof.
  revert eacces ims. induction files as [|f files IH]; intros eacces ims; [done|].
  rewrite resolve_cons. unfold verdict.
  assert (Hnext : ∀ x ims0,
    (if keeps_looking x then
       match files with
       | [] => (inr (if eacces || (x =? EACCES) then EACCES else x), ims0)
       | _ => let '(r, ims') := resolve args env s (eacces || (x =? EACCES)) files in (r, ims0 ++ ims')
       end else (inr x, ims0)) = (inl im : image + Z, ims) →
    sys_exec im = None ∧ im_fds im = exec_fds (u_fds s) ∧ im_cwd im = u_cwd s ∧
    im_envp im = default sys_environ env ∧ ∃ f', f' ∈ f :: files ∧ named_by args f' im).
  { intros x ims0. destruct (keeps_looking x); [|done]. destruct files as [|g files]; [done|].
    destruct (resolve args env s (eacces || (x =? EACCES)) (g :: files)) as [r ims'] eqn:Er.
    intros [= -> _]. destruct (IH _ _ Er) as (H1 & H2 & H3 & H4 & f' & Hin & Hf').
    split_and!; try done. exists f'. split; [set_solver|done]. }
  destruct (sys_exec (image_of env s f args)) as [x|] eqn:E1.
  - destruct (x =? ENOEXEC).
    + destruct (sys_exec (image_of env s SH (SH :: f :: tail args))) as [y|] eqn:E2; [exact (Hnext y _)|].
      intros [= <- _]. split_and!; try done. exists f. split; [set_solver|by right].
    + exact (Hnext x _).
  - intros [= <- _]. split_and!; try done. exists f. split; [set_solver|by left].
Qed.
End ChildProofs.

(** The child of a spawn either becomes the program that the search finds, with the
    descriptors that [do_exec] is to prepare, or reports through its pipe why not: the
    directory, a redirection (only when the system refuses one), or the error of the
    search; it never returns and never waits. *)
Theorem do_exec_launches `{!System, !GLib, !SystemLaws} p err i o e rq file args s
    (Hfds : startable p err i o e (u_fds s)) (Hnull : null_safe i o e rq s)
    (Hsetup : harmless rq) (Hargv : argv rq = file :: args) (Hpass : argv_pass rq ≠ []) :
  wpx (do_exec err i o e rq) (λ _ _, False) (launched p err i o e rq file s) s.
Proof. by eapply wpx_do_exec. Qed.

