(* ===== verification/GSpawn.v ===== *)
(** The parent's side of gspawn.c: [do_posix_spawn], [fork_exec_with_fds] and
    [fork_exec_with_pipes].

    A call answers the error it reports ([GError]) or the process it started.  Either
    way the caller's table of descriptors is accounted for, and no process is left
    behind that nobody waits for. *)
From S2P Require Import Prelude Nptl Unix GExecute GSpawnIo GSpawnChild.

Implicit Types s : uproc.

Definition SIGHUP := 1.
Definition SIGINT := 2.
Definition SIGPIPE := 13.
Definition SIGTERM := 15.
Definition SIGCHLD := 17.

(** The entries before the -1 that ends an array of descriptors. *)
Fixpoint before_end (fds : list Z) : option (list Z) :=
  match fds with
  | [] => None
  | fd :: fds => if fd =? -1 then Some [] else (cons fd) <$> before_end fds
  end.

Section Spawn.
Context `{!System, !GLib}.
(** Whether [posix_spawn] was found when the library was configured. *)
Context (POSIX_SPAWN_AVAILABLE : bool).

(** What [do_posix_spawn] collects: the file actions, the descriptors to close in the
    child, and those to close in the parent. *)
Record collected := mkCollected {
  file_actions : list file_action; child_close : list Z; parent_close_fds : list Z;
}.

(** One standard descriptor; the first component is [r]. *)
Definition spawn_redirect (fd std : Z) (to_null : bool) (null : file) (c : collected) :
    M uproc (Z * collected) :=
  let 'mkCollected acts cc pc := c in
  if fd >=? 0 then
    r ← libc_call;
    if negb (r =? 0) then mret (r, c)
    else mret (0, mkCollected (acts ++ [ADup2 fd std])
                   (if bool_decide (fd ∈ cc) then cc else fd :: cc) pc)
  else if to_null then
    null_fd ← sane_open null true;
    assert (negb (null_fd =? -1));;
    r ← libc_call;
    if negb (r =? 0) then mret (r, mkCollected acts cc (pc ++ [null_fd]))
    else mret (0, mkCollected (acts ++ [ADup2 null_fd std]) cc (pc ++ [null_fd]))
  else mret (0, c).

Fixpoint spawn_closes (fds : list Z) (acts : list file_action) : M uproc (Z * list file_action) :=
  match fds with
  | [] => mret (0, acts)
  | fd :: fds =>
      r ← libc_call;
      if negb (r =? 0) then mret (r, acts) else spawn_closes fds (acts ++ [AClose fd])
  end.

(** Between the initialisation of the file actions and [out_close_fds]: the status, the
    process, and what the parent has to close. *)
Definition spawn_actions (rq : request) (file : str) (cc : list Z) (stdin_fd stdout_fd stderr_fd : Z) :
    M uproc (Z * Z * list Z) :=
  '(r, c) ← spawn_redirect stdin_fd 0 (negb (child_inherits_stdin rq)) NullRead (mkCollected [] cc []);
  if negb (r =? 0) then mret (r, 0, parent_close_fds c) else
  '(r, c) ← spawn_redirect stdout_fd 1 (stdout_to_null rq) NullWrite c;
  if negb (r =? 0) then mret (r, 0, parent_close_fds c) else
  '(r, c) ← spawn_redirect stderr_fd 2 (stderr_to_null rq) NullWrite c;
  if negb (r =? 0) then mret (r, 0, parent_close_fds c) else
  '(r, acts) ← spawn_closes (child_close c) (file_actions c);
  if negb (r =? 0) then mret (r, 0, parent_close_fds c) else
  '(r, pid) ← posix_spawn (search_path rq && negb (has_slash file)) file acts
                [SIGCHLD; SIGINT; SIGTERM; SIGHUP] (argv_pass rq) (default sys_environ (envp rq));
  mret (r, pid, parent_close_fds c).

(** The status, and the process when it is 0. *)
Definition do_posix_spawn (rq : request) (child_close_fds : option (list Z))
    (stdin_fd stdout_fd stderr_fd : Z) : M uproc (Z * Z) :=
  file ← from_option_or Fault (head (argv rq));
  if bool_decide (file = []) then mret (ENOENT, 0) else
  r ← libc_call;                                        (* posix_spawnattr_init *)
  if negb (r =? 0) then mret (r, 0) else
  cc ← match child_close_fds with
       | None => mret []
       | Some fds => from_option_or Fault (rev (A := Z) <$> before_end fds)
       end;
  r ← libc_call;                                        (* ..._setflags *)
  if negb (r =? 0) then mret (r, 0) else
  r ← libc_call;                                        (* ..._setsigdefault *)
  if negb (r =? 0) then mret (r, 0) else
  r ← libc_call;                                        (* posix_spawn_file_actions_init *)
  if negb (r =? 0) then mret (r, 0) else
  '(r, pid, parent_close) ← spawn_actions rq file cc stdin_fd stdout_fd stderr_fd;
  mfor parent_close (λ fd, close_and_invalidate fd;; mret ());;
  mret (r, pid).

(** The two pipes between parent and child; -1 where there is none. *)
Record pipes := mkPipes { err_r : Z; err_w : Z; pid_r : Z; pid_w : Z }.

Definition close_all (ps : pipes) : M uproc () :=
  close_and_invalidate (err_r ps);; close_and_invalidate (err_w ps);;
  close_and_invalidate (pid_r ps);; close_and_invalidate (pid_w ps);; mret ().

Definition wait_for (pid : Z) : M uproc (Z * Z) := retry (λ r, r.1 <? 0) (waitpid pid).

(** The [cleanup_and_fail] label: the child is waited for. *)
Definition cleanup_and_fail (pid : Z) (ps : pipes) (err : gerror) : M uproc (gerror + Z) :=
  when (pid >? 0) (wait_for pid;; mret ());;
  close_all ps;;
  mret (inl err).

(** The immediate child. *)
Definition child_main (intermediate_child : bool) (ps : pipes) (child_close_fds : option (list Z))
    (stdin_fd stdout_fd stderr_fd : Z) (rq : request) : M uproc () :=
  signal_default SIGCHLD;; signal_default SIGINT;; signal_default SIGTERM;; signal_default SIGHUP;;
  signal_default SIGPIPE;;
  close_and_invalidate (err_r ps);;
  close_and_invalidate (pid_r ps);;
  fds ← match child_close_fds with
        | None => mret []
        | Some fds => from_option_or Fault (before_end fds)
        end;
  mfor fds (λ fd, close_and_invalidate fd;; mret ());;
  if intermediate_child then
    grandchild_pid ← fork (close_and_invalidate (pid_w ps);;
                           do_exec (err_w ps) stdin_fd stdout_fd stderr_fd rq);
    if grandchild_pid <? 0 then
      write_all (pid_w ps) (bytes_of_int grandchild_pid);;
      write_err_and_exit (err_w ps) CHILD_FORK_FAILED
    else
      write_all (pid_w ps) (bytes_of_int grandchild_pid);;
      close_and_invalidate (pid_w ps);;
      _exit 0
  else do_exec (err_w ps) stdin_fd stdout_fd stderr_fd rq.

(** The error a child reported. *)
Definition child_error (rq : request) (msg errno : Z) : gerror :=
  let file := default [] (head (argv rq)) in
  if msg =? CHILD_CHDIR_FAILED then ChdirFailed (working_directory rq) errno
  else if msg =? CHILD_EXEC_FAILED then ExecFailed file errno
  else if msg =? CHILD_DUP2_FAILED then RedirectFailed errno
  else if msg =? CHILD_FORK_FAILED then ChildForkFailed errno
  else UnknownFailure file.

(** The parent after the fork. *)
Definition parent_main (intermediate_child : bool) (pid : Z) (ps : pipes) (rq : request) :
    M uproc (gerror + Z) :=
  ew ← close_and_invalidate (err_w ps);
  pw ← close_and_invalidate (pid_w ps);
  let ps := mkPipes (err_r ps) ew (pid_r ps) pw in
  when intermediate_child (wait_for pid;; mret ());;
  r ← read_ints (err_r ps) 2;
  match r with
  | inl err => cleanup_and_fail pid ps err
  | inr (msg :: errno :: _) => cleanup_and_fail pid ps (child_error rq msg errno)
  | inr _ =>
      r ← (if intermediate_child then
             r ← read_ints (pid_r ps) 1;
             match r with
             | inl err => mret (inl err)
             | inr [] => e ← gets u_errno; mret (inl (ShortPid e))
             | inr (pid :: _) => mret (inr pid)
             end
           else mret (inr pid));
      match r with
      | inl err => cleanup_and_fail pid ps err
      | inr child_pid =>
          close_and_invalidate (err_r ps);;
          close_and_invalidate (pid_r ps);;
          mret (inr child_pid)
      end
  end.

(** The attempt with [posix_spawn]; [None] goes on to the fork. *)
Definition by_posix_spawn (intermediate_child : bool) (rq : request) (child_close_fds : option (list Z))
    (stdin_fd stdout_fd stderr_fd : Z) : M uproc (option (gerror + Z)) :=
  if POSIX_SPAWN_AVAILABLE && negb intermediate_child && bool_decide (working_directory rq = None) &&
     negb (close_descriptors rq) && negb (search_path_from_envp rq) &&
     match child_setup rq with None => true | Some _ => false end
  then
    '(status, pid) ← do_posix_spawn rq child_close_fds stdin_fd stdout_fd stderr_fd;
    if status =? 0 then mret (Some (inr pid))
    else if negb (status =? ENOEXEC) then
      file ← from_option_or Fault (head (argv rq));
      mret (Some (inl (SpawnFailed file status)))
    else mret None
  else mret None.

(** The pipes, the fork and what the parent makes of it. *)
Definition by_fork (intermediate_child : bool) (rq : request) (cloexec_pipes : bool)
    (child_close_fds : option (list Z)) (stdin_fd stdout_fd stderr_fd : Z) : M uproc (gerror + Z) :=
  er ← pipe2 cloexec_pipes;
  match er with
  | None => e ← gets u_errno; mret (inl (PipeFailed e))
  | Some (er, ew) =>
      pp ← (if intermediate_child then pipe2 cloexec_pipes else mret (Some (-1, -1)));
      match pp with
      | None => e ← gets u_errno; cleanup_and_fail (-1) (mkPipes er ew (-1) (-1)) (PipeFailed e)
      | Some (pr, pw) =>
          let ps := mkPipes er ew pr pw in
          pid ← fork (child_main intermediate_child ps child_close_fds
                        stdin_fd stdout_fd stderr_fd rq);
          if pid <? 0 then e ← gets u_errno; cleanup_and_fail pid ps (ForkFailed e)
          else parent_main intermediate_child pid ps rq
      end
  end.

Definition fork_exec_with_fds (intermediate_child : bool) (rq : request) (cloexec_pipes : bool)
    (child_close_fds : option (list Z)) (stdin_fd stdout_fd stderr_fd : Z) : M uproc (gerror + Z) :=
  r ← by_posix_spawn intermediate_child rq child_close_fds stdin_fd stdout_fd stderr_fd;
  match r with
  | Some r => mret r
  | None => by_fork intermediate_child rq cloexec_pipes child_close_fds stdin_fd stdout_fd stderr_fd
  end.

(** The process and the parent's ends of the pipes that were asked for. *)
Record started := mkStarted {
  child_pid : Z; standard_input : Z; standard_output : Z; standard_error : Z;
}.

(** The [cleanup_and_fail] label of [fork_exec_with_pipes]. *)
Definition fail_pipes {A} (i o e : Z * Z) (err : gerror) : M uproc (gerror + A) :=
  close_and_invalidate i.1;; close_and_invalidate i.2;;
  close_and_invalidate o.1;; close_and_invalidate o.2;;
  close_and_invalidate e.1;; close_and_invalidate e.2;;
  mret (inl err).

Definition fork_exec_with_pipes (intermediate_child : bool) (rq : request) (cloexec_pipes : bool)
    (with_input with_output with_error : bool) : M uproc (gerror + started) :=
  let open_pipe wanted cloexec :=
    if wanted : bool then pipe2 cloexec else mret (Some (-1, -1)) in
  let none := (-1, -1) in
  i ← open_pipe with_input cloexec_pipes;
  match i with None => e ← gets u_errno; fail_pipes none none none (PipeFailed e) | Some i =>
  o ← open_pipe with_output cloexec_pipes;
  match o with None => e ← gets u_errno; fail_pipes i none none (PipeFailed e) | Some o =>
  e ← open_pipe with_error true;
  match e with None => x ← gets u_errno; fail_pipes i o none (PipeFailed x) | Some e =>
  ret ← fork_exec_with_fds intermediate_child rq cloexec_pipes
          (Some [i.2; o.1; e.1; -1]) i.1 o.2 e.2;
  match ret with
  | inl err => fail_pipes i o e err
  | inr pid =>
      close_and_invalidate i.1;;
      close_and_invalidate o.2;;
      close_and_invalidate e.2;;
      mret (inr (mkStarted pid i.2 o.1 e.1))
  end end end end.
End Spawn.

(** * Processes *)

(** A process that runs or has ended. *)
Definition known (pid : Z) (s : uproc) : Prop :=
  pid ∈ r_pid <$> u_running s ∨ pid ∈ (u_zombies s).*1.

(** A process runs a program, or has run it to its end. *)
Definition runs `{!System} (pid : Z) (im : image) (s : uproc) : Prop :=
  (∃ r, r ∈ u_running s ∧ r_pid r = pid ∧ r_fds r = im_fds im ∧
     r_todo r `suffix_of` (sys_runs im).1 ∧ r_status r = (sys_runs im).2) ∨
  (pid, (sys_runs im).2) ∈ u_zombies s.

Lemma deliver_rest f buf s :
  u_running (deliver f buf s) = u_running s ∧ u_zombies (deliver f buf s) = u_zombies s.
Proof. by destruct f. Qed.

Lemma goes_on_rest r s :
  u_zombies (goes_on r s).1 = u_zombies s ++
    match r_todo r with [] => [(r_pid r, r_status r)] | _ => [] end.
Proof.
  unfold goes_on. destruct (r_todo r) as [|[fd buf] todo]; [done|]. cbn [fst]. rewrite app_nil_r.
  destruct (r_fds r !! fd); [apply deliver_rest|done].
Qed.

Lemma step_known pid q s : known q s → known q (step_program pid s).
Proof.
  unfold known. destruct (step_spec pid s) as [->|(pre & r & post & E & _ & ->)]; [done|]. rs.
  change (u_zombies (?x <| u_running := ?y |>)) with (u_zombies x).
  rewrite E, goes_on_rest, !fmap_app, fmap_cons. unfold goes_on.
  destruct (r_todo r) as [|[fd buf] todo]; cbn [snd option_list]; set_solver.
Qed.

Lemma later_known P q s s' : later P s s' → known q s → known q s'.
Proof. induction 1 as [|s1 s2 s3 H _ IH]; [done|]. intros Hk. apply IH. destruct H; [by apply step_known|done..]. Qed.

Lemma step_runs `{!System} pid q im s : runs q im s → runs q im (step_program pid s).
Proof.
  unfold runs. destruct (step_spec pid s) as [->|(pre & r & post & E & _ & ->)]; [done|]. rs.
  change (u_zombies (?x <| u_running := ?y |>)) with (u_zombies x). rewrite goes_on_rest.
  intros [(r1 & Hr & Hp & Hf & Ht & Hs)|Hz]; [|right; set_solver].
  rewrite E in Hr. apply elem_of_app in Hr as [Hr|[->|Hr]%elem_of_cons].
  - left. exists r1. set_solver.
  - unfold goes_on. destruct (r_todo r) as [|[fd buf] todo] eqn:Er.
    + right. rewrite Hp, Hs. set_solver.
    + left. eexists. split; [apply elem_of_app; right; left|]. cbn [r_pid r_fds r_todo r_status].
      split_and!; [done|done| |done]. destruct Ht as [l Ht]. exists (l ++ [(fd, buf)]).
      by rewrite <- app_assoc.
  - left. exists r1. set_solver.
Qed.

Lemma later_runs `{!System} P q im s s' : later P s s' → runs q im s → runs q im s'.
Proof. induction 1 as [|s1 s2 s3 Hm _ IH]; [done|]. intros Hk. apply IH. destruct Hm; [by apply step_runs|done..]. Qed.

Lemma known_ended pid s : known pid s → u_running s = [] → ended pid s = true.
Proof.
  intros [H|H] E; [by rewrite E in H; apply elem_of_nil in H|]. unfold ended. by apply bool_decide_eq_true.
Qed.

(** Without a process that was waited for. *)
Definition reaped (pid : Z) (s : uproc) : uproc :=
  s <| u_zombies := List.filter (λ z, negb (z.1 =? pid)) (u_zombies s) |>
    <| u_kids := List.filter (λ k, negb (k =? pid)) (u_kids s) |>.

Lemma wp_wait (failed : Z * Z → bool) pid (Q : Z * Z → uproc → Prop) s :
  failed (-1, 0) = true → (∀ st, failed (pid, st) = false) → pid ∈ u_kids s → known pid s →
  (∀ s1, later nothing s s1 → pid ∈ (u_zombies s1).*1 →
     Q (pid, default 0 (snd <$> List.find (λ z, z.1 =? pid) (u_zombies s1))) (reaped pid s1)) →
  (∀ s1, later nothing s s1 → ¬ calm s → Q (-1, 0) s1) →
  wp (retry failed (waitpid pid)) Q s.
Proof.
  intros Hf1 Hf2 Hk Hkn HQ HE. apply (wp_retry (later nothing s)); [done|]. intros s1 H1.
  unfold waitpid. wp_step. apply wp_answer. intros a s2 H2 Ha.
  destruct (refusal a) as [e|] eqn:Er.
  - destruct a as [[e'|]|]; [injection Er as ->|done..].
    eapply (wp_retry_refused failed); [done|exact H1|exact H2|by apply Ha|done].
  - assert (H02 : later nothing s s2) by (etrans; [exact H1|exact H2]).
    assert (Hw : wp (kids ← gets u_kids;
      (if bool_decide (pid ∈ kids) then
        await (ended pid);;
        zs ← gets u_zombies;
        modify (λ s, s <| u_zombies := List.filter (λ z, negb (z.1 =? pid)) zs |>
                       <| u_kids := List.filter (λ k, negb (k =? pid)) kids |>);;
        mret (pid, default 0 (snd <$> List.find (λ z, z.1 =? pid) zs))
      else set_uerrno ECHILD;; mret (-1, 0)))
      (λ r s', (failed r = true → later nothing s s' ∧ less_io s1 s') ∧
         (failed r = false ∨ u_errno s' ≠ EINTR → Q r s')) s2).
    { wp_step. apply wp_gets. rewrite (later_kids _ _ _ H02), bool_decide_true by done. wp_step.
      apply (wp_await nothing).
      - intros s3 H3 E. apply known_ended; [|done]. eapply later_known; [exact H3|].
        by eapply later_known.
      - intros s3 H3 He%bool_decide_eq_true. wp_go. split; [by rewrite Hf2|intros _].
        rewrite <- (later_kids _ _ _ H02). rewrite <- (later_kids _ _ _ H3).
        apply HQ; [by etrans|done]. }
    destruct a as [[|]|]; [done|exact Hw..].
Qed.

Lemma wp_wait_for pid (Q : Z * Z → uproc → Prop) s :
  pid ∈ u_kids s → known pid s → 0 ≤ pid →
  (∀ s1, later nothing s s1 → pid ∈ (u_zombies s1).*1 →
     Q (pid, default 0 (snd <$> List.find (λ z, z.1 =? pid) (u_zombies s1))) (reaped pid s1)) →
  (∀ s1, later nothing s s1 → ¬ calm s → Q (-1, 0) s1) →
  wp (wait_for pid) Q s.
Proof. intros Hk Hkn Hpos. apply wp_wait; [done|intros; cbn; lia|done..]. Qed.

(** * Closing *)

(** A table without some descriptors; a negative one is none. *)
Definition dropped (fds : list Z) (t : fdtable) : fdtable :=
  foldl (λ t fd, if fd <? 0 then t else delete fd t) t fds.

Lemma dropped_lookup fds t k :
  dropped fds t !! k = if bool_decide (k ∈ fds) && (0 <=? k) then None else t !! k.
Proof.
  revert t. induction fds as [|fd fds IH]; intros t; [done|].
  change (dropped (fd :: fds) t) with (dropped fds (if fd <? 0 then t else delete fd t)).
  rewrite IH, (bool_decide_ext (k ∈ fd :: fds) (k = fd ∨ k ∈ fds)) by apply elem_of_cons.
  destruct (decide (k = fd)) as [->|Hne].
  - rewrite (bool_decide_true (fd = fd ∨ fd ∈ fds)) by by left. cbn [andb].
    destruct (Z.ltb_spec fd 0), (Z.leb_spec 0 fd); try lia; rewrite ?andb_false_r; [done|].
    rewrite lookup_delete_eq. by destruct (_ && _).
  - rewrite (bool_decide_ext (k = fd ∨ k ∈ fds) (k ∈ fds)) by naive_solver.
    destruct (_ && _); [done|]. destruct (fd <? 0); [done|]. by rewrite lookup_delete_ne.
Qed.

Lemma dropped_app l1 l2 t : dropped (l1 ++ l2) t = dropped l2 (dropped l1 t).
Proof. apply foldl_app. Qed.

Lemma dropped_neg fd t : fd < 0 → dropped [fd] t = t.
Proof. intros H. cbn. by destruct (Z.ltb_spec fd 0); [|lia]. Qed.

Definition without (fds : list Z) (s : uproc) : uproc := s <| u_fds := dropped fds (u_fds s) |>.

Lemma close_then {A} fd (k : Z → M uproc A) s :
  (close_and_invalidate fd ≫= k) s = k (if fd <? 0 then fd else -1) (without [fd] s).
Proof.
  unfold close_and_invalidate, close, without, dropped. cbn [foldl]. destruct (fd <? 0); [|done].
  by destruct s.
Qed.

Lemma wp_close_then {A} fd (k : Z → M uproc A) Q s :
  wp (k (if fd <? 0 then fd else -1)) Q (without [fd] s) → wp (close_and_invalidate fd ≫= k) Q s.
Proof. unfold wp. by rewrite close_then. Qed.

Lemma closes_then {A} fds (k : () → M uproc A) s :
  (mfor fds (λ fd, close_and_invalidate fd;; mret ()) ≫= k) s = k () (without fds s).
Proof.
  revert s. induction fds as [|fd fds IH]; intros s; cbn [mfor]; [by destruct s|].
  rewrite !mbind_assoc, close_then. cbv beta. rewrite (mbind_done (mret ()) _ _ () _ eq_refl). apply IH.
Qed.

Lemma close_all_then {A} ps (k : () → M uproc A) s :
  (close_all ps ≫= k) s = k () (without [err_r ps; err_w ps; pid_r ps; pid_w ps] s).
Proof. unfold close_all. by rewrite !mbind_assoc, close_then, !mbind_assoc, close_then, !mbind_assoc,
  close_then, !mbind_assoc, close_then. Qed.

(** * The child *)

Definition RESET_SIGNALS := [SIGPIPE; SIGHUP; SIGTERM; SIGINT; SIGCHLD].

(** A child about to execute, or to fork once more. *)
Definition child_ready (fds : list Z) (s : uproc) : uproc :=
  without fds (s <| u_default := RESET_SIGNALS ++ u_default s |>).

(** The descriptors the caller wants closed in the child. *)
Definition closing (child_close_fds : option (list Z)) (fds : list Z) : Prop :=
  match child_close_fds with None => fds = [] | Some l => before_end l = Some fds end.

Section Fork.
Context {Sys : System} {Gl : GLib}.

Lemma child_main_eq intermediate ps ccf fds i o e rq s :
  closing ccf fds →
  child_main intermediate ps ccf i o e rq s =
  (if intermediate then
    grandchild_pid ← fork (close_and_invalidate (pid_w ps);; do_exec (err_w ps) i o e rq);
    if grandchild_pid <? 0 then
      write_all (pid_w ps) (bytes_of_int grandchild_pid);;
      write_err_and_exit (err_w ps) CHILD_FORK_FAILED
    else
      write_all (pid_w ps) (bytes_of_int grandchild_pid);;
      close_and_invalidate (pid_w ps);;
      _exit 0
   else do_exec (err_w ps) i o e rq) (child_ready (err_r ps :: pid_r ps :: fds) s).
Proof.
  intros Hc. unfold child_main, signal_default. 
  rewrite !(mbind_done (modify _) _ _ () _ eq_refl). rewrite !close_then.
  assert (E : ∀ s', match ccf with
    | Some fds => from_option_or Fault (before_end fds) | None => mret [] end s' = Done fds s').
  { intros s'. destruct ccf; cbn in Hc; [by rewrite Hc|by subst]. }
  rewrite (mbind_done _ _ _ _ _ (E _)), closes_then. unfold child_ready.
  f_equal; by destruct intermediate.
Qed.
End Fork.

(** * A new pipe *)

Definition pipe_r (t : fdtable) : Z := lowest_free t.
Definition pipe_w (p : Z) (c : bool) (t : fdtable) : Z :=
  lowest_free (<[pipe_r t := (PipeRead p, c)]> t).
Definition pipe_table (p : Z) (c : bool) (t : fdtable) : fdtable :=
  <[pipe_w p c t := (PipeWrite p, c)]> (<[pipe_r t := (PipeRead p, c)]> t).

Lemma pipe_fds p c t :
  t !! pipe_r t = None ∧ t !! pipe_w p c t = None ∧ pipe_r t ≠ pipe_w p c t ∧
  0 ≤ pipe_r t ≤ Z.of_nat (size t) ∧ 0 ≤ pipe_w p c t ≤ Z.of_nat (size t) + 1.
Proof.
  pose proof (lowest_free_spec t) as (H1 & H2 & _).
  pose proof (lowest_free_spec (<[pipe_r t := (PipeRead p, c)]> t)) as (H3 & H4 & _).
  fold (pipe_r t) in H1, H2. fold (pipe_w p c t) in H3, H4.
  assert (Hne : pipe_r t ≠ pipe_w p c t) by (intros E; rewrite <- E, lookup_insert_eq in H4; done).
  rewrite lookup_insert_ne in H4 by done. split_and!; try done.
  - unfold pipe_r, lowest_free. pose proof (free_from_spec (size t) 0 t). lia.
  - unfold pipe_w, lowest_free. pose proof (free_from_spec (size (<[pipe_r t := (PipeRead p, c)]> t)) 0
      (<[pipe_r t := (PipeRead p, c)]> t)). rewrite map_size_insert_None in * by done. lia.
Qed.

Lemma pipe_table_lookup p c t k :
  pipe_table p c t !! k =
    if decide (k = pipe_w p c t) then Some (PipeWrite p, c)
    else if decide (k = pipe_r t) then Some (PipeRead p, c) else t !! k.
Proof.
  pose proof (pipe_fds p c t) as (_ & _ & Hne & _). unfold pipe_table.
  repeat case_decide; subst; rewrite ?lookup_insert_eq, ?lookup_insert_ne, ?lookup_insert_eq by congruence; done.
Qed.

Lemma pipe_table_open p c t k : is_Some (t !! k) → pipe_table p c t !! k = t !! k.
Proof.
  pose proof (pipe_fds p c t) as (Hr & Hw & _). intros [v Hv].
  rewrite pipe_table_lookup, !decide_False; [done|intros ->; congruence..].
Qed.

(** Closing both ends again leaves the table as it was. *)
Lemma pipe_table_dropped p c t l :
  (∀ k, k ∈ l → k < 0 ∨ k = pipe_r t ∨ k = pipe_w p c t) →
  pipe_r t ∈ l → pipe_w p c t ∈ l → dropped l (pipe_table p c t) = t.
Proof.
  intros Hl Hr Hw. pose proof (pipe_fds p c t) as (Er & Ew & Hne & Hrange & Hrange').
  apply map_eq. intros k. rewrite dropped_lookup, pipe_table_lookup.
  destruct (decide (k = pipe_w p c t)) as [->|]; [|destruct (decide (k = pipe_r t)) as [->|]].
  - rewrite bool_decide_true by done. by destruct (Z.leb_spec 0 (pipe_w p c t)); [|lia].
  - rewrite bool_decide_true by done. by destruct (Z.leb_spec 0 (pipe_r t)); [|lia].
  - case_bool_decide as Hk; [|done]. destruct (Hl k Hk) as [|[|]]; [|done..].
    by destruct (Z.leb_spec 0 k); [lia|].
Qed.

(** The state after [pipe2]. *)
Definition piped (c : bool) (s : uproc) : uproc :=
  s <| u_next := u_next s + 1 |> <| u_pipes := <[u_next s := []]> (u_pipes s) |>
    <| u_fds := pipe_table (u_next s) c (u_fds s) |>.

Lemma wp_pipe2 c (Q : option (Z * Z) → uproc → Prop) s :
  (∀ s', later nothing s s' → Q None s') →
  (∀ io, io `suffix_of` u_io s →
     Q (Some (pipe_r (u_fds s), pipe_w (u_next s) c (u_fds s))) (piped c (s <| u_io := io |>))) →
  wp (pipe2 c) Q s.
Proof.
  intros HE HQ. unfold pipe2. wp_step.
  assert (Hok : ∀ io a, refusal a = None → io `suffix_of` u_io s →
    wp (match a with
        | Some (Err e) => set_uerrno e;; mret None
        | _ => p ← gets u_next;
            modify (λ s, s <| u_next := p + 1 |> <| u_pipes := <[p := []]> (u_pipes s) |>);;
            r ← new_fd (PipeRead p) c; w ← new_fd (PipeWrite p) c; mret (Some (r, w))
        end) Q (s <| u_io := io |>)).
  { intros io a Ha Hio. destruct a as [[|]|]; [done|..]; wp_go; apply wp_new_fd; intros r ->; wp_go;
      apply wp_new_fd; intros w ->; wp_go; by apply HQ. }
  apply wp_next_answer.
  - intros E. specialize (Hok (u_io s) None eq_refl ltac:(done)). by destruct s.
  - intros a io E.
    assert (Hio : io `suffix_of` u_io s) by (rewrite E; by exists [a]).
    destruct a as [e|n]; [|exact (Hok io (Some (Count n)) eq_refl Hio)]. unfold set_uerrno. wp_go. apply HE.
    eapply later_one; [apply moves_errno|]. apply rtc_once. by apply moves_io.
Qed.

Lemma wp_fork `{Sys : System} child (Q : Z → uproc → Prop) s :
  (∀ s', later nothing s s' → Q (-1) s') →
  (∀ io, io `suffix_of` u_io s → let s1 := s <| u_io := io |> in
     wpx child (λ _ _, False) (λ w c, Q (u_next s) (born s1 (u_next s) w c))
       (s1 <| u_next := u_next s + 1 |> <| u_kids := [] |> <| u_exec := None |>)) →
  wp (fork child) Q s.
Proof.
  intros HE HQ. unfold fork. wp_step.
  assert (Hok : ∀ io a, refusal a = None → io `suffix_of` u_io s →
    wp (match a with
        | Some (Err e) => set_uerrno e;; mret (-1)
        | _ => pid ← gets u_next; fork_child pid child
        end) Q (s <| u_io := io |>)).
  { intros io a Ha Hio. specialize (HQ io Hio). cbv zeta in HQ.
    destruct a as [[|]|]; [done|..]; wp_go; unfold wp, wpx, fork_child in *;
      change (u_next (s <| u_io := io |>)) with (u_next s); cbv beta;
      destruct (child _); done. }
  apply wp_next_answer.
  - intros E. specialize (Hok (u_io s) None eq_refl ltac:(done)). by destruct s.
  - intros a io E.
    assert (Hio : io `suffix_of` u_io s) by (rewrite E; by exists [a]).
    destruct a as [e|n]; [|exact (Hok io (Some (Count n)) eq_refl Hio)]. unfold set_uerrno. wp_go. apply HE.
    eapply later_one; [apply moves_errno|]. apply rtc_once. by apply moves_io.
Qed.

(** * The parent *)

(** A process that was started, and one that ended at once. *)
Definition start `{!System} (pid : Z) (im : image) (s : uproc) : uproc :=
  s <| u_kids := pid :: u_kids s |>
    <| u_running := u_running s ++ [mkRunning pid (im_fds im) (sys_runs im).1 (sys_runs im).2] |>.
Definition buried (pid status : Z) (s : uproc) : uproc :=
  s <| u_kids := pid :: u_kids s |> <| u_zombies := u_zombies s ++ [(pid, status)] |>.

Lemma without_went P l s s' : later P s s' → went P (dropped l (u_fds s)) s (without l s').
Proof. intros H. unfold without. rewrite <- (later_fds _ _ _ H). by apply set_fds_went. Qed.

Lemma dropped_ext l1 l2 t : (∀ k, k ∈ l1 ↔ k ∈ l2) → dropped l1 t = dropped l2 t.
Proof.
  intros H. apply map_eq. intros k. rewrite !dropped_lookup.
  by rewrite (bool_decide_ext (k ∈ l1) (k ∈ l2)) by apply H.
Qed.

(** The error a parent decodes, for a child that reported one. *)
Definition decoded_error (rq : request) (msg e : Z) : gerror :=
  child_error rq msg (int_of_bytes (e `mod` 256) ((e / 256) `mod` 256) ((e / 65536) `mod` 256)
    ((e / 16777216) `mod` 256)).

Lemma decoded_small rq msg e : is_int e → decoded_error rq msg e = child_error rq msg e.
Proof. intros H. unfold decoded_error. by rewrite int_round_trip. Qed.

Section Parent.
Context {Sys : System} {Gl : GLib} (rq : request) (P : Z → Prop).

(** The wait for a child that is there, at the end of a failure. *)
Lemma wp_cleanup pid ps err (Q : gerror + Z → uproc → Prop) s :
  pid ∈ u_kids s → known pid s → 0 < pid →
  (∀ s1, later nothing s s1 → pid ∈ (u_zombies s1).*1 →
     Q (inl err) (without [err_r ps; err_w ps; pid_r ps; pid_w ps] (reaped pid s1))) →
  (∀ s1, later nothing s s1 → ¬ calm s →
     Q (inl err) (without [err_r ps; err_w ps; pid_r ps; pid_w ps] s1)) →
  wp (cleanup_and_fail pid ps err) Q s.
Proof.
  intros Hk Hkn Hpos HQ HE. unfold cleanup_and_fail. wp_step.
  assert (Hrest : ∀ s1, Q (inl err) (without [err_r ps; err_w ps; pid_r ps; pid_w ps] s1) →
    wp (close_all ps;; mret (inl err)) Q s1).
  { intros s1 H1. unfold wp. rewrite close_all_then. exact H1. }
  unfold when. apply wp_if; [intros _|intros Hz; exfalso; lia]. wp_step.
  apply wp_wait_for; [done|done|lia| |].
  - intros s1 H1 Hz. apply wp_ret, Hrest. by apply HQ.
  - intros s1 H1 Hc. apply wp_ret, Hrest. by apply HE.
Qed.

(** Without an intermediate child: what the child left in the pipe decides. *)
Lemma wp_parent_main pid ps p b (Q : gerror + Z → uproc → Prop) s :
  P p → 0 ≤ err_r ps → err_r ps ≠ err_w ps → err_r ps ≠ pid_w ps →
  u_fds s !! err_r ps = Some (PipeRead p, b) →
  unwritten p (without [err_w ps; pid_w ps] s) → unheld p s →
  pid ∈ u_kids s → known pid s → 0 < pid →
  let T := dropped [err_w ps; pid_w ps; err_r ps; pid_r ps] (u_fds s) in
  (pipe_of p s = [] ∧ ∀ s', went P T s s' → Q (inr pid) s') ∨
  (∃ msg e, is_int msg ∧ pipe_of p s = bytes_of_int msg ++ bytes_of_int e ∧
     ∀ s1, later P s s1 → pid ∈ (u_zombies s1).*1 →
       Q (inl (decoded_error rq msg e)) ((reaped pid s1) <| u_fds := T |>)) →
  (∀ err s', ¬ calm s → u_fds s' = T → Q (inl err) s') →
  wp (parent_main false pid ps rq) Q s.
Proof.
  intros HP H0 Hne1 Hne2 Hfd Hunw Hunh Hk Hkn Hpos T Hcase HE. unfold parent_main.
  do 2 apply wp_close_then. cbv zeta. cbn [err_r pid_r].
  set (ew := if err_w ps <? 0 then _ else _). set (pw := if pid_w ps <? 0 then _ else _).
  assert (Hneg : ew < 0 ∧ pw < 0).
  { unfold ew, pw. destruct (Z.ltb_spec (err_w ps) 0), (Z.ltb_spec (pid_w ps) 0); lia. }
  change (without [pid_w ps] (without [err_w ps] s)) with (without [err_w ps; pid_w ps] s).
  set (b1 := without [err_w ps; pid_w ps] s) in *.
  assert (Hback : ∀ s1, later P b1 s1 → later P s (s1 <| u_fds := u_fds s |>)).
  { intros s1 H1. apply (later_with_fds _ (u_fds s)) in H1. unfold b1, without in H1. by destruct s. }
  assert (Hlist : ∀ s1 s2 : uproc, later P b1 s1 → u_fds s2 = u_fds s1 →
    dropped [err_r ps; ew; pid_r ps; pw] (u_fds s2) = T).
  { intros s1 s2 H1 ->. rewrite (later_fds _ _ _ H1). unfold b1, without. rs.
    rewrite <- dropped_app. apply map_eq. intros k. unfold T. rewrite !dropped_lookup.
    destruct (Z.leb_spec 0 k); [|by rewrite !andb_false_r]. rewrite !andb_true_r.
    erewrite bool_decide_ext; [done|]. set_unfold. intuition lia. }
  wp_step. cbn [when]. apply wp_ret. wp_step.
  eapply (wp_read_ints _ _ p b); [|done|exact Hunh|lia| |].
  { unfold b1, without. rs. rewrite dropped_lookup, bool_decide_false; [exact Hfd|]. set_unfold. lia. }
  - intros x s1 H1 Hc. assert (HP1 : later P b1 s1) by (eapply later_weaken; [|exact H1]; by intros ? <-).
    apply wp_cleanup; [by rewrite (later_kids _ _ _ H1)|by eapply later_known|done| |].
    + intros s2 H2 _. apply HE; [done|]. unfold without. rs. apply (Hlist s2); [|done].
      etrans; [exact HP1|by apply later_any].
    + intros s2 H2 _. apply HE; [done|]. unfold without. rs. apply (Hlist s2); [|done].
      etrans; [exact HP1|by apply later_any].
  - intros s1 H1. assert (HP1 : later P b1 s1) by (eapply later_weaken; [|exact H1]; by intros ? <-).
    change (pipe_of p b1) with (pipe_of p s).
    destruct Hcase as [[E HS]|(msg & e & Hmsg & E & HF)]; rewrite E.
    + cbn [take ints_of Nat.mul]. rewrite take_nil. cbn [ints_of]. wp_step. apply wp_ret.
      do 2 apply wp_close_then. apply wp_ret. apply HS.
      change (without [pid_r ps] (without [err_r ps] s1)) with (without [err_r ps; pid_r ps] s1).
      split; [exact (Hback s1 HP1)|]. unfold without. rs. rewrite (later_fds _ _ _ HP1).
      unfold b1, without. rs. by rewrite <- dropped_app.
    + rewrite take_ge by done. cbn [ints_of app bytes_of_int].
      rewrite int_round_trip by done.
      apply wp_cleanup; [by rewrite (later_kids _ _ _ H1)|by eapply later_known|done| |].
      * intros s2 H2 Hz. assert (HP2 : later P b1 s2) by (etrans; [exact HP1|by apply later_any]).
        pose proof (HF (s2 <| u_fds := u_fds s |>) (Hback _ HP2) Hz) as HF'.
        unfold without. cbn [err_r err_w pid_r pid_w].
        change (u_fds (reaped pid s2)) with (u_fds s2).
        rewrite (Hlist s2 s2 HP2 eq_refl). exact HF'.
      * intros s2 H2 Hc. apply HE; [|unfold without; rs; apply (Hlist s2); [|done]].
        { intros Hc'. apply Hc. by eapply later_calm. }
        etrans; [exact HP1|by apply later_any].
Qed.
End Parent.

(** * A child that failed leaves nothing *)

Definition absent (pid : Z) (s : uproc) : Prop := pid ∉ r_pid <$> u_running s.

Lemma step_absent pid q s : absent q s → absent q (step_program pid s).
Proof.
  unfold absent. intros H (r & -> & Hr)%list_elem_of_fmap. destruct (step_running pid s r Hr) as (r0 & H0 & E & _).
  apply H. rewrite E. apply list_elem_of_fmap. eauto.
Qed.

Lemma later_absent P q s s' : later P s s' → absent q s → absent q s'.
Proof. induction 1 as [|s1 s2 s3 Hm _ IH]; [done|]. intros Ha. apply IH. destruct Hm; [by apply step_absent|done..]. Qed.

Lemma step_reaped q pid s : absent q s → step_program pid (reaped q s) = reaped q (step_program pid s).
Proof.
  unfold absent, step_program. change (u_running (reaped q s)) with (u_running s).
  generalize (@nil running). induction (u_running s) as [|r rs IH]; intros b Ha; [done|]. cbn [step_in].
  destruct (r_pid r =? pid); [|apply IH; set_solver].
  assert (Hq : (r_pid r =? q) = false) by (apply Z.eqb_neq; set_solver).
  unfold goes_on. destruct (r_todo r) as [|[fd buf] todo].
  - unfold reaped. rs. rewrite List.filter_app. cbn [List.filter fst]. rewrite Hq. done.
  - by destruct (r_fds r !! fd) as [[]|].
Qed.

Lemma later_reaped P q s s' : later P s s' → absent q s → later P (reaped q s) (reaped q s').
Proof.
  induction 1 as [|s1 s2 s3 Hm Hl IH]; [done|]. intros Ha.
  assert (Ha2 : absent q s2) by (eapply later_absent; [by apply rtc_once|done]).
  etrans; [|by apply IH]. apply rtc_once. destruct Hm as [pid|v|v H|e|v|n H|p v H].
  - rewrite <- step_reaped by done. constructor.
  - exact (moves_sched P (reaped q s1) v).
  - assert (M : moves P (reaped q s1) ((reaped q s1) <| u_io := v |>)) by by constructor. exact M.
  - exact (moves_errno P (reaped q s1) e).
  - exact (moves_tried P (reaped q s1) v).
  - assert (M : moves P (reaped q s1) ((reaped q s1) <| u_next := n |>)) by by constructor. exact M.
  - exact (moves_pipe P (reaped q s1) p v H).
Qed.

Lemma filter_ne {A} (f : A → Z) q (l : list A) :
  (∀ x, x ∈ l → f x ≠ q) → List.filter (λ x, negb (f x =? q)) l = l.
Proof.
  induction l as [|x l IH]; intros H; [done|]. cbn [List.filter].
  destruct (Z.eqb_spec (f x) q) as [E|]; [by destruct (H x ltac:(set_solver))|]. cbn [negb].
  by rewrite IH by set_solver.
Qed.

Lemma reaped_buried pid st s :
  (∀ k, k ∈ u_kids s → k ≠ pid) → (∀ z, z ∈ u_zombies s → z.1 ≠ pid) → reaped pid (buried pid st s) = s.
Proof.
  intros Hk Hz. unfold reaped, buried. rs. rewrite List.filter_app. cbn [List.filter fst].
  rewrite Z.eqb_refl. cbn [negb]. rewrite app_nil_r.
  rewrite (filter_ne (λ k, k)), (filter_ne fst) by done. by destruct s.
Qed.

(** * Nobody knows what is new *)

Record fresh (s : uproc) : Prop := {
  fr_pos : 0 < u_next s;
  fr_own fd v p : u_fds s !! fd = Some v → v.1 = PipeWrite p → p < u_next s;
  fr_held r fd p : r ∈ u_running s → r_fds r !! fd = Some (PipeWrite p) → p < u_next s;
  fr_kids k : k ∈ u_kids s → k < u_next s;
  fr_pids r : r ∈ u_running s → r_pid r < u_next s;
  fr_zombies z : z ∈ u_zombies s → z.1 < u_next s;
}.

Lemma step_zombies pid s z :
  z ∈ u_zombies (step_program pid s) → z ∈ u_zombies s ∨ ∃ r, r ∈ u_running s ∧ z.1 = r_pid r.
Proof.
  destruct (step_spec pid s) as [->|(pre & r & post & E & _ & ->)]; [by left|]. rs.
  change (u_zombies (?x <| u_running := ?y |>)) with (u_zombies x). rewrite goes_on_rest.
  intros [Hz|Hz]%elem_of_app; [by left|right]. exists r. rewrite E. split; [set_solver|].
  destruct (r_todo r); [by apply list_elem_of_singleton in Hz as ->|by apply elem_of_nil in Hz].
Qed.

(** What is newer than [n] is still unknown later. *)
Lemma later_known_below P n s s' :
  later P s s' →
  (∀ r, r ∈ u_running s → r_pid r < n) ∧ (∀ z, z ∈ u_zombies s → z.1 < n) →
  (∀ r, r ∈ u_running s' → r_pid r < n) ∧ (∀ z, z ∈ u_zombies s' → z.1 < n).
Proof.
  induction 1 as [|s1 s2 s3 Hm _ IH]; [done|]. intros [Hr Hz]. apply IH.
  destruct Hm as [pid| | | | | |]; try done. split.
  - intros r Hin. destruct (step_running pid s1 r Hin) as (r0 & H0 & -> & _). by apply Hr.
  - intros z Hin. destruct (step_zombies pid s1 z Hin) as [|(r & H0 & ->)]; auto.
Qed.

(** The descriptors from which a program can be started. *)
Record ready `{!System} (child_close_fds : option (list Z)) (fds : list Z) (i o e : Z) (s : uproc) :
    Prop := {
  rd_std : std_open (u_fds s);
  rd_ok : table_ok (u_fds s);
  rd_room : Z.of_nat (size (u_fds s)) + 4 < open_limit ∧ Z.of_nat (size (u_fds s)) + 4 < G_MAXINT;
  rd_in : given i (u_fds s);
  rd_out : given o (u_fds s);
  rd_err : given e (u_fds s);
  rd_close : closing child_close_fds fds;
  rd_fds fd : fd ∈ fds → fd < 0 ∨ (3 ≤ fd ∧ is_Some (u_fds s !! fd) ∧ fd ≠ i ∧ fd ≠ o ∧ fd ≠ e);
  rd_fresh : fresh s;
}.

Lemma pipe_fds_high p c t : std_open t → 3 ≤ pipe_r t ∧ 3 ≤ pipe_w p c t.
Proof.
  intros Ho. pose proof (pipe_fds p c t) as (Hr & Hw & _ & Hrr & Hww).
  split; apply Z.nlt_ge; intros Hlt.
  - destruct (Ho (pipe_r t)) as [v Hv]; [lia|congruence].
  - destruct (Ho (pipe_w p c t)) as [v Hv]; [lia|congruence].
Qed.

Lemma given_piped fd p c t : given fd t → given fd (pipe_table p c t).
Proof. intros [|[H3 Hfd]]; [by left|right]. split; [done|]. by rewrite pipe_table_open. Qed.
Lemma std_piped p c t : std_open t → std_open (pipe_table p c t).
Proof. intros Ho i Hi. specialize (Ho i Hi). by rewrite pipe_table_open. Qed.
Lemma ok_piped `{!System} p c t :
  table_ok t → Z.of_nat (size t) + 1 < open_limit → Z.of_nat (size t) + 1 < G_MAXINT →
  table_ok (pipe_table p c t).
Proof.
  intros Hok H1 H2 fd [v Hv]. pose proof (pipe_fds p c t) as (_ & _ & _ & Hr & Hw).
  rewrite pipe_table_lookup in Hv. repeat case_decide; subst; [lia..|]. apply Hok. by eexists.
Qed.

Lemma given_dropped l fd t : given fd t → fd ∉ l → given fd (dropped l t).
Proof.
  intros [|[H3 Hfd]] Hl; [by left|right]. split; [done|]. rewrite dropped_lookup.
  by rewrite bool_decide_false.
Qed.

Lemma startable_dropped `{!System} p ew i o e l t :
  err_end p ew t → std_open t → table_ok t → given i t → given o t → given e t →
  (∀ k, k ∈ l → k < 0 ∨ (3 ≤ k ∧ k ≠ ew ∧ k ≠ i ∧ k ≠ o ∧ k ≠ e)) →
  startable p ew i o e (dropped l t).
Proof.
  intros [H3 [b Hb]] Hs Hok Hi Ho He Hl.
  assert (Hkeep : ∀ k, 0 ≤ k → k = ew ∨ k = i ∨ k = o ∨ k = e ∨ k ≤ 2 → k ∉ l).
  { intros k Hk Hor Hin. destruct (Hl k Hin) as [|?]; [lia|]. intuition lia. }
  assert (Hg : ∀ fd, fd = i ∨ fd = o ∨ fd = e → given fd t → given fd (dropped l t)).
  { intros fd Hor [|Hg]; [by left|]. apply given_dropped; [by right|]. apply Hkeep; [lia|tauto]. }
  split; [| | |apply Hg; auto..].
  - split; [done|]. exists b. rewrite dropped_lookup, bool_decide_false; [done|]. apply Hkeep; lia.
  - intros k Hk. rewrite dropped_lookup, bool_decide_false; [by apply Hs|]. apply Hkeep; lia.
  - intros k Hk. apply Hok. rewrite dropped_lookup in Hk. by destruct (_ && _); [destruct Hk|].
Qed.

(** The reporting end of the pipe does not reach the program. *)
Definition only_end (p ew : Z) (t : fdtable) : Prop :=
  ∀ k v, t !! k = Some v → v.1 = PipeWrite p → k = ew.
Definition hidden_end (p ew : Z) (t : fdtable) : Prop :=
  ∀ k v, t !! k = Some v → v.1 = PipeWrite p → k = ew ∧ v.2 = true.

Lemma hidden_end_hidden p ew rq t :
  3 ≤ ew → only_end p ew t → hidden_end p ew (hidden ew rq t).
Proof.
  intros H3 Ho k v Hv Hf. unfold hidden in Hv. destruct (close_descriptors rq).
  - rewrite marked_lookup in Hv. destruct (t !! k) as [[f c]|] eqn:E; [|done]. injection Hv as <-.
    pose proof (Ho k _ E Hf) as ->. split; [done|]. cbn. destruct (Z.leb_spec 3 ew); [|lia].
    apply orb_true_r.
  - rewrite mark_one_lookup in Hv. case_decide as Ek.
    + subst k. destruct (t !! ew); [|done]. by injection Hv as <-.
    + by destruct (Ek (Ho k v Hv Hf)).
Qed.

Lemma hidden_end_redirected p ew fd std to_null null t :
  0 ≤ std ≤ 2 → given fd t → fd ≠ ew → null ≠ PipeWrite p → hidden_end p ew t →
  hidden_end p ew (redirected_std fd std to_null null t).
Proof.
  intros Hstd Hg Hne Hnull Hh k v Hv Hf. unfold redirected_std, redirected in Hv.
  destruct (Z.geb_spec fd 0) as [H0|H0].
  - destruct Hg as [|[H3 [v0 Hv0]]]; [lia|]. rewrite Hv0 in Hv. destruct (Z.eqb_spec fd std); [lia|].
    assert (Hins : ∀ w, <[std := (v0.1, false)]> t !! k = Some w → w.1 = PipeWrite p → k = ew ∧ w.2 = true).
    { intros w. destruct (decide (k = std)) as [->|]; [|rewrite lookup_insert_ne by done; by apply Hh].
      rewrite lookup_insert_eq. intros [= <-] Hf'. cbn in Hf'. by destruct (Hh fd v0 Hv0 Hf'). }
    rewrite mark_one_lookup in Hv. case_decide; [|by apply Hins].
    destruct (<[std := (v0.1, false)]> t !! k) as [w|] eqn:Ew; [|done]. injection Hv as <-.
    destruct (Hins w eq_refl Hf) as [-> _]. done.
  - destruct to_null; [|by apply Hh]. destruct (decide (k = std)) as [->|].
    + rewrite lookup_insert_eq in Hv. injection Hv as <-. done.
    + rewrite lookup_insert_ne in Hv by done. by apply Hh.
Qed.

Lemma prepared_unheld p ew i o e rq t k :
  3 ≤ ew → only_end p ew t → given i t → given o t → given e t → i ≠ ew → o ≠ ew → e ≠ ew →
  exec_fds (prepared ew i o e rq t) !! k ≠ Some (PipeWrite p).
Proof.
  intros H3 Ho Hi Hoo He Ni No Ne Hk. rewrite exec_fds_lookup in Hk.
  assert (Hh : hidden_end p ew (prepared ew i o e rq t)).
  { unfold prepared. fold (hidden ew rq t).
    assert (Gh : ∀ fd, given fd t → given fd (hidden ew rq t)) by (intros; by apply given_hidden).
    do 3 (apply hidden_end_redirected; [lia|repeat apply given_redirected; by auto|done|done|]).
    by apply hidden_end_hidden. }
  destruct (prepared ew i o e rq t !! k) as [[f []]|] eqn:E; [done| |done]. injection Hk as ->.
  by destruct (Hh k _ E eq_refl).
Qed.

Section ForkExec.
Context {Sys : System} {Gl : GLib} {Laws : SystemLaws}.

(** The state in which the child searches for the program. *)
Definition child_start (fds : list Z) (c : bool) (s : uproc) : uproc :=
  child_ready (pipe_r (u_fds s) :: -1 :: fds) (piped c s).

(** Why no program was started. *)
Definition explains (rq : request) (r : image + Z) (err : gerror) : Prop :=
  (∃ e, r = inr e ∧ err = ExecFailed (default [] (head (argv rq))) e) ∨
  (∃ e, working_directory rq ≠ None ∧ err = ChdirFailed (working_directory rq) e) ∨
  (∃ e, err = PipeFailed e ∨ err = ForkFailed e ∨ err = ChildForkFailed e).

Lemma born_replaced s pid im c :
  u_exec c = Some im → born s pid Replaced c = start pid im (parent_of s c).
Proof. intros E. unfold born, start. rewrite E. by destruct (sys_runs im). Qed.

Lemma born_exited s pid c : born s pid Exited c = buried pid (u_status c) (parent_of s c).
Proof. unfold born, buried. reflexivity. Qed.

Lemma resolve_error args env s eacces files e ims :
  resolve args env s eacces files = (inr e, ims) → 0 < e < 4096.
Proof.
  revert eacces ims. induction files as [|f files IH]; intros eacces ims; [by intros [= <- _]|].
  rewrite resolve_cons. unfold verdict.
  assert (Hnext : ∀ x ims0, (0 < x < 4096) →
    (if keeps_looking x then
       match files with
       | [] => (inr (if eacces || (x =? EACCES) then EACCES else x), ims0)
       | _ => let '(r, ims') := resolve args env s (eacces || (x =? EACCES)) files in (r, ims0 ++ ims')
       end else (inr x, ims0)) = (inr e : image + Z, ims) → 0 < e < 4096).
  { intros x ims0 Hx. destruct (keeps_looking x); [|by intros [= <- _]].
    destruct files as [|g files]; [intros [= <- _]; by case_match|].
    destruct (resolve args env s (eacces || (x =? EACCES)) (g :: files)) as [r ims'] eqn:Er.
    intros [= -> _]. by eapply IH. }
  destruct (sys_exec (image_of env s f args)) as [x|] eqn:E1; [|done].
  destruct (x =? ENOEXEC).
  - destruct (sys_exec (image_of env s SH (SH :: f :: tail args))) as [y|] eqn:E2; [|done].
    exact (Hnext y _ (exec_errors _ _ E2)).
  - exact (Hnext x _ (exec_errors _ _ E1)).
Qed.

(** When there is no child the pipes are closed again. *)
Lemma wp_cleanup_none (P : Z → Prop) ps err (Q : gerror + Z → uproc → Prop) s s1 :
  went P (u_fds s1) s s1 →
  dropped [err_r ps; err_w ps; pid_r ps; pid_w ps] (u_fds s1) = u_fds s →
  (∀ s', later P s s' → Q (inl err) s') →
  wp (cleanup_and_fail (-1) ps err) Q s1.
Proof.
  intros Hw Hd HQ. unfold cleanup_and_fail. wp_step. cbn. unfold wp. rewrite close_all_then.
  apply HQ, went_later. eapply went_trans; [exact Hw|]. rewrite <- Hd.
  apply without_went. done.
Qed.

Lemma piped_went P c io s :
  P (u_next s) → io `suffix_of` u_io s →
  went P (pipe_table (u_next s) c (u_fds s)) s (piped c (s <| u_io := io |>)).
Proof.
  intros HP Hio. split; [|done].
  assert (L : later P s (s <| u_io := io |> <| u_next := u_next s + 1 |>)).
  { eapply later_one; [apply moves_next; rs; lia|]. apply rtc_once. by apply moves_io. }
  etrans; [exact L|]. apply rtc_once.
  exact (moves_pipe P (s <| u_io := io |> <| u_next := u_next s + 1 |>) (u_next s) [] HP).
Qed.

(** ** The child's side of the fork *)

Lemma child_table_ready c ccf fds i o e s :
  ready ccf fds i o e s →
  let p := u_next s in let ew := pipe_w p c (u_fds s) in
  let t := dropped (pipe_r (u_fds s) :: -1 :: fds) (pipe_table p c (u_fds s)) in
  startable p ew i o e t ∧ only_end p ew t ∧ i ≠ ew ∧ o ≠ ew ∧ e ≠ ew.
Proof.
  intros [Hstd Hok Hroom Hi Ho He Hclose Hfds Hfresh] p ew t. set (er := pipe_r (u_fds s)) in *.
  pose proof (pipe_fds p c (u_fds s)) as (Her0 & Hew0 & Hne & Hrr & Hrw).
  pose proof (pipe_fds_high p c (u_fds s) Hstd) as [Her3 Hew3]. fold er ew in Her0, Hew0, Hne, Her3, Hew3.
  assert (Hnew : ∀ fd, given fd (u_fds s) → fd ≠ ew ∧ fd ≠ er).
  { intros fd [|[_ [v Hv]]]; [lia|]. split; intros ->; congruence. }
  split_and!; [| |by apply Hnew..].
  - apply startable_dropped; [|by apply std_piped|apply ok_piped; [done|lia..]|by apply given_piped..|].
    { split; [done|]. exists c. by rewrite pipe_table_lookup, decide_True. }
    intros k [->|[->|Hk]%elem_of_cons]%elem_of_cons; [|by left|].
    + right. destruct (Hnew i Hi), (Hnew o Ho), (Hnew e He). intuition lia.
    + destruct (Hfds k Hk) as [|(H3 & [v Hv] & Hx)]; [by left|right]. split; [done|].
      split; [|done]. intros ->. congruence.
  - intros k v Hv Hf. unfold t in Hv. rewrite dropped_lookup in Hv. destruct (_ && _); [done|].
    rewrite pipe_table_lookup in Hv. repeat case_decide; [done|by injection Hv as <-|].
    pose proof (fr_own _ Hfresh k v p Hv Hf). unfold p in *. lia.
Qed.

(** What the parent finds: the program started, or a report and a child that ended. *)
Definition born_as (P : Z → Prop) (p pid : Z) (rq : request) (r : image + Z) (s b : uproc) : Prop :=
  unheld p b ∧ known pid b ∧
  ((∃ im x, r = inl im ∧ later P s x ∧ b = start pid im x ∧ pipe_of p b = []) ∨
   (∃ x msg e, later P s x ∧ b = buried pid 256 x ∧ is_int msg ∧
      pipe_of p b = bytes_of_int msg ++ bytes_of_int e ∧
      (calm s → explains rq r (decoded_error rq msg e)))).

Lemma launched_system s l pid c : 
  system_later (child_ready l (s <| u_next := pid + 1 |> <| u_kids := [] |> <| u_exec := None |>)) c →
  u_next s ≤ pid → later nothing s (parent_of s c).
Proof.
  intros H Hle. apply (later_parent_of _ s) in H.
  etrans; [|exact H].
  assert (M : moves nothing s (s <| u_next := pid + 1 |>)) by (apply moves_next; lia).
  apply rtc_once in M. destruct s. exact M.
Qed.

Lemma wpx_born P p ew i o e rq file args l s pid :
  let c0 := child_ready l (s <| u_next := pid + 1 |> <| u_kids := [] |> <| u_exec := None |>) in
  P p → u_next s ≤ pid →
  startable p ew i o e (u_fds c0) → only_end p ew (u_fds c0) → i ≠ ew → o ≠ ew → e ≠ ew →
  harmless rq → argv rq = file :: args → argv_pass rq ≠ [] → null_safe i o e rq s →
  unheld p s → pipe_of p s = [] →
  wpx (do_exec ew i o e rq) (λ _ _, False)
    (λ w c, born_as P p pid rq (search_result ew i o e rq file c0).1 s (born s pid w c)) c0.
Proof.
  intros c0 HP Hpid Hst Honly Ni No Ne Hh Hargv Hpass Hnull Hun Hempty.
  eapply wpx_mono; [by eapply (wpx_do_exec p)|done|]. intros w c. unfold launched.
  destruct w; try done.
  - intros (msg & e' & (s3 & s4 & Hsys & Hw & ->) & Hmsg). rewrite born_exited.
    change (u_status (s4 <| u_status := 256 |>)) with 256.
    change (parent_of s (s4 <| u_status := 256 |>)) with (parent_of s s4).
    assert (L3 : later nothing s (parent_of s s3)) by (by eapply launched_system).
    assert (L4 : later P s (parent_of s s4)).
    { etrans; [by apply later_any|]. apply later_parent_of. by eapply wrote_later. }
    assert (Hun4 : unheld p (parent_of s s4)) by (by eapply later_unheld).
    assert (Hp3 : pipe_of p s3 = []).
    { change (pipe_of p (parent_of s s3) = []). by rewrite (later_pipe _ p _ _ L3 (λ x, x) Hun). }
    assert (Hpipe : pipe_of p s4 = bytes_of_int msg ++ bytes_of_int e').
    { by rewrite (wrote_pipe _ _ _ _ Hw), Hp3. }
    assert (Hint : is_int msg).
    { destruct Hmsg as [[-> _]|[[-> _]|[-> _]]]; unfold is_int; done. }
    split_and!; [exact Hun4|right; unfold buried; rs; rewrite fmap_app; set_solver|]. right.
    exists (parent_of s s4), msg, e'. split_and!; [done..|]. intros Hcalm.
    destruct Hmsg as [[-> Hr]|[[-> Hr]|[-> Hr]]].
    + left. exists e'. split; [done|]. rewrite decoded_small; [done|].
      destruct (search_result ew i o e rq file c0) as [r ims] eqn:Es. cbn in Hr. subst r.
      apply resolve_error in Es. unfold is_int. lia.
    + right. left. by eexists.
    + by destruct Hr.
  - intros (im & Hr & He & Hsys). rewrite (born_replaced _ _ _ _ He).
    assert (L : later nothing s (parent_of s c)) by (by eapply launched_system).
    assert (Hun' : unheld p (parent_of s c)) by (by eapply later_unheld).
    assert (Him : im_fds im = exec_fds (prepared ew i o e rq (u_fds c0))).
    { destruct (search_result ew i o e rq file c0) as [r ims] eqn:Es. cbn in Hr. subst r.
      by apply resolve_started in Es as (_ & -> & _). }
    split_and!.
    + intros r fd [Hin|Hin]%elem_of_app; [by apply Hun'|].
      apply list_elem_of_singleton in Hin as ->. cbn [r_fds]. rewrite Him.
      destruct Hst as [[H3 _] _ _ Hi Ho Hee]. by apply prepared_unheld.
    + left. unfold start. rs. rewrite fmap_app. set_solver.
    + left. exists im, (parent_of s c). split_and!; [done|by apply later_any|done|].
      change (pipe_of p (parent_of s c) = []). by rewrite (later_pipe _ p _ _ L (λ x, x) Hun).
Qed.

(** ** The parent's side *)

Lemma wp_parent_born c ccf fds i o e rq r s s2 b pid (Q : gerror + Z → uproc → Prop) :
  let P := λ q, u_next s ≤ q in
  let p := u_next s in let t := u_fds s in
  ready ccf fds i o e s → went P (pipe_table p c t) s s2 → born_as P p pid rq r s2 b →
  u_next s ≤ pid →
  (∀ im s1 s', r = inl im → later P s s1 → later P (start pid im s1) s' → Q (inr pid) s') →
  (∀ err s', (calm s → explains rq r err ∧ later P s s') → u_fds s' = t → Q (inl err) s') →
  wp (parent_main false pid (mkPipes (pipe_r t) (pipe_w p c t) (-1) (-1)) rq) Q b.
Proof.
  intros P p t [Hstd _ _ _ _ _ _ _ Hfresh] W (Hun & Hkn & Hcase) Hpid HS HF.
  set (er := pipe_r t). set (ew := pipe_w p c t). set (T := pipe_table p c t) in *.
  pose proof (pipe_fds p c t) as (_ & _ & Hne & Hrr & Hrw). fold er ew in Hne, Hrr, Hrw.
  assert (Hb : u_fds b = T ∧ pid ∈ u_kids b).
  { destruct W as [_ E]. destruct Hcase as [(im & x & _ & Hl & -> & _)|(x & msg & e' & Hl & -> & _)];
      (split; [rewrite <- E; exact (later_fds _ _ _ Hl)|apply elem_of_cons; by left]). }
  destruct Hb as [Hfb Hkb].
  assert (Hpos : 0 < pid) by (destruct Hfresh; lia).
  assert (Hdrop : dropped [ew; -1; er; -1] T = t).
  { apply pipe_table_dropped; [|set_solver..]. intros k. unfold er, ew, p, t. set_unfold.
    intuition (subst; auto; lia). }
  eapply (wp_parent_main rq P pid _ p c); cbn [err_r err_w pid_r pid_w]; try lia; try done.
  - unfold P, p. lia.
  - rewrite Hfb. unfold T, er. rewrite pipe_table_lookup. rewrite decide_False by done.
    by rewrite decide_True.
  - intros k v Hv Hf. unfold without in Hv. revert Hv. rs. rewrite Hfb, dropped_lookup.
    intros Hv. destruct (bool_decide (k ∈ [ew; -1]) && (0 <=? k)) eqn:Ek; [done|].
    unfold T in Hv. rewrite pipe_table_lookup in Hv. fold ew er in Hv.
    destruct (decide (k = ew)) as [->|]; [|destruct (decide (k = er)); [by injection Hv as <-|]].
    + rewrite bool_decide_true in Ek by set_solver. cbn [andb] in Ek. lia.
    + pose proof (fr_own _ Hfresh k v p Hv Hf). unfold p in *. lia.
  - rewrite Hfb, Hdrop.
    destruct Hcase as [(im & x & Hr & Hl & -> & Hempty)|(x & msg & e' & Hl & -> & Hmsg & Hp & Hex)].
    + left. split; [done|]. intros s' [Hs' E]. apply (HS im (x <| u_fds := t |>)); [done| |].
      * destruct W as [W1 _]. etrans; [exact W1|]. by apply later_with_fds.
      * apply (later_with_fds _ t) in Hs'. rewrite <- E in Hs' at 2. by destruct s'.
    + right. exists msg, e'. split_and!; [done..|]. intros s1 Hl1 _. apply HF; [|done].
      intros Hcalm. assert (Hc2 : calm s2) by by eapply went_calm. split; [by apply Hex|].
      assert (Hx : (∀ k, k ∈ u_kids x → k ≠ pid) ∧ (∀ z, z ∈ u_zombies x → z.1 ≠ pid) ∧ absent pid x).
      { assert (Hlx : later P s (x <| u_fds := t |>)).
        { destruct W as [W1 _]. etrans; [exact W1|]. by apply later_with_fds. }
        destruct Hfresh as [_ _ _ Fk Fp Fz].
        destruct (later_known_below _ (u_next s) _ _ Hlx (conj Fp Fz)) as [Bp Bz]. split_and!.
        - intros k Hk. change (k ∈ u_kids (x <| u_fds := t |>)) in Hk.
          rewrite (later_kids _ _ _ Hlx) in Hk. specialize (Fk k Hk). lia.
        - intros z Hz. specialize (Bz z Hz). lia.
        - intros (r0 & E & Hr0)%list_elem_of_fmap. specialize (Bp r0 Hr0). lia. }
      destruct Hx as (Hxk & Hxz & Hxa).
      apply (later_reaped _ pid) in Hl1; [|exact Hxa]. rewrite reaped_buried in Hl1 by done.
      apply (later_with_fds _ t) in Hl1. destruct W as [W1 _].
      etrans; [exact W1|]. etrans; [by apply later_with_fds|]. exact Hl1.
  - intros err s' Hc. rewrite Hfb, Hdrop. apply HF. intros Hcalm. exfalso. apply Hc.
    assert (Hc2 : calm s2) by by eapply went_calm.
    destruct Hcase as [(im & x & _ & Hl & -> & _)|(x & msg & e' & Hl & -> & _)];
      exact (later_calm _ _ _ Hl Hc2).
Qed.

Lemma wp_by_fork_direct rq c ccf fds i o e file args (Q : gerror + Z → uproc → Prop) s :
  ready ccf fds i o e s → harmless rq → argv rq = file :: args → argv_pass rq ≠ [] →
  null_safe i o e rq s →
  let P := λ q, u_next s ≤ q in
  let r := (search_result (pipe_w (u_next s) c (u_fds s)) i o e rq file (child_start fds c s)).1 in
  (∀ pid im s1 s', u_next s ≤ pid → r = inl im → later P s s1 → later P (start pid im s1) s' →
     Q (inr pid) s') →
  (∀ err s', (calm s → explains rq r err ∧ later P s s') → u_fds s' = u_fds s → Q (inl err) s') →
  wp (by_fork false rq c ccf i o e) Q s.
Proof.
  intros Hready Hh Hargv Hpass Hnull P r HS HF. pose proof Hready as [Hstd _ _ _ _ _ Hclose _ Hfresh].
  assert (HFl : ∀ err s', explains rq r err → later P s s' → Q (inl err) s').
  { intros err s' Hex Hl. apply HF; [done|]. by apply later_fds in Hl. }
  unfold by_fork. wp_step. apply wp_pipe2.
  { intros s' H'. wp_go. apply HFl; [|by apply later_any]. right. right. exists (u_errno s'). auto. }
  intros io Hio. cbn beta iota. set (p := u_next s). set (t := u_fds s).
  change (pipe_r (u_fds s)) with (pipe_r t). change (pipe_w (u_next s) c (u_fds s)) with (pipe_w p c t).
  assert (HPp : P p) by (unfold P, p; lia).
  assert (W1 : went P (pipe_table p c t) s (piped c (s <| u_io := io |>))) by by apply piped_went.
  set (s1 := piped c (s <| u_io := io |>)) in *. wp_step. apply wp_ret. cbn beta iota zeta.
  wp_step. apply wp_fork.
  { intros s2 H2. wp_go; [|lia]. eapply (wp_cleanup_none P _ _ _ s).
    - rewrite (later_fds _ _ _ H2). eapply went_trans; [exact W1|]. by apply later_went, later_any.
    - rewrite (later_fds _ _ _ H2). pose proof (pipe_fds p c t) as (_ & _ & _ & Hrr & Hrw).
      apply pipe_table_dropped; [|set_solver..]. intros k. set_unfold. intuition (subst; auto; lia).
    - intros s' H'. apply HFl; [|done]. right. right. exists (u_errno s2). auto. }
  intros io2 Hio2. set (s2 := s1 <| u_io := io2 |>). cbv zeta. change (u_next s1) with (p + 1).
  assert (W2 : went P (pipe_table p c t) s s2).
  { eapply went_trans; [exact W1|]. apply (later_went P s1 s2). apply rtc_once. by apply moves_io. }
  destruct (child_table_ready c ccf fds i o e s Hready) as (Hst & Honly & Ni & No & Ne).
  unfold wpx. erewrite child_main_eq by done. cbn [err_r err_w pid_r pid_w].
  set (c0 := child_ready _ _).
  eapply (wpx_mono (λ w c', _)).
  - apply (wpx_born P p (pipe_w p c t) i o e rq file args _ s2 (p + 1)); try done.
    + destruct Hnull as [Hc|Hn]; [left; by eapply went_calm|by right].
    + intros r0 fd Hr0 Hf. pose proof (fr_held _ Hfresh r0 fd p Hr0 Hf). unfold p in *. lia.
    + unfold pipe_of. change (u_pipes s2) with (<[p := []]> (u_pipes s)). by rewrite lookup_insert_eq.
  - done.
  - intros w c' Hb. cbn beta. apply wp_if; [intros Hz; exfalso; destruct Hfresh; unfold p in Hz; lia|intros _].
    eapply (wp_parent_born c ccf fds i o e rq r s s2); [done|exact W2| |lia|..].
    + assert (Er : r = (search_result (pipe_w p c t) i o e rq file c0).1).
      { unfold r, search_result. reflexivity. }
      rewrite Er. exact Hb.
    + intros im s3 s' Hr Hl1 Hl2. apply (HS (p + 1) im s3 s'); [unfold p; lia|done..].
    + exact HF.
Qed.

(** [posix_spawn] is not used when descriptors are to be closed. *)
Lemma fork_exec_with_fds_direct avail intermediate rq c ccf i o e s :
  close_descriptors rq = true →
  fork_exec_with_fds avail intermediate rq c ccf i o e s = by_fork intermediate rq c ccf i o e s.
Proof.
  intros Hc. unfold fork_exec_with_fds, by_posix_spawn. rewrite Hc. cbn [negb].
  by rewrite andb_false_r, !andb_false_l.
Qed.
End ForkExec.

(** What starting a program amounts to: a new process that runs it, or an error and
    nothing. *)
Definition spawned `{!System} (rq : request) (r : image + Z) (s : uproc) (a : gerror + Z) (s' : uproc) :
    Prop :=
  let fresh_pipes := λ q, u_next s ≤ q in
  u_fds s' = u_fds s ∧
  match a with
  | inr pid => ∃ im s1, u_next s ≤ pid ∧ r = inl im ∧
      later fresh_pipes s s1 ∧ later fresh_pipes (start pid im s1) s'
  | inl err => calm s → explains rq r err ∧ later fresh_pipes s s'
  end.

Lemma wp_by_fork {Sys : System} {Gl : GLib} {Laws : SystemLaws} rq c ccf fds i o e file args s :
  ready ccf fds i o e s → null_safe i o e rq s → harmless rq → argv rq = file :: args →
  argv_pass rq ≠ [] →
  wp (by_fork false rq c ccf i o e)
    (spawned rq (search_result (pipe_w (u_next s) c (u_fds s)) i o e rq file (child_start fds c s)).1 s) s.
Proof.
  intros Hr Hn Hh Ha Hp. eapply wp_by_fork_direct; [done..| |].
  - intros pid im s1 s' Hpid Hres H1 H2. split; [|by exists im, s1].
    apply later_fds in H2 as ->. by apply later_fds in H1.
  - intros err s' Hex Hf. by split.
Qed.

(** C4: Starting a program through a fork, with [close_descriptors] and without an intermediate child
    (as with DO_NOT_REAP_CHILD), either starts exactly one new process, which
    runs the program the search finds with the descriptors prepared for it, or answers
    with the error that explains it (when calls are at most interrupted) and leaves no
    process and no pipe behind; in both cases the caller's descriptors are as before. *)
Theorem fork_exec_starts `{!System, !GLib, !SystemLaws} avail rq c ccf fds i o e file args s
    (Hready : ready ccf fds i o e s) (Hnull : null_safe i o e rq s) (Hsetup : harmless rq)
    (Hargv : argv rq = file :: args) (Hpass : argv_pass rq ≠ []) (Hclose : close_descriptors rq = true) :
  wp (fork_exec_with_fds avail false rq c ccf i o e)
    (spawned rq (search_result (pipe_w (u_next s) c (u_fds s)) i o e rq file (child_start fds c s)).1 s) s.
Proof. unfold wp. rewrite fork_exec_with_fds_direct by done. by eapply wp_by_fork. Qed.
