(* ===== verification/GSpawnPipes.v ===== *)
(** [fork_exec_with_pipes]: the pipes around a call that starts a program.  On success
    the caller keeps its own ends and nothing else; on failure every descriptor is
    closed again. *)
From S2P Require Import Prelude Nptl Unix GExecute GSpawnIo GSpawnChild GSpawn.

Implicit Types s : uproc.

(** A process that opened the descriptors [l], and otherwise let the system go on. *)
Record opened `{!System} (l : list Z) (n : Z) (s0 s : uproc) : Prop := {
  op_went : went (λ q, u_next s0 ≤ q) (u_fds s) s0 s;
  op_drop : dropped l (u_fds s) = u_fds s0;
  op_ends k : k ∈ l → k < 0 ∨ (3 ≤ k ∧ is_Some (u_fds s !! k) ∧ u_fds s0 !! k = None);
  op_keep k : is_Some (u_fds s0 !! k) → u_fds s !! k = u_fds s0 !! k;
  op_std : std_open (u_fds s);
  op_ok : table_ok (u_fds s);
  op_room : Z.of_nat (size (u_fds s)) ≤ Z.of_nat (size (u_fds s0)) + n;
  op_fresh : fresh s;
  op_low k : k ∈ l → k ≤ Z.of_nat (size (u_fds s0)) + n;
}.

(** The two ends of a pipe that was asked for. *)
Definition ends (wanted : bool) (r w : Z) (s s' : uproc) : Prop :=
  if wanted then
    let p := u_next s in
    3 ≤ r ∧ 3 ≤ w ∧ r ≠ w ∧ u_fds s !! r = None ∧ u_fds s !! w = None ∧
    (∃ c, u_fds s' !! r = Some (PipeRead p, c)) ∧ (∃ c, u_fds s' !! w = Some (PipeWrite p, c)) ∧
    u_next s' = p + 1 ∧ unheld p s' ∧ pipe_of p s' = [] ∧ only_end p w (u_fds s') ∧
    (∀ k v, u_fds s' !! k = Some v → u_fds s !! k = Some v ∨ v.1 = PipeRead p ∨ v.1 = PipeWrite p) ∧
    (∀ q, q < p → unheld q s → pipe_of q s = [] → unheld q s' ∧ pipe_of q s' = [])
  else r = -1 ∧ w = -1 ∧ s' = s.

Lemma size_pipe_table p c t : Z.of_nat (size (pipe_table p c t)) = Z.of_nat (size t) + 2.
Proof.
  pose proof (pipe_fds p c t) as (Hr & Hw & Hne & _). unfold pipe_table.
  rewrite map_size_insert_None by (by rewrite lookup_insert_ne).
  rewrite map_size_insert_None by done. lia.
Qed.

Lemma later_fresh P s s' : later P s s' → fresh s → fresh s'.
Proof.
  intros H [F1 F2 F3 F4 F5 F6]. pose proof (later_next _ _ _ H) as Hn.
  destruct (later_known_below _ (u_next s) _ _ H (conj F5 F6)) as [Bp Bz]. split.
  - lia.
  - intros fd v p. rewrite (later_fds _ _ _ H). intros Hv Hf. specialize (F2 fd v p Hv Hf). lia.
  - intros r fd p Hr Hf. destruct (later_running _ _ _ _ H Hr) as (r0 & H0 & _ & E).
    rewrite E in Hf. specialize (F3 r0 fd p H0 Hf). lia.
  - intros k. rewrite (later_kids _ _ _ H). intros Hk. specialize (F4 k Hk). lia.
  - intros r Hr. specialize (Bp r Hr). lia.
  - intros z Hz. specialize (Bz z Hz). lia.
Qed.

Lemma piped_fresh c s : fresh s → fresh (piped c s).
Proof.
  intros [F1 F2 F3 F4 F5 F6]. unfold piped. split; rs.
  - lia.
  - intros fd v p Hv Hf. rewrite pipe_table_lookup in Hv.
    destruct (decide (fd = pipe_w (u_next s) c (u_fds s))).
    { injection Hv as <-. injection Hf as <-. lia. }
    destruct (decide (fd = pipe_r (u_fds s))); [by injection Hv as <-|].
    specialize (F2 fd v p Hv Hf). lia.
  - intros r fd p Hr Hf. specialize (F3 r fd p Hr Hf). lia.
  - intros k Hk. specialize (F4 k Hk). lia.
  - intros r Hr. specialize (F5 r Hr). lia.
  - intros z Hz. specialize (F6 z Hz). lia.
Qed.

Section Open.
Context {Sys : System}.

Lemma wp_open_pipe wanted c l n (Q : option (Z * Z) → uproc → Prop) s0 s :
  opened l n s0 s →
  Z.of_nat (size (u_fds s0)) + n + 2 < open_limit → Z.of_nat (size (u_fds s0)) + n + 2 < G_MAXINT →
  (∀ s', later nothing s s' → Q None s') →
  (∀ r w s1 s', later nothing s s1 → ends wanted r w s1 s' → opened (r :: w :: l) (n + 2) s0 s' →
     (∀ k, is_Some (u_fds s !! k) → u_fds s' !! k = u_fds s !! k) → Q (Some (r, w)) s') →
  wp (if wanted then pipe2 c else mret (Some (-1, -1))) Q s.
Proof.
  intros [Hw Hd He Hk Hs Hok Hr Hf Hlow] Hl1 Hl2 HN HS. destruct wanted.
  - apply wp_pipe2; [done|]. intros io Hio. set (s1 := s <| u_io := io |>).
    assert (L1 : later nothing s s1) by (apply rtc_once; by apply moves_io).
    set (t := u_fds s) in *. set (p := u_next s).
    pose proof (pipe_fds p c t) as (Er & Ew & Hne & Hrr & Hrw).
    pose proof (pipe_fds_high p c t Hs) as [H3r H3w].
    assert (N0 : u_next s0 ≤ p) by (destruct Hw as [Hw _]; exact (later_next _ _ _ Hw)).
    assert (Hnone : ∀ k, t !! k = None → u_fds s0 !! k = None).
    { intros k Hk0. destruct (u_fds s0 !! k) as [v|] eqn:Ev; [|done].
      rewrite Hk in Hk0 by by eexists. congruence. }
    apply (HS _ _ s1 (piped c s1)); [done| | |intros k; apply pipe_table_open].
    + assert (Hpipe : ∀ q, pipe_of q (piped c s1) = if decide (q = p) then [] else pipe_of q s).
      { intros q. unfold pipe_of, piped. rs. case_decide; [subst; by rewrite lookup_insert_eq|].
        by rewrite lookup_insert_ne. }
      unfold ends. change (u_next s1) with p. change (u_fds s1) with t. change (u_next (piped c s1)) with (p + 1).
      change (u_fds (piped c s1)) with (pipe_table p c t).
      split_and!; try done.
      * exists c. by rewrite pipe_table_lookup, decide_False, decide_True.
      * exists c. by rewrite pipe_table_lookup, decide_True.
      * intros r0 fd Hr0 Hf0. pose proof (fr_held _ Hf r0 fd p Hr0 Hf0). unfold p in *. lia.
      * by rewrite Hpipe, decide_True.
      * intros k v Hv Hfv. rewrite pipe_table_lookup in Hv.
        destruct (decide (k = pipe_w p c t)); [done|].
        destruct (decide (k = pipe_r t)); [by injection Hv as <-|].
        pose proof (fr_own _ Hf k v p Hv Hfv). unfold p in *. lia.
      * intros k v Hv. rewrite pipe_table_lookup in Hv.
        destruct (decide (k = pipe_w p c t)); [injection Hv as <-; auto|].
        destruct (decide (k = pipe_r t)); [injection Hv as <-; auto|]. by left.
      * intros q Hq Hun Hempty. split; [exact Hun|]. by rewrite Hpipe, decide_False by lia.
    + split.
      * eapply went_trans; [exact Hw|]. apply (piped_went (λ q, u_next s0 ≤ q)); done.
      * change (u_fds (piped c s1)) with (pipe_table p c t).
        change (pipe_r t :: pipe_w p c t :: l) with ([pipe_r t; pipe_w p c t] ++ l).
        rewrite dropped_app, (pipe_table_dropped p c t); [done|intros k; set_solver|set_solver..].
      * change (u_fds (piped c s1)) with (pipe_table p c t).
        intros k [->|[->|Hin]%elem_of_cons]%elem_of_cons.
        -- right. split_and!; [done| |auto]. rewrite pipe_table_lookup, decide_False, decide_True by done. eauto.
        -- right. split_and!; [done| |auto]. rewrite pipe_table_lookup, decide_True by done. eauto.
        -- destruct (He k Hin) as [|(H3 & Ho & H0)]; [by left|right]. split_and!; [done| |done].
           by rewrite pipe_table_open.
      * intros k Hk0. change (u_fds (piped c s1)) with (pipe_table p c t).
        rewrite pipe_table_open; [by apply Hk|]. unfold t. by rewrite Hk.
      * by apply std_piped.
      * change (u_fds (piped c s1)) with (pipe_table p c t). apply ok_piped; [done|lia..].
      * change (u_fds (piped c s1)) with (pipe_table p c t). rewrite size_pipe_table. unfold t in *. lia.
      * apply piped_fresh. by eapply later_fresh.
      * intros k [->|[->|Hin]%elem_of_cons]%elem_of_cons; [unfold t in *; lia..|]. specialize (Hlow k Hin). lia.
  - apply wp_ret. apply (HS (-1) (-1) s s); [done|done| |done].
    split; try done; [intros k [->|[->|Hin]%elem_of_cons]%elem_of_cons; [by left..|by apply He]|lia|].
    intros k [->|[->|Hin]%elem_of_cons]%elem_of_cons; [lia..|]. specialize (Hlow k Hin). lia.
Qed.
End Open.

(** ** The composition *)

(** The ends of a wanted pipe that is empty and that no program has. *)
Definition pipe_at (wanted : bool) (r w p : Z) (s : uproc) : Prop :=
  if wanted then
    3 ≤ r ∧ 3 ≤ w ∧ r ≠ w ∧ p < u_next s ∧
    (∃ c, u_fds s !! r = Some (PipeRead p, c)) ∧ (∃ c, u_fds s !! w = Some (PipeWrite p, c)) ∧
    unheld p s ∧ pipe_of p s = [] ∧ only_end p w (u_fds s)
  else r = -1 ∧ w = -1.

Lemma ends_at wanted r w s s' : ends wanted r w s s' → pipe_at wanted r w (u_next s) s'.
Proof.
  unfold ends, pipe_at. destruct wanted; [|tauto].
  intros (Hr & Hw & Hne & _ & _ & Er & Ew & En & Hu & Hp & Ho & _). split_and!; try done. lia.
Qed.

Section Compose.
Context {Sys : System} {Gl : GLib} {Laws : SystemLaws}.

(** Opening another pipe changes nothing for one that is there. *)
Lemma pipe_at_ends wanted r w p wanted' r' w' s s1 s' :
  pipe_at wanted r w p s → later nothing s s1 → ends wanted' r' w' s1 s' →
  (∀ k, is_Some (u_fds s !! k) → u_fds s' !! k = u_fds s !! k) →
  pipe_at wanted r w p s' ∧
  (wanted = true → wanted' = true → p < u_next s1 ∧ r ≠ r' ∧ r ≠ w' ∧ w ≠ r' ∧ w ≠ w').
Proof.
  unfold pipe_at. destruct wanted; [|done].
  intros (Hr & Hw & Hne & Hp & (cr & Er) & (cw & Ew) & Hu & Hempty & Honly) L He Hk.
  pose proof (later_next _ _ _ L) as Hn. pose proof (later_fds _ _ _ L) as Hf.
  assert (Hu1 : unheld p s1) by by eapply later_unheld.
  assert (Hp1 : pipe_of p s1 = []) by (by rewrite (later_pipe _ p _ _ L (λ x, x) Hu)).
  unfold ends in He. destruct wanted'.
  - destruct He as (Hr' & Hw' & Hne' & Er' & Ew' & _ & _ & En & _ & _ & _ & Hnew & Hold).
    rewrite Hf in Er', Ew'. destruct (Hold p ltac:(lia) Hu1 Hp1) as [Hu2 Hp2]. split.
    + split_and!; try done; [lia|exists cr; by rewrite Hk, Er|exists cw; by rewrite Hk, Ew|].
      intros k v Hv Hfv. destruct (Hnew k v Hv) as [Hv'|[Hv'|Hv']].
      * rewrite Hf in Hv'. by eapply Honly.
      * congruence.
      * rewrite Hfv in Hv'. injection Hv' as ->. lia.
    + intros _ _. split; [lia|]. split_and!; intros ->; congruence.
  - destruct He as (-> & -> & ->). split; [|done].
    split_and!; try done; [lia|exists cr; by rewrite Hf|exists cw; by rewrite Hf|by rewrite Hf].
Qed.

Lemma before_end_some a b c : ∃ fds, before_end [a; b; c; -1] = Some fds ∧ ∀ k, k ∈ fds → k ∈ [a; b; c].
Proof.
  cbn [before_end]. change (-1 =? -1) with true. cbn iota.
  destruct (a =? -1); [eexists; split; [done|set_solver]|].
  destruct (b =? -1); [eexists; split; [done|set_solver]|].
  destruct (c =? -1); (eexists; split; [done|set_solver]).
Qed.

(** What the caller has: its ends, and a program with the others. *)
Definition piped_program (wi wo we : bool) (rq : request) (file : str) (c : bool) (s0 : uproc)
    (st : started) (s' : uproc) : Prop :=
  ∃ s fds ir ow ew pi po pe im s1 s2,
    let PF := λ q, u_next s ≤ q in
    let iw := standard_input st in let or := standard_output st in let er := standard_error st in
    opened [er; ew; or; ow; ir; iw] 6 s0 s ∧
    pipe_at wi ir iw pi s ∧ pipe_at wo or ow po s ∧ pipe_at we er ew pe s ∧
    (wo = true → we = true → po ≠ pe ∧ or ≠ er ∧ or ≠ ew ∧ ow ≠ er ∧ ow ≠ ew) ∧
    ready (Some [iw; or; er; -1]) fds ir ow ew s ∧ u_next s ≤ child_pid st ∧
    (search_result (pipe_w (u_next s) c (u_fds s)) ir ow ew rq file (child_start fds c s)).1 = inl im ∧
    later PF s s1 ∧ later PF (start (child_pid st) im s1) s2 ∧ s' = without [ir; ow; ew] s2.

Lemma wp_fail_pipes {A} (i o e : Z * Z) err l n (Q : gerror + A → uproc → Prop) s0 s s1 :
  opened l n s0 s → u_fds s1 = u_fds s →
  (∀ k, k ∈ l → k < 0 ∨ k ∈ [i.1; i.2; o.1; o.2; e.1; e.2]) →
  (∀ k, k ∈ [i.1; i.2; o.1; o.2; e.1; e.2] → k < 0 ∨ k ∈ l) →
  (∀ s', u_fds s' = u_fds s0 →
     (later (λ q, u_next s ≤ q) s s1 → later (λ q, u_next s0 ≤ q) s0 s') → Q (inl err) s') →
  wp (fail_pipes i o e err) Q s1.
Proof.
  intros Ho Hf Hl1 Hl2 HQ. unfold fail_pipes. do 6 (apply wp_close_then; cbv beta). apply wp_ret.
  set (all := [i.1; i.2; o.1; o.2; e.1; e.2]) in *. set (s2 := without _ _).
  change s2 with (without all s1). destruct Ho as [Hw Hd _ _ _ _ _ _ _].
  assert (E : dropped all (u_fds s1) = u_fds s0).
  { rewrite Hf, <- Hd. apply map_eq. intros k. rewrite !dropped_lookup.
    destruct (Z.leb_spec 0 k); [|by rewrite !andb_false_r]. rewrite !andb_true_r.
    erewrite bool_decide_ext; [done|]. split; intros Hk; [destruct (Hl2 k Hk)|destruct (Hl1 k Hk)]; lia || done. }
  apply HQ; [exact E|]. intros HL. apply went_later. eapply went_trans; [exact Hw|].
  rewrite <- E, Hf. apply without_went. eapply later_weaken; [|exact HL]. intros q Hq.
  destruct Hw as [Hw _]. pose proof (later_next _ _ _ Hw) as Hn. change (u_next s0 ≤ u_next s) in Hn. cbn beta in Hq |- *. lia.
Qed.

(** Two pipes have no end in common. *)
Definition apart (wa wb : bool) (ra wra rb wrb : Z) : Prop :=
  wa = true → wb = true → ra ≠ rb ∧ ra ≠ wrb ∧ wra ≠ rb ∧ wra ≠ wrb.

Lemma pipe_at_fds wanted r w p s : pipe_at wanted r w p s →
  given r (u_fds s) ∧ given w (u_fds s) ∧ (if wanted then 3 ≤ r ∧ 3 ≤ w ∧ r ≠ w else r = -1 ∧ w = -1).
Proof.
  unfold pipe_at. destruct wanted.
  - intros (Hr & Hw & Hne & _ & (cr & Er) & (cw & Ew) & _). split_and!; try done; right; eauto.
  - intros [-> ->]. split_and!; try done; by left.
Qed.

Lemma pipes_ready wi wo we ir iw or ow er ew pi po pe s0 s :
  opened [er; ew; or; ow; ir; iw] 6 s0 s →
  Z.of_nat (size (u_fds s0)) + 10 < open_limit → Z.of_nat (size (u_fds s0)) + 10 < G_MAXINT →
  pipe_at wi ir iw pi s → pipe_at wo or ow po s → pipe_at we er ew pe s →
  apart wi wo ir iw or ow → apart wi we ir iw er ew → apart wo we or ow er ew →
  ∃ fds, ready (Some [iw; or; er; -1]) fds ir ow ew s.
Proof.
  intros [_ _ _ _ Hs Hok Hroom Hf _] Hl1 Hl2 Pi Po Pe Aio Aie Aoe.
  destruct (pipe_at_fds _ _ _ _ _ Pi) as (Gir & Giw & Fi).
  destruct (pipe_at_fds _ _ _ _ _ Po) as (Gor & Gow & Fo).
  destruct (pipe_at_fds _ _ _ _ _ Pe) as (Ger & Gew & Fe).
  destruct (before_end_some iw or er) as (fds & Eb & Hin). exists fds.
  split; try done; [lia|]. intros k Hk. specialize (Hin k Hk).
  assert (Hopen : k < 0 ∨ (3 ≤ k ∧ is_Some (u_fds s !! k))).
  { set_unfold in Hin. destruct Hin as [->|[->|[->|[]]]]; assumption. }
  destruct Hopen as [|[H3 Ho]]; [by left|right]. split; [done|]. split; [done|].
  unfold apart in *. set_unfold in Hin.
  destruct wi, wo, we; intuition (subst; lia || done).
Qed.

Lemma wp_fork_exec_with_pipes avail rq c wi wo we file args (Q : gerror + started → uproc → Prop) s0 :
  std_open (u_fds s0) → table_ok (u_fds s0) → fresh s0 →
  Z.of_nat (size (u_fds s0)) + 10 < open_limit → Z.of_nat (size (u_fds s0)) + 10 < G_MAXINT →
  harmless rq → argv rq = file :: args → argv_pass rq ≠ [] → close_descriptors rq = true → calm s0 →
  (∀ st s', piped_program wi wo we rq file c s0 st s' → Q (inr st) s') →
  (∀ err s' r, u_fds s' = u_fds s0 → later (λ q, u_next s0 ≤ q) s0 s' → explains rq r err → Q (inl err) s') →
  wp (fork_exec_with_pipes avail false rq c wi wo we) Q s0.
Proof.
  intros Hs Hok Hf Hl1 Hl2 Hh Ha Hp Hc Hcalm HS HF.
  assert (O0 : opened [] 0 s0 s0).
  { split; try done; [by apply later_went|intros k Hk; by apply elem_of_nil in Hk|lia|intros k Hk; by apply elem_of_nil in Hk]. }
  assert (Hopen : ∀ e : Z, explains rq (inr e) (PipeFailed e)) by (intros e; right; right; exists e; auto).
  unfold fork_exec_with_pipes. cbv zeta. wp_step. eapply (wp_open_pipe wi c); [exact O0|lia|lia| |].
  { intros s' L. wp_step. apply wp_gets. eapply (wp_fail_pipes _ _ _ _ _ _ _ s0 s0); [exact O0|by apply later_fds in L| | |].
    - intros k Hk. by apply elem_of_nil in Hk.
    - intros k Hk. left. cbn in Hk. set_unfold. intuition lia.
    - intros s2 E HL. eapply HF; [done|apply HL; by apply later_any|apply Hopen]. }
  intros ir iw sa s1 La Ei O1 Ki. cbn beta iota. pose proof (ends_at _ _ _ _ _ Ei) as Pi.
  wp_step. eapply (wp_open_pipe wo c); [exact O1|lia|lia| |].
  { intros s' L. wp_step. apply wp_gets.
    eapply (wp_fail_pipes _ _ _ _ _ _ _ s0 s1); [exact O1|by apply later_fds in L| | |].
    - intros k Hk. right. cbn. set_unfold. intuition.
    - intros k Hk. cbn in Hk. set_unfold. intuition lia.
    - intros s2 E HL. eapply HF; [done|apply HL; by apply later_any|apply Hopen]. }
  intros or ow sb s2 Lb Eo O2 Ko. cbn beta iota. pose proof (ends_at _ _ _ _ _ Eo) as Po.
  destruct (pipe_at_ends _ _ _ _ _ _ _ _ _ _ Pi Lb Eo Ko) as [Pi2 Dio].
  wp_step. eapply (wp_open_pipe we true); [exact O2|lia|lia| |].
  { intros s' L. wp_step. apply wp_gets.
    eapply (wp_fail_pipes _ _ _ _ _ _ _ s0 s2); [exact O2|by apply later_fds in L| | |].
    - intros k Hk. right. cbn. set_unfold. intuition.
    - intros k Hk. cbn in Hk. set_unfold. intuition lia.
    - intros s3 E HL. eapply HF; [done|apply HL; by apply later_any|apply Hopen]. }
  intros er ew sc s3 Lc Ee O3 Ke. cbn beta iota. pose proof (ends_at _ _ _ _ _ Ee) as Pe.
  destruct (pipe_at_ends _ _ _ _ _ _ _ _ _ _ Pi2 Lc Ee Ke) as [Pi3 Die].
  destruct (pipe_at_ends _ _ _ _ _ _ _ _ _ _ Po Lc Ee Ke) as [Po3 Doe].
  destruct (pipes_ready wi wo we ir iw or ow er ew _ _ _ s0 s3 O3 Hl1 Hl2 Pi3 Po3 Pe) as [fds Hready];
    [by intros Hx Hy; destruct (Dio Hx Hy)|by intros Hx Hy; destruct (Die Hx Hy)
    |by intros Hx Hy; destruct (Doe Hx Hy)|].
  assert (Hcalm3 : calm s3) by (destruct O3; by eapply went_calm).
  wp_step. unfold wp. rewrite fork_exec_with_fds_direct by done.
  eapply wp_mono; [eapply (wp_by_fork rq c); [exact Hready|by left|done..]|].
  intros [err|pid] s' [Ef Hsp]; cbn beta iota in Hsp |- *.
  - destruct (Hsp Hcalm3) as [Hex Hl].
    eapply (wp_fail_pipes _ _ _ _ _ _ _ s0 s3); [exact O3|exact Ef| | |].
    + intros k Hk. right. cbn. set_unfold. intuition.
    + intros k Hk. right. cbn in Hk. set_unfold. intuition.
    + intros s4 E HL. by eapply HF; [done|apply HL|exact Hex].
  - destruct Hsp as (im & s4 & Hpid & Hres & H1 & H2).
    do 3 (apply wp_close_then; cbv beta). apply wp_ret. apply HS.
    exists s3, fds, ir, ow, ew, (u_next sa), (u_next sb), (u_next sc), im, s4, s'. cbn.
    split_and!; try done. intros Hx Hy. destruct (Doe Hx Hy) as (Hlt & Hd). split; [lia|exact Hd].
Qed.
End Compose.

(** C18: With pipes, through a fork, with [close_descriptors] and without an intermediate child: on success the caller has its own ends of the pipes it asked for and
    otherwise the descriptors it had, and the program was started with the other ends; on
    failure (calls being at most interrupted) everything is as before and the error says
    why. *)
Theorem fork_exec_pipes_ends `{!System, !GLib, !SystemLaws} avail rq c wi wo we file args s
    (Hstd : std_open (u_fds s)) (Hok : table_ok (u_fds s)) (Hfresh : fresh s)
    (Hroom : Z.of_nat (size (u_fds s)) + 10 < open_limit ∧ Z.of_nat (size (u_fds s)) + 10 < G_MAXINT)
    (Hsetup : harmless rq) (Hargv : argv rq = file :: args) (Hpass : argv_pass rq ≠ [])
    (Hclose : close_descriptors rq = true) (Hcalm : calm s) :
  wp (fork_exec_with_pipes avail false rq c wi wo we)
    (λ a s', match a with
     | inr st => piped_program wi wo we rq file c s st s' ∧
         ∀ fd, 0 ≤ fd → fd ∉ [standard_input st; standard_output st; standard_error st] →
           u_fds s' !! fd = u_fds s !! fd
     | inl err => u_fds s' = u_fds s ∧ later (λ q, u_next s ≤ q) s s' ∧ ∃ r, explains rq r err
     end) s.
Proof.
  destruct Hroom. eapply wp_fork_exec_with_pipes; [done..| |].
  - intros st s' Hp. split; [done|]. intros fd Hnn Hfd.
    destruct Hp as (sF & fds & ir & ow & ew & pi & po & pe & im & s1 & s2 & Ho & _ & _ & _ & _ & _ & _ & _ & L1 & L2 & ->).
    destruct Ho as [_ Hd _ _ _ _ _ _]. rewrite <- Hd. unfold without. rs.
    rewrite (later_fds _ _ _ L2). change (u_fds (start _ _ s1)) with (u_fds s1).
    rewrite (later_fds _ _ _ L1), !dropped_lookup.
    erewrite bool_decide_ext; [done|]. set_unfold. tauto.
  - intros err s' r Hf Hl Hex. split_and!; [done..|by exists r].
Qed.
