(* ===== verification/GSpawnApi.v ===== *)
(** The functions gspawn.c exports: the asynchronous ones, which translate their flags,
    and [g_spawn_sync], which collects the output of the program and waits for it. *)
From S2P Require Import Prelude Nptl Unix GExecute GSpawnIo GSpawnChild GSpawn.

Implicit Types s : uproc.

(** [GSpawnFlags], by bit. *)
Definition LEAVE_DESCRIPTORS_OPEN := 0.
Definition DO_NOT_REAP_CHILD := 1.
Definition SEARCH_PATH := 2.
Definition STDOUT_TO_DEV_NULL := 3.
Definition STDERR_TO_DEV_NULL := 4.
Definition CHILD_INHERITS_STDIN := 5.
Definition FILE_AND_ARGV_ZERO := 6.
Definition SEARCH_PATH_FROM_ENVP := 7.
Definition CLOEXEC_PIPES := 8.

Section Api.
Context `{!System, !GLib}.
Context (POSIX_SPAWN_AVAILABLE : bool).
(** [g_shell_parse_argv]: the words of a command line. *)
Context (g_shell_parse_argv : str → option (list str)).

Definition request_of (working_directory : option str) (argv : list str) (envp : option (list str))
    (flags : Z) (child_setup : option (M uproc ())) : request :=
  let has := Z.testbit flags in
  mkRequest working_directory argv envp (negb (has LEAVE_DESCRIPTORS_OPEN)) (has SEARCH_PATH)
    (has SEARCH_PATH_FROM_ENVP) (has STDOUT_TO_DEV_NULL) (has STDERR_TO_DEV_NULL)
    (has CHILD_INHERITS_STDIN) (has FILE_AND_ARGV_ZERO) child_setup.

Definition g_spawn_async_with_pipes working_directory argv envp (flags : Z) child_setup
    (standard_input standard_output standard_error : bool) : M uproc (gerror + started) :=
  let has := Z.testbit flags in
  if standard_output && has STDOUT_TO_DEV_NULL || standard_error && has STDERR_TO_DEV_NULL ||
     standard_input && has CHILD_INHERITS_STDIN then mret (inl BadArguments)
  else
    fork_exec_with_pipes POSIX_SPAWN_AVAILABLE (negb (has DO_NOT_REAP_CHILD))
      (request_of working_directory argv envp flags child_setup) (has CLOEXEC_PIPES)
      standard_input standard_output standard_error.

Definition g_spawn_async working_directory argv envp (flags : Z) child_setup : M uproc (gerror + started) :=
  g_spawn_async_with_pipes working_directory argv envp flags child_setup false false false.

Definition g_spawn_async_with_fds working_directory argv envp (flags : Z) child_setup
    (stdin_fd stdout_fd stderr_fd : Z) : M uproc (gerror + Z) :=
  let has := Z.testbit flags in
  if (stdout_fd >=? 0) && has STDOUT_TO_DEV_NULL || (stderr_fd >=? 0) && has STDERR_TO_DEV_NULL ||
     (stdin_fd >=? 0) && has CHILD_INHERITS_STDIN then mret (inl BadArguments)
  else
    fork_exec_with_fds POSIX_SPAWN_AVAILABLE (negb (has DO_NOT_REAP_CHILD))
      (request_of working_directory argv envp flags child_setup) (has CLOEXEC_PIPES)
      None stdin_fd stdout_fd stderr_fd.

(** ** [g_spawn_sync] *)

(** The pipes that are still read, what was read, and the error that ended it. *)
Record collecting := mkCollecting {
  outpipe : Z; errpipe : Z; outstr : list Z; errstr : list Z; failure : option gerror;
}.
#[export] Instance eta_collecting : Eta collecting := λ c,
  mkCollecting (outpipe c) (errpipe c) (outstr c) (errstr c) (failure c).

Definition going (c : collecting) : bool :=
  match failure c with None => (outpipe c >=? 0) || (errpipe c >=? 0) | Some _ => false end.

Definition collect_out (c : collecting) : M uproc collecting :=
  '(r, str) ← read_data (outstr c) (outpipe c);
  match r with
  | READ_FAILED err => mret (c <| failure := Some err |>)
  | READ_EOF => fd ← close_and_invalidate (outpipe c); mret (c <| outpipe := fd |>)
  | READ_OK => mret (c <| outstr := str |>)
  end.
Definition collect_err (c : collecting) : M uproc collecting :=
  '(r, str) ← read_data (errstr c) (errpipe c);
  match r with
  | READ_FAILED err => mret (c <| failure := Some err |>)
  | READ_EOF => fd ← close_and_invalidate (errpipe c); mret (c <| errpipe := fd |>)
  | READ_OK => mret (c <| errstr := str |>)
  end.

(** One round after [select]. *)
Definition collect (fds : list Z) (c : collecting) : M uproc collecting :=
  c ← (if (outpipe c >=? 0) && bool_decide (outpipe c ∈ fds) then collect_out c else mret c);
  match failure c with
  | Some _ => mret c
  | None => if (errpipe c >=? 0) && bool_decide (errpipe c ∈ fds) then collect_err c else mret c
  end.

(** The number of bits of an [fd_set]: [FD_SET] of a descriptor that is not below it writes past its end. *)
Definition FD_SETSIZE : Z := 1024.
Definition FD_SET (fds : list Z) : M uproc () := when (existsb (λ fd, fd >=? FD_SETSIZE) fds) (stop_with Fault).
Fixpoint collect_loop (fuel : nat) (c : collecting) : M uproc collecting :=
  if going c then
    match fuel with
    | O => stop_with Blocked
    | S fuel =>
        let fds := List.filter (λ fd, fd >=? 0) [outpipe c; errpipe c] in
        FD_SET fds;;
        ready ← select fds;
        match ready with
        | None =>
            e ← gets u_errno;
            if e =? EINTR then collect_loop fuel c
            else mret (c <| failure := Some (SelectFailed e) |>)
        | Some fds => c ← collect fds c; collect_loop fuel c
        end
    end
  else mret c.

(** What a pipe will give: every round takes an answer, a byte or a pipe. *)
Definition to_come (fd : Z) (s : uproc) : nat :=
  match u_fds s !! fd with Some (PipeRead p, _) => S (length (total p s)) | _ => 1 end.
Definition collect_fuel (c : collecting) (s : uproc) : nat :=
  length (u_io s) + to_come (outpipe c) s + to_come (errpipe c) s.

(** The output, the errors and the status; the last is not set when the child had
    already been waited for. *)
Definition g_spawn_sync working_directory argv envp (flags : Z) child_setup
    (standard_output standard_error : bool) : M uproc (gerror + (list Z * list Z * option Z)) :=
  let has := Z.testbit flags in
  if has DO_NOT_REAP_CHILD || standard_output && has STDOUT_TO_DEV_NULL ||
     standard_error && has STDERR_TO_DEV_NULL then mret (inl BadArguments)
  else
    r ← fork_exec_with_pipes POSIX_SPAWN_AVAILABLE false
          (request_of working_directory argv envp flags child_setup) (has CLOEXEC_PIPES)
          false standard_output standard_error;
    match r with
    | inl err => mret (inl err)
    | inr st =>
        let c := mkCollecting (GSpawn.standard_output st) (GSpawn.standard_error st) [] [] None in
        fuel ← gets (collect_fuel c);
        c ← collect_loop fuel c;
        close_and_invalidate (outpipe c);;
        close_and_invalidate (errpipe c);;
        '(ret, status) ← wait_for (child_pid st);
        e ← gets u_errno;
        let fate :=
          if ret <? 0 then
            if e =? ECHILD then (failure c, None)
            else (match failure c with None => Some (WaitFailed e) | f => f end, None)
          else (failure c, Some status) in
        match fate with
        | (Some err, _) => mret (inl err)
        | (None, status) => mret (inr (outstr c, errstr c, status))
        end
    end.

Definition g_spawn_command_line_sync (command_line : str) (standard_output standard_error : bool) :
    M uproc (gerror + (list Z * list Z * option Z)) :=
  match g_shell_parse_argv command_line with
  | None => mret (inl ShellParseFailed)
  | Some argv => g_spawn_sync None argv None (2 ^ SEARCH_PATH) None standard_output standard_error
  end.

Definition g_spawn_command_line_async (command_line : str) : M uproc (gerror + started) :=
  match g_shell_parse_argv command_line with
  | None => mret (inl ShellParseFailed)
  | Some argv => g_spawn_async None argv None (2 ^ SEARCH_PATH) None
  end.

Definition g_spawn_close_pid (pid : Z) : M uproc () := mret ().
End Api.
