(* ===== verification/GSpawnSync.v ===== *)
(** What [g_spawn_sync] collects is what the program wrote. *)
From S2P Require Import Prelude Nptl Unix GExecute GSpawnIo GSpawnChild GSpawn GSpawnPipes GSpawnApi.

Implicit Types s : uproc.

(** * Reading to the end *)

Lemma wp_read_data str fd p b (Q : ReadResult * list Z → uproc → Prop) s :
  u_fds s !! fd = Some (PipeRead p, b) → unwritten p s → sole p s → calm s →
  (∀ s', later (eq p) s s' → total p s = [] → total p s' = [] → Q (READ_EOF, str) s') →
  (∀ buf s', later (eq p) s s' → buf ≠ [] → total p s = buf ++ total p s' → Q (READ_OK, str ++ buf) s') →
  wp (read_data str fd) Q s.
Proof.
  intros Hfd Hu Hs Hc HE HQ. unfold read_data. wp_step. eapply wp_retry_read; [done..|].
  intros [buf|] s1 H1 Hn; cbn [read_post] in H1.
  - destruct H1 as (Hl & _ & Ht & Hend). specialize (Ht Hs). destruct buf as [|x buf]; apply wp_ret.
    + destruct (Hend ltac:(done) eq_refl) as [E _]. apply HE; [done| |done]. by rewrite Ht, E.
    + by apply HQ.
  - destruct H1 as [_ [_ Hr]]. by destruct (Hn eq_refl (Hc _ Hr)).
Qed.

(** A pipe that is read: what was read and what is still to come make up [all]. *)
Definition drains (fd p : Z) (str all : list Z) (s : uproc) : Prop :=
  (fd < 0 ∧ str = all) ∨
  (0 ≤ fd ∧ (∃ c, u_fds s !! fd = Some (PipeRead p, c)) ∧ unwritten p s ∧ sole p s ∧
   str ++ total p s = all).

Lemma drains_later P fd p str all s s' :
  drains fd p str all s → later P s s' → ¬ P p → drains fd p str all s'.
Proof.
  intros [H|(H0 & (c & Hc) & Hu & Hs & Ht)] L HP; [by left|right]. split_and!; [done| | | |].
  - exists c. by rewrite (later_fds _ _ _ L).
  - by eapply later_unwritten.
  - by eapply later_sole.
  - by rewrite (later_total _ p _ _ L HP Hs).
Qed.

Lemma drains_without fd p str all fd' s :
  drains fd p str all s → fd' ≠ fd → drains fd p str all (without [fd'] s).
Proof.
  intros [H|(H0 & (c & Hc) & Hu & Hs & Ht)] Hne; [by left|right]. split_and!; try done.
  - exists c. unfold without. rs. rewrite dropped_lookup, bool_decide_false by set_solver. done.
  - intros k v Hv. unfold without in Hv. revert Hv. rs. rewrite dropped_lookup.
    destruct (_ && _); [done|]. apply Hu.
Qed.

(** What is left to do for a pipe. *)
Definition left_of (fd p : Z) (s : uproc) : nat := if fd <? 0 then 0 else S (length (total p s)).

Lemma left_of_later P fd p str all s s' :
  drains fd p str all s → later P s s' → ¬ P p → left_of fd p s' = left_of fd p s.
Proof.
  intros [[H _]|(H0 & _ & _ & Hs & _)] L HP; unfold left_of; [by destruct (Z.ltb_spec fd 0); [|lia]|].
  by rewrite (later_total _ p _ _ L HP Hs).
Qed.

(** One reading of a pipe: it is closed at its end. *)
Definition read_on (fd p : Z) (all : list Z) (s : uproc) (fd' : Z) (str' : list Z) (s' : uproc) : Prop :=
  ∃ s1, later (eq p) s s1 ∧ drains fd' p str' all s' ∧ (left_of fd' p s' < left_of fd p s)%nat ∧
    (fd' = fd ∧ s' = s1 ∨ fd' = -1 ∧ s' = without [fd] s1).

Lemma wp_read_on str fd p all (Q : ReadResult * list Z → uproc → Prop) s :
  drains fd p str all s → 0 ≤ fd → calm s →
  (∀ str' s', read_on fd p all s fd str' s' → Q (READ_OK, str') s') →
  (∀ s', read_on fd p all s (-1) str (without [fd] s') → Q (READ_EOF, str) s') →
  wp (read_data str fd) Q s.
Proof.
  intros [[H _]|(H0 & (c & Hfd) & Hu & Hs & Ht)] Hpos Hc HQ HE; [lia|].
  eapply wp_read_data; [done..| |].
  - intros s' L E E'. apply HE. exists s'. split_and!; [done|left; split; [lia|]| |by right].
    + by rewrite <- Ht, E, app_nil_r.
    + unfold left_of. destruct (Z.ltb_spec fd 0); cbn; lia.
  - intros buf s' L Hb E. apply HQ. exists s'. split_and!; [done| | |by left].
    + right. split_and!; [done|exists c; by rewrite (later_fds _ _ _ L)|by eapply later_unwritten
        |by eapply later_sole|]. by rewrite <- app_assoc, <- E.
    + unfold left_of. destruct (Z.ltb_spec fd 0); [lia|]. rewrite E, length_app.
      destruct buf; [done|]. cbn. lia.
Qed.

(** [select]: at least one of the descriptors is ready. *)
Lemma wp_select fds (Q : option (list Z) → uproc → Prop) s :
  fds ≠ [] → (∀ fd, fd ∈ fds → ∃ p c, u_fds s !! fd = Some (PipeRead p, c) ∧ unwritten p s) →
  (∀ s', later nothing s s' → refused (u_errno s') s s' → Q None s') →
  (∀ ready s', later nothing s s' → ready ≠ [] → (∀ fd, fd ∈ ready → fd ∈ fds) → Q (Some ready) s') →
  wp (select fds) Q s.
Proof.
  intros Hne Hfds HN HS. unfold select. wp_step. apply wp_answer. intros a s1 L1 Ha.
  destruct (refusal a) as [e|] eqn:Er.
  { destruct a as [[e'|]|]; [injection Er as ->|done..].
    eapply wp_failed; [exact L1|by apply Ha|]. intros s2 L2 Hr <-. by apply HN. }
  assert (Hw : wp (await (λ s, existsb (λ fd, fd_readable fd s) fds);;
    ready ← gets (λ s, List.filter (λ fd, fd_readable fd s) fds); mret (Some ready)) Q s1).
  { wp_step. apply (wp_await nothing).
    - intros s2 L2 E. destruct fds as [|fd fds]; [done|]. cbn [existsb].
      destruct (Hfds fd ltac:(set_solver)) as (p & c & Hfd & Hu). unfold fd_readable.
      assert (L02 : later nothing s s2) by (etrans; [exact L1|exact L2]).
      rewrite (later_fds _ _ _ L02), Hfd, unwritten_readable; [done|by eapply later_unwritten|done].
    - intros s2 L2 He. wp_go. apply HS; [etrans; [exact L1|exact L2]| |].
      + apply existsb_exists in He as (fd & Hin & Hr). intros E.
        assert (Hf : In fd (List.filter (λ fd, fd_readable fd s2) fds)) by by apply filter_In.
        by rewrite E in Hf.
      + intros fd Hin. apply list_elem_of_In, filter_In in Hin as [Hin _]. by apply list_elem_of_In. }
  destruct a as [[|]|]; [done|exact Hw..].
Qed.

(** * The loop *)

Section Collect.
Context (po pe : Z) (allo alle : list Z) (two : po ≠ pe).

Definition both : Z → Prop := λ q, q = po ∨ q = pe.

(** The state of the loop, from the state [s0] it started in with final table [t]. *)
Record draining (s0 : uproc) (t : fdtable) (c : collecting) (s : uproc) : Prop := {
  dr_failure : failure c = None;
  dr_out : drains (outpipe c) po (outstr c) allo s;
  dr_err : drains (errpipe c) pe (errstr c) alle s;
  dr_calm : calm s;
  dr_ne : 0 ≤ outpipe c → outpipe c ≠ errpipe c;
  dr_went : went both (u_fds s) s0 s;
  dr_end : dropped [outpipe c; errpipe c] (u_fds s) = t;
  dr_low : outpipe c < FD_SETSIZE ∧ errpipe c < FD_SETSIZE;
}.

Definition measure (c : collecting) (s : uproc) : nat :=
  length (u_io s) + left_of (outpipe c) po s + left_of (errpipe c) pe s.

Lemma later_io_le P s s' : later P s s' → (length (u_io s') ≤ length (u_io s))%nat.
Proof. intros H. by apply suffix_length, (later_io P). Qed.

Lemma draining_later s0 t c s s' :
  draining s0 t c s → later nothing s s' →
  draining s0 t c s' ∧ measure c s' = (length (u_io s') + left_of (outpipe c) po s + left_of (errpipe c) pe s)%nat.
Proof.
  intros [Hf Ho He Hc Hn Hw Hd Hlow] L. pose proof (later_fds _ _ _ L) as Ef. split.
  - split; [done|exact (drains_later nothing _ _ _ _ _ _ Ho L (λ x, x))
      |exact (drains_later nothing _ _ _ _ _ _ He L (λ x, x))|by eapply later_calm|done| | |done].
    + eapply went_trans; [exact Hw|]. rewrite Ef. by apply later_went, later_any.
    + by rewrite Ef.
  - unfold measure. rewrite (left_of_later nothing _ _ _ _ _ _ Ho L (λ x, x)).
    by rewrite (left_of_later nothing _ _ _ _ _ _ He L (λ x, x)).
Qed.

Lemma went_read (p : Z) fd s0 s s1 s' :
  both p → went both (u_fds s) s0 s → later (eq p) s s1 → s' = s1 ∨ s' = without [fd] s1 →
  went both (u_fds s') s0 s'.
Proof.
  intros Hp Hw L E. assert (L' : later both s s1) by (eapply later_weaken; [|exact L]; by intros ? <-).
  eapply went_trans; [exact Hw|]. destruct E as [-> | ->].
  - rewrite (later_fds _ _ _ L). by apply later_went.
  - unfold without at 1. rs. rewrite (later_fds _ _ _ L). by apply without_went.
Qed.

Lemma wp_collect_out s0 t c (Q : collecting → uproc → Prop) s :
  draining s0 t c s → 0 ≤ outpipe c →
  (∀ c' s', draining s0 t c' s' → (measure c' s' < measure c s)%nat → errpipe c' = errpipe c → Q c' s') →
  wp (collect_out c) Q s.
Proof.
  intros [Hf Ho He Hc Hn Hw Hd [Hlo Hle]] H0 HQ. unfold collect_out. wp_step.
  assert (Hnext : ∀ fd' str' s', read_on (outpipe c) po allo s fd' str' s' →
    Q (c <| outpipe := fd' |> <| outstr := str' |>) s').
  { intros fd' str' s' (s1 & L & Hd' & Hlt & Hcase).
    assert (Hpe : ¬ (po = pe)) by done.
    assert (He1 : drains (errpipe c) pe (errstr c) alle s1) by by eapply drains_later.
    assert (Hcalm : calm s1) by by eapply later_calm.
    pose proof (left_of_later _ _ _ _ _ _ _ He L Hpe) as Hleft.
    pose proof (later_io_le _ _ _ L) as Hio.
    apply HQ; [|unfold measure|done].
    - split; [done|exact Hd'| | | | | |]; rs.
      + destruct Hcase as [[_ ->]|[_ ->]]; [done|]. apply drains_without; [done|]. by apply Hn.
      + by destruct Hcase as [[_ ->]|[_ ->]].
      + destruct Hcase as [[-> _]|[-> _]]; [done|lia].
      + eapply (went_read po); [by left|exact Hw|exact L|]. by destruct Hcase as [[_ ->]|[_ ->]]; [left|right].
      + rewrite <- Hd. destruct Hcase as [[-> ->]|[-> ->]].
        * by rewrite (later_fds _ _ _ L).
        * unfold without. rs. rewrite (later_fds _ _ _ L). rewrite <- dropped_app. apply map_eq. intros k.
          rewrite !dropped_lookup. destruct (Z.leb_spec 0 k); [|by rewrite !andb_false_r].
          rewrite !andb_true_r. erewrite bool_decide_ext; [done|]. set_unfold. intuition lia.
      + split; [|done]. destruct Hcase as [[-> _]|[-> _]]; [done|by unfold FD_SETSIZE].
    - rs. assert (u_io s' = u_io s1 ∧ left_of (errpipe c) pe s' = left_of (errpipe c) pe s1) as [-> ->]
        by (by destruct Hcase as [[_ ->]|[_ ->]]). lia. }
  eapply wp_read_on; [exact Ho|done|done| |].
  - intros str' s' Hr. apply wp_ret. specialize (Hnext _ _ _ Hr). by destruct c.
  - intros s' Hr. apply wp_close_then. destruct (Z.ltb_spec (outpipe c) 0); [lia|]. apply wp_ret.
    specialize (Hnext _ _ _ Hr). by destruct c.
Qed.
End Collect.

(** The two pipes are treated alike. *)
Definition swap (c : collecting) : collecting :=
  mkCollecting (errpipe c) (outpipe c) (errstr c) (outstr c) (failure c).

Lemma collect_err_swap c s : collect_err c s = (c' ← collect_out (swap c); mret (swap c')) s.
Proof.
  unfold collect_err, collect_out. rewrite mbind_assoc. unfold mbind at 1 3, M_bind at 1 3.
  cbn [outstr errstr outpipe errpipe swap]. destruct (read_data (errstr c) (errpipe c) s) as [[[err| |] str] s1|];
    [|..|done].
  - by destruct c.
  - by destruct c.
  - rewrite mbind_assoc, !close_then. by destruct c.
Qed.

Lemma draining_swap po pe allo alle s0 t c s :
  draining po pe allo alle s0 t c s → draining pe po alle allo s0 t (swap c) s.
Proof.
  intros [Hf Ho He Hc Hn Hw Hd [Hlo Hle]]. split; cbn [swap outpipe errpipe outstr errstr failure]; try done.
  - intros H0 E. destruct (decide (0 ≤ outpipe c)) as [H1|H1]; [by apply Hn|]. lia.
  - destruct Hw as [Hw E]. split; [|done]. eapply later_weaken; [|exact Hw].
    unfold both. tauto.
  - rewrite <- Hd. apply dropped_ext. set_solver.
Qed.

Lemma measure_swap po pe c s : measure pe po (swap c) s = measure po pe c s.
Proof. unfold measure. cbn. lia. Qed.

Section Loop.
Context (po pe : Z) (allo alle : list Z) (two : po ≠ pe).
Abbreviation draining := (draining po pe allo alle).
Abbreviation mu := (measure po pe).

Lemma wp_collect_err s0 t c (Q : collecting → uproc → Prop) s :
  draining s0 t c s → 0 ≤ errpipe c →
  (∀ c' s', draining s0 t c' s' → (mu c' s' < mu c s)%nat → outpipe c' = outpipe c → Q c' s') →
  wp (collect_err c) Q s.
Proof.
  intros Hd H0 HQ. unfold wp. rewrite collect_err_swap.
  change (wp (c' ← collect_out (swap c); mret (swap c')) Q s). wp_step.
  eapply (wp_collect_out pe po alle allo); [congruence|by apply draining_swap|done|].
  intros c' s' Hd' Hm Ho. apply wp_ret. apply HQ.
  - by apply draining_swap.
  - rewrite <- (measure_swap po pe c s), <- (measure_swap po pe (swap c') s'). by destruct c'.
  - exact Ho.
Qed.

(** One round reads or closes something. *)
Lemma wp_collect s0 t ready c (Q : collecting → uproc → Prop) s :
  draining s0 t c s → ready ≠ [] →
  (∀ fd, fd ∈ ready → fd ∈ List.filter (λ fd, fd >=? 0) [outpipe c; errpipe c]) →
  (∀ c' s', draining s0 t c' s' → (mu c' s' < mu c s)%nat → Q c' s') →
  wp (collect ready c) Q s.
Proof.
  intros Hd Hne Hin HQ. unfold collect.
  assert (Hmem : ∀ fd, fd ∈ ready → (fd = outpipe c ∨ fd = errpipe c) ∧ 0 ≤ fd).
  { intros fd Hfd. specialize (Hin fd Hfd). apply list_elem_of_In, filter_In in Hin as [Hin Hpos].
    apply list_elem_of_In in Hin. set_unfold in Hin. split; [tauto|lia]. }
  assert (Hsecond : ∀ c1 s1, draining s0 t c1 s1 →
    ((mu c1 s1 < mu c s)%nat ∨ c1 = c ∧ s1 = s ∧ outpipe c ∉ ready) → errpipe c1 = errpipe c →
    wp (match failure c1 with
        | Some _ => mret c1
        | None => if (errpipe c1 >=? 0) && bool_decide (errpipe c1 ∈ ready) then collect_err c1 else mret c1
        end) Q s1).
  { intros c1 s1 D1 Hm Ee. rewrite (dr_failure _ _ _ _ _ _ _ _ D1). apply wp_if.
    - intros [H0 _]%andb_true_iff. eapply wp_collect_err; [done|lia|]. intros c2 s2 D2 Hm2 _.
      apply HQ; [done|]. destruct Hm as [|(-> & -> & _)]; lia.
    - intros Hb. apply wp_ret. destruct Hm as [Hm|(-> & -> & Hout)]; [by apply HQ|]. exfalso.
      destruct ready as [|fd ready]; [done|]. destruct (Hmem fd ltac:(set_solver)) as [[->| ->] Hpos];
        [set_solver|]. rewrite bool_decide_true in Hb by set_solver. lia. }
  wp_step. apply wp_if.
  - intros [H0 _]%andb_true_iff. eapply wp_collect_out; [done|done|lia|]. intros c1 s1 D1 Hm Ee.
    apply Hsecond; [done|by left|done].
  - intros Hb. apply wp_ret. apply Hsecond; [done| |done]. right. split_and!; [done|done|]. intros Ho.
    destruct (Hmem _ Ho) as [_ Hpos]. rewrite bool_decide_true in Hb by done. lia.
Qed.

Lemma low_fds c : outpipe c < FD_SETSIZE ∧ errpipe c < FD_SETSIZE →
  existsb (λ fd, fd >=? FD_SETSIZE) (List.filter (λ fd, fd >=? 0) [outpipe c; errpipe c]) = false.
Proof.
  intros [H1 H2]. apply not_true_is_false. intros (fd & [Hin _]%filter_In & Hfd)%existsb_exists.
  destruct Hin as [<-|[<-|[]]]; lia.
Qed.

Lemma wp_collect_loop s0 t fuel : ∀ c (Q : collecting → uproc → Prop) s,
  draining s0 t c s → (mu c s ≤ fuel)%nat →
  (∀ c' s', draining s0 t c' s' → outpipe c' < 0 → errpipe c' < 0 → Q c' s') →
  wp (collect_loop fuel c) Q s.
Proof.
  induction fuel as [|fuel IH]; intros c Q s Hd Hm HQ; cbn [collect_loop];
    unfold going; rewrite (dr_failure _ _ _ _ _ _ _ _ Hd); (apply wp_if;
    [intros Hg|intros [H1 H2]%orb_false_iff; apply wp_ret, HQ; [done|lia..]]).
  { exfalso. unfold measure, left_of in Hm.
    destruct (Z.ltb_spec (outpipe c) 0), (Z.ltb_spec (errpipe c) 0); lia. }
  wp_step. unfold FD_SET. rewrite (low_fds c) by apply Hd. cbn [when]. wp_step. wp_step. apply wp_select.
  - cbn [List.filter]. destruct (outpipe c >=? 0); [done|]. cbn [orb] in Hg. by rewrite Hg.
  - intros fd Hin. apply list_elem_of_In, filter_In in Hin as [Hin Hpos]. apply list_elem_of_In in Hin.
    set_unfold in Hin. destruct Hd as [_ Ho He _ _ _ _ _].
    destruct Hin as [->|[->|[]]].
    + destruct Ho as [[H _]|(_ & (b & Hb) & Hu & _)]; [lia|eauto].
    + destruct He as [[H _]|(_ & (b & Hb) & Hu & _)]; [lia|eauto].
  - intros s1 L [Hl He]. cbn beta iota. destruct (draining_later _ _ _ _ _ _ _ _ _ Hd L) as [D1 M1].
    assert (HE : u_errno s1 = EINTR) by (destruct Hd; auto). wp_step. apply wp_gets. rewrite HE.
    change (EINTR =? EINTR) with true. cbn iota. apply IH; [done| |done].
    unfold less_io in Hl. unfold measure in *. lia.
  - intros ready s1 L Hne Hin. cbn beta iota. destruct (draining_later _ _ _ _ _ _ _ _ _ Hd L) as [D1 M1].
    pose proof (later_io_le _ _ _ L) as Hio. wp_step.
    eapply wp_collect; [exact D1|done|done|]. intros c2 s2 D2 M2. apply IH; [done| |done].
    unfold measure in *. lia.
Qed.
End Loop.

(** * What the program writes *)

(** The bytes a program writes on a descriptor, in order. *)
Definition written `{!System} (fd : Z) (im : image) : list Z :=
  mjoin ((λ w : Z * list Z, if w.1 =? fd then w.2 else []) <$> (sys_runs im).1).

Lemma writes_to_written `{!System} pid im p std :
  (∀ k, im_fds im !! k = Some (PipeWrite p) ↔ k = std) →
  writes_to p (mkRunning pid (im_fds im) (sys_runs im).1 (sys_runs im).2) = written std im.
Proof.
  intros Him. unfold writes_to, written. cbn [r_todo r_fds]. f_equal. apply list_fmap_ext. intros _ w _.
  destruct (Z.eqb_spec w.1 std) as [E|E]; [by rewrite bool_decide_true by by apply Him|].
  rewrite bool_decide_false; [done|]. by intros ?%Him.
Qed.

(** A program that was started is the only one with the pipe, and will fill it. *)
Lemma start_total `{!System} pid im p std s :
  unheld p s → pipe_of p s = [] → (∀ k, im_fds im !! k = Some (PipeWrite p) ↔ k = std) →
  sole p (start pid im s) ∧ total p (start pid im s) = written std im.
Proof.
  intros Hu He Him. apply unheld_none in Hu. split.
  - unfold sole, start. rs. rewrite filter_app, Hu. cbn [app]. rewrite filter_cons, filter_nil.
    case_decide; cbn; lia.
  - unfold total. change (pipe_of p (start pid im s)) with (pipe_of p s). rewrite He. unfold start. rs.
    rewrite pending_app, pending_none by done. cbn [app]. unfold pending. cbn. rewrite app_nil_r.
    by apply (writes_to_written pid).
Qed.

Section Program.
Context {Sys : System} {Gl : GLib} {Laws : SystemLaws}.

(** What [do_exec] puts on a standard descriptor is a pipe only when it was given. *)
Lemma source_end ct t fd std to_null null p w f :
  (∀ k v, ct !! k = Some v → v.1 = PipeWrite p → t !! k = Some v) → only_end p w t → 3 ≤ w →
  0 ≤ std ≤ 2 → null ≠ PipeWrite p → source fd std to_null null ct = Some f → f = PipeWrite p → fd = w.
Proof.
  intros Hct Ho H3 Hstd Hnull Hs ->. unfold source in Hs. destruct (Z.geb_spec fd 0).
  - destruct (ct !! fd) as [v|] eqn:E; [|done]. injection Hs as Hs. eapply Ho; [by apply Hct|done].
  - destruct to_null; [by injection Hs as ->|]. unfold seen in Hs.
    destruct (ct !! std) as [[f []]|] eqn:E; [done| |done]. injection Hs as ->.
    assert (std = w) by (eapply Ho; [by apply Hct|done]). lia.
Qed.

(** The descriptor of the program that is the writing end of a pipe of its caller. *)
Lemma program_end c ccf fds i o e rq file im s p w std :
  ready ccf fds i o e s → close_descriptors rq = true →
  (search_result (pipe_w (u_next s) c (u_fds s)) i o e rq file (child_start fds c s)).1 = inl im →
  p < u_next s → only_end p w (u_fds s) → 3 ≤ w → (∃ b, u_fds s !! w = Some (PipeWrite p, b)) →
  (std = 1 ∧ w = o ∧ i ≠ w ∧ e ≠ w) ∨ (std = 2 ∧ w = e ∧ i ≠ w ∧ o ≠ w) →
  ∀ k, im_fds im !! k = Some (PipeWrite p) ↔ k = std.
Proof.
  intros Hready Hc Hr Hp Ho H3 (b & Hb) Hw.
  destruct (child_table_ready c ccf fds i o e s Hready) as (Hst & _). cbv zeta in Hst.
  destruct (search_result _ _ _ _ _ _ _) as [r ims] eqn:Es. cbn in Hr. subst r.
  apply resolve_started in Es as (_ & Him & _). change (u_fds (child_start fds c s)) with
    (dropped (pipe_r (u_fds s) :: -1 :: fds) (pipe_table (u_next s) c (u_fds s))) in Him.
  set (ct := dropped _ _) in *. rs in Him.
  assert (Hct : ∀ k v, ct !! k = Some v → v.1 = PipeWrite p → u_fds s !! k = Some v).
  { intros k v Hv Hf. unfold ct in Hv. rewrite dropped_lookup in Hv. destruct (_ && _); [done|].
    rewrite pipe_table_lookup in Hv.
    destruct (decide (k = pipe_w (u_next s) c (u_fds s))); [injection Hv as <-; injection Hf; lia|].
    by destruct (decide (k = pipe_r (u_fds s))); [injection Hv as <-|]. }
  destruct Hst as [_ _ Hok Gi Go Ge].
  assert (HA : ∀ fd std' b' null, 0 ≤ std' ≤ 2 → null ≠ PipeWrite p → fd ≠ w →
    source fd std' b' null ct ≠ Some (PipeWrite p)).
  { intros fd std' b' null Hs Hn Hf E. apply Hf. by eapply (source_end ct (u_fds s)). }
  assert (HB : ∀ fd std' b' null, fd = w → given fd ct → source fd std' b' null ct = Some (PipeWrite p)).
  { intros fd std' b' null -> [|[_ [v Hv]]]; [lia|]. unfold source. destruct (Z.geb_spec w 0); [|lia].
    rewrite Hv. assert (Hv' : pipe_table (u_next s) c (u_fds s) !! w = Some v).
    { unfold ct in Hv. rewrite dropped_lookup in Hv. by destruct (_ && _). }
    rewrite pipe_table_open, Hb in Hv' by by eexists. by injection Hv' as <-. }
  intros k. rewrite Him. erewrite prepared_fds by done.
  destruct Hw as [(-> & -> & Ni & Ne)|(-> & -> & Ni & No)].
  - destruct (decide (k = 0)) as [->|]; [split; [|done]; by intros []%HA|].
    destruct (decide (k = 1)) as [->|]; [split; [done|]; intros _; by apply HB|].
    destruct (decide (k = 2)) as [->|]; [split; [|done]; by intros []%HA|done].
  - destruct (decide (k = 0)) as [->|]; [split; [|done]; by intros []%HA|].
    destruct (decide (k = 1)) as [->|]; [split; [|done]; by intros []%HA|].
    destruct (decide (k = 2)) as [->|]; [split; [done|]; intros _; by apply HB|done].
Qed.
End Program.

(** * The status *)

Definition ends_with (pid st : Z) (s : uproc) : Prop :=
  (∀ z, z ∈ u_zombies s → z.1 = pid → z.2 = st) ∧
  (∀ r, r ∈ u_running s → r_pid r = pid → r_status r = st).

Lemma step_ends_with q pid st s : ends_with pid st s → ends_with pid st (step_program q s).
Proof.
  intros [Hz Hr]. destruct (step_spec q s) as [->|(pre & r & post & E & _ & ->)]; [by split|].
  unfold ends_with. rs. change (u_zombies (?x <| u_running := ?y |>)) with (u_zombies x).
  rewrite goes_on_rest. rewrite E in Hr. unfold goes_on. destruct (r_todo r) as [|[fd buf] todo].
  - split.
    + intros z [Hin| ->%list_elem_of_singleton]%elem_of_app; [by apply Hz|]. cbn. intros <-.
      apply Hr; [set_solver|done].
    + intros r' Hin. apply Hr. set_solver.
  - split; [intros z Hin; apply Hz; set_solver|]. intros r' Hin Hp. cbn [snd option_list] in Hin.
    apply elem_of_app in Hin as [Hin|[->|Hin]%elem_of_cons]; [apply Hr; [set_solver|done]| |apply Hr; [set_solver|done]].
    cbn in *. apply Hr; [set_solver|done].
Qed.

Lemma later_ends_with P pid st s s' : later P s s' → ends_with pid st s → ends_with pid st s'.
Proof. induction 1 as [|s1 s2 s3 Hm _ IH]; [done|]. intros He. apply IH. destruct Hm; [by apply step_ends_with|done..]. Qed.

Lemma found_status pid st s :
  ends_with pid st s → pid ∈ (u_zombies s).*1 →
  default 0 (snd <$> List.find (λ z, z.1 =? pid) (u_zombies s)) = st.
Proof.
  intros [Hz _] (z & Ez & Hin)%list_elem_of_fmap.
  destruct (List.find (λ z, z.1 =? pid) (u_zombies s)) as [z'|] eqn:E.
  - apply find_some in E as [Hin' Hp]. apply list_elem_of_In in Hin'. cbn. apply Hz; [done|lia].
  - apply list_elem_of_In in Hin. pose proof (find_none _ _ E z Hin) as Hn. cbn in Hn. lia.
Qed.

(** * [g_spawn_sync] *)

Section Sync.
Context {Sys : System} {Gl : GLib} {Laws : SystemLaws}.

(** The caller's end of a pipe to a program that was started. *)
Lemma started_drains (P : Z → Prop) p r w std pid im l s s1 s2 :
  3 ≤ r → ¬ P p → unheld p s → pipe_of p s = [] → only_end p w (u_fds s) → w ∈ l → r ∉ l → 0 ≤ w →
  (∃ c, u_fds s !! r = Some (PipeRead p, c)) →
  (∀ k, im_fds im !! k = Some (PipeWrite p) ↔ k = std) →
  later P s s1 → later P (start pid im s1) s2 →
  drains r p [] (written std im) (without l s2).
Proof.
  intros H3 HP Hu He Ho Hw Hr Hw0 (c & Hc) Him L1 L2. right.
  assert (Hu1 : unheld p s1) by by eapply later_unheld.
  assert (He1 : pipe_of p s1 = []) by (by rewrite (later_pipe _ p _ _ L1 HP Hu)).
  destruct (start_total pid im p std s1 Hu1 He1 Him) as [Hs Ht].
  assert (Ef : u_fds s2 = u_fds s).
  { rewrite (later_fds _ _ _ L2). change (u_fds (start pid im s1)) with (u_fds s1). by eapply later_fds. }
  split_and!; [lia| | | |].
  - exists c. unfold without. rs. by rewrite dropped_lookup, bool_decide_false, Ef.
  - intros k v Hv Hf. unfold without in Hv. revert Hv. rs. rewrite dropped_lookup, Ef.
    destruct (bool_decide (k ∈ l) && (0 <=? k)) eqn:Ek; [done|]. intros Hv.
    rewrite (Ho k v Hv Hf), bool_decide_true in Ek by done. cbn in Ek. lia.
  - exact (later_sole _ p _ _ L2 Hs).
  - change (total p (without l s2)) with (total p s2). by rewrite (later_total _ p _ _ L2 HP Hs).
Qed.

Lemma without_neg fd s : fd < 0 → without [fd] s = s.
Proof. intros H. unfold without. rewrite dropped_neg by done. by destruct s. Qed.

(** Both pipes of a program that was started. *)
Lemma started_pipes so se rq file c fds ow ew po pe im st s0 s s1 s2 :
  pipe_at so (standard_output st) ow po s → pipe_at se (standard_error st) ew pe s →
  (so = true → se = true → po ≠ pe ∧ standard_output st ≠ standard_error st ∧
     standard_output st ≠ ew ∧ ow ≠ standard_error st ∧ ow ≠ ew) →
  ready (Some [standard_input st; standard_output st; standard_error st; -1]) fds (-1) ow ew s →
  close_descriptors rq = true →
  (search_result (pipe_w (u_next s) c (u_fds s)) (-1) ow ew rq file (child_start fds c s)).1 = inl im →
  later (λ q, u_next s ≤ q) s s1 → later (λ q, u_next s ≤ q) (start (child_pid st) im s1) s2 →
  ∃ po' pe', po' ≠ pe' ∧
    drains (standard_output st) po' [] (if so then written 1 im else []) (without [-1; ow; ew] s2) ∧
    drains (standard_error st) pe' [] (if se then written 2 im else []) (without [-1; ow; ew] s2) ∧
    (0 ≤ standard_output st → standard_output st ≠ standard_error st).
Proof.
  intros Po Pe Hap Hready Hc Hres L1 L2.
  assert (Do : so = true → standard_output st ≠ ew ∧ ow ≠ ew →
    drains (standard_output st) po [] (written 1 im) (without [-1; ow; ew] s2)).
  { intros ->  [N1 N2]. destruct Po as (H3 & Hw3 & Hne & Hp & Hr & Hw & Hu & He & Ho).
    eapply (started_drains (λ q, u_next s ≤ q)); [done|lia|done|done|done|set_solver|set_unfold; lia|lia|done| |done..].
    eapply program_end; [done..|]. left. split_and!; done || lia. }
  assert (De : se = true → standard_error st ≠ ow ∧ ow ≠ ew →
    drains (standard_error st) pe [] (written 2 im) (without [-1; ow; ew] s2)).
  { intros -> [N1 N2]. destruct Pe as (H3 & Hw3 & Hne & Hp & Hr & Hw & Hu & He & Ho).
    eapply (started_drains (λ q, u_next s ≤ q)); [done|lia|done|done|done|set_solver|set_unfold; lia|lia|done| |done..].
    eapply program_end; [done..|]. right. split_and!; done || lia. }
  assert (Hnone : ∀ fd p, fd = -1 → drains fd p [] [] (without [-1; ow; ew] s2)).
  { intros fd p ->. by left. }
  destruct so, se.
  - destruct (Hap eq_refl eq_refl) as (Hne & N1 & N2 & N3 & N4). exists po, pe. split_and!; auto.
  - destruct Pe as [Ee ->]. destruct Po as (H3 & Hw3 & _). exists po, (po + 1). split_and!; [lia| |by apply Hnone|lia].
    apply Do; [done|lia].
  - destruct Po as [Eo ->]. destruct Pe as (H3 & Hw3 & _). exists (pe + 1), pe. split_and!; [lia|by apply Hnone| |lia].
    apply De; [done|lia].
  - destruct Po as [Eo ->], Pe as [Ee ->]. exists 0, 1. split_and!; [done|by apply Hnone..|lia].
Qed.

(** The process of a program that was started. *)
Lemma started_process pid im P s0 s s1 s2 :
  went (λ q, u_next s0 ≤ q) (u_fds s) s0 s → fresh s → u_next s ≤ pid →
  later P s s1 → later P (start pid im s1) s2 →
  u_kids s2 = pid :: u_kids s0 ∧ known pid s2 ∧ ends_with pid (sys_runs im).2 s2.
Proof.
  intros [W _] [Hpos _ _ _ Hp Hz] Hpid L1 L2.
  destruct (later_known_below _ (u_next s) _ _ L1 (conj Hp Hz)) as [Bp Bz]. split_and!.
  - rewrite (later_kids _ _ _ L2). change (u_kids (start pid im s1)) with (pid :: u_kids s1).
    rewrite (later_kids _ _ _ L1). f_equal. exact (later_kids _ _ _ W).
  - eapply later_known; [exact L2|]. left. unfold start. rs. rewrite fmap_app. set_solver.
  - eapply later_ends_with; [exact L2|]. split.
    + intros z Hin E. specialize (Bz z Hin). lia.
    + intros r Hin E. unfold start in Hin. revert Hin. rs.
      intros [Hin| ->%list_elem_of_singleton]%elem_of_app; [|done]. specialize (Bp r Hin). lia.
Qed.

Lemma collect_fuel_enough po pe allo alle o e s :
  drains o po [] allo s → drains e pe [] alle s →
  let c := mkCollecting o e [] [] None in (measure po pe c s ≤ collect_fuel c s)%nat.
Proof.
  intros Ho He c. unfold measure, collect_fuel. cbn [outpipe errpipe c].
  assert (H : ∀ fd p all, drains fd p [] all s → (left_of fd p s ≤ to_come fd s)%nat).
  { intros fd p all [[Hn _]|(H0 & (b & Hb) & _)]; unfold left_of, to_come.
    - destruct (Z.ltb_spec fd 0); lia.
    - rewrite Hb. destruct (Z.ltb_spec fd 0); lia. }
  specialize (H o po allo Ho) as H1. specialize (H e pe alle He) as H2. lia.
Qed.

(** From the program to the answer of [g_spawn_sync]. *)
Lemma wp_collected so se rq file c st (Q : gerror + (list Z * list Z * option Z) → uproc → Prop) s0 s :
  piped_program false so se rq file c s0 st s → close_descriptors rq = true → calm s → fresh s0 →
  Z.of_nat (size (u_fds s0)) + 10 < FD_SETSIZE →
  (∀ im s', asked_for rq file im → u_fds s' = u_fds s0 → u_kids s' = u_kids s0 →
     Q (inr (if so then written 1 im else [], if se then written 2 im else [], Some (sys_runs im).2)) s') →
  wp (let c := mkCollecting (standard_output st) (standard_error st) [] [] None in
      fuel ← gets (collect_fuel c);
      c ← collect_loop fuel c;
      close_and_invalidate (outpipe c);;
      close_and_invalidate (errpipe c);;
      '(ret, status) ← wait_for (child_pid st);
      e ← gets u_errno;
      let fate :=
        if ret <? 0 then
          if e =? ECHILD then (failure c, None)
          else (match failure c with None => Some (WaitFailed e) | f => f end, None)
        else (failure c, Some status) in
      match fate with
      | (Some err, _) => mret (inl err)
      | (None, status) => mret (inr (outstr c, errstr c, status))
      end) Q s.
Proof.
  intros (sF & fds & ir & ow & ew & pi & po & pe & im & s1 & s2 & Hop & Pi & Po & Pe & Hap & Hready & Hpid &
    Hres & L1 & L2 & ->) Hc Hcalm Hf0 Hlow HQ.
  destruct Pi as [-> Ei]. set (P := λ q, u_next sF ≤ q) in *. set (s := without _ s2) in *.
  destruct (started_pipes so se rq file c fds ow ew po pe im st s0 sF s1 s2 Po Pe Hap Hready Hc Hres L1 L2)
    as (po' & pe' & Hne & Do & De & Hfds).
  destruct (started_process (child_pid st) im P s0 sF s1 s2 (op_went _ _ _ _ Hop) (op_fresh _ _ _ _ Hop)
    Hpid L1 L2) as (Hk & Hkn & Hew).
  assert (Him : asked_for rq file im).
  { destruct (search_result _ _ _ _ _ _ _) as [r ims] eqn:Es. cbn in Hres. subst r.
    apply resolve_started in Es as (_ & _ & _ & He' & Hn). by split. }
  assert (Hend : dropped [standard_output st; standard_error st] (u_fds s) = u_fds s0).
  { rewrite <- (op_drop _ _ _ _ Hop). unfold s, without. rs. rewrite (later_fds _ _ _ L2).
    change (u_fds (start _ _ s1)) with (u_fds s1). rewrite (later_fds _ _ _ L1), <- dropped_app.
    apply map_eq. intros k. rewrite !dropped_lookup. destruct (Z.leb_spec 0 k); [|by rewrite !andb_false_r].
    rewrite !andb_true_r. erewrite bool_decide_ext; [done|]. set_unfold. intuition lia. }
  cbv zeta. wp_step. apply wp_gets. wp_step.
  eapply (wp_collect_loop po' pe' (if so then written 1 im else []) (if se then written 2 im else []) Hne s
    (u_fds s0)).
  { split; cbn [outpipe errpipe outstr errstr failure]; try done.
    split; eapply Z.le_lt_trans; [apply (op_low _ _ _ _ Hop); set_solver|lia|apply (op_low _ _ _ _ Hop); set_solver|lia]. }
  { by eapply (collect_fuel_enough po' pe'). }
  intros c' s' [Hf Ho He Hcalm' _ Hw Hd _] No Ne. cbn beta.
  do 2 apply wp_close_then. cbv beta. rewrite !without_neg by done.
  assert (Hs' : later (both po' pe') s (s' <| u_fds := u_fds s |>)) by apply Hw.
  assert (Ek : u_kids s' = child_pid st :: u_kids s0).
  { etrans; [exact (later_kids _ _ _ Hs')|exact Hk]. }
  assert (Hpos : u_next s0 ≤ child_pid st).
  { etrans; [|exact Hpid]. destruct (op_went _ _ _ _ Hop) as [W _]. exact (later_next _ _ _ W). }
  wp_step. apply wp_wait_for.
  - rewrite Ek. set_solver.
  - exact (later_known _ _ _ _ Hs' Hkn).
  - destruct Hf0. lia.
  - intros s3 L3 Hz. cbn beta iota. wp_step. apply wp_gets. cbv zeta.
    destruct (Z.ltb_spec (child_pid st) 0); [destruct Hf0; lia|]. rewrite Hf. apply wp_ret.
    rewrite (found_status _ (sys_runs im).2 s3);
      [|eapply later_ends_with; [exact L3|]; exact (later_ends_with _ _ _ _ _ Hs' Hew)|done].
    destruct Ho as [[_ ->]|[? _]]; [|lia]. destruct He as [[_ ->]|[? _]]; [|lia].
    apply HQ; [done| |].
    + change (u_fds (reaped (child_pid st) s3)) with (u_fds s3). rewrite (later_fds _ _ _ L3), <- Hd.
      change (dropped [outpipe c'; errpipe c'] (u_fds s'))
        with (dropped [errpipe c'] (dropped [outpipe c'] (u_fds s'))).
      by rewrite !dropped_neg.
    + unfold reaped. rs. rewrite (later_kids _ _ _ L3), Ek. cbn [List.filter]. rewrite Z.eqb_refl. cbn [negb].
      apply (filter_ne (λ k, k)). intros k Hin. pose proof (fr_kids _ Hf0 k Hin). lia.
  - intros s3 L3 Hnc. by destruct Hnc.
Qed.

Lemma wp_g_spawn_sync avail wd args env flags setup (so se : bool) file rest
    (Q : gerror + (list Z * list Z * option Z) → uproc → Prop) s0 :
  let rq := request_of wd args env flags setup in
  args = file :: rest → std_open (u_fds s0) → table_ok (u_fds s0) → fresh s0 →
  Z.of_nat (size (u_fds s0)) + 10 < open_limit → Z.of_nat (size (u_fds s0)) + 10 < FD_SETSIZE →
  harmless rq → argv_pass rq ≠ [] → Z.testbit flags LEAVE_DESCRIPTORS_OPEN = false → calm s0 →
  (∀ err s', u_fds s' = u_fds s0 → u_kids s' = u_kids s0 →
     err = BadArguments ∨ (∃ r, explains rq r err) → Q (inl err) s') →
  (∀ im s', asked_for rq file im → u_fds s' = u_fds s0 → u_kids s' = u_kids s0 →
     Q (inr (if so then written 1 im else [], if se then written 2 im else [], Some (sys_runs im).2)) s') →
  wp (g_spawn_sync avail wd args env flags setup so se) Q s0.
Proof.
  intros rq Ha Hs Hok Hf Hl1 Hl2 Hh Hp Hflag Hcalm HE HQ. unfold g_spawn_sync. apply wp_if; intros _.
  { apply wp_ret. apply HE; auto. }
  assert (Hc : close_descriptors rq = true) by (unfold rq, request_of; cbn [close_descriptors]; by rewrite Hflag).
  wp_step. eapply (wp_fork_exec_with_pipes avail rq _ false so se file rest); try done; [unfold FD_SETSIZE, G_MAXINT in *; lia| |].
  - intros st s1 Hst. cbn beta iota. eapply wp_collected; [exact Hst|done| |done|done|done].
    destruct Hst as (sF & fds & ir & ow & ew & pi & po & pe & im & s2 & s3 & Hop & _ & _ & _ & _ & _ & _ & _ &
      L1 & L2 & ->).
    assert (C2 : calm s2) by (eapply later_calm; [exact L1|]; destruct Hop; by eapply went_calm).
    exact (later_calm _ _ _ L2 C2).
  - intros err s1 r Ef Hl Hex. apply wp_ret. apply HE; [done| |by right; exists r].
    by apply later_kids in Hl.
Qed.
End Sync.

(** A pipe whose descriptor is no bit of an [fd_set] is written past its end. *)
Lemma high_descriptor_overruns fuel c s : failure c = None → FD_SETSIZE ≤ outpipe c ∨ FD_SETSIZE ≤ errpipe c →
  collect_loop (S fuel) c s = Stop Fault s.
Proof.
  intros Hf Hh. assert (Hg : going c = true) by (unfold going, FD_SETSIZE in *; rewrite Hf; lia). cbn [collect_loop]. rewrite Hg.
  assert (E : existsb (λ fd, fd >=? FD_SETSIZE) (List.filter (λ fd, fd >=? 0) [outpipe c; errpipe c]) = true).
  { apply existsb_exists. unfold FD_SETSIZE in *. destruct Hh; [exists (outpipe c)|exists (errpipe c)]; rewrite filter_In; cbn [In]; lia || (split_and!; auto; lia). }
  unfold FD_SET. by rewrite E.
Qed.

(** C1: [g_spawn_sync] answers exactly what the program it started wrote on its standard
    output and standard error, in order and complete, and the status it ended with,
    however the writes, the reads and the interruptions fall; or an error that says why
    no program was started.  Either way the caller has the descriptors and the children
    it had before.  The program keeps no other descriptors (the flag LEAVE_DESCRIPTORS_OPEN is not set), the child setup
    does no harm, calls are at most interrupted, and the caller has so few descriptors open that those of the pipes are below the limit
    and below FD_SETSIZE; [high_descriptor_overruns] is what happens otherwise. *)
Theorem g_spawn_sync_collects {Sys : System} {Gl : GLib} {Laws : SystemLaws} avail wd args env flags setup (so se : bool) file rest s
    (Hargs : args = file :: rest) (Hstd : std_open (u_fds s)) (Hok : table_ok (u_fds s)) (Hfresh : fresh s)
    (Hroom : Z.of_nat (size (u_fds s)) + 10 < open_limit ∧ Z.of_nat (size (u_fds s)) + 10 < FD_SETSIZE)
    (Hsetup : harmless (request_of wd args env flags setup))
    (Hpass : argv_pass (request_of wd args env flags setup) ≠ [])
    (Hflag : Z.testbit flags LEAVE_DESCRIPTORS_OPEN = false) (Hcalm : calm s) :
  wp (g_spawn_sync avail wd args env flags setup so se)
    (λ a s', u_fds s' = u_fds s ∧ u_kids s' = u_kids s ∧
       match a with
       | inr (out, err, status) => ∃ im, asked_for (request_of wd args env flags setup) file im ∧
           out = (if so then written 1 im else []) ∧ err = (if se then written 2 im else []) ∧
           status = Some (sys_runs im).2
       | inl err => err = BadArguments ∨ ∃ r, explains (request_of wd args env flags setup) r err
       end) s.
Proof.
  destruct Hroom. eapply wp_g_spawn_sync; [done..| |].
  - intros err s' Ef Ek Hex. by split_and!.
  - intros im s' Him Ef Ek. split_and!; [done..|]. by exists im.
Qed.
