(* ===== verification/SpawnDemo.v ===== *)
(** A concrete system, and the theorems about gspawn.c at concrete states: they show
    that the hypotheses can hold. *)
From S2P Require Import Prelude Nptl Unix GExecute GSpawnIo GSpawnChild GSpawn GSpawnPipes GSpawnApi GSpawnSync.

(** * Decimal names *)

Definition digit_char (d : Z) : ascii := ascii_of_nat (Z.to_nat (d + 48)).
Fixpoint decimal_name (fuel : nat) (n : Z) : str :=
  match fuel with
  | O => []
  | S fuel =>
      if n <? 10 then [digit_char n] else decimal_name fuel (n / 10) ++ [digit_char (n `mod` 10)]
  end.

Lemma digit_char_spec d : 0 ≤ d < 10 →
  g_ascii_isdigit (digit_char d) = true ∧ digit (digit_char d) = d.
Proof.
  intros H. unfold g_ascii_isdigit, digit, digit_char. rewrite nat_ascii_embedding by lia.
  rewrite Z2Nat.id by lia. split; [|lia]. destruct (Z.leb_spec 48 (d + 48)), (Z.leb_spec (d + 48) 57); done || lia.
Qed.

Lemma decimal_name_spec fuel n :
  0 ≤ n → (Z.to_nat n < fuel)%nat →
  forallb g_ascii_isdigit (decimal_name fuel n) = true ∧ decimal_name fuel n ≠ [] ∧
  value (decimal_name fuel n) = n.
Proof.
  revert n. induction fuel as [|fuel IH]; intros n H0 Hf; [lia|]. cbn [decimal_name].
  destruct (Z.ltb_spec n 10) as [H|H].
  - destruct (digit_char_spec n) as [Hd Hv]; [lia|]. cbn [forallb]. rewrite Hd. split_and!; [done|done|].
    unfold value. cbn [foldl]. lia.
  - assert (Hq : 0 ≤ n / 10 < n) by (Z.to_euclidean_division_equations; lia).
    destruct (IH (n / 10)) as (H1 & _ & H3); [lia|lia|].
    destruct (digit_char_spec (n `mod` 10)) as [Hd Hv]; [apply Z.mod_pos_bound; lia|].
    split_and!.
    + rewrite forallb_app, H1. cbn [forallb]. by rewrite Hd.
    + by destruct (decimal_name fuel (n / 10)).
    + unfold value in *. rewrite foldl_app. cbn [foldl]. rewrite H3, Hv.
      pose proof (Z.div_mod n 10). lia.
Qed.

(** * A system *)

Definition PROG : str := lit "/bin/x".

(** [/bin/x], and [/bin/sh] too, writes "hi" on its output in two pieces, "!" on its
    errors, and exits with 3. *)
#[export] Instance demo_system : System := {|
  sys_exec im := if bool_decide (im_file im ∈ [PROG; lit "/bin/sh"]) then None else Some ENOENT;
  sys_runs _ := ([(1, [104]); (2, [33]); (1, [105])], 768);
  sys_spawnp _ := inl PROG;
  sys_environ := [];
  sys_proc_fd t := [lit "."; lit ".."] ::
    ((λ v : Z * (file * bool), [decimal_name (S (Z.to_nat v.1)) v.1]) <$> map_to_list t);
  sys_rlim_max := Some 1024;
  sys_open_max := 1024;
|}.
#[export] Instance demo_glib : GLib := {|
  g_environ_getenv _ _ := None;
  g_getenv _ := Some (lit "/usr:/bin");
|}.

#[export] Instance demo_laws : SystemLaws.
Proof.
  split.
  - intros t fd [v Hv] Hfd. destruct (decimal_name_spec (S (Z.to_nat fd)) fd) as (H1 & H2 & H3); [lia|lia|].
    exists (decimal_name (S (Z.to_nat fd)) fd). split_and!; [|unfold decimal; by rewrite bool_decide_false|done].
    cbn [sys_proc_fd demo_system mjoin list_join]. apply elem_of_app. right.
    apply list_elem_of_join. exists [decimal_name (S (Z.to_nat fd)) fd]. split; [set_solver|].
    apply list_elem_of_fmap. exists (fd, v). split; [done|]. by apply elem_of_map_to_list.
  - intros im e. cbn [sys_exec demo_system]. case_bool_decide; [done|]. intros [= <-]. done.
Qed.

(** Three standard descriptors, and some interruptions to come. *)
Definition std_table : fdtable :=
  {[0 := (Other 0, false); 1 := (Other 1, false); 2 := (Other 2, false)]}.
Definition demo_parent : uproc := mkUproc std_table 0 None [] [] 0 None
  [Count 1; Count 1; Count 1; Count 1; Err EINTR; Err EINTR; Count 1; Err EINTR; Err EINTR; Count 1; Err EINTR] [[]; [3]; [3; 3]] 1 ∅ [] [] [] [].

Definition demo_flags : Z := 2 ^ SEARCH_PATH.
Definition demo_request : request := request_of None [lit "x"] None demo_flags None.

Lemma std_lookup fd v : std_table !! fd = Some v → 0 ≤ fd ≤ 2 ∧ v = (Other fd, false).
Proof.
  unfold std_table. rewrite !lookup_insert_Some, lookup_singleton_Some.
  intros [[<- <-]|[_ [[<- <-]|[_ [<- <-]]]]]; (split; [lia|done]).
Qed.

Lemma demo_std : std_open (u_fds demo_parent).
Proof.
  intros i Hi. assert (i = 0 ∨ i = 1 ∨ i = 2) as [-> | [-> | -> ]] by lia; by eexists.
Qed.
Lemma demo_ok : table_ok (u_fds demo_parent).
Proof.
  intros fd [v Hv]. apply std_lookup in Hv as [Hr _]. assert (open_limit = 1024) as -> by (by vm_compute). unfold G_MAXINT. lia.
Qed.
Lemma demo_calm : calm demo_parent.
Proof.
  intros e. cbn. set_unfold. intros H. decompose [or] H; simplify_eq; done.
Qed.
Lemma demo_fresh : fresh demo_parent.
Proof.
  split; try done; [|intros ? ? ?; by intros ?%elem_of_nil|intros ? ?%elem_of_nil; done..].
  intros fd v p Hv Hf. apply std_lookup in Hv as [_ ->]. done.
Qed.
Lemma demo_room : Z.of_nat (size (u_fds demo_parent)) + 10 < open_limit ∧
  Z.of_nat (size (u_fds demo_parent)) + 10 < G_MAXINT.
Proof. by vm_compute. Qed.

(** The program's output is collected. *)
Lemma demo_room_sync : Z.of_nat (size (u_fds demo_parent)) + 10 < open_limit ∧
  Z.of_nat (size (u_fds demo_parent)) + 10 < FD_SETSIZE.
Proof. by vm_compute. Qed.
Lemma g_spawn_sync_collects_witness :
  ∃ s', g_spawn_sync true None [lit "x"] None demo_flags None true true demo_parent =
    Done (inr ([104; 105], [33], Some 768)) s' ∧ u_fds s' = std_table ∧ u_kids s' = [].
Proof.
  pose proof (g_spawn_sync_collects true None [lit "x"] None demo_flags None true true (lit "x") []
    demo_parent eq_refl demo_std demo_ok demo_fresh demo_room_sync ltac:(done) ltac:(done) eq_refl demo_calm) as H.
  apply wp_done in H as (a & s' & E & Ef & Ek & Ha). exists s'. split_and!; [|exact Ef|exact Ek].
  rewrite E. f_equal.
  assert (Er : match g_spawn_sync true None [lit "x"] None demo_flags None true true demo_parent with
    | Done (inr _) _ => true | _ => false end = true) by (by vm_compute).
  rewrite E in Er. destruct a as [err|[[out err] st]]; [done|].
  destruct Ha as (im & _ & -> & -> & ->). by vm_compute.
Defined.

(** A child whose report goes to descriptor 3, with output to descriptor 5. *)
Definition child_table : fdtable := <[3 := (PipeWrite 7, true)]> (<[5 := (Other 5, false)]> std_table).
Definition demo_child : uproc :=
  demo_parent <| u_fds := child_table |>
    <| u_pipes := {[7 := []]} |> <| u_next := 9 |>.

Lemma child_startable : startable 7 3 (-1) 5 (-1) (u_fds demo_child).
Proof.
  split; [by split; [|exists true]| | |by left| |by left].
  - intros i Hi. assert (i = 0 ∨ i = 1 ∨ i = 2) as [-> | [-> | -> ]] by lia; by eexists.
  - intros fd [v Hv]. assert (open_limit = 1024) as -> by (by vm_compute). unfold G_MAXINT.
    change (child_table !! fd = Some v) in Hv. unfold child_table in Hv. apply lookup_insert_Some in Hv as [[<- _]|[_ Hv]]; [lia|].
    apply lookup_insert_Some in Hv as [[<- _]|[_ Hv]]; [lia|]. apply std_lookup in Hv as [Hr _]. lia.
  - right. split; [done|]. by eexists.
Qed.
Lemma child_null_safe : null_safe (-1) 5 (-1) demo_request demo_child.
Proof. left. exact demo_calm. Qed.

Lemma child_replaced : ∃ c, do_exec 3 (-1) 5 (-1) demo_request demo_child = Stop Replaced c.
Proof.
  destruct (do_exec 3 (-1) 5 (-1) demo_request demo_child) as [a c|w c] eqn:E;
    apply (f_equal (λ o : outcome uproc (), match o with Stop Replaced _ => true | _ => false end)) in E;
    vm_compute in E; [done|]. destruct w; try done. by exists c.
Qed.

Lemma do_exec_launches_witness :
  ∃ c im, do_exec 3 (-1) 5 (-1) demo_request demo_child = Stop Replaced c ∧
    (search_result 3 (-1) 5 (-1) demo_request (lit "x") demo_child).1 = inl im ∧ u_exec c = Some im.
Proof.
  destruct child_replaced as [c E].
  pose proof (do_exec_launches 7 3 (-1) 5 (-1) demo_request (lit "x") [] demo_child
    child_startable child_null_safe ltac:(done) eq_refl ltac:(done)) as H.
  unfold wpx in H. rewrite E in H. destruct H as (im & Hr & Hx & _).
  exists c, im. split_and!; [exact E|exact Hr|exact Hx].
Defined.


(** "The program could not be started, ENOENT" through pipe 7. *)
Definition demo_reader : uproc :=
  demo_parent <| u_fds := <[4 := (PipeRead 7, true)]> std_table |>
    <| u_pipes := {[7 := bytes_of_int CHILD_EXEC_FAILED ++ bytes_of_int ENOENT]} |>.

Lemma error_report_round_trip_witness :
  ∃ s', read_ints 4 2 demo_reader = Done (inr [CHILD_EXEC_FAILED; ENOENT]) s'.
Proof.
  pose proof (error_report_round_trip 3 CHILD_EXEC_FAILED 7 true 4 true (demo_child <| u_errno := ENOENT |>)
    demo_reader eq_refl eq_refl ltac:(done) ltac:(done) eq_refl) as H.
  assert (Hc : unwritten 7 demo_reader ∧ unheld 7 demo_reader).
  { split; [|by intros ? ? ?%elem_of_nil]. intros fd v Hv. change (<[4 := (PipeRead 7, true)]> std_table !! fd = Some v) in Hv.
    apply lookup_insert_Some in Hv as [[_ <-]|[_ Hv]]; [done|]. by apply std_lookup in Hv as [_ ->]. }
  specialize (H Hc demo_calm). unfold wpx in H.
  destruct (write_err_and_exit _ _ _) as [a c|w c] eqn:E; [done|]. destruct H as [_ H].
  assert (Hp : pipe_of 7 demo_reader = pipe_of 7 c).
  { apply (f_equal (λ o : outcome uproc (), match o with Stop _ c => pipe_of 7 c | _ => [] end)) in E.
    rewrite <- E. by vm_compute. }
  apply wp_done in H as (a & s' & Ed & ->); [|exact Hp]. by exists s'.
Defined.

Lemma demo_ready : ready None [] (-1) (-1) (-1) demo_parent.
Proof.
  split; [exact demo_std|exact demo_ok|by vm_compute|by left|by left|by left|done|by intros ? ?%elem_of_nil|exact demo_fresh].
Qed.

Lemma fork_exec_starts_witness :
  ∃ s', fork_exec_with_fds true false demo_request true None (-1) (-1) (-1) demo_parent = Done (inr 2) s' ∧
    u_fds s' = std_table.
Proof.
  pose proof (fork_exec_starts true demo_request true None [] (-1) (-1) (-1) (lit "x") [] demo_parent
    demo_ready (or_introl demo_calm) ltac:(done) eq_refl ltac:(done) eq_refl) as H.
  apply wp_done in H as (a & s' & E & Ef & _). exists s'. split; [|exact Ef].
  assert (Er : match fork_exec_with_fds true false demo_request true None (-1) (-1) (-1) demo_parent with
    | Done (inr pid) _ => pid | _ => 0 end = 2) by (by vm_compute).
  rewrite E in *. destruct a as [err|pid]; [done|]. by rewrite Er.
Defined.

Lemma fork_exec_pipes_ends_witness :
  ∃ st s', fork_exec_with_pipes true false demo_request true false true true demo_parent = Done (inr st) s' ∧
    piped_program false true true demo_request (lit "x") true demo_parent st s'.
Proof.
  pose proof (fork_exec_pipes_ends true demo_request true false true true (lit "x") [] demo_parent
    demo_std demo_ok demo_fresh demo_room ltac:(done) eq_refl ltac:(done) eq_refl demo_calm) as H.
  apply wp_done in H as (a & s' & E & Ha).
  assert (Er : match fork_exec_with_pipes true false demo_request true false true true demo_parent with
    | Done (inr _) _ => true | _ => false end = true) by (by vm_compute).
  rewrite E in Er. destruct a as [err|st]; [done|]. destruct Ha as [Ha _].
  exists st, s'. split; [exact E|exact Ha].
Defined.
