(* ===== verification/LibcSystem.v ===== *)
(** [system], in both versions of glibc: system.c of 2.32, and of 2.27.

    Any number of threads call [system] at the same time.  They share the
    dispositions of SIGINT and SIGQUIT, the static variables [intr], [quit] and
    [sa_refcntr] and the lock; each has a signal mask of its own.  A function is a
    tree of the operations it performs, one for every access to something shared and
    every system call, and the machine runs one operation of one thread at a time.

    The proofs give every operation a rule in terms of the thread's role: outside,
    inside (counted, without the lock), or in one of the critical sections.  The rules
    are checked against the code once for each function, and against the machine once
    for each operation. *)
From S2P Require Import Prelude.
From stdpp Require Import strings.
#[local] Open Scope Z_scope.

(** * What is shared *)

Inductive signal := SIGINT | SIGQUIT.
#[export] Instance signal_eq_dec : EqDecision signal.
Proof. solve_decision. Defined.

Inductive handler := SIG_DFL | SIG_IGN | Handler (f : Z).
#[export] Instance handler_eq_dec : EqDecision handler.
Proof. solve_decision. Defined.

Record sigaction := mkSigaction { sa_handler : handler; sa_mask : gset Z; sa_flags : Z }.
Definition ignoring : sigaction := mkSigaction SIG_IGN ∅ 0.

(** One value for each of the two signals. *)
Record both (A : Type) := mkBoth { on_int : A; on_quit : A }.
Arguments mkBoth {A}.
Arguments on_int {A}.
Arguments on_quit {A}.
Definition of_sig {A} (b : both A) (sig : signal) : A :=
  match sig with SIGINT => on_int b | SIGQUIT => on_quit b end.
Definition set_sig {A} (b : both A) (sig : signal) (a : A) : both A :=
  match sig with SIGINT => mkBoth a (on_quit b) | SIGQUIT => mkBoth (on_int b) a end.
Definition all {A} (a : A) : both A := mkBoth a a.

Definition SIGCHLD : Z := 17.
Definition SIGKILL : Z := 9.
Definition EINTR : Z := 4.

(** A shell that was started: its arguments, what it does on the two signals and the
    signals it blocks. *)
Record shell := mkShell { sh_argv : list string; sh_on : both handler; sh_mask : gset Z }.
(** It runs, has ended, or was waited for. *)
Inductive fate := Runs | Ended (status : Z) | Reaped (status : Z).

Record shared := mkShared {
  lock : option nat;                   (* the thread that holds it *)
  sa_refcntr : Z;
  dispositions : both sigaction;
  saved : both sigaction;              (* the static [intr] and [quit] *)
  shells : gmap Z (shell * fate);
  next_pid : Z;
}.
#[export] Instance eta_shared : Eta shared := λ s, mkShared
  (lock s) (sa_refcntr s) (dispositions s) (saved s) (shells s) (next_pid s).

(** A thread's own: its mask, [errno], the process its cancellation handler kills; and
    what happened to it: whether it was cancelled, the shell it started, whether it
    killed it and the status it waited for. *)
Record local := mkLocal {
  l_mask : gset Z; l_errno : Z; l_cleanup : option Z;
  l_cancelled : bool; l_started : option (Z * shell); l_killed : bool; l_waited : option Z;
}.
#[export] Instance eta_local : Eta local := λ l, mkLocal
  (l_mask l) (l_errno l) (l_cleanup l) (l_cancelled l) (l_started l) (l_killed l) (l_waited l).

(** * Operations *)

Inductive op : Type → Type :=
  | DO_LOCK : op ()
  | DO_UNLOCK : op ()
  | ADD_REF : op Z                     (* the value before *)
  | SUB_REF : op Z                     (* the value after *)
  | Ignore (sig : signal) : op bool    (* [__sigaction (sig, &sa, &intr)]: whether it failed *)
  | Restore (sig : signal) : op bool   (* [__sigaction (sig, &intr, NULL)] *)
  | Saved (sig : signal) : op sigaction
  | Block_SIGCHLD : op (option (gset Z))  (* the old mask, unless it failed *)
  | Set_mask (mask : gset Z) : op bool
  | Posix_spawn (mask : gset Z) (reset : list signal) (argv : list string) : op (Z + Z)
  | Fork_shell (mask : gset Z) (argv : list string) : op (option Z)
  | Waitpid (pid : Z) : op (option Z)
  | Kill (pid : Z) : op ()
  | Cleanup (pid : option Z) : op ()   (* start and end of the cleanup region *)
  | Errno : op Z
  | Set_errno (e : Z) : op ().

Inductive prog (A : Type) : Type :=
  | Ret (a : A)
  | Act {B : Type} (o : op B) (k : B → prog A).
Arguments Ret {A}.
Arguments Act {A B}.

#[export] Instance prog_ret : MRet prog := λ A a, Ret a.
#[export] Instance prog_bind : MBind prog := λ A B f,
  fix bind (p : prog A) : prog B :=
    match p with Ret a => f a | Act o k => Act o (λ b, bind (k b)) end.
Definition call {B} (o : op B) : prog B := Act o Ret.
Definition when_p (b : bool) (p : prog ()) : prog () := if b then p else mret ().

(** * The functions *)

Definition cancel_handler (pid : Z) : prog () :=
  call (Kill pid);;
  call (Waitpid pid);;
  call DO_LOCK;;
  n ← call SUB_REF;
  when_p (n =? 0) (call (Restore SIGQUIT);; call (Restore SIGINT);; mret ());;
  call DO_UNLOCK.

Definition do_system (line : string) : prog Z :=
  call DO_LOCK;;
  n ← call ADD_REF;
  when_p (n =? 0) (call (Ignore SIGINT);; call (Ignore SIGQUIT);; mret ());;
  call DO_UNLOCK;;
  omask ← call Block_SIGCHLD;
  let omask := default ∅ omask in
  intr ← call (Saved SIGINT);
  quit ← call (Saved SIGQUIT);
  let reset := (if decide (sa_handler intr = SIG_IGN) then [] else [SIGINT]) ++
               (if decide (sa_handler quit = SIG_IGN) then [] else [SIGQUIT]) in
  ret ← call (Posix_spawn omask reset ["sh"; "-c"; line]%string);
  status ← match ret with
           | inr pid =>
               call (Cleanup (Some pid));;
               status ← call (Waitpid pid);
               call (Cleanup None);;
               mret (default (-1) status)
           | inl _ => mret (-1)
           end;
  call DO_LOCK;;
  n ← call SUB_REF;
  when_p (n =? 0)
    (call (Restore SIGINT);; call (Restore SIGQUIT);; call (Set_mask omask);; mret ());;
  call DO_UNLOCK;;
  match ret with inl e => call (Set_errno e) | inr _ => mret () end;;
  mret status.

(** The failures of the first critical section; the lock is still held. *)
Definition ignore_signals : prog bool :=
  n ← call ADD_REF;
  if n =? 0 then
    failed ← call (Ignore SIGINT);
    if failed : bool then call SUB_REF;; mret false
    else
      failed ← call (Ignore SIGQUIT);
      if failed : bool then
        save ← call Errno;
        call SUB_REF;;
        call (Restore SIGINT);;
        call (Set_errno save);;
        mret false
      else mret true
  else mret true.

Definition do_system_2_27 (line : string) : prog Z :=
  call DO_LOCK;;
  ok ← ignore_signals;
  call DO_UNLOCK;;
  if negb ok then mret (-1) else
  omask ← call Block_SIGCHLD;
  match omask with
  | None =>
      call DO_LOCK;;
      n ← call SUB_REF;
      when_p (n =? 0)
        (save ← call Errno;
         call (Restore SIGQUIT);; call (Restore SIGINT);; call (Set_errno save));;
      call DO_UNLOCK;;
      mret (-1)
  | Some omask =>
      pid ← call (Fork_shell omask ["sh"; "-c"; line]%string);
      status ← match pid with
               | None => mret (-1)
               | Some pid => status ← call (Waitpid pid); mret (default (-1) status)
               end;
      call DO_LOCK;;
      n ← call SUB_REF;
      failed ← (if n =? 0 then
                  a ← call (Restore SIGINT); b ← call (Restore SIGQUIT); mret (a || b)
                else mret false);
      failed ← (if failed : bool then mret true else call (Set_mask omask));
      call DO_UNLOCK;;
      mret (if failed : bool then -1 else status)
  end.

(** [__libc_system], over either [do_system]. *)
Definition libc_system (do_system : string → prog Z) (line : option string) : prog Z :=
  match line with
  | None => status ← do_system "exit 0"%string; mret (if status =? 0 then 1 else 0)
  | Some line => do_system line
  end.

(** * The machine *)

(** What a system call that may fail does: it succeeds, or fails with an error. *)
Inductive choice := Fine | Refuse (e : Z).

(** What a signal does after [execve]: handlers are gone. *)
Definition after_exec (h : handler) : handler :=
  match h with SIG_IGN => SIG_IGN | _ => SIG_DFL end.
Definition both_after_exec (b : both sigaction) : both handler :=
  mkBoth (after_exec (sa_handler (on_int b))) (after_exec (sa_handler (on_quit b))).
Definition reset_on (reset : list signal) (b : both handler) : both handler :=
  mkBoth (if decide (SIGINT ∈ reset) then SIG_DFL else on_int b)
         (if decide (SIGQUIT ∈ reset) then SIG_DFL else on_quit b).

Definition new_shell (sh : shell) (s : shared) : shared :=
  s <| shells := <[next_pid s := (sh, Runs)]> (shells s) |> <| next_pid := next_pid s + 1 |>.
Definition set_fate (pid : Z) (f : fate) (s : shared) : shared :=
  match shells s !! pid with
  | Some (sh, _) => s <| shells := <[pid := (sh, f)]> (shells s) |>
  | None => s
  end.

(** An [int]. *)
Definition int32 (x : Z) : Z := (x + 2147483648) `mod` 4294967296 - 2147483648.

Section Machine.
(** Whether [sigaction] and [sigprocmask] can fail when signals are ignored and
    blocked: the old version allows for it. *)
Context (can_fail : bool).

(** One operation of thread [t]; [None] when it has to wait, or when the choice does
    not apply. *)
Definition exec {B} (o : op B) (t : nat) (c : choice) (s : shared) (l : local) :
    option (B * shared * local) :=
  match o in op B return option (B * shared * local) with
  | DO_LOCK => match lock s with
               | None => Some ((), s <| lock := Some t |>, l)
               | Some _ => None
               end
  | DO_UNLOCK => Some ((), s <| lock := None |>, l)
  | ADD_REF => Some (sa_refcntr s, s <| sa_refcntr := int32 (sa_refcntr s + 1) |>, l)
  | SUB_REF =>
      let n := int32 (sa_refcntr s - 1) in Some (n, s <| sa_refcntr := n |>, l)
  | Ignore sig =>
      match c with
      | Fine => Some (false, s <| saved := set_sig (saved s) sig (of_sig (dispositions s) sig) |>
                               <| dispositions := set_sig (dispositions s) sig ignoring |>, l)
      | Refuse e => if can_fail then Some (true, s, l <| l_errno := e |>) else None
      end
  | Restore sig =>
      Some (false, s <| dispositions := set_sig (dispositions s) sig (of_sig (saved s) sig) |>, l)
  | Saved sig => Some (of_sig (saved s) sig, s, l)
  | Block_SIGCHLD =>
      match c with
      | Fine => Some (Some (l_mask l), s, l <| l_mask := {[SIGCHLD]} ∪ l_mask l |>)
      | Refuse e => if can_fail then Some (None, s, l <| l_errno := e |>) else None
      end
  | Set_mask mask => Some (false, s, l <| l_mask := mask |>)
  | Posix_spawn mask reset argv =>
      match c with
      | Fine =>
          let sh := mkShell argv (reset_on reset (both_after_exec (dispositions s))) mask in
          Some (inr (next_pid s), new_shell sh s, l <| l_started := Some (next_pid s, sh) |>)
      | Refuse e => Some (inl e, s, l)
      end
  | Fork_shell mask argv =>
      match c with
      | Fine =>
          let sh := mkShell argv (both_after_exec (saved s)) mask in
          Some (Some (next_pid s), new_shell sh s, l <| l_started := Some (next_pid s, sh) |>)
      | Refuse e => Some (None, s, l <| l_errno := e |>)
      end
  | Waitpid pid =>
      match c, snd <$> shells s !! pid with
      | Fine, Some (Ended status) =>
          Some (Some status, set_fate pid (Reaped status) s, l <| l_waited := Some status |>)
      | Fine, Some Runs => None
      | Fine, _ => Some (None, s, l)                       (* ECHILD *)
      | Refuse e, _ => if e =? EINTR then None else Some (None, s, l <| l_errno := e |>)
      end
  | Kill pid =>
      Some ((), match snd <$> shells s !! pid with
                | Some Runs => set_fate pid (Ended SIGKILL) s
                | _ => s
                end, l <| l_killed := true |>)
  | Cleanup pid => Some ((), s, l <| l_cleanup := pid |>)
  | Errno => Some (l_errno l, s, l)
  | Set_errno e => Some ((), s, l <| l_errno := e |>)
  end.

Record thread := mkThread { t_prog : prog Z; t_local : local }.
Record machine := mkMachine { m_shared : shared; m_threads : list thread }.

(** A thread goes on; [waitpid] is interrupted, and called again; a thread that waits
    in its cleanup region is cancelled; a shell ends. *)
Inductive action :=
  | Run (t : nat) (c : choice) | Interrupt (t : nat) | Cancel (t : nat) | Ends (pid status : Z).

Definition waits (p : prog Z) : bool :=
  match p with Act (Waitpid _) _ => true | _ => false end.

Definition step (a : action) (m : machine) : option machine :=
  let 'mkMachine s ths := m in
  match a with
  | Run t c =>
      th ← ths !! t;
      match t_prog th with
      | Ret _ => None
      | Act o k => '(b, s, l) ← exec o t c s (t_local th); Some (mkMachine s (<[t := mkThread (k b) l]> ths))
      end
  | Interrupt t =>
      th ← ths !! t;
      if waits (t_prog th)
      then Some (mkMachine s (<[t := mkThread (t_prog th) ((t_local th) <| l_errno := EINTR |>)]> ths))
      else None
  | Cancel t =>
      th ← ths !! t;
      pid ← l_cleanup (t_local th);
      if waits (t_prog th)
      then Some (mkMachine s (<[t := mkThread (cancel_handler pid;; mret (-1))
             ((t_local th) <| l_cleanup := None |> <| l_cancelled := true |>)]> ths))
      else None
  | Ends pid status =>
      match shells s !! pid with
      | Some (_, Runs) => Some (mkMachine (set_fate pid (Ended status) s) ths)
      | _ => None
      end
  end.

Definition steps (acts : list action) (m : machine) : option machine :=
  foldl (λ m a, m ← m; step a m) (Some m) acts.
Definition reaches : machine → machine → Prop := rtc (λ m m', ∃ a, step a m = Some m').
End Machine.

(** * Roles *)

Inductive role :=
  | Out                                      (* not in [system], or at its ends *)
  | Inside                                   (* counted, without the lock *)
  | Held (counted : bool)                    (* with the lock, among others *)
  | Own (counted : bool) (ign : both bool).  (* with the lock, the first or the last: the
                                                signals it has ignored and saved *)
Definition critical (r : role) : bool := match r with Held _ | Own _ _ => true | _ => false end.
Definition count (r : role) : Z :=
  match r with Inside | Held true | Own true _ => 1 | _ => 0 end.
Definition total (roles : list role) : Z := sumZ count roles.

Section Rules.
Context (can_fail : bool) (orig : both sigaction).

(** What an operation needs of the role, and what it leaves. *)
Definition rule {B} (o : op B) (r : role) (l : local) (K : B → role → local → Prop) : Prop :=
  match o in op B return (B → role → local → Prop) → Prop with
  | DO_LOCK => λ K, match r with
                    | Out => K () (Held false) l
                    | Inside => K () (Held true) l
                    | _ => False
                    end
  | DO_UNLOCK => λ K, match r with
                      | Held false => K () Out l
                      | Held true => K () Inside l
                      | Own c i => i = all c ∧ K () (if c then Inside else Out) l
                      | _ => False
                      end
  | ADD_REF => λ K, r = Held false ∧ K 0 (Own true (all false)) l ∧ ∀ n, 0 < n → K n (Held true) l
  | SUB_REF => λ K, match r with
                    | Held true => K 0 (Own false (all true)) l ∧ ∀ n, 0 < n → K n (Held false) l
                    | Own true i => K 0 (Own false i) l
                    | _ => False
                    end
  | Ignore sig => λ K,
      match r with
      | Own true i => of_sig i sig = false ∧ K false (Own true (set_sig i sig true)) l ∧
          (can_fail = true → ∀ e, K true r (l <| l_errno := e |>))
      | _ => False
      end
  | Restore sig => λ K,
      match r with
      | Own c i => of_sig i sig = true ∧ K false (Own c (set_sig i sig false)) l
      | _ => False
      end
  | Saved sig => λ K, r = Inside ∧ K (of_sig orig sig) r l
  | Block_SIGCHLD => λ K, K (Some (l_mask l)) r (l <| l_mask := {[SIGCHLD]} ∪ l_mask l |>) ∧
      (can_fail = true → ∀ e, K None r (l <| l_errno := e |>))
  | Set_mask mask => λ K, K false r (l <| l_mask := mask |>)
  | Posix_spawn mask reset argv => λ K, r = Inside ∧ l_started l = None ∧
      (∀ pid, K (inr pid) r (l <| l_started :=
         Some (pid, mkShell argv (reset_on reset (all SIG_IGN)) mask) |>)) ∧
      ∀ e, K (inl e) r l
  | Fork_shell mask argv => λ K, r = Inside ∧ l_started l = None ∧
      (∀ pid, K (Some pid) r (l <| l_started := Some (pid, mkShell argv (both_after_exec orig) mask) |>)) ∧
      ∀ e, K None r (l <| l_errno := e |>)
  | Waitpid pid => λ K, r = Inside ∧ (∃ sh, l_started l = Some (pid, sh)) ∧
      (∀ e st, K (Some st) r (l <| l_errno := e |> <| l_waited := Some st |>)) ∧
      ∀ e, K None r (l <| l_errno := e |>)
  | Kill pid => λ K, (∃ sh, l_started l = Some (pid, sh)) ∧ K () r (l <| l_killed := true |>)
  | Cleanup pid => λ K, (∀ p, pid = Some p → ∃ sh, l_started l = Some (p, sh)) ∧
      K () r (l <| l_cleanup := pid |>)
  | Errno => λ K, K (l_errno l) r l
  | Set_errno e => λ K, K () r (l <| l_errno := e |>)
  end K.

Fixpoint safe {A} (Post : role → local → A → Prop) (p : prog A) (r : role) (l : local) : Prop :=
  match p with
  | Ret a => Post r l a
  | Act o k => rule o r l (λ b r l, safe Post (k b) r l)
  end.

(** ** The functions keep the rules *)

(** The shell that [system] promises: it has the caller's mask, and ignores a signal
    exactly when the caller did. *)
Definition promised (line : string) (mask : gset Z) : shell :=
  mkShell ["sh"; "-c"; line]%string (both_after_exec orig) mask.

(** The line, and what is answered for a status. *)
Definition line_of (line : option string) : string := default "exit 0"%string line.
Definition answer_of (line : option string) (status : Z) : Z :=
  match line with Some _ => status | None => if status =? 0 then 1 else 0 end.

(** How a call ends: with the status of the promised shell, or -1; a cancelled one has
    killed its shell.  [strict] says that the mask is restored. *)
Definition ends (strict : bool) (line : option string) (mask : gset Z) (r : role) (l : local)
    (answer : Z) : Prop :=
  r = Out ∧ l_cleanup l = None ∧
  if l_cancelled l then l_killed l = true ∧ is_Some (l_started l)
  else
    match l_started l with
    | None => answer = answer_of line (-1)
    | Some (_, sh) => sh = promised (line_of line) mask ∧
        answer = answer_of line (default (-1) (l_waited l))
    end ∧ (l_mask l = mask ∨ strict = false ∧ l_mask l = {[SIGCHLD]} ∪ mask).

Definition fresh_local (mask : gset Z) (e : Z) : local := mkLocal mask e None false None false None.

Ltac run :=
  repeat (cbn; try match goal with
    | H1 : ?b = false, H2 : ?b = true |- _ => congruence
    | |- _ ∧ _ => split
    | |- ∀ _, _ => intros ?
    | |- context [if ?n =? 0 then _ else _] => destruct (Z.eqb_spec n 0); [lia|]
    | |- context [when_p (?n =? 0) _] => destruct (Z.eqb_spec n 0); [lia|]
    end).

Lemma reset_promised :
  reset_on ((if decide (sa_handler (on_int orig) = SIG_IGN) then [] else [SIGINT]) ++
            (if decide (sa_handler (on_quit orig) = SIG_IGN) then [] else [SIGQUIT])) (all SIG_IGN) =
  both_after_exec orig.
Proof.
  unfold reset_on, both_after_exec. f_equal; repeat case_decide; set_unfold;
    destruct (sa_handler (on_int orig)), (sa_handler (on_quit orig)); cbn in *; naive_solver.
Qed.

(** At the ends of the code. *)
Ltac settle :=
  match goal with
  | |- ∃ _, _ => naive_solver
  | |- ends _ _ _ _ _ _ =>
      unfold ends, promised; rs; cbn; rewrite ?reset_promised; tauto
  | _ => done
  end.

Lemma rule_mono {B} (o : op B) r l (K K' : B → role → local → Prop) :
  (∀ b r l, K b r l → K' b r l) → rule o r l K → rule o r l K'.
Proof. intros H. destruct o; cbn; try naive_solver; destruct r as [| |[]|[]]; naive_solver. Qed.

Lemma system_safe_bind {A B} (Post : role → local → A → Prop) (Post' : role → local → B → Prop)
    (p : prog A) (f : A → prog B) r l :
  safe Post p r l → (∀ r l a, Post r l a → safe Post' (f a) r l) → safe Post' (p ≫= f) r l.
Proof.
  intros Hp Hf. revert r l Hp. induction p as [a|C o k IH]; intros r l; cbn; [apply Hf|].
  apply rule_mono. intros b r' l'. apply IH.
Qed.

Lemma do_system_safe line mask e : can_fail = false →
  safe (ends false (Some line) mask) (do_system line) Out (fresh_local mask e).
Proof. intros Hf. unfold do_system. run; settle. Qed.

Lemma do_system_2_27_safe line mask e :
  safe (ends true (Some line) mask) (do_system_2_27 line) Out (fresh_local mask e).
Proof. unfold do_system_2_27, ignore_signals. run; settle. Qed.

Lemma libc_system_safe strict system line mask e :
  (∀ line, safe (ends strict (Some line) mask) (system line) Out (fresh_local mask e)) →
  safe (ends strict line mask) (libc_system system line) Out (fresh_local mask e).
Proof.
  intros H. destruct line as [line|]; [apply H|]. cbn [libc_system].
  eapply system_safe_bind; [apply H|]. intros r l st (Hr & Hc & Hl). split_and!; [done|done|].
  destruct (l_cancelled l); [done|]. destruct (l_started l) as [[pid sh]|]; naive_solver.
Qed.

(** After a cancellation. *)
Lemma cancel_safe strict line mask pid sh l :
  l_cancelled l = true → l_cleanup l = None → l_started l = Some (pid, sh) →
  safe (ends strict line mask) (cancel_handler pid;; mret (-1)) Inside l.
Proof.
  destruct l. cbn. intros -> -> ->. unfold cancel_handler. run; try done; try (by eexists);
    unfold ends; cbn; eauto.
Qed.
End Rules.

(** * The machine keeps the rules *)

(** ** What is shared, for the roles *)

Section Consistent.
Context (orig : both sigaction).

(** The signals in [ign] are ignored and what they did is saved; the others do what
    they did. *)
Definition disposed (ign : both bool) (s : shared) : Prop :=
  ∀ sig, if of_sig ign sig
         then of_sig (dispositions s) sig = ignoring ∧ of_sig (saved s) sig = of_sig orig sig
         else of_sig (dispositions s) sig = of_sig orig sig.

Definition disposed_for (r : role) (s : shared) : Prop :=
  match r with
  | Own c i => sa_refcntr s = (if c then 1 else 0) ∧ disposed i s
  | _ => disposed (all (bool_decide (0 < sa_refcntr s))) s
  end.

Record consistent (s : shared) (roles : list role) : Prop := {
  co_lock t : lock s = Some t ↔ ∃ r, roles !! t = Some r ∧ critical r = true;
  co_count : sa_refcntr s = total roles;
  co_own t c i : roles !! t = Some (Own c i) → disposed_for (Own c i) s;
  co_rest : (∀ t c i, roles !! t ≠ Some (Own c i)) → disposed_for Out s;
}.

Lemma count_range r : 0 ≤ count r ≤ 1.
Proof. destruct r as [| |[]|[]]; cbn; lia. Qed.

Lemma total_range roles : 0 ≤ total roles ≤ Z.of_nat (length roles).
Proof.
  unfold total. split; [apply sumZ_nonneg; intros r; apply count_range|].
  induction roles as [|r roles IH]; [done|]. pose proof (count_range r).
  change (count r + sumZ count roles ≤ Z.of_nat (S (length roles))). lia.
Qed.

Lemma total_insert roles t r r' :
  roles !! t = Some r → total (<[t:=r']> roles) = total roles - count r + count r'.
Proof. apply sumZ_insert. Qed.

Lemma total_member roles t r : roles !! t = Some r → count r ≤ total roles.
Proof.
  intros H. pose proof (total_insert roles t r Out H). pose proof (total_range (<[t:=Out]> roles)).
  cbn [count] in *. lia.
Qed.

(** Two members. *)
Lemma total_two roles t t' r r' :
  roles !! t = Some r → roles !! t' = Some r' → t ≠ t' → count r + count r' ≤ total roles.
Proof.
  intros H H' Hne. pose proof (total_insert roles t r Out H).
  assert (Hm : <[t:=Out]> roles !! t' = Some r') by (by rewrite list_lookup_insert_ne).
  pose proof (total_member _ _ _ Hm). cbn [count] in *. lia.
Qed.

(** Nobody else is in a critical section. *)
Lemma alone s roles t r t' r' :
  consistent s roles → roles !! t = Some r → critical r = true ∨ lock s = None →
  roles !! t' = Some r' → t' ≠ t → critical r' = false.
Proof.
  intros Hco Hr Hc Hr' Hne. destruct (critical r') eqn:E; [|done].
  assert (L' : lock s = Some t') by (apply (co_lock _ _ Hco); eauto).
  destruct Hc as [Hc|Hc]; [|congruence].
  assert (L : lock s = Some t) by (apply (co_lock _ _ Hco); eauto). congruence.
Qed.

Lemma consistent_critical s roles t r :
  consistent s roles → roles !! t = Some r → critical r = true ∨ lock s = None →
  disposed_for r s.
Proof.
  intros Hco Hr Hc. destruct r as [| |c|c i] eqn:E; try (by eapply (co_own _ _ Hco)).
  all: apply (co_rest _ _ Hco); intros t' c' i' Ht'.
  all: destruct (decide (t' = t)) as [->|Hne]; [congruence|].
  all: by pose proof (alone _ _ _ _ _ _ Hco Hr Hc Ht' Hne).
Qed.

Lemma consistent_inside s roles t :
  consistent s roles → roles !! t = Some Inside → disposed (all true) s.
Proof.
  intros Hco Hr. assert (Hpos := total_member _ _ _ Hr). cbn [count] in Hpos.
  assert (H : disposed_for Out s).
  { apply (co_rest _ _ Hco). intros t' c i Ht'. pose proof (co_own _ _ Hco _ _ _ Ht') as [Hn _].
    rewrite (co_count _ _ Hco) in Hn. destruct (decide (t' = t)) as [->|Hne]; [congruence|].
    pose proof (total_two _ _ _ _ _ Hr Ht'). destruct c; cbn [count] in *; lia. }
  cbn in H. rewrite (co_count _ _ Hco), bool_decide_true in H by lia. done.
Qed.

(** A thread in, or entering, a critical section changes what is shared. *)
Lemma consistent_update s roles t r r' s' :
  consistent s roles → roles !! t = Some r → critical r = true ∨ lock s = None →
  lock s' = (if critical r' then Some t else None) →
  sa_refcntr s' = sa_refcntr s - count r + count r' → disposed_for r' s' →
  consistent s' (<[t:=r']> roles).
Proof.
  intros Hco Hr Hc Hl Hn Hd. assert (Hlen := lookup_lt_Some _ _ _ Hr).
  assert (Hme : <[t:=r']> roles !! t = Some r') by (by apply list_lookup_insert_eq).
  assert (Hother : ∀ t' r1, t' ≠ t → <[t:=r']> roles !! t' = Some r1 → critical r1 = false).
  { intros t' r1 Hne H1. rewrite list_lookup_insert_ne in H1 by done.
    by eapply (alone _ _ _ _ _ _ Hco Hr Hc). }
  split.
  - intros t'. rewrite Hl. destruct (decide (t' = t)) as [->|Hne].
    + destruct (critical r') eqn:E; split; try done; [eauto|].
      intros (r1 & H1 & E1). congruence.
    + split; [destruct (critical r'); congruence|]. intros (r1 & H1 & E1).
      rewrite (Hother t' r1) in E1 by done. done.
  - rewrite Hn, (co_count _ _ Hco). symmetry. by apply total_insert.
  - intros t' c i H'. destruct (decide (t' = t)) as [->|Hne]; [congruence|].
    by pose proof (Hother _ _ Hne H').
  - intros Hno. destruct r' as [| |c|c i]; [done..|]. by destruct (Hno t c i).
Qed.

(** A step that leaves the lock, the counter and the dispositions alone. *)
Lemma consistent_same s s' roles t r :
  consistent s roles → roles !! t = Some r →
  lock s' = lock s → sa_refcntr s' = sa_refcntr s → dispositions s' = dispositions s →
  saved s' = saved s → consistent s' (<[t:=r]> roles).
Proof.
  intros [Hl Hn Ho Hr] H E1 E2 E3 E4. rewrite list_insert_id by done.
  assert (Hd : ∀ i, disposed i s → disposed i s').
  { intros i Hi sig. specialize (Hi sig). by rewrite E3, E4. }
  split; [by rewrite E1|by rewrite E2| |].
  - intros t' c i H'. destruct (Ho t' c i H'). split; [by rewrite E2|auto].
  - intros Hno. specialize (Hr Hno). cbn in Hr |- *. rewrite E2. auto.
Qed.

Lemma disposed_set i sig (b : bool) s s' :
  disposed i s →
  (∀ sig', sig' ≠ sig → of_sig (dispositions s') sig' = of_sig (dispositions s) sig' ∧
     of_sig (saved s') sig' = of_sig (saved s) sig') →
  (if b then of_sig (dispositions s') sig = ignoring ∧ of_sig (saved s') sig = of_sig orig sig
   else of_sig (dispositions s') sig = of_sig orig sig) →
  disposed (set_sig i sig b) s'.
Proof.
  intros Hi Hother Hsig sig'. destruct (decide (sig' = sig)) as [->|Hne].
  - by destruct sig.
  - destruct (Hother sig' Hne) as [-> ->]. specialize (Hi sig'). by destruct sig, sig'.
Qed.
End Consistent.

(** ** One operation *)

Section Exec.
Context (can_fail : bool) (orig : both sigaction).

Lemma int32_small x : -2147483648 ≤ x < 2147483648 → int32 x = x.
Proof. intros H. unfold int32. rewrite Z.mod_small by lia. lia. Qed.

Lemma consistent_ignore s roles t i sig :
  let s' := s <| saved := set_sig (saved s) sig (of_sig (dispositions s) sig) |>
              <| dispositions := set_sig (dispositions s) sig ignoring |> in
  consistent orig s roles → roles !! t = Some (Own true i) → of_sig i sig = false →
  consistent orig s' (<[t:=Own true (set_sig i sig true)]> roles).
Proof.
  intros s' Hco Hr Hi. destruct (co_own _ _ _ Hco _ _ _ Hr) as [Hn Hd].
  assert (Hl : lock s = Some t) by (apply (co_lock _ _ _ Hco); eauto).
  eapply (consistent_update orig s); try done; [by left|unfold s'; rs; cbn; lia|]. split; [done|].
  eapply disposed_set; [done| |].
  - intros sig' Hne. unfold s'. rs. by destruct sig, sig'.
  - specialize (Hd sig). rewrite Hi in Hd. unfold s'. rs. by destruct sig.
Qed.

Lemma consistent_restore s roles t c i sig :
  let s' := s <| dispositions := set_sig (dispositions s) sig (of_sig (saved s) sig) |> in
  consistent orig s roles → roles !! t = Some (Own c i) → of_sig i sig = true →
  consistent orig s' (<[t:=Own c (set_sig i sig false)]> roles).
Proof.
  intros s' Hco Hr Hi. destruct (co_own _ _ _ Hco _ _ _ Hr) as [Hn Hd].
  assert (Hl : lock s = Some t) by (apply (co_lock _ _ _ Hco); eauto).
  eapply (consistent_update orig s); try done; [by left|unfold s'; rs; destruct c; cbn; lia|]. split; [done|].
  eapply disposed_set; [done| |].
  - intros sig' Hne. unfold s'. rs. by destruct sig, sig'.
  - specialize (Hd sig). rewrite Hi in Hd. unfold s'. rs. destruct sig; apply Hd.
Qed.

(** The counter of references is exact: there are fewer threads than an [int] counts. *)
Lemma counted_exact s roles :
  consistent orig s roles → Z.of_nat (length roles) < 2147483647 →
  0 ≤ sa_refcntr s < 2147483647.
Proof. intros Hco Hlen. rewrite (co_count _ _ _ Hco). pose proof (total_range roles). lia. Qed.

Lemma consistent_add s roles t (K : Z → role → local → Prop) l :
  let n := sa_refcntr s in
  consistent orig s roles → Z.of_nat (length roles) < 2147483647 → roles !! t = Some (Held false) →
  K 0 (Own true (all false)) l ∧ (∀ n, 0 < n → K n (Held true) l) →
  ∃ r', K n r' l ∧ consistent orig (s <| sa_refcntr := int32 (n + 1) |>) (<[t:=r']> roles).
Proof.
  intros n Hco Hlen Hr [K0 K1]. pose proof (counted_exact _ _ Hco Hlen) as Hn.
  assert (Hl : lock s = Some t) by (apply (co_lock _ _ _ Hco); eauto).
  pose proof (consistent_critical _ _ _ _ _ Hco Hr (or_introl eq_refl)) as Hd. cbn in Hd.
  unfold n. rewrite int32_small by lia. destruct (decide (sa_refcntr s = 0)) as [E|E].
  - exists (Own true (all false)). rewrite E in *. split; [done|].
    eapply (consistent_update orig s); try done; [by left|rs; cbn; lia].
  - exists (Held true). split; [apply K1; lia|].
    eapply (consistent_update orig s); try done; [by left|rs; cbn; lia|]. cbn. rs.
    rewrite bool_decide_true in * by lia. done.
Qed.

Lemma consistent_sub s roles t r (K : Z → role → local → Prop) l :
  let n := int32 (sa_refcntr s - 1) in
  consistent orig s roles → Z.of_nat (length roles) < 2147483647 → roles !! t = Some r →
  rule can_fail orig SUB_REF r l K →
  ∃ r', K n r' l ∧ consistent orig (s <| sa_refcntr := n |>) (<[t:=r']> roles).
Proof.
  intros n Hco Hlen Hr HK. pose proof (counted_exact _ _ Hco Hlen) as Hn.
  assert (Hc : critical r = true) by (destruct r; cbn in HK; done).
  assert (Hl : lock s = Some t) by (apply (co_lock _ _ _ Hco); eauto).
  pose proof (consistent_critical _ _ _ _ _ Hco Hr (or_introl Hc)) as Hd.
  pose proof (total_member _ _ _ Hr) as Hm. rewrite <- (co_count _ _ _ Hco) in Hm.
  unfold n. rewrite int32_small by lia. destruct r as [| |[]|[] i]; cbn in HK, Hd, Hm; try done.
  - rewrite bool_decide_true in Hd by lia. destruct HK as [K0 K1].
    destruct (decide (sa_refcntr s = 1)) as [E|E].
    + exists (Own false (all true)). rewrite E in *. split; [done|].
      eapply (consistent_update orig s); try done; [by left|rs; cbn; lia].
    + exists (Held false). split; [apply K1; lia|].
      eapply (consistent_update orig s); try done; [by left|rs; cbn; lia|]. cbn. rs.
      rewrite bool_decide_true by lia. done.
  - destruct Hd as [E Hd]. exists (Own false i). rewrite E in *. split; [done|].
    eapply (consistent_update orig s); try done; [by left|rs; cbn; lia].
Qed.

Lemma consistent_take s roles t r (K : () → role → local → Prop) l :
  consistent orig s roles → roles !! t = Some r → lock s = None → rule can_fail orig DO_LOCK r l K →
  ∃ r', K () r' l ∧ consistent orig (s <| lock := Some t |>) (<[t:=r']> roles).
Proof.
  intros Hco Hr Hl HK. pose proof (consistent_critical _ _ _ _ _ Hco Hr (or_intror Hl)) as Hd.
  destruct r as [| | |]; cbn in HK; try done; eexists; (split; [done|]);
    (eapply (consistent_update orig s); try done; [by right|rs; cbn; lia]).
Qed.

Lemma consistent_release s roles t r (K : () → role → local → Prop) l :
  consistent orig s roles → roles !! t = Some r → rule can_fail orig DO_UNLOCK r l K →
  ∃ r', K () r' l ∧ consistent orig (s <| lock := None |>) (<[t:=r']> roles).
Proof.
  intros Hco Hr HK. assert (Hc : critical r = true) by (destruct r; cbn in HK; done).
  pose proof (consistent_critical _ _ _ _ _ Hco Hr (or_introl Hc)) as Hd.
  destruct r as [| |[]|c i]; cbn in HK; try done.
  1,2: eexists; (split; [done|]); (eapply (consistent_update orig s); try done; [by left|rs; cbn; lia]).
  destruct HK as [-> HK], Hd as [E Hd]. eexists. split; [done|].
  eapply (consistent_update orig s); try done; [by left|by destruct c|rs; destruct c; cbn; lia|].
  destruct c; cbn; rs; rewrite E; done.
Qed.

Lemma exec_safe {B} (o : op B) t c s l roles r b s' l' (K : B → role → local → Prop) :
  consistent orig s roles → Z.of_nat (length roles) < 2147483647 → roles !! t = Some r →
  rule can_fail orig o r l K → exec can_fail o t c s l = Some (b, s', l') →
  ∃ r', K b r' l' ∧ consistent orig s' (<[t:=r']> roles).
Proof.
  intros Hco Hlen Hr HK He.
  assert (Hsame : ∀ s1, lock s1 = lock s → sa_refcntr s1 = sa_refcntr s →
    dispositions s1 = dispositions s → saved s1 = saved s → consistent orig s1 (<[t:=r]> roles)).
  { intros. by eapply consistent_same. }
  assert (Hfate : ∀ pid f, consistent orig (set_fate pid f s) (<[t:=r]> roles)).
  { intros pid f. unfold set_fate. destruct (shells s !! pid) as [[sh f']|]; by apply Hsame. }
  destruct o; cbn in He.
  - destruct (lock s) eqn:El; [done|]. simplify_eq. by eapply consistent_take.
  - simplify_eq. by eapply consistent_release.
  - simplify_eq. destruct HK as [-> HK]. by apply consistent_add.
  - simplify_eq. by eapply consistent_sub.
  - destruct r as [| | |[] i]; try done. destruct HK as (Hi & K1 & K2). destruct c as [|e].
    + simplify_eq. eexists. split; [done|]. by apply consistent_ignore.
    + destruct can_fail; [|done]. simplify_eq. eexists. split; [by apply K2|by apply Hsame].
  - destruct r as [| | |c' i]; try done. destruct HK as (Hi & HK). simplify_eq.
    eexists. split; [done|]. by apply consistent_restore.
  - destruct HK as [-> HK]. simplify_eq. exists Inside. split; [|by apply Hsame].
    pose proof (consistent_inside _ _ _ _ Hco Hr sig) as Hd. destruct sig; cbn in *; by destruct Hd as [_ ->].
  - destruct HK as [K1 K2]. destruct c as [|e].
    + simplify_eq. eauto.
    + destruct can_fail; [|done]. simplify_eq. eauto.
  - simplify_eq. eauto.
  - destruct HK as (-> & _ & K1 & K2). destruct c as [|e]; simplify_eq; [|eauto].
    exists Inside. split; [|by apply Hsame].
    assert (E : both_after_exec (dispositions s) = all SIG_IGN).
    { pose proof (consistent_inside _ _ _ _ Hco Hr) as Hd. unfold both_after_exec.
      destruct (Hd SIGINT) as [E1 _], (Hd SIGQUIT) as [E2 _]. cbn in E1, E2. by rewrite E1, E2. }
    rewrite E. apply K1.
  - destruct HK as (-> & _ & K1 & K2). destruct c as [|e]; simplify_eq; [|eauto].
    exists Inside. split; [|by apply Hsame].
    assert (E : both_after_exec (saved s) = both_after_exec orig).
    { pose proof (consistent_inside _ _ _ _ Hco Hr) as Hd. unfold both_after_exec.
      destruct (Hd SIGINT) as [_ E1], (Hd SIGQUIT) as [_ E2]. cbn in E1, E2. by rewrite E1, E2. }
    rewrite E. apply K1.
  - destruct HK as (-> & _ & K1 & K2).
    specialize (K1 (l_errno l)). pose proof (K2 (l_errno l)) as K3.
    assert (El : l <| l_errno := l_errno l |> = l) by (by destruct l). rewrite El in *.
    destruct c as [|e].
    + destruct (snd <$> shells s !! pid) as [[|st|st]|]; simplify_eq; eauto.
    + destruct (e =? EINTR); simplify_eq; eauto.
  - destruct HK as (_ & HK). simplify_eq. exists r. split; [done|].
    destruct (snd <$> shells s !! pid) as [[]|]; eauto.
  - destruct HK as (_ & HK). simplify_eq. eauto.
  - simplify_eq. eauto.
  - simplify_eq. eauto.
Qed.
End Exec.

(** ** Shells *)

(** Shells stay, and a shell that has ended or was waited for stays so. *)
Definition grows (s s' : shared) : Prop :=
  ∀ pid sh f, shells s !! pid = Some (sh, f) →
    ∃ f', shells s' !! pid = Some (sh, f') ∧ (f ≠ Runs → f' ≠ Runs) ∧ (∀ st, f = Reaped st → f' = f).
#[export] Instance grows_preorder : PreOrder grows.
Proof.
  split; [intros s pid sh f H; by exists f|].
  intros s1 s2 s3 H12 H23 pid sh f H. destruct (H12 _ _ _ H) as (f2 & H2 & N2 & R2).
  destruct (H23 _ _ _ H2) as (f3 & H3 & N3 & R3). exists f3. split_and!; [done|auto|].
  intros st ->. rewrite (R3 st); by apply (R2 st).
Qed.

Definition below (s : shared) : Prop := ∀ pid v, shells s !! pid = Some v → pid < next_pid s.

(** What a thread knows of its shell. *)
Record local_ok (s : shared) (l : local) : Prop := {
  lo_started : match l_started l with
               | Some (pid, sh) => ∃ f, shells s !! pid = Some (sh, f) ∧ (l_killed l = true → f ≠ Runs) ∧
                   (∀ st, l_waited l = Some st → f = Reaped st)
               | None => l_killed l = false ∧ l_waited l = None
               end;
  lo_cleanup pid : l_cleanup l = Some pid → ∃ sh, l_started l = Some (pid, sh);
}.

Lemma local_ok_grows s s' l : grows s s' → local_ok s l → local_ok s' l.
Proof.
  intros Hg [Hs Hc]. split; [|done]. destruct (l_started l) as [[pid sh]|]; [|done].
  destruct Hs as (f & Hf & Hk & Hw). destruct (Hg _ _ _ Hf) as (f' & Hf' & N & R).
  exists f'. split_and!; [done|auto|]. intros st Hst. specialize (Hw st Hst) as ->. by rewrite (R st).
Qed.

Lemma set_fate_grows pid f s :
  (f = Runs → False) →
  (∀ sh st, shells s !! pid = Some (sh, Reaped st) → f = Reaped st) → grows s (set_fate pid f s).
Proof.
  intros Hf Hr pid' sh f' H'. unfold set_fate. destruct (shells s !! pid) as [[sh1 f1]|] eqn:E; [|by exists f'].
  rs. destruct (decide (pid' = pid)) as [->|Hne].
  - rewrite lookup_insert_eq. rewrite E in H'. simplify_eq. exists f. split_and!; [done|by intros _ ?|].
    intros st ->. by eapply Hr.
  - rewrite lookup_insert_ne by done. by exists f'.
Qed.

Lemma set_fate_below pid f s : below s → below (set_fate pid f s).
Proof.
  intros H pid' v. unfold set_fate. destruct (shells s !! pid) as [[sh f']|] eqn:E; [|apply H].
  rs. rewrite lookup_insert_Some. intros [[<- _]|[_ Hv]]; eapply H; eassumption.
Qed.

Lemma set_fate_lookup pid f s sh f' :
  shells s !! pid = Some (sh, f') → shells (set_fate pid f s) !! pid = Some (sh, f).
Proof. intros E. unfold set_fate. rewrite E. rs. by rewrite lookup_insert_eq. Qed.

Lemma new_shell_ok sh s l :
  below s → l_started l = None → local_ok s l →
  below (new_shell sh s) ∧ grows s (new_shell sh s) ∧
  local_ok (new_shell sh s) (l <| l_started := Some (next_pid s, sh) |>).
Proof.
  intros Hb Hl [Hs Hc]. rewrite Hl in Hs. destruct Hs as [Hk Hw].
  assert (Hfresh : shells s !! next_pid s = None).
  { destruct (shells s !! next_pid s) eqn:E; [|done]. specialize (Hb _ _ E). lia. }
  unfold new_shell. split_and!.
  - intros pid v. rs. rewrite lookup_insert_Some. intros [[<- _]|[_ Hv]]; [lia|]. specialize (Hb _ _ Hv). lia.
  - intros pid sh' f H. rs. exists f. rewrite lookup_insert_ne by congruence. done.
  - split; rs.
    + exists Runs. rewrite lookup_insert_eq, Hk, Hw. done.
    + intros pid Hp. destruct (Hc pid Hp) as [sh' E]. congruence.
Qed.

Lemma quiet_local s s' l l' :
  below s → local_ok s l → shells s' = shells s → next_pid s' = next_pid s →
  l_started l' = l_started l → l_killed l' = l_killed l → l_waited l' = l_waited l →
  l_cleanup l' = l_cleanup l → below s' ∧ grows s s' ∧ local_ok s' l'.
Proof.
  intros Hb [Hs Hc] E1 E2 E3 E4 E5 E6. split_and!.
  - intros pid v. rewrite E1, E2. apply Hb.
  - intros pid sh f. rewrite E1. by exists f.
  - split; [by rewrite E3, E4, E5, E1|by rewrite E6, E3].
Qed.

Lemma exec_local {B} can_fail orig (o : op B) t c s l r b s' l' K :
  below s → local_ok s l → rule can_fail orig o r l K → exec can_fail o t c s l = Some (b, s', l') →
  below s' ∧ grows s s' ∧ local_ok s' l'.
Proof.
  intros Hb Hl HK He. destruct o; cbn in He;
    try (repeat case_match; simplify_eq; by eapply quiet_local);
    pose proof Hl as [Hs Hc]; assert (Hg0 : grows s s) by reflexivity.
  - destruct HK as (_ & Hn & _). destruct c; simplify_eq; [|done]. by apply new_shell_ok.
  - destruct HK as (_ & Hn & _). destruct c; simplify_eq; [by apply new_shell_ok|].
    split_and!; [done..|]. split; [exact Hs|exact Hc].
  - destruct HK as (_ & [sh Hst] & _). rewrite Hst in Hs. destruct Hs as (f & Hf & Hk & Hw).
    rewrite Hf in He. cbn in He. destruct c as [|e].
    + destruct f as [|st|st]; simplify_eq; [|done]. split_and!; [by apply set_fate_below| |].
      * apply set_fate_grows; [done|]. intros sh' st'. congruence.
      * split; rs; rewrite Hst; [|intros p Hp; rewrite <- Hst; by apply Hc].
        exists (Reaped st). split_and!; [by eapply set_fate_lookup|done|congruence].
    + destruct (e =? EINTR); [done|]. simplify_eq. split_and!; [done..|].
      split; rs; rewrite Hst; [by exists f|intros p Hp; rewrite <- Hst; by apply Hc].
  - destruct HK as ([sh Hst] & _). rewrite Hst in Hs. destruct Hs as (f & Hf & Hk & Hw).
    rewrite Hf in He. cbn in He. destruct f as [|st|st]; simplify_eq.
    + split_and!; [by apply set_fate_below|apply set_fate_grows; [done|congruence]|].
      split; rs; rewrite Hst; [|intros p Hp; rewrite <- Hst; by apply Hc].
      exists (Ended SIGKILL). split_and!; [by eapply set_fate_lookup|done|]. intros st Hw'. by specialize (Hw st Hw').
    + split_and!; [done..|]. split; rs; rewrite Hst; [by exists (Ended st)|intros p Hp; rewrite <- Hst; by apply Hc].
    + split_and!; [done..|]. split; rs; rewrite Hst; [by exists (Reaped st)|intros p Hp; rewrite <- Hst; by apply Hc].
  - destruct HK as (Hp & _). simplify_eq. split_and!; [done..|]. split; [exact Hs|exact Hp].
Qed.

(** * Every run *)

Inductive version := Glibc_2_32 | Glibc_2_27.
Definition system_of (v : version) : string → prog Z :=
  match v with Glibc_2_32 => do_system | Glibc_2_27 => do_system_2_27 end.
(** The new version relies on calls that cannot fail; only the old one always restores
    the mask. *)
Definition checks (v : version) : bool := match v with Glibc_2_32 => false | Glibc_2_27 => true end.

Lemma checks_new v : checks v = false → v = Glibc_2_32.
Proof. by destruct v. Qed.

(** A call of [system]: the line, or a null pointer; the mask and [errno] of the caller. *)
Definition caller : Type := option string * gset Z * Z.
Definition caller_thread (v : version) (c : caller) : thread :=
  let '(line, mask, e) := c in mkThread (libc_system (system_of v) line) (fresh_local mask e).
(** Nobody in [system]; the static [intr] and [quit] hold anything. *)
Definition idle (orig saved : both sigaction) (shells : gmap Z (shell * fate)) (next : Z) : shared :=
  mkShared None 0 orig saved shells next.
Definition machine_of (v : version) (callers : list caller) (s : shared) : machine :=
  mkMachine s (caller_thread v <$> callers).

Lemma both_eq {A} (b b' : both A) : (∀ sig, of_sig b sig = of_sig b' sig) → b = b'.
Proof.
  intros H. pose proof (H SIGINT) as H1. pose proof (H SIGQUIT) as H2. destruct b, b'. cbn in *. by subst.
Qed.

Section Runs.
Context (v : version) (callers : list caller) (orig : both sigaction).
Hypothesis few : Z.of_nat (length callers) < 2147483647.
Let fails := checks v.

(** The thread's part of the invariant. *)
Definition thread_ok (s : shared) (c : caller) (th : thread) (r : role) : Prop :=
  safe fails orig (ends orig (checks v) c.1.1 c.1.2) (t_prog th) r (t_local th) ∧
  local_ok s (t_local th).

Definition invariant (m : machine) : Prop :=
  ∃ roles, consistent orig (m_shared m) roles ∧ below (m_shared m) ∧
    Forall3 (thread_ok (m_shared m)) callers (m_threads m) roles.

Lemma version_safe line mask e :
  safe fails orig (ends orig (checks v) line mask) (libc_system (system_of v) line) Out (fresh_local mask e).
Proof.
  apply libc_system_safe. intros l. destruct v; [by apply do_system_safe|].
  apply do_system_2_27_safe.
Qed.

Lemma invariant_start saved shells next :
  (∀ pid v, shells !! pid = Some v → pid < next) →
  invariant (machine_of v callers (idle orig saved shells next)).
Proof.
  intros Hb. exists (replicate (length callers) Out).
  assert (Hout : ∀ t r, replicate (length callers) Out !! t = Some r → r = Out).
  { intros t r Hr. by apply lookup_replicate in Hr as [-> _]. }
  split_and!; [|exact Hb|].
  - split; cbn [lock sa_refcntr idle m_shared machine_of].
    + intros t. split; [done|]. intros (r & Hr & Hc). by rewrite (Hout _ _ Hr) in Hc.
    + clear. induction callers as [|c l IH]; [done|]. exact IH.
    + intros t c i Hr. by specialize (Hout _ _ Hr).
    + intros _ sig. by destruct sig.
  - cbn [m_threads machine_of]. clear Hout Hb few. induction callers as [|[[line mask] e] l IH]; [constructor|].
    cbn. constructor; [|exact IH]. split; [apply version_safe|]. by split.
Qed.

Lemma thread_ok_grows s s' c th r : grows s s' → thread_ok s c th r → thread_ok s' c th r.
Proof. intros Hg [H1 H2]. split; [done|]. by eapply local_ok_grows. Qed.

Lemma Forall3_lookup_2 {A B C} (P : A → B → C → Prop) l k k' :
  length l = length k → length l = length k' →
  (∀ i x y z, l !! i = Some x → k !! i = Some y → k' !! i = Some z → P x y z) → Forall3 P l k k'.
Proof.
  revert k k'. induction l as [|x l IH]; intros [|y k] [|z k'] H1 H2 H; try done; constructor.
  - by apply (H O).
  - apply IH; [by simplify_eq/=..|]. intros i. apply (H (S i)).
Qed.

(** One thread moves. *)
Lemma invariant_thread s s' ths roles t th' r' :
  grows s s' → below s' → consistent orig s' (<[t:=r']> roles) →
  Forall3 (thread_ok s) callers ths roles →
  (∀ c th r, callers !! t = Some c → ths !! t = Some th → roles !! t = Some r → thread_ok s' c th' r') →
  invariant (mkMachine s' (<[t:=th']> ths)).
Proof.
  intros Hg Hb Hco HF Ht. exists (<[t:=r']> roles). split_and!; [done|done|]. cbn [m_threads m_shared].
  apply Forall3_lookup_2.
  - rewrite length_insert. by eapply Forall3_length_lm.
  - rewrite length_insert. by eapply Forall3_length_lr.
  - intros i c th r Hc Hth Hr.
    destruct (decide (t = i)) as [<-|Hne].
    + assert (Hlt : (t < length ths)%nat) by (eapply lookup_lt_Some in Hth; by rewrite length_insert in Hth).
      assert (Hlr : (t < length roles)%nat) by (eapply lookup_lt_Some in Hr; by rewrite length_insert in Hr).
      rewrite list_lookup_insert_eq in Hth by done. rewrite list_lookup_insert_eq in Hr by done. simplify_eq.
      destruct (lookup_lt_is_Some_2 _ _ Hlt) as [th0 H0], (lookup_lt_is_Some_2 _ _ Hlr) as [r0 H1].
      by eapply Ht.
    + rewrite list_lookup_insert_ne in Hth by done. rewrite list_lookup_insert_ne in Hr by done.
      eapply thread_ok_grows; [done|]. by eapply Forall3_lookup_lmr.
Qed.

Lemma invariant_step a m m' : invariant m → step fails a m = Some m' → invariant m'.
Proof.
  intros (roles & Hco & Hb & HF) Hstep. destruct m as [s ths]. cbn [m_shared m_threads] in *.
  assert (Hroles : Z.of_nat (length roles) < 2147483647).
  { by rewrite <- (Forall3_length_lr _ _ _ _ HF). }
  assert (Hget : ∀ t th, ths !! t = Some th → ∃ c r, callers !! t = Some c ∧ roles !! t = Some r ∧ thread_ok s c th r).
  { intros t th Hth. destruct (Forall3_lookup_m _ _ _ _ _ _ HF Hth) as (c & r & Hc & Hr & H). eauto. }
  destruct a as [t ch|t|t|pid st]; cbn in Hstep.
  - destruct (ths !! t) as [th|] eqn:Hth; [|done]. destruct (Hget _ _ Hth) as (c & r & Hc & Hr & Hsafe & Hl).
    cbn in Hstep. destruct (t_prog th) as [a|B o k] eqn:Ep; [done|]. cbn in Hsafe.
    destruct (exec fails o t ch s (t_local th)) as [[[b s'] l']|] eqn:He; [|done]. cbn in Hstep. simplify_eq.
    destruct (exec_safe _ _ _ _ _ _ _ _ _ _ _ _ _ Hco Hroles Hr Hsafe He) as (r' & Hk & Hco').
    destruct (exec_local _ _ _ _ _ _ _ _ _ _ _ _ Hb Hl Hsafe He) as (Hb' & Hg & Hl').
    eapply (invariant_thread s); [done..|]. intros c' th' r0 Hc' Hth' Hr'. simplify_eq. by split.
  - destruct (ths !! t) as [th|] eqn:Hth; [|done]. destruct (Hget _ _ Hth) as (c & r & Hc & Hr & Hsafe & Hl).
    cbn in Hstep. destruct (waits (t_prog th)) eqn:Ew; [|done]. simplify_eq.
    destruct (t_prog th) as [a|B o k] eqn:Ep; [done|]. destruct o; try done.
    eapply (invariant_thread s _ _ roles t _ r); [done|done| |done|].
    { by rewrite list_insert_id. }
    intros c' th' r0 Hc' Hth' Hr'. simplify_eq. split; [|by destruct Hl]. cbn in Hsafe |- *. naive_solver.
  - destruct (ths !! t) as [th|] eqn:Hth; [|done]. destruct (Hget _ _ Hth) as (c & r & Hc & Hr & Hsafe & Hl).
    cbn in Hstep. destruct (l_cleanup (t_local th)) as [pid|] eqn:Ecl; [|done]. cbn in Hstep.
    destruct (waits (t_prog th)) eqn:Ew; [|done]. simplify_eq.
    destruct (t_prog th) as [a|B o k] eqn:Ep; [done|]. destruct o; try done.
    destruct Hsafe as (-> & _).
    eapply (invariant_thread s _ _ roles t _ Inside); [done|done| |done|].
    { by rewrite list_insert_id. }
    intros c' th' r0 Hc' Hth' Hr'. simplify_eq. destruct Hl as [Hs Hcl].
    destruct (Hcl _ Ecl) as [sh Esh]. split; [|by split].
    by eapply cancel_safe.
  - destruct (shells s !! pid) as [[sh f]|] eqn:E; [|done]. destruct f; try done. simplify_eq.
    exists roles. assert (Hg : grows s (set_fate pid (Ended st) s)) by (apply set_fate_grows; [done|congruence]).
    split_and!; [|by apply set_fate_below|].
    + unfold set_fate. rewrite E. destruct Hco as [Hlk Hn Ho Hrest]. by split.
    + eapply Forall3_impl; [exact HF|]. intros. by eapply thread_ok_grows.
Qed.

Lemma invariant_reaches m m' : reaches fails m m' → invariant m → invariant m'.
Proof. induction 1 as [|m1 m2 m3 [a Ha] _ IH]; [done|]. intros Hi. apply IH. by eapply invariant_step. Qed.

(** ** What follows *)

Definition finished (m : machine) : Prop := ∀ t th, m_threads m !! t = Some th → ∃ a, t_prog th = Ret a.

Lemma invariant_get m t th :
  invariant m → m_threads m !! t = Some th →
  ∃ roles c r, consistent orig (m_shared m) roles ∧ length roles = length (m_threads m) ∧
    callers !! t = Some c ∧ roles !! t = Some r ∧ thread_ok (m_shared m) c th r.
Proof.
  intros (roles & Hco & _ & HF) Hth. destruct (Forall3_lookup_m _ _ _ _ _ _ HF Hth) as (c & r & Hc & Hr & H).
  exists roles, c, r. split_and!; try done.
  by rewrite <- (Forall3_length_lr _ _ _ _ HF), <- (Forall3_length_lm _ _ _ _ HF).
Qed.

Lemma signals_restored m :
  invariant m → finished m →
  dispositions (m_shared m) = orig ∧ sa_refcntr (m_shared m) = 0 ∧ lock (m_shared m) = None.
Proof.
  intros (roles & Hco & _ & HF) Hfin.
  assert (Hout : ∀ t r, roles !! t = Some r → r = Out).
  { intros t r Hr. destruct (Forall3_lookup_r _ _ _ _ _ _ HF Hr) as (c & th & _ & Hth & Hsafe & _).
    destruct (Hfin _ _ Hth) as [a Ea]. rewrite Ea in Hsafe. by destruct Hsafe. }
  assert (Hn : total roles = 0).
  { clear -Hout. induction roles as [|r roles IH]; [done|]. rewrite (Hout O r eq_refl). cbn.
    apply IH. intros t. apply (Hout (S t)). }
  assert (Hl : lock (m_shared m) = None).
  { destruct (lock (m_shared m)) as [t|] eqn:E; [|done].
    apply (co_lock _ _ _ Hco) in E as (r & Hr & Hc). by rewrite (Hout _ _ Hr) in Hc. }
  pose proof (co_count _ _ _ Hco) as Hc. rewrite Hn in Hc. split_and!; [|done|done].
  assert (Hd : disposed_for orig Out (m_shared m)).
  { apply (co_rest _ _ _ Hco). intros t c i Hr. by specialize (Hout _ _ Hr). }
  cbn in Hd. rewrite Hc in Hd. apply both_eq. intros sig. specialize (Hd sig). by destruct sig.
Qed.

Lemma signals_ignored m t th :
  invariant m → m_threads m !! t = Some th → waits (t_prog th) = true →
  dispositions (m_shared m) = all ignoring.
Proof.
  intros Hi Hth Hw. destruct (invariant_get _ _ _ Hi Hth) as (roles & c & r & Hco & _ & _ & Hr & Hsafe & _).
  destruct (t_prog th) as [|B o k]; [done|]. destruct o; try done. destruct Hsafe as (-> & _).
  pose proof (consistent_inside _ _ _ _ Hco Hr) as Hd.
  apply both_eq. intros []; [exact (proj1 (Hd SIGINT))|exact (proj1 (Hd SIGQUIT))].
Qed.

(** What a thread that is done answers. *)
Definition answers (m : machine) (c : caller) (l : local) (a : Z) : Prop :=
  let '(line, mask, _) := c in
  if l_cancelled l then
    ∃ pid sh f, l_started l = Some (pid, sh) ∧ shells (m_shared m) !! pid = Some (sh, f) ∧ f ≠ Runs
  else
    (l_mask l = mask ∨ v = Glibc_2_32 ∧ l_mask l = {[SIGCHLD]} ∪ mask) ∧
    (a = answer_of line (-1) ∨
     ∃ pid st, l_started l = Some (pid, promised orig (line_of line) mask) ∧
       shells (m_shared m) !! pid = Some (promised orig (line_of line) mask, Reaped st) ∧
       a = answer_of line st).

Lemma invariant_answers m t l a c :
  invariant m → m_threads m !! t = Some (mkThread (Ret a) l) → callers !! t = Some c → answers m c l a.
Proof.
  intros Hi Hth Hc. destruct (invariant_get _ _ _ Hi Hth) as (roles & c' & r & _ & _ & Hc' & _ & Hsafe & Hl).
  rewrite Hc in Hc'. injection Hc' as <-. destruct c as [[line mask] e]. cbn in Hsafe, Hl |- *.
  destruct Hsafe as (_ & _ & Hend). destruct Hl as [Hs _]. destruct (l_cancelled l).
  - destruct Hend as [Hk [[pid sh] Est]]. rewrite Est in Hs. destruct Hs as (f & Hf & Hnr & _).
    exists pid, sh, f. auto.
  - destruct Hend as [Ha Hm]. split.
    { destruct Hm as [?|[Hv ?]]; [by left|right]. split; [by apply checks_new|done]. }
    destruct (l_started l) as [[pid sh]|] eqn:Est; [|by left]. destruct Ha as [-> ->].
    destruct (l_waited l) as [st|]; [|by left]. right. destruct Hs as (f & Hf & _ & Hw).
    exists pid, st. split_and!; [done| |done]. by rewrite Hf, (Hw st eq_refl).
Qed.

(** An operation waits for the lock, or for a shell that runs. *)
Lemma exec_waits {B} (o : op B) t s l r (K : B → role → local → Prop) :
  rule fails orig o r l K → exec fails o t Fine s l = None →
  critical r = false ∧ (lock s = None → ∃ pid sh, shells s !! pid = Some (sh, Runs)).
Proof.
  intros HK He. destruct o; cbn in HK, He; try done.
  - destruct (lock s); [|done]. by destruct r.
  - destruct HK as (-> & _). split; [done|]. intros _.
    destruct (shells s !! pid) as [[sh f]|] eqn:E; [|done]. destruct f; try done. eauto.
Qed.

Lemma invariant_progress m :
  invariant m → (∃ t th, m_threads m !! t = Some th ∧ ∀ a, t_prog th ≠ Ret a) →
  (∃ t, is_Some (step fails (Run t Fine) m)) ∨ (∃ pid, ∀ st, is_Some (step fails (Ends pid st) m)).
Proof.
  intros Hi (t & th & Hth & Hnr). destruct m as [s ths]. cbn [m_shared m_threads] in *.
  assert (Hgo : ∀ u thu c r, ths !! u = Some thu → thread_ok s c thu r → (∀ a, t_prog thu ≠ Ret a) →
    is_Some (step fails (Run u Fine) (mkMachine s ths)) ∨
    critical r = false ∧ (lock s = None → ∃ pid sh, shells s !! pid = Some (sh, Runs))).
  { intros u thu c r Hu [Hsafe _] Hna. cbn. rewrite Hu. cbn.
    destruct (t_prog thu) as [a|B o k] eqn:Ep; [by destruct (Hna a)|]. cbn in Hsafe.
    destruct (exec fails o u Fine s (t_local thu)) as [[[b s'] l']|] eqn:He; [left; by eexists|right].
    by eapply exec_waits. }
  destruct Hi as (roles & Hco & _ & HF). cbn in Hco, HF.
  assert (Hlen : length roles = length ths).
  { by rewrite <- (Forall3_length_lr _ _ _ _ HF), <- (Forall3_length_lm _ _ _ _ HF). }
  assert (Hall : ∀ u thu ru, ths !! u = Some thu → roles !! u = Some ru → ∃ cu, callers !! u = Some cu ∧ thread_ok s cu thu ru).
  { intros u thu ru Hu Hru. destruct (Forall3_lookup_m _ _ _ _ _ _ HF Hu) as (cu & ru' & Hcu & Hru' & H).
    simplify_eq. eauto. }
  destruct (Forall3_lookup_m _ _ _ _ _ _ HF Hth) as (c & r & Hc & Hr & Hok).
  destruct (lock s) as [u|] eqn:El.
  - pose proof El as (ru & Hru & Hcr)%(co_lock _ _ _ Hco).
    assert (Hu : (u < length ths)%nat) by (apply lookup_lt_Some in Hru; by rewrite Hlen in Hru).
    destruct (lookup_lt_is_Some_2 _ _ Hu) as [thu Hthu].
    destruct (Hall u thu ru Hthu Hru) as (cu & Hcu & Hoku).
    destruct (Hgo u thu cu ru Hthu Hoku) as [H|[H _]]; [|by left; exists u|congruence].
    intros a Ea. destruct Hoku as [Hsafe _]. rewrite Ea in Hsafe. destruct Hsafe as [-> _]. done.
  - destruct (Hgo t th c r Hth Hok Hnr) as [H|[_ H]]; [by left; exists t|right].
    destruct (H eq_refl) as (pid & sh & E). exists pid. intros st. cbn. rewrite E. by eexists.
Qed.
End Runs.

Lemma steps_reaches fails acts m m' : steps fails acts m = Some m' → reaches fails m m'.
Proof.
  assert (Hnone : ∀ acts, foldl (λ m a, m ← m; step fails a m) None acts = None).
  { intros l. by induction l. }
  unfold steps, reaches. revert m. induction acts as [|a acts IH]; intros m; cbn.
  { by intros [= <-]. }
  destruct (step fails a m) as [m1|] eqn:E; cbn; [|by rewrite Hnone].
  intros H. eapply rtc_l; [by exists a|by apply IH].
Qed.

(** * Theorems *)

Section Theorems.
Context (v : version) (callers : list caller) (orig stale : both sigaction).
Context (shells0 : gmap Z (shell * fate)) (next : Z).

(** Every state the machine reaches from calls of [system] nobody has begun. *)
Definition reachable (m : machine) : Prop :=
  reaches (checks v) (machine_of v callers (idle orig stale shells0 next)) m.


(** C13: A call that is done answers the status its own shell ended with, after waiting
    for it, or -1 (with no line: whether that status is 0).  The shell was started as
    [sh -c line] with the caller's mask, and ignores SIGINT or SIGQUIT exactly when they
    were ignored before the calls.  The caller's mask is as before, except that 2.32 may leave SIGCHLD
    blocked.  A cancelled call leaves no shell running. *)
Theorem system_answers m t l a c
    (Hfew : Z.of_nat (length callers) < 2147483647)
    (Hnext : ∀ pid x, shells0 !! pid = Some x → pid < next) (Hm : reachable m)
    (Hth : m_threads m !! t = Some (mkThread (Ret a) l)) (Hc : callers !! t = Some c) :
  answers v orig m c l a.
Proof.
  eapply invariant_answers; [|done..].
  eapply invariant_reaches; [done|exact Hm|by apply invariant_start].
Qed.

(** C26: The calls do not deadlock: as long as one of them is not done some thread can
    go on with no call failing, or a shell that is waited for still runs. *)
Theorem system_progress m
    (Hfew : Z.of_nat (length callers) < 2147483647)
    (Hnext : ∀ pid x, shells0 !! pid = Some x → pid < next) (Hm : reachable m)
    (Hsome : ∃ t th, m_threads m !! t = Some th ∧ ∀ a, t_prog th ≠ Ret a) :
  (∃ t, is_Some (step (checks v) (Run t Fine) m)) ∨
  (∃ pid, ∀ st, is_Some (step (checks v) (Ends pid st) m)).
Proof.
  eapply invariant_progress; [|done].
  eapply invariant_reaches; [done|exact Hm|by apply invariant_start].
Qed.
End Theorems.

(** * Runs *)

Module SystemDemo.
Definition handled : both sigaction := mkBoth (mkSigaction (Handler 5) ∅ 0) ignoring.
Definition two : list caller := [(Some "a"%string, ∅, 0); (Some "b"%string, ∅, 0)].
Definition first : machine := machine_of Glibc_2_32 two (idle handled (all ignoring) ∅ 1).
(** The first starts its shell, the second runs to its end, then the first. *)
Definition overlap : list action :=
  replicate 10 (Run 0 Fine) ++ replicate 8 (Run 1 Fine) ++ [Ends 2 0] ++ replicate 5 (Run 1 Fine) ++
  [Interrupt 0; Ends 1 256] ++ replicate 8 (Run 0 Fine).
Definition after (acts : list action) : machine := default first (steps false acts first).
End SystemDemo.
Import SystemDemo.

Lemma overlap_steps acts : is_Some (steps false acts first) → reachable Glibc_2_32 two handled (all ignoring) ∅ 1 (after acts).
Proof. intros [m E]. apply (steps_reaches _ acts). unfold after. by rewrite E. Qed.

Lemma two_few : Z.of_nat (length two) < 2147483647 ∧
  ∀ pid x, (∅ : gmap Z (shell * fate)) !! pid = Some x → pid < 1.
Proof. split; [done|]. intros pid x. by rewrite lookup_empty. Qed.


(** The first answers 256, the status of its shell. *)
Lemma system_answers_witness :
  ∃ l, m_threads (after overlap) !! 0%nat = Some (mkThread (Ret 256) l) ∧
    answers Glibc_2_32 handled (after overlap) (Some "a"%string, ∅, 0) l 256.
Proof.
  destruct two_few as [Hf Hn]. eexists. split; [vm_compute; reflexivity|].
  eapply (system_answers Glibc_2_32 two handled (all ignoring) ∅ 1 (after overlap) 0); [exact Hf|exact Hn| | |].
  - apply overlap_steps. vm_compute. by eexists.
  - vm_compute. reflexivity.
  - reflexivity.
Defined.

Lemma system_progress_witness :
  (∃ t, is_Some (step false (Run t Fine) first)) ∨ (∃ pid, ∀ st, is_Some (step false (Ends pid st) first)).
Proof.
  destruct two_few as [Hf Hn].
  apply (system_progress Glibc_2_32 two handled (all ignoring) ∅ 1 first Hf Hn).
  - apply (overlap_steps []). vm_compute. by eexists.
  - exists 0%nat. eexists. split; [reflexivity|]. intros a. done.
Defined.

(** In 2.32 a call that is not the last one to leave keeps SIGCHLD blocked: after
    both calls are done the second thread's mask, empty before, is not restored. *)
Example system_mask_lost :
  reachable Glibc_2_32 two handled (all ignoring) ∅ 1 (after overlap) ∧
  finished (after overlap) ∧
  (λ th, l_mask (t_local th)) <$> m_threads (after overlap) = [∅; {[SIGCHLD]}].
Proof.
  split_and!; [apply overlap_steps; vm_compute; by eexists| |by vm_compute].
  intros [|[|t]] th E; vm_compute in E; simplify_eq; by eexists.
Qed.
