(* ===== verification/Popen.v ===== *)
(** [popen] and [pclose]: iopopen.c of glibc 2.32, which starts the shell with
    [posix_spawn], and of glibc 2.27, which forks.

    The state is the process with its [FILE] objects: the list [proc_file_chain] is the
    linked list of the code, its nodes known by their addresses.  Both versions are
    shown to open the same streams and to start the same shell. *)
From S2P Require Import Prelude Nptl Unix GSpawnIo GSpawnChild GSpawn GSpawnPipes GSpawnSync SpawnDemo.

(** * State *)

(** What popen.c uses of a [struct _IO_proc_file]. *)
Record proc_file := mkFile {
  pf_fileno : Z; pf_pid : Z; pf_next : Z; pf_no_reads : bool; pf_no_writes : bool;
}.
#[export] Instance eta_proc_file : Eta proc_file := λ f,
  mkFile (pf_fileno f) (pf_pid f) (pf_next f) (pf_no_reads f) (pf_no_writes f).

Record pstate := mkP {
  p_sys : uproc;
  p_files : gmap Z proc_file;          (* by address *)
  proc_file_chain : Z;                 (* 0 is NULL *)
  p_break : Z;                         (* the next address of [malloc] *)
  p_actions : Z;                       (* objects of file actions initialised and not destroyed *)
}.
#[export] Instance eta_pstate : Eta pstate := λ s,
  mkP (p_sys s) (p_files s) (proc_file_chain s) (p_break s) (p_actions s).

Definition on_sys {A} (m : M uproc A) : M pstate A := λ s,
  match m (p_sys s) with
  | Done a u => Done a (s <| p_sys := u |>)
  | Stop w u => Stop w (s <| p_sys := u |>)
  end.
Definition load_file (p : Z) : M pstate proc_file :=
  files ← gets p_files; from_option_or Fault (files !! p).
Definition upd_file (p : Z) (f : proc_file → proc_file) : M pstate () :=
  x ← load_file p; modify (λ s, s <| p_files := <[p := f x]> (p_files s) |>).

(** ** System calls of their own *)

(** [fcntl (fd, F_DUPFD_CLOEXEC, 0)]. *)
Definition dupfd_cloexec (fd : Z) : M uproc Z :=
  a ← next_answer;
  match a with
  | Some (Err e) => set_uerrno e;; mret (-1)
  | _ =>
      t ← gets u_fds;
      match t !! fd with
      | None => set_uerrno EBADF;; mret (-1)
      | Some (f, _) => new_fd f true
      end
  end.

(** [fcntl (fd, F_SETFD, 0)]; its result is not used. *)
Definition fcntl_clear (fd : Z) : M uproc () :=
  t ← gets u_fds;
  match t !! fd with
  | None => set_uerrno EBADF
  | Some (f, _) => modify (λ s, s <| u_fds := <[fd := (f, false)]> (u_fds s) |>)
  end.

(** [close], where its result is used: the descriptor is gone also when it fails. *)
Definition close_result (fd : Z) : M uproc Z :=
  a ← next_answer;
  t ← gets u_fds;
  match t !! fd with
  | None => set_uerrno EBADF;; mret (-1)
  | Some _ =>
      close fd;;
      match a with Some (Err e) => set_uerrno e;; mret (-1) | _ => mret 0 end
  end.

(** [posix_spawn_file_actions_init] and [posix_spawn_file_actions_destroy]. *)
Definition init_actions : M pstate () := modify (λ s, s <| p_actions := p_actions s + 1 |>).
Definition destroy_actions : M pstate () := modify (λ s, s <| p_actions := p_actions s - 1 |>).

(** * The functions *)

Definition BSHELL : str := lit "/bin/sh".
Definition shell_argv (command : str) : list str := [lit "sh"; lit "-c"; command].

(** The [while] loop over the mode, from the flags [do_read], [do_write] and
    [do_cloexec]. *)
Fixpoint parse_mode (mode : str) (rd wr ce : bool) : option (bool * bool * bool) :=
  match mode with
  | [] => Some (rd, wr, ce)
  | c :: mode =>
      if Ascii.eqb c "r"%char then parse_mode mode true wr ce
      else if Ascii.eqb c "w"%char then parse_mode mode rd true ce
      else if Ascii.eqb c "e"%char then parse_mode mode rd wr true
      else None
  end.

Section Popen.
Context `{!System}.

(** The loop of [spawn_process] over the chain; false when an action cannot be added. *)
Fixpoint add_closes (fuel : nat) (p child_pipe_fd : Z) (fa : list file_action) :
    M pstate (bool * list file_action) :=
  if p =? 0 then mret (true, fa) else
  match fuel with
  | O => stop_with Blocked
  | S fuel =>
      f ← load_file p;
      if pf_fileno f =? child_pipe_fd then add_closes fuel (pf_next f) child_pipe_fd fa
      else
        r ← on_sys libc_call;
        if negb (r =? 0) then mret (false, fa)
        else add_closes fuel (pf_next f) child_pipe_fd (fa ++ [AClose (pf_fileno f)])
  end.

Definition spawn_process (fa : list file_action) (fp : Z) (command : str) (do_cloexec : bool)
    (parent_end child_end child_pipe_fd : Z) : M pstate bool :=
  head ← gets proc_file_chain;
  fuel ← gets (λ s, size (p_files s));
  '(ok, fa) ← add_closes fuel head child_pipe_fd fa;
  if negb ok then mret false else
  '(r, pid) ← on_sys (posix_spawn false BSHELL fa [] (shell_argv command) sys_environ);
  if negb (r =? 0) then mret false
  else
    upd_file fp (λ f, f <| pf_pid := pid |>);;
    on_sys (close child_end);;
    when (negb do_cloexec) (on_sys (fcntl_clear parent_end));;
    upd_file fp (λ f, f <| pf_fileno := parent_end |>);;
    head ← gets proc_file_chain;
    upd_file fp (λ f, f <| pf_next := head |>);;
    modify (λ s, s <| proc_file_chain := fp |>);;
    mret true.

(** The [spawn_failure] label. *)
Definition spawn_failure (parent_end child_end : Z) : M pstate bool :=
  on_sys (close child_end);;
  on_sys (close parent_end);;
  on_sys (set_uerrno ENOMEM);;
  mret false.

(** Whether the stream was opened. *)
Definition proc_open (fp : Z) (command mode : str) : M pstate bool :=
  match parse_mode mode false false false with
  | None => on_sys (set_uerrno EINVAL);; mret false
  | Some (do_read, do_write, do_cloexec) =>
      if negb (xorb do_read do_write) then on_sys (set_uerrno EINVAL);; mret false else
      f ← load_file fp;
      if pf_fileno f >=? 0 then mret false else
      fds ← on_sys (pipe2 true);
      match fds with
      | None => mret false
      | Some (r, w) =>
          let parent_end := if do_read : bool then r else w in
          let child_end := if do_read then w else r in
          let child_pipe_fd := if do_read then 1 else 0 in
          init_actions;;
          moved ← (if child_end =? child_pipe_fd then
                     tmp ← on_sys (dupfd_cloexec child_pipe_fd);
                     if tmp <? 0 then mret None
                     else on_sys (close child_end);; mret (Some tmp)
                   else mret (Some child_end));
          match moved with
          | None => spawn_failure parent_end child_end
          | Some child_end =>
              r ← on_sys libc_call;
              if negb (r =? 0) then spawn_failure parent_end child_end else
              ok ← spawn_process [ADup2 child_end child_pipe_fd] fp command do_cloexec
                     parent_end child_end child_pipe_fd;
              destroy_actions;;
              if negb ok then spawn_failure parent_end child_end
              else
                upd_file fp (λ f, f <| pf_no_writes := do_read |> <| pf_no_reads := negb do_read |>);;
                mret true
          end
      end
  end.

(** [_IO_new_popen], over either [_IO_new_proc_open]: the address of the stream, or 0. *)
Definition popen_with (proc_open : Z → str → str → M pstate bool) (command mode : str) : M pstate Z :=
  r ← on_sys libc_call;
  if negb (r =? 0) then on_sys (set_uerrno ENOMEM);; mret 0
  else
    fp ← gets p_break;
    modify (λ s, s <| p_files := <[fp := mkFile (-1) 0 0 false false]> (p_files s) |>
                   <| p_break := fp + 1 |>);;
    ok ← proc_open fp command mode;
    if ok : bool then mret fp
    else modify (λ s, s <| p_files := delete fp (p_files s) |>);; mret 0.
Definition popen : str → str → M pstate Z := popen_with proc_open.

(** The loop of [pclose]: [prev] is the node that [ptr] points into, or the head. *)
Fixpoint unlink_stream (fuel : nat) (prev : option Z) (p fp : Z) : M pstate bool :=
  if p =? 0 then mret false else
  match fuel with
  | O => stop_with Blocked
  | S fuel =>
      f ← load_file p;
      if p =? fp then
        match prev with
        | None => modify (λ s, s <| proc_file_chain := pf_next f |>)
        | Some q => upd_file q (λ g, g <| pf_next := pf_next f |>)
        end;;
        mret true
      else unlink_stream fuel (Some p) (pf_next f) fp
  end.

(** The status of the shell, or -1. *)
Definition proc_close (fp : Z) : M pstate Z :=
  head ← gets proc_file_chain;
  fuel ← gets (λ s, size (p_files s));
  found ← unlink_stream fuel None head fp;
  if negb found then mret (-1) else
  f ← load_file fp;
  r ← on_sys (close_result (pf_fileno f));
  if r <? 0 then mret (-1) else
  '(wait_pid, wstatus) ← on_sys (retry (λ r : Z * Z, r.1 =? -1) (waitpid (pf_pid f)));
  mret (if wait_pid =? -1 then -1 else wstatus).

(** ** glibc 2.27 *)

(** The descriptors of the chain, as the child finds them in its copy of the memory. *)
Fixpoint chain_fds (fuel : nat) (files : gmap Z proc_file) (p : Z) : option (list Z) :=
  if p =? 0 then Some [] else
  match fuel with
  | O => None
  | S fuel => f ← files !! p; (cons (pf_fileno f)) <$> chain_fds fuel files (pf_next f)
  end.

Definition popen_child (child_end child_std_end : Z) (streams : option (list Z)) (command : str) :
    M uproc () :=
  (if negb (child_end =? child_std_end) then dup2 child_end child_std_end;; mret ()
   else fcntl_clear child_end);;
  fds ← from_option_or Fault streams;
  mfor fds (λ fd, when (negb (fd =? child_std_end)) (close fd));;
  execve BSHELL (shell_argv command) sys_environ;;
  _exit 127.

Definition proc_open_2_27 (fp : Z) (command mode : str) : M pstate bool :=
  match parse_mode mode false false false with
  | None => on_sys (set_uerrno EINVAL);; mret false
  | Some (do_read, do_write, do_cloexec) =>
      if negb (xorb do_read do_write) then on_sys (set_uerrno EINVAL);; mret false else
      f ← load_file fp;
      if pf_fileno f >=? 0 then mret false else
      fds ← on_sys (pipe2 true);
      match fds with
      | None => mret false
      | Some (r, w) =>
          let parent_end := if do_read : bool then r else w in
          let child_end := if do_read then w else r in
          streams ← gets (λ s, chain_fds (size (p_files s)) (p_files s) (proc_file_chain s));
          pid ← on_sys (fork (popen_child child_end (if do_read then 1 else 0) streams command));
          upd_file fp (λ f, f <| pf_pid := pid |>);;
          on_sys (close child_end);;
          if pid <? 0 then on_sys (close parent_end);; mret false
          else
            when (negb do_cloexec) (on_sys (fcntl_clear parent_end));;
            upd_file fp (λ f, f <| pf_fileno := parent_end |>);;
            head ← gets proc_file_chain;
            upd_file fp (λ f, f <| pf_next := head |>);;
            modify (λ s, s <| proc_file_chain := fp |>);;
            upd_file fp (λ f, f <| pf_no_writes := do_read |> <| pf_no_reads := negb do_read |>);;
            mret true
      end
  end.
Definition popen_2_27 : str → str → M pstate Z := popen_with proc_open_2_27.
End Popen.

(** * The chain *)

Implicit Types (s : pstate) (u : uproc).

Lemma wp_on_sys {A} (m : M uproc A) (Q : A → pstate → Prop) s :
  wp m (λ a u, Q a (s <| p_sys := u |>)) (p_sys s) → wp (on_sys m) Q s.
Proof. unfold wp, on_sys. by destruct (m (p_sys s)). Qed.

Lemma wp_load_file p f (Q : proc_file → pstate → Prop) s :
  p_files s !! p = Some f → Q f s → wp (load_file p) Q s.
Proof. intros E HQ. unfold load_file. wp_go. by eapply wp_from_option. Qed.

Lemma wp_upd_file p g f (Q : () → pstate → Prop) s :
  p_files s !! p = Some f → Q () (s <| p_files := <[p := g f]> (p_files s) |>) →
  wp (upd_file p g) Q s.
Proof. intros E HQ. unfold upd_file. wp_step. eapply wp_load_file; [done|]. by wp_go. Qed.

(** The nodes of the linked list. *)
Fixpoint chain (files : gmap Z proc_file) (p : Z) (l : list Z) : Prop :=
  match l with
  | [] => p = 0
  | q :: l => p = q ∧ q ≠ 0 ∧ ∃ f, files !! q = Some f ∧ chain files (pf_next f) l
  end.
Definition fileno (files : gmap Z proc_file) (q : Z) : Z := default (-1) (pf_fileno <$> files !! q).

(** The descriptors other than [std]. *)
Definition others (std : Z) (fds : list Z) : list Z := List.filter (λ fd, negb (fd =? std)) fds.

Lemma chain_ext files files' p l :
  (∀ q, q ∈ l → files' !! q = files !! q) → chain files p l → chain files' p l.
Proof.
  revert p. induction l as [|q l IH]; intros p H; [done|]. intros (-> & H0 & f & Hf & Hl).
  split_and!; [done|done|]. exists f. rewrite H by set_solver. split; [done|].
  apply IH; [|done]. intros. apply H. set_solver.
Qed.

Lemma chain_in files p l q : chain files p l → q ∈ l → is_Some (files !! q).
Proof.
  revert p. induction l as [|x l IH]; intros p; [by intros _ ?%elem_of_nil|].
  intros (-> & _ & f & Hf & Hl) [->|Hq]%elem_of_cons; [by eexists|by eapply IH].
Qed.

(** The loops over the chain end within the number of files. *)
Lemma chain_size files p l : chain files p l → NoDup l → (length l ≤ size files)%nat.
Proof.
  intros Hc Hn. rewrite <- size_dom, <- (size_list_to_set (C := gset Z) l Hn).
  apply subseteq_size. intros q Hq. apply elem_of_list_to_set in Hq. apply elem_of_dom.
  by eapply chain_in.
Qed.

Lemma libc_call_later (Q : Z → uproc → Prop) u :
  (∀ r u', later nothing u u' → Q r u') → wp libc_call Q u.
Proof. intros HQ. unfold libc_call. wp_step. apply wp_answer. intros a u' H _. wp_go. by apply HQ. Qed.

Lemma wp_add_closes l std (Q : bool * list file_action → pstate → Prop) s : ∀ fuel p fa s1,
  (length l ≤ fuel)%nat → chain (p_files s) p l → later nothing (p_sys s) (p_sys s1) →
  s1 = s <| p_sys := p_sys s1 |> →
  (∀ u, later nothing (p_sys s) u →
     Q (true, fa ++ (AClose <$> others std (fileno (p_files s) <$> l))) (s <| p_sys := u |>)) →
  (∀ u fa', later nothing (p_sys s) u → Q (false, fa') (s <| p_sys := u |>)) →
  wp (add_closes fuel p std fa) Q s1.
Proof.
  induction l as [|q l IH]; intros fuel p fa s1 Hf Hc Hu Es HQ HE.
  - cbn in Hc. subst p. cbn in HQ. rewrite app_nil_r in HQ.
    destruct fuel; cbn; apply wp_ret; rewrite Es; by apply HQ.
  - destruct Hc as (-> & H0 & f & Hff & Hc). destruct fuel as [|fuel]; [cbn in Hf; lia|]. cbn [add_closes].
    destruct (Z.eqb_spec q 0); [done|]. wp_step. apply (wp_load_file q f); [by rewrite Es|].
    cbn [length] in Hf. rewrite fmap_cons in HQ. unfold fileno at 1 in HQ. rewrite Hff in HQ. cbn in HQ.
    destruct (Z.eqb_spec (pf_fileno f) std); [apply IH; [lia|done..]|].
    wp_step. apply wp_on_sys, libc_call_later. intros r u Hr. rs.
    assert (Hu' : later nothing (p_sys s) u) by by etrans. wp_step.
    + wp_step. rewrite Es. change ((s <| p_sys := p_sys s1 |>) <| p_sys := u |>) with (s <| p_sys := u |>).
      by apply HE.
    + apply IH; [lia|done|done| | |done].
      * rewrite Es. reflexivity.
      * intros u' Hu''. rewrite <- app_assoc. by apply HQ.
Qed.

Lemma chain_fds_chain files p l fuel :
  (length l ≤ fuel)%nat → chain files p l → chain_fds fuel files p = Some (fileno files <$> l).
Proof.
  revert fuel p. induction l as [|q l IH]; intros fuel p Hf; [by intros ->; destruct fuel|].
  intros (-> & H0 & f & Hff & Hc). destruct fuel as [|fuel]; [cbn in Hf; lia|]. cbn [chain_fds].
  destruct (Z.eqb_spec q 0); [done|]. rewrite Hff. cbn. rewrite (IH fuel) by (cbn in Hf; done || lia).
  assert (fileno files q = pf_fileno f) as <- by (unfold fileno; by rewrite Hff). done.
Qed.

(** ** Tables *)

Definition deleted (fds : list Z) (t : fdtable) : fdtable := foldl (λ t fd, delete fd t) t fds.

Lemma deleted_lookup fds t k : deleted fds t !! k = if decide (k ∈ fds) then None else t !! k.
Proof.
  revert t. induction fds as [|fd fds IH]; intros t; [done|].
  change (deleted (fd :: fds) t) with (deleted fds (delete fd t)). rewrite IH.
  destruct (decide (k = fd)) as [->|Hne].
  - rewrite lookup_delete_eq. repeat case_decide; set_solver.
  - rewrite lookup_delete_ne by done. repeat case_decide; set_solver.
Qed.

Lemma perform_closes fds t : perform_all t (AClose <$> fds) = Some (deleted fds t).
Proof. revert t. induction fds as [|fd fds IH]; intros t; [done|]. cbn. apply IH. Qed.

Lemma others_spec std fds k : k ∈ others std fds ↔ k ∈ fds ∧ k ≠ std.
Proof. unfold others. rewrite !list_elem_of_In, filter_In, negb_true_iff, Z.eqb_neq. done. Qed.

(** What the shell finds: the other end of the pipe as its input or output; the streams
    opened before are closed, the rest is what the caller would have given anyway. *)
Definition shell_fds (do_read : bool) (p : Z) (streams : list Z) (t : fdtable) (k : Z) : option file :=
  if decide (k = if do_read then 1 else 0) then Some (if do_read then PipeWrite p else PipeRead p)
  else if decide (k ∈ streams) then None else seen t k.

(** A table with both ends of the pipe, besides those of [t]. *)
Record halfway (do_read : bool) (p parent_end child_end : Z) (t t' : fdtable) : Prop := {
  hw_ne : parent_end ≠ child_end;
  hw_pos : 0 ≤ parent_end ∧ 0 ≤ child_end;
  hw_parent : t !! parent_end = None ∧
    t' !! parent_end = Some (if do_read then PipeRead p else PipeWrite p, true);
  hw_child : t !! child_end = None ∧
    t' !! child_end = Some (if do_read then PipeWrite p else PipeRead p, true);
  hw_rest k : k ≠ parent_end → k ≠ child_end → t' !! k = t !! k;
}.

Definition end_of (do_read : bool) (p : Z) (t : fdtable) : Z :=
  if do_read then pipe_r t else pipe_w p true t.
Definition other_end (do_read : bool) (p : Z) (t : fdtable) : Z :=
  if do_read then pipe_w p true t else pipe_r t.

Lemma halfway_pipe rd p t :
  halfway rd p (end_of rd p t) (other_end rd p t) t (pipe_table p true t).
Proof.
  pose proof (pipe_fds p true t) as (Hr & Hw & Hne & H1 & H2).
  destruct rd; unfold end_of, other_end; (split; [done|split; lia| | |]).
  all: try (split; [done|]); rewrite ?pipe_table_lookup.
  all: try intros k Hk1 Hk2; rewrite ?pipe_table_lookup; repeat case_decide; congruence || done.
Qed.

(** The child's end is moved away from where it is wanted. *)
Lemma halfway_moved rd p pe ce t t' :
  let tmp := lowest_free t' in
  halfway rd p pe ce t t' →
  halfway rd p pe tmp t (delete ce (<[tmp := (if rd then PipeWrite p else PipeRead p, true)]> t')) ∧ tmp ≠ ce.
Proof.
  intros tmp [Hne Hpos [Hp Hp'] [Hc Hc'] Hrest]. pose proof (lowest_free_spec t') as (H0 & Hfree & _). fold tmp in H0, Hfree.
  assert (tmp ≠ ce) by congruence. assert (tmp ≠ pe) by congruence.
  split; [|done]. split; [done|lia| | |].
  - split; [done|]. by rewrite lookup_delete_ne, lookup_insert_ne by done.
  - split; [rewrite <- Hrest by done; done|]. by rewrite lookup_delete_ne, lookup_insert_eq by done.
  - intros k Hk1 Hk2. destruct (decide (k = ce)) as [->|]; [by rewrite lookup_delete_eq|].
    rewrite lookup_delete_ne, lookup_insert_ne by done. by apply Hrest.
Qed.

Lemma halfway_closed rd p pe ce t t' : halfway rd p pe ce t t' → delete pe (delete ce t') = t.
Proof.
  intros [Hne _ [Hp _] [Hc _] Hrest]. apply map_eq. intros k.
  destruct (decide (k = pe)) as [->|]; [by rewrite lookup_delete_eq|].
  destruct (decide (k = ce)) as [->|]; [by rewrite lookup_delete_ne, lookup_delete_eq by done|].
  rewrite !lookup_delete_ne by done. by apply Hrest.
Qed.

Lemma halfway_parent rd p pe ce t t' (b : bool) :
  halfway rd p pe ce t t' →
  <[pe := (if rd then PipeRead p else PipeWrite p, b)]> (delete ce t') =
    <[pe := (if rd then PipeRead p else PipeWrite p, b)]> t.
Proof.
  intros [Hne _ _ [Hc _] Hrest]. apply map_eq. intros k.
  destruct (decide (k = pe)) as [->|]; [by rewrite !lookup_insert_eq|]. rewrite !lookup_insert_ne by done.
  destruct (decide (k = ce)) as [->|]; [by rewrite lookup_delete_eq|].
  rewrite lookup_delete_ne by done. by apply Hrest.
Qed.

Lemma halfway_seen rd p pe ce t t' k : halfway rd p pe ce t t' →
  match t' !! k with Some (f, false) => Some f | _ => None end = seen t k.
Proof.
  intros [Hne _ [Hp Hp'] [Hc Hc'] Hrest]. unfold seen.
  destruct (decide (k = pe)) as [->|]; [by rewrite Hp, Hp'|].
  destruct (decide (k = ce)) as [->|]; [by rewrite Hc, Hc'|]. by rewrite Hrest.
Qed.

(** The table of the child, however it came about. *)
Lemma shell_table (rd : bool) p pe ce t t' fds k :
  let std : Z := if rd then 1 else 0 in
  halfway rd p pe ce t t' →
  exec_fds (deleted (others std fds) (<[std := (if rd then PipeWrite p else PipeRead p, false)]> t')) !! k =
  shell_fds rd p fds t k.
Proof.
  intros std Hhw. rewrite exec_fds_lookup, deleted_lookup. unfold shell_fds. fold std.
  destruct (decide (k ∈ others std fds)) as [[Hk Hk']%others_spec|Hk].
  - by rewrite decide_False, decide_True by done.
  - destruct (decide (k = std)) as [->|Hk'].
    + by rewrite lookup_insert_eq.
    + rewrite lookup_insert_ne, (decide_False (P := k ∈ fds)) by (rewrite ?others_spec in Hk; tauto || done).
      by apply (halfway_seen _ _ _ _ _ _ _ Hhw).
Qed.

(** * Opening a stream *)

Section Opening.
Context {Sys : System} {Laws : SystemLaws}.

Lemma wp_posix_spawn file acts sigs argv envp t' (Q : Z * Z → uproc → Prop) u :
  let im := mkImage file argv envp (u_cwd u) (exec_fds t') (sigs ++ u_default u) in
  perform_all (u_fds u) acts = Some t' →
  (∀ r u', r ≠ 0 → later nothing u u' → Q (r, 0) u') →
  (∀ pid u', later nothing u u' → u_next u ≤ pid < u_next u' → sys_exec im = None →
     Q (0, pid) (start pid im u')) →
  wp (posix_spawn false file acts sigs argv envp) Q u.
Proof.
  intros im Hp HE HQ. unfold posix_spawn. wp_step. apply libc_call_later. intros r u1 H1.
  wp_step; [apply wp_ret, HE; [lia|done]|]. wp_step. apply wp_gets.
  rewrite (later_fds _ _ _ H1), Hp. wp_go. rewrite (later_cwd _ _ _ H1), (later_default _ _ _ H1).
  cbn [im_cwd im_fds im_default]. fold im. destruct (sys_exec im) as [e|] eqn:Ex.
  - apply wp_ret, HE; [|done]. destruct (exec_errors im e Ex). lia.
  - wp_go. pose proof (later_next _ _ _ H1).
    assert (L : later nothing u (u1 <| u_next := u_next u1 + 1 |>)).
    { eapply later_one; [|exact H1]. apply moves_next. lia. }
    specialize (HQ (u_next u1) _ L). unfold start in HQ. rs in HQ. destruct u1. apply HQ; [cbn in *; lia|done].
Qed.

Lemma wp_close fd (Q : () → uproc → Prop) u : Q () (u <| u_fds := delete fd (u_fds u) |>) → wp (close fd) Q u.
Proof. done. Qed.

Lemma wp_fcntl_clear fd f b (Q : () → uproc → Prop) u :
  u_fds u !! fd = Some (f, b) → Q () (u <| u_fds := <[fd := (f, false)]> (u_fds u) |>) → wp (fcntl_clear fd) Q u.
Proof. intros E HQ. unfold fcntl_clear. wp_step. apply wp_gets. rewrite E. by wp_go. Qed.

(** The shell, from the parent's table and the streams it has open. *)
Definition shell_of (command : str) (rd : bool) (p : Z) (streams : list Z) (u : uproc) : image :=
  let std := if rd then 1 else 0 in
  mkImage BSHELL (shell_argv command) sys_environ (u_cwd u)
    (exec_fds (deleted (others std streams)
      (<[std := (if rd then PipeWrite p else PipeRead p, false)]> (u_fds u)))) (u_default u).

Definition pipe_end (rd : bool) (p : Z) : file := if rd then PipeRead p else PipeWrite p.

(** The stream that was opened. *)
Definition with_stream (rd ce : bool) (p pe pid fp : Z) (f : proc_file) (u' : uproc) (t : fdtable) s : pstate :=
  s <| p_sys := u' <| u_fds := <[pe := (pipe_end rd p, ce)]> t |> |>
    <| p_files := <[fp := mkFile pe pid (proc_file_chain s) (pf_no_reads f) (pf_no_writes f)]> (p_files s) |>
    <| proc_file_chain := fp |>.

(** The parent's part after the start of the shell. *)
Lemma wp_parent_end rd p pe ce (doc : bool) t (Q : () → uproc → Prop) u :
  halfway rd p pe ce t (u_fds u) →
  Q () (u <| u_fds := <[pe := (pipe_end rd p, doc)]> t |>) →
  wp (close ce;; when (negb doc) (fcntl_clear pe)) Q u.
Proof.
  unfold pipe_end. intros H HQ. wp_step. apply wp_close. pose proof H as [Hne _ [_ Hp] _ _].
  assert (Hpe : delete ce (u_fds u) !! pe = Some (if rd then PipeRead p else PipeWrite p, true)) by by rewrite lookup_delete_ne.
  destruct doc; cbn [negb when].
  - wp_go. rewrite <- (halfway_parent rd p pe ce t (u_fds u) true H) in HQ.
    by rewrite insert_id in HQ by exact Hpe.
  - eapply wp_fcntl_clear; [exact Hpe|]. rs.
    rewrite (halfway_parent rd p pe ce t (u_fds u) false H). exact HQ.
Qed.

Lemma wp_spawn_process (rd doc : bool) p pe ce t fp f l command (Q : bool → pstate → Prop) s :
  let std := if rd then 1 else 0 in
  let im := shell_of command rd p (fileno (p_files s) <$> l) (p_sys s) in
  halfway rd p pe ce t (u_fds (p_sys s)) → chain (p_files s) (proc_file_chain s) l → NoDup l →
  p_files s !! fp = Some f →
  (∀ u', later nothing (p_sys s) u' → Q false (s <| p_sys := u' |>)) →
  (∀ pid u', later nothing (p_sys s) u' → u_next (p_sys s) ≤ pid < u_next u' → sys_exec im = None →
     Q true (with_stream rd doc p pe pid fp f (start pid im u') t s)) →
  wp (spawn_process [ADup2 ce std] fp command doc pe ce std) Q s.
Proof.
  intros std im Hhw Hc Hn Hf HE HQ. unfold spawn_process. wp_go.
  eapply (wp_add_closes l std); [by eapply chain_size|done|done|by destruct s| |].
  2:{ intros u' fa' Hu. cbn beta iota. cbn [negb]. by apply wp_ret, HE. }
  intros u1 H1. cbn beta iota. cbn [negb]. wp_step. apply wp_on_sys. rs.
  pose proof (later_fds _ _ _ H1) as E1. pose proof Hhw as [_ _ _ [_ Hce] _].
  eapply wp_posix_spawn.
  { rewrite E1. cbn [app perform_all perform]. rewrite Hce. cbn. apply perform_closes. }
  { intros r u2 Hr H2. cbn beta iota. destruct (Z.eqb_spec r 0); [done|]. cbn [negb]. apply wp_ret.
    apply HE. by etrans. }
  intros pid u2 H2 Hpid Hex. cbn beta iota. change (negb (0 =? 0)) with false. cbn iota.
  set (im' := mkImage _ _ _ _ _ _) in *.
  assert (Eim : im' = im).
  { unfold im', im, shell_of. cbn [app]. by rewrite (later_cwd _ _ _ H1), (later_default _ _ _ H1). }
  rewrite Eim in *. assert (H02 : later nothing (p_sys s) u2) by by etrans.
  assert (Hnext : u_next (p_sys s) ≤ pid < u_next u2).
  { pose proof (later_next _ _ _ H1). lia. }
  wp_step. eapply wp_upd_file; [exact Hf|]. rs. wp_step. apply wp_on_sys. rs.
  assert (Hhw' : halfway rd p pe ce t (u_fds (start pid im u2))).
  { change (u_fds (start pid im u2)) with (u_fds u2). by rewrite (later_fds _ _ _ H02). }
  specialize (HQ pid u2 H02 Hnext Hex).
  pose proof (wp_parent_end rd p pe ce doc t (λ _ u', u' = (start pid im u2) <| u_fds := <[pe := (pipe_end rd p, doc)]> t |>)
    (start pid im u2) Hhw' eq_refl) as Hend.
  apply wp_bind_inv in Hend. eapply wp_mono; [exact Hend|]. intros [] u3 Hu3. cbn beta in Hu3. wp_step.
  assert (Hw : wp (when (negb doc) (on_sys (fcntl_clear pe))) (λ _ s', s' =
    (s <| p_files := <[fp := f <| pf_pid := pid |>]> (p_files s) |>
       <| p_sys := (start pid im u2) <| u_fds := <[pe := (pipe_end rd p, doc)]> t |> |>))
    (s <| p_files := <[fp := f <| pf_pid := pid |>]> (p_files s) |> <| p_sys := u3 |>)).
  { destruct doc; cbn [negb when] in Hu3 |- *.
    - apply wp_ret. unfold wp in Hu3. cbn in Hu3. by rewrite Hu3.
    - apply wp_on_sys. rs. eapply wp_mono; [exact Hu3|]. by intros [] u4 ->. }
  eapply wp_mono; [exact Hw|]. intros [] s4 ->. cbn beta.
  wp_step. eapply wp_upd_file; [rs; by rewrite lookup_insert_eq|]. wp_go.
  eapply wp_upd_file; [rs; by rewrite lookup_insert_eq|]. wp_go. rs. rewrite !insert_insert_eq.
  exact HQ.
Qed.
End Opening.

(** ** [_IO_new_proc_open] *)

(** The shell that [popen] is to start in a process [u]: [sh -c command] in the caller's
    environment, with the descriptors of [shell_fds]. *)
Definition shell_image `{!System} (command : str) (rd : bool) (streams : list Z) (u : uproc) (im : image) :
    Prop :=
  im_file im = BSHELL ∧ im_argv im = shell_argv command ∧ im_envp im = sys_environ ∧
  im_cwd im = u_cwd u ∧ im_default im = u_default u ∧
  ∀ k, im_fds im !! k = shell_fds rd (u_next u) streams (u_fds u) k.

(** The state with a new stream to the process [pid]. *)
Definition popened (rd ce : bool) (pid fp : Z) (u' : uproc) s : pstate :=
  let t := u_fds (p_sys s) in let p := u_next (p_sys s) in
  s <| p_sys := u' <| u_fds := <[end_of rd p t := (pipe_end rd p, ce)]> t |> |>
    <| p_files := <[fp := mkFile (end_of rd p t) pid (proc_file_chain s) (negb rd) rd]> (p_files s) |>
    <| proc_file_chain := fp |>.

Section ProcOpen.
Context {Sys : System} {Laws : SystemLaws}.

Lemma shell_of_image command rd pe ce streams t u u2 :
  t = u_fds u → halfway rd (u_next u) pe ce t (u_fds u2) → u_cwd u2 = u_cwd u → u_default u2 = u_default u →
  shell_image command rd streams u (shell_of command rd (u_next u) streams u2).
Proof.
  intros -> Hhw Hc Hd. unfold shell_of. split_and!; [done..|]. intros k.
  cbn [im_fds]. by eapply shell_table.
Qed.

Lemma wp_spawn_failure P rd p pe ce t (Q : bool → pstate → Prop) u s :
  t = u_fds u → halfway rd p pe ce t (u_fds (p_sys s)) → went P (u_fds (p_sys s)) u (p_sys s) →
  (∀ u', later P u u' → Q false (s <| p_sys := u' |>)) →
  wp (spawn_failure pe ce) Q s.
Proof.
  intros -> Hhw [Hw _] HQ. unfold spawn_failure. wp_step. apply wp_on_sys, wp_close. wp_step.
  apply wp_on_sys, wp_close. rs. rewrite (halfway_closed _ _ _ _ _ _ Hhw). wp_step. apply wp_on_sys.
  unfold set_uerrno. wp_go. rs.
  apply (HQ ((p_sys s) <| u_fds := u_fds u |> <| u_errno := ENOMEM |>)).
  eapply later_one; [apply moves_errno|done].
Qed.

Lemma wp_dupfd fd f b (Q : Z → uproc → Prop) u :
  u_fds u !! fd = Some (f, b) →
  (∀ u', later nothing u u' → Q (-1) u') →
  (∀ u', later nothing u u' →
     Q (lowest_free (u_fds u)) (u' <| u_fds := <[lowest_free (u_fds u) := (f, true)]> (u_fds u) |>)) →
  wp (dupfd_cloexec fd) Q u.
Proof.
  intros E HE HQ. unfold dupfd_cloexec. wp_step. apply wp_answer. intros a u1 H1 _.
  pose proof (later_fds _ _ _ H1) as Ef.
  assert (Hok : wp (t ← gets u_fds;
    match t !! fd with
    | None => set_uerrno EBADF;; mret (-1)
    | Some (f, _) => new_fd f true
    end) Q u1).
  { wp_step. apply wp_gets. rewrite Ef, E. apply wp_new_fd. intros k ->. rewrite Ef. by apply HQ. }
  destruct a as [[e|n]|]; [|exact Hok..]. unfold set_uerrno. wp_go. apply HE.
  eapply later_one; [apply moves_errno|done].
Qed.

Lemma with_stream_flags rd ce pid fp u' s :
  let t := u_fds (p_sys s) in let p := u_next (p_sys s) in
  p_files s !! fp = Some (mkFile (-1) 0 0 false false) →
  ∀ s1, p_files s1 = p_files s → proc_file_chain s1 = proc_file_chain s → p_break s1 = p_break s →
  p_actions s1 = p_actions s →
  ∀ (Q : () → pstate → Prop), Q () (popened rd ce pid fp u' s) →
  wp (upd_file fp (λ f, f <| pf_no_writes := rd |> <| pf_no_reads := negb rd |>)) Q
    (with_stream rd ce p (end_of rd p t) pid fp (mkFile (-1) 0 0 false false) u' t s1).
Proof.
  intros t p Hf [s1u s1f s1c s1b s1a] E1 E2 E3 E4 Q HQ. cbn in E1, E2, E3, E4. subst. unfold with_stream.
  eapply wp_upd_file; [rs; by rewrite lookup_insert_eq|]. rs. rewrite insert_insert_eq.
  destruct s. exact HQ.
Qed.

(** The rest, when the child's end is not where the child wants it. *)
Lemma wp_proc_open_at fp l command rd ce (Q : bool → pstate → Prop) s ce1 s2 :
  let u := p_sys s in let P := λ q, u_next u ≤ q in let streams := fileno (p_files s) <$> l in
  let t := u_fds u in let p := u_next u in let pe := end_of rd p t in
  p_files s !! fp = Some (mkFile (-1) 0 0 false false) → chain (p_files s) (proc_file_chain s) l → NoDup l →
  (∀ u' n, later P u u' → n = p_actions s ∨ n = p_actions s + 1 → Q false (s <| p_sys := u' |> <| p_actions := n |>)) →
  (∀ pid im u1, shell_image command rd streams u im → sys_exec im = None → later P u u1 → u_next u < pid < u_next u1 →
     Q true (popened rd ce pid fp (start pid im u1) s)) →
  halfway rd p pe ce1 t (u_fds (p_sys s2)) → went P (u_fds (p_sys s2)) u (p_sys s2) →
  s2 = s <| p_sys := p_sys s2 |> <| p_actions := p_actions s + 1 |> → p < u_next (p_sys s2) → u_cwd (p_sys s2) = u_cwd u →
  u_default (p_sys s2) = u_default u →
  wp (r ← on_sys libc_call;
      if negb (r =? 0) then spawn_failure pe ce1 else
      ok ← spawn_process [ADup2 ce1 (if rd then 1 else 0)] fp command ce pe ce1 (if rd then 1 else 0);
      destroy_actions;;
      if negb ok then spawn_failure pe ce1
      else
        upd_file fp (λ f, f <| pf_no_writes := rd |> <| pf_no_reads := negb rd |>);;
        mret true) Q s2.
Proof.
  intros u P streams t p pe Hf Hc Hn HE HQ Hh W2 Es2 Hp2 Hcwd Hdef.
  assert (Hlater : ∀ u', later nothing (p_sys s2) u' →
    halfway rd p pe ce1 t (u_fds u') ∧ went P (u_fds u') u u').
  { intros u' Hu'. rewrite (later_fds _ _ _ Hu'). split; [done|].
    eapply went_trans; [exact W2|]. apply later_went. by apply later_any. }
  assert (Es : ∀ u', s2 <| p_sys := u' |> = s <| p_sys := u' |> <| p_actions := p_actions s + 1 |>) by (intros u'; by rewrite Es2).
  assert (Hfail : ∀ u' n, later nothing (p_sys s2) u' → n = p_actions s ∨ n = p_actions s + 1 →
    wp (spawn_failure pe ce1) Q (s <| p_sys := u' |> <| p_actions := n |>)).
  { intros u' n Hu' Hn'. destruct (Hlater u' Hu'). eapply (wp_spawn_failure P rd p pe ce1 t _ u); [done..|].
    intros u2 Hu2. by apply (HE u2 n). }
  wp_step. apply wp_on_sys, libc_call_later. intros r u2 Hu2. rewrite Es. wp_step; [by apply Hfail; [|right]|].
  destruct (Hlater u2 Hu2) as [Hh2 Wu2]. wp_step. set (s3 := s <| p_sys := u2 |> <| p_actions := p_actions s + 1 |>).
  eapply (wp_spawn_process rd ce p pe ce1 t fp (mkFile (-1) 0 0 false false) l); [done..| |].
  { intros u' Hu'. unfold destroy_actions. wp_step. apply wp_modify. cbn [negb].
    change (s3 <| p_sys := u' |> <| p_actions := _ |>) with (s <| p_sys := u' |> <| p_actions := p_actions s + 1 - 1 |>).
    apply Hfail; [by etrans|left; lia]. }
  intros pid u3 Hu3 Hpid Hex. unfold destroy_actions. wp_step. apply wp_modify. cbn [negb]. wp_step.
  set (s4 := s <| p_sys := u2 |> <| p_actions := p_actions s + 1 - 1 |>).
  assert (H23 : later nothing (p_sys s2) u3) by by etrans.
  pose proof (later_next _ _ _ Hu2) as Hn2.
  assert (Hnp : p < pid < u_next u3) by (change (p_sys s3) with u2 in Hpid; lia).
  set (u4 := u3 <| u_fds := t |>). set (im := shell_of _ _ _ _ _) in *.
  change (wp (upd_file fp (λ f, f <| pf_no_writes := rd |> <| pf_no_reads := negb rd |>)) (λ _ s, wp (mret true) Q s)
    (with_stream rd ce p pe pid fp (mkFile (-1) 0 0 false false) (start pid im u4) t s4)).
  apply (with_stream_flags rd ce pid fp (start pid im u4) s); [done..|unfold s4; rs; lia|].
  cbn beta. apply wp_ret. apply HQ; [|done| |done].
  - eapply (shell_of_image command rd pe ce1); [done|exact Hh2| |].
    + change (p_sys s3) with u2. by rewrite (later_cwd _ _ _ Hu2).
    + change (p_sys s3) with u2. by rewrite (later_default _ _ _ Hu2).
  - destruct (Hlater u3 H23) as [_ [W _]]. exact W.
Qed.

Lemma wp_proc_open fp l command mode (Q : bool → pstate → Prop) s :
  let u := p_sys s in let P := λ q, u_next u ≤ q in let streams := fileno (p_files s) <$> l in
  p_files s !! fp = Some (mkFile (-1) 0 0 false false) → chain (p_files s) (proc_file_chain s) l → NoDup l →
  (∀ u' n, later P u u' → n = p_actions s ∨ n = p_actions s + 1 → Q false (s <| p_sys := u' |> <| p_actions := n |>)) →
  (∀ rd ce pid im u1, parse_mode mode false false false = Some (rd, negb rd, ce) →
     shell_image command rd streams u im → sys_exec im = None → later P u u1 → u_next u < pid < u_next u1 →
     Q true (popened rd ce pid fp (start pid im u1) s)) →
  wp (proc_open fp command mode) Q s.
Proof.
  intros u P streams Hf Hc Hn HE0 HQ. unfold proc_open.
  assert (HE : ∀ u', later P u u' → Q false (s <| p_sys := u' |>)).
  { intros u' Hu'. specialize (HE0 u' (p_actions s) Hu' (or_introl eq_refl)). by destruct s. }
  assert (Herr : ∀ e, wp (on_sys (set_uerrno e);; mret false) Q s).
  { intros e. wp_step. apply wp_on_sys. unfold set_uerrno. wp_go. apply HE.
    eapply later_one; [apply moves_errno|done]. }
  destruct (parse_mode mode false false false) as [[[rd wr] ce]|] eqn:Em; [|apply Herr].
  destruct (xorb rd wr) eqn:Ex; [cbn [negb]|apply Herr].
  assert (Hwr : wr = negb rd) by (by destruct rd, wr). subst wr.
  wp_step. eapply wp_load_file; [done|]. cbn [pf_fileno]. change (-1 >=? 0) with false. cbn iota.
  wp_step. apply wp_on_sys, wp_pipe2.
  { intros u' Hu'. apply wp_ret, HE. by apply later_any. }
  intros io Hio. rs. set (t := u_fds u). set (p := u_next u).
  pose proof (halfway_pipe rd p t) as Hhw.
  set (s1 := s <| p_sys := piped true (u <| u_io := io |>) |>).
  assert (W1 : went P (pipe_table p true t) u (p_sys s1)) by (apply piped_went; [unfold P; lia|done]).
  change (if rd then pipe_r (u_fds (p_sys s)) else pipe_w (u_next (p_sys s)) true (u_fds (p_sys s)))
    with (end_of rd p t).
  change (if rd then pipe_w (u_next (p_sys s)) true (u_fds (p_sys s)) else pipe_r (u_fds (p_sys s)))
    with (other_end rd p t).
  set (pe := end_of rd p t) in *. set (ce0 := other_end rd p t) in *. cbv zeta.
  (* the child's end is where it is to be, and not where the child wants it *)
  assert (Hgo : ∀ ce1 s2, halfway rd p pe ce1 t (u_fds (p_sys s2)) → went P (u_fds (p_sys s2)) u (p_sys s2) →
    s2 = s <| p_sys := p_sys s2 |> <| p_actions := p_actions s + 1 |> → p < u_next (p_sys s2) → u_cwd (p_sys s2) = u_cwd u →
    u_default (p_sys s2) = u_default u →
    wp (r ← on_sys libc_call;
        if negb (r =? 0) then spawn_failure pe ce1 else
        ok ← spawn_process [ADup2 ce1 (if rd then 1 else 0)] fp command ce pe ce1 (if rd then 1 else 0);
        destroy_actions;;
        if negb ok then spawn_failure pe ce1
        else
          upd_file fp (λ f, f <| pf_no_writes := rd |> <| pf_no_reads := negb rd |>);;
          mret true) Q s2).
  { intros ce1 s2 Hh W2 Es2 Hp2 Hcwd Hdef. apply (wp_proc_open_at fp l command rd ce Q s ce1 s2); try done.
    intros pid im u1. by apply HQ. }
  (* where it is *)
  unfold init_actions at 1. wp_step. apply wp_modify. change (p_actions s1) with (p_actions s).
  set (s2 := s1 <| p_actions := p_actions s + 1 |>). wp_step. wp_step; [|apply wp_ret; apply (Hgo ce0 s2); [exact Hhw|exact W1|done|change (p < p + 1); lia|done|done]].
  assert (Eq : (if rd then 1 else 0) = ce0) by lia. rewrite Eq.
  pose proof Hhw as [_ _ _ [_ Hce] _]. wp_step. apply wp_on_sys.
  eapply wp_dupfd; [exact Hce| |].
  { intros u' Hu'. change (-1 <? 0) with true. apply wp_ret.
    eapply (wp_spawn_failure P rd p pe ce0 t _ u); [done| | |].
    - rs. rewrite (later_fds _ _ _ Hu'). exact Hhw.
    - rs. rewrite (later_fds _ _ _ Hu'). eapply went_trans; [exact W1|]. apply later_went. by apply later_any.
    - intros u2 Hu2. by apply (HE0 u2 (p_actions s + 1)); [|right]. }
  intros u' Hu'. destruct (halfway_moved rd p pe ce0 t _ Hhw) as [Hhw' Hne].
  change (u_fds (p_sys s1)) with (pipe_table p true t) in *. set (tmp := lowest_free _) in *.
  pose proof Hhw' as [_ [_ Htmp] _ _ _].
  destruct (Z.ltb_spec tmp 0); [lia|]. wp_step. apply wp_on_sys, wp_close. rs. apply wp_ret.
  rewrite <- Eq. apply Hgo; rs.
  - rewrite <- Eq in Hhw'. exact Hhw'.
  - eapply went_trans; [exact W1|]. exact (set_fds_went P _ _ u' (later_any _ _ _ Hu')).
  - reflexivity.
  - enough (p + 1 ≤ u_next u') by lia. exact (later_next _ _ _ Hu').
  - by rewrite (later_cwd _ _ _ Hu').
  - by rewrite (later_default _ _ _ Hu').
Qed.
End ProcOpen.

(** * 2.27: the child *)

Section Forked.
Context {Sys : System} {Laws : SystemLaws}.

(** The shell, when the pipe could not be moved to where it is to be. *)
Definition stray_image (command : str) (rd : bool) (streams : list Z) (u : uproc) (im : image) : Prop :=
  im_file im = BSHELL ∧ im_argv im = shell_argv command ∧ im_envp im = sys_environ ∧
  im_cwd im = u_cwd u ∧ im_default im = u_default u ∧
  ∀ k, im_fds im !! k =
    if decide (k ∈ others (if rd then 1 else 0) streams) then None else seen (u_fds u) k.

Lemma wpx_child_closes {E : stop → uproc → Prop} std fds (Q : () → uproc → Prop) u :
  Q () (u <| u_fds := deleted (others std fds) (u_fds u) |>) →
  wpx (mfor fds (λ fd, when (negb (fd =? std)) (close fd))) Q E u.
Proof.
  revert u. induction fds as [|fd fds IH]; intros u HQ; cbn [mfor].
  - apply wpx_ret. cbn in HQ. by destruct u.
  - wpx_step. cbn [others List.filter] in HQ. destruct (fd =? std); cbn [negb when] in *.
    + apply wpx_ret, IH. exact HQ.
    + unfold close. wpx_go. apply IH. exact HQ.
Qed.

Lemma parent_of_own u c t e x st v :
  parent_of u (c <| u_fds := t |> <| u_tried := v |> <| u_exec := x |> <| u_errno := e |> <| u_status := st |>) =
    (parent_of u c) <| u_tried := v |>.
Proof. by destruct c. Qed.

(** The child executes the shell with the table [t]. *)
Definition executed (command : str) (t : fdtable) (u : uproc) (w : stop) (c : uproc) : Prop :=
  let im := mkImage BSHELL (shell_argv command) sys_environ (u_cwd u) (exec_fds t) (u_default u) in
  system_later u c ∧
  match sys_exec im with
  | None => w = Replaced ∧ u_exec c = Some im
  | Some _ => w = Exited ∧ u_status c = 127 * 256
  end.

Definition shell_part (command : str) (std : Z) (streams : list Z) : M uproc () :=
  fds ← from_option_or Fault (Some streams);
  mfor fds (λ fd, when (negb (fd =? std)) (close fd));;
  execve BSHELL (shell_argv command) sys_environ;;
  _exit 127.

Lemma wpx_shell command std streams t u u1 :
  retabled t u u1 →
  wpx (shell_part command std streams)
    (λ _ _, False) (executed command (deleted (others std streams) t) u) u1.
Proof.
  intros R. pose proof (proj2 R) as Et. unfold shell_part. wpx_step. apply wpx_ret. wpx_step.
  apply wpx_child_closes. rewrite Et. unfold execve. wpx_go. rs. unfold executed.
  rewrite (retabled_cwd _ _ _ R), (retabled_default _ _ _ R). set (im := mkImage _ _ _ _ _ _).
  set (T := deleted _ _).
  assert (Hs : ∀ v e x st, system_later u
    (u1 <| u_fds := T |> <| u_tried := v |> <| u_exec := x |> <| u_errno := e |> <| u_status := st |>)).
  { intros v e x st. unfold system_later. rewrite parent_of_own. eapply later_one; [apply moves_tried|].
    exact (retabled_system _ _ _ R). }
  destruct u1 as [f1 e1 cw1 d1 k1 st1 x1 io1 sc1 n1 p1 r1 z1 o1 t1].
  destruct (sys_exec im) as [e|] eqn:Ex; unfold set_uerrno, _exit; wpx_go; split.
  - exact (Hs (t1 ++ [im]) e x1 (127 * 256)).
  - split; reflexivity.
  - exact (Hs (t1 ++ [im]) 0 (Some im) st1).
  - split; reflexivity.
Qed.

Lemma wpx_popen_child (rd : bool) p pe ce t streams command u :
  let std := if rd then 1 else 0 in
  halfway rd p pe ce t (u_fds u) →
  wpx (popen_child ce std (Some streams) command) (λ _ _, False) (λ w c,
    executed command (deleted (others std streams)
      (<[std := (if rd then PipeWrite p else PipeRead p, false)]> (u_fds u))) u w c ∨
    (∃ e, Err e ∈ u_io u) ∧ executed command (deleted (others std streams) (u_fds u)) u w c) u.
Proof.
  intros std Hhw. pose proof Hhw as [_ _ _ [_ Hce] _].
  set (T := <[std := (if rd then PipeWrite p else PipeRead p, false)]> (u_fds u)).
  change (popen_child ce std (Some streams) command) with
    ((if negb (ce =? std) then dup2 ce std;; mret tt else fcntl_clear ce : M uproc ());; shell_part command std streams).
  assert (Hgood : ∀ u', retabled T u u' →
    wpx (shell_part command std streams) (λ _ _, False) (λ w c,
      executed command (deleted (others std streams) T) u w c ∨
      (∃ e, Err e ∈ u_io u) ∧ executed command (deleted (others std streams) (u_fds u)) u w c) u').
  { intros u' R. eapply wpx_mono; [by apply (wpx_shell _ _ _ T u)|done|]. auto. }
  wpx_step. wpx_step.
  - wpx_step. apply wpx_wp. unfold dup2. wp_step. apply wp_answer. intros a u1 H1 Ha.
    pose proof (later_fds _ _ _ H1) as E1.
    assert (Hok : wp (t ← gets u_fds;
      match t !! ce with
      | None => set_uerrno EBADF;; mret (-1)
      | Some (f, _) =>
          when (negb (ce =? std)) (modify (λ x, x <| u_fds := <[std := (f, false)]> (u_fds x) |>));; mret std
      end)
      (λ _ x, retabled T u x) u1).
    { wp_go. rewrite E1, Hce. destruct (Z.eqb_spec ce std); [done|]. cbn [negb when]. wp_go. rewrite E1.
      by apply set_fds_retabled. }
    destruct a as [[e|n]|].
    + destruct (Ha e eq_refl) as [_ Hin]. unfold set_uerrno. wp_go. apply wpx_ret.
      eapply wpx_mono; [apply (wpx_shell _ _ _ (u_fds u) u)|done|].
      * apply later_retabled. eapply later_one; [apply moves_errno|done].
      * intros w c Hc. right. split; [by eexists|done].
    + eapply wp_mono; [exact Hok|]. intros r u2 R. cbn beta. apply wpx_ret. by apply Hgood.
    + eapply wp_mono; [exact Hok|]. intros r u2 R. cbn beta. apply wpx_ret. by apply Hgood.
  - assert (Eq : ce = std) by lia. apply wpx_wp. eapply wp_fcntl_clear; [exact Hce|].
    apply Hgood. rewrite Eq. fold T. apply (set_fds_retabled T u u). done.
Qed.
End Forked.

(** What became of the child: it runs the shell, or there was none to run. *)
Definition born_shell `{!System} (im : image) (pid : Z) (u1 u2 : uproc) : Prop :=
  match sys_exec im with
  | None => u2 = start pid im u1
  | Some _ => u2 = buried pid (127 * 256) u1
  end.

Section ProcOpen227.
Context {Sys : System} {Laws : SystemLaws}.

Lemma executed_born command t u pid w c :
  u_next u ≤ pid →
  executed command t (u <| u_next := pid + 1 |> <| u_kids := [] |> <| u_exec := None |>) w c →
  let im := mkImage BSHELL (shell_argv command) sys_environ (u_cwd u) (exec_fds t) (u_default u) in
  let u1 := parent_of u c in
  later nothing u u1 ∧ pid < u_next u1 ∧ born_shell im pid u1 (born u pid w c).
Proof.
  intros Hp [Hs Hx] im u1. rs in Hx. change (mkImage _ _ _ _ _ _) with im in Hx.
  assert (L : later nothing (u <| u_next := pid + 1 |>) u1).
  { apply (later_parent_of _ u) in Hs. destruct u. exact Hs. }
  pose proof (later_next _ _ _ L) as Hn. rs in Hn.
  split_and!; [|lia|].
  - etrans; [|exact L]. apply rtc_once, moves_next. lia.
  - unfold born_shell. destruct (sys_exec im) as [e|]; destruct Hx as [-> Hx].
    + by rewrite born_exited, Hx.
    + by rewrite (born_replaced _ _ _ _ Hx).
Qed.

Lemma born_fds u pid w c : u_fds (born u pid w c) = u_fds u.
Proof. unfold born. destruct w; try done. destruct (u_exec c); [|done]. by destruct (sys_runs _). Qed.

Lemma popened_fds rd ce pid fp u t s : popened rd ce pid fp (u <| u_fds := t |>) s = popened rd ce pid fp u s.
Proof. by destruct u. Qed.

(** The parent, after the fork or without it. *)
Lemma wp_open_parent P rd ce fp pid u3 (Q : bool → pstate → Prop) s :
  let u := p_sys s in let t := u_fds u in let p := u_next u in let pe := end_of rd p t in let ce0 := other_end rd p t in
  p_files s !! fp = Some (mkFile (-1) 0 0 false false) → halfway rd p pe ce0 t (pipe_table p true t) →
  (∀ pid u', later P u u' →
     Q false (s <| p_sys := u' |> <| p_files := <[fp := mkFile (-1) pid 0 false false]> (p_files s) |>)) →
  u_fds u3 = pipe_table p true t →
  (pid < 0 ∧ later P u (u3 <| u_fds := t |>) ∨ 0 ≤ pid ∧ Q true (popened rd ce pid fp u3 s)) →
  wp (upd_file fp (λ f, f <| pf_pid := pid |>);;
      on_sys (close ce0);;
      if pid <? 0 then on_sys (close pe);; mret false
      else
        when (negb ce) (on_sys (fcntl_clear pe));;
        upd_file fp (λ f, f <| pf_fileno := pe |>);;
        head ← gets proc_file_chain;
        upd_file fp (λ f, f <| pf_next := head |>);;
        modify (λ s, s <| proc_file_chain := fp |>);;
        upd_file fp (λ f, f <| pf_no_writes := rd |> <| pf_no_reads := negb rd |>);;
        mret true) Q (s <| p_sys := u3 |>).
Proof.
  intros u t p pe ce0 Hf Hhw HE Et Hq.
  wp_step. eapply wp_upd_file; [exact Hf|]. wp_step. apply wp_on_sys, wp_close.
  rs. rewrite Et. wp_step.
  - wp_step. apply wp_on_sys, wp_close. wp_step. rs. rewrite (halfway_closed _ _ _ _ _ _ Hhw).
    destruct Hq as [[_ W]|[]]; [|lia]. exact (HE pid (u3 <| u_fds := t |>) W).
  - destruct Hq as [[]|[_ Hq]]; [lia|].
    assert (Hw : wp (when (negb ce) (on_sys (fcntl_clear pe)))
      (λ _ s', s' = s <| p_sys := u3 <| u_fds := <[pe := (pipe_end rd p, ce)]> t |> |>
         <| p_files := <[fp := mkFile (-1) pid 0 false false]> (p_files s) |>)
      (s <| p_sys := u3 <| u_fds := delete ce0 (pipe_table p true t) |> |>
         <| p_files := <[fp := mkFile (-1) pid 0 false false]> (p_files s) |>)).
    { pose proof (halfway_parent rd p pe ce0 t _ ce Hhw) as Hpar.
      pose proof Hhw as [Hne _ [_ Hp] _ _].
      assert (Hpe : delete ce0 (pipe_table p true t) !! pe = Some (if rd then PipeRead p else PipeWrite p, true))
        by by rewrite lookup_delete_ne.
      unfold pipe_end. rewrite <- Hpar. destruct ce; cbn [negb when].
      - apply wp_ret. by rewrite (insert_id (delete ce0 _)) by exact Hpe.
      - apply wp_on_sys. eapply wp_fcntl_clear; [exact Hpe|]. done. }
    wp_step. eapply wp_mono; [exact Hw|]. intros [] s4 ->. cbn beta.
    wp_step. eapply wp_upd_file; [rs; by rewrite lookup_insert_eq|].
    wp_step. apply wp_gets. wp_step. eapply wp_upd_file; [rs; by rewrite lookup_insert_eq|].
    wp_step. apply wp_modify. wp_step. eapply wp_upd_file; [rs; by rewrite lookup_insert_eq|].
    apply wp_ret. rs. rewrite !insert_insert_eq. exact Hq.
Qed.

Lemma wp_proc_open_2_27 fp l command mode (Q : bool → pstate → Prop) s :
  let u := p_sys s in let P := λ q, u_next u ≤ q in let streams := fileno (p_files s) <$> l in
  p_files s !! fp = Some (mkFile (-1) 0 0 false false) → chain (p_files s) (proc_file_chain s) l → NoDup l →
  0 ≤ u_next u →
  (∀ pid u', later P u u' →
     Q false (s <| p_sys := u' |> <| p_files := <[fp := mkFile (-1) pid 0 false false]> (p_files s) |>)) →
  (∀ rd ce pid im u1 u2, parse_mode mode false false false = Some (rd, negb rd, ce) →
     shell_image command rd streams u im ∨ (∃ e, Err e ∈ u_io u) ∧ stray_image command rd streams u im →
     later P u u1 → u_next u < pid < u_next u1 → born_shell im pid u1 u2 →
     Q true (popened rd ce pid fp u2 s)) →
  wp (proc_open_2_27 fp command mode) Q s.
Proof.
  intros u P streams Hf Hc Hn H0 HE HQ. unfold proc_open_2_27.
  assert (HE' : ∀ u', later P u u' → Q false (s <| p_sys := u' |>)).
  { intros u' Hu'. specialize (HE 0 u' Hu'). rs in HE. rewrite insert_id in HE by exact Hf. by destruct s. }
  assert (Herr : ∀ e, wp (on_sys (set_uerrno e);; mret false) Q s).
  { intros e. wp_step. apply wp_on_sys. unfold set_uerrno. wp_go. apply HE'.
    eapply later_one; [apply moves_errno|done]. }
  destruct (parse_mode mode false false false) as [[[rd wr] ce]|] eqn:Em; [|apply Herr].
  destruct (xorb rd wr) eqn:Ex; [cbn [negb]|apply Herr].
  assert (Hwr : wr = negb rd) by (by destruct rd, wr). subst wr.
  wp_step. eapply wp_load_file; [done|]. cbn [pf_fileno]. change (-1 >=? 0) with false. cbn iota.
  wp_step. apply wp_on_sys, wp_pipe2.
  { intros u' Hu'. apply wp_ret, HE'. by apply later_any. }
  intros io Hio. rs. set (t := u_fds u). set (p := u_next u).
  pose proof (halfway_pipe rd p t) as Hhw.
  set (s1 := s <| p_sys := piped true (u <| u_io := io |>) |>).
  assert (W1 : went P (pipe_table p true t) u (p_sys s1)) by (apply piped_went; [unfold P; lia|done]).
  change (if rd then pipe_r (u_fds (p_sys s)) else pipe_w (u_next (p_sys s)) true (u_fds (p_sys s)))
    with (end_of rd p t).
  change (if rd then pipe_w (u_next (p_sys s)) true (u_fds (p_sys s)) else pipe_r (u_fds (p_sys s)))
    with (other_end rd p t).
  set (pe := end_of rd p t) in *. set (ce0 := other_end rd p t) in *. cbv zeta.
  wp_step. apply wp_gets. rs.
  rewrite (chain_fds_chain _ _ _ _ (chain_size _ _ _ Hc Hn) Hc). fold streams.
  (* after the fork *)
  assert (Hgo : ∀ pid u3, u_fds u3 = pipe_table p true t →
    (pid < 0 ∧ later P u (u3 <| u_fds := t |>) ∨ 0 ≤ pid ∧ Q true (popened rd ce pid fp u3 s)) →
    wp (upd_file fp (λ f, f <| pf_pid := pid |>);;
        on_sys (close ce0);;
        if pid <? 0 then on_sys (close pe);; mret false
        else
          when (negb ce) (on_sys (fcntl_clear pe));;
          upd_file fp (λ f, f <| pf_fileno := pe |>);;
          head ← gets proc_file_chain;
          upd_file fp (λ f, f <| pf_next := head |>);;
          modify (λ s, s <| proc_file_chain := fp |>);;
          upd_file fp (λ f, f <| pf_no_writes := rd |> <| pf_no_reads := negb rd |>);;
          mret true) Q (s <| p_sys := u3 |>)).
  { intros pid u3 Et Hq. by apply (wp_open_parent P rd ce fp pid u3 Q s). }
  wp_step. apply wp_on_sys, wp_fork.
  { intros u' Hu'. rs.
    assert (W : went P (pipe_table p true t) u u')
      by exact (went_trans _ _ _ _ _ _ W1 (went_any _ _ _ _ (later_retabled _ _ Hu'))).
    apply Hgo; [exact (proj2 W)|left; split; [lia|exact (proj1 W)]]. }
  intros io2 Hio2 u2. rs. change (u_next u2) with (p + 1).
  assert (L2 : later nothing (p_sys s1) u2) by by apply rtc_once, moves_io.
  assert (Hafter : ∀ T w c, executed command T (u2 <| u_next := p + 1 + 1 |> <| u_kids := [] |> <| u_exec := None |>) w c →
    let im := mkImage BSHELL (shell_argv command) sys_environ (u_cwd u) (exec_fds T) (u_default u) in
    shell_image command rd streams u im ∨ (∃ e, Err e ∈ u_io u) ∧ stray_image command rd streams u im →
    Q true (popened rd ce (p + 1) fp (born u2 (p + 1) w c) s)).
  { intros T w c Hx im Him. destruct (executed_born _ _ u2 (p + 1) w c (Z.le_refl _) Hx) as (H3 & Hn3 & H4).
    change (mkImage _ _ _ _ _ _) with im in H4. set (u3 := parent_of u2 c) in *.
    assert (W3 : went P (pipe_table p true t) u u3).
    { refine (went_trans _ _ _ _ _ _ W1 (went_any _ _ _ _ (later_retabled _ _ _))). by etrans. }
    rewrite <- (popened_fds rd ce (p + 1) fp _ t s). eapply HQ; [reflexivity|exact Him|exact (proj1 W3)| |].
    - split; [unfold p; lia|exact Hn3].
    - unfold born_shell in *. destruct (sys_exec im); rewrite H4; by destruct u3. }
  eapply wpx_mono; [apply (wpx_popen_child rd p pe ce0 t streams command); exact Hhw|done|].
  intros w c Hx. apply Hgo; [exact (born_fds u2 (p + 1) w c)|]. right.
  split; [change (0 ≤ p + 1); unfold p; lia|].
  destruct Hx as [Hx|[He Hx]]; apply (Hafter _ _ _ Hx); [left|right; split].
  - eapply (shell_of_image command rd pe ce0 streams t u u2); [done|exact Hhw|done..].
  - destruct He as [e He]. exists e.
    apply (later_answers P u (u2 <| u_fds := u_fds u |>)); [|exact He].
    exact (proj1 (went_trans _ _ _ _ _ _ W1 (went_any _ _ _ _ (later_retabled _ _ L2)))).
  - split_and!; try done. intros k. cbn [im_fds]. rewrite exec_fds_lookup, deleted_lookup.
    case_decide; [done|]. by apply halfway_seen with (1 := Hhw).
Qed.
End ProcOpen227.

(** * [popen] *)

(** [l] are the open streams, the newest first; [malloc] gives addresses of its own. *)
Record streams (l : list Z) (s : pstate) : Prop := {
  st_chain : chain (p_files s) (proc_file_chain s) l;
  st_nodup : NoDup l;
  st_below q : is_Some (p_files s !! q) → 0 < q < p_break s;
  st_break : 0 < p_break s;
}.

(** Nothing was opened; the object of the file actions may be left over. *)
Definition not_opened s s' : Prop :=
  p_files s' = p_files s ∧ proc_file_chain s' = proc_file_chain s ∧ p_break s ≤ p_break s' ∧
  later (λ q, u_next (p_sys s) ≤ q) (p_sys s) (p_sys s') ∧
  (p_actions s' = p_actions s ∨ p_actions s' = p_actions s + 1).

(** [fp] is a new stream, at the end of a pipe whose other end the new process [pid] has
    as its input or output. *)
Definition opened (starts : str → bool → list Z → uproc → image → Z → uproc → uproc → Prop)
    (command mode : str) (l : list Z) s (fp : Z) s' : Prop :=
  ∃ rd ce pid im u1 u2,
    parse_mode mode false false false = Some (rd, negb rd, ce) ∧
    starts command rd (fileno (p_files s) <$> l) (p_sys s) im pid u1 u2 ∧
    later (λ q, u_next (p_sys s) ≤ q) (p_sys s) u1 ∧ u_next (p_sys s) < pid < u_next u1 ∧
    fp = p_break s ∧ s' = (popened rd ce pid fp u2 s) <| p_break := fp + 1 |>.

Definition starts_2_32 `{!System} command rd fds u im pid u1 u2 : Prop :=
  shell_image command rd fds u im ∧ sys_exec im = None ∧ u2 = start pid im u1.

(** glibc 2.27 does not see that the shell cannot be started, or not be connected. *)
Definition starts_2_27 `{!System} command rd fds u im pid u1 u2 : Prop :=
  (shell_image command rd fds u im ∨ (∃ e, Err e ∈ u_io u) ∧ stray_image command rd fds u im) ∧
  born_shell im pid u1 u2.

Lemma fileno_insert files fp f (l : list Z) : fp ∉ l → fileno (<[fp := f]> files) <$> l = fileno files <$> l.
Proof.
  intros H. apply list_fmap_ext. intros i q Hq. unfold fileno. rewrite lookup_insert_ne; [done|].
  intros ->. apply H. by eapply list_elem_of_lookup_2.
Qed.

Section PopenWith.
Context (starts : str → bool → list Z → uproc → image → Z → uproc → uproc → Prop)
  (open : Z → str → str → M pstate bool).

(** What [popen] relies on of the function that opens. *)
Definition opens (ok : uproc → Prop) : Prop := ∀ fp l command mode (Q : bool → pstate → Prop) s,
  let u := p_sys s in let P := λ q, u_next u ≤ q in let fds := fileno (p_files s) <$> l in
  p_files s !! fp = Some (mkFile (-1) 0 0 false false) → chain (p_files s) (proc_file_chain s) l → NoDup l →
  ok u →
  (∀ f u' n, later P u u' → n = p_actions s ∨ n = p_actions s + 1 →
     Q false (s <| p_sys := u' |> <| p_files := <[fp := f]> (p_files s) |> <| p_actions := n |>)) →
  (∀ rd ce pid im u1 u2, parse_mode mode false false false = Some (rd, negb rd, ce) →
     starts command rd fds u im pid u1 u2 → later P u u1 → u_next u < pid < u_next u1 →
     Q true (popened rd ce pid fp u2 s)) →
  wp (open fp command mode) Q s.

Lemma streams_opened l rd ce pid u s :
  streams l s → streams (p_break s :: l) ((popened rd ce pid (p_break s) u s) <| p_break := p_break s + 1 |>).
Proof.
  intros [Hc Hn Hb H0]. unfold popened.
  assert (Hl : p_break s ∉ l) by (intros Hin; destruct (chain_in _ _ _ _ Hc Hin) as [f Hf]; specialize (Hb _ (mk_is_Some _ _ Hf)); lia).
  split; rs.
  - cbn [chain]. split_and!; [done|lia|]. eexists. rewrite lookup_insert_eq. split; [done|]. cbn [pf_next].
    eapply chain_ext; [|exact Hc]. intros q Hq. rewrite lookup_insert_ne; [done|]. by intros <-.
  - by apply NoDup_cons.
  - intros q. destruct (decide (q = p_break s)) as [->|]; [lia|]. rewrite lookup_insert_ne by done.
    intros H. specialize (Hb q H). lia.
  - lia.
Qed.

Lemma wp_libc_call (Q : Z → uproc → Prop) u :
  (∀ r io, io `suffix_of` u_io u → Q r (u <| u_io := io |>)) → wp libc_call Q u.
Proof.
  intros HQ. unfold libc_call. wp_step. apply wp_next_answer.
  - intros E. wp_go. specialize (HQ 0 (u_io u) ltac:(done)). by destruct u.
  - intros a io E. wp_go. apply HQ. rewrite E. by exists [a].
Qed.

Lemma wp_popen_with ok l command mode s :
  (∀ u io, io `suffix_of` u_io u → ok u → ok (u <| u_io := io |>)) →
  (∀ rd fds u io im pid u1 u2, io `suffix_of` u_io u →
     starts command rd fds (u <| u_io := io |>) im pid u1 u2 → starts command rd fds u im pid u1 u2) →
  opens ok → streams l s → ok (p_sys s) →
  wp (popen_with open command mode) (λ fp s',
    fp = 0 ∧ not_opened s s' ∨ opened starts command mode l s fp s' ∧ streams (fp :: l) s') s.
Proof.
  intros Hok Hst Hopen Hs Hu. pose proof Hs as [Hc Hn Hb H0]. unfold popen_with.
  wp_step. apply wp_on_sys, wp_libc_call. intros r io Hio.
  assert (H1 : later nothing (p_sys s) ((p_sys s) <| u_io := io |>)) by by apply rtc_once, moves_io.
  set (u1 := (p_sys s) <| u_io := io |>) in *. wp_step.
  { wp_step. apply wp_on_sys. unfold set_uerrno. wp_go. left. split; [done|]. split_and!; [done|done|rs; lia| |by left].
    rs. eapply later_one; [apply moves_errno|]. by apply later_any. }
  wp_step. apply wp_gets. wp_step. apply wp_modify. rs. set (fp := p_break s).
  assert (Hfp : p_files s !! fp = None).
  { destruct (p_files s !! fp) eqn:E; [|done]. specialize (Hb fp (mk_is_Some _ _ E)). unfold fp in *. lia. }
  assert (Hl : fp ∉ l) by (intros Hin; destruct (chain_in _ _ _ _ Hc Hin); congruence).
  assert (Hlater : ∀ u', later (λ q, u_next u1 ≤ q) u1 u' → later (λ q, u_next (p_sys s) ≤ q) (p_sys s) u').
  { intros u' Hu'. etrans; [by apply later_any|exact Hu']. }
  set (init := mkFile (-1) 0 0 false false).
  wp_step. apply (Hopen fp l); rs.
  - by rewrite lookup_insert_eq.
  - eapply chain_ext; [|exact Hc]. intros q Hq. rewrite lookup_insert_ne; [done|]. by intros <-.
  - done.
  - by eapply Hok.
  - intros f u' n Hu' Hn'. cbn iota. wp_step. apply wp_modify. apply wp_ret. left. split; [done|].
    unfold not_opened. rs. split_and!; [|done|lia|by apply Hlater|exact Hn'].
    by rewrite insert_insert_eq, delete_insert_id.
  - intros rd ce pid im u2 u3 Em Hi H2 Hpid. rewrite fileno_insert in Hi by done. cbn iota.
    apply wp_ret. right. set (s' := popened _ _ _ _ _ _).
    assert (Es : s' = (popened rd ce pid fp u3 s) <| p_break := fp + 1 |>).
    { unfold s', popened. rs. by rewrite insert_insert_eq. }
    rewrite Es. split; [|by apply streams_opened].
    exists rd, ce, pid, im, u2, u3. split_and!; [done|by eapply Hst|by apply Hlater|exact (proj1 Hpid)|exact (proj2 Hpid)|done|done].
Qed.
End PopenWith.

Section PopenTheorems.
Context {Sys : System} {Laws : SystemLaws}.

Lemma proc_open_opens : opens starts_2_32 proc_open (λ _, True).
Proof.
  intros fp l command mode Q s u P fds Hf Hc Hn _ HE HQ. apply (wp_proc_open fp l); [done..| |].
  - intros u' n Hu' Hn'. specialize (HE (mkFile (-1) 0 0 false false) u' n Hu' Hn'). rs in HE. rewrite insert_id in HE by exact Hf. by destruct s.
  - intros rd ce pid im u1 Em Hi Hx L Hp. by apply (HQ rd ce pid im u1).
Qed.

Lemma proc_open_2_27_opens : opens starts_2_27 proc_open_2_27 (λ u, 0 ≤ u_next u).
Proof.
  intros fp l command mode Q s u P fds Hf Hc Hn Hp HE HQ. apply (wp_proc_open_2_27 fp l); [done..| |].
  - intros pid u' Hu'. specialize (HE (mkFile (-1) pid 0 false false) u' (p_actions s) Hu' (or_introl eq_refl)). by destruct s.
  - intros rd ce pid im u1 u2 Em Hi L Hpid Hb. by apply (HQ rd ce pid im u1 u2).
Qed.

(** C9: from any state with the streams [l] open, [popen] returns, and either nothing was
    opened and the table of descriptors, the streams and the children are as before, or the
    stream returned is the newest of the list, its descriptor is one end of a new pipe
    (close-on-exec when the mode says so), and a new process runs [sh -c command] with the
    other end of the pipe as its input or output, without the descriptors of the streams
    opened before, and otherwise with what the caller would have passed on.  The object of the file actions is
    destroyed when the stream was opened, and may be left when it was not. *)
Theorem popen_opens l command mode s :
  streams l s →
  wp (popen command mode) (λ fp s',
    fp = 0 ∧ not_opened s s' ∨ opened starts_2_32 command mode l s fp s' ∧ streams (fp :: l) s') s.
Proof.
  intros H. eapply wp_popen_with; [| |apply proc_open_opens|exact H|done]; [done|].
  intros rd fds u io im pid u1 u2 _ Hi. exact Hi.
Qed.

(** the version that forks opens the same streams and passes the same descriptors to the
    shell, but returns a stream also when the shell could not be started (the child then
    has ended with status 127), and, when a call was refused, possibly one whose shell is not
    connected to it. *)
Theorem popen_2_27_opens l command mode s :
  streams l s → 0 ≤ u_next (p_sys s) →
  wp (popen_2_27 command mode) (λ fp s',
    fp = 0 ∧ not_opened s s' ∨ opened starts_2_27 command mode l s fp s' ∧ streams (fp :: l) s') s.
Proof.
  intros H Hn. eapply wp_popen_with; [| |apply proc_open_2_27_opens|exact H|exact Hn]; [done|].
  intros rd fds u io im pid u1 u2 Hio [Hi Hb]. split; [|exact Hb].
  destruct Hi as [Hi|[[e He] Hi]]; [by left|right; split; [|exact Hi]]. exists e.
  destruct Hio as [pre ->]. rs in He. set_solver.
Qed.

(** * [pclose] *)

(** What an open stream is made of, but for its place in the list. *)
Definition contents (f : proc_file) := (pf_fileno f, pf_pid f, pf_no_reads f, pf_no_writes f).

Record unlinked (fp : Z) (l1 l2 : list Z) s s' : Prop := {
  ul_streams : streams (l1 ++ l2) s';
  ul_sys : p_sys s' = p_sys s;
  ul_files q : contents <$> p_files s' !! q = contents <$> p_files s !! q;
}.

Lemma NoDup_app_remove (l1 l2 : list Z) x : NoDup (l1 ++ x :: l2) → NoDup (l1 ++ l2).
Proof. intros H. rewrite <- Permutation_middle in H. by apply NoDup_cons in H as []. Qed.

Lemma chain_splice files h pre q g fp f l :
  files !! q = Some g → files !! fp = Some f → NoDup (pre ++ q :: fp :: l) →
  chain files h (pre ++ q :: fp :: l) → chain (<[q := g <| pf_next := pf_next f |>]> files) h (pre ++ q :: l).
Proof.
  intros Hg Hf. revert h. induction pre as [|x pre IH]; intros h; cbn [app chain].
  - intros [Hq Hn]%NoDup_cons (-> & H0 & g' & Hg' & _ & H1 & f' & Hf' & Hc). split_and!; [done..|].
    eexists. rewrite lookup_insert_eq. split; [done|]. rs. eapply chain_ext; [|by simplify_eq; exact Hc].
    intros y Hy. rewrite lookup_insert_ne; [done|]. intros ->. set_solver.
  - intros [Hx Hn]%NoDup_cons (-> & H0 & x' & Hx' & Hc). split_and!; [done..|]. exists x'.
    rewrite lookup_insert_ne by set_solver. split; [done|by apply IH].
Qed.

Lemma wp_unlink fp fuel : ∀ pre l prev p (Q : bool → pstate → Prop) s,
  streams (pre ++ l) s → prev = last pre → chain (p_files s) p l → (length l ≤ fuel)%nat →
  (fp ∉ l → Q false s) →
  (∀ l1 l2 s', l = l1 ++ fp :: l2 → unlinked fp (pre ++ l1) l2 s s' → Q true s') →
  wp (unlink_stream fuel prev p fp) Q s.
Proof.
  induction fuel as [|fuel IH]; intros pre l prev p Q s Hs -> Hc Hfuel HE HQ.
  { destruct l; [|cbn in Hfuel; lia]. cbn in Hc. subst p. cbn. apply wp_ret, HE. set_solver. }
  destruct l as [|q l]; [cbn in Hc; subst p; cbn; apply wp_ret, HE; set_solver|].
  destruct Hc as (-> & H0 & f & Hf & Hc). cbn [unlink_stream]. destruct (Z.eqb_spec q 0); [done|].
  wp_step. eapply wp_load_file; [exact Hf|]. destruct (Z.eqb_spec q fp) as [->|Hne].
  - pose proof Hs as [Hch Hn Hb Hbr].
    assert (Hn' : NoDup (pre ++ l)) by (by eapply NoDup_app_remove).
    destruct (last pre) as [x|] eqn:El.
    + apply last_Some in El as [pre' ->]. rewrite <- !app_assoc in *. cbn [app] in *.
      destruct (chain_in _ _ _ x Hch) as [g Hg]; [set_solver|].
      wp_step. eapply wp_upd_file; [exact Hg|]. apply wp_ret. apply (HQ [] l); [done|].
      rewrite app_nil_r. split; [split|..]; rs.
      * rewrite <- app_assoc. by eapply chain_splice.
      * by rewrite <- app_assoc.
      * intros y Hy. apply Hb. destruct (decide (y = x)) as [->|]; [by eexists|].
        by rewrite lookup_insert_ne in Hy.
      * done.
      * done.
      * intros y. destruct (decide (y = x)) as [->|]; [|by rewrite lookup_insert_ne].
        by rewrite lookup_insert_eq, Hg.
    + apply last_None in El as ->. cbn [app] in *. wp_step. apply wp_modify. apply wp_ret.
      apply (HQ [] l); [done|]. by split; [split|..].
  - apply (IH (pre ++ [q]) l); [by rewrite <- app_assoc|by rewrite last_snoc|done|cbn in Hfuel; lia| |].
    + intros Hl. apply HE. set_solver.
    + intros l1 l2 s' -> Hu. apply (HQ (q :: l1) l2 s'); [done|]. by rewrite <- app_assoc in Hu.
Qed.
End PopenTheorems.

Section Close.
Context {Sys : System} {Laws : SystemLaws}.

(** No call is refused, or interrupted. *)
Definition smooth (u : uproc) : Prop := ∀ e, Err e ∉ u_io u.

Lemma smooth_calm u : smooth u → calm u.
Proof. intros H e He. by destruct (H e). Qed.

Lemma wp_close_result fd v (Q : Z → uproc → Prop) u :
  u_fds u !! fd = Some v →
  (∀ r u', later nothing u u' → r = 0 ∨ r = -1 ∧ (¬ smooth u) →
     Q r (u' <| u_fds := delete fd (u_fds u) |>)) →
  wp (close_result fd) Q u.
Proof.
  intros Hv HQ. unfold close_result. wp_step. apply wp_answer. intros a u1 H1 Ha.
  wp_step. apply wp_gets. rewrite (later_fds _ _ _ H1), Hv. unfold close. wp_go.
  rewrite (later_fds _ _ _ H1).
  assert (Hok : Q 0 (u1 <| u_fds := delete fd (u_fds u) |>)) by (apply HQ; [done|by left]).
  destruct a as [[e|n]|]; [|wp_go; exact Hok..]. unfold set_uerrno. wp_go.
  specialize (HQ (-1) (u1 <| u_errno := e |>)). destruct u1. apply HQ.
  - eapply later_one; [apply moves_errno|exact H1].
  - right. split; [done|]. intros Hs. destruct (Ha e eq_refl) as [_ Hin]. by destruct (Hs e).
Qed.

Lemma reaped_gone pid u : (pid ∉ u_kids (reaped pid u)) ∧ (pid ∉ (u_zombies (reaped pid u)).*1).
Proof.
  unfold reaped. rs. rewrite list_elem_of_fmap. split.
  - intros [_ Hk]%list_elem_of_In%filter_In. lia.
  - intros (z & -> & [_ Hz]%list_elem_of_In%filter_In). lia.
Qed.

Lemma wp_proc_close l fp f v st (Q : Z → pstate → Prop) s :
  let pid := pf_pid f in
  streams l s → fp ∈ l → p_files s !! fp = Some f → u_fds (p_sys s) !! pf_fileno f = Some v →
  0 ≤ pid → pid ∈ u_kids (p_sys s) → known pid (p_sys s) → ends_with pid st (p_sys s) →
  (∀ l1 l2 r s' s1 u1, l = l1 ++ fp :: l2 → unlinked fp l1 l2 s s1 → s' = s1 <| p_sys := u1 |> →
     (r = st ∧ (∃ u', later nothing (p_sys s) u' ∧
         u1 = ((reaped pid u') <| u_fds := delete (pf_fileno f) (u_fds (p_sys s)) |>)) ∨
      r = -1 ∧ (¬ smooth (p_sys s)) ∧ went nothing (delete (pf_fileno f) (u_fds (p_sys s))) (p_sys s) u1) →
     Q r s') →
  wp (proc_close fp) Q s.
Proof.
  intros pid Hs Hin Hf Hv H0 Hk Hkn He HQ. pose proof Hs as [Hc Hn _ _]. unfold proc_close.
  wp_step. apply wp_gets. wp_step. apply wp_gets. wp_step.
  apply (wp_unlink fp _ [] l); [done|done|done|by eapply chain_size|done|].
  intros l1 l2 s1 El Hu. cbn [negb]. pose proof Hu as [_ Es Ec]. specialize (HQ l1 l2).
  assert (Hf1 : ∃ f1, p_files s1 !! fp = Some f1 ∧ pf_fileno f1 = pf_fileno f ∧ pf_pid f1 = pf_pid f).
  { specialize (Ec fp). rewrite Hf in Ec. destruct (p_files s1 !! fp) as [f1|]; [|done].
    exists f1. unfold contents in Ec. cbn in Ec. by simplify_eq. }
  destruct Hf1 as (f1 & Hf1 & Ef & Ep). wp_step. eapply wp_load_file; [exact Hf1|].
  rewrite Ef, Ep. fold pid. wp_step. apply wp_on_sys. rewrite Es. eapply wp_close_result; [exact Hv|].
  intros r u1 L1 Hr. set (T := delete _ _) in *. wp_step.
  { apply wp_ret. destruct Hr as [->|[-> Hr]]; [lia|]. eapply HQ; [done|exact Hu|reflexivity|].
    right. split_and!; [done|done|]. by apply set_fds_went. }
  destruct Hr as [->|[-> _]]; [|lia]. wp_step. apply wp_on_sys. rs.
  set (u2 := u1 <| u_fds := T |>).
  assert (R : ∀ u3, later nothing u2 u3 → ∃ u', later nothing (p_sys s) u' ∧ u3 = u' <| u_fds := T |>).
  { intros u3 L3. exists (u3 <| u_fds := u_fds u1 |>). split.
    - etrans; [exact L1|]. apply (later_with_fds nothing (u_fds u1)) in L3. unfold u2 in L3. by destruct u1.
    - pose proof (later_fds _ _ _ L3) as E. change (u_fds u2) with T in E. rewrite <- E. by destruct u3. }
  apply (wp_wait (λ r : Z * Z, r.1 =? -1)).
  - done.
  - intros x. cbn. lia.
  - change (pid ∈ u_kids u1). by rewrite (later_kids _ _ _ L1).
  - by apply (later_known _ _ _ _ L1).
  - intros u3 L3 Hz. apply wp_ret. cbn [fst snd]. eapply HQ; [done|exact Hu|reflexivity|]. left.
    destruct (R u3 L3) as (u' & L' & ->). split; [|exists u'; split; [exact L'|by destruct u']].
    destruct (Z.eqb_spec pid (-1)); [lia|].
    apply (found_status pid); [|exact Hz]. exact (later_ends_with _ _ _ _ _ L' He).
  - intros u3 L3 Hcalm. apply wp_ret. cbn [fst snd]. eapply HQ; [done|exact Hu|reflexivity|]. right.
    destruct (R u3 L3) as (u' & L' & ->). split_and!; [done| |by apply set_fds_went].
    intros Hs'. apply Hcalm. apply (later_calm _ _ _ L1). by apply smooth_calm.
Qed.

(** [pclose] of a stream that is not in the list changes nothing and returns -1; otherwise
    the stream, and no other, leaves the list, its descriptor is closed, and either the
    status of the shell is returned and the process is gone, or a call was refused and -1 is
    returned with the child still there. *)
Theorem pclose_waits l fp f v st s :
  let u := p_sys s in
  streams l s → p_files s !! fp = Some f → u_fds u !! pf_fileno f = Some v →
  0 ≤ pf_pid f → pf_pid f ∈ u_kids u → known (pf_pid f) u → ends_with (pf_pid f) st u →
  wp (proc_close fp) (λ r s',
    if bool_decide (fp ∈ l) then
      (∃ l1 l2, l = l1 ++ fp :: l2 ∧ streams (l1 ++ l2) s') ∧
      (∀ q, contents <$> p_files s' !! q = contents <$> p_files s !! q) ∧
      u_fds (p_sys s') = delete (pf_fileno f) (u_fds u) ∧
      (r = st ∧ (pf_pid f ∉ u_kids (p_sys s')) ∧ (pf_pid f ∉ (u_zombies (p_sys s')).*1) ∨
       r = -1 ∧ (¬ smooth u) ∧ u_kids (p_sys s') = u_kids u)
    else r = -1 ∧ s' = s) s.
Proof.
  intros u Hs Hf Hv H0 Hk Hkn He. case_bool_decide as Hin.
  - eapply wp_proc_close; [done..|]. intros l1 l2 r s' s1 u1 El [U1 U2 U3] -> Hr.
    split_and!.
    + exists l1, l2. split; [done|]. by destruct U1; split.
    + exact U3.
    + destruct Hr as [[_ (u' & _ & ->)]|(_ & _ & W)]; [done|exact (proj2 W)].
    + destruct Hr as [[-> (u' & L & ->)]|(-> & Hns & W)]; [left|right].
      * split_and!; [done|apply reaped_gone..].
      * split_and!; [done|done|]. exact (later_kids _ _ _ (proj1 W)).
  - unfold proc_close. wp_step. apply wp_gets. wp_step. apply wp_gets. wp_step.
    pose proof Hs as [Hc Hn _ _].
    apply (wp_unlink fp _ [] l); [done|done|done|by eapply chain_size| |].
    + intros _. cbn [negb]. by apply wp_ret.
    + intros l1 l2 s' -> _. set_solver.
Qed.

(** * From opening to closing *)

(** A new process ends with the status of its program. *)
Lemma fresh_started P u u1 pid im : fresh u → later P u u1 → u_next u ≤ pid →
  ends_with pid (sys_runs im).2 (start pid im u1) ∧
  List.filter (λ k, negb (k =? pid)) (u_kids (start pid im u1)) = u_kids u.
Proof.
  intros [_ _ _ Fk Fp Fz] L Hp. destruct (later_known_below _ (u_next u) _ _ L (conj Fp Fz)) as [Bp Bz].
  unfold start, ends_with. rs. split; [split|].
  - intros z Hz E. specialize (Bz z Hz). lia.
  - intros r [Hr| ->%list_elem_of_singleton]%elem_of_app E; [|done]. specialize (Bp r Hr). lia.
  - cbn [List.filter]. rewrite Z.eqb_refl. cbn [negb]. rewrite (later_kids _ _ _ L).
    apply forallb_filter_id, forallb_forall. intros k Hkk%list_elem_of_In. specialize (Fk k Hkk). lia.
Qed.

(** C24: [popen] followed by [pclose] leaves the open streams and the descriptors as they were, in any case.  When no
    stream was opened there is no child either; otherwise [pclose] returns the status the shell ended with and the children are as
    before, or, when a call was refused or interrupted, it may return -1, and then the shell is never waited for: it is still a child. *)
Theorem popen_pclose l command mode s :
  streams l s → fresh (p_sys s) →
  wp (fp ← popen command mode;
      if fp =? 0 then mret None else r ← proc_close fp; mret (Some r))
    (λ o s', streams l s' ∧ (∀ q, q ∈ l → contents <$> p_files s' !! q = contents <$> p_files s !! q) ∧
      u_fds (p_sys s') = u_fds (p_sys s) ∧
      match o with
      | None => u_kids (p_sys s') = u_kids (p_sys s)
      | Some r => ∃ rd im, shell_image command rd (fileno (p_files s) <$> l) (p_sys s) im ∧
          (r = (sys_runs im).2 ∧ u_kids (p_sys s') = u_kids (p_sys s) ∨
           r = -1 ∧ (¬ smooth (p_sys s)) ∧ ∃ pid, u_kids (p_sys s') = pid :: u_kids (p_sys s))
      end) s.
Proof.
  intros Hs Hfr. wp_step. 
  eapply wp_mono; [eapply wp_popen_with; [| |apply proc_open_opens|exact Hs|done]; [done|]|].
  { intros rd fds u io im pid u1 u2 _ Hi. exact Hi. }
  intros fp s1 [[-> (Ef & Eh & Hb & L & _)]|[(rd & ce & pid & im & u1 & u2 & Em & (Him & Hx & ->) & L & Hp & -> & ->) Hs1]].
  - change (0 =? 0) with true. cbn iota. apply wp_ret. split_and!.
    + destruct Hs as [Hc Hn Hbe H0]. split; [by rewrite Ef, Eh|done| |lia]. intros q. rewrite Ef.
      intros H. specialize (Hbe q H). lia.
    + intros q _. by rewrite Ef.
    + by rewrite (later_fds _ _ _ L).
    + by rewrite (later_kids _ _ _ L).
  - pose proof Hs as [_ _ Hbe H0]. destruct (Z.eqb_spec (p_break s) 0); [lia|]. set (fp := p_break s) in *.
    set (s1 := _ <| p_break := fp + 1 |>) in *.
    destruct (fresh_started _ _ _ pid im Hfr L (Z.lt_le_incl _ _ (proj1 Hp))) as [He Hk].
    wp_step. eapply (wp_proc_close (fp :: l) fp); [exact Hs1|set_solver|..].
    + unfold s1, popened. rs. apply lookup_insert_eq.
    + unfold s1, popened. rs. cbn [pf_fileno]. apply lookup_insert_eq.
    + cbn [pf_pid]. destruct Hfr. lia.
    + unfold s1, popened, start. rs. set_solver.
    + left. unfold s1, popened, start. rs. rewrite fmap_app. set_solver.
    + exact He.
    + cbn [pf_pid pf_fileno]. change (u_fds (p_sys s1)) with (<[end_of rd (u_next (p_sys s)) (u_fds (p_sys s)) :=
        (pipe_end rd (u_next (p_sys s)), ce)]> (u_fds (p_sys s))).
      pose proof (hw_parent _ _ _ _ _ _ (halfway_pipe rd (u_next (p_sys s)) (u_fds (p_sys s)))) as [Hpe _].
      rewrite delete_insert_id by exact Hpe. intros l1 l2 r s' s2 u3 El [U1 U2 U3] -> Hr.
      assert (Hl : fp ∉ l) by (destruct Hs1 as [_ [? _]%NoDup_cons _ _]; done).
      destruct l1 as [|x l1]; [|exfalso; apply Hl; injection El as _ ->; set_solver].
      injection El as <-. apply wp_ret. split_and!.
      * by destruct U1; split.
      * intros q Hq. rs. rewrite U3. unfold s1, popened. rs. rewrite lookup_insert_ne; [done|]. by intros <-.
      * destruct Hr as [[_ (u' & _ & ->)]|(_ & _ & W)]; [done|exact (proj2 W)].
      * exists rd, im. split; [done|]. destruct Hr as [[-> (u' & L' & ->)]|(-> & Hns & W)]; [left|right].
        -- split; [done|]. rewrite <- Hk. unfold reaped. rs. by rewrite (later_kids _ _ _ L').
        -- split_and!; [done| |].
           ++ intros Hsm. apply Hns. intros e Hin. apply (Hsm e). by apply (later_answers _ _ _ _ L).
           ++ exists pid. pose proof (later_kids _ _ _ (proj1 W)) as Ek. unfold s1, popened, start in Ek. rs in Ek. rs. by rewrite Ek, (later_kids _ _ _ L).
Qed.
End Close.

(** * At concrete states *)

Definition demo_streams (io : list answer) : pstate := mkP (demo_parent <| u_io := io |>) ∅ 0 1 0.

Lemma demo_streams_ok io : streams [] (demo_streams io).
Proof. split; [done|constructor|by intros q [? ?]|done]. Qed.
Lemma demo_streams_fresh io : fresh (p_sys (demo_streams io)).
Proof. destruct demo_fresh. by split. Qed.

Lemma popen_opens_witness :
  ∃ s', popen (lit "ls") (lit "re") (demo_streams []) = Done 1 s' ∧ streams [1] s' ∧
    opened starts_2_32 (lit "ls") (lit "re") [] (demo_streams []) 1 s'.
Proof.
  pose proof (popen_opens [] (lit "ls") (lit "re") (demo_streams []) (demo_streams_ok [])) as H.
  apply wp_done in H as (fp & s' & E & H). exists s'.
  assert (Er : match popen (lit "ls") (lit "re") (demo_streams []) with Done fp _ => fp | _ => 0 end = 1)
    by (by vm_compute).
  rewrite E in Er. subst fp. split; [exact E|]. destruct H as [[H _]|[H1 H2]]; [done|by split].
Defined.

Lemma popen_2_27_opens_witness :
  ∃ s', popen_2_27 (lit "ls") (lit "w") (demo_streams []) = Done 1 s' ∧ streams [1] s' ∧
    opened starts_2_27 (lit "ls") (lit "w") [] (demo_streams []) 1 s'.
Proof.
  assert (Hn : 0 ≤ u_next (p_sys (demo_streams []))) by (by vm_compute).
  pose proof (popen_2_27_opens [] (lit "ls") (lit "w") (demo_streams []) (demo_streams_ok []) Hn) as H.
  apply wp_done in H as (fp & s' & E & H). exists s'.
  assert (Er : match popen_2_27 (lit "ls") (lit "w") (demo_streams []) with Done fp _ => fp | _ => 0 end = 1)
    by (by vm_compute).
  rewrite E in Er. subst fp. split; [exact E|]. destruct H as [[H _]|[H1 H2]]; [done|by split].
Defined.

Lemma popen_pclose_witness :
  ∃ s', (fp ← popen (lit "ls") (lit "r");
         if fp =? 0 then mret None else r ← proc_close fp; mret (Some r)) (demo_streams []) = Done (Some 768) s' ∧
    u_fds (p_sys s') = std_table.
Proof.
  pose proof (popen_pclose [] (lit "ls") (lit "r") (demo_streams []) (demo_streams_ok []) (demo_streams_fresh [])) as H.
  apply wp_done in H as (o & s' & E & _ & _ & Ef & _). exists s'. split; [|exact Ef]. rewrite E. f_equal.
  assert (Er : match (fp ← popen (lit "ls") (lit "r");
         if fp =? 0 then mret None else r ← proc_close fp; mret (Some r)) (demo_streams []) with Done o _ => o | _ => None end = Some 768)
    by (by vm_compute).
  by rewrite E in Er.
Defined.

(** glibc 2.27 does not look at the result of [dup2]: when the call is interrupted, the
    stream is opened all the same, and the shell writes on the caller's own output. *)
Example popen_2_27_unconnected :
  match popen_2_27 (lit "ls") (lit "r") (demo_streams [Count 1; Count 1; Count 1; Err EINTR]) with
  | Done fp s => fp = 1 ∧ (λ r, r_fds r !! 1) <$> u_running (p_sys s) = [Some (Other 1)]
  | Stop _ _ => False
  end.
Proof. by vm_compute. Qed.

(** When [close] is interrupted the descriptor is gone, the stream is no longer in the
    list, and the shell is never waited for. *)
Example pclose_interrupted :
  match (fp ← popen (lit "ls") (lit "r"); proc_close fp) (demo_streams [Count 1; Count 1; Count 1; Count 1; Err EINTR]) with
  | Done r s => r = -1 ∧ proc_file_chain s = 0 ∧ u_fds (p_sys s) = std_table ∧ u_kids (p_sys s) = [2]
  | Stop _ _ => False
  end.
Proof. by vm_compute. Qed.

(** When the descriptor cannot be moved, or the first action not be added, the object is left. *)
Example popen_leaves_actions :
  match popen (lit "ls") (lit "r") (demo_streams [Count 1; Count 1; Err ENOMEM]) with
  | Done fp s => fp = 0 ∧ u_fds (p_sys s) = std_table ∧ p_actions s = 1
  | Stop _ _ => False
  end.
Proof. by vm_compute. Qed.

(** One stream is open, its shell has ended. *)
Definition demo_file : proc_file := mkFile 3 2 0 false true.
Definition demo_open : pstate :=
  mkP (demo_parent <| u_io := [] |> <| u_fds := <[3 := (PipeRead 1, false)]> std_table |>
         <| u_kids := [2] |> <| u_zombies := [(2, 768)] |>)
    {[1 := demo_file]} 1 2 0.

Lemma demo_open_ok : streams [1] demo_open.
Proof.
  split; [split_and!; [done|done|by exists demo_file]|by apply NoDup_singleton| |done].
  intros q [f Hf]. change (({[1 := demo_file]} : gmap Z proc_file) !! q = Some f) in Hf.
  apply lookup_singleton_Some in Hf as [<- _]. cbn. lia.
Qed.

Lemma pclose_waits_witness :
  ∃ s', proc_close 1 demo_open = Done 768 s' ∧ u_fds (p_sys s') = delete 3 (u_fds (p_sys demo_open)).
Proof.
  assert (He : ends_with 2 768 (p_sys demo_open)).
  { split; [|by intros r ?%elem_of_nil]. by intros z ->%list_elem_of_singleton. }
  pose proof (pclose_waits [1] 1 demo_file (PipeRead 1, false) 768 demo_open demo_open_ok
    eq_refl eq_refl ltac:(done) ltac:(by left) ltac:(by right; left) He) as H.
  apply wp_done in H as (r & s' & E & H). rewrite bool_decide_true in H by by left.
  destruct H as (_ & _ & Ef & _). exists s'. split; [|exact Ef]. rewrite E. f_equal.
  assert (Er : match proc_close 1 demo_open with Done r _ => r | _ => 0 end = 768) by (by vm_compute).
  by rewrite E in Er.
Defined.
