(* ===== verification/FrameIpc.v ===== *)
(** Frames in shared memory: frame_ipc.c (and the semaphore calls of sem_test.c).

    A frame goes from one process to another through a System V segment whose first
    [int] says whether it is occupied; a semaphore counts the frames that were sent.
    System V IPC is part of the state: segments and semaphores by identifier, with the
    memory, the keys and the undo counters that the functions rely on. *)
From Stdlib Require Import Ascii.
From S2P Require Import Prelude.

(** * System V IPC *)

Definition EINTR := 4.
Definition ENOENT := 2.
Definition EEXIST := 17.
Definition EINVAL := 22.
Definition ERANGE := 34.
Definition SEMVMX := 32767.              (* the largest value of a semaphore *)
Definition SEMAEM := 32767.              (* the largest undo counter *)
Definition PAGE := 4096.

(** A segment removed while attached has no key any more. *)
Record segment := mkSeg { sg_key : option Z; sg_bytes : list Z; sg_nattch : Z }.
#[export] Instance eta_segment : Eta segment := λ g, mkSeg (sg_key g) (sg_bytes g) (sg_nattch g).

Record semaphore := mkSem { ss_key : Z; ss_val : Z }.
#[export] Instance eta_semaphore : Eta semaphore := λ x, mkSem (ss_key x) (ss_val x).

(** A process: the variables of frame_ipc.c, where it has segments attached, [errno] and
    what the kernel has to undo when it ends. *)
Record proc := mkProc {
  g_flag : Z; g_addr : list Z;           (* 0 is NULL *)
  maps : gmap Z Z; next_addr : Z; errno : Z; semadj : gmap Z Z;
}.
#[export] Instance eta_proc : Eta proc := λ p, mkProc
  (g_flag p) (g_addr p) (maps p) (next_addr p) (errno p) (semadj p).

(** The system and the process that runs; [refusals] are errors to come, call by call. *)
Record ipc := mkIpc {
  segs : gmap Z segment; sems : gmap Z semaphore; next_id : Z; refusals : list (option Z);
  me : proc;
}.
#[export] Instance eta_ipc : Eta ipc := λ s, mkIpc (segs s) (sems s) (next_id s) (refusals s) (me s).

Record IPC_IDS := mkIds { shm_id : Z; sem_id : Z }.
#[export] Instance eta_ids : Eta IPC_IDS := λ i, mkIds (shm_id i) (sem_id i).

(** [ftok ("/usr/lib", id)], of a directory that is there. *)
Class Ftok := ftok : Z → Z.

Implicit Types s : ipc.

Definition upd_me (f : proc → proc) : M ipc () := modify (λ s, s <| me := f (me s) |>).
Definition set_errno (e : Z) : M ipc () := upd_me (λ p, p <| errno := e |>).
Definition failing (e : Z) : M ipc Z := set_errno e;; mret (-1).

(** The error of the next call, if it is refused. *)
Definition refusal : M ipc (option Z) := λ s,
  match refusals s with
  | [] => Done None s
  | r :: rs => Done r (s <| refusals := rs |>)
  end.

Definition pages (size : Z) : Z := PAGE * ((size + PAGE - 1) / PAGE).

(** The identifier with a key. *)
Definition find_key {A} (key_of : A → option Z) (key : Z) (m : gmap Z A) : option Z :=
  fst <$> List.find (λ v : Z * A, bool_decide (key_of v.2 = Some key)) (map_to_list m).

(** [shmget (key, size, IPC_CREAT | IPC_EXCL | 0666)]: new, and zero. *)
Definition shmget_new (key size : Z) : M ipc Z :=
  r ← refusal;
  match r with
  | Some e => failing e
  | None =>
      s ← gets id;
      match find_key sg_key key (segs s) with
      | Some _ => failing EEXIST
      | None =>
          if size <=? 0 then failing EINVAL
          else
            let g := mkSeg (Some key) (replicate (Z.to_nat (pages size)) 0) 0 in
            modify (λ s, s <| segs := <[next_id s := g]> (segs s) |> <| next_id := next_id s + 1 |>);;
            mret (next_id s)
      end
  end.
(** [shmget (key, 0, 0)]. *)
Definition shmget_old (key : Z) : M ipc Z :=
  r ← refusal;
  match r with
  | Some e => failing e
  | None =>
      s ← gets id;
      match find_key sg_key key (segs s) with
      | Some id => mret id
      | None => failing ENOENT
      end
  end.
(** [shmctl (id, IPC_RMID, 0)]: an attached segment only loses its key. *)
Definition shm_remove (id : Z) : M ipc Z :=
  s ← gets segs;
  match s !! id with
  | None => failing EINVAL
  | Some g =>
      modify (λ s, s <| segs := if sg_nattch g =? 0 then delete id (segs s)
                                else <[id := g <| sg_key := None |>]> (segs s) |>);;
      mret 0
  end.

(** [semget (key, 1, IPC_CREAT | IPC_EXCL | 0666)], [semget (key, 1, 0666)]. *)
Definition semget_new (key : Z) : M ipc Z :=
  r ← refusal;
  match r with
  | Some e => failing e
  | None =>
      s ← gets id;
      match find_key (λ x, Some (ss_key x)) key (sems s) with
      | Some _ => failing EEXIST
      | None =>
          modify (λ s, s <| sems := <[next_id s := mkSem key 0]> (sems s) |> <| next_id := next_id s + 1 |>);;
          mret (next_id s)
      end
  end.
Definition semget_old (key : Z) : M ipc Z :=
  r ← refusal;
  match r with
  | Some e => failing e
  | None =>
      s ← gets id;
      match find_key (λ x, Some (ss_key x)) key (sems s) with
      | Some id => mret id
      | None => failing ENOENT
      end
  end.
(** [semctl (id, n, IPC_RMID)]: the number is ignored. *)
Definition sem_remove (id : Z) : M ipc Z :=
  x ← gets (λ s, sems s !! id);
  match x with
  | None => failing EINVAL
  | Some _ => modify (λ s, s <| sems := delete id (sems s) |>);; mret 0
  end.
(** [semctl (id, 0, SETVAL, v)]: undo counters are cleared. *)
Definition sem_setval (id v : Z) : M ipc Z :=
  x ← gets (λ s, sems s !! id);
  match x with
  | None => failing EINVAL
  | Some x =>
      if (v <? 0) || (SEMVMX <? v) then failing ERANGE
      else
        modify (λ s, s <| sems := <[id := x <| ss_val := v |>]> (sems s) |>);;
        upd_me (λ p, p <| semadj := delete id (semadj p) |>);;
        mret 0
  end.

(** [semop] with one operation: it waits while the value would be negative. *)
Definition semop (id op : Z) (undo : bool) : M ipc Z :=
  r ← refusal;
  match r with
  | Some e => failing e
  | None =>
      x ← gets (λ s, sems s !! id);
      match x with
      | None => failing EINVAL
      | Some x =>
          adj ← gets (λ s, default 0 (semadj (me s) !! id));
          let adj := if undo then adj - op else adj in
          if ss_val x + op <? 0 then stop_with Blocked
          else if SEMVMX <? ss_val x + op then failing ERANGE
          else if (adj <? - SEMAEM - 1) || (SEMAEM <? adj) then failing ERANGE
          else
            modify (λ s, s <| sems := <[id := x <| ss_val := ss_val x + op |>]> (sems s) |>);;
            when undo (upd_me (λ p, p <| semadj := <[id := adj]> (semadj p) |>));;
            mret 0
      end
  end.

(** [shmat (id, NULL, 0)] and [shmdt]. *)
Definition shmat (id : Z) : M ipc Z :=
  r ← refusal;
  match r with
  | Some e => failing e
  | None =>
      g ← gets (λ s, segs s !! id);
      match g with
      | None => failing EINVAL
      | Some g =>
          a ← gets (λ s, next_addr (me s));
          modify (λ s, s <| segs := <[id := g <| sg_nattch := sg_nattch g + 1 |>]> (segs s) |>);;
          upd_me (λ p, p <| maps := <[a := id]> (maps p) |>
                         <| next_addr := a + Z.max PAGE (Z.of_nat (length (sg_bytes g))) |>);;
          mret a
      end
  end.
Definition shmdt (a : Z) : M ipc Z :=
  id ← gets (λ s, maps (me s) !! a);
  match id with
  | None => failing EINVAL
  | Some id =>
      g ← gets (λ s, segs s !! id);
      upd_me (λ p, p <| maps := delete a (maps p) |>);;
      match g with
      | None => mret 0
      | Some g =>
          let g := g <| sg_nattch := sg_nattch g - 1 |> in
          modify (λ s, s <| segs := if (sg_nattch g =? 0) && bool_decide (sg_key g = None)
                                    then delete id (segs s) else <[id := g]> (segs s) |>);;
          mret 0
      end
  end.

(** The end of a process: the kernel takes back what it did to semaphores, and detaches
    its segments. *)
Definition undo_one (id adj : Z) (m : gmap Z semaphore) : gmap Z semaphore :=
  alter (λ x, x <| ss_val := Z.max 0 (Z.min SEMVMX (ss_val x + adj)) |>) id m.
Definition exit_process : M ipc () :=
  modify (λ s, s <| sems := map_fold undo_one (sems s) (semadj (me s)) |>);;
  addrs ← gets (λ s, (map_to_list (maps (me s))).*1);
  mfor addrs (λ a, shmdt a;; mret ());;
  upd_me (λ p, p <| semadj := ∅ |>).

(** ** Memory *)

(** The bytes from [a + off] on, where [a] is where a segment is attached. *)
Definition load_bytes (a : Z) (off n : nat) : M ipc (list Z) :=
  id ← gets (λ s, maps (me s) !! a);
  id ← from_option_or Fault id;
  g ← gets (λ s, segs s !! id);
  g ← from_option_or Fault g;
  if bool_decide (off + n ≤ length (sg_bytes g))%nat
  then mret (take n (drop off (sg_bytes g))) else stop_with Fault.
Definition store_bytes (a : Z) (off : nat) (buf : list Z) : M ipc () :=
  id ← gets (λ s, maps (me s) !! a);
  id ← from_option_or Fault id;
  g ← gets (λ s, segs s !! id);
  g ← from_option_or Fault g;
  if bool_decide (off + length buf ≤ length (sg_bytes g))%nat
  then modify (λ s, s <| segs := <[id := g <| sg_bytes := list_inserts off buf (sg_bytes g) |>]> (segs s) |>)
  else stop_with Fault.

(** [*(int * ) a] is zero. *)
Definition int_is_zero (bytes : list Z) : bool := forallb (λ b, b =? 0) (take 4 bytes).
Definition zero_int : list Z := [0; 0; 0; 0].

(** * frame_ipc.c *)

Definition CREAT : Z := 0.

(** [sem_op_], with or without SEM_UNDO: the library sets it, sem_test.c does not. *)
Definition sem_op_ (undo : bool) (opt : ascii) (sem_id : Z) : M ipc Z :=
  let op := if Ascii.eqb opt "p"%char then -1 else 1 in
  r ← semop sem_id op undo;
  mret (if r =? -1 then -1 else 0).

Section FrameIpc.
Context {FT : Ftok}.

Definition shm_key (flag : Z) : Z := ftok (115 + flag).    (* 's' *)
Definition sem_key (flag : Z) : Z := ftok (97 + flag).     (* 'a' *)

(** The first part of [CreateSharedFrame]: remove a segment of that name, and again. *)
Definition create_segment (size : Z) : M ipc Z :=
  flag ← gets (λ s, g_flag (me s));
  let key := shm_key flag in
  shm_id ← shmget_new key size;
  if shm_id <? 0 then
    e ← gets (λ s, errno (me s));
    if e =? EEXIST then
      shm_id ← shmget_old key;
      shm_remove shm_id;;
      shmget_new key size
    else mret shm_id
  else mret shm_id.
Definition create_semaphore : M ipc Z :=
  flag ← gets (λ s, g_flag (me s));
  let key := sem_key flag in
  sem_id ← semget_new key;
  if sem_id <? 0 then
    e ← gets (λ s, errno (me s));
    if e =? EEXIST then
      sem_id ← semget_old key;
      sem_remove sem_id;;
      semget_new key
    else mret sem_id
  else mret sem_id.

Definition CreateSharedFrame (size : Z) : M ipc (IPC_IDS * Z) :=
  shm_id ← create_segment size;
  sem_id ← create_semaphore;
  sem_setval sem_id 0;;
  addr ← shmat shm_id;
  store_bytes addr 0 zero_int;;
  shmdt addr;;
  upd_me (λ p, p <| g_flag := g_flag p + 1 |>);;
  no_memory ← refusal;                      (* [realloc], then [memset] *)
  when (bool_decide (is_Some no_memory)) (stop_with Fault);;
  upd_me (λ p, p <| g_addr := replicate (Z.to_nat (g_flag p)) 0 |>);;
  mret (mkIds shm_id sem_id, 0).

(** [memcpy] from a buffer that may be NULL, when there is something to copy. *)
Definition copy_in (a : Z) (off : nat) (buf : option (list Z)) (len : Z) : M ipc () :=
  match buf with
  | Some b =>
      when (0 <? len)
        (if bool_decide (Z.to_nat len ≤ length b)%nat then store_bytes a off (take (Z.to_nat len) b)
         else stop_with Fault)
  | None => mret ()
  end.

Definition SendSharedFrame (flag : Z) (ids : IPC_IDS) (extra_data : option (list Z)) (extra_len : Z)
    (data : option (list Z)) (len : Z) : M ipc Z :=
  addrs ← gets (λ s, g_addr (me s));
  a ← (if flag <? 0 then stop_with Fault else from_option_or Fault (addrs !! Z.to_nat flag));
  a ← (if a =? 0 then
         a ← shmat (shm_id ids);
         upd_me (λ p, p <| g_addr := <[Z.to_nat flag := a]> (g_addr p) |>);;
         mret a
       else mret a);
  head ← load_bytes a 0 4;
  if int_is_zero head then
    if a =? -1 then mret (-1)
    else
      copy_in a 0 extra_data extra_len;;
      (if (extra_len <? 0) && (0 <? len) && bool_decide (is_Some data) then stop_with Fault
       else copy_in a (Z.to_nat extra_len) data len);;
      sem_op_ true "v"%char (sem_id ids);;
      mret 0
  else mret (-1).

Definition GetFrameStart (flag : Z) : M ipc (IPC_IDS * Z) :=
  shm_id ← shmget_old (shm_key flag);
  sem_id ← semget_old (sem_key flag);
  mret (mkIds shm_id sem_id, if (shm_id <? 0) || (sem_id <? 0) then -1 else 0).

(** The frame that was copied, and where the segment is attached. *)
Definition AttachSharedFrame (ids : IPC_IDS) (len : nat) : M ipc (list Z * Z) :=
  sem_op_ true "p"%char (sem_id ids);;
  addr ← shmat (shm_id ids);
  frame ← load_bytes addr 0 len;
  mret (frame, addr).

Definition DeattachSharedFrame (addr : Z) : M ipc () :=
  store_bytes addr 0 zero_int;;
  shmdt addr;;
  mret ().

Definition DestroySharedFrame (ids : IPC_IDS) : M ipc () :=
  shm_remove (shm_id ids);;
  sem_remove (sem_id ids);;
  mret ().
End FrameIpc.

(** * The calls, when none is refused *)

Lemma wp_no_refusal (Q : option Z → ipc → Prop) s :
  refusals s = [] → Q None s → wp refusal Q s.
Proof. unfold wp, refusal. by intros ->. Qed.

Lemma wp_semop id op undo x (Q : Z → ipc → Prop) s :
  let adj := default 0 (semadj (me s) !! id) - op in
  refusals s = [] → sems s !! id = Some x → 0 ≤ ss_val x + op ≤ SEMVMX →
  - SEMAEM - 1 ≤ adj ≤ SEMAEM → undo = true →
  Q 0 (s <| sems := <[id := x <| ss_val := ss_val x + op |>]> (sems s) |>
         <| me := (me s) <| semadj := <[id := adj]> (semadj (me s)) |> |>) →
  wp (semop id op undo) Q s.
Proof.
  intros adj Hr Hx Hv Ha -> HQ. unfold semop. wp_step. apply wp_no_refusal; [done|].
  wp_step. apply wp_gets. rewrite Hx. wp_step. apply wp_gets. cbn iota. fold adj.
  destruct (Z.ltb_spec (ss_val x + op) 0); [lia|]. destruct (Z.ltb_spec SEMVMX (ss_val x + op)); [lia|].
  destruct (Z.ltb_spec adj (- SEMAEM - 1)), (Z.ltb_spec SEMAEM adj); try lia. cbn [orb when].
  unfold upd_me. by wp_go.
Qed.

Lemma wp_shmat id g (Q : Z → ipc → Prop) s :
  refusals s = [] → segs s !! id = Some g →
  Q (next_addr (me s)) (s <| segs := <[id := g <| sg_nattch := sg_nattch g + 1 |>]> (segs s) |>
    <| me := (me s) <| maps := <[next_addr (me s) := id]> (maps (me s)) |>
               <| next_addr := next_addr (me s) + Z.max PAGE (Z.of_nat (length (sg_bytes g))) |> |>) →
  wp (shmat id) Q s.
Proof.
  intros Hr Hg HQ. unfold shmat. wp_step. apply wp_no_refusal; [done|]. wp_step. apply wp_gets. rewrite Hg.
  unfold upd_me. by wp_go.
Qed.

Lemma wp_shmdt a id g (Q : Z → ipc → Prop) s :
  maps (me s) !! a = Some id → segs s !! id = Some g → is_Some (sg_key g) →
  Q 0 (s <| segs := <[id := g <| sg_nattch := sg_nattch g - 1 |>]> (segs s) |>
         <| me := (me s) <| maps := delete a (maps (me s)) |> |>) →
  wp (shmdt a) Q s.
Proof.
  intros Ha Hg [k Hk] HQ. unfold shmdt. wp_step. apply wp_gets. rewrite Ha. wp_step. apply wp_gets.
  rewrite Hg. unfold upd_me. wp_go. rs. rewrite Hk, (bool_decide_false (Some k = None)) by done.
  rewrite andb_false_r. exact HQ.
Qed.

Lemma wp_load_bytes a id g off n (Q : list Z → ipc → Prop) s :
  maps (me s) !! a = Some id → segs s !! id = Some g → (off + n ≤ length (sg_bytes g))%nat →
  Q (take n (drop off (sg_bytes g))) s → wp (load_bytes a off n) Q s.
Proof.
  intros Ha Hg Hn HQ. unfold load_bytes. wp_step. apply wp_gets. wp_step. eapply wp_from_option; [exact Ha|].
  wp_step. apply wp_gets. wp_step. eapply wp_from_option; [exact Hg|]. rewrite bool_decide_true by done. by wp_go.
Qed.

Lemma wp_store_bytes a id g off buf (Q : () → ipc → Prop) s :
  maps (me s) !! a = Some id → segs s !! id = Some g → (off + length buf ≤ length (sg_bytes g))%nat →
  Q () (s <| segs := <[id := g <| sg_bytes := list_inserts off buf (sg_bytes g) |>]> (segs s) |>) →
  wp (store_bytes a off buf) Q s.
Proof.
  intros Ha Hg Hn HQ. unfold store_bytes. wp_step. apply wp_gets. wp_step. eapply wp_from_option; [exact Ha|].
  wp_step. apply wp_gets. wp_step. eapply wp_from_option; [exact Hg|]. rewrite bool_decide_true by done. by wp_go.
Qed.

Lemma inserts_prefix (pre buf l : list Z) :
  pre `prefix_of` l → (length pre + length buf ≤ length l)%nat →
  pre ++ buf `prefix_of` list_inserts (length pre) buf l.
Proof.
  intros [k ->] Hl. rewrite length_app in Hl.
  pose proof (list_inserts_app_r buf pre k 0) as E. rewrite Nat.add_0_r in E. rewrite E.
  apply prefix_app. rewrite <- (take_drop (length buf) k), list_inserts_0_r by (rewrite length_take; lia).
  by eexists.
Qed.

(** * A mailbox

    What the library promises: a box for one frame. *)

Inductive box := Empty | Full (f : list Z) | Taken (f : list Z) (a : Z).

(** The sender sends; the receiver takes some bytes of the frame, and gives the place
    back. *)
Inductive op := Send (extra data : list Z) | Take (len : nat) | Free (a : Z).
Inductive outcome := Sent | Refused | Frame (l : list Z) (a : Z) | Freed.

(** [None]: the operation waits.  The address is the receiver's affair. *)
Definition spec_op (o : op) (a : Z) (b : box) : option (outcome * box) :=
  match o, b with
  | Send extra data, Empty => Some (Sent, Full (extra ++ data))
  | Send _ _, _ => Some (Refused, b)
  | Take len, Full f => Some (Frame (take len f) a, Taken f a)
  | Take _, _ => None
  | Free _, Taken _ _ => Some (Freed, Empty)
  | Free _, _ => None
  end.

(** What callers have to keep to: the first [int] of a frame is not zero, it fits; no more
    is taken than was sent; only a frame that was taken is given back. *)
Definition allowed (cap : nat) (o : op) (b : box) : Prop :=
  match o with
  | Send extra data => int_is_zero (extra ++ data) = false ∧ (4 ≤ length (extra ++ data) ≤ cap)%nat
  | Take len => match b with Full f => (len ≤ length f)%nat | _ => True end
  | Free a => ∃ f, b = Taken f a
  end.

(** The two processes: the sender in the state, the receiver besides. *)
Record world := mkWorld { w_ipc : ipc; receiver : proc }.

Definition as_receiver {A} (m : M ipc A) (w : world) : option (A * world) :=
  match m ((w_ipc w) <| me := receiver w |>) with
  | Done r s => Some (r, mkWorld (s <| me := me (w_ipc w) |>) (me s))
  | Stop _ _ => None
  end.

Definition run_op (flag : Z) (ids : IPC_IDS) (o : op) (w : world) : option (outcome * world) :=
  match o with
  | Send extra data =>
      match SendSharedFrame flag ids (Some extra) (Z.of_nat (length extra)) (Some data)
              (Z.of_nat (length data)) (w_ipc w) with
      | Done r s => Some (if r =? 0 then Sent else Refused, mkWorld s (receiver w))
      | Stop _ _ => None
      end
  | Take len => '(f, a, w) ← as_receiver (AttachSharedFrame ids len) w; Some (Frame f a, w)
  | Free a => '(_, w) ← as_receiver (DeattachSharedFrame a) w; Some (Freed, w)
  end.

Definition sent_by (o : op) (b : box) : Z := match o, b with Send _ _, Empty => 1 | _, _ => 0 end.
Definition posted (b : box) : Z := match b with Full _ => 1 | _ => 0 end.

(** Addresses from [next_addr] on are free. *)
Definition addrs_ok (p : proc) : Prop := 0 < next_addr p ∧ ∀ a, is_Some (maps p !! a) → 0 < a < next_addr p.

Definition holds (b : box) (bytes : list Z) : Prop :=
  match b with
  | Empty => int_is_zero bytes = true
  | Full f | Taken f _ => f `prefix_of` bytes ∧ (4 ≤ length f)%nat ∧ int_is_zero f = false
  end.

(** The box [b], after [n] frames were sent. *)
Record boxed (flag : Z) (ids : IPC_IDS) (cap : nat) (n : Z) (w : world) (b : box) : Prop := {
  bx_flag : 0 ≤ flag;
  bx_cap : (4 ≤ cap)%nat;
  bx_calls : refusals (w_ipc w) = [];
  bx_seg : ∃ g, segs (w_ipc w) !! shm_id ids = Some g ∧ is_Some (sg_key g) ∧
    (cap ≤ length (sg_bytes g))%nat ∧ holds b (sg_bytes g);
  bx_sem : ∃ x, sems (w_ipc w) !! sem_id ids = Some x ∧ ss_val x = posted b;
  bx_sender : default 0 (semadj (me (w_ipc w)) !! sem_id ids) = - n;
  bx_receiver : default 0 (semadj (receiver w) !! sem_id ids) = n - posted b;
  bx_addr : ∃ a, g_addr (me (w_ipc w)) !! Z.to_nat flag = Some a ∧
    (a = 0 ∨ maps (me (w_ipc w)) !! a = Some (shm_id ids));
  bx_maps : addrs_ok (me (w_ipc w)) ∧ addrs_ok (receiver w);
  bx_taken : match b with Taken _ a => maps (receiver w) !! a = Some (shm_id ids) | _ => True end;
}.

Lemma int_is_zero_prefix (f l : list Z) :
  f `prefix_of` l → (4 ≤ length f)%nat → int_is_zero f = int_is_zero l.
Proof. intros [k ->] Hf. unfold int_is_zero. by rewrite take_app_le. Qed.

Section Mailbox.
Context (flag : Z) (ids : IPC_IDS) (cap : nat).

Lemma wp_copy_in a id g pre buf (Q : () → ipc → Prop) s :
  maps (me s) !! a = Some id → segs s !! id = Some g → pre `prefix_of` sg_bytes g →
  (length pre + length buf ≤ length (sg_bytes g))%nat →
  (∀ bytes, pre ++ buf `prefix_of` bytes → length bytes = length (sg_bytes g) →
     Q () (s <| segs := <[id := g <| sg_bytes := bytes |>]> (segs s) |>)) →
  wp (copy_in a (length pre) (Some buf) (Z.of_nat (length buf))) Q s.
Proof.
  intros Ha Hg Hp Hl HQ. unfold copy_in. destruct (Z.ltb_spec 0 (Z.of_nat (length buf))); cbn [when].
  - rewrite Nat2Z.id, bool_decide_true, take_ge by done. eapply wp_store_bytes; [done..|]. apply HQ.
    + by apply inserts_prefix.
    + by rewrite length_inserts.
  - apply wp_ret. destruct buf; [|cbn in *; lia]. rewrite app_nil_r in HQ.
    specialize (HQ (sg_bytes g) Hp eq_refl). destruct g. unfold set_field in HQ at 2. cbn in HQ.
    rewrite insert_id in HQ by exact Hg. by destruct s.
Qed.

(** What both processes keep while the sender works. *)
Definition attached a s : Prop :=
  g_addr (me s) !! Z.to_nat flag = Some a ∧ maps (me s) !! a = Some (shm_id ids) ∧ addrs_ok (me s).

Lemma wp_send_at a extra data g x n b (Q : Z → ipc → Prop) s :
  attached a s → 0 < a → refusals s = [] → segs s !! shm_id ids = Some g → holds b (sg_bytes g) →
  (cap ≤ length (sg_bytes g))%nat → (4 ≤ cap)%nat → sems s !! sem_id ids = Some x → ss_val x = posted b →
  default 0 (semadj (me s) !! sem_id ids) = - n → 0 ≤ n ≤ SEMAEM → allowed cap (Send extra data) b →
  (match b with
   | Empty => ∀ bytes, extra ++ data `prefix_of` bytes → length bytes = length (sg_bytes g) →
       Q 0 (s <| segs := <[shm_id ids := g <| sg_bytes := bytes |>]> (segs s) |>
              <| sems := <[sem_id ids := x <| ss_val := 1 |>]> (sems s) |>
              <| me := (me s) <| semadj := <[sem_id ids := - (n + 1)]> (semadj (me s)) |> |>)
   | _ => Q (-1) s
   end) →
  wp (head ← load_bytes a 0 4;
      if int_is_zero head then
        if a =? -1 then mret (-1)
        else
          copy_in a 0 (Some extra) (Z.of_nat (length extra));;
          (if (Z.of_nat (length extra) <? 0) && (0 <? Z.of_nat (length data)) && bool_decide (is_Some (Some data))
           then stop_with Fault
           else copy_in a (Z.to_nat (Z.of_nat (length extra))) (Some data) (Z.of_nat (length data)));;
          sem_op_ true "v"%char (sem_id ids);;
          mret 0
      else mret (-1)) Q s.
Proof.
  intros (Hg1 & Hm & Ha) Hpos Hr Hg Hh Hcap H4 Hx Hv Hadj Hn [Hz Hlen] HQ.
  wp_step. eapply wp_load_bytes; [exact Hm|exact Hg|lia|]. rewrite drop_0.
  assert (Et : int_is_zero (take 4 (sg_bytes g)) = int_is_zero (sg_bytes g)).
  { unfold int_is_zero. by rewrite take_take. }
  rewrite Et. destruct b as [|f|f a'].
  - cbn in Hh. rewrite Hh. destruct (Z.eqb_spec a (-1)); [lia|]. wp_step.
    rewrite length_app in Hlen.
    apply (wp_copy_in a (shm_id ids) g []); [done|done|by eexists|cbn; lia|]. intros b1 Hb1 Hl1.
    wp_step. destruct (Z.ltb_spec (Z.of_nat (length extra)) 0); [lia|]. cbn [andb]. rewrite Nat2Z.id.
    eapply (wp_copy_in a (shm_id ids) _ extra); [exact Hm|rs; by rewrite lookup_insert_eq|exact Hb1|rs; lia|].
    intros b2 Hb2 Hl2. unfold sem_op_. wp_step. wp_step. eapply wp_semop; [exact Hr|exact Hx|..].
    + rewrite Hv. unfold SEMVMX. cbn. lia.
    + rs. rewrite Hadj. cbn. unfold SEMAEM in *. lia.
    + done.
    + cbn beta. wp_go. rs. rewrite Hadj, Hv, insert_insert_eq. cbn [posted].
      change (if ("v" =? "p")%char then -1 else 1) with 1. change (0 + 1) with 1.
      replace (- n - 1) with (- (n + 1)) by lia. apply HQ; [exact Hb2|]. rewrite Hl2. exact Hl1.
  - destruct Hh as (Hp & Hf & Hnz). rewrite <- (int_is_zero_prefix f) by done. rewrite Hnz. by apply wp_ret.
  - destruct Hh as (Hp & Hf & Hnz). rewrite <- (int_is_zero_prefix f) by done. rewrite Hnz. by apply wp_ret.
Qed.

Lemma fresh_addr p : addrs_ok p → maps p !! next_addr p = None.
Proof.
  intros [H0 H]. destruct (maps p !! next_addr p) eqn:E; [|done]. specialize (H _ (mk_is_Some _ _ E)). lia.
Qed.

(** Once the segment is attached. *)
Lemma send_attached n w b extra data a s1 g1 :
  boxed flag ids cap n w b → 0 ≤ n ≤ SEMAEM → allowed cap (Send extra data) b →
  attached a s1 → refusals s1 = [] → segs s1 !! shm_id ids = Some g1 →
  (∀ g, segs (w_ipc w) !! shm_id ids = Some g → sg_bytes g1 = sg_bytes g) → is_Some (sg_key g1) →
  sems s1 = sems (w_ipc w) → semadj (me s1) = semadj (me (w_ipc w)) →
  wp (head ← load_bytes a 0 4;
      if int_is_zero head then
        if a =? -1 then mret (-1)
        else
          copy_in a 0 (Some extra) (Z.of_nat (length extra));;
          (if (Z.of_nat (length extra) <? 0) && (0 <? Z.of_nat (length data)) && bool_decide (is_Some (Some data))
           then stop_with Fault
           else copy_in a (Z.to_nat (Z.of_nat (length extra))) (Some data) (Z.of_nat (length data)));;
          sem_op_ true "v"%char (sem_id ids);;
          mret 0
      else mret (-1))
    (λ r s, r = (match b with Empty => 0 | _ => -1 end) ∧
       boxed flag ids cap (n + sent_by (Send extra data) b) (mkWorld s (receiver w))
         (match b with Empty => Full (extra ++ data) | _ => b end)) s1.
Proof.
  intros [Hf H4 Hr (g & Hg & Hkey & Hcap & Hh) (x & Hx & Hv) Hadj Hrcv (a0 & Ha0 & Hm0) [Hme Hrc] Ht] Hn Hal
    Hat Hr1 Hg1 Hb1 Hk1 Hs1 Hadj1. specialize (Hb1 g Hg). pose proof Hat as (Ha & Hm & Hok).
  assert (Hpos : 0 < a) by (pose proof (proj2 Hok a (mk_is_Some _ _ Hm)); lia).
  eapply (wp_send_at a extra data g1 x n b); try done; try congruence. destruct b as [|f|f a']; cbn [sent_by].
  - intros bytes Hp Hl. split; [done|]. split; cbn [w_ipc receiver]; rs; try done.
    + exists (g1 <| sg_bytes := bytes |>). rewrite lookup_insert_eq. rs. destruct Hal as (? & ? & ?).
      split_and!; [done|done|by rewrite Hl, Hb1|by split_and!].
    + exists (x <| ss_val := 1 |>). by rewrite lookup_insert_eq.
    + rewrite lookup_insert_eq. done.
    + rewrite Hrcv. cbn. lia.
    + exists a. split; [exact Ha|by right].
  - split; [done|]. split; cbn [w_ipc receiver]; rs; try done.
    + exists g1. rewrite Hb1. done.
    + exists x. by rewrite Hs1.
    + rewrite Hadj1, Hadj. lia.
    + rewrite Hrcv. lia.
    + exists a. split; [exact Ha|by right].
  - split; [done|]. split; cbn [w_ipc receiver]; rs; try done.
    + exists g1. rewrite Hb1. done.
    + exists x. by rewrite Hs1.
    + rewrite Hadj1, Hadj. lia.
    + rewrite Hrcv. lia.
    + exists a. split; [exact Ha|by right].
Qed.

(** One operation does what the box promises. *)
Lemma send_ok n w b extra data :
  boxed flag ids cap n w b → 0 ≤ n ≤ SEMAEM → allowed cap (Send extra data) b →
  ∃ w', run_op flag ids (Send extra data) w = Some (match b with Empty => Sent | _ => Refused end, w') ∧
    boxed flag ids cap (n + sent_by (Send extra data) b) w'
      (match b with Empty => Full (extra ++ data) | _ => b end).
Proof.
  intros B Hn Hal. pose proof B as [Hf H4 Hr (g & Hg & Hkey & Hcap & Hh) (x & Hx & Hv) Hadj Hrcv (a0 & Ha0 & Hm0) [Hme Hrc] Ht].
  assert (Hw : wp (SendSharedFrame flag ids (Some extra) (Z.of_nat (length extra)) (Some data) (Z.of_nat (length data)))
    (λ r s, r = (match b with Empty => 0 | _ => -1 end) ∧
       boxed flag ids cap (n + sent_by (Send extra data) b) (mkWorld s (receiver w))
         (match b with Empty => Full (extra ++ data) | _ => b end)) (w_ipc w)).
  { unfold SendSharedFrame. wp_step. apply wp_gets. wp_step. destruct (Z.ltb_spec flag 0); [lia|].
    eapply wp_from_option; [exact Ha0|]. wp_step.
    destruct (Z.eqb_spec a0 0) as [->|Hne].
    - wp_step. eapply wp_shmat; [exact Hr|exact Hg|]. unfold upd_me. wp_step. apply wp_modify, wp_ret.
      eapply send_attached; [exact B|exact Hn|exact Hal|..]; rs;
        [|done|by rewrite lookup_insert_eq|intros ? E; by simplify_eq|done|done|done].
      destruct Hme as [Hp Hmaps]. split_and!; rs.
      + apply list_lookup_insert_eq. by eapply lookup_lt_Some.
      + by rewrite lookup_insert_eq.
      + unfold addrs_ok. rs. unfold PAGE. split; [lia|]. intros a Ha.
        destruct (decide (a = next_addr (me (w_ipc w)))) as [->|Hne]; [lia|].
        rewrite lookup_insert_ne in Ha by done. specialize (Hmaps a Ha). lia.
    - apply wp_ret. eapply send_attached; try done; [|intros; by simplify_eq]. destruct Hm0; [done|]. split_and!; done. }
  apply wp_done in Hw as (r & s' & E & -> & Hb). eexists. split; [|exact Hb]. unfold run_op. rewrite E.
  by destruct b.
Qed.
End Mailbox.

Section Refinement.
Context (flag : Z) (ids : IPC_IDS) (cap : nat).

Lemma as_receiver_wp {A} (m : M ipc A) (Q : A → world → Prop) w :
  wp m (λ r s, Q r (mkWorld (s <| me := me (w_ipc w) |>) (me s))) ((w_ipc w) <| me := receiver w |>) →
  ∃ r w', as_receiver m w = Some (r, w') ∧ Q r w'.
Proof. intros H. apply wp_done in H as (r & s' & E & HQ). unfold as_receiver. rewrite E. eauto. Qed.

Lemma take_prefix_of (f l : list Z) len : f `prefix_of` l → (len ≤ length f)%nat → take len l = take len f.
Proof. intros [k ->] H. by rewrite take_app_le. Qed.

Lemma take_ok n w f len :
  boxed flag ids cap n w (Full f) → 0 ≤ n ≤ SEMAEM → (len ≤ length f)%nat →
  let a := next_addr (receiver w) in
  ∃ w', run_op flag ids (Take len) w = Some (Frame (take len f) a, w') ∧
    boxed flag ids cap n w' (Taken f a).
Proof.
  intros [Hf H4 Hr (g & Hg & Hkey & Hcap & Hp & Hlf & Hz) (x & Hx & Hv) Hadj Hrcv Ha [Hme Hrc] _] Hn Hlen a.
  assert (Hw : wp (AttachSharedFrame ids len)
    (λ r s, r = (take len f, a) ∧
       boxed flag ids cap n (mkWorld (s <| me := me (w_ipc w) |>) (me s)) (Taken f a))
    ((w_ipc w) <| me := receiver w |>)).
  { unfold AttachSharedFrame, sem_op_. wp_step. wp_step. eapply wp_semop; [exact Hr|exact Hx|..].
    - rewrite Hv. unfold SEMVMX. cbn. lia.
    - rs. rewrite Hrcv. unfold SEMAEM in *. cbn. lia.
    - done.
    - cbn beta. rs. apply wp_ret. wp_step. eapply wp_shmat; [exact Hr|exact Hg|]. rs. fold a. wp_step.
      eapply wp_load_bytes; [rs; apply lookup_insert_eq|rs; apply lookup_insert_eq| |]; rs.
      { apply prefix_length in Hp. lia. }
      rewrite drop_0, (take_prefix_of f) by done. apply wp_ret. split; [done|].
      split; cbn [w_ipc receiver]; rs; try done.
      + eexists. rewrite lookup_insert_eq. rs. by split_and!.
      + eexists. rewrite lookup_insert_eq. rs. rewrite Hv. done.
      + rewrite lookup_insert_eq, Hrcv. cbn. lia.
      + split; [done|]. destruct Hrc as [Hpos Hm]. unfold addrs_ok. rs. unfold PAGE. split; [unfold a; lia|].
        intros b Hb. destruct (decide (b = a)) as [->|Hne]; [unfold a; lia|].
        rewrite lookup_insert_ne in Hb by done. specialize (Hm b Hb). unfold a. lia.
      + apply lookup_insert_eq. }
  destruct (as_receiver_wp _ (λ r w', r = (take len f, a) ∧ boxed flag ids cap n w' (Taken f a)) w Hw)
    as (r & w' & E & -> & Hb).
  exists w'. split; [|exact Hb]. unfold run_op. by rewrite E.
Qed.

(** Nothing to take: the receiver waits. *)
Lemma take_waits n w b len :
  boxed flag ids cap n w b → posted b = 0 → run_op flag ids (Take len) w = None.
Proof.
  intros [_ _ Hr _ (x & Hx & Hv) _ _ _ _ _] Hb. unfold run_op, as_receiver, AttachSharedFrame, sem_op_, semop, refusal.
  unfold mbind, M_bind, gets. rs. rewrite Hr. rs. rewrite Hx. rs. rewrite Hv, Hb.
  by destruct (Z.ltb_spec (0 + (if ("p" =? "p")%char then -1 else 1)) 0).
Qed.

Lemma free_ok n w f a :
  boxed flag ids cap n w (Taken f a) →
  ∃ w', run_op flag ids (Free a) w = Some (Freed, w') ∧ boxed flag ids cap n w' Empty.
Proof.
  intros [Hf H4 Hr (g & Hg & Hkey & Hcap & Hp & Hlf & Hz) Hx Hadj Hrcv Ha [Hme Hrc] Ht].
  assert (Hw : wp (DeattachSharedFrame a)
    (λ _ s, boxed flag ids cap n (mkWorld (s <| me := me (w_ipc w) |>) (me s)) Empty)
    ((w_ipc w) <| me := receiver w |>)).
  { unfold DeattachSharedFrame. wp_step. eapply wp_store_bytes; [exact Ht|exact Hg|change (0 + 4 ≤ length (sg_bytes g))%nat; lia|]. wp_step.
    eapply wp_shmdt; [rs; exact Ht|rs; apply lookup_insert_eq|rs; exact Hkey|]. rs. apply wp_ret.
    assert (Hz0 : int_is_zero (list_inserts 0 zero_int (sg_bytes g)) = true).
    { rewrite <- (take_drop 4 (sg_bytes g)), list_inserts_0_r by (rewrite length_take; change (length zero_int) with 4%nat; lia). done. }
    split; cbn [w_ipc receiver]; rs; try done.
    - eexists. rewrite lookup_insert_eq. split_and!; [reflexivity|exact Hkey|rs; by rewrite length_inserts|exact Hz0].
    - split; [done|]. destruct Hrc as [Hpos Hm]. split; [exact Hpos|]. rs. intros b [_ Hb]%lookup_delete_is_Some.
      apply Hm. done. }
  destruct (as_receiver_wp _ (λ _ w', boxed flag ids cap n w' Empty) w Hw) as (r & w' & E & Hb).
  exists w'. split; [|exact Hb]. unfold run_op. by rewrite E.
Qed.

(** C14: each operation of the library does what the mailbox promises: a frame is accepted
    exactly when the box is empty, the receiver gets the bytes of the frame that was
    accepted and waits while there is none, and giving the frame back empties the box, as
    long as at most 32767 frames were sent before. *)
Theorem frame_ipc_refines n w b o :
  boxed flag ids cap n w b → allowed cap o b → 0 ≤ n ≤ SEMAEM →
  match spec_op o (next_addr (receiver w)) b with
  | Some (r, b') => ∃ w', run_op flag ids o w = Some (r, w') ∧ boxed flag ids cap (n + sent_by o b) w' b'
  | None => run_op flag ids o w = None
  end.
Proof.
  intros Hb Hal Hn. destruct o as [extra data|len|a].
  - pose proof (send_ok flag ids cap n w b extra data Hb Hn Hal) as H. by destruct b.
  - cbn [sent_by]. rewrite Z.add_0_r. destruct b; cbn [spec_op]; [by eapply take_waits| |by eapply take_waits].
    apply take_ok; [done|lia|done].
  - destruct Hal as [f ->]. cbn [spec_op sent_by]. rewrite Z.add_0_r. by eapply free_ok.
Qed.
End Refinement.

(** * Creating a frame *)

Lemma find_key_some {A} (key_of : A → option Z) key (m : gmap Z A) id :
  find_key key_of key m = Some id → ∃ x, m !! id = Some x ∧ key_of x = Some key.
Proof.
  unfold find_key. destruct (List.find _ _) as [[i x]|] eqn:E; [|done]. intros [= <-].
  apply find_some in E as [Hin Hk]. exists x. split; [|by apply bool_decide_eq_true in Hk].
  by apply elem_of_map_to_list, list_elem_of_In.
Qed.

Lemma find_key_none {A} (key_of : A → option Z) key (m : gmap Z A) :
  find_key key_of key m = None ↔ ∀ i x, m !! i = Some x → key_of x ≠ Some key.
Proof.
  unfold find_key. split.
  - destruct (List.find _ _) eqn:E; [done|]. intros _ i x Hx Hk.
    assert (Hin : In (i, x) (map_to_list m)) by by apply list_elem_of_In, elem_of_map_to_list.
    pose proof (find_none _ _ E _ Hin) as Hn. cbn in Hn. by rewrite bool_decide_true in Hn.
  - intros H. destruct (List.find _ _) as [[i x]|] eqn:E; [|done]. exfalso.
    apply find_some in E as [Hin Hk]. apply bool_decide_eq_true in Hk.
    apply (H i x); [|done]. by apply elem_of_map_to_list, list_elem_of_In.
Qed.

(** At most one identifier has a key. *)
Definition unique_keys {A} (key_of : A → option Z) (m : gmap Z A) : Prop :=
  ∀ i j x y k, m !! i = Some x → m !! j = Some y → key_of x = Some k → key_of y = Some k → i = j.

Lemma find_key_unique {A} (key_of : A → option Z) key (m : gmap Z A) id x :
  unique_keys key_of m → m !! id = Some x → key_of x = Some key → find_key key_of key m = Some id.
Proof.
  intros Hu Hx Hk. destruct (find_key key_of key m) as [j|] eqn:E.
  - apply find_key_some in E as (y & Hy & Hky). f_equal. by eapply Hu.
  - by apply (proj1 (find_key_none _ _ _) E id x) in Hx.
Qed.

(** A table without one key, with a new entry under that key, is unambiguous. *)
Lemma unique_keys_new {A} (key_of : A → option Z) key (m m' : gmap Z A) id x :
  unique_keys key_of m → (∀ i y, m' !! i = Some y → key_of y ≠ Some key) →
  (∀ i y k, m' !! i = Some y → key_of y = Some k → ∃ y', m !! i = Some y' ∧ key_of y' = Some k) →
  key_of x = Some key → unique_keys key_of (<[id := x]> m').
Proof.
  intros Hu Hno Hsub Hx i j y z k Hi Hj Hky Hkz.
  apply lookup_insert_Some in Hi as [[<- <-]|[Hi Hy]], Hj as [[<- <-]|[Hj Hz]]; [done| | |].
  - rewrite Hx in Hky. injection Hky as <-. by destruct (Hno j z Hz).
  - rewrite Hx in Hkz. injection Hkz as <-. by destruct (Hno i y Hy).
  - destruct (Hsub i y k Hy Hky) as (y' & Hy' & E1), (Hsub j z k Hz Hkz) as (z' & Hz' & E2). by eapply Hu.
Qed.

Lemma unique_keys_same {A} (key_of : A → option Z) (m : gmap Z A) id x x' :
  unique_keys key_of m → m !! id = Some x → key_of x' = key_of x → unique_keys key_of (<[id := x']> m).
Proof.
  intros Hu Hx Ek i j y z k Hi Hj Hky Hkz.
  apply lookup_insert_Some in Hi as [[<- <-]|[Hi Hy]], Hj as [[<- <-]|[Hj Hz]]; [done| | |by eapply Hu].
  - apply (Hu _ _ x z k); congruence.
  - apply (Hu _ _ y x k); congruence.
Qed.

Lemma pages_bound size : 0 < size → PAGE ≤ pages size.
Proof. unfold pages, PAGE. intros H. Z.to_euclidean_division_equations. lia. Qed.

Section Creating.
Context {FT : Ftok}.

Definition semkey (x : semaphore) : option Z := Some (ss_key x).

(** Identifiers and addresses to come are free. *)
Record sane s : Prop := {
  sn_calls : refusals s = [];
  sn_segs : unique_keys sg_key (segs s);
  sn_sems : unique_keys semkey (sems s);
  sn_seg_ids id : is_Some (segs s !! id) → 0 ≤ id < next_id s;
  sn_sem_ids id : is_Some (sems s !! id) → 0 ≤ id < next_id s;
  sn_next : 0 ≤ next_id s;
  sn_adj id : next_id s ≤ id → semadj (me s) !! id = None;
  sn_addrs : addrs_ok (me s);
  sn_flag : 0 ≤ g_flag (me s);
}.

(** What becomes of the table of segments. *)
Record replaced {A} (key_of : A → option Z) (key id : Z) (x : A) (m m' : gmap Z A) : Prop := {
  rp_new : m' !! id = Some x;
  rp_unique : unique_keys key_of m';
  rp_ids i : is_Some (m' !! i) → i = id ∨ is_Some (m !! i);
}.

Lemma wp_shmget_new_free key size (Q : Z → ipc → Prop) s :
  refusals s = [] → 0 < size → find_key sg_key key (segs s) = None →
  Q (next_id s) (s <| segs := <[next_id s := mkSeg (Some key) (replicate (Z.to_nat (pages size)) 0) 0]> (segs s) |>
    <| next_id := next_id s + 1 |>) →
  wp (shmget_new key size) Q s.
Proof.
  intros Hr H0 Hf HQ. unfold shmget_new. wp_step. apply wp_no_refusal; [done|]. wp_step. apply wp_gets.
  unfold Datatypes.id. rewrite Hf. destruct (Z.leb_spec size 0); [lia|]. by wp_go.
Qed.

Lemma wp_create_segment size (Q : Z → ipc → Prop) s :
  sane s → 0 < size →
  (∀ m e, let key := shm_key (g_flag (me s)) in
     replaced sg_key key (next_id s) (mkSeg (Some key) (replicate (Z.to_nat (pages size)) 0) 0) (segs s) m →
     Q (next_id s) (s <| segs := m |> <| next_id := next_id s + 1 |> <| me := (me s) <| errno := e |> |>)) →
  wp (create_segment size) Q s.
Proof.
  intros [Hr Hu _ Hids _ Hn _ _ _] H0 HQ. unfold create_segment. wp_step. apply wp_gets.
  set (key := shm_key (g_flag (me s))) in *. cbv zeta in *. set (x := mkSeg _ _ _) in *.
  destruct (find_key sg_key key (segs s)) as [id|] eqn:Ef.
  - pose proof (find_key_some _ _ _ _ Ef) as (g & Hg & Hk).
    wp_step. unfold shmget_new at 1. wp_step. apply wp_no_refusal; [done|]. wp_step. apply wp_gets.
    unfold Datatypes.id. rewrite Ef. unfold failing, set_errno, upd_me. wp_step. apply wp_modify. apply wp_ret.
    change (-1 <? 0) with true. cbn iota. wp_step. apply wp_gets. rs. change (EEXIST =? EEXIST) with true. cbn iota.
    wp_step. unfold shmget_old. wp_step. apply wp_no_refusal; [done|]. wp_step. apply wp_gets. unfold Datatypes.id. rs.
    rewrite Ef. apply wp_ret. wp_step. unfold shm_remove. wp_step. apply wp_gets. rs. rewrite Hg.
    wp_step. apply wp_modify. apply wp_ret. rs.
    set (m' := if sg_nattch g =? 0 then _ else _).
    assert (Hno : ∀ i y, m' !! i = Some y → sg_key y ≠ Some key).
    { unfold m'. intros i y Hy Hky. destruct (sg_nattch g =? 0).
      - apply lookup_delete_Some in Hy as [Hne Hy]. apply Hne. by eapply Hu.
      - apply lookup_insert_Some in Hy as [[<- <-]|[Hne Hy]]; [done|]. apply Hne. by eapply Hu. }
    assert (Hsub : ∀ i y k, m' !! i = Some y → sg_key y = Some k → ∃ y', segs s !! i = Some y' ∧ sg_key y' = Some k).
    { unfold m'. intros i y k Hy Hky. destruct (sg_nattch g =? 0).
      - apply lookup_delete_Some in Hy as [_ Hy]. eauto.
      - apply lookup_insert_Some in Hy as [[<- <-]|[_ Hy]]; [done|eauto]. }
    apply wp_shmget_new_free; [done|done|by apply find_key_none|]. rs.
    specialize (HQ (<[next_id s := x]> m') EEXIST). destruct s. apply HQ. split.
    + apply lookup_insert_eq.
    + by eapply unique_keys_new.
    + intros i [->|[_ Hi]]%lookup_insert_is_Some; [by left|right]. unfold m' in Hi.
      destruct (sg_nattch g =? 0); [by apply lookup_delete_is_Some in Hi as [_ ?]|].
      apply lookup_insert_is_Some in Hi as [<-|[_ ?]]; [by eexists|done].
  - wp_step. apply wp_shmget_new_free; [done|done|done|]. destruct (Z.ltb_spec (next_id s) 0); [lia|].
    apply wp_ret. specialize (HQ (<[next_id s := x]> (segs s)) (errno (me s))).
    assert (E : (me s) <| errno := errno (me s) |> = me s) by by destruct (me s).
    rewrite E in HQ. destruct s. apply HQ. pose proof (proj1 (find_key_none _ _ _) Ef) as Hno. split.
    + apply lookup_insert_eq.
    + eapply unique_keys_new; [done|exact Hno| |done]. eauto.
    + intros i [->|[_ Hi]]%lookup_insert_is_Some; auto.
Qed.

Lemma wp_semget_new_free key (Q : Z → ipc → Prop) s :
  refusals s = [] → find_key semkey key (sems s) = None →
  Q (next_id s) (s <| sems := <[next_id s := mkSem key 0]> (sems s) |> <| next_id := next_id s + 1 |>) →
  wp (semget_new key) Q s.
Proof.
  intros Hr Hf HQ. unfold semget_new. wp_step. apply wp_no_refusal; [done|]. wp_step. apply wp_gets.
  unfold Datatypes.id. fold semkey. rewrite Hf. by wp_go.
Qed.

Lemma wp_create_semaphore (Q : Z → ipc → Prop) s :
  sane s →
  (∀ m e, let key := sem_key (g_flag (me s)) in
     replaced semkey key (next_id s) (mkSem key 0) (sems s) m →
     Q (next_id s) (s <| sems := m |> <| next_id := next_id s + 1 |> <| me := (me s) <| errno := e |> |>)) →
  wp create_semaphore Q s.
Proof.
  intros [Hr _ Hu _ _ Hn _ _ _] HQ. unfold create_semaphore. wp_step. apply wp_gets.
  set (key := sem_key (g_flag (me s))) in *. cbv zeta in *. set (x := mkSem key 0) in *.
  destruct (find_key semkey key (sems s)) as [id|] eqn:Ef.
  - pose proof (find_key_some _ _ _ _ Ef) as (y & Hy & Hk).
    wp_step. unfold semget_new at 1. wp_step. apply wp_no_refusal; [done|]. wp_step. apply wp_gets.
    unfold Datatypes.id. fold semkey. rewrite Ef. unfold failing, set_errno, upd_me. wp_step. apply wp_modify.
    apply wp_ret. change (-1 <? 0) with true. cbn iota. wp_step. apply wp_gets. rs.
    change (EEXIST =? EEXIST) with true. cbn iota.
    wp_step. unfold semget_old. wp_step. apply wp_no_refusal; [done|]. wp_step. apply wp_gets.
    unfold Datatypes.id. rs. fold semkey. rewrite Ef. apply wp_ret. wp_step. unfold sem_remove. wp_step.
    apply wp_gets. rs. rewrite Hy. wp_step. apply wp_modify. apply wp_ret. rs.
    assert (Hno : ∀ i z, delete id (sems s) !! i = Some z → semkey z ≠ Some key).
    { intros i z [Hne Hz]%lookup_delete_Some Hkz. apply Hne. by eapply Hu. }
    apply wp_semget_new_free; [done|by apply find_key_none|]. rs.
    specialize (HQ (<[next_id s := x]> (delete id (sems s))) EEXIST). destruct s. apply HQ. split.
    + apply lookup_insert_eq.
    + eapply unique_keys_new; [done|exact Hno| |done]. intros i z k [_ Hz]%lookup_delete_Some ?. eauto.
    + intros i [->|[_ Hi]]%lookup_insert_is_Some; [by left|right].
      by apply lookup_delete_is_Some in Hi as [_ ?].
  - wp_step. apply wp_semget_new_free; [done|done|]. destruct (Z.ltb_spec (next_id s) 0); [lia|].
    apply wp_ret. specialize (HQ (<[next_id s := x]> (sems s)) (errno (me s))).
    assert (E : (me s) <| errno := errno (me s) |> = me s) by by destruct (me s).
    rewrite E in HQ. destruct s. apply HQ. pose proof (proj1 (find_key_none _ _ _) Ef) as Hno. split.
    + apply lookup_insert_eq.
    + eapply unique_keys_new; [done|exact Hno| |done]. eauto.
    + intros i [->|[_ Hi]]%lookup_insert_is_Some; auto.
Qed.

(** [CreateSharedFrame] gives an empty box under new identifiers, whatever was there
    under the same names; [GetFrameStart] of another process then finds it. *)
Theorem create_frame_empty size rcv s :
  sane s → 0 < size → addrs_ok rcv → (∀ id, next_id s ≤ id → semadj rcv !! id = None) →
  let flag := g_flag (me s) in
  wp (CreateSharedFrame size) (λ r s',
    r.2 = 0 ∧ boxed flag r.1 (Z.to_nat (pages size)) 0 (mkWorld s' rcv) Empty ∧
    g_flag (me s') = flag + 1 ∧
    ∃ w', as_receiver (GetFrameStart flag) (mkWorld s' rcv) = Some (r, w')) s.
Proof.
  intros Hs H0 Hrcv Hadj flag. pose proof Hs as [Hr _ _ _ Hsids Hn Hsadj Ha Hfl].
  unfold CreateSharedFrame. wp_step. apply wp_create_segment; [done|done|]. intros segs' e key Hsegs.
  set (s1 := _ <| me := _ |>).
  assert (Hs1 : sane s1).
  { destruct Hs as [? ? ? Hids ? ? ? ? ?], Hsegs as [? ? Hi]. unfold s1. split; rs; try done; try lia.
    - intros i Hx. apply Hi in Hx as [->|Hx]; [lia|]. specialize (Hids i Hx). lia.
    - intros i Hx. specialize (Hsids i Hx). lia.
    - intros i Hx. apply Hsadj. lia. }
  wp_step. apply wp_create_semaphore; [done|]. intros sems' e' key' [Hnew' Hu' Hi'].
  set (sid := next_id s1) in *. assert (Esid : sid = next_id s + 1) by done.
  wp_step. unfold sem_setval. wp_step. apply wp_gets. rs. rewrite Hnew'.
  change ((0 <? 0) || (SEMVMX <? 0)) with false. cbn iota. unfold upd_me. wp_step. apply wp_modify. wp_step. apply wp_modify. apply wp_ret. wp_step.
  pose proof Hsegs as [Hnew Hu Hi]. pose proof (pages_bound size H0) as Hpg. unfold PAGE in Hpg.
  eapply wp_shmat; [exact Hr|exact Hnew|]. rs. set (addr := next_addr (me s)). cbv beta.
  wp_step. eapply wp_store_bytes; [rs; apply lookup_insert_eq|rs; apply lookup_insert_eq|..].
  { rs. cbn [sg_bytes]. rewrite length_replicate. change (length zero_int) with 4%nat. lia. }
  rs. cbn [sg_bytes].
  wp_step. eapply wp_shmdt; [rs; apply lookup_insert_eq|rs; apply lookup_insert_eq|rs; by eexists|]. rs.
  wp_step. apply wp_modify. wp_step. apply wp_no_refusal; [exact Hr|].
  wp_step. cbn [when]. apply wp_ret. wp_step. apply wp_modify. apply wp_ret. rs. cbn [fst snd].
  set (g' := _ <| sg_nattch := _ |>). set (bytes := list_inserts 0 zero_int _) in *.
  assert (Hlen : length bytes = Z.to_nat (pages size)) by (unfold bytes; by rewrite length_inserts, length_replicate).
  assert (Hz : int_is_zero bytes = true).
  { unfold bytes. rewrite <- (take_drop 4 (replicate _ 0)), list_inserts_0_r; [done|].
    rewrite length_take, length_replicate. change (length zero_int) with 4%nat. lia. }
  rewrite !insert_insert_eq. split_and!; [done| |done|].
  - split; cbn [w_ipc receiver]; rs; try done; [lia|..].
    + exists g'. rewrite lookup_insert_eq. split_and!; [done|by eexists|change (sg_bytes g') with bytes; by rewrite Hlen|exact Hz].
    + eexists. rewrite lookup_insert_eq. done.
    + by rewrite lookup_delete_eq.
    + cbn [sem_id]. rewrite Hadj by lia. done.
    + exists 0. split; [|by left]. rewrite lookup_replicate. split; [done|].
      change (Z.to_nat flag < Z.to_nat (flag + 1))%nat. unfold flag in *. lia.
    + split; [|done]. destruct Ha as [Hpos Hm]. unfold addrs_ok. rs. unfold PAGE, addr in *.
      change (next_addr (me s1)) with (next_addr (me s)). change (maps (me s1)) with (maps (me s)). split; [lia|].
      intros a [Hne Hx]%lookup_delete_is_Some. rewrite lookup_insert_ne in Hx by done. specialize (Hm a Hx). lia.
  - assert (Eseg : find_key sg_key key (<[next_id s := g']> segs') = Some (next_id s)).
    { apply (find_key_unique _ _ _ _ g'); [|apply lookup_insert_eq|done]. by eapply unique_keys_same. }
    assert (Esem : find_key semkey key' (<[sid := mkSem key' 0]> sems') = Some sid).
    { apply (find_key_unique _ _ _ _ (mkSem key' 0)); [|apply lookup_insert_eq|done]. by eapply unique_keys_same. }
    set (w := mkWorld _ rcv).
    destruct (as_receiver_wp (GetFrameStart flag) (λ r _, r = (mkIds (next_id s) sid, 0)) w)
      as (r & w' & E & ->); [|by exists w'].
    unfold GetFrameStart. wp_step. unfold shmget_old. wp_step. apply wp_no_refusal; [exact Hr|].
    wp_step. apply wp_gets. change (find_key _ _ _) with (find_key sg_key key (<[next_id s := g']> segs')).
    rewrite Eseg. apply wp_ret. wp_step. unfold semget_old. wp_step. apply wp_no_refusal; [exact Hr|].
    wp_step. apply wp_gets. change (find_key _ _ _) with (find_key semkey key' (<[sid := mkSem key' 0]> sems')).
    rewrite Esem. apply wp_ret. apply wp_ret.
    destruct (Z.ltb_spec (next_id s) 0), (Z.ltb_spec sid 0); [lia..|done].
Qed.
End Creating.

(** * The undo counters *)

Section WearsOut.
Context (flag : Z) (ids : IPC_IDS) (cap : nat).

(** The receiver's counter is full: the semaphore is left alone, and nobody notices. *)
Lemma wp_attach_unnoticed id sid x g len (Q : list Z * Z → ipc → Prop) s :
  refusals s = [] → sems s !! sid = Some x → ss_val x = 1 → segs s !! id = Some g →
  SEMAEM ≤ default 0 (semadj (me s) !! sid) → (len ≤ length (sg_bytes g))%nat →
  let a := next_addr (me s) in
  Q (take len (sg_bytes g), a) (s <| segs := <[id := g <| sg_nattch := sg_nattch g + 1 |>]> (segs s) |>
    <| me := (me s) <| errno := ERANGE |> <| maps := <[a := id]> (maps (me s)) |>
               <| next_addr := a + Z.max PAGE (Z.of_nat (length (sg_bytes g))) |> |>) →
  wp (AttachSharedFrame (mkIds id sid) len) Q s.
Proof.
  intros Hr Hx Hv Hg Hadj Hlen a HQ. unfold AttachSharedFrame, sem_op_. cbn [shm_id sem_id].
  wp_step. wp_step. unfold semop. wp_step. apply wp_no_refusal; [exact Hr|]. wp_step. apply wp_gets. rewrite Hx.
  wp_step. apply wp_gets. cbn iota. rewrite Hv. change (if ("p" =? "p")%char then -1 else 1) with (-1).
  change (1 + -1 <? 0) with false. change (SEMVMX <? 1 + -1) with false. cbn iota.
  set (adj := default 0 _) in *. destruct (Z.ltb_spec SEMAEM (adj - -1)); [|lia]. rewrite orb_true_r.
  unfold failing, set_errno, upd_me. wp_step. apply wp_modify. apply wp_ret. cbv beta.
  change (-1 =? -1) with true. apply wp_ret. wp_step. eapply wp_shmat; [exact Hr|exact Hg|]. rs. fold a.
  wp_step. eapply wp_load_bytes; [rs; apply lookup_insert_eq|rs; apply lookup_insert_eq|rs; lia|].
  rs. rewrite drop_0. apply wp_ret. exact HQ.
Qed.

(** after 32768 frames the channel is worn out: the receiver's 32768th wait is refused,
    because SEM_UNDO has counted to its limit; the result is not looked at, so the frame is
    taken without the semaphore going down, and from then on the receiver does not wait: it
    gets an empty frame though nothing was sent. *)
Theorem frames_wear_out w f len :
  boxed flag ids cap (SEMAEM + 1) w (Full f) → (len ≤ length f)%nat →
  ∃ a w1 w2 w3 l,
    run_op flag ids (Take len) w = Some (Frame (take len f) a, w1) ∧
    run_op flag ids (Free a) w1 = Some (Freed, w2) ∧
    run_op flag ids (Take len) w2 = Some (Frame l (next_addr (receiver w2)), w3) ∧ int_is_zero l = true.
Proof.
  intros [Hf H4 Hr (g & Hg & Hkey & Hcap & Hp & Hlf & Hz) (x & Hx & Hv) Hadj Hrcv Ha [Hme Hrc] _] Hlen.
  set (a := next_addr (receiver w)). destruct ids as [id sid]. cbn [shm_id sem_id posted] in *.
  assert (Hlen' : (len ≤ length (sg_bytes g))%nat) by (apply prefix_length in Hp; lia).
  assert (H1 : wp (AttachSharedFrame (mkIds id sid) len)
    (λ r s, r = (take len f, a) ∧ refusals s = [] ∧ sems s !! sid = Some x ∧ maps (me s) !! a = Some id ∧
       SEMAEM ≤ default 0 (semadj (me s) !! sid) ∧
       ∃ g', segs s !! id = Some g' ∧ is_Some (sg_key g') ∧ sg_bytes g' = sg_bytes g)
    ((w_ipc w) <| me := receiver w |>)).
  { eapply wp_attach_unnoticed; [exact Hr|exact Hx|exact Hv|exact Hg|rs; rewrite Hrcv; lia|exact Hlen'|]. rs. fold a.
    rewrite (take_prefix_of f) by done. split_and!; [done|exact Hr|exact Hx|apply lookup_insert_eq|rewrite Hrcv; lia|].
    eexists. rewrite lookup_insert_eq. split_and!; [reflexivity|exact Hkey|done]. }
  destruct (as_receiver_wp _ (λ r w', r = (take len f, a) ∧ refusals (w_ipc w') = [] ∧
    sems (w_ipc w') !! sid = Some x ∧ maps (receiver w') !! a = Some id ∧
    SEMAEM ≤ default 0 (semadj (receiver w') !! sid) ∧
    ∃ g', segs (w_ipc w') !! id = Some g' ∧ is_Some (sg_key g') ∧ sg_bytes g' = sg_bytes g) w H1)
    as (r & w1 & E1 & -> & R1 & X1 & M1 & A1 & g1 & G1 & K1 & B1).
  assert (H2 : wp (DeattachSharedFrame a)
    (λ _ s, refusals s = [] ∧ sems s !! sid = Some x ∧ SEMAEM ≤ default 0 (semadj (me s) !! sid) ∧
       ∃ g', segs s !! id = Some g' ∧ length (sg_bytes g') = length (sg_bytes g) ∧ int_is_zero (sg_bytes g') = true)
    ((w_ipc w1) <| me := receiver w1 |>)).
  { unfold DeattachSharedFrame. wp_step. eapply wp_store_bytes; [exact M1|exact G1| |].
    { rewrite B1. change (0 + 4 ≤ length (sg_bytes g))%nat. apply prefix_length in Hp. lia. }
    wp_step. eapply wp_shmdt; [exact M1|rs; apply lookup_insert_eq|exact K1|]. rs. apply wp_ret.
    split_and!; [exact R1|exact X1|exact A1|]. eexists. rs. rewrite lookup_insert_eq. split_and!; [reflexivity| |]; rs.
    - by rewrite length_inserts, B1.
    - rewrite B1, <- (take_drop 4 (sg_bytes g)), list_inserts_0_r; [done|]. rewrite length_take.
      change (length zero_int) with 4%nat. lia. }
  destruct (as_receiver_wp _ (λ _ w', refusals (w_ipc w') = [] ∧ sems (w_ipc w') !! sid = Some x ∧
    SEMAEM ≤ default 0 (semadj (receiver w') !! sid) ∧
    ∃ g', segs (w_ipc w') !! id = Some g' ∧ length (sg_bytes g') = length (sg_bytes g) ∧
      int_is_zero (sg_bytes g') = true) w1 H2) as ([] & w2 & E2 & R2 & X2 & A2 & g2 & G2 & L2 & Z2).
  assert (H3 : wp (AttachSharedFrame (mkIds id sid) len)
    (λ r _, r = (take len (sg_bytes g2), next_addr (receiver w2))) ((w_ipc w2) <| me := receiver w2 |>)).
  { eapply wp_attach_unnoticed; [exact R2|exact X2|exact Hv|exact G2|exact A2|lia|]. done. }
  destruct (as_receiver_wp _ (λ r _, r = (take len (sg_bytes g2), next_addr (receiver w2))) w2 H3)
    as (r & w3 & E3 & ->).
  exists a, w1, w2, w3, (take len (sg_bytes g2)). unfold run_op. rewrite E1, E2, E3. split_and!; [done..|].
  unfold int_is_zero in *. rewrite take_take. apply forallb_forall. intros b Hb. apply (proj1 (forallb_forall _ _) Z2).
  apply list_elem_of_In. apply list_elem_of_In in Hb.
  rewrite Nat.min_comm, <- take_take in Hb. apply elem_of_take in Hb as (i & Hi & _). by eapply list_elem_of_lookup_2.
Qed.
End WearsOut.

(** * At concrete states *)

Module DemoFrames.
#[export] Instance demo_ftok : Ftok := λ id, id.

Definition new_proc : proc := mkProc 0 [] ∅ 8192 0 ∅.
(** A segment and a semaphore of an earlier run are still there, the segment attached. *)
Definition used : ipc :=
  mkIpc {[7 := mkSeg (Some 115) (replicate 4096 5) 1]} {[8 := mkSem 97 3]} 9 [] new_proc.

Lemma used_sane : sane used.
Proof.
  assert (Hs : ∀ i g, segs used !! i = Some g → i = 7).
  { intros i g Hi. change (segs used) with ({[7 := mkSeg (Some 115) (replicate 4096 5) 1]} : gmap Z segment) in Hi.
    by apply lookup_singleton_Some in Hi as [<- _]. }
  assert (Hx : ∀ i x, sems used !! i = Some x → i = 8).
  { intros i x Hi. change (sems used) with ({[8 := mkSem 97 3]} : gmap Z semaphore) in Hi.
    by apply lookup_singleton_Some in Hi as [<- _]. }
  split; try done.
  - intros i j x y k Hi%Hs Hj%Hs. congruence.
  - intros i j x y k Hi%Hx Hj%Hx. congruence.
  - intros id [x ->%Hs]. cbn. lia.
  - intros id [x ->%Hx]. cbn. lia.
  - split; [cbn; lia|]. by intros a [x ?].
Qed.
Lemma new_addrs : addrs_ok new_proc.
Proof. split; [cbn; lia|]. by intros a [x ?]. Qed.

Lemma create_frame_empty_witness :
  ∃ s', CreateSharedFrame 1028 used = Done (mkIds 9 10, 0) s' ∧
    boxed 0 (mkIds 9 10) 4096 0 (mkWorld s' new_proc) Empty.
Proof.
  pose proof (create_frame_empty 1028 new_proc used used_sane ltac:(lia) new_addrs ltac:(done)) as H.
  apply wp_done in H as (r & s' & E & _ & Hb & _). exists s'.
  assert (Er : match CreateSharedFrame 1028 used with Done r _ => r | _ => (mkIds 0 0, 1) end = (mkIds 9 10, 0))
    by (by vm_compute).
  rewrite E in Er. subst r. by split.
Defined.

Definition demo_ids : IPC_IDS := mkIds 1 2.
Definition demo_world (b : list Z) (v n m : Z) : world :=
  mkWorld (mkIpc {[1 := mkSeg (Some 115) b 0]} {[2 := mkSem 97 v]} 3 []
             (new_proc <| g_addr := [0] |> <| semadj := {[2 := - n]} |>))
    (new_proc <| semadj := {[2 := m]} |>).
Definition hello : list Z := [1; 0; 0; 0; 104; 105].

Lemma demo_boxed_empty : boxed 0 demo_ids 8 0 (demo_world (replicate 8 0) 0 0 0) Empty.
Proof.
  split; try done; try lia.
  - eexists. split_and!; [done|by eexists|cbn; lia|done].
  - by eexists.
  - exists 0. auto.
  - split; apply new_addrs.
Qed.

Lemma frame_ipc_refines_witness :
  ∃ w', run_op 0 demo_ids (Send [1; 0; 0; 0] [104; 105]) (demo_world (replicate 8 0) 0 0 0) = Some (Sent, w') ∧
    boxed 0 demo_ids 8 1 w' (Full hello).
Proof.
  apply (frame_ipc_refines 0 demo_ids 8 0 _ Empty (Send [1; 0; 0; 0] [104; 105]) demo_boxed_empty).
  - split; [done|cbn; lia].
  - done.
Defined.

Definition worn : world := demo_world (hello ++ [0; 0]) 1 (SEMAEM + 1) SEMAEM.
Lemma worn_boxed : boxed 0 demo_ids 8 (SEMAEM + 1) worn (Full hello).
Proof.
  split; try done; try lia.
  - eexists. split_and!; [done|by eexists|cbn; lia|]. split_and!; [by exists [0; 0]|cbn; lia|done].
  - by eexists.
  - exists 0. auto.
  - split; apply new_addrs.
Qed.

Lemma frames_wear_out_witness :
  ∃ a w1 w2 w3 l,
    run_op 0 demo_ids (Take 6) worn = Some (Frame hello a, w1) ∧
    run_op 0 demo_ids (Free a) w1 = Some (Freed, w2) ∧
    run_op 0 demo_ids (Take 6) w2 = Some (Frame l (next_addr (receiver w2)), w3) ∧ int_is_zero l = true.
Proof. apply (frames_wear_out 0 demo_ids 8 worn hello 6 worn_boxed). cbn. lia. Defined.

(** SEM_UNDO also takes back what a sender that ends has posted: its frame is in the
    segment, and the receiver waits for ever. *)
Definition sent_then_gone : option world :=
  match run_op 0 demo_ids (Send [1; 0; 0; 0] [104; 105]) (demo_world (replicate 8 0) 0 0 0) with
  | Some (_, w) => match exit_process (w_ipc w) with Done _ s => Some (mkWorld s (receiver w)) | _ => None end
  | None => None
  end.
Example exit_takes_back :
  match sent_then_gone with
  | Some w => run_op 0 demo_ids (Take 6) w = None ∧
      (λ g, take 6 (sg_bytes g)) <$> segs (w_ipc w) !! 1 = Some hello
  | None => False
  end.
Proof. by vm_compute. Qed.

(** A frame whose first [int] is zero does not count as one: the next one overwrites it,
    and the receiver gets that one, and then waits for nothing a second time. *)
Example zero_frame_lost :
  match run_op 0 demo_ids (Send [0; 0; 0; 0] [1]) (demo_world (replicate 8 0) 0 0 0) with
  | Some (Sent, w) =>
      match run_op 0 demo_ids (Send [9; 0; 0; 0] [2]) w with
      | Some (Sent, w) =>
          match run_op 0 demo_ids (Take 5) w with Some (Frame l _, _) => l = [9; 0; 0; 0; 2] | _ => False end
      | _ => False
      end
  | _ => False
  end.
Proof. by vm_compute. Qed.
End DemoFrames.
