(* ===== verification/FrameDemo.v ===== *)
(** The two programs that exchange frames: shm+sem/a.c and b.c, on top of frame_ipc.c.

    One process creates the segment and sends frames for ever; the other one takes them, prints what is in the segment and
    gives them back.  They take turns in any order, one call of the library at a time. *)
From S2P Require Import Prelude FrameIpc.

Definition BUF : nat := 1024.
(** ["hello"] in a buffer from [calloc], and [is_used]. *)
Definition hello_text : list Z := [104; 101; 108; 108; 111].
Definition is_used : list Z := [1; 0; 0; 0].
Definition buf : list Z := hello_text ++ replicate (BUF - 5) 0.
Definition sizeof_int : nat := 4.
Definition sizeof_frame_t : nat := 16.

Section Programs.
Context {FT : Ftok}.

(** ** a.c *)

Definition create : M ipc (IPC_IDS * Z) := CreateSharedFrame (Z.of_nat (sizeof_int + BUF)).
(** One turn of the loop; [strcpy] to NULL when there is no memory. *)
Definition send_turn (ids : IPC_IDS) : M ipc Z :=
  no_memory ← refusal;
  when (bool_decide (is_Some no_memory)) (stop_with Fault);;
  SendSharedFrame 0 ids (Some is_used) (Z.of_nat (length is_used)) (Some buf) (Z.of_nat BUF).

(** ** b.c *)

(** [frame->buf]: where the segment is attached, and how far behind. *)
Definition get_frame (ids : IPC_IDS) : M ipc (Z * nat) :=
  r ← AttachSharedFrame ids sizeof_frame_t;      (* the copy, and [shm_addr] *)
  mret (r.2, sizeof_int).
Definition free_frame (b : Z * nat) : M ipc () :=
  if (b.2 =? sizeof_int)%nat then DeattachSharedFrame b.1 else stop_with Fault.
(** What [printf ("%s")] reads. *)
Fixpoint read_string (fuel : nat) (a : Z) (off : nat) : M ipc (list Z) :=
  match fuel with
  | O => stop_with Blocked
  | S fuel =>
      c ← load_bytes a off 1;
      match c with
      | [c] => if c =? 0 then mret [] else s ← read_string fuel a (S off); mret (c :: s)
      | _ => stop_with Fault
      end
  end.
Definition print_frame (b : Z * nat) : M ipc (list Z) := read_string (S BUF) b.1 b.2.

(** ** Both *)

(** Where the thread [get] is in its loop. *)
Inductive getting := Get | Print (b : Z * nat) | Free (b : Z * nat).
Record demo := mkDemo { shared : world; get_at : getting; sent : nat; waits : nat; printed : list (list Z) }.

Inductive turn := Sender | Receiver.
(** [None] is undefined behaviour; a turn of a thread that has to wait changes nothing. *)
Definition as_receiver_turn {A} (m : M ipc A) (k : A → world → demo) (d : demo) : option demo :=
  match m ((w_ipc (shared d)) <| me := receiver (shared d) |>) with
  | Done r s => Some (k r (mkWorld (s <| me := me (w_ipc (shared d)) |>) (me s)))
  | Stop Blocked _ => Some d
  | Stop _ _ => None
  end.
Definition take_turn (ids : IPC_IDS) (t : turn) (d : demo) : option demo :=
  match t with
  | Sender =>
      match send_turn ids (w_ipc (shared d)) with
      | Done r s =>
          let w := mkWorld s (receiver (shared d)) in
          Some (if r =? 0 then mkDemo w (get_at d) (S (sent d)) (waits d) (printed d)
                else mkDemo w (get_at d) (sent d) (S (waits d)) (printed d))
      | Stop _ _ => None
      end
  | Receiver =>
      match get_at d with
      | Get => as_receiver_turn (get_frame ids) (λ b w, mkDemo w (Print b) (sent d) (waits d) (printed d)) d
      | Print b => as_receiver_turn (print_frame b) (λ l w, mkDemo w (Free b) (sent d) (waits d) (printed d ++ [l])) d
      | Free b => as_receiver_turn (free_frame b) (λ _ w, mkDemo w Get (sent d) (waits d) (printed d)) d
      end
  end.
Fixpoint play (ids : IPC_IDS) (ts : list turn) (d : demo) : option demo :=
  match ts with [] => Some d | t :: ts => d ← take_turn ids t d; play ids ts d end.
(** Both [main]s: [b] starts when [a] has created the frame. *)
Definition start (s : ipc) (rcv : proc) : option (IPC_IDS * demo) :=
  match create s with
  | Done (ids, _) s =>
      '(found, _, w) ← as_receiver (GetFrameStart 0) (mkWorld s rcv);
      Some (found, mkDemo w Get 0 0 [])
  | Stop _ _ => None
  end.
End Programs.

(** * What they do *)

Section Proofs.
Context {FT : Ftok} (ids : IPC_IDS).

Definition frame : list Z := is_used ++ buf.
Definition cap : nat := Z.to_nat (pages (Z.of_nat (sizeof_int + BUF))).
Lemma frame_length : length frame = 1028%nat.
Proof. done. Qed.
Lemma send_allowed b : allowed cap (Send is_used buf) b.
Proof. split; [done|]. change (length (is_used ++ buf)) with 1028%nat. unfold cap. change (Z.to_nat _) with 4096%nat. lia. Qed.

(** The box, for the place where the receiver is. *)
Inductive at_box : getting → box → Prop :=
  | at_empty : at_box Get Empty
  | at_full : at_box Get (Full frame)
  | at_print a : at_box (Print (a, sizeof_int)) (Taken frame a)
  | at_free a : at_box (Free (a, sizeof_int)) (Taken frame a).
(** Frames that were sent and not printed yet. *)
Definition unprinted (g : getting) (b : box) : nat :=
  match g, b with Free _, _ => 0 | _, Empty => 0 | _, _ => 1 end.
Record going (d : demo) : Prop := {
  going_box : ∃ b, at_box (get_at d) b ∧ boxed 0 ids cap (Z.of_nat (sent d)) (shared d) b ∧
    sent d = (length (printed d) + unprinted (get_at d) b)%nat;
  going_printed : Forall (.= hello_text) (printed d);
}.

Lemma send_turn_goes d : going d → Z.of_nat (sent d) ≤ SEMAEM → ∃ d', take_turn ids Sender d = Some d' ∧ going d' ∧ (sent d' ≤ S (sent d))%nat.
Proof.
  intros [(b & Hat & Hb & Hs) Hp] Hn. pose proof (bx_calls _ _ _ _ _ _ Hb) as Hr.
  destruct (send_ok 0 ids cap (Z.of_nat (sent d)) (shared d) b is_used buf Hb) as (w' & E & Hb'); [lia|apply send_allowed|].
  assert (Et : send_turn ids (w_ipc (shared d)) =
    SendSharedFrame 0 ids (Some is_used) (Z.of_nat (length is_used)) (Some buf) (Z.of_nat (length buf)) (w_ipc (shared d))).
  { unfold send_turn, refusal, mbind, M_bind. rewrite Hr. done. }
  unfold run_op in E. cbn [take_turn]. rewrite Et.
  destruct (SendSharedFrame _ _ _ _ _ _ _) as [r s|]; [|done]. injection E as E <-.
  destruct (r =? 0), b; try done; eexists; (split; [reflexivity|split; [split; [|exact Hp]|cbn; lia]]); cbn [get_at shared sent printed sent_by] in *.
  - assert (Hg : get_at d = Get) by (by inversion Hat). rewrite Hg in *. exists (Full frame). split_and!; [constructor|by replace (Z.of_nat (S (sent d))) with (Z.of_nat (sent d) + 1) by lia|]. cbn in *. lia.
  - exists (Full f). split_and!; [done|by rewrite Z.add_0_r in Hb'|done].
  - exists (Taken f a). split_and!; [done|by rewrite Z.add_0_r in Hb'|done].
Qed.

Lemma receiver_turn_done {A} (m : M ipc A) (k : A → world → demo) d r w' :
  as_receiver m (shared d) = Some (r, w') → as_receiver_turn m k d = Some (k r w').
Proof. unfold as_receiver, as_receiver_turn. destruct (m _) as [a s|]; [|done]. by intros [= <- <-]. Qed.
Lemma receiver_bind {A B} (m : M ipc A) (f : A → B) w r w' :
  as_receiver m w = Some (r, w') → as_receiver (x ← m; mret (f x)) w = Some (f r, w').
Proof. unfold as_receiver, mbind, M_bind. destruct (m _) as [a s|]; [|done]. by intros [= <- <-]. Qed.

Lemma attach_blocks n w b len : boxed 0 ids cap n w b → posted b = 0 →
  ∃ s, AttachSharedFrame ids len ((w_ipc w) <| me := receiver w |>) = Stop Blocked s.
Proof.
  intros [_ _ Hr _ (x & Hx & Hv) _ _ _ _ _] Hb. unfold AttachSharedFrame, sem_op_, semop, refusal.
  unfold mbind, M_bind, gets. rs. rewrite Hr. rs. rewrite Hx. rs. rewrite Hv, Hb. by eexists.
Qed.

(** A string in memory. *)
Lemma read_string_spec a s l : Forall (.≠ 0) l → ∀ off fuel, (length l < fuel)%nat →
  (∀ i c, (l ++ [0]) !! i = Some c → load_bytes a (off + i) 1 s = Done [c] s) → read_string fuel a off s = Done l s.
Proof.
  induction 1 as [|c l Hc Hl IH]; intros off [|fuel] Hf H; try (cbn in Hf; lia); cbn [read_string]; unfold mbind, M_bind.
  - pose proof (H 0%nat 0 eq_refl) as H0. rewrite Nat.add_0_r in H0. by rewrite H0.
  - pose proof (H 0%nat c eq_refl) as H0. rewrite Nat.add_0_r in H0. rewrite H0, (proj2 (Z.eqb_neq c 0)) by done.
    rewrite (IH (S off) fuel); [done|cbn in Hf; lia|]. intros i x Hi. replace (S off + i)%nat with (off + S i)%nat by lia. by apply H.
Qed.

(** The text of the frame in the segment. *)
Lemma read_hello n w a : boxed 0 ids cap n w (Taken frame a) → as_receiver (print_frame (a, sizeof_int)) w = Some (hello_text, w).
Proof.
  intros [_ _ _ (g & Hg & _ & _ & [k Hk] & _) _ _ _ _ _ Ha].
  set (s := (w_ipc w) <| me := receiver w |>).
  assert (H : ∀ off c, frame !! off = Some c → load_bytes a off 1 s = Done [c] s).
  { intros off c Hc. assert (Hw : wp (load_bytes a off 1) (λ r s', r = [c] ∧ s' = s) s).
    { pose proof (lookup_lt_Some _ _ _ Hc) as Hl. eapply wp_load_bytes; [exact Ha|exact Hg|rewrite Hk, length_app; lia|]. split; [|done].
      rewrite Hk, drop_app_le by lia. rewrite (drop_S frame c off Hc). cbn. by rewrite take_0. }
    apply wp_done in Hw as (r & s' & -> & -> & ->). done. }
  assert (Hp : print_frame (a, sizeof_int) s = Done hello_text s).
  { apply read_string_spec; [by repeat constructor|unfold BUF; cbn; lia|]. intros i c Hi. apply H. unfold sizeof_int.
    do 6 (destruct i as [|i]; [done|]). done. }
  unfold as_receiver. fold s. rewrite Hp. unfold s. rs. destruct w as [[] ?]. done.
Qed.

Lemma receiver_turn_goes d : going d → Z.of_nat (sent d) ≤ SEMAEM → ∃ d', take_turn ids Receiver d = Some d' ∧ going d' ∧ sent d' = sent d.
Proof.
  intros [(b & Hat & Hb & Hs) Hp] Hn. cbn [take_turn]. remember (get_at d) as g eqn:Hg. destruct Hat as [| |a|a].
  - destruct (attach_blocks _ _ _ sizeof_frame_t Hb eq_refl) as [s E]. exists d. split_and!; [|split; [exists Empty; rewrite <- Hg; split_and!; [constructor|done|done]|done]|done].
    unfold as_receiver_turn, get_frame, mbind, M_bind. by rewrite E.
  - destruct (take_ok 0 ids cap _ _ _ sizeof_frame_t Hb) as (w' & E & Hb'); [lia|rewrite frame_length; unfold sizeof_frame_t; lia|].
    unfold run_op in E. destruct (as_receiver (AttachSharedFrame ids sizeof_frame_t) (shared d)) as [[[f a] w1]|] eqn:Ea; [|done].
    cbn in E. injection E as _ -> ->.
    eexists. split; [apply receiver_turn_done; unfold get_frame; exact (receiver_bind _ (λ r, (r.2, sizeof_int)) _ _ _ Ea)|].
    split; [|done]. split; [|exact Hp]. exists (Taken frame (next_addr (receiver (shared d)))). split_and!; [constructor|exact Hb'|cbn in *; lia].
  - eexists. split; [apply receiver_turn_done; by eapply read_hello|]. split; [|done]. split.
    + exists (Taken frame a). split_and!; [constructor|done|]. cbn in *. rewrite length_app. cbn. lia.
    + cbn. apply Forall_app. split; [exact Hp|by apply Forall_singleton].
  - destruct (free_ok 0 ids cap _ _ _ _ Hb) as (w' & E & Hb'). unfold run_op in E.
    destruct (as_receiver (DeattachSharedFrame a) (shared d)) as [[[] w1]|] eqn:Ea; [|done]. cbn in E. injection E as ->.
    eexists. split; [apply receiver_turn_done; exact Ea|]. split; [|done]. split; [|exact Hp].
    exists Empty. split_and!; [constructor|exact Hb'|cbn in *; lia].
Qed.

Lemma play_goes ts d : going d → Z.of_nat (sent d + length ts) ≤ SEMAEM + 1 →
  ∃ d', play ids ts d = Some d' ∧ going d' ∧ (sent d' ≤ sent d + length ts)%nat.
Proof.
  revert d. induction ts as [|t ts IH]; intros d Hd Hn; cbn [play].
  - exists d. split_and!; [done|done|lia].
  - cbn [length] in Hn. assert (H : ∃ d', take_turn ids t d = Some d' ∧ going d' ∧ (sent d' ≤ S (sent d))%nat).
    { destruct t; [apply send_turn_goes; [done|lia]|]. destruct (receiver_turn_goes d Hd) as (d' & ? & ? & E); [lia|].
      exists d'. split_and!; [done|done|lia]. }
    destruct H as (d1 & -> & H1 & Hs). cbn. destruct (IH d1 H1) as (d' & E & H2 & Hs2); [lia|].
    exists d'. split_and!; [exact E|done|cbn; lia].
Qed.
End Proofs.

Section Together.
Context {FT : Ftok}.

Lemma start_found flag i r w w' : refusals (w_ipc w) = [] → as_receiver (GetFrameStart flag) w = Some ((i, r), w') → r = 0 → w' = w.
Proof.
  intros Hr E ->. revert E. unfold as_receiver, GetFrameStart, shmget_old, semget_old, refusal, failing, set_errno, upd_me, gets, mbind, M_bind.
  rs. rewrite Hr. unfold modify, mret, M_ret. cbn [id]. repeat case_match; simplify_eq; rs; intros; simplify_eq; try lia.
  - by destruct w as [[] ?].
  - rs_all. congruence.
Qed.

(** C15: in whatever order the programs take their turns, nothing faults, the receiver prints "hello" for the frames that were
    sent, all of them but at most the last one, and it prints nothing else; as long as at most 32767 turns are taken, since
    the counters of the semaphore overflow after as many frames. *)
Theorem frames_arrive s rcv ts :
  sane s → g_flag (me s) = 0 → addrs_ok rcv → (∀ id, next_id s ≤ id → semadj rcv !! id = None) →
  Z.of_nat (length ts) ≤ SEMAEM →
  ∃ ids d d', start s rcv = Some (ids, d) ∧ play ids ts d = Some d' ∧
    printed d' = replicate (length (printed d')) hello_text ∧ (length (printed d') ≤ sent d' ≤ S (length (printed d')))%nat.
Proof.
  intros Hs Hf Ha Hadj Hn.
  pose proof (create_frame_empty (Z.of_nat (sizeof_int + BUF)) rcv s Hs ltac:(done) Ha Hadj) as H. cbv zeta in H. rewrite Hf in H.
  apply wp_done in H as ([ids r] & s' & E & Hr & Hb & _ & w' & Ew). cbn [fst snd] in *. subst r.
  assert (w' = mkWorld s' rcv) as -> by (eapply start_found; [exact (bx_calls _ _ _ _ _ _ Hb)|exact Ew|done]).
  set (d := mkDemo (mkWorld s' rcv) Get 0 0 []).
  assert (Hg : going ids d). { split; [|done]. exists Empty. split_and!; [constructor|exact Hb|done]. }
  destruct (play_goes ids ts d Hg) as (d' & Ep & [(b & Hat & _ & Hs') Hp] & _); [cbn; lia|].
  exists ids, d, d'. split_and!.
  - unfold start, create. rewrite E. cbn. by rewrite Ew.
  - exact Ep.
  - clear -Hp. induction Hp as [|l ls -> _ IH]; [done|]. cbn [length replicate]. by f_equal.
  - lia.
  - destruct (get_at d'), b; cbn in Hs'; lia.
Qed.
End Together.

Module DemoTurns.
Import FrameIpc.DemoFrames.
#[local] Existing Instance demo_ftok.
Lemma frames_arrive_witness : ∃ ids d d', start used new_proc = Some (ids, d) ∧
  play ids (concat (replicate 3 [Receiver; Sender; Sender; Receiver; Receiver; Receiver])) d = Some d' ∧
  printed d' = replicate (length (printed d')) hello_text ∧ (length (printed d') ≤ sent d' ≤ S (length (printed d')))%nat.
Proof. apply frames_arrive; [apply used_sane|done|apply new_addrs|done|cbn; unfold SEMAEM; lia]. Defined.
(** Three frames, and three more that had to wait. *)
Example three_frames :
  ('(ids, d) ← start used new_proc;
   d' ← play ids (concat (replicate 3 [Receiver; Sender; Sender; Receiver; Receiver; Receiver])) d;
   Some (printed d', sent d', waits d')) = Some ([hello_text; hello_text; hello_text], 3%nat, 3%nat).
Proof. by vm_compute. Qed.
End DemoTurns.
