(* ===== verification/SysVTests.v ===== *)
(** The small tests of System V IPC: test3.cpp, what becomes of a segment that is removed, and sem_test.c, a parent that waits
    for its child.  The system is the one of FrameIpc.v. *)
From Stdlib Require Import Ascii.
From S2P Require Import Prelude FrameIpc.

(** * test3.cpp *)

Section Test3.
(** [ftok ("/usr", 0)] *)
Context (key : Z).

(** [shm_nattch] from [shmctl (..., IPC_STAT, ...)]. *)
Definition attaches (shm_id : Z) : M ipc Z :=
  g ← gets (λ s, segs s !! shm_id);
  g ← from_option_or Fault g;
  mret (sg_nattch g).

(** The result, and the numbers that are printed. *)
(** The second half, from the second [shmget] on. *)
Definition again (SHMDT : bool) (n1 : Z) : M ipc (Z * list Z) :=
  shm_id ← shmget_new key 1024;
  if shm_id <? 0 then mret (-1, [n1]) else
  addr ← shmat shm_id;
  if addr =? -1 then mret (-1, [n1]) else
  when SHMDT (shmdt addr;; mret ());;
  n2 ← attaches shm_id;
  shm_remove shm_id;;
  mret (0, [n1; n2]).
Definition main3 (SHMDT NO_IPC_RMID : bool) : M ipc (Z * list Z) :=
  shm_id ← shmget_new key 1024;
  if shm_id <? 0 then mret (-1, []) else
  addr ← shmat shm_id;
  if addr =? -1 then mret (-1, []) else
  n1 ← attaches shm_id;
  when SHMDT (shmdt addr;; mret ());;
  when (negb NO_IPC_RMID) (shm_remove shm_id;; mret ());;
  again SHMDT n1.
(** The whole process. *)
Definition process3 (SHMDT NO_IPC_RMID : bool) : M ipc (Z * list Z) :=
  r ← main3 SHMDT NO_IPC_RMID;
  exit_process;;
  mret r.

(** What matters of a state: the segments, where the process has them, and the next identifier and address. *)
Record at_ (sg : gmap Z segment) (mp : gmap Z Z) (ni ad : Z) (s : ipc) : Prop := {
  at_calls : refusals s = []; at_segs : segs s = sg; at_maps : maps (me s) = mp;
  at_next : next_id s = ni; at_addr : next_addr (me s) = ad; at_undo : semadj (me s) = ∅;
}.
(** No segment of the name, and a process that has done nothing yet. *)
Record clean (s : ipc) : Prop := {
  cl_at : at_ (segs s) ∅ (next_id s) (next_addr (me s)) s;
  cl_key : find_key sg_key key (segs s) = None;
  cl_next : 0 ≤ next_id s;
  cl_new : ∀ id, next_id s ≤ id → segs s !! id = None;
  cl_addr : 0 < next_addr (me s);
}.
Definition fresh_segment : segment := mkSeg (Some key) (replicate 4096 0) 0.
Definition attached (k : option Z) (n : Z) : segment := mkSeg k (replicate 4096 0) n.

Section Calls.
Context (sg : gmap Z segment) (mp : gmap Z Z) (ni ad : Z).
Implicit Types Q : Z → ipc → Prop.

Lemma at_shmget Q s : at_ sg mp ni ad s → find_key sg_key key sg = None →
  (∀ s', at_ (<[ni := attached (Some key) 0]> sg) mp (ni + 1) ad s' → Q ni s') → wp (shmget_new key 1024) Q s.
Proof.
  intros [Hr <- Hm <- Ha Hu] Hk HQ. unfold shmget_new. wp_step. apply wp_no_refusal; [done|]. wp_step. apply wp_gets. unfold id. rewrite Hk.
  change (1024 <=? 0) with false. change (Z.to_nat (pages 1024)) with 4096%nat. cbn iota. wp_go. apply HQ. by split.
Qed.
Lemma at_shmget_exists Q s i : at_ sg mp ni ad s → find_key sg_key key sg = Some i →
  (∀ s', at_ sg mp ni ad s' → Q (-1) s') → wp (shmget_new key 1024) Q s.
Proof.
  intros [Hr <- Hm Hn Ha Hu] Hk HQ. unfold shmget_new. wp_step. apply wp_no_refusal; [done|]. wp_step. apply wp_gets. unfold id. rewrite Hk.
  unfold failing, set_errno, upd_me. wp_go. apply HQ. by split; rs.
Qed.
Lemma at_shmat Q s i k n : at_ sg mp ni ad s → sg !! i = Some (attached k n) →
  (∀ s', at_ (<[i := attached k (n + 1)]> sg) (<[ad := i]> mp) ni (ad + 4096) s' → Q ad s') → wp (shmat i) Q s.
Proof.
  intros [Hr <- <- Hn <- Hu] Hg HQ. eapply wp_shmat; [done|done|]. apply HQ. by split.
Qed.
Lemma at_attaches Q s i k n : at_ sg mp ni ad s → sg !! i = Some (attached k n) → Q n s → wp (attaches i) Q s.
Proof.
  intros [_ <- _ _ _ _] Hg HQ. unfold attaches. wp_step. apply wp_gets. wp_step. eapply wp_from_option; [exact Hg|]. by apply wp_ret.
Qed.
Lemma at_remove Q s i k n : at_ sg mp ni ad s → sg !! i = Some (attached k n) →
  (∀ s', at_ (if n =? 0 then delete i sg else <[i := attached None n]> sg) mp ni ad s' → Q 0 s') → wp (shm_remove i) Q s.
Proof.
  intros [Hr <- Hm Hn Ha Hu] Hg HQ. unfold shm_remove. wp_step. apply wp_gets. rewrite Hg. wp_go. apply HQ. by split.
Qed.
Lemma at_shmdt Q s a i k n : at_ sg mp ni ad s → mp !! a = Some i → sg !! i = Some (attached k n) →
  (∀ s', at_ (if (n - 1 =? 0) && bool_decide (k = None) then delete i sg else <[i := attached k (n - 1)]> sg) (delete a mp) ni ad s' → Q 0 s') →
  wp (shmdt a) Q s.
Proof.
  intros [Hr <- <- Hn Ha Hu] Hm Hg HQ. unfold shmdt. wp_step. apply wp_gets. rewrite Hm. wp_step. apply wp_gets. rewrite Hg.
  unfold upd_me. wp_go. apply HQ. by split.
Qed.
(** The process ends: a segment without a name that only it has goes. *)
Lemma at_exit (Q : () → ipc → Prop) l s : at_ sg mp ni ad s → (map_to_list mp).*1 ≡ₚ l →
  (∀ l', l' ≡ₚ l → wp (mfor l' (λ a, shmdt a;; mret ())) (λ _ s', ∀ s2, segs s2 = segs s' → Q () s2) s) → wp exit_process Q s.
Proof.
  intros [Hr <- <- Hn Ha Hu] Hl HQ. unfold exit_process. wp_step. apply wp_modify. rewrite Hu, map_fold_empty.
  assert (Es : s <| sems := sems s |> = s) by (by destruct s). rewrite Es. wp_step. apply wp_gets. wp_step.
  eapply wp_mono; [by apply HQ|]. intros [] s' H. unfold upd_me. apply wp_modify. by apply H.
Qed.
End Calls.

Lemma key_fresh (m : gmap Z segment) i n : find_key sg_key key m = None →
  find_key sg_key key (<[i := attached None n]> m) = None.
Proof.
  rewrite !find_key_none. intros Hm j x [[_ <-]|[_ H]]%lookup_insert_Some; [done|by eapply Hm].
Qed.
Lemma key_found (m : gmap Z segment) i n : find_key sg_key key m = None →
  find_key sg_key key (<[i := attached (Some key) n]> m) = Some i.
Proof.
  intros Hm. pose proof (proj1 (find_key_none _ _ _) Hm) as H. clear Hm. destruct (find_key sg_key key (<[i := _]> m)) as [j|] eqn:E.
  - apply find_key_some in E as (x & [[<- _]|[_ Hx]]%lookup_insert_Some & Hk); [done|]. by apply H in Hx.
  - pose proof (proj1 (find_key_none _ _ _) E i (attached (Some key) n)) as Hn. rewrite lookup_insert_eq in Hn. by destruct Hn.
Qed.

(** The end, with no segment attached, and with one or two. *)
Lemma exit_none sg ni ad s (Q : () → ipc → Prop) : at_ sg ∅ ni ad s → (∀ s2, segs s2 = sg → Q () s2) → wp exit_process Q s.
Proof.
  intros Hs HQ. eapply (at_exit _ _ _ _ _ []); [exact Hs|by rewrite map_to_list_empty|].
  intros l' ->%Permutation_nil_r. apply wp_ret. intros s2 E. apply HQ. rewrite E. by destruct Hs.
Qed.
Lemma exit_one sg ni ad a i k s (Q : () → ipc → Prop) : at_ sg {[a := i]} ni ad s → sg !! i = Some (attached k 1) →
  (∀ s2, segs s2 = (if bool_decide (k = None) then delete i sg else <[i := attached k 0]> sg) → Q () s2) → wp exit_process Q s.
Proof.
  intros Hs Hi HQ. eapply (at_exit _ _ _ _ _ [a]); [exact Hs|by rewrite map_to_list_singleton|].
  intros l' ->%Permutation_singleton_r. cbn [mfor]. wp_step. wp_step. eapply at_shmdt; [exact Hs|apply lookup_singleton_eq|exact Hi|].
  intros s' Hs'. wp_go. intros s2 E. apply HQ. rewrite E, (at_segs _ _ _ _ _ Hs'). by destruct k.
Qed.
Lemma exit_two sg ni ad a b i j s (Q : () → ipc → Prop) : a ≠ b → i ≠ j → at_ sg (<[b := j]> {[a := i]}) ni ad s →
  sg !! i = Some (attached None 1) → sg !! j = Some (attached None 1) →
  (∀ s2, segs s2 = delete i (delete j sg) → Q () s2) → wp exit_process Q s.
Proof.
  intros Hab Hij Hs Hi Hj HQ. eapply (at_exit _ _ _ _ _ [b; a]); [exact Hs| |].
  { rewrite map_to_list_insert by (by rewrite lookup_singleton_ne). by rewrite map_to_list_singleton. }
  intros l' Hl. symmetry in Hl. apply Permutation_length_2_inv in Hl as [-> | ->]; cbn [mfor]; wp_step; wp_step.
  - eapply at_shmdt; [exact Hs|apply lookup_insert_eq|exact Hj|]. clear s Hs. intros s Hs. wp_step. wp_step. wp_step.
    eapply at_shmdt; [exact Hs|rewrite delete_insert_id by (by rewrite lookup_singleton_ne); apply lookup_singleton_eq
      |cbn; by rewrite lookup_delete_ne|]. clear s Hs. intros s Hs. wp_go. intros s2 E. apply HQ. by rewrite E, (at_segs _ _ _ _ _ Hs).
  - eapply at_shmdt; [exact Hs|by rewrite lookup_insert_ne, lookup_singleton_eq|exact Hi|]. clear s Hs. intros s Hs. wp_step. wp_step. wp_step.
    eapply at_shmdt; [exact Hs|by rewrite lookup_delete_ne, lookup_insert_eq|cbn; by rewrite lookup_delete_ne|].
    clear s Hs. intros s Hs. wp_go. intros s2 E. apply HQ. rewrite E, (at_segs _ _ _ _ _ Hs). cbn. apply delete_delete.
Qed.

(** The second half of the program. *)
Lemma second_segment (SHMDT : bool) n1 sg mp j b s (Q : Z * list Z → ipc → Prop) : at_ sg mp j b s → find_key sg_key key sg = None →
  0 ≤ j → 0 < b → sg !! j = None → mp !! b = None →
  (∀ s', at_ (if SHMDT then sg else <[j := attached None 1]> sg) (if SHMDT then mp else <[b := j]> mp) (j + 1) (b + 4096) s' →
     Q (0, [n1; if SHMDT then 0 else 1]) s') →
  wp (again SHMDT n1) Q s.
Proof.
  intros Hs Hk Hj Hb Hsg Hmp HQ. unfold again. wp_step. eapply at_shmget; [exact Hs|done|]. clear s Hs. intros s Hs.
  rewrite (proj2 (Z.ltb_ge j 0)) by lia.
  wp_step. eapply at_shmat; [exact Hs|apply lookup_insert_eq|]. rewrite insert_insert_eq. clear s Hs. intros s Hs.
  rewrite (proj2 (Z.eqb_neq b (-1))) by lia. wp_step. destruct SHMDT; cbn [when].
  - wp_step. eapply at_shmdt; [exact Hs|apply lookup_insert_eq|apply lookup_insert_eq|]. rewrite bool_decide_eq_false_2 by done.
    rewrite andb_false_r, insert_insert_eq, delete_insert_id by done. clear s Hs. intros s Hs. apply wp_ret. wp_step.
    eapply at_attaches; [exact Hs|apply lookup_insert_eq|]. wp_step.
    eapply at_remove; [exact Hs|apply lookup_insert_eq|]. cbn [Z.add Z.sub Z.eqb]. rewrite delete_insert_id by done.
    clear s Hs. intros s Hs. by apply wp_ret, HQ.
  - apply wp_ret. wp_step. eapply at_attaches; [exact Hs|apply lookup_insert_eq|]. wp_step.
    eapply at_remove; [exact Hs|apply lookup_insert_eq|]. cbn [Z.add Z.sub Z.eqb]. rewrite insert_insert_eq.
    clear s Hs. intros s Hs. by apply wp_ret, HQ.
Qed.

(** The second segment can be made when the first one has been removed, even while it is attached, and nothing is left
    of them when the process has ended; when it is not removed it stays for ever. *)
Theorem process3_leaves SHMDT NO_IPC_RMID s : clean s →
  wp (process3 SHMDT NO_IPC_RMID) (λ r s',
    r = (if NO_IPC_RMID then (-1, [1]) else (0, [1; if SHMDT then 0 else 1])) ∧
    segs s' = (if NO_IPC_RMID then <[next_id s := attached (Some key) 0]> (segs s) else segs s)) s.
Proof.
  intros [Hs Hk Hn Hnew Ha]. revert Hs Hn Ha Hnew. generalize (next_id s) as i, (next_addr (me s)) as a. intros i a Hs Hn Ha Hnew.
  set (sg := segs s) in *. clearbody sg.
  unfold process3, main3. wp_step. wp_step. eapply at_shmget; [exact Hs|done|]. clear s Hs. intros s Hs.
  rewrite (proj2 (Z.ltb_ge i 0)) by lia.
  wp_step. eapply at_shmat; [exact Hs|apply lookup_insert_eq|]. rewrite insert_insert_eq. clear s Hs. intros s Hs.
  rewrite (proj2 (Z.eqb_neq a (-1))) by lia. wp_step. eapply at_attaches; [exact Hs|apply lookup_insert_eq|]. wp_step.
  assert (Hdel : ∀ x, delete i (<[i := x]> sg) = sg) by (intros x; apply delete_insert_id, Hnew; lia).
  assert (H1 : a + 4096 ≠ a) by lia. assert (Hi1 : i ≠ i + 1) by lia.
  destruct SHMDT; cbn [when].
  - wp_step. eapply at_shmdt; [exact Hs|apply lookup_insert_eq|apply lookup_insert_eq|]. rewrite bool_decide_eq_false_2 by done.
    rewrite andb_false_r, insert_insert_eq, delete_insert_id by done. clear s Hs. intros s Hs. apply wp_ret. wp_step.
    destruct NO_IPC_RMID; cbn [when negb].
    + apply wp_ret. unfold again. wp_step. eapply at_shmget_exists; [exact Hs|by apply key_found|]. clear s Hs. intros s Hs.
      apply wp_ret. wp_step. eapply exit_none; [exact Hs|]. intros s2 E. by apply wp_ret.
    + wp_step. eapply at_remove; [exact Hs|apply lookup_insert_eq|]. cbn [Z.add Z.sub Z.eqb]. rewrite Hdel.
      clear s Hs. intros s Hs. apply wp_ret. eapply (second_segment true); [exact Hs|done|lia|lia|apply Hnew; lia|done|].
      clear s Hs. intros s Hs. wp_step. eapply exit_none; [exact Hs|]. intros s2 E. by apply wp_ret.
  - apply wp_ret. wp_step. destruct NO_IPC_RMID; cbn [when negb].
    + apply wp_ret. unfold again. wp_step. eapply at_shmget_exists; [exact Hs|by apply key_found|]. clear s Hs. intros s Hs.
      apply wp_ret. wp_step. eapply exit_one; [exact Hs|apply lookup_insert_eq|]. intros s2 E. apply wp_ret. split; [done|].
      rewrite E. by rewrite bool_decide_eq_false_2, insert_insert_eq by done.
    + wp_step. eapply at_remove; [exact Hs|apply lookup_insert_eq|]. cbn [Z.add Z.sub Z.eqb]. rewrite insert_insert_eq.
      clear s Hs. intros s Hs. apply wp_ret.
      eapply (second_segment false); [exact Hs|by apply key_fresh|lia|lia|rewrite lookup_insert_ne by done; apply Hnew; lia|by rewrite lookup_insert_ne|].
      clear s Hs. intros s Hs. wp_step. eapply (exit_two _ _ _ a (a + 4096) i (i + 1)); [lia|lia|exact Hs| |apply lookup_insert_eq|].
      { rewrite lookup_insert_ne by lia. apply lookup_insert_eq. }
      intros s2 E. apply wp_ret. split; [done|]. rewrite E. rewrite delete_insert_id by (rewrite lookup_insert_ne by done; apply Hnew; lia).
      apply Hdel.
Qed.
End Test3.

(** * sem_test.c *)

Section SemTest.
(** [ftok (".", 'a')] *)
Context (key : Z).

(** [semget (key, 1, 0666 | IPC_CREAT)]: the one that is there, or a new one. *)
Definition semget_or_new : M ipc Z :=
  r ← refusal;
  match r with
  | Some e => failing e
  | None =>
      s ← gets id;
      match find_key (λ x, Some (ss_key x)) key (sems s) with
      | Some i => mret i
      | None =>
          modify (λ s, s <| sems := <[next_id s := mkSem key 0]> (sems s) |> <| next_id := next_id s + 1 |>);;
          mret (next_id s)
      end
  end.
Definition init_sem (sem_id init_value : Z) : M ipc Z :=
  r ← sem_setval sem_id init_value;
  mret (if r <? 0 then -1 else 0).
Definition del_sem (sem_id : Z) : M ipc Z :=
  r ← sem_remove sem_id;
  mret (if r <? 0 then -1 else 0).

(** What has been printed, by whom. *)
Inductive message := In_child | In_father.
(** Where the processes are: before and after each call that matters to the other one. *)
Inductive father_at := F_wait | F_print | F_del | F_end.
Inductive child_at := C_print | C_post | C_end.
(** The state is the father's; the child is [receiver]. *)
Record test := mkTest { both : world; father : father_at; child : child_at; out : list message }.

Inductive turn := Father | Child.
Definition take_turn (sem_id : Z) (t : turn) (x : test) : option test :=
  match t with
  | Father =>
      let run {A} (m : M ipc A) (next : father_at) (l : list message) :=
        match m (w_ipc (both x)) with
        | Done _ s => Some (mkTest (mkWorld s (receiver (both x))) next (child x) (out x ++ l))
        | Stop Blocked _ => Some x
        | Stop _ _ => None
        end in
      match father x with
      | F_wait => run (sem_op_ false "p"%char sem_id) F_print []
      | F_print => run (mret ()) F_del [In_father]
      | F_del => run (del_sem sem_id) F_end []
      | F_end => Some x
      end
  | Child =>
      let run {A} (m : M ipc A) (next : child_at) (l : list message) :=
        '(_, w) ← as_receiver m (both x); Some (mkTest w (father x) next (out x ++ l)) in
      match child x with
      | C_print => run (mret ()) C_post [In_child]
      | C_post => run (sem_op_ false "v"%char sem_id) C_end []
      | C_end => Some x
      end
  end.
Fixpoint play (sem_id : Z) (ts : list turn) (x : test) : option test :=
  match ts with [] => Some x | t :: ts => x ← take_turn sem_id t x; play sem_id ts x end.
(** [main] up to [fork]. *)
Definition start_test : M ipc Z := sem_id ← semget_or_new; init_sem sem_id 0;; mret sem_id.
Definition forked (s : ipc) : test := mkTest (mkWorld s ((me s) <| semadj := ∅ |>)) F_wait C_print [].

(** The value of the semaphore, and what is printed, at each point. *)
Definition value_at (f : father_at) (c : child_at) : option Z :=
  match f, c with F_wait, C_end => Some 1 | F_end, _ => None | _, _ => Some 0 end.
Definition printed_at (f : father_at) (c : child_at) : list message :=
  match c with C_print => [] | _ => [In_child] end ++ match f with F_wait | F_print => [] | _ => [In_father] end.
Record testing (sem_id : Z) (x : test) : Prop := {
  ts_order : father x = F_wait ∨ child x = C_end;
  ts_calls : refusals (w_ipc (both x)) = [];
  ts_undo : semadj (me (w_ipc (both x))) !! sem_id = None ∧ semadj (receiver (both x)) !! sem_id = None;
  ts_value : ss_val <$> sems (w_ipc (both x)) !! sem_id = value_at (father x) (child x);
  ts_out : out x = printed_at (father x) (child x);
}.
(** What a turn does: the father goes on when the child has got to its end. *)
Definition spec_turn (t : turn) (fc : father_at * child_at) : father_at * child_at :=
  let '(f, c) := fc in
  match t with
  | Father =>
      (match f, c with F_wait, C_end => F_print | F_wait, _ => F_wait | F_print, _ => F_del | _, _ => F_end end, c)
  | Child => (f, match c with C_print => C_post | _ => C_end end)
  end.

Lemma semop_done id (up : bool) x s : refusals s = [] → sems s !! id = Some x →
  0 ≤ ss_val x + (if up then 1 else -1) ≤ SEMVMX → semadj (me s) !! id = None →
  sem_op_ false (if up then "v"%char else "p"%char) id s =
    Done 0 (s <| sems := <[id := x <| ss_val := ss_val x + (if up then 1 else -1) |>]> (sems s) |>).
Proof.
  intros Hr Hx Hv Ha. assert (Hw : wp (sem_op_ false (if up then "v"%char else "p"%char) id) (λ r s', r = 0 ∧
    s' = s <| sems := <[id := x <| ss_val := ss_val x + (if up then 1 else -1) |>]> (sems s) |>) s).
  { unfold sem_op_. wp_step. replace (if Ascii.eqb (if up then "v"%char else "p"%char) "p" then -1 else 1) with (if up then 1 else -1) by (by destruct up).
    unfold semop. wp_step. apply wp_no_refusal; [done|]. wp_step. apply wp_gets. rewrite Hx. wp_step. apply wp_gets. rewrite Ha. cbn [default when].
    rewrite (proj2 (Z.ltb_ge _ 0)), (proj2 (Z.ltb_ge SEMVMX _)) by lia. cbn [orb]. change ((0 <? - SEMAEM - 1) || (SEMAEM <? 0)) with false.
    cbn iota. by wp_go. }
  apply wp_done in Hw as (r & s' & -> & -> & ->). done.
Qed.
Lemma semop_waits id x s : refusals s = [] → sems s !! id = Some x → ss_val x = 0 →
  ∃ s', sem_op_ false "p"%char id s = Stop Blocked s'.
Proof.
  intros Hr Hx Hv. unfold sem_op_, semop, refusal, mbind, M_bind, gets. rewrite Hr, Hx, Hv. by eexists.
Qed.

Lemma take_turn_testing sem_id t x : testing sem_id x → ∃ x', take_turn sem_id t x = Some x' ∧ testing sem_id x' ∧
  (father x', child x') = spec_turn t (father x, child x).
Proof.
  intros [Ho Hr [Hu1 Hu2] Hv Hp]. destruct x as [[s rcv] f c o]. cbn in *. destruct t; cbn [take_turn].
  - destruct f; cbn in *.
    + destruct c; cbn in *; destruct (sems s !! sem_id) as [y|] eqn:Ey; cbn in Hv; simplify_eq.
      1,2: destruct (semop_waits sem_id y s Hr Ey Hv) as [s' ->]; eexists; (split; [reflexivity|]); (split; [|done]); split; cbn; try done;
        by rewrite Ey; cbn; rewrite Hv.
      pose proof (semop_done sem_id false y s Hr Ey ltac:(rewrite Hv; unfold SEMVMX; lia) Hu1) as E. cbn iota in E. rewrite E.
      eexists. split; [reflexivity|]. split; [|done]. split; cbn; rs; try done; [by right|]. rewrite lookup_insert_eq. cbn. rs. by rewrite Hv.
    + destruct Ho as [| ->]; [done|]. eexists. split; [reflexivity|]. split; [|done]. split; cbn; try done; [by right|]. by rewrite Hp.
    + destruct Ho as [| ->]; [done|]. cbn in Hv. destruct (sems s !! sem_id) as [y|] eqn:Ey; [|done].
      unfold del_sem, sem_remove, mbind, M_bind, gets. rewrite Ey. eexists. split; [reflexivity|]. split; [|done]. split; cbn; rs; try done; [by right| |].
      * by rewrite lookup_delete_eq.
      * by rewrite Hp.
    + destruct Ho as [| ->]; [done|]. eexists. split; [reflexivity|]. split; [|done]. split; cbn; try done. by right.
  - destruct c; cbn in *.
    + destruct Ho as [-> |]; [|done]. eexists. split; [reflexivity|]. split; [|done]. split; cbn; rs; try done; [by left|]. by rewrite Hp.
    + destruct Ho as [-> |]; [|done]. cbn in Hv. destruct (sems s !! sem_id) as [y|] eqn:Ey; [|done]. cbn in Hv. injection Hv as Hv.
      pose proof (semop_done sem_id true y (s <| me := rcv |>)) as E. rs in E.
      specialize (E Hr Ey ltac:(rewrite Hv; unfold SEMVMX; lia) Hu2). cbn iota in E.
      unfold as_receiver. cbn [w_ipc receiver]. rewrite E. eexists. split; [reflexivity|]. split; [|done]. split; cbn; rs; try done; [by right| |].
      * rewrite lookup_insert_eq. cbn. rs. by rewrite Hv.
      * by rewrite app_nil_r.
    + eexists. split; [reflexivity|]. split; [|done]. by split.
Qed.
Lemma play_testing sem_id ts x : testing sem_id x → ∃ x', play sem_id ts x = Some x' ∧ testing sem_id x' ∧
  (father x', child x') = fold_left (λ fc t, spec_turn t fc) ts (father x, child x).
Proof.
  revert x. induction ts as [|t ts IH]; intros x Hx; cbn [play fold_left]; [by exists x|].
  destruct (take_turn_testing sem_id t x Hx) as (x1 & -> & H1 & E). cbn [mbind option_bind]. change (_ t (father x, child x)) with (spec_turn t (father x, child x)). rewrite <- E. by apply IH.
Qed.

Lemma wp_start_test (Q : Z → ipc → Prop) s : refusals s = [] →
  (∀ id s', refusals s' = [] → ss_val <$> sems s' !! id = Some 0 → semadj (me s') !! id = None → Q id s') →
  wp start_test Q s.
Proof.
  intros Hr HQ. unfold start_test. wp_step.
  assert (Hset : ∀ id y s1, refusals s1 = [] → sems s1 !! id = Some y → wp (init_sem id 0;; mret id) Q s1).
  { intros id y s1 Hr1 Hy. unfold init_sem, sem_setval. wp_step. wp_step. wp_step. apply wp_gets. rewrite Hy.
    change ((0 <? 0) || (SEMVMX <? 0)) with false. cbn iota. unfold upd_me. wp_step. apply wp_modify. wp_step. apply wp_modify. apply wp_ret.
    apply wp_ret. apply wp_ret. apply HQ; rs; [done|by rewrite lookup_insert_eq|apply lookup_delete_eq]. }
  unfold semget_or_new. wp_step. apply wp_no_refusal; [done|]. wp_step. apply wp_gets. unfold id.
  destruct (find_key _ _ _) as [i|] eqn:E.
  - apply find_key_some in E as (y & Hy & _). apply wp_ret. by eapply Hset.
  - wp_step. apply wp_modify. apply wp_ret. eapply Hset; rs; [done|apply lookup_insert_eq].
Qed.

(** Whatever the order of the steps, the father prints after the child; and with enough steps of both, both get to their
    end and the semaphore is gone. *)
Theorem sem_test_orders s ts : refusals s = [] →
  wp start_test (λ sem_id s', ∃ x x', play sem_id ts (forked s') = Some x ∧
    play sem_id (ts ++ [Child; Child; Father; Father; Father]) (forked s') = Some x' ∧
    out x `prefix_of` [In_child; In_father] ∧
    father x' = F_end ∧ child x' = C_end ∧ out x' = [In_child; In_father] ∧ sems (w_ipc (both x')) !! sem_id = None) s.
Proof.
  intros Hr. apply wp_start_test; [done|]. intros id s' Hr' Hv Hu.
  assert (H0 : testing id (forked s')) by (by split; [left|..]).
  destruct (play_testing id ts _ H0) as (x & E & [Ho _ _ _ Hp] & Ex).
  destruct (play_testing id (ts ++ [Child; Child; Father; Father; Father]) _ H0) as (x' & E' & [_ _ _ Hv' Hp'] & Ex').
  rewrite fold_left_app, <- Ex in Ex'. cbn [fold_left] in Ex'.
  exists x, x'. assert (Hend : father x' = F_end ∧ child x' = C_end).
  { destruct (father x), (child x); cbn in Ex'; by injection Ex' as -> ->. }
  destruct Hend as [Hf Hc]. rewrite Hf, Hc in *. cbn in Hv', Hp'. split_and!; [done|done| |done|done|done|by apply fmap_None in Hv'].
  rewrite Hp. destruct (father x), (child x); try (by destruct Ho); cbn; eauto using prefix_nil, prefix_cons.
  all: try (by exists [In_father]); try (by exists []); by exists [In_child; In_father].
Qed.
End SemTest.

Module DemoSysV.
Definition new : ipc := mkIpc ∅ ∅ 1 [] (mkProc 0 [] ∅ 4096 0 ∅).
Lemma new_clean : clean 5 new.
Proof. by split. Qed.
Lemma process3_leaves_witness : ∃ s, process3 5 false true new = Done (-1, [1]) s ∧ segs s = {[1 := attached (Some 5) 0]}.
Proof.
  pose proof (process3_leaves 5 false true new new_clean) as H. apply wp_done in H as (r & s & E & -> & H). by exists s.
Defined.
(** Every later run fails then at once. *)
Example later_runs_fail : match process3 5 false true new with
  | Done _ s => match process3 5 false false (s <| me := me new |>) with Done r _ => r = (-1, []) | _ => False end
  | _ => False
  end.
Proof. by vm_compute. Qed.
Lemma sem_test_orders_witness : ∃ id s, start_test 7 new = Done id s ∧
  ∃ x, play id [Father; Child; Father; Child; Father; Father; Father; Child; Child; Father; Father; Father] (forked s) = Some x ∧
    out x = [In_child; In_father].
Proof.
  pose proof (sem_test_orders 7 new [Father; Child; Father; Child; Father; Father; Father] eq_refl) as H.
  apply wp_done in H as (id & s & E & x & x' & _ & Hx & _ & _ & _ & Ho & _). exists id, s. split; [exact E|]. by exists x'.
Defined.
End DemoSysV.
