(* ===== verification/CallonIpc.v ===== *)
(** Messages between a server and a client: the class [Ipc] of ipc.cpp, over a POSIX
    message queue or a pair of local datagram sockets.

    Queues, sockets and the names they are bound to are part of the state, with one
    process at work; a call that would wait for ever stops as [Blocked], one with a time
    limit fails when it has passed. *)
From S2P Require Import Prelude.

Definition ENOENT := 2.
Definition EAGAIN := 11.
Definition EEXIST := 17.
Definition EINVAL := 22.
Definition EMSGSIZE := 90.
Definition EADDRINUSE := 98.
Definition ETIMEDOUT := 110.
Definition ECONNREFUSED := 111.
Definition EBADF := 9.

(** * ipc.hpp *)

Definition MAX_MSG_NUM : nat := 5.
Definition MSG_LEN : nat := 16.                  (* [sizeof(IPC_MSG)]: an [int] and a pointer *)

Inductive RET_TYPE := SUCCESS | FAIL | NULLPTR | STR_EMPTY | UNKNOWN_TYPE.
Inductive IPC_TYPE := SOCKET | MQUEUE.
Inductive ROLE_TYPE := SERVER | CLIENT.
#[export] Instance ipc_type_dec : EqDecision IPC_TYPE.
Proof. solve_decision. Defined.
#[export] Instance role_type_dec : EqDecision ROLE_TYPE.
Proof. solve_decision. Defined.

(** The members [ipc_mq] and [socket] share their place. *)
Record IPC_INFO := mkInfo { type : IPC_TYPE; ipc_fd : Z; role_type : ROLE_TYPE }.
#[export] Instance eta_info : Eta IPC_INFO := λ i, mkInfo (type i) (ipc_fd i) (role_type i).

(** * The system *)

Definition msg := list Z.

(** The name of a socket stays when the socket is closed.  A queue without a name lives
    on in those that have it open. *)
Record socket := mkSocket { so_inbox : list msg; so_sndtimeo : Z * Z }.
#[export] Instance eta_socket : Eta socket := λ x, mkSocket (so_inbox x) (so_sndtimeo x).
Record mqueue := mkQueue { mq_max : nat; mq_size : nat; mq_msgs : list msg }.
#[export] Instance eta_mqueue : Eta mqueue := λ q, mkQueue (mq_max q) (mq_size q) (mq_msgs q).

Record sys := mkSys {
  sockets : gmap Z socket; bound : ROLE_TYPE → option Z;      (* the two socket names *)
  queues : gmap Z mqueue; mq_fds : gmap Z Z; mq_name : option Z;
  next_fd : Z; clock : Z * Z;                    (* seconds, nanoseconds *)
  refusals : list (option Z); s_errno : Z;
  info : IPC_INFO;                               (* of the object at work *)
}.
#[export] Instance eta_sys : Eta sys := λ s, mkSys (sockets s) (bound s) (queues s) (mq_fds s) (mq_name s)
  (next_fd s) (clock s) (refusals s) (s_errno s) (info s).

(** How many messages wait at a datagram socket. *)
Class Net := { max_dgram_qlen : nat }.

Implicit Types s : sys.

Definition set_errno (e : Z) : M sys () := modify (λ s, s <| s_errno := e |>).
Definition failing (e : Z) : M sys Z := set_errno e;; mret (-1).
Definition refusal : M sys (option Z) := λ s,
  match refusals s with
  | [] => Done None s
  | r :: rs => Done r (s <| refusals := rs |>)
  end.
(** A call that may be refused. *)
Definition or_refused (m : M sys Z) : M sys Z :=
  r ← refusal; match r with Some e => failing e | None => m end.

Definition new_fd : M sys Z := fd ← gets next_fd; modify (λ s, s <| next_fd := fd + 1 |>);; mret fd.
Definition set_bound (r : ROLE_TYPE) (x : option Z) : M sys () :=
  modify (λ s, s <| bound := λ r', if decide (r' = r) then x else bound s r' |>).

(** ** Sockets *)

Definition sys_socket : M sys Z := or_refused (
  fd ← new_fd; modify (λ s, s <| sockets := <[fd := mkSocket [] (0, 0)]> (sockets s) |>);; mret fd).
Definition sys_bind (fd : Z) (r : ROLE_TYPE) : M sys Z := or_refused (
  b ← gets (λ s, bound s r);
  match b with Some _ => failing EADDRINUSE | None => set_bound r (Some fd);; mret 0 end).
Definition sys_setsockopt_buf : M sys Z := or_refused (mret 0).
Definition sys_close (fd : Z) : M sys () := modify (λ s, s <| sockets := delete fd (sockets s) |>).

(** A datagram to the socket behind a name: to a full one it waits as SO_SNDTIMEO says. *)
Definition sys_sendto `{!Net} (fd : Z) (buf : msg) (r : ROLE_TYPE) : M sys Z := or_refused (
  b ← gets (λ s, bound s r);
  ss ← gets sockets;
  match b with
  | None => failing ENOENT
  | Some d =>
      match ss !! d, ss !! fd with
      | None, _ => failing ECONNREFUSED
      | _, None => failing EBADF
      | Some x, Some y =>
          if bool_decide (length (so_inbox x) < max_dgram_qlen)%nat then
            modify (λ s, s <| sockets := <[d := x <| so_inbox := so_inbox x ++ [buf] |>]> (sockets s) |>);;
            mret (Z.of_nat (length buf))
          else if bool_decide (so_sndtimeo y = (0, 0)) then stop_with Blocked else failing EAGAIN
      end
  end).

(** The bytes beyond the buffer are dropped. *)
Definition sys_recvfrom (fd : Z) (len : nat) : M sys (option msg) :=
  r ← refusal;
  match r with
  | Some e => set_errno e;; mret None
  | None =>
      x ← gets (λ s, sockets s !! fd);
      match x with
      | None => set_errno EBADF;; mret None
      | Some x =>
          match so_inbox x with
          | [] => stop_with Blocked
          | m :: ms =>
              modify (λ s, s <| sockets := <[fd := x <| so_inbox := ms |>]> (sockets s) |>);;
              mret (Some (take len m))
          end
      end
  end.
(** [select] for reading with a time limit. *)
Definition sys_select (fd : Z) : M sys Z := or_refused (
  x ← gets (λ s, sockets s !! fd);
  match x with
  | None => failing EBADF
  | Some x => mret (if bool_decide (so_inbox x = []) then 0 else 1)
  end).
Definition sys_get_sndtimeo (fd : Z) : M sys (option (Z * Z)) :=
  r ← refusal;
  match r with
  | Some e => set_errno e;; mret None
  | None => x ← gets (λ s, sockets s !! fd); mret (so_sndtimeo <$> x)
  end.
Definition sys_set_sndtimeo (fd : Z) (v : Z * Z) : M sys Z := or_refused (
  modify (λ s, s <| sockets := alter (λ x, x <| so_sndtimeo := v |>) fd (sockets s) |>);; mret 0).

(** ** Message queues *)

Definition sys_mq_create (max size : nat) : M sys Z := or_refused (
  n ← gets mq_name;
  match n with
  | Some _ => failing EEXIST
  | None =>
      q ← new_fd;
      fd ← new_fd;
      modify (λ s, s <| queues := <[q := mkQueue max size []]> (queues s) |> <| mq_name := Some q |>
                     <| mq_fds := <[fd := q]> (mq_fds s) |>);;
      mret fd
  end).
Definition sys_mq_open : M sys Z := or_refused (
  n ← gets mq_name;
  match n with
  | None => failing ENOENT
  | Some q => fd ← new_fd; modify (λ s, s <| mq_fds := <[fd := q]> (mq_fds s) |>);; mret fd
  end).
Definition sys_mq_unlink : M sys () := modify (λ s, s <| mq_name := None |>).
Definition sys_mq_close (fd : Z) : M sys () := modify (λ s, s <| mq_fds := delete fd (mq_fds s) |>).

(** What a call that has to wait does: for ever, or until an absolute time, which is looked
    at only then. *)
Definition wait_until (limit : option (Z * Z)) : M sys Z :=
  match limit with
  | None => stop_with Blocked
  | Some (_, nsec) => if (nsec <? 0) || (1000000000 <=? nsec) then failing EINVAL else failing ETIMEDOUT
  end.
Definition queue_at (fd : Z) (s : sys) : option (Z * mqueue) :=
  q ← mq_fds s !! fd; x ← queues s !! q; Some (q, x).

Definition sys_mq_send (fd : Z) (buf : msg) (limit : option (Z * Z)) : M sys Z := or_refused (
  q ← gets (queue_at fd);
  match q with
  | None => failing EBADF
  | Some (q, x) =>
      if bool_decide (mq_size x < length buf)%nat then failing EMSGSIZE
      else if bool_decide (length (mq_msgs x) < mq_max x)%nat then
        modify (λ s, s <| queues := <[q := x <| mq_msgs := mq_msgs x ++ [buf] |>]> (queues s) |>);;
        mret 0
      else wait_until limit
  end).
Definition sys_mq_receive (fd : Z) (len : nat) (limit : option (Z * Z)) : M sys (option msg) :=
  r ← refusal;
  match r with
  | Some e => set_errno e;; mret None
  | None =>
      q ← gets (queue_at fd);
      match q with
      | None => set_errno EBADF;; mret None
      | Some (q, x) =>
          if bool_decide (len < mq_size x)%nat then set_errno EMSGSIZE;; mret None
          else
            match mq_msgs x with
            | [] => wait_until limit;; mret None
            | m :: ms =>
                modify (λ s, s <| queues := <[q := x <| mq_msgs := ms |>]> (queues s) |>);;
                mret (Some m)
            end
      end
  end.

(** * The class *)

Section Ipc.
Context {NT : Net}.

Definition other (r : ROLE_TYPE) : ROLE_TYPE := if decide (r = SERVER) then CLIENT else SERVER.

Definition upd_info (f : IPC_INFO → IPC_INFO) : M sys () := modify (λ s, s <| info := f (info s) |>).

(** Log lines are left out. *)
Definition Open (ty : IPC_TYPE) (role : ROLE_TYPE) : M sys RET_TYPE :=
  upd_info (λ i, i <| type := ty |>);;
  match ty with
  | SOCKET =>
      upd_info (λ i, i <| role_type := role |>);;
      set_bound role None;;                                    (* [unlink] *)
      fd ← sys_socket;
      if fd <? 0 then mret FAIL
      else
        b ← sys_bind fd role;
        if b <? 0 then sys_close fd;; mret FAIL
        else
          sys_setsockopt_buf;;
          sys_setsockopt_buf;;
          upd_info (λ i, i <| ipc_fd := fd |>);;
          mret SUCCESS
  | MQUEUE =>
      fd ← (if decide (role = SERVER) then sys_mq_create MAX_MSG_NUM MSG_LEN else sys_mq_open);
      if fd <? 0 then sys_mq_unlink;; mret FAIL
      else upd_info (λ i, i <| ipc_fd := fd |>);; mret SUCCESS
  end.

(** The absolute time [timeout] milliseconds from now. *)
Definition deadline (now : Z * Z) (timeout : Z) : Z * Z :=
  let sec := now.1 + timeout ÷ 1000 in
  let nsec := now.2 + Z.rem timeout 1000 * 1000 * 1000 in
  if 1000000000 <? nsec then (sec + 1, nsec - 1000000000) else (sec, nsec).

(** The bytes that were read and the result, a [size_t]. *)
Definition received (m : option msg) : msg * Z :=
  match m with
  | Some m => (m, Z.of_nat (length m))
  | None => ([], 18446744073709551615)
  end.

Definition Read (len : nat) (timeout : Z) : M sys (msg * Z) :=
  i ← gets info;
  match type i with
  | SOCKET =>
      if timeout <=? 0 then m ← sys_recvfrom (ipc_fd i) len; mret (received m)
      else
        r ← sys_select (ipc_fd i);
        if r =? 0 then mret ([], 0)
        else if r =? -1 then mret ([], 0)
        else m ← sys_recvfrom (ipc_fd i) len; mret (received m)
  | MQUEUE =>
      if timeout <=? 0 then m ← sys_mq_receive (ipc_fd i) len None; mret (received m)
      else
        now ← gets clock;
        m ← sys_mq_receive (ipc_fd i) len (Some (deadline now timeout));
        mret (received m)
  end.

Definition Write (buf : msg) (timeout : Z) : M sys RET_TYPE :=
  i ← gets info;
  match type i with
  | SOCKET =>
      (if timeout <=? 0 then mret ()
       else
         let value := (timeout ÷ 1000, Z.rem timeout 1000 * 1000) in
         v ← sys_get_sndtimeo (ipc_fd i);
         when (negb (bool_decide (v = Some value))) (sys_set_sndtimeo (ipc_fd i) value;; mret ()));;
      sys_sendto (ipc_fd i) buf (other (role_type i));;
      mret FAIL
  | MQUEUE =>
      ret ← (if timeout <=? 0 then sys_mq_send (ipc_fd i) buf None
             else now ← gets clock; sys_mq_send (ipc_fd i) buf (Some (deadline now timeout)));
      mret (if ret =? 0 then SUCCESS else FAIL)
  end.

Definition Close : M sys () :=
  i ← gets info;
  match type i with
  | SOCKET => sys_close (ipc_fd i)
  | MQUEUE => sys_mq_unlink;; sys_mq_close (ipc_fd i)
  end.
End Ipc.

(** * Time limits *)

(** the absolute time is exactly [timeout] milliseconds from now, and its nanoseconds
    are in range, except that a sum of exactly one second is not carried over. *)
Theorem deadline_exact now timeout :
  0 ≤ now.2 < 1000000000 → 0 < timeout →
  let d := deadline now timeout in
  d.1 * 1000000000 + d.2 = now.1 * 1000000000 + now.2 + timeout * 1000000 ∧
  0 ≤ d.2 ≤ 1000000000 ∧
  (d.2 = 1000000000 ↔ now.2 + timeout `mod` 1000 * 1000000 = 1000000000).
Proof.
  intros Hn Ht. unfold deadline. rewrite Z.quot_div_nonneg, Z.rem_mod_nonneg by lia.
  pose proof (Z.mod_pos_bound timeout 1000) as Hm. pose proof (Z.div_mod timeout 1000) as Hd.
  destruct (Z.ltb_spec 1000000000 (now.2 + timeout `mod` 1000 * 1000 * 1000)); cbn [fst snd]; lia.
Qed.

(** * Sending and receiving *)

Section Carries.
Context {NT : Net}.

(** An object at work. *)
Definition on {A} (i : IPC_INFO) (m : M sys A) : M sys A := upd_info (λ _, i);; m.

Fixpoint writes (ms : list msg) (timeout : Z) : M sys (list RET_TYPE) :=
  match ms with
  | [] => mret []
  | m :: ms => r ← Write m timeout; rs ← writes ms timeout; mret (r :: rs)
  end.
Fixpoint reads (n : nat) (len : nat) (timeout : Z) : M sys (list (msg * Z)) :=
  match n with
  | O => mret []
  | S n => r ← Read len timeout; rs ← reads n len timeout; mret (r :: rs)
  end.

Lemma wp_refusal (Q : option Z → sys → Prop) s : refusals s = [] → Q None s → wp refusal Q s.
Proof. unfold wp, refusal. by intros ->. Qed.
Lemma wp_or_refused (m : M sys Z) (Q : Z → sys → Prop) s :
  refusals s = [] → wp m Q s → wp (or_refused m) Q s.
Proof. intros Hr HQ. unfold or_refused. wp_step. by apply wp_refusal. Qed.

(** The queue that a set of descriptors has open. *)
Record queue_of (q : Z) (fds : list Z) (l : list msg) s : Prop := {
  qo_calls : refusals s = [];
  qo_fds fd : fd ∈ fds → mq_fds s !! fd = Some q;
  qo_queue : queues s !! q = Some (mkQueue MAX_MSG_NUM MSG_LEN l);
}.

Lemma queue_at_of q fds l s fd : queue_of q fds l s → fd ∈ fds →
  queue_at fd s = Some (q, mkQueue MAX_MSG_NUM MSG_LEN l).
Proof. intros [_ Hf Hq] Hin. unfold queue_at. rewrite (Hf fd Hin). cbn. by rewrite Hq. Qed.

Lemma queue_of_set q fds l l' s : queue_of q fds l s →
  queue_of q fds l' (s <| queues := <[q := (mkQueue MAX_MSG_NUM MSG_LEN l) <| mq_msgs := l' |>]> (queues s) |>).
Proof. intros [Hr Hf Hq]. split; [done|done|]. rs. by rewrite lookup_insert_eq. Qed.

Lemma wp_mq_send q fds l fd buf limit (Q : Z → sys → Prop) s :
  queue_of q fds l s → fd ∈ fds → (length buf ≤ MSG_LEN)%nat → (length l < MAX_MSG_NUM)%nat →
  (∀ s', queue_of q fds (l ++ [buf]) s' → info s' = info s → clock s' = clock s → Q 0 s') →
  wp (sys_mq_send fd buf limit) Q s.
Proof.
  intros Hq Hin Hb Hl HQ. unfold sys_mq_send. apply wp_or_refused; [by destruct Hq|]. wp_step. apply wp_gets.
  rewrite (queue_at_of _ _ _ _ _ Hq Hin). cbn [mq_size mq_msgs mq_max].
  rewrite bool_decide_false, bool_decide_true by lia. wp_step. apply wp_modify. apply wp_ret.
  apply HQ; [by apply queue_of_set|done|done].
Qed.

Lemma wp_mq_receive q fds l fd len m limit (Q : option msg → sys → Prop) s :
  queue_of q fds (m :: l) s → fd ∈ fds → (MSG_LEN ≤ len)%nat →
  (∀ s', queue_of q fds l s' → info s' = info s → clock s' = clock s → Q (Some m) s') →
  wp (sys_mq_receive fd len limit) Q s.
Proof.
  intros Hq Hin Hl HQ. unfold sys_mq_receive. wp_step. apply wp_refusal; [by destruct Hq|]. wp_step. apply wp_gets.
  rewrite (queue_at_of _ _ _ _ _ Hq Hin). cbn [mq_size mq_msgs].
  rewrite bool_decide_false by lia. wp_step. apply wp_modify. apply wp_ret.
  apply HQ; [by apply queue_of_set|done|done].
Qed.

Lemma wp_write_mq q fds l buf timeout (Q : RET_TYPE → sys → Prop) s :
  queue_of q fds l s → type (info s) = MQUEUE → ipc_fd (info s) ∈ fds →
  (length buf ≤ MSG_LEN)%nat → (length l < MAX_MSG_NUM)%nat →
  (∀ s', queue_of q fds (l ++ [buf]) s' → info s' = info s → Q SUCCESS s') →
  wp (Write buf timeout) Q s.
Proof.
  intros Hq Ht Hin Hb Hl HQ. unfold Write. wp_step. apply wp_gets. rewrite Ht. wp_step. wp_step.
  - eapply wp_mq_send; [done..|]. intros s' Hq' Hi _. apply wp_ret. by apply HQ.
  - wp_step. apply wp_gets. eapply wp_mq_send; [done..|]. intros s' Hq' Hi _. apply wp_ret. by apply HQ.
Qed.

Lemma wp_read_mq q fds m l len timeout (Q : msg * Z → sys → Prop) s :
  queue_of q fds (m :: l) s → type (info s) = MQUEUE → ipc_fd (info s) ∈ fds → (MSG_LEN ≤ len)%nat →
  (∀ s', queue_of q fds l s' → info s' = info s → Q (m, Z.of_nat (length m)) s') →
  wp (Read len timeout) Q s.
Proof.
  intros Hq Ht Hin Hl HQ. unfold Read. wp_step. apply wp_gets. rewrite Ht. wp_step.
  - wp_step. eapply wp_mq_receive; [done..|]. intros s' Hq' Hi _. apply wp_ret. by apply HQ.
  - wp_step. apply wp_gets. wp_step. eapply wp_mq_receive; [done..|]. intros s' Hq' Hi _. apply wp_ret. by apply HQ.
Qed.

Lemma wp_writes_mq q fds ms : ∀ l timeout (Q : list RET_TYPE → sys → Prop) s,
  queue_of q fds l s → type (info s) = MQUEUE → ipc_fd (info s) ∈ fds →
  Forall (λ m, (length m ≤ MSG_LEN)%nat) ms → (length l + length ms ≤ MAX_MSG_NUM)%nat →
  (∀ s', queue_of q fds (l ++ ms) s' → Q (replicate (length ms) SUCCESS) s') →
  wp (writes ms timeout) Q s.
Proof.
  induction ms as [|m ms IH]; intros l timeout Q s Hq Ht Hin Hms Hl HQ; cbn [writes].
  - rewrite app_nil_r in HQ. apply wp_ret. by apply HQ.
  - apply Forall_cons in Hms as [Hm Hms]. cbn [length] in *. wp_step.
    eapply wp_write_mq; [done..|lia|]. intros s1 Hq1 Hi1. wp_step.
    apply (IH (l ++ [m])); [done|by rewrite Hi1|by rewrite Hi1|done|rewrite length_app; cbn; lia|].
    intros s2 Hq2. apply wp_ret. apply HQ. by rewrite <- app_assoc in Hq2.
Qed.

Lemma wp_reads_mq q fds ms : ∀ l len timeout (Q : list (msg * Z) → sys → Prop) s,
  queue_of q fds (ms ++ l) s → type (info s) = MQUEUE → ipc_fd (info s) ∈ fds → (MSG_LEN ≤ len)%nat →
  (∀ s', queue_of q fds l s' → Q ((λ m, (m, Z.of_nat (length m))) <$> ms) s') →
  wp (reads (length ms) len timeout) Q s.
Proof.
  induction ms as [|m ms IH]; intros l len timeout Q s Hq Ht Hin Hl HQ; cbn [reads length].
  - apply wp_ret. by apply HQ.
  - wp_step. eapply wp_read_mq; [done..|]. intros s1 Hq1 Hi1. wp_step.
    apply (IH l); [done|by rewrite Hi1|by rewrite Hi1|done|].
    intros s2 Hq2. apply wp_ret. by apply HQ.
Qed.
End Carries.

Section Opening.
Context {NT : Net}.

(** Numbers to come are free; no call is refused. *)
Record sane s : Prop := {
  sn_calls : refusals s = [];
  sn_fd : 0 ≤ next_fd s;
  sn_sockets fd : is_Some (sockets s !! fd) → fd < next_fd s;
  sn_bound r fd : bound s r = Some fd → fd < next_fd s;
}.

(** The queue [q] is there under its name, open at [fds]. *)
Record named (q : Z) (fds : list Z) s : Prop := {
  nm_queue : queue_of q fds [] s;
  nm_name : mq_name s = Some q;
  nm_next : 0 ≤ next_fd s ∧ q < next_fd s ∧ ∀ fd, fd ∈ fds → fd < next_fd s;
}.

Lemma wp_open_server (Q : RET_TYPE → sys → Prop) s :
  sane s → mq_name s = None →
  (∀ q fd s', named q [fd] s' → type (info s') = MQUEUE → ipc_fd (info s') = fd → Q SUCCESS s') →
  wp (Open MQUEUE SERVER) Q s.
Proof.
  intros [Hr Hfd _ _] Hname HQ. unfold Open, upd_info. wp_step. apply wp_modify. wp_step.
  rewrite decide_True by done. unfold sys_mq_create. apply wp_or_refused; [done|]. wp_step. apply wp_gets.
  rs. rewrite Hname. unfold new_fd. do 2 (wp_step; wp_step; apply wp_gets; wp_step; apply wp_modify; apply wp_ret).
  rs. wp_step. apply wp_modify. apply wp_ret. rs. destruct (Z.ltb_spec (next_fd s + 1) 0); [lia|].
  wp_step. apply wp_modify. apply wp_ret. apply (HQ (next_fd s) (next_fd s + 1)); [|done|done].
  split; [split|done|]; rs.
  - exact Hr.
  - intros fd ->%list_elem_of_singleton. apply lookup_insert_eq.
  - apply lookup_insert_eq.
  - split; [lia|]. split; [lia|]. intros fd ->%list_elem_of_singleton. lia.
Qed.

Lemma wp_open_client q fds (Q : RET_TYPE → sys → Prop) s :
  named q fds s →
  (∀ fd s', named q (fd :: fds) s' → type (info s') = MQUEUE → ipc_fd (info s') = fd → Q SUCCESS s') →
  wp (Open MQUEUE CLIENT) Q s.
Proof.
  intros [[Hr Hf Hq] Hname (Hfd & Hqn & Hfds)] HQ. unfold Open, upd_info. wp_step. apply wp_modify. wp_step.
  rewrite decide_False by done. unfold sys_mq_open. apply wp_or_refused; [done|]. wp_step. apply wp_gets.
  rs. rewrite Hname. unfold new_fd. wp_step. wp_step. apply wp_gets. wp_step. apply wp_modify. apply wp_ret.
  rs. wp_step. apply wp_modify. apply wp_ret. rs. destruct (Z.ltb_spec (next_fd s) 0); [lia|].
  wp_step. apply wp_modify. apply wp_ret. apply (HQ (next_fd s)); [|done|done].
  split; [split|exact Hname|]; rs.
  - exact Hr.
  - intros fd [->|Hin]%elem_of_cons; [apply lookup_insert_eq|]. specialize (Hfds fd Hin).
    rewrite lookup_insert_ne by lia. by apply Hf.
  - exact Hq.
  - split; [lia|]. split; [lia|]. intros fd [->|Hin]%elem_of_cons; [lia|]. specialize (Hfds fd Hin). lia.
Qed.

Lemma wp_on {A} i (m : M sys A) (Q : A → sys → Prop) s :
  wp m Q (s <| info := i |>) → wp (on i m) Q s.
Proof. intros H. unfold on, upd_info. wp_step. by apply wp_modify. Qed.

Lemma queue_of_info q fds l i s : queue_of q fds l s → queue_of q fds l (s <| info := i |>).
Proof. intros []. by split. Qed.

(** C25: through the message queue up to five messages of at most 16 bytes get from one
    object to the other, whole and in order, whatever the time limits. *)
Theorem mqueue_carries ms len timeout timeout' s :
  sane s → mq_name s = None → Forall (λ m, (length m ≤ MSG_LEN)%nat) ms →
  (length ms ≤ MAX_MSG_NUM)%nat → (MSG_LEN ≤ len)%nat →
  wp (r1 ← Open MQUEUE SERVER; server ← gets info;
      r2 ← Open MQUEUE CLIENT; client ← gets info;
      ws ← on client (writes ms timeout);
      rs ← on server (reads (length ms) len timeout');
      mret (r1, r2, ws, rs))
    (λ r _, r = (SUCCESS, SUCCESS, replicate (length ms) SUCCESS, (λ m, (m, Z.of_nat (length m))) <$> ms)) s.
Proof.
  intros Hs Hname Hms Hn Hlen. wp_step. apply wp_open_server; [done|done|]. intros q fd s1 Hs1 Ht1 Hf1.
  wp_step. apply wp_gets. wp_step. eapply wp_open_client; [exact Hs1|]. intros fd' s2 [Hq2 _ _] Ht2 Hf2.
  wp_step. apply wp_gets. wp_step. apply wp_on.
  apply (wp_writes_mq q [fd'; fd] ms []); [by apply queue_of_info|exact Ht2|rs; rewrite Hf2; set_solver|done|cbn; lia|].
  intros s3 Hq3. cbn [app] in Hq3. wp_step. apply wp_on.
  apply (wp_reads_mq q [fd'; fd] ms []);
    [apply queue_of_info; by rewrite app_nil_r|exact Ht1|rs; rewrite Hf1; set_solver|done|].
  intros s4 _. by apply wp_ret.
Qed.

(** A datagram to a socket with room arrives; one that waits is read. *)
Lemma wp_sendto fd d buf r x y (Q : Z → sys → Prop) s :
  refusals s = [] → bound s r = Some d → sockets s !! d = Some x → sockets s !! fd = Some y →
  (length (so_inbox x) < max_dgram_qlen)%nat →
  Q (Z.of_nat (length buf)) (s <| sockets := <[d := x <| so_inbox := so_inbox x ++ [buf] |>]> (sockets s) |>) →
  wp (sys_sendto fd buf r) Q s.
Proof.
  intros Hr Hb Hd Hfd Hl HQ. unfold sys_sendto. apply wp_or_refused; [done|]. wp_step. apply wp_gets.
  wp_step. apply wp_gets. rewrite Hb, Hd, Hfd. rewrite bool_decide_true by done.
  wp_step. apply wp_modify. by apply wp_ret.
Qed.

Lemma wp_recvfrom fd len x m ms (Q : option msg → sys → Prop) s :
  refusals s = [] → sockets s !! fd = Some x → so_inbox x = m :: ms →
  Q (Some (take len m)) (s <| sockets := <[fd := x <| so_inbox := ms |>]> (sockets s) |>) →
  wp (sys_recvfrom fd len) Q s.
Proof.
  intros Hr Hx Hm HQ. unfold sys_recvfrom. wp_step. apply wp_refusal; [done|]. wp_step. apply wp_gets.
  rewrite Hx, Hm. wp_step. apply wp_modify. by apply wp_ret.
Qed.

(** A socket that [Open] made: empty and bound to its name. *)
Record listening (r : ROLE_TYPE) (fd : Z) s : Prop := {
  li_socket : sockets s !! fd = Some (mkSocket [] (0, 0));
  li_bound : bound s r = Some fd;
}.

Lemma wp_open_socket role (Q : RET_TYPE → sys → Prop) s :
  sane s →
  (∀ s', sane s' → listening role (next_fd s) s' → info s' = mkInfo SOCKET (next_fd s) role →
     (∀ r fd, r ≠ role → listening r fd s → listening r fd s') → Q SUCCESS s') →
  wp (Open SOCKET role) Q s.
Proof.
  intros [Hr Hfd Hss Hb] HQ. unfold Open, upd_info, set_bound. do 3 (wp_step; apply wp_modify).
  wp_step. unfold sys_socket, new_fd. apply wp_or_refused; [done|]. wp_step. wp_step. apply wp_gets. rs.
  wp_step. apply wp_modify. apply wp_ret. wp_step. apply wp_modify. apply wp_ret. rs.
  destruct (Z.ltb_spec (next_fd s) 0); [lia|]. wp_step. unfold sys_bind, set_bound.
  apply wp_or_refused; [done|]. wp_step. apply wp_gets. rs. cbn beta. rewrite decide_True by done.
  wp_step. apply wp_modify. apply wp_ret. cbn [Z.ltb Z.compare].
  unfold sys_setsockopt_buf. do 2 (wp_step; apply wp_or_refused; [done|]; apply wp_ret).
  wp_step. apply wp_modify. apply wp_ret. apply HQ.
  - split; rs; [done|lia| |].
    + intros fd. destruct (decide (fd = next_fd s)) as [->|]; [lia|]. rewrite lookup_insert_ne by done.
      intros H1%Hss. lia.
    + intros r fd. cbn beta. destruct (decide (r = role)); [intros [= <-]; lia|]. intros H1%Hb. lia.
  - split; rs; [apply lookup_insert_eq|cbn beta; by rewrite decide_True].
  - rs. by destruct (info s).
  - intros r fd Hne [H1 H2]. split; rs.
    + specialize (Hb _ _ H2). by rewrite lookup_insert_ne by lia.
    + cbn beta. by rewrite !decide_False by done.
Qed.

(** over the sockets too a message gets to the other object, as much of it as the
    buffer holds, but the sender is told that it failed. *)
Theorem socket_carries m len s :
  sane s → (0 < max_dgram_qlen)%nat →
  wp (r1 ← Open SOCKET SERVER; server ← gets info;
      r2 ← Open SOCKET CLIENT; client ← gets info;
      w ← on client (Write m 0);
      r ← on server (Read len 0);
      mret (r1, r2, w, r))
    (λ r _, r = (SUCCESS, SUCCESS, FAIL, (take len m, Z.of_nat (length (take len m))))) s.
Proof.
  intros Hs Hq. wp_step. apply wp_open_socket; [done|]. intros s1 Hs1 Hl1 Hi1 _.
  wp_step. apply wp_gets. wp_step. apply wp_open_socket; [done|]. intros s2 [Hr2 _ _ _] Hl2 Hi2 Hk.
  wp_step. apply wp_gets. apply (Hk SERVER) in Hl1; [|done]. destruct Hl1 as [Hd Hb], Hl2 as [Hc _].
  rewrite Hi1, Hi2. wp_step. apply wp_on. unfold Write. wp_step. apply wp_gets. rs. cbn [type ipc_fd role_type].
  cbn [Z.leb Z.compare]. wp_step. apply wp_ret. wp_step. eapply wp_sendto; [done|exact Hb|exact Hd|exact Hc|cbn; lia|].
  apply wp_ret. wp_step. apply wp_on. unfold Read. wp_step. apply wp_gets. rs. cbn [type ipc_fd role_type].
  cbn [Z.leb Z.compare]. wp_step. eapply wp_recvfrom; [done|rs; apply lookup_insert_eq|done|].
  wp_step; by apply wp_ret.
Qed.

Lemma next_unused s :
  (∀ fd, is_Some (sockets s !! fd) → fd < next_fd s) → sockets s !! next_fd s = None.
Proof.
  intros Hss. destruct (sockets s !! next_fd s) as [x|] eqn:E; [|done]. specialize (Hss _ (mk_is_Some _ _ E)). lia.
Qed.

(** What a call that may be refused does. *)
Lemma wp_refused (m : M sys Z) (Q : Z → sys → Prop) s :
  (∀ e s', s' = s <| refusals := refusals s' |> <| s_errno := e |> → Q (-1) s') →
  (∀ s', s' = s <| refusals := refusals s' |> → wp m Q s') →
  wp (or_refused m) Q s.
Proof.
  intros HF HQ. unfold or_refused, refusal, failing, set_errno. apply wp_bind. unfold wp at 1.
  destruct (refusals s) as [|[e|] rs] eqn:E.
  - apply HQ. by destruct s.
  - wp_step. apply wp_modify. apply wp_ret. by apply (HF e).
  - by apply HQ.
Qed.

Lemma wp_any (Q : Z → sys → Prop) s : (∀ a s', Q a s') → wp (or_refused (mret 0)) Q s.
Proof. intros HQ. apply wp_refused; intros; [|apply wp_ret]; apply HQ. Qed.

(** When [Open] fails no descriptor stays open; a failure on the message queue removes
    the name of the queue, also when another object has it open. *)
Theorem open_failed ty role s :
  0 ≤ next_fd s → (∀ fd, is_Some (sockets s !! fd) → fd < next_fd s) →
  wp (Open ty role) (λ r s',
    r = FAIL → sockets s' = sockets s ∧ mq_fds s' = mq_fds s ∧ queues s' = queues s ∧
      mq_name s' = match ty with MQUEUE => None | SOCKET => mq_name s end) s.
Proof.
  intros Hfd Hnew%next_unused. unfold Open, upd_info, set_bound. wp_step. apply wp_modify. destruct ty.
  - do 2 (wp_step; apply wp_modify). wp_step. unfold sys_socket. apply wp_refused.
    + intros e s' ->. cbn [Z.ltb Z.compare]. by apply wp_ret.
    + intros s1 ->. unfold new_fd. wp_step. wp_step. apply wp_gets. rs. wp_step. apply wp_modify. apply wp_ret.
      wp_step. apply wp_modify. apply wp_ret. rs. destruct (Z.ltb_spec (next_fd s) 0); [lia|].
      wp_step. unfold sys_bind, set_bound. apply wp_refused.
      * intros e s2 ->. cbn [Z.ltb Z.compare]. unfold sys_close. wp_step. apply wp_modify. apply wp_ret. intros _. rs.
        by rewrite delete_insert_id.
      * intros s2 ->. wp_step. apply wp_gets. rs. cbn beta. rewrite decide_True by done.
        wp_step. apply wp_modify. apply wp_ret. cbn [Z.ltb Z.compare]. unfold sys_setsockopt_buf.
        do 2 (wp_step; apply wp_any; intros). wp_step. apply wp_modify. by apply wp_ret.
  - wp_step. destruct (decide (role = SERVER)).
    + unfold sys_mq_create. apply wp_refused.
      * intros err s' ->. cbn [Z.ltb Z.compare]. unfold sys_mq_unlink. wp_step. apply wp_modify. by apply wp_ret.
      * intros s1 ->. wp_step. apply wp_gets. rs. destruct (mq_name s); unfold failing, set_errno, sys_mq_unlink, new_fd.
        -- wp_step. apply wp_modify. apply wp_ret. cbn [Z.ltb Z.compare]. wp_step. apply wp_modify. by apply wp_ret.
        -- do 2 (wp_step; wp_step; apply wp_gets; wp_step; apply wp_modify; apply wp_ret). rs.
           wp_step. apply wp_modify. apply wp_ret. destruct (Z.ltb_spec (next_fd s + 1) 0); [lia|].
           wp_step. apply wp_modify. by apply wp_ret.
    + unfold sys_mq_open. apply wp_refused.
      * intros err s' ->. cbn [Z.ltb Z.compare]. unfold sys_mq_unlink. wp_step. apply wp_modify. by apply wp_ret.
      * intros s1 ->. wp_step. apply wp_gets. rs. destruct (mq_name s); unfold failing, set_errno, sys_mq_unlink, new_fd.
        -- wp_step; wp_step; apply wp_gets; wp_step; apply wp_modify; apply wp_ret. rs.
           wp_step. apply wp_modify. apply wp_ret. destruct (Z.ltb_spec (next_fd s) 0); [lia|].
           wp_step. apply wp_modify. by apply wp_ret.
        -- wp_step. apply wp_modify. apply wp_ret. cbn [Z.ltb Z.compare]. wp_step. apply wp_modify. by apply wp_ret.
Qed.


(** On a full or empty queue. *)
Definition waits {A} (m : M sys A) (none : A) (limit : option (Z * Z)) s : Prop :=
  wpx m (λ r s', limit ≠ None ∧ r = none ∧ s' = s <| s_errno := s_errno s' |>)
    (λ w s', limit = None ∧ w = Blocked ∧ s' = s) s.

Lemma waits_until limit s : waits (wait_until limit) (-1) limit s.
Proof.
  unfold waits, wait_until, wpx, failing, set_errno. destruct limit as [[sec nsec]|]; [|done].
  by destruct ((nsec <? 0) || (1000000000 <=? nsec)).
Qed.
Lemma send_full q fds l fd buf limit s :
  queue_of q fds l s → fd ∈ fds → (length buf ≤ MSG_LEN)%nat → length l = MAX_MSG_NUM →
  waits (sys_mq_send fd buf limit) (-1) limit s.
Proof.
  intros Hq Hin Hb Hl. unfold waits, sys_mq_send, or_refused. wpx_step. apply wpx_wp, wp_refusal; [by destruct Hq|].
  wpx_step. apply wpx_gets. rewrite (queue_at_of _ _ _ _ _ Hq Hin). cbn [mq_size mq_msgs mq_max].
  rewrite !bool_decide_false by lia. apply waits_until.
Qed.
Lemma receive_empty q fds fd len limit s :
  queue_of q fds [] s → fd ∈ fds → (MSG_LEN ≤ len)%nat →
  waits (sys_mq_receive fd len limit) None limit s.
Proof.
  intros Hq Hin Hb. unfold waits, sys_mq_receive. wpx_step. apply wpx_wp, wp_refusal; [by destruct Hq|].
  wpx_step. apply wpx_gets. rewrite (queue_at_of _ _ _ _ _ Hq Hin). cbn [mq_size mq_msgs].
  rewrite bool_decide_false by lia. wpx_step. eapply wpx_mono; [apply waits_until| |done].
  intros a s' (H & _ & Hs'). by apply wpx_ret.
Qed.

(** when the queue is full or empty an operation without a time limit waits, one with a
    limit fails and changes nothing but [errno]. *)
Theorem mqueue_waits q fds l buf len timeout s :
  queue_of q fds l s → type (info s) = MQUEUE → ipc_fd (info s) ∈ fds →
  (length buf ≤ MSG_LEN ≤ len)%nat →
  (length l = MAX_MSG_NUM →
     wpx (Write buf timeout) (λ r s', 0 < timeout ∧ r = FAIL ∧ s' = s <| s_errno := s_errno s' |>)
       (λ w s', timeout ≤ 0 ∧ w = Blocked ∧ s' = s) s) ∧
  (l = [] →
     wpx (Read len timeout) (λ r s', 0 < timeout ∧ r = received None ∧ s' = s <| s_errno := s_errno s' |>)
       (λ w s', timeout ≤ 0 ∧ w = Blocked ∧ s' = s) s).
Proof.
  intros Hq Ht Hin [Hb Hlen]. unfold Write, Read. split; intros Hl; wpx_step; apply wpx_gets; rewrite Ht.
  - wpx_step. destruct (Z.leb_spec timeout 0).
    + eapply wpx_mono; [by eapply (send_full q fds l _ buf None)|by intros r s' (? & _)|].
      intros w s' (_ & -> & ->). done.
    + wpx_step. apply wpx_gets. eapply wpx_mono; [by eapply (send_full q fds l _ buf (Some _))| |].
      * intros r s' (_ & -> & Hs'). by apply wpx_ret.
      * by intros w s' (? & _).
  - subst l. destruct (Z.leb_spec timeout 0).
    + wpx_step. eapply wpx_mono; [by eapply (receive_empty q fds _ len None)|by intros r s' (? & _)|].
      intros w s' (_ & -> & ->). done.
    + wpx_step. apply wpx_gets. wpx_step. eapply wpx_mono; [by eapply (receive_empty q fds _ len (Some _))| |].
      * intros r s' (_ & -> & Hs'). by apply wpx_ret.
      * by intros w s' (? & _).
Qed.
End Opening.

(** * A run *)

Module DemoIpc.
#[local] Instance demo_net : Net := {| max_dgram_qlen := 10 |}.

Definition boot : sys := mkSys ∅ (λ _, None) ∅ ∅ None 3 (10, 999000000) [] 0 (mkInfo SOCKET 0 SERVER).
Lemma boot_sane : sane boot.
Proof. split; [done|done|intros fd [x H]; change (sockets boot) with (∅ : gmap Z socket) in H; by rewrite lookup_empty in H|done]. Qed.

Lemma deadline_exact_witness :
  deadline (10, 999000000) 2501 = (13, 500000000) ∧
  (deadline (10, 999000000) 1).2 = 1000000000.
Proof.
  split; [by vm_compute|].
  apply (proj2 (proj2 (proj2 (deadline_exact (10, 999000000) 1 ltac:(cbn; lia) ltac:(lia))))). by vm_compute.
Defined.

Lemma mqueue_carries_witness :
  wp (r1 ← Open MQUEUE SERVER; server ← gets info;
      r2 ← Open MQUEUE CLIENT; client ← gets info;
      ws ← on client (writes [[1; 2]; [3]] 0);
      rs ← on server (reads 2 16 1000);
      mret (r1, r2, ws, rs))
    (λ r _, r = (SUCCESS, SUCCESS, [SUCCESS; SUCCESS], [([1; 2], 2); ([3], 1)])) boot.
Proof.
  apply (mqueue_carries [[1; 2]; [3]] 16 0 1000 boot boot_sane); [done| |unfold MAX_MSG_NUM; cbn; lia|unfold MSG_LEN; lia].
  repeat constructor; unfold MSG_LEN; cbn; lia.
Defined.

Lemma socket_carries_witness :
  wp (r1 ← Open SOCKET SERVER; server ← gets info;
      r2 ← Open SOCKET CLIENT; client ← gets info;
      w ← on client (Write [1; 2; 3] 0);
      r ← on server (Read 2 0);
      mret (r1, r2, w, r))
    (λ r _, r = (SUCCESS, SUCCESS, FAIL, ([1; 2], 2))) boot.
Proof. apply (socket_carries (NT := demo_net) [1; 2; 3] 2 boot boot_sane). cbn [max_dgram_qlen demo_net]. lia. Defined.

(** A server has the queue open; a second one cannot open it. *)
Definition served : sys := match Open MQUEUE SERVER boot with Done _ s => s | _ => boot end.
Lemma open_failed_witness :
  mq_name served = Some 3 ∧
  wp (Open MQUEUE SERVER) (λ r s',
    r = FAIL → sockets s' = sockets served ∧ mq_fds s' = mq_fds served ∧ queues s' = queues served ∧
      mq_name s' = None) served ∧
  (∃ s', Open MQUEUE SERVER served = Done FAIL s').
Proof.
  split; [by vm_compute|]. split.
  - apply (open_failed MQUEUE SERVER served); [by vm_compute|]. intros fd H. vm_compute in H. by destruct H.
  - by eexists.
Defined.

(** The queue is empty and the sum of the nanoseconds is one second: the limit is refused. *)
Lemma served_queue : queue_of 3 [4] [] served.
Proof.
  split; [by vm_compute| |by vm_compute]. intros fd ->%list_elem_of_singleton. by vm_compute.
Qed.
Lemma mqueue_waits_witness :
  wpx (Read 16 1) (λ r s', 0 < 1 ∧ r = received None ∧ s' = served <| s_errno := s_errno s' |>)
    (λ w s', 1 ≤ 0 ∧ w = Blocked ∧ s' = served) served.
Proof.
  apply (mqueue_waits 3 [4] [] [] 16 1 served served_queue); [by vm_compute|vm_compute; set_solver|unfold MSG_LEN; cbn; lia|done].
Defined.
Example boundary_refused :
  match Read 16 1 served with Done r s => r = received None ∧ s_errno s = EINVAL | _ => False end.
Proof. by vm_compute. Qed.
Example other_limit_passes :
  match Read 16 2 served with Done r s => r = received None ∧ s_errno s = ETIMEDOUT | _ => False end.
Proof. by vm_compute. Qed.

(** The failure of a second server takes the queue away from the clients to come. *)
Example second_server_unlinks :
  match Open MQUEUE SERVER served with
  | Done FAIL s => match Open MQUEUE CLIENT s with Done FAIL s' => s_errno s' = ENOENT | _ => False end
  | _ => False
  end.
Proof. by vm_compute. Qed.
End DemoIpc.
