(* ===== verification/Program.v ===== *)
(** Programs that run next to others: trees of the operations they perform, with loops.

    The operations are those of a component, given by [E]: [E B] are the operations that
    answer a [B].  What a program relies on and what it does to the things it shares is
    stated by a rule for every operation, in terms of a role that says what
    the program knows at that point; [safe] checks a program against the rules. *)
From S2P Require Import Prelude.

(** A loop goes on while its body answers [None]. *)
Inductive prog (E : Type → Type) (A : Type) : Type :=
  | Ret (a : A)
  | Act {B : Type} (o : E B) (k : B → prog E A)
  | Loop {C : Type} (body : prog E (option C)) (k : C → prog E A).
Arguments Ret {E A}.
Arguments Act {E A B}.
Arguments Loop {E A C}.

#[export] Instance prog_ret E : MRet (prog E) := λ A a, Ret a.
#[export] Instance prog_bind E : MBind (prog E) := λ A B f,
  fix bind (p : prog E A) : prog E B :=
    match p with
    | Ret a => f a
    | Act o k => Act o (λ b, bind (k b))
    | Loop body k => Loop body (λ c, bind (k c))
    end.
Definition call {E : Type → Type} {B} (o : E B) : prog E B := Act o Ret.
Definition loop {E C} (body : prog E (option C)) : prog E C := Loop body Ret.
Definition when_p {E} (b : bool) (p : prog E ()) : prog E () := if b then p else mret ().
(** One turn of a loop, and what comes then. *)
Definition unroll {E A C} (body : prog E (option C)) (k : C → prog E A) : prog E A :=
  c ← body; match c with None => Loop body k | Some c => k c end.

(** [list_for_each] over threads, which are numbered, leaving out the caller. *)
Fixpoint others {E} (self : nat) (ts : list nat) (f : nat → prog E ()) : prog E () :=
  match ts with
  | [] => mret ()
  | t :: ts => (if decide (t = self) then mret () else f t);; others self ts f
  end.

(** What a program relies on, when every operation has a rule in terms of a role. *)
Section Safe.
Context {E : Type → Type} {role : Type} (rule : ∀ B, E B → role → (B → role → Prop) → Prop).

Fixpoint safe {A} (Post : A → role → Prop) (p : prog E A) (r : role) : Prop :=
  match p with
  | Ret a => Post a r
  | Act o k => rule _ o r (λ b r, safe Post (k b) r)
  | Loop body k =>
      ∃ I : role → Prop, I r ∧
        ∀ r, I r → safe (λ c r, match c with None => I r | Some c => safe Post (k c) r end) body r
  end.

Hypothesis rule_mono : ∀ B (o : E B) r (K K' : B → role → Prop),
  (∀ b r, K b r → K' b r) → rule B o r K → rule B o r K'.

Lemma safe_mono {A} (Post Post' : A → role → Prop) (p : prog E A) r :
  (∀ a r, Post a r → Post' a r) → safe Post p r → safe Post' p r.
Proof.
  revert Post Post' r. induction p as [A a|A B o k IH|A C body IHb k IHk]; intros Post Post' r H; cbn.
  - apply H.
  - apply rule_mono. intros b r'. by apply IH.
  - intros (I & HI & Hb). exists I. split; [done|]. intros r' Hr'. eapply IHb; [|by apply Hb].
    intros [c|] r'' Hr''; [|done]. by eapply IHk.
Qed.

Lemma safe_bind {A B} (Post : A → role → Prop) (Post' : B → role → Prop) (p : prog E A) (f : A → prog E B) r :
  safe Post p r → (∀ a r, Post a r → safe Post' (f a) r) → safe Post' (p ≫= f) r.
Proof.
  intros Hp Hf. revert r Hp. induction p as [A a|A C o k IH|A C body IHb k IHk]; intros r; cbn.
  - apply Hf.
  - apply rule_mono. intros b r'. by apply IH.
  - intros (I & HI & Hb). exists I. split; [done|]. intros r' Hr'. eapply safe_mono; [|by apply Hb].
    intros [c|] r'' Hr''; [|done]. by apply (IHk c Post).
Qed.

Lemma safe_unroll {A C} (Post : A → role → Prop) (body : prog E (option C)) (k : C → prog E A) r :
  safe Post (Loop body k) r → safe Post (unroll body k) r.
Proof.
  cbn. intros (I & HI & Hb). eapply safe_bind; [by apply Hb|]. intros [c|] r' Hr'; [done|].
  exists I. by split.
Qed.

(** A loop whose body keeps [I]. *)
Lemma safe_loop {C} (I : role → Prop) (Post : C → role → Prop) (body : prog E (option C)) r :
  I r → (∀ r, I r → safe (λ c r, match c with None => I r | Some c => Post c r end) body r) →
  safe Post (loop body) r.
Proof.
  intros HI Hb. exists I. split; [done|]. intros r' Hr'. eapply safe_mono; [|by apply Hb].
  by intros [c|] r''.
Qed.

(** A step for every other thread of a list. *)
Lemma others_safe self (st : gset nat → role) (f : nat → prog E ()) ts :
  (∀ t S, t ∈ ts → t ≠ self → t ∉ S → safe (λ _ r, r = st ({[t]} ∪ S)) (f t) (st S)) →
  ∀ S, NoDup ts → (∀ t, t ∈ ts → t ∉ S) →
  safe (λ _ r, r = st ((list_to_set ts ∖ {[self]}) ∪ S)) (others self ts f) (st S).
Proof.
  induction ts as [|t ts IH]; intros Hf S Hnd Hin; cbn [others].
  - cbn. f_equal. set_solver.
  - apply NoDup_cons in Hnd as [Ht Hnd]. assert (HS : t ∉ S) by (apply Hin; by left).
    assert (Hf' : ∀ u S, u ∈ ts → u ≠ self → u ∉ S → safe (λ _ r, r = st ({[u]} ∪ S)) (f u) (st S)).
    { intros u S' Hu. apply Hf. by right. }
    destruct (decide (t = self)) as [->|Hne].
    + eapply safe_mono; [|apply IH; [done|done|set_solver]]. intros _ r ->. f_equal. set_solver.
    + eapply safe_bind; [apply Hf; [by left|done|done]|]. intros _ r ->.
      eapply safe_mono; [|apply (IH Hf' ({[t]} ∪ S)); [done|set_solver]]. intros _ r ->. f_equal. set_solver.
Qed.
End Safe.


(** * Running a machine on a schedule *)

Section Drive.
Context {Act World : Type} (step : Act → World → option World).

(** The first of the actions that can be done. *)
Fixpoint first_step (acts : list Act) (w : World) : option World :=
  match acts with
  | [] => None
  | a :: acts => match step a w with Some w' => Some w' | None => first_step acts w end
  end.
Fixpoint drive (acts : list Act) (n : nat) (w : World) : World :=
  match n with
  | O => w
  | S n => match first_step acts w with Some w' => drive acts n w' | None => w end
  end.
Lemma first_step_some acts w w' : first_step acts w = Some w' → ∃ a, step a w = Some w'.
Proof.
  induction acts as [|a acts IH]; cbn; [done|]. destruct (step a w) as [w1|] eqn:E; [|exact IH].
  intros [= <-]. by exists a.
Qed.
Lemma drive_reaches acts n w : rtc (λ w w', ∃ a, step a w = Some w') w (drive acts n w).
Proof.
  revert w. induction n as [|n IH]; intros w; [apply rtc_refl|]. cbn [drive].
  destruct (first_step acts w) as [w'|] eqn:E; [|apply rtc_refl]. eapply rtc_l; [by eapply first_step_some|apply IH].
Qed.
End Drive.
