(* ===== verification/Setxid.v ===== *)
(** Changing the ids of all threads: [__nptl_setxid] and its helpers (allocatestack.c), with
    the parts of pthread_create.c it talks to: the start of a thread, a creation that
    fails, and a thread that ends.

    The kernel changes the ids of one thread only.  The caller marks every thread, sends each
    a signal whose handler makes the system call there, waits for all the answers and
    makes the call itself last.  The caller's code and the handler are trees of operations, one for
    every access to something shared, with loops; the machine runs one operation at a time,
    between any steps of the other threads.  The handler itself is not part of the source: it is a
    parameter, of which the order of its operations is assumed. *)
From S2P Require Import Prelude ListHead Nptl Program.
#[local] Arguments Z.eqb : simpl never.

(** * Programs *)

(** Threads are numbered. *)
Inductive op : Type → Type :=
  | Lll_lock : op ()                             (* [stack_cache_lock] *)
  | Lll_unlock : op ()
  | Set_xidcmd : op ()                           (* [__xidcmd = cmdp], [cntr = 0], [error = -1] *)
  | Stack_used : op (list nat)
  | Stack_user : op (list nat)
  | Load_futex (t : nat) : op Z                  (* [t->setxid_futex] *)
  | Store_futex (t : nat) (v : Z) : op ()
  | Cas_futex (t : nat) (new old : Z) : op bool  (* false when exchanged *)
  | Wait_futex (t : nat) (v : Z) : op ()
  | Wake_futex (t : nat) : op ()
  | Load_ch (t : nat) : op Z                     (* [t->cancelhandling] *)
  | Cas_ch (t : nat) (new old : Z) : op bool
  | Tgkill (t : nat) : op Z                      (* [tgkill (pid, t->tid, SIGSETXID)] *)
  | Inc_cntr : op ()
  | Dec_cntr : op Z                              (* the value after *)
  | Load_cntr : op Z
  | Wait_cntr (v : Z) : op ()
  | Wake_cntr : op ()
  | Load_error : op Z
  | Cas_error (new old : Z) : op bool
  | Abort_process : op ()
  | Syscall : op Z                               (* the call of [cmdp], for the thread that makes it *)
  | Set_errno (e : Z) : op ().

#[local] Abbreviation prog := (prog op).

(** * The functions *)

(** The result of a system call is an error number below zero. *)
Definition error_p (val : Z) : bool := (-4096 <? val) && (val <? 0).
Definition error_of (val : Z) : Z := if error_p val then - val else 0.

Section Functions.
Context {PF : Platform} (self : nat).

Definition setxid_mark_thread (t : nat) : prog () :=
  f ← call (Load_futex t);
  failed ← (if f =? -1 then call (Cas_futex t (-2) (-1)) else mret true);
  when_p (negb failed)
    (loop (call (Wait_futex t (-2));;
           f ← call (Load_futex t);
           mret (if f =? -2 then None else Some ())));;
  call (Store_futex t 0);;
  loop (ch ← call (Load_ch t);
        if has ch EXITING_BITMASK then
          when_p (negb (has ch SETXID_BITMASK)) (call (Store_futex t 1);; call (Wake_futex t));;
          mret (Some ())
        else
          again ← call (Cas_ch t (Z.lor ch SETXID_BITMASK) ch);
          mret (if again : bool then None else Some ())).

Definition setxid_unmark_thread (t : nat) : prog () :=
  marked ← loop (ch ← call (Load_ch t);
                 if negb (has ch SETXID_BITMASK) then mret (Some false)
                 else
                   again ← call (Cas_ch t (Z.ldiff ch SETXID_BITMASK) ch);
                   mret (if again : bool then None else Some true));
  when_p marked (call (Store_futex t 1);; call (Wake_futex t)).

Definition setxid_signal_thread (t : nat) : prog Z :=
  ch ← call (Load_ch t);
  if negb (has ch SETXID_BITMASK) then mret 0
  else
    val ← call (Tgkill t);
    if negb (error_p val) then call Inc_cntr;; mret 1 else mret 0.

Definition nptl_setxid_error (error : Z) : prog () :=
  loop (olderror ← call Load_error;
        if olderror =? error then mret (Some ())
        else
          when_p (negb (olderror =? -1)) (call Abort_process);;
          again ← call (Cas_error error (-1));
          mret (if again : bool then None else Some ())).

(** Over a list, leaving out the caller. *)
Fixpoint signal_others (ts : list nat) (signalled : Z) : prog Z :=
  match ts with
  | [] => mret signalled
  | t :: ts =>
      if decide (t = self) then signal_others ts signalled
      else n ← setxid_signal_thread t; signal_others ts (signalled + n)
  end.

Definition wait_answers : prog () :=
  loop (cur ← call Load_cntr;
        if cur =? 0 then mret (Some ()) else call (Wait_cntr cur);; mret None).

Definition signal_round : prog (option ()) :=
  used ← call Stack_used;
  signalled ← signal_others used 0;
  user ← call Stack_user;
  signalled ← signal_others user signalled;
  wait_answers;;
  mret (if signalled =? 0 then Some () else None).

Definition nptl_setxid : prog Z :=
  call Lll_lock;;
  call Set_xidcmd;;
  used ← call Stack_used;
  others self used setxid_mark_thread;;
  user ← call Stack_user;
  others self user setxid_mark_thread;;
  loop signal_round;;
  used ← call Stack_used;
  others self used setxid_unmark_thread;;
  user ← call Stack_user;
  others self user setxid_unmark_thread;;
  result ← call Syscall;
  when_p (error_p result) (call (Set_errno (- result)));;
  nptl_setxid_error (error_of result);;
  call Lll_unlock;;
  mret (if error_p result then -1 else result).
End Functions.

(** * The machine *)

(** Where another thread is, between two of its operations on what is shared. *)
Inductive phase :=
  | Embryo            (* on a list; its creator has not called [clone] *)
  | Cloned            (* before the exchange of [setxid_futex] in [start_thread] *)
  | Started_waking    (* the exchange gave -2; before [futex_wake] *)
  | Running
  | Exiting           (* EXITING_BIT is set *)
  | Waiting           (* saw SETXID_BIT; before [futex_wait_simple] *)
  | Asleep            (* in it *)
  | Checking          (* back from it *)
  | Leaving           (* before [setxid_futex = 0] *)
  | Dead              (* past it *)
  | Failed_waking     (* not cloned, the exchange in [pthread_create] gave -2; before [futex_wake] *)
  | Stillborn.
#[export] Instance phase_eq_dec : EqDecision phase.
Proof. solve_decision. Defined.

Record thread := mkThread {
  ph : phase;
  creds : Z;                                     (* stands for all its ids *)
  setxid_futex : Z; cancelhandling : Z;
  signalled : bool;                              (* a SIGSETXID is pending *)
  in_handler : option (prog ());                 (* what is left of the handler that interrupts it *)
}.
#[export] Instance eta_thread : Eta thread := λ x,
  mkThread (ph x) (creds x) (setxid_futex x) (cancelhandling x) (signalled x) (in_handler x).

Inductive place := At_futex (t : nat) | At_cntr.
#[export] Instance place_eq_dec : EqDecision place.
Proof. solve_decision. Defined.

Record world := mkWorld {
  threads : list thread; used : list nat; user : list nat;
  locked : bool;                                 (* by the caller *)
  cntr : Z; error : Z;
  caller : prog Z; sleeps : option place; errno : Z;
  aborted : bool;
}.
#[export] Instance eta_world : Eta world := λ w,
  mkWorld (threads w) (used w) (user w) (locked w) (cntr w) (error w) (caller w) (sleeps w) (errno w) (aborted w).

Definition set_thread (t : nat) (th : thread) (w : world) : world :=
  w <| threads := <[t := th]> (threads w) |>.

(** Whether the kernel knows the thread. *)
Definition lives (p : phase) : bool :=
  match p with Embryo | Dead | Failed_waking | Stillborn => false | _ => true end.

(** One waiter is woken: the thread itself or the caller. *)
Definition wake_at (t : nat) (th : thread) (w : world) : world :=
  if decide (ph th = Asleep) then set_thread t (th <| ph := Checking |>) w
  else if decide (sleeps w = Some (At_futex t)) then w <| sleeps := None |>
  else w.

(** A call that may fail although its target exists. *)
Inductive choice := Fine | Refuse (e : Z).
Definition ESRCH := 3.

Section Machine.
Context {PF : Platform} (self : nat).
(** What the system call does with the ids of a thread, and its result. *)
Context (setid : Z → Z * Z).
Context (handler : nat → prog ()).
(** Whether [tgkill] can fail for a thread that exists. *)
Context (can_fail : bool).

Definition at_thread {R} (t : nat) (w : world) (f : thread → option R) : option R := th ← threads w !! t; f th.

Definition exec {B} (o : op B) (me : nat) (c : choice) (w : world) : option (B * world) :=
  match o in op B return option (B * world) with
  | Lll_lock => if locked w then None else Some ((), w <| locked := true |>)
  | Lll_unlock => Some ((), w <| locked := false |>)
  | Set_xidcmd => Some ((), w <| cntr := 0 |> <| error := -1 |>)
  | Stack_used => Some (used w, w)
  | Stack_user => Some (user w, w)
  | Load_futex t => at_thread t w (λ th, Some (setxid_futex th, w))
  | Store_futex t v => at_thread t w (λ th, Some ((), set_thread t (th <| setxid_futex := v |>) w))
  | Cas_futex t new old => at_thread t w (λ th,
      if setxid_futex th =? old then Some (false, set_thread t (th <| setxid_futex := new |>) w)
      else Some (true, w))
  | Wait_futex t v => at_thread t w (λ th,
      if negb (bool_decide (me = self)) then None
      else Some ((), if setxid_futex th =? v then w <| sleeps := Some (At_futex t) |> else w))
  | Wake_futex t => at_thread t w (λ th, Some ((), wake_at t th w))
  | Load_ch t => at_thread t w (λ th, Some (cancelhandling th, w))
  | Cas_ch t new old => at_thread t w (λ th,
      if cancelhandling th =? old then Some (false, set_thread t (th <| cancelhandling := new |>) w)
      else Some (true, w))
  | Tgkill t => at_thread t w (λ th,
      if lives (ph th) then
        match c with
        | Fine => Some (0, set_thread t (th <| signalled := true |>) w)
        | Refuse e => if can_fail && (0 <? e) && (e <? 4096) then Some (- e, w) else None
        end
      else Some (- ESRCH, w))
  | Inc_cntr => Some ((), w <| cntr := cntr w + 1 |>)
  | Dec_cntr => Some (cntr w - 1, w <| cntr := cntr w - 1 |>)
  | Load_cntr => Some (cntr w, w)
  | Wait_cntr v =>
      if negb (bool_decide (me = self)) then None
      else Some ((), if cntr w =? v then w <| sleeps := Some At_cntr |> else w)
  | Wake_cntr => Some ((), if decide (sleeps w = Some At_cntr) then w <| sleeps := None |> else w)
  | Load_error => Some (error w, w)
  | Cas_error new old =>
      if error w =? old then Some (false, w <| error := new |>) else Some (true, w)
  | Abort_process => Some ((), w <| aborted := true |>)
  | Syscall => at_thread me w (λ th,
      let '(ids, val) := setid (creds th) in Some (val, set_thread me (th <| creds := ids |>) w))
  | Set_errno e => Some ((), w <| errno := e |>)
  end.

Definition run {A} (p : prog A) (me : nat) (c : choice) (w : world) : option (prog A * world) :=
  match p with
  | Ret _ => None
  | Act o k => '(b, w) ← exec o me c w; Some (k b, w)
  | Loop body k => Some (unroll body k, w)
  end.

(** What the other threads do by themselves. *)
Inductive move :=
  | Give_up | Start | Wake | Exit | Look | Sleep | Look_again | Leave
  | Spurious.                                    (* a futex wait ends without a reason *)

(** The thread after it, and whether it calls [futex_wake]. *)
Definition moves (m : move) (th : thread) : option (thread * bool) :=
  match m, ph th with
  | Give_up, Embryo =>
      Some (th <| ph := if setxid_futex th =? -2 then Failed_waking else Stillborn |> <| setxid_futex := 0 |>, false)
  | Start, Cloned =>
      Some (th <| ph := if setxid_futex th =? -2 then Started_waking else Running |> <| setxid_futex := 0 |>, false)
  | Wake, Started_waking => Some (th <| ph := Running |>, true)
  | Wake, Failed_waking => Some (th <| ph := Stillborn |>, true)
  | Exit, Running =>
      Some (th <| ph := Exiting |> <| cancelhandling := Z.lor (cancelhandling th) EXITING_BITMASK |>, false)
  | Look, Exiting =>
      Some (th <| ph := if has (cancelhandling th) SETXID_BITMASK then Waiting else Dead |>, false)
  | Sleep, Waiting => Some (th <| ph := if setxid_futex th =? 0 then Asleep else Checking |>, false)
  | Look_again, Checking =>
      Some (th <| ph := if has (cancelhandling th) SETXID_BITMASK then Waiting else Leaving |>, false)
  | Leave, Leaving => Some (th <| ph := Dead |> <| setxid_futex := 0 |>, false)
  | Spurious, Asleep => Some (th <| ph := Checking |>, false)
  | _, _ => None
  end.

Inductive action :=
  | Caller (c : choice)                          (* the next operation of the caller *)
  | Handler (t : nat)                            (* of the handler in [t], or its end *)
  | Deliver (t : nat)                            (* the signal interrupts [t] *)
  | Move (t : nat) (m : move)
  | Touch (t : nat) (ch : Z)                     (* another bit of [cancelhandling] changes *)
  | Create (user_stack : bool)                   (* [pthread_create] puts a thread on a list *)
  | Clone (p t : nat)                            (* [p] is the creator *)
  | Release (t : nat)                            (* [__deallocate_stack] takes it off *)
  | Caller_spurious.

Definition deliver (t : nat) (th : thread) : thread :=
  th <| signalled := false |> <| in_handler := Some (handler t) |>
     <| ph := if decide (ph th = Asleep) then Checking else ph th |>.
Definition new_thread : thread := mkThread Embryo 0 (-1) 0 false None.

(** The others, unless a handler interrupts them. *)
Definition at_other {R} (t : nat) (w : world) (f : thread → option R) : option R :=
  if bool_decide (t = self) then None
  else th ← threads w !! t; match in_handler th with None => f th | Some _ => None end.

Definition step (a : action) (w : world) : option world :=
  if aborted w then None else
  match a with
  | Caller c =>
      match sleeps w with
      | None => '(p, w) ← run (caller w) self c w; Some (w <| caller := p |>)
      | Some _ => None
      end
  | Handler t =>
      th ← threads w !! t;
      p ← in_handler th;
      match p with
      | Ret _ => Some (set_thread t (th <| in_handler := None |>) w)
      | _ =>
          '(p, w) ← run p t Fine w;
          th ← threads w !! t;
          Some (set_thread t (th <| in_handler := Some p |>) w)
      end
  | Deliver t => at_other t w (λ th,
      if signalled th && lives (ph th) then Some (set_thread t (deliver t th) w) else None)
  | Move t m => at_other t w (λ th,
      '(th, wakes) ← moves m th;
      let w := set_thread t th w in Some (if wakes : bool then wake_at t th w else w))
  | Touch t ch =>
      th ← threads w !! t;
      if bool_decide (t ≠ self ∧ has ch EXITING_BITMASK = has (cancelhandling th) EXITING_BITMASK ∧
                      has ch SETXID_BITMASK = has (cancelhandling th) SETXID_BITMASK)
      then Some (set_thread t (th <| cancelhandling := ch |>) w) else None
  | Create user_stack =>
      if locked w then None
      else
        let t := length (threads w) in
        let w := w <| threads := threads w ++ [new_thread] |> in
        Some (if user_stack then w <| user := t :: user w |> else w <| used := t :: used w |>)
  | Clone p t => at_other p w (λ thp, at_other t w (λ th,
      if decide (ph thp = Running ∧ ph th = Embryo)
      then Some (set_thread t (th <| ph := Cloned |> <| creds := creds thp |>) w) else None))
  | Release t => at_other t w (λ th,
      if negb (locked w) && bool_decide (ph th = Dead ∨ ph th = Stillborn)
      then Some (w <| used := filter (.≠ t) (used w) |> <| user := filter (.≠ t) (user w) |>) else None)
  | Caller_spurious => match sleeps w with Some _ => Some (w <| sleeps := None |>) | None => None end
  end.

Definition steps (acts : list action) (w : world) : option world :=
  foldl (λ w a, w ← w; step a w) (Some w) acts.
Definition reaches : world → world → Prop := rtc (λ w w', ∃ a, step a w = Some w').
End Machine.

(** * Rules *)

(** ** The handler *)

(** How far it is: called, with the result of the system call, having reported it, with the
    flag cleared, with the futex released, having woken it, with the counter at zero, done. *)
Inductive hrole := Asked | Answered (e : Z) | Agreed | Cleared | Stored | Released | Must_wake | Finished.

Section Rules.
Context {PF : Platform}.

(** The handler in [t] makes the call, reports its result to [nptl_setxid_error], clears
    SETXID_BIT, sets the futex to 1 and wakes, and counts down, waking the caller at zero. *)
Definition hrule (t : nat) {B} (o : op B) (r : hrole) (K : B → hrole → Prop) : Prop :=
  match o in op B return (B → hrole → Prop) → Prop with
  | Syscall => λ K, r = Asked ∧ ∀ val, K val (Answered (error_of val))
  | Load_error => λ K, match r with Answered e => K (-1) r ∧ K e Agreed | _ => False end
  | Cas_error new old => λ K,
      match r with Answered e => new = e ∧ old = -1 ∧ K true r ∧ K false Agreed | _ => False end
  | Load_ch u => λ K, u = t ∧ ∀ ch, K ch r
  | Cas_ch u new old => λ K,
      u = t ∧ r = Agreed ∧ new = Z.ldiff old SETXID_BITMASK ∧ K true r ∧ K false Cleared
  | Store_futex u v => λ K, u = t ∧ v = 1 ∧ r = Cleared ∧ K () Stored
  | Wake_futex u => λ K, u = t ∧ r = Stored ∧ K () Released
  | Dec_cntr => λ K, r = Released ∧ K 0 Must_wake ∧ ∀ n, n ≠ 0 → K n Finished
  | Wake_cntr => λ K, r = Must_wake ∧ K () Finished
  | _ => λ K, False
  end K.

Lemma hrule_mono t B (o : op B) r (K K' : B → hrole → Prop) :
  (∀ b r, K b r → K' b r) → hrule t o r K → hrule t o r K'.
Proof. intros H. destruct o; cbn; try naive_solver; destruct r; naive_solver. Qed.

Definition hsafe (t : nat) : prog () → hrole → Prop := safe (@hrule t) (λ _ r, r = Finished).

(** [nptl_setxid_error] is what it can call. *)
Lemma hsafe_error t e (Post : () → hrole → Prop) :
  0 ≤ e → Post () Agreed → safe (@hrule t) Post (nptl_setxid_error e) (Answered e).
Proof.
  intros He HP. unfold nptl_setxid_error. apply (safe_loop _ (hrule_mono t) (λ r, r = Answered e)); [done|].
  intros r ->. cbn. destruct (Z.eqb_spec (-1) e); [lia|]. rewrite !Z.eqb_refl. cbn. auto.
Qed.

(** ** The caller *)

(** Where the caller is, while it has the lock: [M] are the threads it has marked or found
    exiting, [V] those it has visited in this round, [n] the number of signals in it, [U] those it has
    unmarked; [b] says that [errno] is set if it is to be. *)
Inductive stage :=
  | Locked
  | Marking (M : gset nat)
  | Mark_wait (M : gset nat) (t : nat)           (* the futex of [t] is -2, until it has started *)
  | Mark_start (M : gset nat) (t : nat)          (* [t] has started *)
  | Mark_loop (M : gset nat) (t : nat)           (* its futex is 0 *)
  | Mark_free (M : gset nat) (t : nat)           (* it was exiting before *)
  | Mark_wake (M : gset nat) (t : nat)
  | Round (V : gset nat) (n : Z)
  | Sending (V : gset nat) (n : Z) (t : nat)     (* [t] is marked *)
  | Sent (V : gset nat) (n : Z) (t : nat)        (* not yet counted *)
  | Unmark (U : gset nat)
  | Unmark_free (U : gset nat) (t : nat)
  | Unmark_wake (U : gset nat) (t : nat)
  | Own                                          (* all others are done *)
  | Own_answer (b : bool)
  | Own_agreed (b : bool).
Inductive crole := Before | In (us ur : list nat) (st : stage) | After (b : bool).

Context (self : nat) (result : Z).               (* of the system call *)

Definition listed (us ur : list nat) (t : nat) : Prop := t ∈ us ++ ur ∧ t ≠ self.
Definition covered (us ur : list nat) (V : gset nat) : Prop := ∀ t, listed us ur t → t ∈ V.
Definition within (us ur : list nat) (M : gset nat) : Prop := ∀ t, t ∈ M → listed us ur t.

(** What the caller may conclude without doing anything. *)
Inductive implies : crole → crole → Prop :=
  | implies_refl r : implies r r
  | implies_round us ur M : covered us ur M → within us ur M →
      implies (In us ur (Marking M)) (In us ur (Round ∅ 0))
  | implies_own us ur U : covered us ur U → implies (In us ur (Unmark U)) (In us ur Own).

Definition in_stage (r : crole) (K : list nat → list nat → stage → Prop) : Prop :=
  match r with In us ur st => K us ur st | _ => False end.

Definition crule0 {B} (o : op B) (r : crole) (K : B → crole → Prop) : Prop :=
  match o in op B return (B → crole → Prop) → Prop with
  | Lll_lock => λ K, r = Before ∧ ∀ us ur, NoDup (us ++ ur) → K () (In us ur Locked)
  | Set_xidcmd => λ K, in_stage r (λ us ur st, st = Locked ∧ K () (In us ur (Marking ∅)))
  | Stack_used => λ K, in_stage r (λ us ur st, K us r)
  | Stack_user => λ K, in_stage r (λ us ur st, K ur r)
  | Load_futex t => λ K, in_stage r (λ us ur st,
      match st with
      | Marking M => listed us ur t ∧ (t ∉ M) ∧ K (-1) r ∧
          ∀ f, f ≠ -1 → K f (In us ur (Mark_start M t))
      | Mark_wait M u => u = t ∧ K (-2) r ∧ ∀ f, f ≠ -2 → K f (In us ur (Mark_start M t))
      | _ => False
      end)
  | Cas_futex t new old => λ K, in_stage r (λ us ur st,
      match st with
      | Marking M => new = -2 ∧ old = -1 ∧ listed us ur t ∧ (t ∉ M) ∧
          K false (In us ur (Mark_wait M t)) ∧ K true (In us ur (Mark_start M t))
      | _ => False
      end)
  | Wait_futex t v => λ K, in_stage r (λ us ur st,
      match st with Mark_wait M u => u = t ∧ v = -2 ∧ K () r | _ => False end)
  | Store_futex t v => λ K, in_stage r (λ us ur st,
      match st with
      | Mark_start M u => u = t ∧ v = 0 ∧ K () (In us ur (Mark_loop M t))
      | Mark_free M u => u = t ∧ v = 1 ∧ K () (In us ur (Mark_wake M t))
      | Unmark_free U u => u = t ∧ v = 1 ∧ K () (In us ur (Unmark_wake U t))
      | _ => False
      end)
  | Wake_futex t => λ K, in_stage r (λ us ur st,
      match st with
      | Mark_wake M u => u = t ∧ K () (In us ur (Marking ({[t]} ∪ M)))
      | Unmark_wake U u => u = t ∧ K () (In us ur (Unmark ({[t]} ∪ U)))
      | _ => False
      end)
  | Load_ch t => λ K, in_stage r (λ us ur st,
      match st with
      | Mark_loop M u => u = t ∧ ∀ ch, has ch SETXID_BITMASK = false →
          K ch (if has ch EXITING_BITMASK then In us ur (Mark_free M t) else r)
      | Round V n => listed us ur t ∧ (t ∉ V) ∧ ∀ ch,
          K ch (In us ur (if has ch SETXID_BITMASK then Sending V n t else Round ({[t]} ∪ V) n))
      | Unmark U => listed us ur t ∧ ∀ ch,
          K ch (if has ch SETXID_BITMASK then r else In us ur (Unmark ({[t]} ∪ U)))
      | _ => False
      end)
  | Cas_ch t new old => λ K, in_stage r (λ us ur st,
      match st with
      | Mark_loop M u => u = t ∧ has old EXITING_BITMASK = false ∧ new = Z.lor old SETXID_BITMASK ∧
          K true r ∧ K false (In us ur (Marking ({[t]} ∪ M)))
      | Unmark U => listed us ur t ∧ has old SETXID_BITMASK = true ∧ new = Z.ldiff old SETXID_BITMASK ∧
          K true r ∧ K false (In us ur (Unmark_free U t))
      | _ => False
      end)
  | Tgkill t => λ K, in_stage r (λ us ur st,
      match st with
      | Sending V n u => u = t ∧ ∀ val,
          K val (In us ur (if error_p val then Round ({[t]} ∪ V) n else Sent V n t))
      | _ => False
      end)
  | Inc_cntr => λ K, in_stage r (λ us ur st,
      match st with Sent V n t => K () (In us ur (Round ({[t]} ∪ V) (n + 1))) | _ => False end)
  | Load_cntr => λ K, in_stage r (λ us ur st,
      match st with
      | Round V n => covered us ur V ∧ (∀ v, v ≠ 0 → K v r) ∧
          K 0 (In us ur (if n =? 0 then Unmark ∅ else Round ∅ 0))
      | _ => False
      end)
  | Wait_cntr v => λ K, in_stage r (λ us ur st,
      match st with Round V n => v ≠ 0 ∧ K () r | _ => False end)
  | Syscall => λ K, in_stage r (λ us ur st,
      st = Own ∧ K result (In us ur (Own_answer false)))
  | Set_errno e => λ K, in_stage r (λ us ur st,
      st = Own_answer false ∧ e = error_of result ∧ K () (In us ur (Own_answer true)))
  | Load_error => λ K, in_stage r (λ us ur st,
      match st with
      | Own_answer b => K (-1) r ∧ K (error_of result) (In us ur (Own_agreed b))
      | _ => False
      end)
  | Cas_error new old => λ K, in_stage r (λ us ur st,
      match st with
      | Own_answer b => new = error_of result ∧ old = -1 ∧ K true r ∧ K false (In us ur (Own_agreed b))
      | _ => False
      end)
  | Lll_unlock => λ K, in_stage r (λ us ur st,
      match st with Own_agreed b => K () (After b) | _ => False end)
  | _ => λ K, False
  end K.
Definition crule {B} (o : op B) (r : crole) (K : B → crole → Prop) : Prop :=
  ∃ r', implies r r' ∧ crule0 o r' K.

Lemma crule_mono B (o : op B) r (K K' : B → crole → Prop) :
  (∀ b r, K b r → K' b r) → crule o r K → crule o r K'.
Proof.
  intros H (r' & Hr & HK). exists r'. split; [done|].
  destruct o; cbn in *; unfold in_stage in *; try done; destruct r' as [|us ur []|]; naive_solver.
Qed.

Definition csafe {A} : (A → crole → Prop) → prog A → crole → Prop := safe (@crule).
#[global] Arguments csafe : simpl never.
End Rules.

(** ** The caller's code keeps the rules *)

Section Code.
Context {PF : Platform} (self : nat) (result : Z).
#[local] Abbreviation csafe := (csafe self result).
Context (us ur : list nat).
#[local] Abbreviation In := (In us ur).
#[local] Abbreviation listed := (listed self us ur).

Lemma csafe_bind {A B} (Post : A → crole → Prop) (Post' : B → crole → Prop) (p : prog A) (f : A → prog B) r :
  csafe Post p r → (∀ a r, Post a r → csafe Post' (f a) r) → csafe Post' (p ≫= f) r.
Proof. apply safe_bind, crule_mono. Qed.
Lemma csafe_loop {C} (I : crole → Prop) (Post : C → crole → Prop) (body : prog (option C)) r :
  I r → (∀ r, I r → csafe (λ c r, match c with None => I r | Some c => Post c r end) body r) →
  csafe Post (loop body) r.
Proof. apply safe_loop, crule_mono. Qed.
Lemma csafe_loop_bind {A C} (Post : C → crole → Prop) (Post' : A → crole → Prop) body (k : C → prog A) r :
  csafe Post (loop body) r → (∀ c r, Post c r → csafe Post' (k c) r) → csafe Post' (Loop body k) r.
Proof. intros Hl Hk. exact (csafe_bind _ _ (loop body) k r Hl Hk). Qed.
Lemma csafe_ret {A} (Post : A → crole → Prop) a r : Post a r → csafe Post (Ret a) r.
Proof. done. Qed.
Lemma csafe_act {A B} (Post : A → crole → Prop) (o : op B) (k : B → prog A) r r' :
  implies self r r' → crule0 self result o r' (λ b r, csafe Post (k b) r) → csafe Post (Act o k) r.
Proof. intros Hr HK. by exists r'. Qed.

(** One operation, from the role as it is. *)
Ltac act := cbn; eapply csafe_act; [apply implies_refl|]; cbn.

Lemma mark_loop_safe M t :
  csafe (λ _ r, r = In (Marking ({[t]} ∪ M)))
    (loop (ch ← call (Load_ch t);
        if has ch EXITING_BITMASK then
          when_p (negb (has ch SETXID_BITMASK)) (call (Store_futex t 1);; call (Wake_futex t));;
          mret (Some ())
        else
          again ← call (Cas_ch t (Z.lor ch SETXID_BITMASK) ch);
          mret (if again : bool then None else Some ()))) (In (Mark_loop M t)).
Proof.
  apply (csafe_loop (λ r, r = In (Mark_loop M t))); [done|]. intros r ->. act. split; [done|].
  intros ch Hs. rewrite Hs. cbn. destruct (has ch EXITING_BITMASK) eqn:He.
  - act. split_and!; [done..|]. act. by split.
  - act. by split_and!.
Qed.

Lemma mark_wait_safe M t :
  csafe (λ _ r, r = In (Mark_start M t))
    (loop (call (Wait_futex t (-2));;
           f ← call (Load_futex t);
           mret (if f =? -2 then None else Some ()))) (In (Mark_wait M t)).
Proof.
  apply (csafe_loop (λ r, r = In (Mark_wait M t))); [done|]. intros r ->. act. split_and!; [done..|].
  act. split_and!; [done..|]. intros f Hf. destruct (Z.eqb_spec f (-2)); done.
Qed.

Lemma mark_safe M t : listed t → t ∉ M →
  csafe (λ _ r, r = In (Marking ({[t]} ∪ M))) (setxid_mark_thread t) (In (Marking M)).
Proof.
  intros Hl Ht. unfold setxid_mark_thread.
  assert (Hrest : csafe (λ _ r, r = In (Marking ({[t]} ∪ M)))
    (call (Store_futex t 0);;
     loop (ch ← call (Load_ch t);
        if has ch EXITING_BITMASK then
          when_p (negb (has ch SETXID_BITMASK)) (call (Store_futex t 1);; call (Wake_futex t));;
          mret (Some ())
        else
          again ← call (Cas_ch t (Z.lor ch SETXID_BITMASK) ch);
          mret (if again : bool then None else Some ()))) (In (Mark_start M t))).
  { act. split_and!; [done..|]. apply mark_loop_safe. }
  act. split_and!; [done..| |].
  - rewrite Z.eqb_refl. act. split_and!; [done..| |].
    + eapply csafe_loop_bind; [apply mark_wait_safe|]. by intros _ r ->.
    + exact Hrest.
  - intros f Hf. destruct (Z.eqb_spec f (-1)); [done|]. exact Hrest.
Qed.

Lemma unmark_safe U t : listed t →
  csafe (λ _ r, r = In (Unmark ({[t]} ∪ U))) (setxid_unmark_thread t) (In (Unmark U)).
Proof.
  intros Hl. unfold setxid_unmark_thread.
  eapply (csafe_bind (λ (marked : bool) r, r = In (if marked then Unmark_free U t else Unmark ({[t]} ∪ U)))).
  - apply (csafe_loop (λ r, r = In (Unmark U))); [done|]. intros r ->. act. split; [done|]. intros ch.
    destruct (has ch SETXID_BITMASK) eqn:Hs; cbn; [|done]. act. by split_and!.
  - intros marked r ->. destruct marked; cbn; [|done]. act. split_and!; [done..|]. act. by split.
Qed.

Lemma signal_safe V n t : listed t → t ∉ V →
  csafe (λ k r, (k = 0 ∨ k = 1) ∧ r = In (Round ({[t]} ∪ V) (n + k))) (setxid_signal_thread t) (In (Round V n)).
Proof.
  intros Hl Ht. unfold setxid_signal_thread. act. split_and!; [done..|]. intros ch.
  destruct (has ch SETXID_BITMASK); cbn; [|apply csafe_ret; rewrite Z.add_0_r; auto]. act. split; [done|]. intros val.
  destruct (error_p val); cbn; [apply csafe_ret; rewrite Z.add_0_r; auto|]. act. apply csafe_ret. auto.
Qed.

Lemma signal_others_safe ts : ∀ V n, NoDup ts → (∀ t, t ∈ ts → t ∈ us ++ ur ∧ t ∉ V) → 0 ≤ n →
  csafe (λ k r, 0 ≤ k ∧ r = In (Round ((list_to_set ts ∖ {[self]}) ∪ V) k)) (signal_others self ts n) (In (Round V n)).
Proof.
  induction ts as [|t ts IH]; intros V n Hnd Hin Hn; cbn [signal_others].
  - cbn. split; [done|]. do 2 f_equal. set_solver.
  - apply NoDup_cons in Hnd as [Ht Hnd].
    destruct (Hin t) as [Hl HV]; [by left|]. destruct (decide (t = self)) as [->|Hne].
    + eapply safe_mono; [apply crule_mono| |apply IH; [done|set_solver|done]].
      intros k r [Hk ->]. split; [done|]. do 2 f_equal. set_solver.
    + eapply csafe_bind; [by apply signal_safe|]. intros k r [Hk ->].
      eapply safe_mono; [apply crule_mono| |apply (IH ({[t]} ∪ V)); [done|set_solver|lia]].
      intros k' r [Hk' ->]. split; [done|]. do 2 f_equal. set_solver.
Qed.
Lemma wait_answers_safe V n : covered self us ur V →
  csafe (λ _ r, r = In (if n =? 0 then Unmark ∅ else Round ∅ 0)) wait_answers (In (Round V n)).
Proof.
  intros HV. apply (csafe_loop (λ r, r = In (Round V n))); [done|]. intros r ->. act. split_and!; [done| |].
  - intros v Hv. destruct (Z.eqb_spec v 0); [done|]. by act.
  - by rewrite Z.eqb_refl.
Qed.

Lemma signal_round_safe r : NoDup (us ++ ur) → implies self r (In (Round ∅ 0)) →
  csafe (λ c r, match c with None => r = In (Round ∅ 0) | Some _ => r = In (Unmark ∅) end) (signal_round self) r.
Proof.
  intros Hnd Hr. pose proof (proj1 (NoDup_app _ _) Hnd) as (Hu & Hd & Hr').
  unfold signal_round. cbn. eapply csafe_act; [exact Hr|]. cbn.
  eapply csafe_bind; [apply signal_others_safe; [done|set_solver|done]|]. intros k r' [Hk ->]. act.
  eapply csafe_bind; [apply signal_others_safe; [done|set_solver|done]|]. intros k' r' [Hk' ->].
  eapply csafe_loop_bind; [apply wait_answers_safe|].
  - intros t Ht. destruct Ht as [Ht Hne]. set_solver.
  - intros _ r' ->. apply csafe_ret. by destruct (k' =? 0).
Qed.

(** Both lists. *)
Lemma both_lists_safe {A} (st : gset nat → stage) (f : nat → prog ()) (k : prog A) (Post : A → crole → Prop) :
  (∀ t S, listed t → t ∉ S → csafe (λ _ r, r = In (st ({[t]} ∪ S))) (f t) (In (st S))) → NoDup (us ++ ur) →
  (∀ S, covered self us ur S → within self us ur S → csafe Post k (In (st S))) →
  csafe Post (used ← call Stack_used; others self used f;; user ← call Stack_user; others self user f;; k)
    (In (st ∅)).
Proof.
  intros Hf Hnd Hk. pose proof (proj1 (NoDup_app _ _) Hnd) as (Hu & Hd & Hr'). act.
  assert (Ho : ∀ ts S, NoDup ts → (∀ t, t ∈ ts → t ∈ us ++ ur ∧ t ∉ S) →
    csafe (λ _ r, r = In (st (list_to_set ts ∖ {[self]} ∪ S))) (others self ts f) (In (st S))).
  { intros ts S Hts Hin. apply (others_safe _ (crule_mono self result) self (λ S, In (st S))); [|done|naive_solver].
    intros t S' Ht Hne HS. apply Hf; [split; [by apply Hin|done]|done]. }
  eapply csafe_bind; [apply Ho; [done|set_solver]|]. intros _ r ->. act.
  eapply csafe_bind; [apply Ho; [done|set_solver]|]. intros _ r ->. apply Hk.
  - intros t [Ht Hne]. set_solver.
  - intros t Ht. split; set_solver.
Qed.

Lemma answer_safe (Post : () → crole → Prop) b : Post () (In (Own_agreed b)) →
  csafe Post (nptl_setxid_error (error_of result)) (In (Own_answer b)).
Proof.
  intros HP. unfold nptl_setxid_error. apply (csafe_loop (λ r, r = In (Own_answer b))); [done|]. intros r ->.
  assert (He : 0 ≤ error_of result).
  { unfold error_of, error_p. destruct (Z.ltb_spec (-4096) result), (Z.ltb_spec result 0); cbn; lia. }
  act. rewrite !Z.eqb_refl. destruct (Z.eqb_spec (-1) (error_of result)); [lia|]. cbn. split; [|done].
  by act.
Qed.

Lemma own_call_safe r : implies self r (In Own) →
  csafe (λ v r, v = (if error_p result then -1 else result) ∧ r = After (error_p result))
    (result ← call Syscall;
     when_p (error_p result) (call (Set_errno (- result)));;
     nptl_setxid_error (error_of result);;
     call Lll_unlock;;
     mret (if error_p result then -1 else result)) r.
Proof.
  intros Hr. cbn. eapply csafe_act; [exact Hr|]. cbn. split; [done|]. destruct (error_p result) eqn:E; cbn.
  - act. split_and!; [done|unfold error_of; by rewrite E|].
    eapply csafe_loop_bind; [by apply (answer_safe (λ _ r, r = In (Own_agreed true)))|]. intros _ r' ->. by act.
  - eapply csafe_loop_bind; [by apply (answer_safe (λ _ r, r = In (Own_agreed false)))|]. intros _ r' ->. by act.
Qed.
End Code.

Lemma nptl_setxid_safe {PF : Platform} self result :
  csafe self result (λ v r, v = (if error_p result then -1 else result) ∧ r = After (error_p result))
    (nptl_setxid self) Before.
Proof.
  unfold nptl_setxid. cbn. eapply csafe_act; [apply implies_refl|]. split; [done|]. intros us ur Hnd.
  cbn. eapply csafe_act; [apply implies_refl|]. split; [done|].
  apply (both_lists_safe self result us ur Marking); [intros t S; apply mark_safe|done|]. intros M HM HM'.
  eapply csafe_loop_bind.
  - apply (csafe_loop _ _ (λ r, implies self r (In us ur (Round ∅ 0)))); [by constructor|]. intros r Hr.
    eapply safe_mono; [apply crule_mono| |by apply signal_round_safe].
    intros [c|] r' Hr'; [exact Hr'|]. rewrite Hr'. constructor.
  - intros c r Hr. cbn in Hr. rewrite Hr. apply (both_lists_safe self result us ur Unmark); [|done|].
    + intros t S Ht _. by apply unmark_safe.
    + intros U HU _. apply (own_call_safe self result us ur). by constructor.
Qed.
