(* ===== verification/SetxidProofs.v ===== *)
(** [__nptl_setxid]: every run of the machine of Setxid.v.

    Each thread has a role that says how far it is with the caller's request; what the caller
    knows at each of its stages is a condition on the roles and the threads, kept by every
    operation of the caller, of a handler and of the other threads. *)
From S2P Require Import Prelude ListHead Nptl Program Setxid.
#[local] Arguments Z.eqb : simpl never.
#[local] Abbreviation prog := (prog op).

(** * The invariant *)

Definition unborn (p : phase) : bool := match p with Embryo | Cloned => true | _ => false end.
Definition waking (p : phase) : bool := match p with Started_waking | Failed_waking => true | _ => false end.
Definition still (p : phase) : bool := match p with Failed_waking | Stillborn => true | _ => false end.
Definition exiting (p : phase) : bool :=
  match p with Exiting | Waiting | Asleep | Checking | Leaving | Dead => true | _ => false end.
Definition gone (p : phase) : bool := match p with Dead | Stillborn => true | _ => false end.
(** Where a thread can be marked. *)
Definition up (p : phase) : bool :=
  match p with Started_waking | Running | Exiting | Waiting | Asleep | Checking => true | _ => false end.

(** Before it is marked, or not to be marked; marked; signalled; in the handler; with the new ids. *)
Inductive trole := Idle | Marked | Called | Handling (h : hrole) | Replied.
Definition pend (ro : trole) : Z :=
  match ro with
  | Called | Handling (Asked | Answered _ | Agreed | Cleared | Stored | Released) => 1
  | _ => 0
  end.
Lemma pend_nonneg ro : 0 ≤ pend ro.
Proof. by destruct ro as [| | |[]|]. Qed.

Section Invariant.
Context {PF : Platform} (self : nat) (setid : Z → Z * Z) (c0 : Z).
Let c1 := (setid c0).1.
Let result := (setid c0).2.
Let e0 := error_of result.

Definition flagged (th : thread) : bool := has (cancelhandling th) SETXID_BITMASK.

Record wf (th : thread) : Prop := {
  wf_exiting : has (cancelhandling th) EXITING_BITMASK = exiting (ph th);
  wf_futex : if unborn (ph th) then setxid_futex th = -1 ∨ setxid_futex th = -2
             else setxid_futex th = 0 ∨ setxid_futex th = 1;
}.
(** It does not sleep before it ends, unless it is to be woken. *)
Definition calm (th : thread) : Prop := ph th ≠ Asleep ∧ (ph th = Waiting → setxid_futex th = 1).
Definition has_creds (p : phase) : bool := match p with Embryo | Failed_waking | Stillborn => false | _ => true end.

Record handling (t : nat) (th : thread) (h : hrole) : Prop := {
  hd_signalled : signalled th = false;
  hd_prog : ∃ p, in_handler th = Some p ∧ hsafe t p h;
  hd_phase : up (ph th) = true ∧ ph th ≠ Asleep;
  hd_flag : flagged th = match h with Asked | Answered _ | Agreed => true | _ => false end;
  hd_creds : creds th = match h with Asked => c0 | _ => c1 end;
  hd_error : ∀ e, h = Answered e → e = e0;
  hd_futex : match h with Stored | Released | Must_wake | Finished => setxid_futex th = 1 | _ => True end;
}.
Definition uncalled (th : thread) (flag : bool) : Prop :=
  flagged th = flag ∧ signalled th = false ∧ in_handler th = None.
Definition has_role (loud : Prop) (t : nat) (th : thread) (ro : trole) : Prop :=
  match ro with
  | Idle => uncalled th false ∧ (has_creds (ph th) = true → creds th = c0) ∧ (¬ loud → calm th)
  | Marked => uncalled th true ∧ (up (ph th) = true ∧ creds th = c0 ∨ still (ph th) = true)
  | Called => flagged th = true ∧ signalled th = true ∧ in_handler th = None ∧ up (ph th) = true ∧ creds th = c0
  | Handling h => handling t th h
  | Replied => uncalled th false ∧ (has_creds (ph th) = true → creds th = c1) ∧ calm th ∧ ph th ≠ Embryo
  end.

(** What a thread is at a stage of the caller. *)
Definition settled (th : thread) (ro : trole) : Prop :=
  ro = Idle → exiting (ph th) = true.
Definition over (th : thread) (ro : trole) : Prop :=
  match ro with
  | Idle => exiting (ph th) = true ∨ still (ph th) = true
  | Marked => still (ph th) = true
  | ro => pend ro = 0
  end.
Definition mark_fits (M : gset nat) (t : nat) (th : thread) (ro : trole) : Prop :=
  (t ∈ M → ro = Marked ∨ ro = Idle ∧ exiting (ph th) = true) ∧
  (t ∉ M → ro = Idle ∧ setxid_futex th ≠ -2).
Definition mark_one (t0 : nat) (P : Prop) (M : gset nat) (t : nat) (th : thread) (ro : trole) : Prop :=
  if decide (t = t0) then ro = Idle ∧ P else mark_fits M t th ro.
Record round_fits (us ur : list nat) (V : gset nat) (n : Z) (t : nat) (th : thread) (ro : trole) : Prop := {
  rf_listed : t ∈ us ++ ur → settled th ro;
  rf_other : t ∉ us ++ ur → ro = Idle;
  rf_pend : 0 < pend ro → t ∈ V ∧ n ≠ 0;
  rf_done : n = 0 → t ∈ V → over th ro;
}.
Definition stage_fits (us ur : list nat) (st : stage) (t : nat) (th : thread) (ro : trole) : Prop :=
  match st with
  | Locked => ro = Idle ∧ setxid_futex th ≠ -2
  | Marking M => mark_fits M t th ro
  | Mark_wait M t0 => mark_one t0 (unborn (ph th) = true → setxid_futex th = -2) M t th ro
  | Mark_start M t0 | Mark_loop M t0 => mark_one t0 (unborn (ph th) = false) M t th ro
  | Mark_free M t0 => mark_one t0 (exiting (ph th) = true) M t th ro
  | Mark_wake M t0 => mark_one t0 (exiting (ph th) = true ∧ (ph th = Waiting → setxid_futex th = 1)) M t th ro
  | Round V n => round_fits us ur V n t th ro
  | Sending V n t0 => round_fits us ur V n t th ro ∧ (t = t0 → ro = Marked)
  | Sent V n t0 =>
      if decide (t = t0) then t ∈ us ++ ur ∧ ro ≠ Idle else round_fits us ur V n t th ro
  | Unmark U => over th ro ∧ (t ∉ us ++ ur ∨ t ∈ U → ro ≠ Marked)
  | Unmark_free U t0 | Unmark_wake U t0 =>
      if decide (t = t0) then ro = Idle ∧ still (ph th) = true
      else over th ro ∧ (t ∉ us ++ ur ∨ t ∈ U → ro ≠ Marked)
  | Own | Own_answer _ | Own_agreed _ => over th ro ∧ ro ≠ Marked
  end.
Definition fits (r : crole) (t : nat) (th : thread) (ro : trole) : Prop :=
  match r with
  | Before => ro = Idle ∧ setxid_futex th ≠ -2
  | In us ur st => stage_fits us ur st t th ro
  | After _ => ro ≠ Marked ∧ (over th ro ∨ ro = Idle ∧ ph th = Embryo)
  end.
(** The thread whose futex the caller has just set to 0. *)
Definition loud (r : crole) (t : nat) : Prop :=
  match r with
  | In _ _ (Mark_loop _ t0 | Mark_free _ t0 | Mark_wake _ t0) => t = t0
  | _ => False
  end.
Definition self_creds (r : crole) : Z :=
  match r with In _ _ (Own_answer _ | Own_agreed _) | After _ => c1 | _ => c0 end.

(** The caller sleeps only where somebody will wake it. *)
Definition sleep_ok (st : stage) (rs : list trole) (w : world) : Prop :=
  match sleeps w with
  | None => True
  | Some (At_futex t) => (∃ M, st = Mark_wait M t) ∧
      ∃ th, threads w !! t = Some th ∧ (unborn (ph th) || waking (ph th)) = true
  | Some At_cntr => (∃ V n, st = Round V n) ∧ (cntr w ≠ 0 ∨ ∃ t, rs !! t = Some (Handling Must_wake))
  end.
Definition stage_facts (us ur : list nat) (st : stage) (w : world) : Prop :=
  match st with
  | Mark_wait M t | Mark_start M t | Mark_loop M t | Mark_free M t | Mark_wake M t =>
      listed self us ur t ∧ t ∉ M
  | Round V n => 0 ≤ n
  | Sending V n t | Sent V n t => 0 ≤ n ∧ listed self us ur t ∧ t ∉ V
  | Unmark_free U t | Unmark_wake U t => listed self us ur t
  | Own_answer b | Own_agreed b => b = true → errno w = e0
  | _ => True
  end.
Definition uncounted (st : stage) : Z := match st with Sent _ _ _ => 1 | _ => 0 end.
Definition stage_ok (r : crole) (rs : list trole) (w : world) : Prop :=
  match r with
  | Before => locked w = false ∧ sleeps w = None
  | In us ur st => locked w = true ∧ used w = us ∧ user w = ur ∧
      (st ≠ Locked → (error w = -1 ∨ error w = e0) ∧ cntr w = sumZ pend rs - uncounted st) ∧
      sleep_ok st rs w ∧ stage_facts us ur st w
  | After b => locked w = false ∧ sleeps w = None ∧ (b = true → errno w = e0)
  end.

Definition thread_ok (r : crole) (t : nat) (th : thread) (ro : trole) : Prop :=
  wf th ∧ has_role (loud r t) t th ro ∧ fits r t th ro.

Record inv (r : crole) (rs : list trole) (w : world) : Prop := {
  iv_len : length rs = length (threads w);
  iv_self : ∃ th, threads w !! self = Some th ∧ ph th = Running ∧ signalled th = false ∧
    in_handler th = None ∧ creds th = self_creds r;
  iv_self_role : rs !! self = Some Idle;
  iv_threads t th ro : t ≠ self → threads w !! t = Some th → rs !! t = Some ro → thread_ok r t th ro;
  iv_listed t th : t ≠ self → threads w !! t = Some th → t ∈ used w ++ user w ∨ gone (ph th) = true;
  iv_nodup : NoDup (used w ++ user w);
  iv_range t : t ∈ used w ++ user w → (t < length (threads w))%nat;
  iv_aborted : aborted w = false;
  iv_stage : stage_ok r rs w;
}.

Lemma inv_role r rs w t th : inv r rs w → threads w !! t = Some th → ∃ ro, rs !! t = Some ro.
Proof.
  intros Hi Ht. apply lookup_lt_is_Some. rewrite (iv_len _ _ _ Hi). by apply lookup_lt_Some in Ht.
Qed.
Lemma inv_listed_thread r rs w t : inv r rs w → t ∈ used w ++ user w →
  ∃ th ro, threads w !! t = Some th ∧ rs !! t = Some ro.
Proof.
  intros Hi Ht. destruct (lookup_lt_is_Some_2 (threads w) t) as [th Hth]; [by eapply iv_range|].
  destruct (inv_role _ _ _ _ _ Hi Hth) as [ro Hro]. by exists th, ro.
Qed.

(** The caller goes on; the threads stay. *)
Lemma inv_same r r' rs w w' :
  inv r rs w → threads w' = threads w → used w' = used w → user w' = user w → aborted w' = aborted w →
  self_creds r' = self_creds r → stage_ok r' rs w' →
  (∀ t th ro, t ≠ self → threads w !! t = Some th → rs !! t = Some ro → thread_ok r t th ro → thread_ok r' t th ro) →
  inv r' rs w'.
Proof.
  intros [] Ht Hu Hr Ha Hc Hs Hth. split; rewrite ?Ht, ?Hu, ?Hr, ?Ha, ?Hc; auto.
Qed.

(** One other thread changes. *)
Lemma inv_one r r' rs w w' t th ro th' ro' :
  inv r rs w → t ≠ self → threads w !! t = Some th → rs !! t = Some ro →
  threads w' = <[t := th']> (threads w) → used w' = used w → user w' = user w → aborted w' = aborted w →
  self_creds r' = self_creds r → stage_ok r' (<[t := ro']> rs) w' →
  thread_ok r' t th' ro' → (gone (ph th) = true → gone (ph th') = true) →
  (∀ u thu rou, u ≠ self → u ≠ t → threads w !! u = Some thu → rs !! u = Some rou →
    thread_ok r u thu rou → thread_ok r' u thu rou) →
  inv r' (<[t := ro']> rs) w'.
Proof.
  intros [Hlen Hself Hsr Hths Hl Hnd Hr Hab Hst] Hne Hth Hro Ht Hu Hus Ha Hc Hs Hok Hg Hother.
  assert (Hlt := lookup_lt_Some _ _ _ Hth). assert (Hlt' := lookup_lt_Some _ _ _ Hro).
  split; rewrite ?Ht, ?Hu, ?Hus, ?Ha, ?Hc, ?length_insert; auto.
  - by rewrite list_lookup_insert_ne.
  - by rewrite list_lookup_insert_ne.
  - intros u thu rou Hu' H1 H2. destruct (decide (u = t)) as [->|Hne'].
    + rewrite list_lookup_insert_eq in H1 by done. rewrite list_lookup_insert_eq in H2 by done. by simplify_eq.
    + rewrite list_lookup_insert_ne in H1 by done. rewrite list_lookup_insert_ne in H2 by done. eauto.
  - intros u thu Hu' H1. destruct (decide (u = t)) as [->|Hne'].
    + rewrite list_lookup_insert_eq in H1 by done. simplify_eq. destruct (Hl t th Hne Hth); auto.
    + rewrite list_lookup_insert_ne in H1 by done. eauto.
Qed.

(** What a step of a thread must not spoil of the caller's sleep. *)
Definition keeps_sleep (t : nat) (th' : thread) (ro ro' : trole) (w : world) : Prop :=
  (sleeps w = Some (At_futex t) → (unborn (ph th') || waking (ph th')) = true) ∧
  (sleeps w = Some At_cntr → ro = Handling Must_wake → ro' = Handling Must_wake).

Lemma sleep_ok_one st rs w t th' ro ro' :
  sleep_ok st rs w → rs !! t = Some ro → (t < length (threads w))%nat → keeps_sleep t th' ro ro' w →
  sleep_ok st (<[t := ro']> rs) (set_thread t th' w).
Proof.
  intros Hs Hro Hlt [Hf Hc]. unfold sleep_ok, set_thread in *. rs. destruct (sleeps w) as [[u|]|]; [| |done].
  - destruct Hs as [HM (th & Hth & Hp)]. split; [done|]. destruct (decide (u = t)) as [->|Hne].
    + exists th'. rewrite list_lookup_insert_eq by done. auto.
    + exists th. by rewrite list_lookup_insert_ne.
  - destruct Hs as [HV [Hn|[u Hu]]]; split; auto. right. destruct (decide (u = t)) as [->|Hne].
    + exists t. rewrite list_lookup_insert_eq by (by eapply lookup_lt_Some). f_equal. apply Hc; congruence.
    + exists u. by rewrite list_lookup_insert_ne.
Qed.

(** A thread makes a step by itself: the caller's stage stays. *)
Lemma inv_thread r rs w t th ro th' ro' :
  inv r rs w → t ≠ self → threads w !! t = Some th → rs !! t = Some ro →
  (thread_ok r t th ro → thread_ok r t th' ro') → pend ro' = pend ro →
  (gone (ph th) = true → gone (ph th') = true) → keeps_sleep t th' ro ro' w →
  inv r (<[t := ro']> rs) (set_thread t th' w).
Proof.
  intros Hi Hne Hth Hro Hok Hp Hg Hk. eapply (inv_one r r rs w); try done.
  - pose proof (iv_stage _ _ _ Hi) as Hs. destruct r as [|us ur st|b]; [done| |done].
    destruct Hs as (Hl & Hu & Hus & Hn & Hsl & Hf). split_and!; [done..| | |done].
    + intros Hst. destruct (Hn Hst) as [He Hc]. split; [done|].
      rewrite (sumZ_insert pend _ _ _ _ Hro), Hp. change (cntr (set_thread t th' w)) with (cntr w). lia.
    + by apply (sleep_ok_one st rs w t th' ro ro' Hsl Hro (lookup_lt_Some _ _ _ Hth)).
  - apply Hok. by eapply iv_threads.
Qed.

(** The caller is woken, for a reason or not. *)
Lemma inv_unsleep r rs w : inv r rs w → inv r rs (w <| sleeps := None |>).
Proof.
  intros Hi. eapply (inv_same r r rs w); try done. pose proof (iv_stage _ _ _ Hi) as Hs.
  destruct r as [|us ur st|b]; [by destruct Hs|by destruct Hs as (?&?&?&?&?&?)|by destruct Hs as (?&?&?)].
Qed.

(** ** The other threads *)

Context {PL : PlatformLaws}.
Context (handler : nat → prog ()).
Hypothesis handler_ok : ∀ t, hsafe t (handler t) Asked.
#[local] Abbreviation step := (step self setid handler false).
#[local] Abbreviation exec := (exec self setid false).

Lemma bits : 0 ≤ EXITING_BIT ∧ 0 ≤ SETXID_BIT ∧ SETXID_BIT ≠ EXITING_BIT.
Proof.
  pose proof cancel_bits_range as H. pose proof cancel_bits as N.
  repeat apply Forall_cons in H as [? H]. repeat (apply NoDup_cons in N as [? N]).
  split_and!; [lia|lia|set_solver].
Qed.
Lemma has_or_exiting ch : has (Z.lor ch EXITING_BITMASK) EXITING_BITMASK = true ∧
  has (Z.lor ch EXITING_BITMASK) SETXID_BITMASK = has ch SETXID_BITMASK.
Proof.
  destruct bits as (He & Hs & Hne). unfold EXITING_BITMASK, SETXID_BITMASK.
  rewrite !has_lor, !has_bitmask, bool_decide_true, bool_decide_false by done. by rewrite orb_true_r, orb_false_r.
Qed.
Lemma has_or_setxid ch : has (Z.lor ch SETXID_BITMASK) SETXID_BITMASK = true ∧
  has (Z.lor ch SETXID_BITMASK) EXITING_BITMASK = has ch EXITING_BITMASK.
Proof.
  destruct bits as (He & Hs & Hne). unfold EXITING_BITMASK, SETXID_BITMASK.
  rewrite !has_lor, !has_bitmask, bool_decide_true, bool_decide_false by done. by rewrite orb_true_r, orb_false_r.
Qed.
Lemma has_not_setxid ch : has (Z.ldiff ch SETXID_BITMASK) SETXID_BITMASK = false ∧
  has (Z.ldiff ch SETXID_BITMASK) EXITING_BITMASK = has ch EXITING_BITMASK.
Proof.
  destruct bits as (He & Hs & Hne). unfold EXITING_BITMASK, SETXID_BITMASK.
  rewrite !has_bit, !Z.ldiff_spec, !bitmask_spec, bool_decide_true, bool_decide_false by done.
  by rewrite andb_false_r, andb_true_r.
Qed.

(** What a step must not change for the stage to hold. *)
Record goes_on (th th' : thread) : Prop := {
  go_exiting : exiting (ph th) = true → exiting (ph th') = true;
  go_still : still (ph th) = true → still (ph th') = true;
  go_born : unborn (ph th) = false → unborn (ph th') = false;
  go_futex : setxid_futex th ≠ -2 → setxid_futex th' ≠ -2;
  go_unborn : unborn (ph th') = true → setxid_futex th' = setxid_futex th;
  go_waiting : flagged th = false → (ph th = Waiting → setxid_futex th = 1) → ph th' = Waiting → setxid_futex th' = 1;
  go_gone : gone (ph th) = true → gone (ph th') = true;
}.

Lemma fits_goes_on r t th th' ro :
  (ro = Idle → flagged th = false) → goes_on th th' →
  (∀ b, r = After b → ph th = Embryo → ph th' = Embryo ∨ still (ph th') = true) →
  fits r t th ro → fits r t th' ro.
Proof.
  intros Hfl [Ge Gs Gb Gf Gu Gw Gg] Gm.
  assert (Hover : over th ro → over th' ro).
  { destruct ro; cbn; auto. intros []; auto. }
  assert (Hmark : ∀ M, mark_fits M t th ro → mark_fits M t th' ro).
  { intros M [H1 H2]. split; intros HM; [destruct (H1 HM) as [|[]]; auto|destruct (H2 HM); auto]. }
  assert (Hround : ∀ us ur V n, round_fits us ur V n t th ro → round_fits us ur V n t th' ro).
  { intros us ur V n []. split; unfold settled in *; auto. }
  assert (Hone : ∀ t0 (P P' : Prop) M, (ro = Idle → P → P') → mark_one t0 P M t th ro → mark_one t0 P' M t th' ro).
  { intros t0 P P' M HP. unfold mark_one. destruct (decide (t = t0)); [intros []|]; auto. }
  assert (Hpair : ∀ P : Prop, over th ro ∧ P → over th' ro ∧ P) by (intros P []; auto).
  destruct r as [|us ur st|b]; cbn; [intros []; auto| |].
  - destruct st; cbn; auto; try (apply Hone; intros Hro; specialize (Hfl Hro); auto).
    + intros []; auto.
    + intros H Hu. rewrite Gu by done. apply H. destruct (unborn (ph th)); [done|]. by rewrite Gb in Hu.
    + intros [H1 H2]. auto.
    + intros []. auto.
    + destruct (decide (t = t0)); auto.
    + destruct (decide (t = t0)); [intros []|]; auto.
    + destruct (decide (t = t0)); [intros []|]; auto.
  - intros [Hm [Ho|[Hi He]]]; split; auto. destruct (Gm b eq_refl He) as [|Hs]; [auto|]. left. subst ro. by right.
Qed.

(** A step of a thread by itself. *)
Lemma moves_goes_on m th th' b : wf th → moves m th = Some (th', b) → goes_on th th'.
Proof.
  intros [Hx Hf] H. unfold flagged. destruct th as [p c f ch sg h]; cbn in *.
  destruct m, p; try done; unfold moves in H; cbn in H; simplify_eq;
    try destruct (Z.eqb_spec f (-2)); try destruct (Z.eqb_spec f 0);
    destruct (has ch SETXID_BITMASK) eqn:Hb; split; unfold flagged; cbn in *; rs; cbn; rewrite ?Hb; try done; try lia; auto.
Qed.

Lemma moves_wf m th th' b : wf th → moves m th = Some (th', b) → wf th'.
Proof.
  intros [Hx Hf] H. destruct th as [p c f ch sg h]; cbn in *.
  destruct m, p; try done; unfold moves in H; cbn in H; simplify_eq; split; cbn; rs; cbn; auto;
    try destruct (Z.eqb_spec f (-2)); try destruct (Z.eqb_spec f 0);
    try destruct (has ch SETXID_BITMASK); cbn; try lia; auto; by destruct (has_or_exiting ch).
Qed.

Lemma moves_flagged m th th' b : moves m th = Some (th', b) →
  flagged th' = flagged th ∧ signalled th' = signalled th ∧ in_handler th' = in_handler th ∧ creds th' = creds th.
Proof.
  intros H. unfold flagged. destruct th as [p c f ch sg h].
  destruct m, p; try done; unfold moves in H; cbn in H; simplify_eq; rs; cbn; try done.
  split_and!; [|done..]. apply has_or_exiting.
Qed.

Lemma moves_phase m th th' b : moves m th = Some (th', b) →
  (has_creds (ph th') = true → has_creds (ph th) = true) ∧
  (flagged th = true → up (ph th) = true → up (ph th') = true) ∧
  (still (ph th) = true → still (ph th') = true) ∧
  (flagged th = false → calm th → calm th') ∧
  (ph th = Embryo → ph th' = Embryo ∨ still (ph th') = true) ∧ (ph th ≠ Embryo → ph th' ≠ Embryo).
Proof.
  intros H. unfold flagged, calm. destruct th as [p c f ch sg h].
  destruct m, p; try done; unfold moves in H; cbn in H; simplify_eq; rs; cbn;
    try destruct (Z.eqb_spec f (-2)); try destruct (Z.eqb_spec f 0);
    try destruct (has ch SETXID_BITMASK); cbn; split_and!; try done; naive_solver.
Qed.

Lemma moves_ok m r t th th' b ro :
  in_handler th = None → moves m th = Some (th', b) → thread_ok r t th ro → thread_ok r t th' ro.
Proof.
  intros Hh H (Hw & Hr & Hf). pose proof (moves_goes_on _ _ _ _ Hw H) as Hg.
  destruct (moves_flagged _ _ _ _ H) as (E1 & E2 & E3 & E4).
  destruct (moves_phase _ _ _ _ H) as (P1 & P2 & P3 & P4 & P5 & P6). split_and!.
  - by eapply moves_wf.
  - destruct ro; cbn in *; unfold uncalled in *; rewrite ?E1, ?E2, ?E3, ?E4.
    + destruct Hr as ((Hb & ? & ?) & Hc & Hl). split_and!; auto.
    + destruct Hr as ((Hb & ? & ?) & [[]|]); split_and!; auto.
    + destruct Hr as (? & ? & ? & ? & ?). split_and!; auto.
    + destruct Hr as [_ (p & Hp & _) _ _ _ _ _]. congruence.
    + destruct Hr as ((Hb & ? & ?) & Hc & Hl & ?). split_and!; auto.
  - eapply fits_goes_on; [|exact Hg|intros; by apply P5|exact Hf]. intros ->. by destruct Hr as ((Hb & _) & _).
Qed.

Lemma moves_awake m th th' b : moves m th = Some (th', b) →
  (unborn (ph th) = true → setxid_futex th = -2) →
  (unborn (ph th) || waking (ph th)) = true → b = true ∨ (unborn (ph th') || waking (ph th')) = true.
Proof.
  intros H. destruct th as [p c f ch sg h].
  destruct m, p; try done; unfold moves in H; cbn in H; simplify_eq; rs; cbn; auto;
    intros Hf _; rewrite Hf by done; by right.
Qed.
Lemma moves_wakes m th th' : moves m th = Some (th', true) → ph th' ≠ Asleep.
Proof.
  intros H. destruct th as [p c f ch sg h]. destruct m, p; try done; unfold moves in H; cbn in H; by simplify_eq.
Qed.

(** The futex that the caller sleeps on. *)
Lemma asleep_at r rs w t : inv r rs w → sleeps w = Some (At_futex t) →
  ∃ th, threads w !! t = Some th ∧ (unborn (ph th) = true → setxid_futex th = -2) ∧
    (unborn (ph th) || waking (ph th)) = true.
Proof.
  intros Hi Hs. pose proof (iv_stage _ _ _ Hi) as Hst. destruct r as [|us ur st|b]; cbn in Hst.
  - destruct Hst. congruence.
  - destruct Hst as (_ & Hu & Hus & _ & Hsl & Hf). unfold sleep_ok in Hsl. rewrite Hs in Hsl.
    destruct Hsl as ([M ->] & th & Hth & Hp). destruct Hf as [[Hin Hne] HM].
    destruct (inv_role _ _ _ _ _ Hi Hth) as [ro Hro].
    destruct (iv_threads _ _ _ Hi _ _ _ Hne Hth Hro) as (_ & _ & Hfit). cbn in Hfit.
    unfold mark_one in Hfit. rewrite decide_True in Hfit by done. destruct Hfit as [_ Hfit]. by exists th.
  - destruct Hst as (_ & ? & _). congruence.
Qed.

Lemma move_ok r rs w w' t m : inv r rs w → step (Move t m) w = Some w' → ∃ rs', inv r rs' w'.
Proof.
  intros Hi H. unfold step, at_other in H. rewrite (iv_aborted _ _ _ Hi) in H.
  case_bool_decide as Hne; [done|]. destruct (threads w !! t) as [th|] eqn:Hth; [|done]. cbn in H.
  destruct (in_handler th) eqn:Hh; [done|]. destruct (moves m th) as [[th' b]|] eqn:Hm; [|done]. cbn in H. simplify_eq.
  destruct (inv_role _ _ _ _ _ Hi Hth) as [ro Hro].
  destruct (iv_threads _ _ _ Hi _ _ _ Hne Hth Hro) as (Hwf & _). pose proof (moves_goes_on _ _ _ _ Hwf Hm) as Hg.
  assert (Hbase : (sleeps w = Some (At_futex t) → (unborn (ph th') || waking (ph th')) = true) →
    inv r (<[t:=ro]> rs) (set_thread t th' w)).
  { intros Hs. eapply inv_thread; try done; [by apply (moves_ok m _ _ _ _ b)|apply Hg]. }
  assert (Hwoken : b = true → ∃ rs', inv r rs' (wake_at t th' (set_thread t th' w))).
  { intros ->. unfold wake_at. rewrite decide_False by (by eapply moves_wakes). case_decide as Hs; [|eauto].
    exists (<[t:=ro]> rs). change (inv r (<[t:=ro]> rs) (set_thread t th' (w <| sleeps := None |>))).
    eapply inv_thread; [by apply inv_unsleep|try done..]; [by apply (moves_ok m _ _ _ _ true)|apply Hg]. }
  destruct b; [by apply Hwoken|]. exists (<[t:=ro]> rs). apply Hbase. intros Hs.
  destruct (asleep_at _ _ _ _ Hi Hs) as (th1 & Hth1 & Hf & Hu). simplify_eq.
  by destruct (moves_awake _ _ _ _ Hm Hf Hu).
Qed.

Lemma touch_ok r rs w w' t ch : inv r rs w → step (Touch t ch) w = Some w' → ∃ rs', inv r rs' w'.
Proof.
  intros Hi H. unfold Setxid.step in H. rewrite (iv_aborted _ _ _ Hi) in H.
  destruct (threads w !! t) as [th|] eqn:Hth; [|done]. cbn in H. case_bool_decide as Hb; [|done]. simplify_eq.
  destruct Hb as (Hne & Hx & Hf). destruct (inv_role _ _ _ _ _ Hi Hth) as [ro Hro]. exists (<[t:=ro]> rs).
  set (th' := th <| cancelhandling := ch |>). assert (Ef : flagged th' = flagged th) by exact Hf.
  eapply inv_thread; try done.
  - intros (Hw & Hr & Hfit). split_and!.
    + destruct Hw as [H1 H2]. split; [|done]. unfold th'. rs. by rewrite Hx.
    + destruct ro; cbn in *; unfold uncalled in *; rewrite ?Ef; try done.
      destruct Hr. split; [done..| | | |]; [by rewrite Ef|done..].
    + apply (fits_goes_on _ _ th th'); [|by split|by left|exact Hfit].
      intros ->. by destruct Hr as ((Hb & _) & _).
  - split; [|done]. intros Hs. destruct (asleep_at _ _ _ _ Hi Hs) as (th1 & Hth1 & _ & Hu). simplify_eq. exact Hu.
Qed.

(** With the role of a handler. *)
Lemma fits_active r t th th' ro ro' :
  ro = Called ∨ (∃ h, ro = Handling h) → ro' = Replied ∨ (∃ h, ro' = Handling h) → pend ro' ≤ pend ro →
  fits r t th ro → fits r t th' ro'.
Proof.
  intros Hro Hro' Hp. pose proof (pend_nonneg ro') as Hnn.
  assert (Hover : over th ro → over th' ro').
  { destruct Hro as [->|[h ->]], Hro' as [->|[h' ->]]; cbn [over] in *; try done; intros E; cbn in *; lia. }
  assert (N1 : ro ≠ Idle ∧ ro ≠ Marked) by (destruct Hro as [->|[h ->]]; done).
  assert (N2 : ro' ≠ Idle ∧ ro' ≠ Marked) by (destruct Hro' as [->|[h ->]]; done).
  assert (Hmark : ∀ M, mark_fits M t th ro → mark_fits M t th' ro').
  { intros M [H1 H2]. destruct (decide (t ∈ M)) as [HM|HM]; [destruct (H1 HM) as [|[]]|destruct (H2 HM)]; tauto. }
  assert (Hround : ∀ us ur V n, round_fits us ur V n t th ro → round_fits us ur V n t th' ro').
  { intros us ur V n [H1 H2 H3 H4]. split; [by intros _ ?; tauto|intros H; by apply H2 in H; tauto|intros; apply H3; lia|auto]. }
  assert (Hone : ∀ t0 (P P' : Prop) M, mark_one t0 P M t th ro → mark_one t0 P' M t th' ro').
  { intros t0 P P' M. unfold mark_one. destruct (decide (t = t0)); [intros []; tauto|auto]. }
  destruct r as [|us ur st|b]; cbn; [intros []; tauto| |].
  - destruct st; cbn; auto; try tauto; try apply Hone.
    + intros [H1 H2]. split; [auto|intros E; specialize (H2 E); tauto].
    + destruct (decide (t = t0)); [tauto|auto].
    + destruct (decide (t = t0)); [tauto|]. intros []; split; [auto|tauto].
    + destruct (decide (t = t0)); [tauto|]. intros []; split; [auto|tauto].
  - tauto.
Qed.

Lemma deliver_ok r rs w w' t : inv r rs w → step (Deliver t) w = Some w' → ∃ rs', inv r rs' w'.
Proof.
  intros Hi H. unfold Setxid.step, at_other in H. rewrite (iv_aborted _ _ _ Hi) in H. case_bool_decide as Hne; [done|].
  destruct (threads w !! t) as [th|] eqn:Hth; [|done]. cbn in H. destruct (in_handler th) eqn:Hh; [done|].
  destruct (signalled th && lives (ph th)) eqn:Hs; [|done]. simplify_eq. apply andb_true_iff in Hs as [Hs Hl].
  destruct (inv_role _ _ _ _ _ Hi Hth) as [ro Hro].
  destruct (iv_threads _ _ _ Hi _ _ _ Hne Hth Hro) as (_ & Hr & _).
  assert (ro = Called) as ->.
  { destruct ro; cbn in Hr; [..|done| |].
    1,2,4: by destruct Hr as ((_ & E & _) & _); congruence.
    destruct Hr as [_ (p & Hp & _) _ _ _ _ _]. congruence. }
  exists (<[t:=Handling Asked]> rs). eapply inv_thread; try done.
  - intros (Hw & (Hfl & _ & _ & Hup & Hc) & Hfit). split_and!.
    + destruct Hw as [H1 H2]. split; unfold deliver; rs; case_decide as Ha; try done; by rewrite Ha in *.
    + split; unfold deliver; rs; try done.
      * exists (handler t). split; [done|apply handler_ok].
      * case_decide as Ha; [done|auto].
    + eapply fits_active; [by left|right; eauto|done|exact Hfit].
  - destruct Hr as (_ & _ & _ & Hup & _). by destruct (ph th).
  - split; [|done]. intros Hsl. destruct (asleep_at _ _ _ _ Hi Hsl) as (th1 & Hth1 & _ & Hu). simplify_eq.
    unfold deliver. rs. case_decide as Ha; [by rewrite Ha in Hu|exact Hu].
Qed.

Lemma inv_outside r rs w : inv r rs w → locked w = false → r = Before ∨ ∃ b, r = After b.
Proof.
  intros Hi Hl. pose proof (iv_stage _ _ _ Hi) as Hs. destruct r as [|us ur st|b]; [by left| |right; by exists b].
  cbn in Hs. destruct Hs. congruence.
Qed.

Lemma create_ok r rs w w' b : inv r rs w → step (Create b) w = Some w' → ∃ rs', inv r rs' w'.
Proof.
  intros Hi H. unfold Setxid.step in H. rewrite (iv_aborted _ _ _ Hi) in H. destruct (locked w) eqn:Hl; [done|].
  exists (rs ++ [Idle]). pose proof (inv_outside _ _ _ Hi Hl) as Hr.
  assert (Hfresh : length (threads w) ∉ used w ++ user w).
  { intros Hin. apply (iv_range _ _ _ Hi) in Hin. lia. }
  destruct Hi as [Hlen (ths & Hself & Hsf) Hsr Hths Hlst Hnd Hrg Hab Hst].
  assert (Hn : thread_ok r (length (threads w)) new_thread Idle).
  { split_and!; [split; [|by left]| |].
    - unfold new_thread. cbn. unfold has. by rewrite Z.land_0_l.
    - split; [split; [|done]|by repeat split]. unfold flagged, new_thread, has. cbn. by rewrite Z.land_0_l.
    - destruct Hr as [->|[b' ->]]; cbn; [done|]. split; [done|by right]. }
  assert (Hlk : ∀ t th, (threads w ++ [new_thread]) !! t = Some th →
    threads w !! t = Some th ∨ t = length (threads w) ∧ th = new_thread).
  { intros t th [|[Hge Hx]]%lookup_app_Some; [by left|]. right. apply list_lookup_singleton_Some in Hx. split; [lia|by destruct Hx]. }
  assert (Hin : ∀ t, t ∈ used w' ++ user w' ↔ t = length (threads w) ∨ t ∈ used w ++ user w).
  { intros t. destruct b; simplify_eq; rs; set_solver. }
  assert (Ht : threads w' = threads w ++ [new_thread]) by (destruct b; by simplify_eq).
  split; rewrite ?Ht.
  - rewrite !length_app. cbn. lia.
  - exists ths. split; [by apply lookup_app_l_Some|done].
  - by apply lookup_app_l_Some.
  - intros t th ro Hne H1 H2. destruct (Hlk _ _ H1) as [H1'|[-> ->]].
    + rewrite lookup_app_l in H2 by (rewrite Hlen; by eapply lookup_lt_Some). eauto.
    + rewrite lookup_app_r in H2 by lia. rewrite Hlen, Nat.sub_diag in H2. cbn in H2. by simplify_eq.
  - intros t th Hne H1. rewrite Hin. destruct (Hlk _ _ H1) as [H1'|[-> ->]]; [|auto].
    destruct (Hlst _ _ Hne H1'); auto.
  - destruct b; simplify_eq; rs.
    + rewrite <- Permutation_middle. by apply NoDup_cons.
    + by apply NoDup_cons.
  - intros t [->|Ht']%Hin; rewrite length_app; cbn; [lia|]. specialize (Hrg _ Ht'). lia.
  - by destruct b; simplify_eq.
  - destruct Hr as [->|[b' ->]]; destruct b; simplify_eq; exact Hst.
Qed.

Lemma release_ok r rs w w' t : inv r rs w → step (Release t) w = Some w' → ∃ rs', inv r rs' w'.
Proof.
  intros Hi H. unfold Setxid.step, at_other in H. rewrite (iv_aborted _ _ _ Hi) in H. case_bool_decide as Hne; [done|].
  destruct (threads w !! t) as [th|] eqn:Hth; [|done]. cbn in H. destruct (in_handler th) eqn:Hh; [done|].
  destruct (negb (locked w) && bool_decide (ph th = Dead ∨ ph th = Stillborn)) eqn:Hc; [|done]. simplify_eq.
  apply andb_true_iff in Hc as [Hl%negb_true_iff Hp%bool_decide_eq_true].
  pose proof (inv_outside _ _ _ Hi Hl) as Hr. destruct Hi as [Hlen Hself Hsr Hths Hlst Hnd Hrg Hab Hst].
  exists rs. split; try done.
  - intros u thu Hu H1. rs in H1. rs. rewrite <- filter_app. destruct (decide (u = t)) as [->|Hut].
    + right. simplify_eq. by destruct Hp as [->| ->].
    + destruct (Hlst u thu Hu H1) as [Hin|]; [left|by right]. by apply list_elem_of_filter.
  - rs. rewrite <- filter_app. by apply NoDup_filter.
  - intros u. rs. rewrite <- filter_app. intros [_ Hin]%list_elem_of_filter. by apply Hrg.
  - destruct Hr as [->|[b' ->]]; exact Hst.
Qed.

(** While threads are being marked there are old ids only; later no thread is to be cloned. *)
Definition early (st : stage) : bool :=
  match st with
  | Locked | Marking _ | Mark_wait _ _ | Mark_start _ _ | Mark_loop _ _ | Mark_free _ _ | Mark_wake _ _ => true
  | _ => false
  end.
Lemma early_roles us ur st t th ro : early st = true → stage_fits us ur st t th ro → ro = Idle ∨ ro = Marked.
Proof.
  assert (Hm : ∀ M, mark_fits M t th ro → ro = Idle ∨ ro = Marked).
  { intros M [H1 H2]. destruct (decide (t ∈ M)) as [HM|HM]; [destruct (H1 HM) as [|[]]|destruct (H2 HM)]; auto. }
  destruct st; cbn; try done; unfold mark_one; try (case_decide; [by intros _ [-> _]; left|]); eauto.
  intros _ [-> _]. by left.
Qed.
Lemma late_idle us ur st t th : early st = false → stage_fits us ur st t th Idle →
  exiting (ph th) = true ∨ still (ph th) = true ∨ t ∉ us ++ ur.
Proof.
  assert (Hr : ∀ V n, round_fits us ur V n t th Idle → exiting (ph th) = true ∨ still (ph th) = true ∨ t ∉ us ++ ur).
  { intros V n [H1 _ _ _]. destruct (decide (t ∈ us ++ ur)) as [Hin|]; [left; by apply H1|auto]. }
  assert (Ho : over th Idle → exiting (ph th) = true ∨ still (ph th) = true ∨ t ∉ us ++ ur) by (cbn; tauto).
  destruct st; cbn [early stage_fits]; try done; intros _;
    first [by apply Hr | by intros [H _]; apply Ho | by intros [H _]; eapply Hr | case_decide; [by intros [_ ?]|apply Hr]
      | case_decide; [intros [_ ?]; auto|intros [Hx _]; exact (Ho Hx)]].
Qed.

(** A thread that is cloned gets the ids of its creator. *)
Lemma clone_ok r rs w w' p t : inv r rs w → step (Clone p t) w = Some w' → ∃ rs', inv r rs' w'.
Proof.
  intros Hi H. unfold Setxid.step, at_other in H. rewrite (iv_aborted _ _ _ Hi) in H. case_bool_decide as Hnp; [done|].
  destruct (threads w !! p) as [thp|] eqn:Hthp; [|done]. cbn in H. destruct (in_handler thp) eqn:Hhp; [done|].
  case_bool_decide as Hne; [done|]. destruct (threads w !! t) as [th|] eqn:Hth; [|done]. cbn in H.
  destruct (in_handler th) eqn:Hh; [done|]. case_decide as Hph; [|done]. simplify_eq. destruct Hph as [Hpr Hpe].
  destruct (inv_role _ _ _ _ _ Hi Hth) as [ro Hro]. destruct (inv_role _ _ _ _ _ Hi Hthp) as [rop Hrop].
  destruct (iv_threads _ _ _ Hi _ _ _ Hne Hth Hro) as (Hw & Hr & Hf).
  destruct (iv_threads _ _ _ Hi _ _ _ Hnp Hthp Hrop) as (_ & Hrp & Hfp).
  assert (ro = Idle) as ->.
  { destruct ro; cbn in Hr; [done|..]; rewrite ?Hpe in Hr; [by destruct Hr as (_ & [[]|])|by destruct Hr as (_ & _ & _ & ? & _)|
      by destruct Hr as [_ _ [Hu _] _ _ _ _]; rewrite Hpe in Hu|by destruct Hr as (_ & _ & _ & ?)]. }
  set (th' := th <| ph := Cloned |> <| creds := creds thp |>).
  assert (Hw' : wf th').
  { destruct Hw as [H1 H2]. rewrite Hpe in *. split; unfold th'; rs; [by rewrite H1|exact H2]. }
  destruct Hr as (Hun & _ & _).
  assert (Hun' : uncalled th' false) by exact Hun.
  assert (Hg : (∀ b, r ≠ After b) → fits r t th' Idle).
  { intros Hnb. apply (fits_goes_on _ _ th th'); [by intros _; destruct Hun|split|by intros b E; destruct (Hnb b)|exact Hf];
      unfold th'; rs; rewrite ?Hpe; done. }
  assert (Hgo : ∀ ro', creds thp = match ro' with Idle => c0 | _ => c1 end → ro' = Idle ∨ ro' = Replied → fits r t th' ro' →
    ∃ rs', inv r rs' (set_thread t th' w)).
  { intros ro' Hc Hro' Hfit. exists (<[t:=ro']> rs). eapply inv_thread; try done.
    - intros _. split_and!; [done| |done]. destruct Hro' as [-> | ->]; split_and!; done.
    - by destruct Hro' as [-> | ->].
    - unfold th'. rs. by rewrite Hpe. }
  destruct r as [|us ur st|b].
  - apply (Hgo Idle); [|by left|by apply Hg]. destruct Hfp as [-> _]. destruct Hrp as (_ & Hc & _). apply Hc. by rewrite Hpr.
  - destruct (early st) eqn:He.
    + apply (Hgo Idle); [|by left|by apply Hg]. destruct (early_roles _ _ _ _ _ _ He Hfp) as [-> | ->].
      * destruct Hrp as (_ & Hc & _). apply Hc. by rewrite Hpr.
      * destruct Hrp as (_ & [[]|Hs]); [done|by rewrite Hpr in Hs].
    + exfalso. pose proof (iv_stage _ _ _ Hi) as (_ & Hu & Hus & _). pose proof (iv_listed _ _ _ Hi _ _ Hne Hth) as Hl.
      rewrite Hu, Hus in Hl. destruct (late_idle _ _ _ _ _ He Hf) as [Hx|[Hx|Hx]]; rewrite Hpe in *; try done.
      by destruct Hl.
  - apply (Hgo Replied); [|by right|by split; [|left]]. destruct Hfp as [Hm Ho]. destruct rop; cbn in Hrp, Ho.
    + rewrite Hpr in Ho. cbn in Ho. naive_solver.
    + done.
    + by destruct Ho as [|[]].
    + destruct Hrp as [_ (q & Hq & _) _ _ _ _ _]. congruence.
    + destruct Hrp as (_ & Hc & _). apply Hc. by rewrite Hpr.
Qed.

(** ** A handler *)

Lemma pending_stage r t th ro : fits r t th ro → 0 < pend ro → ∃ us ur st, r = In us ur st ∧ st ≠ Locked.
Proof.
  intros Hf Hp. destruct r as [|us ur st|b]; cbn in Hf.
  - destruct Hf as [-> _]. done.
  - exists us, ur, st. split; [done|]. intros ->. destruct Hf as [-> _]. done.
  - destruct Hf as [Hm [Ho|[-> _]]]; [|done]. destruct ro; cbn in *; lia.
Qed.
Lemma error_known r rs w us ur st : inv r rs w → r = In us ur st → st ≠ Locked → error w = -1 ∨ error w = e0.
Proof. intros Hi -> Hst. pose proof (iv_stage _ _ _ Hi) as (_ & _ & _ & Hn & _). by apply Hn. Qed.

Lemma up_born p : up p = true → gone p = false ∧ unborn p = false ∧ p ≠ Embryo.
Proof. by destruct p. Qed.

(** One operation of the handler in [t]; the thread is [th'] after it. *)
Record hstep (t : nat) (h : hrole) (th' : thread) (h' : hrole) (w w' : world) : Prop := {
  hs_threads : threads w' = <[t := th']> (threads w);
  hs_rest : used w' = used w ∧ user w' = user w ∧ aborted w' = aborted w ∧ locked w' = locked w ∧ errno w' = errno w;
  hs_pend : pend (Handling h') ≤ pend (Handling h);
  hs_cntr : cntr w' = cntr w - pend (Handling h) + pend (Handling h');
  hs_error : error w' = error w ∨ 0 < pend (Handling h) ∧ error w' = e0;
  hs_sleeps : sleeps w' = None ∨ sleeps w' = sleeps w ∧
    (sleeps w = Some At_cntr → h' = Must_wake ∨ h ≠ Must_wake ∧ (cntr w' = cntr w ∨ cntr w' ≠ 0));
}.

Lemma inv_hstep r rs w w' t th h th' h' :
  inv r rs w → threads w !! t = Some th → t ≠ self → rs !! t = Some (Handling h) →
  hstep t h th' h' w w' → wf th' → handling t th' h' → inv r (<[t := Handling h']> rs) w'.
Proof.
  intros Hi Hth Hne Hro [Ht (Hu & Hus & Ha & Hl & Her) Hp Hc He Hsl] Hw Hh.
  destruct (iv_threads _ _ _ Hi _ _ _ Hne Hth Hro) as (_ & Hr & Hf). cbn in Hr.
  destruct (up_born _ (proj1 (hd_phase _ _ _ Hr))) as (Hg & _).
  eapply (inv_one r r rs w); try done.
  - pose proof (iv_stage _ _ _ Hi) as Hs. destruct r as [|us ur st|b].
    + destruct Hf as [? _]. done.
    + destruct Hs as (S1 & S2 & S3 & S4 & S5 & S6). split_and!; [congruence..| | |].
      * intros Hst. destruct (S4 Hst) as [E1 E2]. split; [destruct He as [->|[_ ->]]; tauto|].
        rewrite (sumZ_insert pend _ _ _ _ Hro). lia.
      * unfold sleep_ok in *. destruct Hsl as [->|[-> Hsl]]; [done|]. destruct (sleeps w) as [[u|]|]; [| |done].
        -- destruct S5 as (HM & thu & Hthu & Hpu). split; [done|]. rewrite Ht. destruct (decide (u = t)) as [->|Hne'].
           ++ simplify_eq. exfalso. destruct (hd_phase _ _ _ Hr) as [Hup _]. destruct HM as [M ->]. cbn in Hf.
              unfold mark_one in Hf. rewrite decide_True in Hf by done. by destruct Hf.
           ++ exists thu. by rewrite list_lookup_insert_ne.
        -- destruct S5 as [HV Hn]. split; [done|].
           assert (Hlt := lookup_lt_Some _ _ _ Hro).
           destruct (Hsl eq_refl) as [->|[Hnm Hcn]]; [right; exists t; by apply list_lookup_insert_eq|].
           destruct Hn as [Hn|[u Hn]]; [left; destruct Hcn; congruence|].
           right. exists u. rewrite list_lookup_insert_ne; [done|]. intros ->. congruence.
      * unfold stage_facts in *. by rewrite Her.
    + destruct Hs as (S1 & S2 & S3). split_and!; [congruence| |by rewrite Her].
      destruct Hsl as [|[E _]]; congruence.
  - split_and!; [done|exact Hh|]. eapply fits_active; [right; eauto|right; eauto|done|exact Hf].
  - by rewrite Hg.
Qed.

Lemma handling_prog t th h p : handling t th h → in_handler th = Some p → hsafe t p h.
Proof. intros [_ (q & Hq & Hs) _ _ _ _ _] Hp. by simplify_eq. Qed.

(** The handler's thread changes, and nothing else. *)
Lemma hstep_thread t h h' th1 p w w1 :
  w1 = w ∨ w1 = set_thread t th1 w → pend (Handling h') = pend (Handling h) → (h = Must_wake → h' = Must_wake) →
  hstep t h (th1 <| in_handler := Some p |>) h' w (set_thread t (th1 <| in_handler := Some p |>) w1).
Proof.
  intros Hw Hp Hm. assert (Hd : h' = Must_wake ∨ h' ≠ Must_wake) by (destruct h'; auto).
  destruct Hw as [-> | ->]; split; unfold set_thread; rs; rewrite ?list_insert_insert_eq; try done;
    [lia|lia|by left| |lia|lia|by left|]; right; (split; [done|]); intros _; destruct Hd; [by left| |by left|];
    right; (split; [tauto|by left]).
Qed.

Section Operation.
Context (r : crole) (rs : list trole) (w : world) (t : nat) (th : thread) (h : hrole).
Context (Hi : inv r rs w) (Hth : threads w !! t = Some th) (Hne : t ≠ self) (Hro : rs !! t = Some (Handling h)).

Definition hgo {B} (w1 : world) (b : B) (K : B → hrole → Prop) : Prop :=
  ∃ th1 h', threads w1 !! t = Some th1 ∧ K b h' ∧
    ∀ p, hsafe t p h' → ∃ rs', inv r rs' (set_thread t (th1 <| in_handler := Some p |>) w1).
Lemma handler_wf : wf th.
Proof using Hi Hth Hne Hro. by eapply iv_threads. Qed.
Lemma handler_role : handling t th h.
Proof using Hi Hth Hne Hro. by destruct (iv_threads _ _ _ Hi _ _ _ Hne Hth Hro) as (_ & Hr & _). Qed.

(** Nothing but the program changes; its thread changes; something else does. *)
Lemma hgo_same {B} (b : B) (K : B → hrole → Prop) w1 h' :
  K b h' → w1 = w → pend (Handling h') = pend (Handling h) → (h = Must_wake → h' = Must_wake) →
  (∀ p, hsafe t p h' → handling t (th <| in_handler := Some p |>) h') → hgo w1 b K.
Proof using Hi Hth Hne Hro.
  intros Hk -> Hp Hm Hh. exists th, h'. split_and!; [done..|]. intros p Hs. exists (<[t:=Handling h']> rs).
  pose proof handler_wf as [].
  apply (inv_hstep r rs w _ t th h (th <| in_handler := Some p |>) h'); try done; [apply hstep_thread; auto|by apply Hh].
Qed.
Lemma hgo_thread {B} (b : B) (K : B → hrole → Prop) w1 th1 h' :
  K b h' → w1 = set_thread t th1 w → pend (Handling h') = pend (Handling h) → h ≠ Must_wake → wf th1 →
  (∀ p, hsafe t p h' → handling t (th1 <| in_handler := Some p |>) h') → hgo w1 b K.
Proof using Hi Hth Hne Hro.
  intros Hk -> Hp Hm Hw1 Hh. exists th1, h'. pose proof (lookup_lt_Some _ _ _ Hth). split_and!; [|done|].
  - unfold set_thread. rs. by apply list_lookup_insert_eq.
  - intros p Hs. exists (<[t:=Handling h']> rs).
    apply (inv_hstep r rs w _ t th h (th1 <| in_handler := Some p |>) h'); try done;
      [apply hstep_thread; auto; done|by destruct Hw1|by apply Hh].
Qed.
Lemma hgo_other {B} (b : B) (K : B → hrole → Prop) w1 h' :
  K b h' → threads w1 = threads w →
  (∀ p, hstep t h (th <| in_handler := Some p |>) h' w (set_thread t (th <| in_handler := Some p |>) w1)) →
  (∀ p, hsafe t p h' → handling t (th <| in_handler := Some p |>) h') → hgo w1 b K.
Proof using Hi Hth Hne Hro.
  intros Hk Ht Hst Hh. exists th, h'. rewrite Ht. split_and!; [done..|]. intros p Hs.
  exists (<[t:=Handling h']> rs). pose proof handler_wf as [].
  apply (inv_hstep r rs w _ t th h (th <| in_handler := Some p |>) h'); try done. by apply Hh.
Qed.

Lemma handler_error : 0 < pend (Handling h) → error w = -1 ∨ error w = e0.
Proof using Hi Hth Hne Hro.
  intros Hp. destruct (iv_threads _ _ _ Hi _ _ _ Hne Hth Hro) as (_ & _ & Hf).
  destruct (pending_stage _ _ _ _ Hf Hp) as (us & ur & st & E & Hst). by eapply error_known.
Qed.

End Operation.

Ltac same_prog := intros p Hp; split; try done; by exists p.
Ltac count := unfold set_thread; rs; cbn [pend]; lia.
Lemma hexec_ok {B} r rs w w1 t th h (o : op B) b (K : B → hrole → Prop) :
  inv r rs w → threads w !! t = Some th → t ≠ self → rs !! t = Some (Handling h) →
  hrule t o h K → exec o t Fine w = Some (b, w1) → hgo r t w1 b K.
Proof.
  intros Hi Hth Hne Hro HK He. pose proof (handler_wf _ _ _ _ _ _ Hi Hth Hne Hro) as Hw.
  pose proof (handler_error _ _ _ _ _ _ Hi Hth Hne Hro) as Hpend. pose proof (handler_role _ _ _ _ _ _ Hi Hth Hne Hro) as Hr.
  pose proof (hgo_same _ _ _ _ _ _ Hi Hth Hne Hro b K w1) as Hsame.
  pose proof (hgo_thread _ _ _ _ _ _ Hi Hth Hne Hro b K w1) as Hthread.
  pose proof (hgo_other _ _ _ _ _ _ Hi Hth Hne Hro b K w1) as Hother.
  destruct Hr as [H1 H2 H3 H4 H5 H6 H7].
  destruct o; cbn in HK; try done; cbn in He; unfold at_thread in He.
  - destruct HK as (-> & -> & -> & HK). rewrite Hth in He. cbn in He. simplify_eq.
    apply (Hthread (th <| setxid_futex := 1 |>) Stored); try done.
    + destruct Hw as [W1 W2]. split; [done|]. rs. destruct (up_born _ (proj1 H3)) as (_ & -> & _). by right.
    + same_prog.
  - destruct HK as (-> & -> & HK). rewrite Hth in He. cbn in He. unfold wake_at in He.
    rewrite decide_False in He by apply H3. case_decide as Hs; simplify_eq.
    + apply (Hother Released); try done; [|same_prog].
      intros p. split; try done; [count|by left|by left].
    + apply (Hsame Released); try done. same_prog.
  - destruct HK as (-> & HK). rewrite Hth in He. cbn in He. simplify_eq.
    apply (Hsame h); try done. same_prog.
  - destruct HK as (-> & -> & -> & K1 & K2). rewrite Hth in He. cbn in He.
    destruct (Z.eqb_spec (cancelhandling th) old); simplify_eq.
    + destruct (has_not_setxid (cancelhandling th)) as [N1 N2].
      apply (Hthread (th <| cancelhandling := Z.ldiff (cancelhandling th) SETXID_BITMASK |>) Cleared); try done.
      * destruct Hw as [W1 W2]. split; rs; [by rewrite N2|done].
      * same_prog.
    + apply (Hsame Agreed); try done. same_prog.
  - destruct HK as (-> & K1 & K2). simplify_eq. destruct (Z.eqb_spec (cntr w - 1) 0) as [E|E].
    + apply (Hother Must_wake); [by rewrite E|done..| |same_prog].
      intros p. split; try done; [count|by left|]. right. split; [done|by left].
    + apply (Hother Finished); [by apply K2|done..| |same_prog].
      intros p. split; try done; [count|by left|]. right. split; [done|]. intros _. right. split; [done|by right].
  - destruct HK as (-> & HK). simplify_eq.
    apply (Hother Finished); [done| | |same_prog].
    + by case_decide.
    + intros p. split; try done; case_decide as Hs; try done; try (count); try (by left).
      right. split; [done|]. intros Hs'. exfalso. by apply Hs.
  - destruct h as [|e| | | | | |]; try done. destruct HK as [K1 K2]. simplify_eq.
    specialize (H6 e eq_refl) as ->. destruct (Hpend eq_refl) as [E|E]; rewrite E in *.
    + apply (Hsame (Answered e0)); try done. intros p Hp. split; try done; [by exists p|by intros e [= ->]].
    + apply (Hsame Agreed); try done. same_prog.
  - destruct h as [|e| | | | | |]; try done. destruct HK as (-> & -> & K1 & K2).
    specialize (H6 e eq_refl) as ->. destruct (Z.eqb_spec (error w) (-1)); simplify_eq.
    + apply (Hother Agreed); try done; [|same_prog].
      intros p. split; try done; [count|by right|]. right. split; [done|]. intros _. right. split; [done|by left].
    + apply (Hsame (Answered e0)); try done. intros p Hp. split; try done; [by exists p|by intros e [= ->]].
  - destruct HK as (-> & HK). rewrite Hth in He. cbn in He. rewrite H5 in He.
    rewrite (surjective_pairing (setid c0)) in He. simplify_eq.
    apply (Hthread (th <| creds := c1 |>) (Answered e0)); try done; [by destruct Hw|].
    intros p Hp. split; try done; [by exists p|by intros e [= ->]].
Qed.

Lemma handler_step_ok r rs w w' t : inv r rs w → step (Handler t) w = Some w' → ∃ rs', inv r rs' w'.
Proof.
  intros Hi H. unfold Setxid.step in H. rewrite (iv_aborted _ _ _ Hi) in H.
  destruct (threads w !! t) as [th|] eqn:Hth; [|done]. cbn in H. destruct (in_handler th) as [p|] eqn:Hp; [|done]. cbn in H.
  assert (Hne : t ≠ self).
  { intros ->. destruct (iv_self _ _ _ Hi) as (ths & E & _ & _ & E' & _). congruence. }
  destruct (inv_role _ _ _ _ _ Hi Hth) as [ro Hro].
  destruct (iv_threads _ _ _ Hi _ _ _ Hne Hth Hro) as (Hw & Hr & Hf).
  assert (∃ h, ro = Handling h) as [h ->].
  { destruct ro as [| | |h|]; cbn in Hr; [..|by exists h|]; exfalso.
    1,2,4: by destruct Hr as ((_ & _ & E) & _); congruence.
    destruct Hr as (_ & _ & E & _). congruence. }
  cbn in Hr. pose proof (handling_prog _ _ _ _ Hr Hp) as Hs. destruct p as [a|B o k|C body k].
  - cbn in Hs. subst h. simplify_eq. exists (<[t:=Replied]> rs). destruct Hr as [H1 _ H3 H4 H5 _ H7].
    destruct (up_born _ (proj1 H3)) as (Hg & _ & Hb).
    eapply inv_thread; try done.
    + intros _. split_and!; [by destruct Hw| |
        apply (fits_active r t th _ (Handling Finished) Replied); [right; eauto|by left|done|exact Hf]].
      split_and!; try done. split; [apply H3|done].
    + split; [|done]. intros Hsl. destruct (asleep_at _ _ _ _ Hi Hsl) as (th1 & Hth1 & _ & Hu). simplify_eq. exact Hu.
  - destruct (Setxid.exec self setid false o t Fine w) as [[b w1]|] eqn:He; cbn in H; rewrite He in H; [|done]. cbn in H.
    destruct (hexec_ok _ _ _ _ _ _ _ _ _ _ Hi Hth Hne Hro Hs He) as (th1 & h' & Hth1 & HK & Hgo).
    rewrite Hth1 in H. cbn in H. simplify_eq. by apply Hgo.
  - cbn in H. rewrite Hth in H. cbn in H. simplify_eq. exists (<[t:=Handling h]> rs).
    apply (inv_hstep r rs w _ t th h (th <| in_handler := Some (unroll body k) |>) h); try done.
    + apply hstep_thread; auto.
    + by destruct Hw.
    + destruct Hr. split; try done. exists (unroll body k). split; [done|].
      apply safe_unroll; [apply hrule_mono|exact Hs].
Qed.

Lemma spurious_ok r rs w w' : inv r rs w → step Caller_spurious w = Some w' → ∃ rs', inv r rs' w'.
Proof.
  intros Hi H. unfold Setxid.step in H. rewrite (iv_aborted _ _ _ Hi) in H. destruct (sleeps w); [|done].
  simplify_eq. exists rs. by apply inv_unsleep.
Qed.

(** ** The caller *)

(** Some thread keeps a role in each stage: what holds of all threads. *)
Lemma inv_pend_zero r rs w : inv r rs w →
  (∀ t th ro, t ≠ self → threads w !! t = Some th → rs !! t = Some ro → thread_ok r t th ro → pend ro = 0) →
  sumZ pend rs = 0.
Proof.
  intros Hi H. apply sumZ_zero; [apply pend_nonneg|]. intros t ro Hro.
  destruct (decide (t = self)) as [->|Hne].
  - rewrite (iv_self_role _ _ _ Hi) in Hro. by simplify_eq.
  - destruct (lookup_lt_is_Some_2 (threads w) t) as [th Hth].
    { rewrite <- (iv_len _ _ _ Hi). by eapply lookup_lt_Some. }
    apply (H t th ro); [done..|]. by eapply iv_threads.
Qed.

(** The caller is at another stage, with the threads as they are. *)
Lemma inv_goto us ur st st' rs w :
  inv (In us ur st) rs w → sleeps w = None → st ≠ Locked → uncounted st' = uncounted st →
  self_creds (In us ur st') = self_creds (In us ur st) → stage_facts us ur st' w →
  (∀ t th ro, t ≠ self → (t ∈ us ++ ur ∨ gone (ph th) = true) → pend ro ≤ sumZ pend rs →
     thread_ok (In us ur st) t th ro → thread_ok (In us ur st') t th ro) →
  inv (In us ur st') rs w.
Proof.
  intros Hi Hs Hst Hun Hc Hf Hth. pose proof (iv_stage _ _ _ Hi) as (S1 & S2 & S3 & S4 & _ & _).
  eapply (inv_same (In us ur st)); try done.
  - split_and!; try done.
    + intros _. rewrite Hun. by apply S4.
    + unfold sleep_ok. by rewrite Hs.
  - intros t th ro Hne H1 H2. apply Hth; [done| |].
    + rewrite <- S2, <- S3. by eapply iv_listed.
    + eapply sumZ_member; [apply pend_nonneg|done].
Qed.

Lemma implies_ok r r' rs w : inv r rs w → (sleeps w = None) → implies self r r' → inv r' rs w.
Proof.
  intros Hi Hs Him. destruct Him as [r|us ur M HM HM'|us ur U HU]; [done|..].
  - eapply inv_goto; try done. intros t th ro Hne Hl Hp (Hw & Hr & H1 & H2). split_and!; [done|done|]. split.
    + intros Hin E. destruct (H1 (HM t (conj Hin Hne))) as [->|[_ ?]]; done.
    + intros Hin. apply H2. intros HtM. apply Hin, HM', HtM.
    + intros Hpp. destruct (decide (t ∈ M)) as [HtM|HtM]; [destruct (H1 HtM) as [->|[-> _]]|destruct (H2 HtM) as [-> _]]; done.
    + done.
  - eapply inv_goto; try done. intros t th ro Hne Hl Hp (Hw & Hr & H1 & H2). split_and!; [done|done|]. split; [done|].
    apply H2. destruct (decide (t ∈ us ++ ur)) as [Hin|]; [right; by apply HU|by left].
Qed.

(** The caller looks at or changes the thread [t], and nothing else. *)
Lemma inv_at us ur st st' rs w t th ro th' ro' :
  inv (In us ur st) rs w → sleeps w = None → st ≠ Locked → t ≠ self →
  threads w !! t = Some th → rs !! t = Some ro →
  uncounted st' - pend ro' = uncounted st - pend ro →
  self_creds (In us ur st') = self_creds (In us ur st) → stage_facts us ur st' w →
  (gone (ph th) = true → gone (ph th') = true) →
  (thread_ok (In us ur st) t th ro → thread_ok (In us ur st') t th' ro') →
  (∀ u thu rou, u ≠ self → u ≠ t → thread_ok (In us ur st) u thu rou → thread_ok (In us ur st') u thu rou) →
  inv (In us ur st') (<[t := ro']> rs) (set_thread t th' w).
Proof.
  intros Hi Hs Hst Hne Hth Hro Hun Hc Hf Hg Ht Ho. pose proof (iv_stage _ _ _ Hi) as (S1 & S2 & S3 & S4 & _ & _).
  eapply (inv_one (In us ur st)); try done.
  - split_and!; try done.
    + intros _. destruct (S4 Hst) as [E1 E2]. split; [done|]. rewrite (sumZ_insert pend _ _ _ _ Hro).
      change (cntr (set_thread t th' w)) with (cntr w). lia.
    + unfold sleep_ok. change (sleeps (set_thread t th' w)) with (sleeps w). by rewrite Hs.
  - apply Ht. by eapply iv_threads.
  - intros u thu rou H1 H2 H3 H4. by apply Ho.
Qed.
Lemma set_thread_id t th w : threads w !! t = Some th → set_thread t th w = w.
Proof. intros H. unfold set_thread. destruct w. cbn in *. unfold set_field. cbn. by rewrite list_insert_id. Qed.
Lemma inv_look us ur st st' rs w t th ro :
  inv (In us ur st) rs w → sleeps w = None → st ≠ Locked → t ≠ self →
  threads w !! t = Some th → rs !! t = Some ro → uncounted st' = uncounted st →
  self_creds (In us ur st') = self_creds (In us ur st) → stage_facts us ur st' w →
  (thread_ok (In us ur st) t th ro → thread_ok (In us ur st') t th ro) →
  (∀ u thu rou, u ≠ self → u ≠ t → thread_ok (In us ur st) u thu rou → thread_ok (In us ur st') u thu rou) →
  inv (In us ur st') rs w.
Proof.
  intros Hi Hs Hst Hne Hth Hro Hun Hc Hf Ht Ho.
  rewrite <- (set_thread_id t th w Hth), <- (list_insert_id rs t ro Hro).
  eapply inv_at; try done. lia.
Qed.

(** Another thread does not see the caller working on [t]. *)
Lemma mark_other us ur M t st u thu rou :
  st = Mark_wait M t ∨ st = Mark_start M t ∨ st = Mark_loop M t ∨ st = Mark_free M t ∨ st = Mark_wake M t ∨
  st = Marking ({[t]} ∪ M) ∨ st = Marking M → u ≠ t →
  thread_ok (In us ur st) u thu rou ↔ thread_ok (In us ur (Marking M)) u thu rou.
Proof.
  intros Hst Hne. unfold thread_ok.
  assert (Hm : mark_fits ({[t]} ∪ M) u thu rou ↔ mark_fits M u thu rou) by (unfold mark_fits; set_solver).
  assert (Hl : ∀ P : Prop, ¬ P → has_role P u thu rou ↔ has_role False u thu rou) by (intros P HP; destruct rou; cbn; tauto).
  destruct Hst as [->|[->|[->|[->|[->|[->| ->]]]]]]; cbn; unfold mark_one; rewrite ?decide_False, ?Hm by done; rewrite ?Hl by done; tauto.
Qed.
Definition marks (M : gset nat) (t : nat) (st : stage) : Prop :=
  st = Mark_wait M t ∨ st = Mark_start M t ∨ st = Mark_loop M t ∨ st = Mark_free M t ∨ st = Mark_wake M t ∨
  st = Marking ({[t]} ∪ M) ∨ st = Marking M.
Lemma mark_others us ur M t st st' u thu rou :
  marks M t st → marks M t st' → u ≠ t → thread_ok (In us ur st) u thu rou → thread_ok (In us ur st') u thu rou.
Proof. intros Hs Hs' Hu H. apply (mark_other us ur M t st'); [done..|]. by apply (mark_other us ur M t st). Qed.

(** What is known of the thread the caller works on. *)
Definition mark_known (st : stage) (th : thread) : Prop :=
  match st with
  | Mark_wait _ _ => unborn (ph th) = true → setxid_futex th = -2
  | Mark_start _ _ | Mark_loop _ _ => unborn (ph th) = false
  | Mark_free _ _ => exiting (ph th) = true
  | Mark_wake _ _ => exiting (ph th) = true ∧ (ph th = Waiting → setxid_futex th = 1)
  | _ => False
  end.
Lemma mark_this us ur M t st th ro :
  st = Mark_wait M t ∨ st = Mark_start M t ∨ st = Mark_loop M t ∨ st = Mark_free M t ∨ st = Mark_wake M t →
  thread_ok (In us ur st) t th ro ↔
  wf th ∧ has_role (loud (In us ur st) t) t th ro ∧ ro = Idle ∧ mark_known st th.
Proof.
  intros Hst. unfold thread_ok.
  destruct Hst as [->|[->|[->|[->| ->]]]]; cbn; unfold mark_one; rewrite decide_True by done; done.
Qed.
Lemma mark_before us ur M t th ro : t ∉ M →
  thread_ok (In us ur (Marking M)) t th ro ↔ wf th ∧ has_role False t th ro ∧ ro = Idle ∧ setxid_futex th ≠ -2.
Proof. intros HM. unfold thread_ok. cbn. unfold mark_fits. tauto. Qed.

(** The operations of [setxid_mark_thread]. *)
Lemma mark_start_ok us ur M t st rs w th ro :
  inv (In us ur st) rs w → sleeps w = None → listed self us ur t → t ∉ M →
  threads w !! t = Some th → rs !! t = Some ro →
  st = Marking M ∧ setxid_futex th ≠ -1 ∨ st = Mark_wait M t ∧ setxid_futex th ≠ -2 →
  inv (In us ur (Mark_start M t)) rs w.
Proof.
  intros Hi Hs [Hin Hne] HM Hth Hro Hst.
  eapply (inv_look us ur st _ rs w t); try done; try (by destruct Hst as [[-> _]|[-> _]]).
  - rewrite (mark_this us ur M t (Mark_start M t)) by tauto. destruct Hst as [[-> Hf]|[-> Hf]].
    + rewrite mark_before by done. intros (Hw & Hr & Hi' & Hn). split_and!; [done..|].
      destruct Hw as [_ Hw]. cbn. destruct (unborn (ph th)); [destruct Hw; congruence|done].
    + rewrite (mark_this us ur M t) by tauto. intros (Hw & Hr & Hi' & Hn). split_and!; [done..|].
      cbn in *. destruct (unborn (ph th)); [by destruct Hf, Hn|done].
  - intros u thu rou _ Hu. apply (mark_others us ur M t); [unfold marks; tauto..|done].
Qed.

Lemma cas_futex_ok us ur M t rs w th ro :
  inv (In us ur (Marking M)) rs w → sleeps w = None → listed self us ur t → t ∉ M →
  threads w !! t = Some th → rs !! t = Some ro → setxid_futex th = -1 →
  inv (In us ur (Mark_wait M t)) (<[t := ro]> rs) (set_thread t (th <| setxid_futex := -2 |>) w).
Proof.
  intros Hi Hs [Hin Hne] HM Hth Hro Hf. eapply inv_at; try done.
  - rewrite (mark_this us ur M t (Mark_wait M t)), mark_before by tauto. intros ([H1 H2] & Hr & -> & _).
    assert (Hu : unborn (ph th) = true) by (destruct (unborn (ph th)); [done|lia]). rewrite Hu in H2.
    destruct Hr as (Hun & Hc & _). split_and!; [|split_and!; [done..|]|done|done].
    + split; [exact H1|]. rs. rewrite Hu. by right.
    + intros _. split; rs; intros E; by rewrite E in Hu.
  - intros u thu rou _ Hu. apply (mark_others us ur M t); [unfold marks; tauto..|done].
Qed.

Lemma wait_futex_ok us ur M t rs w th :
  inv (In us ur (Mark_wait M t)) rs w → sleeps w = None → threads w !! t = Some th → setxid_futex th = -2 →
  inv (In us ur (Mark_wait M t)) rs (w <| sleeps := Some (At_futex t) |>).
Proof.
  intros Hi Hs Hth Hf. pose proof (iv_stage _ _ _ Hi) as (S1 & S2 & S3 & S4 & S5 & [[Hin Hne] HM]).
  eapply (inv_same (In us ur (Mark_wait M t))); try done. split_and!; try done. unfold sleep_ok. rs.
  split; [by exists M|]. exists th. split; [done|]. destruct (inv_role _ _ _ _ _ Hi Hth) as [ro Hro].
  destruct (iv_threads _ _ _ Hi _ _ _ Hne Hth Hro) as ([_ Hw] & _). destruct (unborn (ph th)); [done|lia].
Qed.

Lemma store_zero_ok us ur M t rs w th ro :
  inv (In us ur (Mark_start M t)) rs w → sleeps w = None → threads w !! t = Some th → rs !! t = Some ro →
  inv (In us ur (Mark_loop M t)) (<[t := ro]> rs) (set_thread t (th <| setxid_futex := 0 |>) w).
Proof.
  intros Hi Hs Hth Hro. pose proof (iv_stage _ _ _ Hi) as (_ & _ & _ & _ & _ & [[Hin Hne] HM]).
  eapply inv_at; try done.
  - rewrite !(mark_this us ur M t) by tauto. intros ([H1 H2] & Hr & -> & Hb). cbn in Hb.
    split_and!; [|split_and!; [apply Hr|apply Hr|by intros []]|done|done]. split; [exact H1|]. rs. rewrite Hb. by left.
  - intros u thu rou _ Hu. apply (mark_others us ur M t); [unfold marks; tauto..|done].
Qed.

Lemma mark_free_ok us ur M t rs w th ro :
  inv (In us ur (Mark_loop M t)) rs w → sleeps w = None → threads w !! t = Some th → rs !! t = Some ro →
  has (cancelhandling th) EXITING_BITMASK = true → inv (In us ur (Mark_free M t)) rs w.
Proof.
  intros Hi Hs Hth Hro He. pose proof (iv_stage _ _ _ Hi) as (_ & _ & _ & _ & _ & [[Hin Hne] HM]).
  eapply (inv_look us ur _ _ rs w t); try done.
  - rewrite !(mark_this us ur M t) by tauto. intros ([H1 H2] & Hr & -> & Hb). split_and!; [done..|].
    cbn. congruence.
  - intros u thu rou _ Hu. apply (mark_others us ur M t); [unfold marks; tauto..|done].
Qed.

Lemma store_one_ok us ur M t rs w th ro :
  inv (In us ur (Mark_free M t)) rs w → sleeps w = None → threads w !! t = Some th → rs !! t = Some ro →
  inv (In us ur (Mark_wake M t)) (<[t := ro]> rs) (set_thread t (th <| setxid_futex := 1 |>) w).
Proof.
  intros Hi Hs Hth Hro. pose proof (iv_stage _ _ _ Hi) as (_ & _ & _ & _ & _ & [[Hin Hne] HM]).
  eapply inv_at; try done.
  - rewrite !(mark_this us ur M t) by tauto. intros ([H1 H2] & Hr & -> & Hb). cbn in Hb.
    split_and!; [|split_and!; [apply Hr|apply Hr|by intros []]|done|done]. split; [exact H1|]. rs.
    destruct (ph th); try done; by right.
  - intros u thu rou _ Hu. apply (mark_others us ur M t); [unfold marks; tauto..|done].
Qed.

Lemma mark_wake_ok us ur M t rs w th ro :
  inv (In us ur (Mark_wake M t)) rs w → sleeps w = None → threads w !! t = Some th → rs !! t = Some ro →
  ∃ rs', inv (In us ur (Marking ({[t]} ∪ M))) rs' (wake_at t th w).
Proof.
  intros Hi Hs Hth Hro. pose proof (iv_stage _ _ _ Hi) as (_ & _ & _ & _ & _ & [[Hin Hne] HM]). unfold wake_at.
  assert (Hfit : ∀ th', exiting (ph th') = true → stage_fits us ur (Marking ({[t]} ∪ M)) t th' Idle).
  { intros th' He. split; [by right|]. set_solver. }
  case_decide as Ha.
  - exists (<[t:=ro]> rs). eapply inv_at; try done.
    + by rewrite Ha.
    + rewrite (mark_this us ur M t) by tauto. intros ([H1 H2] & Hr & -> & Hb & _). rewrite Ha in *.
      split_and!; [split; rs; done| |by apply Hfit]. destruct Hr as (Hun & Hc & _).
      split_and!; [done|intros _; apply Hc; by rewrite Ha|]. intros _. by split.
    + intros u thu rou _ Hu. apply (mark_others us ur M t); [unfold marks; tauto..|done].
  - rewrite decide_False by congruence. exists rs. eapply (inv_look us ur _ _ rs w t); try done.
    + rewrite (mark_this us ur M t) by tauto. intros (Hw & Hr & -> & Hb & Hwt). split_and!; [done| |by apply Hfit].
      destruct Hr as (Hun & Hc & _). split_and!; [done..|]. intros _. by split.
    + intros u thu rou _ Hu. apply (mark_others us ur M t); [unfold marks; tauto..|done].
Qed.

Lemma cas_mark_ok us ur M t rs w th ro :
  inv (In us ur (Mark_loop M t)) rs w → sleeps w = None → threads w !! t = Some th → rs !! t = Some ro →
  has (cancelhandling th) EXITING_BITMASK = false →
  inv (In us ur (Marking ({[t]} ∪ M))) (<[t := Marked]> rs)
    (set_thread t (th <| cancelhandling := Z.lor (cancelhandling th) SETXID_BITMASK |>) w).
Proof.
  intros Hi Hs Hth Hro He. pose proof (iv_stage _ _ _ Hi) as (_ & _ & _ & _ & _ & [[Hin Hne] HM]).
  destruct (has_or_setxid (cancelhandling th)) as [N1 N2].
  assert (Hro' : ro = Idle).
  { destruct (iv_threads _ _ _ Hi _ _ _ Hne Hth Hro) as (_ & _ & Hf). cbn in Hf. unfold mark_one in Hf.
    rewrite decide_True in Hf by done. apply Hf. }
  subst ro. eapply inv_at; try done.
  - rewrite (mark_this us ur M t) by tauto. intros ([H1 H2] & (Hun & Hc & _) & _ & Hb). cbn in Hb. rewrite He in H1.
    split_and!; [split; rs; [by rewrite N2, He|done]| |split; [by left|set_solver]].
    split; [by split_and!; [exact N1|apply Hun..]|]. rs. destruct (ph th); try done; try (by right); left; (split; [done|by apply Hc]).
  - intros u thu rou _ Hu. apply (mark_others us ur M t); [unfold marks; tauto..|done].
Qed.

(** The operations of [setxid_signal_thread]. *)
Lemma round_grow us ur V n t u thu rou : u ≠ t →
  round_fits us ur V n u thu rou → round_fits us ur ({[t]} ∪ V) n u thu rou.
Proof.
  intros Hu [F1 F2 F3 F4]. split; [done|done| |]; intros.
  - destruct F3; [done|]. set_solver.
  - apply F4; [done|set_solver].
Qed.

(** A thread that was not visited, and is not flagged, is over. *)
Lemma unflagged_over us ur V n t th ro :
  has_role False t th ro → round_fits us ur V n t th ro → t ∈ us ++ ur → t ∉ V → flagged th = false → over th ro.
Proof.
  intros Hr [F1 F2 F3 F4] Hin HV Hfl. destruct ro as [| | |h|]; cbn in *.
  - left. by apply F1.
  - destruct Hr as ((E & _) & _). congruence.
  - destruct Hr as (E & _). congruence.
  - destruct (Z.lt_ge_cases 0 (pend (Handling h))) as [Hp|Hp]; [by destruct F3|].
    pose proof (pend_nonneg (Handling h)). cbn in *. lia.
  - done.
Qed.
Lemma flagged_marked us ur V n t th ro :
  has_role False t th ro → round_fits us ur V n t th ro → t ∉ V → flagged th = true → ro = Marked.
Proof.
  intros Hr [F1 F2 F3 F4] HV Hfl. destruct ro as [| | |h|]; cbn in *; [|done| | |].
  1,4: destruct Hr as ((E & _) & _); congruence.
  - by destruct F3.
  - exfalso. destruct Hr as [_ _ _ E _ _ _]. destruct h; try congruence; by destruct F3.
Qed.

Lemma look_round_ok us ur V n rs w t th ro :
  inv (In us ur (Round V n)) rs w → sleeps w = None → listed self us ur t → t ∉ V →
  threads w !! t = Some th → rs !! t = Some ro →
  inv (In us ur (if flagged th then Sending V n t else Round ({[t]} ∪ V) n)) rs w.
Proof.
  intros Hi Hs [Hin Hne] HV Hth Hro. pose proof (iv_stage _ _ _ Hi) as (_ & _ & _ & _ & _ & Hn).
  destruct (flagged th) eqn:Hfl.
  - eapply (inv_look us ur _ _ rs w t); try done.
    + intros (Hw & Hr & Hf). split_and!; [done..|]. split; [done|]. intros _. by eapply flagged_marked.
    + intros u thu rou _ Hu (Hw & Hr & Hf). split_and!; [done..|]. by split.
  - eapply (inv_look us ur _ _ rs w t); try done.
    + intros (Hw & Hr & Hf). split_and!; [done..|]. pose proof (unflagged_over _ _ _ _ _ _ _ Hr Hf Hin HV Hfl).
      destruct Hf as [F1 F2 F3 F4]. split; [done|done| |done]. intros Hp. destruct F3; [done|]. done.
    + intros u thu rou _ Hu (Hw & Hr & Hf). split_and!; [done..|]. by apply round_grow.
Qed.

(** The signal is sent, or there is no such thread. *)
Lemma tgkill_ok us ur V n rs w t th ro :
  inv (In us ur (Sending V n t)) rs w → sleeps w = None → threads w !! t = Some th → rs !! t = Some ro →
  if lives (ph th) then inv (In us ur (Sent V n t)) (<[t := Called]> rs) (set_thread t (th <| signalled := true |>) w)
  else inv (In us ur (Round ({[t]} ∪ V) n)) rs w.
Proof.
  intros Hi Hs Hth Hro. pose proof (iv_stage _ _ _ Hi) as (_ & _ & _ & _ & _ & (Hn & [Hin Hne] & HV)).
  destruct (iv_threads _ _ _ Hi _ _ _ Hne Hth Hro) as (_ & Hr & [_ Hm]). specialize (Hm eq_refl) as ->.
  destruct Hr as ((E1 & E2 & E3) & Hup).
  destruct (lives (ph th)) eqn:Hl.
  - assert (Hup' : up (ph th) = true ∧ creds th = c0) by (destruct Hup as [|Hst]; [done|by destruct (ph th)]).
    eapply inv_at; try done.
    + destruct Hup'. intros (Hw & _ & _). split_and!; [by destruct Hw|by split_and!|]. cbn. by rewrite decide_True.
    + intros u thu rou _ Hu (Hw & Hr & [Hf _]). split_and!; [done..|]. cbn. by rewrite decide_False.
  - eapply (inv_look us ur _ _ rs w t); try done.
    + intros (Hw & Hr & [[F1 F2 F3 F4] _]). split_and!; [done..|]. split; try done.
      intros _ _. destruct Hup as [[Hup _]|Hst]; [by destruct (ph th)|done].
    + intros u thu rou _ Hu (Hw & Hr & [Hf _]). split_and!; [done..|]. by apply round_grow.
Qed.

Lemma inc_ok us ur V n rs w t :
  inv (In us ur (Sent V n t)) rs w → sleeps w = None →
  inv (In us ur (Round ({[t]} ∪ V) (n + 1))) rs (w <| cntr := cntr w + 1 |>).
Proof.
  intros Hi Hs. pose proof (iv_stage _ _ _ Hi) as (S1 & S2 & S3 & S4 & S5 & (Hn & [Hin Hne] & HV)).
  eapply (inv_same (In us ur (Sent V n t))); try done.
  - split_and!; try done.
    + intros _. destruct S4 as [E1 E2]; [done|]. split; [done|]. rs. cbn in *. lia.
    + unfold sleep_ok. rs. by rewrite Hs.
    + cbn. lia.
  - intros u thu rou Hu _ _ (Hw & Hr & Hf). split_and!; [done..|]. cbn in Hf |- *. case_decide.
    + destruct Hf as [Hl Hf]. split; [by intros _ E|done|intros _; split; [set_solver|lia]|lia].
    + destruct Hf as [F1 F2 F3 F4]. split; [done|done| |lia]. intros Hp. destruct F3; [done|]. split; [set_solver|lia].
Qed.

Lemma load_cntr_ok us ur V n rs w :
  inv (In us ur (Round V n)) rs w → sleeps w = None → covered self us ur V → cntr w = 0 →
  inv (In us ur (if n =? 0 then Unmark ∅ else Round ∅ 0)) rs w.
Proof.
  intros Hi Hs HV Hc. pose proof (iv_stage _ _ _ Hi) as (S1 & S2 & S3 & S4 & S5 & Hn).
  destruct S4 as [_ E2]; [done|]. cbn in E2.
  destruct (Z.eqb_spec n 0) as [->|Hn0].
  - eapply inv_goto; try done. intros t th ro Hne Hl Hp (Hw & Hr & [F1 F2 F3 F4]). split_and!; [done..|].
    destruct (decide (t ∈ us ++ ur)) as [Hin|Hnin].
    + split; [by apply F4, HV|]. intros [|]; [done|set_solver].
    + rewrite (F2 Hnin). split; [|done]. destruct Hl as [|Hg]; [done|]. cbn. by destruct (ph th); auto.
  - eapply inv_goto; try done. intros t th ro Hne Hl Hp (Hw & Hr & [F1 F2 F3 F4]). split_and!; [done..|].
    split; [done|done|lia|set_solver].
Qed.

Lemma wait_cntr_ok us ur V n rs w :
  inv (In us ur (Round V n)) rs w → sleeps w = None → cntr w ≠ 0 →
  inv (In us ur (Round V n)) rs (w <| sleeps := Some At_cntr |>).
Proof.
  intros Hi Hs Hc. pose proof (iv_stage _ _ _ Hi) as (S1 & S2 & S3 & S4 & S5 & Hn).
  eapply (inv_same (In us ur (Round V n))); try done. split_and!; try done. unfold sleep_ok. rs. split; [eauto|by left].
Qed.

(** The operations of [setxid_unmark_thread]. *)
Lemma look_unmark_ok us ur U rs w t th ro :
  inv (In us ur (Unmark U)) rs w → sleeps w = None → listed self us ur t →
  threads w !! t = Some th → rs !! t = Some ro → flagged th = false →
  inv (In us ur (Unmark ({[t]} ∪ U))) rs w.
Proof.
  intros Hi Hs [Hin Hne] Hth Hro Hfl. eapply (inv_look us ur _ _ rs w t); try done.
  - intros (Hw & Hr & Ho & Hf). split_and!; [done..|]. split; [done|]. intros _ ->. destruct Hr as ((E & _) & _). congruence.
  - intros u thu rou _ Hu (Hw & Hr & Ho & Hf). split_and!; [done..|]. split; [done|]. intros [|]; apply Hf; set_solver.
Qed.
Lemma cas_unmark_ok us ur U rs w t th ro :
  inv (In us ur (Unmark U)) rs w → sleeps w = None → listed self us ur t →
  threads w !! t = Some th → rs !! t = Some ro → flagged th = true →
  inv (In us ur (Unmark_free U t)) (<[t := Idle]> rs)
    (set_thread t (th <| cancelhandling := Z.ldiff (cancelhandling th) SETXID_BITMASK |>) w).
Proof.
  intros Hi Hs [Hin Hne] Hth Hro Hfl. destruct (has_not_setxid (cancelhandling th)) as [N1 N2].
  destruct (iv_threads _ _ _ Hi _ _ _ Hne Hth Hro) as (_ & Hr & [Ho _]).
  assert (Hro' : ro = Marked ∧ still (ph th) = true).
  { destruct ro as [| | |h|]; cbn in Hr, Ho; [| |done| |].
    1,4: destruct Hr as ((E & _) & _); congruence.
    - done.
    - exfalso. destruct Hr as [_ _ _ E _ _ _]. destruct h; congruence. }
  destruct Hro' as [-> Hst]. destruct Hr as ((E1 & E2 & E3) & _). eapply inv_at; try done.
  - intros ([H1 H2] & _ & _). split_and!; [split; rs; [by rewrite N2|done]| |cbn; by rewrite decide_True].
    split; [by split_and!|]. rs. split; [by destruct (ph th)|]. intros _. split; rs; by destruct (ph th).
  - intros u thu rou _ Hu (Hw & Hr & Ho' & Hf). split_and!; [done..|]. cbn. by rewrite decide_False.
Qed.
Lemma store_unmark_ok us ur U rs w t th ro :
  inv (In us ur (Unmark_free U t)) rs w → sleeps w = None → threads w !! t = Some th → rs !! t = Some ro →
  inv (In us ur (Unmark_wake U t)) (<[t := ro]> rs) (set_thread t (th <| setxid_futex := 1 |>) w).
Proof.
  intros Hi Hs Hth Hro. pose proof (iv_stage _ _ _ Hi) as (_ & _ & _ & _ & _ & [Hin Hne]).
  eapply inv_at; try done.
  intros ([H1 H2] & Hr & Hf). cbn in Hf. rewrite decide_True in Hf by done. destruct Hf as [-> Hst].
  destruct Hr as (Hun & Hc & Hcalm). split_and!; [split; rs; [done|by destruct (ph th); try done; right]| |cbn; by rewrite decide_True].
  split_and!; [done..|]. intros _. split; rs; by destruct (ph th).
Qed.
Lemma wake_unmark_ok us ur U rs w t th ro :
  inv (In us ur (Unmark_wake U t)) rs w → sleeps w = None → threads w !! t = Some th → rs !! t = Some ro →
  inv (In us ur (Unmark ({[t]} ∪ U))) rs (wake_at t th w).
Proof.
  intros Hi Hs Hth Hro. pose proof (iv_stage _ _ _ Hi) as (_ & _ & _ & _ & _ & [Hin Hne]).
  assert (Hst : ro = Idle ∧ still (ph th) = true).
  { destruct (iv_threads _ _ _ Hi _ _ _ Hne Hth Hro) as (_ & _ & Hf). cbn in Hf. by rewrite decide_True in Hf. }
  destruct Hst as [-> Hst]. unfold wake_at. rewrite decide_False by (by destruct (ph th)). rewrite decide_False by congruence.
  eapply (inv_look us ur _ _ rs w t); try done.
  - intros (Hw & Hr & _). split_and!; [done..|]. split; [by right|done].
  - intros u thu rou _ Hu (Hw & Hr & Hf). split_and!; [done..|]. cbn in Hf. rewrite decide_False in Hf by done.
    destruct Hf as [Ho Hf]. split; [done|]. intros [|]; apply Hf; set_solver.
Qed.

(** The lock, and the caller's own call. *)
Lemma lock_ok rs w : inv Before rs w → inv (In (used w) (user w) Locked) rs (w <| locked := true |>).
Proof.
  intros Hi. pose proof (iv_stage _ _ _ Hi) as (S1 & S2). eapply (inv_same Before); try done.
  split_and!; try done. unfold sleep_ok. rs. by rewrite S2.
Qed.
Lemma set_xidcmd_ok us ur rs w :
  inv (In us ur Locked) rs w → inv (In us ur (Marking ∅)) rs (w <| cntr := 0 |> <| error := -1 |>).
Proof.
  intros Hi. pose proof (iv_stage _ _ _ Hi) as (S1 & S2 & S3 & S4 & S5 & S6).
  eapply (inv_same (In us ur Locked)); try done.
  - split_and!; try done.
    + intros _. split; [by left|]. rs. rewrite (inv_pend_zero _ _ _ Hi); [done|].
      intros t th ro _ _ _ (_ & _ & Hf). destruct Hf as [-> _]. done.
    + unfold sleep_ok in *. rs. destruct (sleeps w) as [[]|]; [by destruct S5 as [[]]|by destruct S5 as [(? & ? & ?)]|done].
  - intros t th ro _ _ _ (Hw & Hr & Hf). split_and!; [done..|]. split; [set_solver|done].
Qed.
Lemma syscall_ok us ur rs w th :
  inv (In us ur Own) rs w → sleeps w = None → threads w !! self = Some th →
  creds th = c0 ∧ inv (In us ur (Own_answer false)) rs (set_thread self (th <| creds := c1 |>) w).
Proof.
  intros Hi Hs Hth. pose proof (iv_stage _ _ _ Hi) as (S1 & S2 & S3 & S4 & S5 & S6).
  destruct Hi as [Hlen (ths & Hself & Hp & Hsg & Hh & Hc) Hsr Hths Hlst Hnd Hrg Hab Hst].
  assert (ths = th) as -> by congruence. assert (Hlt := lookup_lt_Some _ _ _ Hth). split; [done|].
  assert (Hl : ∀ t, t ≠ self → threads (set_thread self (th <| creds := c1 |>) w) !! t = threads w !! t).
  { intros t Hne. unfold set_thread. rs. by rewrite list_lookup_insert_ne. }
  split; try done.
  - unfold set_thread. rs. by rewrite length_insert.
  - exists (th <| creds := c1 |>). unfold set_thread. rs. by rewrite list_lookup_insert_eq.
  - intros t tht ro Hne. rewrite Hl by done. by apply Hths.
  - intros t tht Hne. rewrite Hl by done. by apply Hlst.
  - intros t Ht. unfold set_thread. rs. rewrite length_insert. by apply Hrg.
  - split_and!; try done; [by intros _; apply S4|]. unfold sleep_ok, set_thread. rs. by rewrite Hs.
Qed.
(** From one stage of the caller's own call to the next. *)
Lemma own_ok us ur st st' rs w w' :
  inv (In us ur st) rs w → sleeps w = None →
  (st = Own_answer false ∧ st' = Own_answer true ∧ w' = w <| errno := e0 |>) ∨
  (∃ b, st = Own_answer b ∧ st' = Own_agreed b ∧ w' = w <| error := e0 |>) →
  inv (In us ur st') rs w'.
Proof.
  intros Hi Hs H. pose proof (iv_stage _ _ _ Hi) as (S1 & S2 & S3 & S4 & S5 & S6).
  destruct S4 as [E1 E2]; [by destruct H as [(-> & _)|(b & -> & _)]|].
  destruct H as [(-> & -> & ->)|(b & -> & -> & ->)]; eapply inv_same; try done; split_and!; try done;
    try (unfold sleep_ok; rs; by rewrite Hs). intros _. split; [by right|exact E2].
Qed.
Lemma unlock_ok us ur b rs w :
  inv (In us ur (Own_agreed b)) rs w → sleeps w = None → inv (After b) rs (w <| locked := false |>).
Proof.
  intros Hi Hs. pose proof (iv_stage _ _ _ Hi) as (S1 & S2 & S3 & S4 & S5 & S6).
  eapply (inv_same (In us ur (Own_agreed b))); try done. intros t th ro _ _ _ (Hw & Hr & Ho & Hm).
  split_and!; [done..|]. split; [done|by left].
Qed.

Lemma listed_thread us ur st rs w t : inv (In us ur st) rs w → listed self us ur t →
  ∃ th ro, threads w !! t = Some th ∧ rs !! t = Some ro.
Proof.
  intros Hi [Hin _]. pose proof (iv_stage _ _ _ Hi) as (_ & Hu & Hus & _). eapply inv_listed_thread; [done|].
  by rewrite Hu, Hus.
Qed.

(** Every operation of the caller leads from one stage to another. *)
Definition keeps {B} (o : op B) : Prop := ∀ r rs w w' c b (K : B → crole → Prop),
  inv r rs w → sleeps w = None → crule0 self result o r K → exec o self c w = Some (b, w') →
  ∃ r' rs', inv r' rs' w' ∧ K b r'.
Ltac op_start :=
  intros r0 rs w w' c b K Hi Hs HK He; cbn in HK, He; unfold at_thread, in_stage in *.
(** The thread that the operation is about. *)
Ltac op_thread Hl := match goal with
  | Hi : inv _ _ _, He : _ = Some (_, _) |- _ =>
      destruct (listed_thread _ _ _ _ _ _ Hi Hl) as (th & ro & Hth & Hro); rewrite Hth in He; cbn in He
  end.

Lemma keeps_lll_lock : keeps Lll_lock.
Proof.
  op_start. destruct HK as [-> HK]. destruct (locked w); [done|]. simplify_eq. eexists _, rs. split; [by apply lock_ok|].
  apply HK, (iv_nodup _ _ _ Hi).
Qed.
Lemma keeps_lll_unlock : keeps Lll_unlock.
Proof.
  op_start. destruct r0 as [|us ur st|b']; try done. destruct st; try done. simplify_eq. exists (After b0), rs. split; [|done]. by eapply unlock_ok.
Qed.
Lemma keeps_set_xidcmd : keeps Set_xidcmd.
Proof.
  op_start. destruct r0 as [|us ur st|b']; try done. destruct HK as [-> HK]. simplify_eq. eexists _, rs. split; [by apply set_xidcmd_ok|done].
Qed.
Lemma keeps_stack_used : keeps Stack_used.
Proof.
  op_start. destruct r0 as [|us ur st|b']; try done. pose proof (iv_stage _ _ _ Hi) as (_ & Hu & _). simplify_eq. by exists (In (used w') ur st), rs.
Qed.
Lemma keeps_stack_user : keeps Stack_user.
Proof.
  op_start. destruct r0 as [|us ur st|b']; try done. pose proof (iv_stage _ _ _ Hi) as (_ & _ & Hu & _). simplify_eq. by exists (In us (user w') st), rs.
Qed.
Lemma keeps_load_futex t : keeps (Load_futex t).
Proof.
  op_start. destruct r0 as [|us ur st|b']; try done. destruct st as [|M|M u| | | | | | | | | | | | |]; try done.
  - destruct HK as (Hl & HM & K1 & K2). op_thread Hl. simplify_eq. destruct (decide (setxid_futex th = -1)) as [E|E].
    + exists (In us ur (Marking M)), rs. rewrite E. done.
    + eexists _, rs. split; [|by apply K2]. eapply mark_start_ok; try done. by left.
  - destruct HK as (-> & K1 & K2). pose proof (iv_stage _ _ _ Hi) as (_ & _ & _ & _ & _ & [Hl HM]).
    op_thread Hl. simplify_eq. destruct (decide (setxid_futex th = -2)) as [E|E].
    + exists (In us ur (Mark_wait M t)), rs. rewrite E. done.
    + eexists _, rs. split; [|by apply K2]. eapply mark_start_ok; try done. by right.
Qed.
Lemma keeps_store_futex t v : keeps (Store_futex t v).
Proof.
  op_start. destruct r0 as [|us ur st|b']; try done. pose proof (iv_stage _ _ _ Hi) as (_ & _ & _ & _ & _ & Hfacts).
  destruct st as [| | |M u| |M u| | | | | |U u| | | |]; try done; destruct HK as (-> & -> & HK); cbn in Hfacts.
  1,2: destruct Hfacts as [Hl _]. 3: rename Hfacts into Hl.
  all: op_thread Hl; simplify_eq;
    eexists _, (<[t:=ro]> rs); (split; [|exact HK]).
  - by apply store_zero_ok.
  - by apply store_one_ok.
  - by apply store_unmark_ok.
Qed.
Lemma keeps_cas_futex t new old : keeps (Cas_futex t new old).
Proof.
  op_start. destruct r0 as [|us ur st|b']; try done. destruct st; try done. destruct HK as (-> & -> & Hl & HM & K1 & K2).
  op_thread Hl.
  destruct (Z.eqb_spec (setxid_futex th) (-1)) as [E|E]; simplify_eq.
  - eexists _, (<[t:=ro]> rs). split; [by apply cas_futex_ok|done].
  - eexists _, rs. split; [|done]. eapply mark_start_ok; try done. by left.
Qed.
Lemma keeps_wait_futex t v : keeps (Wait_futex t v).
Proof.
  op_start. destruct r0 as [|us ur st|b']; try done. destruct st; try done. destruct HK as (-> & -> & HK).
  pose proof (iv_stage _ _ _ Hi) as (_ & _ & _ & _ & _ & [Hl HM]).
  op_thread Hl.
  rewrite bool_decide_true in He by done. cbn in He. eexists _, rs. split; [|by destruct b].
  destruct (Z.eqb_spec (setxid_futex th) (-2)) as [E|E]; simplify_eq; [|done]. by eapply wait_futex_ok.
Qed.
Lemma keeps_wake_futex t : keeps (Wake_futex t).
Proof.
  op_start. destruct r0 as [|us ur st|b']; try done. pose proof (iv_stage _ _ _ Hi) as (_ & _ & _ & _ & _ & Hfacts).
  destruct st as [| | | | | |M u| | | | | |U u| | |]; try done; destruct HK as (-> & HK); cbn in Hfacts.
  - op_thread (proj1 Hfacts). simplify_eq.
    destruct (mark_wake_ok _ _ _ _ _ _ _ _ Hi Hs Hth Hro) as [rs' Hi']. by eexists _, rs'.
  - op_thread Hfacts. simplify_eq.
    eexists _, rs. split; [by eapply wake_unmark_ok|done].
Qed.
Lemma keeps_load_ch t : keeps (Load_ch t).
Proof.
  op_start. destruct r0 as [|us ur st|b']; try done. pose proof (iv_stage _ _ _ Hi) as (_ & _ & _ & _ & _ & Hfacts).
  destruct st as [| | | |M u| | |V n| | |U| | | | |]; try done.
  - destruct HK as (-> & HK). destruct Hfacts as [Hl HM].
    op_thread Hl. simplify_eq.
    destruct (iv_threads _ _ _ Hi _ _ _ (proj2 Hl) Hth Hro) as (_ & Hr & Hf). cbn in Hf. unfold mark_one in Hf.
    rewrite decide_True in Hf by done. destruct Hf as [-> _]. destruct Hr as ((E & _) & _).
    specialize (HK _ E). destruct (has (cancelhandling th) EXITING_BITMASK) eqn:Ex; eexists _, rs; (split; [|exact HK]); [|done].
    by eapply mark_free_ok.
  - destruct HK as (Hl & HV & HK).
    op_thread Hl. simplify_eq.
    eexists _, rs. split; [|apply HK]. by eapply look_round_ok.
  - destruct HK as (Hl & HK).
    op_thread Hl. simplify_eq.
    specialize (HK (cancelhandling th)). destruct (has (cancelhandling th) SETXID_BITMASK) eqn:E; eexists _, rs; (split; [|exact HK]); [done|].
    by eapply look_unmark_ok.
Qed.
Lemma keeps_cas_ch t new old : keeps (Cas_ch t new old).
Proof.
  op_start. destruct r0 as [|us ur st|b']; try done. pose proof (iv_stage _ _ _ Hi) as (_ & _ & _ & _ & _ & Hfacts).
  destruct st as [| | | |M u| | |V n| | |U| | | | |]; try done.
  - destruct HK as (-> & Hx & -> & K1 & K2). destruct Hfacts as [Hl HM].
    op_thread Hl.
    destruct (Z.eqb_spec (cancelhandling th) old) as [<-|E]; simplify_eq; [|by eexists _, rs].
    eexists _, (<[t:=Marked]> rs). split; [by eapply cas_mark_ok|done].
  - destruct HK as (Hl & Hx & -> & K1 & K2).
    op_thread Hl.
    destruct (Z.eqb_spec (cancelhandling th) old) as [<-|E]; simplify_eq; [|by eexists _, rs].
    eexists _, (<[t:=Idle]> rs). split; [by eapply cas_unmark_ok|done].
Qed.
Lemma keeps_tgkill t : keeps (Tgkill t).
Proof.
  op_start. destruct r0 as [|us ur st|b']; try done. destruct st; try done. destruct HK as (-> & HK).
  pose proof (iv_stage _ _ _ Hi) as (_ & _ & _ & _ & _ & (_ & Hl & _)).
  op_thread Hl.
  pose proof (tgkill_ok _ _ _ _ _ _ _ _ _ Hi Hs Hth Hro) as Hk. destruct (lives (ph th)).
  - destruct c; simplify_eq. eexists _, (<[t:=Called]> rs). split; [exact Hk|]. exact (HK 0).
  - simplify_eq. eexists _, rs. split; [exact Hk|]. exact (HK (-3)).
Qed.
Lemma keeps_inc_cntr : keeps Inc_cntr.
Proof.
  op_start. destruct r0 as [|us ur st|b']; try done. destruct st; try done. simplify_eq. eexists _, rs. split; [by apply inc_ok|done].
Qed.
Lemma keeps_load_cntr : keeps Load_cntr.
Proof.
  op_start. destruct r0 as [|us ur st|b']; try done. destruct st; try done. destruct HK as (HV & K1 & K2). simplify_eq.
  destruct (decide (cntr w' = 0)) as [E|E]; [|by eexists _, rs; split; [|by apply K1]].
  eexists _, rs. rewrite E. split; [|exact K2]. by eapply load_cntr_ok.
Qed.
Lemma keeps_wait_cntr v : keeps (Wait_cntr v).
Proof.
  op_start. destruct r0 as [|us ur st|b']; try done. destruct st; try done. destruct HK as (Hv & HK).
  rewrite bool_decide_true in He by done. cbn in He. eexists _, rs. split; [|by destruct b].
  destruct (Z.eqb_spec (cntr w) v) as [E|E]; simplify_eq; [|done]. by apply wait_cntr_ok.
Qed.
Lemma keeps_load_error : keeps Load_error.
Proof.
  op_start. destruct r0 as [|us ur st|b']; try done. destruct st as [| | | | | | | | | | | | | |b'|]; try done. destruct HK as [K1 K2]. simplify_eq.
  pose proof (iv_stage _ _ _ Hi) as (_ & _ & _ & Hn & _). destruct (proj1 (Hn ltac:(done))) as [E|E].
  - rewrite E. by eexists _, rs.
  - eexists _, rs. rewrite E. split; [|exact K2].
    assert (Ew : w' = w' <| error := e0 |>) by (rewrite <- E; by destruct w'). rewrite Ew. eapply own_ok; [done..|]. right. eauto.
Qed.
Lemma keeps_cas_error new old : keeps (Cas_error new old).
Proof.
  op_start. destruct r0 as [|us ur st|b']; try done. destruct st as [| | | | | | | | | | | | | |b'|]; try done. destruct HK as (-> & -> & K1 & K2).
  destruct (Z.eqb_spec (error w) (-1)); simplify_eq; [|by eexists _, rs].
  eexists _, rs. split; [|exact K2]. eapply own_ok; [done..|]. right. eauto.
Qed.
Lemma keeps_syscall : keeps Syscall.
Proof.
  op_start. destruct r0 as [|us ur st|b']; try done. destruct HK as [-> HK].
  destruct (iv_self _ _ _ Hi) as (th & Hth & _). destruct (syscall_ok _ _ _ _ _ Hi Hs Hth) as [Ec Hi'].
  rewrite Hth in He. cbn in He. rewrite Ec, (surjective_pairing (setid c0)) in He. simplify_eq. by eexists _, rs.
Qed.
Lemma keeps_set_errno e : keeps (Set_errno e).
Proof.
  op_start. destruct r0 as [|us ur st|b']; try done. destruct HK as (-> & -> & HK). simplify_eq. eexists _, rs. split; [|done].
  eapply own_ok; [done..|]. by left.
Qed.
Create HintDb keeps.
#[local] Hint Resolve keeps_lll_lock keeps_lll_unlock keeps_set_xidcmd keeps_stack_used keeps_stack_user keeps_load_futex keeps_store_futex
  keeps_cas_futex keeps_wait_futex keeps_wake_futex keeps_load_ch keeps_cas_ch keeps_tgkill keeps_inc_cntr
  keeps_load_cntr keeps_wait_cntr keeps_load_error keeps_cas_error keeps_syscall keeps_set_errno : keeps.

Lemma cexec_ok {B} r rs w w' (o : op B) c b (K : B → crole → Prop) :
  inv r rs w → sleeps w = None → crule self result o r K → exec o self c w = Some (b, w') →
  ∃ r' rs', inv r' rs' w' ∧ K b r'.
Proof.
  assert (Hk : keeps o) by (clear r rs w w' c b K; destruct o; auto with keeps; op_start; done).
  intros Hi Hs (r0 & Him & HK) He. eapply Hk; [by eapply implies_ok|done..].
Qed.

(** * Every run *)

Lemma exec_caller {B} cf (o : op B) me c w b w' :
  Setxid.exec self setid cf o me c w = Some (b, w') → caller w' = caller w.
Proof.
  intros H. destruct o; cbn in H; unfold at_thread, wake_at, set_thread in H;
    try match type of H with context [threads w !! ?t] => destruct (threads w !! t); [cbn in H|done] end;
    repeat case_match; by simplify_eq.
Qed.

Lemma others_caller a w w' : (∀ c, a ≠ Caller c) → step a w = Some w' → caller w' = caller w.
Proof.
  intros Ha H. unfold Setxid.step, at_other in H. destruct (aborted w); [done|].
  destruct a as [c|t|t|t m|t ch|b|p t|t|]; [by destruct (Ha c)|..].
  - destruct (threads w !! t) as [th|]; [|done]. cbn in H. destruct (in_handler th) as [p|]; [|done]. cbn in H.
    destruct p as [x|B o k|C body k]; [by simplify_eq| |].
    + cbn in H. destruct (Setxid.exec self setid false o t Fine w) as [[b w1]|] eqn:E; rewrite ?E in H; [|done].
      cbn in H. apply exec_caller in E. destruct (threads w1 !! t); [|done]. cbn in H. by simplify_eq.
    + cbn in H. destruct (threads w !! t); [|done]. cbn in H. by simplify_eq.
  - case_bool_decide; [done|]. destruct (threads w !! t) as [th|]; [|done]. cbn in H. repeat case_match; by simplify_eq.
  - case_bool_decide; [done|]. destruct (threads w !! t) as [th|]; [|done]. cbn in H. destruct (in_handler th); [done|].
    destruct (moves m th) as [[th' b]|]; [|done]. cbn in H. unfold wake_at in H. repeat case_match; by simplify_eq.
  - destruct (threads w !! t) as [th|]; [|done]. cbn in H. case_bool_decide; by simplify_eq.
  - destruct (locked w); [done|]. destruct b; by simplify_eq.
  - case_bool_decide; [done|]. destruct (threads w !! p) as [th|]; [|done]. cbn in H. destruct (in_handler th); [done|].
    case_bool_decide; [done|]. destruct (threads w !! t) as [th'|]; [|done]. cbn in H. repeat case_match; by simplify_eq.
  - case_bool_decide; [done|]. destruct (threads w !! t) as [th|]; [|done]. cbn in H. repeat case_match; by simplify_eq.
  - destruct (sleeps w); by simplify_eq.
Qed.

Lemma others_ok a r rs w w' : (∀ c, a ≠ Caller c) → inv r rs w → step a w = Some w' → ∃ rs', inv r rs' w'.
Proof.
  intros Ha Hi H. destruct a as [c|t|t|t m|t ch|b|p t|t|]; [by destruct (Ha c)|..].
  - by eapply handler_step_ok.
  - by eapply deliver_ok.
  - by eapply move_ok.
  - by eapply touch_ok.
  - by eapply create_ok.
  - by eapply clone_ok.
  - by eapply release_ok.
  - by eapply spurious_ok.
Qed.

Definition returns (v : Z) (r : crole) : Prop :=
  v = (if error_p result then -1 else result) ∧ r = After (error_p result).
Definition invariant (w : world) : Prop :=
  ∃ r rs, inv r rs w ∧ csafe self result returns (caller w) r.

Lemma inv_caller r rs w p : inv r rs w → inv r rs (w <| caller := p |>).
Proof. intros Hi. eapply (inv_same r); try done. pose proof (iv_stage _ _ _ Hi) as Hs. by destruct r. Qed.

Lemma step_ok a w w' : invariant w → step a w = Some w' → invariant w'.
Proof.
  intros (r & rs & Hi & Hp) H. assert (Hd : (∀ c, a ≠ Caller c) ∨ ∃ c, a = Caller c) by (destruct a; eauto).
  destruct Hd as [Ha|[c ->]].
  - destruct (others_ok _ _ _ _ _ Ha Hi H) as [rs' Hi']. exists r, rs'. split; [done|].
    by rewrite (others_caller _ _ _ Ha H).
  - unfold Setxid.step in H. rewrite (iv_aborted _ _ _ Hi) in H. destruct (sleeps w) eqn:Hs; [done|].
    destruct (caller w) as [v|B o k|C body k] eqn:Hc; cbn in H; [done| |].
    + destruct (Setxid.exec self setid false o self c w) as [[b w1]|] eqn:E; rewrite ?E in H; [|done]. cbn in H. simplify_eq.
      destruct (cexec_ok _ _ _ _ _ _ _ _ Hi Hs Hp E) as (r' & rs' & Hi' & HK). exists r', rs'. split; [by apply inv_caller|exact HK].
    + simplify_eq. exists r, rs. split; [by apply inv_caller|]. by apply (safe_unroll _ (crule_mono self result)).
Qed.

Lemma reaches_ok w w' : invariant w → reaches self setid handler false w w' → invariant w'.
Proof. intros Hi H. induction H as [|w1 w2 w3 [a Ha] _ IH]; [done|]. apply IH. by eapply step_ok. Qed.

(** Nobody is being asked for anything, and all threads have the same ids. *)
Record ready (w : world) : Prop := {
  rd_caller : caller w = nptl_setxid self;
  rd_free : locked w = false ∧ sleeps w = None ∧ aborted w = false;
  rd_self : ∃ th, threads w !! self = Some th ∧ ph th = Running ∧ signalled th = false ∧ in_handler th = None ∧ creds th = c0;
  rd_threads t th : t ≠ self → threads w !! t = Some th →
    wf th ∧ uncalled th false ∧ setxid_futex th ≠ -2 ∧ calm th ∧ (has_creds (ph th) = true → creds th = c0);
  rd_listed t th : t ≠ self → threads w !! t = Some th → t ∈ used w ++ user w ∨ gone (ph th) = true;
  rd_nodup : NoDup (used w ++ user w);
  rd_range t : t ∈ used w ++ user w → (t < length (threads w))%nat;
}.

Lemma ready_ok w : ready w → invariant w.
Proof.
  intros [Hc (H1 & H2 & H3) Hs Ht Hl Hn Hr]. exists Before, (replicate (length (threads w)) Idle). split.
  - destruct Hs as (ths & Hs). split; try done.
    + by rewrite length_replicate.
    + by exists ths.
    + apply lookup_replicate_2. destruct Hs as [Hs _]. by eapply lookup_lt_Some.
    + intros t th ro Hne Hth [-> _]%lookup_replicate. destruct (Ht t th Hne Hth) as (W1 & W2 & W3 & W4 & W5).
      by split_and!.
  - rewrite Hc. apply nptl_setxid_safe.
Qed.

(** The caller is done. *)
Lemma returned_ok w v : invariant w → caller w = Ret v →
  v = (if error_p result then -1 else result) ∧ ∃ rs, inv (After (error_p result)) rs w.
Proof. intros (r & rs & Hi & Hp) Hc. rewrite Hc in Hp. destruct Hp as [-> ->]. eauto. Qed.

(** C6: when [__nptl_setxid] returns, it returns what the system call answered, with [errno]
    set if that was an error, and every thread that runs and is not ending has the ids that
    the call gave it, whatever the threads did meanwhile: they may have been created, started, given
    up, cancelled, ended and freed at any point.  The signal is refused only to a thread that does not
    exist ([can_fail] is false); [nptl_setxid_misses] is what happens when it is refused to a living one. *)
Theorem nptl_setxid_everywhere w0 w v :
  ready w0 → reaches self setid handler false w0 w → caller w = Ret v →
  v = (if error_p result then -1 else result) ∧ (error_p result = true → errno w = - result) ∧
  ∀ t th, threads w !! t = Some th → lives (ph th) = true → exiting (ph th) = false → creds th = c1.
Proof.
  intros H0 Hr Hv. destruct (returned_ok w v) as [-> [rs Hi]]; [by eapply reaches_ok; [apply ready_ok|]|done|].
  split; [done|]. split.
  - intros E. pose proof (iv_stage _ _ _ Hi) as (_ & _ & He). rewrite (He E). unfold e0, error_of. by rewrite E.
  - intros t th Hth Hl Hx. destruct (decide (t = self)) as [->|Hne].
    + destruct (iv_self _ _ _ Hi) as (ths & E & _ & _ & _ & Hc). by simplify_eq.
    + destruct (inv_role _ _ _ _ _ Hi Hth) as [ro Hro].
      destruct (iv_threads _ _ _ Hi _ _ _ Hne Hth Hro) as (_ & Ht & Hm & Hf).
      destruct ro as [| | |h|]; cbn in Ht, Hf; [|done| | |].
      * destruct (ph th); naive_solver.
      * by destruct Hf as [|[]].
      * destruct Hf as [Hf|[]]; [|done]. rewrite (hd_creds _ _ _ Ht). by destruct h.
      * destruct Ht as (_ & Hc & _). apply Hc. by destruct (ph th).
Qed.

(** the threads never disagree about the result, so that the call is never aborted. *)
Theorem nptl_setxid_agrees w0 w : ready w0 → reaches self setid handler false w0 w → aborted w = false.
Proof.
  intros H0 Hr. destruct (reaches_ok w0 w) as (r & rs & Hi & _); [by apply ready_ok|done|]. by apply (iv_aborted _ _ _ Hi).
Qed.

(** C8: a thread that found SETXID_BIT when it ended does not sleep for ever on its futex,
    although it waits for one word and looks at another: when [__nptl_setxid] has returned nobody
    sleeps, the flag is clear, and who is about to sleep finds the futex released.  The signal is refused
    only to a thread that does not exist. *)
Theorem exiting_not_left w0 w v t th :
  ready w0 → reaches self setid handler false w0 w → caller w = Ret v → t ≠ self → threads w !! t = Some th →
  ph th ≠ Asleep ∧ (ph th = Waiting → setxid_futex th = 1) ∧ has (cancelhandling th) SETXID_BITMASK = false.
Proof.
  intros H0 Hr Hv Hne Hth. destruct (returned_ok w v) as [_ [rs Hi]]; [by eapply reaches_ok; [apply ready_ok|]|done|].
  destruct (inv_role _ _ _ _ _ Hi Hth) as [ro Hro].
  destruct (iv_threads _ _ _ Hi _ _ _ Hne Hth Hro) as (_ & Ht & Hm & Hf).
  destruct ro as [| | |h|]; cbn in Ht, Hf; [|done| | |].
  - destruct Ht as ((E & _) & _ & Hcalm). destruct Hcalm as [C1 C2]; [by intros []|done].
  - by destruct Hf as [|[]].
  - destruct Ht as [_ _ [_ H3] H4 _ _ H7]. unfold flagged in H4. rewrite H4.
    destruct Hf as [Hf|[]]; [|done]. by destruct h.
  - by destruct Ht as ((E & _) & _ & [C1 C2] & _).
Qed.

(** ** Nobody waits for ever *)

(** The steps that are bound to come: not those that a thread makes for reasons of its own. *)
Definition due (a : action) : bool :=
  match a with
  | Caller Fine | Handler _ | Deliver _ | Move _ (Give_up | Start | Wake) => true
  | _ => false
  end.

Lemma cexec_defined {B} r rs w (o : op B) (K : B → crole → Prop) :
  inv r rs w → sleeps w = None → crule self result o r K → ∃ bw, exec o self Fine w = Some bw.
Proof.
  intros Hi0 Hs (r0 & Him & HK). pose proof (implies_ok _ _ _ _ Hi0 Hs Him) as Hi. clear Hi0 Him r.
  assert (Hat : ∀ us ur st t, r0 = In us ur st → listed self us ur t → ∃ th, threads w !! t = Some th).
  { intros us ur st t -> Hl. destruct (listed_thread _ _ _ _ _ _ Hi Hl) as (th & _ & H & _). by exists th. }
  pose proof (iv_stage _ _ _ Hi) as Hst.
  destruct o; cbn in HK; try done; cbn; unfold at_thread; rewrite ?bool_decide_true by done; cbn; eauto.
  1: destruct HK as [-> _], Hst as [-> _]; eauto.
  all: destruct r0 as [|us ur st|b']; try done.
  1-8: destruct Hst as (_ & _ & _ & _ & _ & Hf);
    assert (Hl : listed self us ur t) by (destruct st; cbn in HK, Hf; try done; naive_solver);
    destruct (Hat _ _ _ _ eq_refl Hl) as [th Hth]; rewrite Hth; cbn; repeat case_match; eauto.
  - destruct (error w =? old); eauto.
  - destruct (iv_self _ _ _ Hi) as (th & Hth & _). rewrite Hth. cbn. destruct (setid (creds th)). eauto.
Qed.

Lemma hexec_defined {B} t th h w (o : op B) (K : B → hrole → Prop) :
  threads w !! t = Some th → hrule t o h K → ∃ bw, exec o t Fine w = Some bw.
Proof.
  intros Hth HK. destruct o; cbn in HK; try done; cbn; unfold at_thread; eauto.
  all: try (assert (t0 = t) as -> by (by destruct HK)); rewrite ?Hth; cbn; repeat case_match; eauto.
Qed.

Lemma handler_defined r rs w t h : inv r rs w → rs !! t = Some (Handling h) → ∃ w', step (Handler t) w = Some w'.
Proof.
  intros Hi Hro. destruct (lookup_lt_is_Some_2 (threads w) t) as [th Hth].
  { rewrite <- (iv_len _ _ _ Hi). by eapply lookup_lt_Some. }
  assert (Hne : t ≠ self) by (intros ->; rewrite (iv_self_role _ _ _ Hi) in Hro; done).
  destruct (iv_threads _ _ _ Hi _ _ _ Hne Hth Hro) as (_ & Hr & _). cbn in Hr.
  destruct (hd_prog _ _ _ Hr) as (p & Hp & Hs). unfold Setxid.step. rewrite (iv_aborted _ _ _ Hi), Hth. cbn. rewrite Hp. cbn.
  destruct p as [x|B o k|C body k]; [by eexists| |cbn; rewrite Hth; cbn; by eexists].
  destruct (hexec_defined _ _ _ _ _ _ Hth Hs) as [[b w1] E].
  destruct (hexec_ok _ _ _ _ _ _ _ _ _ _ Hi Hth Hne Hro Hs E) as (th1 & h' & Hth1 & _).
  cbn. rewrite E. cbn. rewrite Hth1. cbn. by eexists.
Qed.

(** The thread whose start the caller waits for can go on. *)
Lemma start_defined r rs w t : inv r rs w → sleeps w = Some (At_futex t) →
  ∃ m w', due (Move t m) = true ∧ step (Move t m) w = Some w'.
Proof.
  intros Hi Hs. destruct (asleep_at _ _ _ _ Hi Hs) as (th & Hth & _ & Hu).
  pose proof (iv_stage _ _ _ Hi) as Hst. destruct r as [|us ur st|b]; cbn in Hst;
    [by destruct Hst; congruence| |by destruct Hst as (_ & ? & _); congruence].
  destruct Hst as (_ & _ & _ & _ & Hsl & Hf). unfold sleep_ok in Hsl. rewrite Hs in Hsl. destruct Hsl as [[M ->] _].
  destruct Hf as [[_ Hne] _]. destruct (inv_role _ _ _ _ _ Hi Hth) as [ro Hro].
  destruct (iv_threads _ _ _ Hi _ _ _ Hne Hth Hro) as (_ & Hr & Hfit). cbn in Hfit. unfold mark_one in Hfit.
  rewrite decide_True in Hfit by done. destruct Hfit as [-> _]. destruct Hr as ((_ & _ & Hh) & _).
  unfold Setxid.step, at_other. rewrite (iv_aborted _ _ _ Hi), bool_decide_false, Hth by done. cbn. rewrite Hh.
  destruct (ph th) eqn:Hp; try done; [exists Give_up|exists Start|exists Wake|exists Wake];
    eexists; (split; [done|]); unfold moves; rewrite Hp; cbn; done.
Qed.

(** Somebody has a signal to answer, or is about to wake the caller. *)
Lemma answer_defined r rs w : inv r rs w → sleeps w = Some At_cntr →
  ∃ a w', due a = true ∧ step a w = Some w'.
Proof.
  intros Hi Hs. pose proof (iv_stage _ _ _ Hi) as Hst. destruct r as [|us ur st|b]; cbn in Hst;
    [by destruct Hst; congruence| |by destruct Hst as (_ & ? & _); congruence].
  destruct Hst as (_ & _ & _ & Hn & Hsl & Hf). unfold sleep_ok in Hsl. rewrite Hs in Hsl.
  destruct Hsl as [(V & n & ->) Hc]. destruct Hn as [_ Hn]; [done|]. cbn in Hn.
  destruct Hc as [Hc|[t Ht]]; [|destruct (handler_defined _ _ _ _ _ Hi Ht) as [w' Hw']; by exists (Handler t), w'].
  destruct (sumZ_positive pend rs) as (t & ro & Hro & Hp).
  { pose proof (sumZ_nonneg pend pend_nonneg rs). lia. }
  destruct ro as [| | |h|]; try done.
  - destruct (lookup_lt_is_Some_2 (threads w) t) as [th Hth].
    { rewrite <- (iv_len _ _ _ Hi). by eapply lookup_lt_Some. }
    assert (Hne : t ≠ self) by (intros ->; rewrite (iv_self_role _ _ _ Hi) in Hro; done).
    destruct (iv_threads _ _ _ Hi _ _ _ Hne Hth Hro) as (_ & (E1 & E2 & E3 & E4 & E5) & _).
    exists (Deliver t). unfold Setxid.step, at_other. rewrite (iv_aborted _ _ _ Hi), bool_decide_false, Hth by done. cbn.
    rewrite E3, E2. assert (lives (ph th) = true) as -> by (by destruct (ph th)). cbn. by eexists.
  - destruct (handler_defined _ _ _ _ _ Hi Hro) as [w' Hw']. by exists (Handler t), w'.
Qed.

(** C7: [__nptl_setxid] does not deadlock: until it has returned there is always a step that is
    bound to come: of the caller, of a thread that is being started or given up, or the answer to
    a signal.  No wake-up is lost.  The signal is refused only to a thread that does not exist. *)
Theorem nptl_setxid_progress w0 w :
  ready w0 → reaches self setid handler false w0 w → (∀ v, caller w ≠ Ret v) →
  ∃ a w', due a = true ∧ step a w = Some w'.
Proof.
  intros H0 Hr Hv. destruct (reaches_ok w0 w) as (r & rs & Hi & Hp); [by apply ready_ok|done|].
  destruct (sleeps w) as [[t|]|] eqn:Hs.
  - destruct (start_defined _ _ _ _ Hi Hs) as (m & w' & Hm & Hw'). by exists (Move t m), w'.
  - by eapply answer_defined.
  - exists (Caller Fine). unfold Setxid.step. rewrite (iv_aborted _ _ _ Hi), Hs.
    destruct (caller w) as [v|B o k|C body k]; [by destruct (Hv v)| |by eexists].
    destruct (cexec_defined _ _ _ _ _ Hi Hs Hp) as [[b w1] E]. cbn. rewrite E. by eexists.
Qed.
End Invariant.
