(* ===== verification/SetxidDemo.v ===== *)
(** [__nptl_setxid] on a concrete process, with a concrete handler. *)
From S2P Require Import Prelude ListHead Nptl Sim Program Setxid SetxidProofs.
Import X86.
#[local] Arguments Z.eqb : simpl never.
#[local] Abbreviation prog := (prog op).

(** The handler as its protocol asks. *)
Definition demo_handler (t : nat) : prog () :=
  val ← call Syscall;
  nptl_setxid_error (error_of val);;
  loop (ch ← call (Load_ch t);
        again ← call (Cas_ch t (Z.ldiff ch SETXID_BITMASK) ch);
        mret (if again : bool then None else Some ()));;
  call (Store_futex t 1);;
  call (Wake_futex t);;
  n ← call Dec_cntr;
  when_p (n =? 0) (call Wake_cntr).

Lemma demo_handler_ok t : hsafe t (demo_handler t) Asked.
Proof.
  unfold demo_handler. split; [done|]. intros val.
  assert (He : 0 ≤ error_of val).
  { unfold error_of, error_p. destruct (Z.ltb_spec (-4096) val), (Z.ltb_spec val 0); cbn; lia. }
  apply (safe_bind _ (hrule_mono t) (λ _ r, r = Agreed) _ (nptl_setxid_error (error_of val))); [by apply hsafe_error|].
  intros _ r ->. exists (λ r, r = Agreed). split; [done|]. intros r ->. cbn. split; [done|]. intros ch.
  split_and!; try done. intros n Hn. by destruct (Z.eqb_spec n 0).
Qed.

(** [setuid (33)] for user 1000; a user that may not. *)
Definition demo_setid (ids : Z) : Z * Z := (33, 0).
Definition refused_setid (ids : Z) : Z * Z := (ids, -1).

(** The caller; a thread at work, on a stack of the library; one just cloned; one on a stack of the
    user; one to be cloned. *)
Definition at_work (p : phase) (f : Z) : thread := mkThread p 1000 f 0 false None.
Definition boot : world := mkWorld
  [at_work Running 0; at_work Running 0; at_work Cloned (-1); at_work Running 0; at_work Embryo (-1)]
  [1; 2; 4]%nat [0; 3]%nat false 0 0 (nptl_setxid 0) None 0 false.

Lemma boot_ready : ready 0 1000 boot.
Proof.
  split; try done.
  - by exists (at_work Running 0).
  - intros t th Hne Ht. destruct t as [|[|[|[|[|t]]]]]; cbn in Ht; [done|..]; simplify_eq; try done;
      (split_and!; [split; [done|cbn; lia]|done|done|split; done|done]).
  - intros t th Hne Ht. destruct t as [|[|[|[|[|t]]]]]; cbn in Ht; [done|..]; simplify_eq; try done; left; cbn; set_solver.
  - apply (bool_decide_eq_true_1 (NoDup _)). by vm_compute.
  - intros t Ht. cbn in *. set_unfold in Ht. lia.
Qed.

#[local] Abbreviation run_on setid can_fail := (drive (step 0 setid demo_handler can_fail)).

(** The caller goes on as far as it can; one thread ends while it is marked. *)
Definition schedule : list action :=
  [Caller Fine; Move 2 Start; Move 2 Wake; Clone 1 4; Move 4 Start; Move 4 Wake; Move 3 Exit; Move 3 Look; Move 3 Sleep;
   Deliver 1; Deliver 2; Deliver 3; Deliver 4; Handler 1; Handler 2; Handler 3; Handler 4].
Definition final : world := run_on demo_setid false schedule 300 boot.
Example final_returns : caller final = Ret 0.
Proof. by vm_compute. Qed.
Example final_ids : (λ th, (ph th, creds th)) <$> threads final =
  [(Running, 33); (Running, 33); (Running, 33); (Checking, 33); (Running, 33)].
Proof. by vm_compute. Qed.

Lemma nptl_setxid_everywhere_witness :
  reaches 0 demo_setid demo_handler false boot final ∧ caller final = Ret 0 ∧
  ∀ t th, threads final !! t = Some th → lives (ph th) = true → exiting (ph th) = false → creds th = 33.
Proof.
  pose proof (drive_reaches (step 0 demo_setid demo_handler false) schedule 300 boot) as Hr. split_and!; [exact Hr|exact final_returns|].
  apply (nptl_setxid_everywhere 0 demo_setid 1000 demo_handler demo_handler_ok boot final 0 boot_ready Hr final_returns).
Defined.

(** The user may not: every thread keeps its ids. *)
Definition refused : world := run_on refused_setid false schedule 300 boot.
Example refused_run : caller refused = Ret (-1) ∧ errno refused = 1 ∧ creds <$> threads refused = replicate 5 1000.
Proof. by vm_compute. Qed.
Lemma nptl_setxid_agrees_witness : aborted refused = false.
Proof.
  apply (nptl_setxid_agrees 0 refused_setid 1000 demo_handler demo_handler_ok boot refused boot_ready).
  apply drive_reaches.
Defined.

Lemma exiting_not_left_witness :
  ∃ th, threads final !! 3%nat = Some th ∧ ph th ≠ Asleep ∧ (ph th = Waiting → setxid_futex th = 1) ∧
    has (cancelhandling th) SETXID_BITMASK = false.
Proof.
  eexists. split; [by vm_compute|].
  apply (exiting_not_left 0 demo_setid 1000 demo_handler demo_handler_ok boot final 0 3); [exact boot_ready|
    apply drive_reaches|exact final_returns|done|by vm_compute].
Defined.

(** Before it has come far: the caller waits for the start of thread 2. *)
Definition begun : world := run_on demo_setid false [Caller Fine] 300 boot.
Lemma nptl_setxid_progress_witness :
  sleeps begun = Some (At_futex 2) ∧
  ∃ a w', due a = true ∧ step 0 demo_setid demo_handler false a begun = Some w'.
Proof.
  split; [by vm_compute|].
  apply (nptl_setxid_progress 0 demo_setid 1000 demo_handler demo_handler_ok boot begun boot_ready); [apply drive_reaches|].
  intros v. vm_compute. congruence.
Defined.

(** ** When the signal cannot be queued *)

(** a defect.  SIGSETXID is a real-time signal, and [tgkill] fails with EAGAIN when no
    more of these can be queued; the caller takes every failure for a thread that is not there, so
    that [__nptl_setxid] reports success while a thread goes on with the old ids. *)
Theorem nptl_setxid_misses :
  ∃ w th, reaches 0 demo_setid demo_handler true boot w ∧ caller w = Ret 0 ∧
    threads w !! 1%nat = Some th ∧ ph th = Running ∧ in_handler th = None ∧ signalled th = false ∧
    creds th = 1000 ∧ has (cancelhandling th) SETXID_BITMASK = false.
Proof.
  exists (run_on demo_setid true (Caller (Refuse 11) :: schedule) 300 boot). eexists.
  split; [apply drive_reaches|]. by vm_compute.
Qed.
