(* ===== verification/LookupScope.v ===== *)
(** Waiting for the lookups of symbols: [__wait_lookup_done] (allocatestack.c).

    A thread that looks up a symbol holds on to the global scope, and says so in its
    [gscope_flag].  Before a scope is given back, the linker waits until every lookup that was going on
    has ended; later ones see the new scope.  The other threads look up at any time;
    what entering and leaving a lookup do to the flag is the linker's, not in the source: a
    parameter with the protocol that the caller relies on. *)
From S2P Require Import Prelude ListHead Nptl Program.
#[local] Arguments Z.eqb : simpl never.

(** THREAD_GSCOPE_FLAG_UNUSED, _USED and _WAIT; how a lookup starts and ends: the new flag, and
    whether somebody is to be woken. *)
Class Gscope := {
  UNUSED : Z; USED : Z; WAIT : Z;
  enter : Z → Z; leave : Z → Z * bool;
}.
Class GscopeLaws `{Gscope} := {
  flags_distinct : NoDup [UNUSED; USED; WAIT];
  enter_law : enter UNUSED = USED;
  leave_law f : leave f = (UNUSED, bool_decide (f = WAIT));
}.

Inductive op : Type → Type :=
  | Lll_lock : op ()
  | Lll_unlock : op ()
  | Stack_used : op (list nat)
  | Stack_user : op (list nat)
  | Load_flag (t : nat) : op Z                   (* [t->header.gscope_flag] *)
  | Cas_flag (t : nat) (new old : Z) : op bool   (* false when exchanged *)
  | Wait_flag (t : nat) (v : Z) : op ().
#[local] Abbreviation prog := (prog op).

Section Lookup.
Context {GS : Gscope} (self : nat).

Definition wait_for (t : nat) : prog () :=
  f ← call (Load_flag t);
  if f =? UNUSED then mret ()
  else
    failed ← call (Cas_flag t WAIT USED);
    if failed : bool then mret ()
    else
      loop (call (Wait_flag t WAIT);;
            f ← call (Load_flag t);
            mret (if f =? WAIT then None else Some ())).

Definition wait_lookup_done : prog () :=
  call Lll_lock;;
  used ← call Stack_used;
  others self used wait_for;;
  user ← call Stack_user;
  others self user wait_for;;
  call Lll_unlock.

(** * The machine *)

(** Between lookups; in one; past the exchange that ends it, before the wake-up. *)
Inductive phase := Outside | Inside | Waking.

(** [lookups] counts those that were begun. *)
Record thread := mkThread { ph : phase; gscope_flag : Z; lookups : nat }.
#[export] Instance eta_thread : Eta thread := λ x, mkThread (ph x) (gscope_flag x) (lookups x).

(** The lists stay as they are as long as the caller has the lock. *)
Record world := mkWorld {
  threads : list thread; used : list nat; user : list nat;
  locked : bool; caller : prog (); sleeps : option nat;
}.
#[export] Instance eta_world : Eta world := λ w,
  mkWorld (threads w) (used w) (user w) (locked w) (caller w) (sleeps w).

Definition set_thread (t : nat) (th : thread) (w : world) : world := w <| threads := <[t := th]> (threads w) |>.
Definition at_thread {R} (t : nat) (w : world) (f : thread → option R) : option R := th ← threads w !! t; f th.

Definition exec {B} (o : op B) (w : world) : option (B * world) :=
  match o in op B return option (B * world) with
  | Lll_lock => if locked w then None else Some ((), w <| locked := true |>)
  | Lll_unlock => Some ((), w <| locked := false |>)
  | Stack_used => Some (used w, w)
  | Stack_user => Some (user w, w)
  | Load_flag t => at_thread t w (λ th, Some (gscope_flag th, w))
  | Cas_flag t new old => at_thread t w (λ th,
      if gscope_flag th =? old then Some (false, set_thread t (th <| gscope_flag := new |>) w)
      else Some (true, w))
  | Wait_flag t v => at_thread t w (λ th,
      Some ((), if gscope_flag th =? v then w <| sleeps := Some t |> else w))
  end.

Inductive action := Caller | Enter (t : nat) | Leave (t : nat) | Wake (t : nat) | Spurious.

Definition at_other {R} (t : nat) (w : world) (f : thread → option R) : option R :=
  if bool_decide (t = self) then None else at_thread t w f.

Definition step (a : action) (w : world) : option world :=
  match a with
  | Caller =>
      match sleeps w, caller w with
      | None, Act o k => '(b, w) ← exec o w; Some (w <| caller := k b |>)
      | None, Loop body k => Some (w <| caller := unroll body k |>)
      | _, _ => None
      end
  | Enter t => at_other t w (λ th,
      match ph th with
      | Outside => Some (set_thread t (mkThread Inside (enter (gscope_flag th)) (S (lookups th))) w)
      | _ => None
      end)
  | Leave t => at_other t w (λ th,
      match ph th with
      | Inside =>
          let '(f, wakes) := leave (gscope_flag th) in
          Some (set_thread t (mkThread (if wakes : bool then Waking else Outside) f (lookups th)) w)
      | _ => None
      end)
  | Wake t => at_other t w (λ th,
      match ph th with
      | Waking =>
          let w := set_thread t (th <| ph := Outside |>) w in
          Some (if decide (sleeps w = Some t) then w <| sleeps := None |> else w)
      | _ => None
      end)
  | Spurious => match sleeps w with Some _ => Some (w <| sleeps := None |>) | None => None end
  end.
Definition reaches : world → world → Prop := rtc (λ w w', ∃ a, step a w = Some w').
End Lookup.

(** * Rules *)

(** What the caller knows: [D] are the threads whose lookups are over; [t] is the one it works on. *)
Inductive stage := Visiting (D : gset nat) | Asking (D : gset nat) (t : nat) | Asked (D : gset nat) (t : nat).
Inductive role := Before | In (us ur : list nat) (st : stage) | After.

Section Rules.
Context {GS : Gscope} (self : nat).

Definition listed (us ur : list nat) (t : nat) : Prop := t ∈ us ++ ur ∧ t ≠ self.
Definition rule {B} (o : op B) (r : role) (K : B → role → Prop) : Prop :=
  match o in op B return (B → role → Prop) → Prop with
  | Lll_lock => λ K, r = Before ∧ ∀ us ur, NoDup (us ++ ur) → K () (In us ur (Visiting ∅))
  | Lll_unlock => λ K, match r with
      | In us ur (Visiting D) => (∀ t, listed us ur t → t ∈ D) ∧ K () After
      | _ => False
      end
  | Stack_used => λ K, match r with In us ur _ => K us r | _ => False end
  | Stack_user => λ K, match r with In us ur _ => K ur r | _ => False end
  | Load_flag t => λ K, match r with
      | In us ur (Visiting D) => listed us ur t ∧ K UNUSED (In us ur (Visiting ({[t]} ∪ D))) ∧
          ∀ f, f ≠ UNUSED → K f (In us ur (Asking D t))
      | In us ur (Asked D u) => u = t ∧ K WAIT r ∧ ∀ f, f ≠ WAIT → K f (In us ur (Visiting ({[t]} ∪ D)))
      | _ => False
      end
  | Cas_flag t new old => λ K, match r with
      | In us ur (Asking D u) => u = t ∧ new = WAIT ∧ old = USED ∧
          K true (In us ur (Visiting ({[t]} ∪ D))) ∧ K false (In us ur (Asked D t))
      | _ => False
      end
  | Wait_flag t v => λ K, match r with In us ur (Asked D u) => u = t ∧ v = WAIT ∧ K () r | _ => False end
  end K.

Lemma look_rule_mono B (o : op B) r (K K' : B → role → Prop) : (∀ b r, K b r → K' b r) → rule o r K → rule o r K'.
Proof. intros H. destruct o; cbn; try naive_solver; destruct r as [|us ur []|]; naive_solver. Qed.
Definition lsafe {A} : (A → role → Prop) → prog A → role → Prop := safe (@rule).

Lemma wait_for_safe us ur D t : UNUSED ≠ WAIT → listed us ur t →
  lsafe (λ _ r, r = In us ur (Visiting ({[t]} ∪ D))) (wait_for t) (In us ur (Visiting D)).
Proof.
  intros Hne Hl. unfold lsafe, wait_for. cbn. split_and!; [done|by rewrite Z.eqb_refl|].
  intros f Hf. destruct (Z.eqb_spec f UNUSED); [done|]. cbn. split_and!; [done..|].
  exists (λ r, r = In us ur (Asked D t)). split; [done|]. intros r ->. cbn. split_and!; [done..| |].
  - by rewrite Z.eqb_refl.
  - intros g Hg. by destruct (Z.eqb_spec g WAIT).
Qed.

Lemma wait_lookup_done_safe : UNUSED ≠ WAIT → lsafe (λ _ r, r = After) (wait_lookup_done self) Before.
Proof.
  intros Hne. unfold lsafe, wait_lookup_done. cbn. split; [done|]. intros us ur Hnd.
  pose proof (proj1 (NoDup_app _ _) Hnd) as (Hu & Hd & Hr).
  assert (Ho : ∀ ts D, NoDup ts → (∀ t, t ∈ ts → t ∈ us ++ ur ∧ t ∉ D) →
    lsafe (λ _ r, r = In us ur (Visiting (list_to_set ts ∖ {[self]} ∪ D))) (others self ts wait_for) (In us ur (Visiting D))).
  { intros ts D Hts Hin. apply (others_safe _ look_rule_mono self (λ D, In us ur (Visiting D))); [|done|naive_solver].
    intros t D' Ht Hn HS. apply wait_for_safe; [done|]. split; [by apply Hin|done]. }
  eapply (safe_bind _ look_rule_mono); [apply Ho; [done|set_solver]|]. intros _ r ->. cbn.
  eapply (safe_bind _ look_rule_mono); [apply Ho; [done|set_solver]|]. intros _ r ->. cbn.
  split; [|done]. intros t [Ht Hn]. set_solver.
Qed.
End Rules.

(** * The invariant *)

Lemma flags `{GL : GscopeLaws} : UNUSED ≠ USED ∧ UNUSED ≠ WAIT ∧ USED ≠ WAIT.
Proof. pose proof flags_distinct as N. repeat (apply NoDup_cons in N as [? N]). set_solver. Qed.

Section Invariant.
Context {GS : Gscope} {GL : GscopeLaws} (self : nat).
(** How many lookups each thread had begun at the start. *)
Context (base : nat → nat).

(** The lookup that was going on at the start is over. *)
Definition over (t : nat) (th : thread) : Prop := ph th ≠ Inside ∨ (base t < lookups th)%nat.
Record wf (t : nat) (th : thread) : Prop := {
  wf_flag : match ph th with Inside => gscope_flag th = USED ∨ gscope_flag th = WAIT | _ => gscope_flag th = UNUSED end;
  wf_base : (base t ≤ lookups th)%nat;
}.
Definition visited (D : gset nat) (t : nat) (th : thread) : Prop := (t ∈ D → over t th) ∧ gscope_flag th ≠ WAIT.
Definition fits (r : role) (t : nat) (th : thread) : Prop :=
  match r with
  | Before => gscope_flag th ≠ WAIT
  | In us ur (Visiting D | Asking D _) => visited D t th
  | In us ur (Asked D u) => if decide (t = u) then gscope_flag th = WAIT ∨ over t th else visited D t th
  | After => True
  end.
Definition thread_ok (r : role) (t : nat) (th : thread) : Prop := wf t th ∧ fits r t th.

Definition sleep_ok (r : role) (w : world) : Prop :=
  match sleeps w with
  | None => True
  | Some t => (∃ us ur D, r = In us ur (Asked D t)) ∧
      ∃ th, threads w !! t = Some th ∧ (gscope_flag th = WAIT ∨ ph th = Waking)
  end.
Definition stage_ok (r : role) (w : world) : Prop :=
  match r with
  | Before => locked w = false
  | In us ur st => used w = us ∧ user w = ur ∧
      match st with Visiting D => True | Asking D t | Asked D t => listed self us ur t end
  | After => locked w = false ∧
      ∀ t th, listed self (used w) (user w) t → threads w !! t = Some th → over t th
  end.
Record inv (r : role) (w : world) : Prop := {
  iv_threads t th : t ≠ self → threads w !! t = Some th → thread_ok r t th;
  iv_nodup : NoDup (used w ++ user w);
  iv_range t : t ∈ used w ++ user w → (t < length (threads w))%nat;
  iv_sleep : sleep_ok r w;
  iv_stage : stage_ok r w;
}.

(** The caller goes on, the threads stay. *)
Lemma look_inv_same r r' w w' :
  inv r w → threads w' = threads w → used w' = used w → user w' = user w → sleep_ok r' w' → stage_ok r' w' →
  (∀ t th, t ≠ self → threads w !! t = Some th → wf t th → fits r t th → fits r' t th) → inv r' w'.
Proof.
  intros [] Ht Hu Hus Hs Hst Hf. split; rewrite ?Ht, ?Hu, ?Hus; auto.
  intros t th Hne Hth. destruct (iv_threads0 t th Hne Hth) as [Hw Hfit]. split; auto.
Qed.

(** A thread changes. *)
Lemma look_inv_one r r' w t th th' :
  inv r w → t ≠ self → threads w !! t = Some th → thread_ok r' t th' →
  sleep_ok r' (set_thread t th' w) → stage_ok r' (set_thread t th' w) →
  (∀ u thu, u ≠ self → u ≠ t → fits r u thu → fits r' u thu) → inv r' (set_thread t th' w).
Proof.
  intros [Hth Hnd Hrg Hs Hst] Hne Ht Hok Hs' Hst' Hf. assert (Hlt := lookup_lt_Some _ _ _ Ht).
  split; try done.
  - intros u thu Hu H1. unfold set_thread in H1. rs in H1. destruct (decide (u = t)) as [->|Hut].
    + rewrite list_lookup_insert_eq in H1 by done. by simplify_eq.
    + rewrite list_lookup_insert_ne in H1 by done. destruct (Hth u thu Hu H1). split; auto.
  - intros u Hu. unfold set_thread. rs. rewrite length_insert. by apply Hrg.
Qed.

(** Another thread enters or leaves a lookup. *)
Lemma inv_lookup r w t th th' :
  inv r w → t ≠ self → threads w !! t = Some th → wf t th' → over t th' → gscope_flag th' ≠ WAIT →
  (sleeps w = Some t → ph th' = Waking) → inv r (set_thread t th' w).
Proof.
  intros Hi Hne Hth Hw Ho Hf Hsl. eapply (look_inv_one r r); try done.
  - split; [done|]. destruct r as [|us ur [D|D u|D u]|]; cbn; try done. case_decide; [by right|done].
  - pose proof (iv_sleep _ _ Hi) as Hs. unfold sleep_ok, set_thread in *. rs. destruct (sleeps w) as [u|]; [|done].
    destruct Hs as (Hst & thu & Hthu & Hor). split; [done|]. destruct (decide (u = t)) as [->|Hut].
    + exists th'. rewrite list_lookup_insert_eq by (by eapply lookup_lt_Some). split; [done|right; auto].
    + exists thu. by rewrite list_lookup_insert_ne.
  - pose proof (iv_stage _ _ Hi) as Hs. destruct r as [|us ur st|]; [done..|]. destruct Hs as [Hl Hs]. split; [done|].
    intros u thu Hu Hthu. unfold set_thread in Hthu. rs in Hthu. destruct (decide (u = t)) as [->|Hut].
    + rewrite list_lookup_insert_eq in Hthu by (by eapply lookup_lt_Some). by simplify_eq.
    + rewrite list_lookup_insert_ne in Hthu by done. by eapply Hs.
Qed.
Lemma look_inv_unsleep r w : inv r w → inv r (w <| sleeps := None |>).
Proof. intros Hi. eapply (look_inv_same r); try done. apply (iv_stage _ _ Hi). Qed.

(** The thread that the caller sleeps for. *)
Lemma sleeping_for r w t th : inv r w → sleeps w = Some t → threads w !! t = Some th →
  t ≠ self ∧ wf t th ∧ (gscope_flag th = WAIT ∨ ph th = Waking).
Proof.
  intros Hi Hs Hth. pose proof (iv_sleep _ _ Hi) as Hsl. unfold sleep_ok in Hsl. rewrite Hs in Hsl.
  destruct Hsl as ((us & ur & D & ->) & th1 & Hth1 & Hor). simplify_eq.
  pose proof (iv_stage _ _ Hi) as (_ & _ & [_ Hne]). destruct (iv_threads _ _ Hi _ _ Hne Hth). done.
Qed.

Lemma look_others_ok r w w' a : a ≠ Caller → inv r w → step self a w = Some w' → inv r w' ∧ caller w' = caller w.
Proof.
  destruct flags as (F1 & F2 & F3). intros Ha Hi H. destruct a as [|t|t|t|]; [done|..]; unfold step, at_other, at_thread in H.
  - case_bool_decide as Hne; [done|]. destruct (threads w !! t) as [th|] eqn:Hth; [|done]. cbn in H.
    destruct (iv_threads _ _ Hi _ _ Hne Hth) as [[Hf Hb] _]. destruct (ph th) eqn:Hp; simplify_eq. split; [|done].
    rewrite Hf, enter_law. apply (inv_lookup r w t th); try done.
    + split; cbn; [by left|lia].
    + right. cbn. lia.
    + intros Hs. destruct (sleeping_for _ _ _ _ Hi Hs Hth) as (_ & _ & [E|E]); congruence.
  - case_bool_decide as Hne; [done|]. destruct (threads w !! t) as [th|] eqn:Hth; [|done]. cbn in H.
    destruct (iv_threads _ _ Hi _ _ Hne Hth) as [[Hf Hb] _]. destruct (ph th) eqn:Hp; simplify_eq.
    rewrite leave_law in H. simplify_eq. split; [|done]. apply (inv_lookup r w t th); try done.
    + split; cbn; [by case_bool_decide|done].
    + left. cbn. by case_bool_decide.
    + intros Hs. destruct (sleeping_for _ _ _ _ Hi Hs Hth) as (_ & _ & [E|E]); [|congruence]. cbn. by rewrite bool_decide_true.
  - case_bool_decide as Hne; [done|]. destruct (threads w !! t) as [th|] eqn:Hth; [|done]. cbn in H.
    destruct (iv_threads _ _ Hi _ _ Hne Hth) as [[Hf Hb] _]. destruct (ph th) eqn:Hp; simplify_eq.
    assert (Hgo : ∀ w, inv r w → threads w !! t = Some th → sleeps w ≠ Some t → inv r (set_thread t (th <| ph := Outside |>) w)).
    { intros w1 Hi1 Hth1 Hs1. apply (inv_lookup r w1 t th); try done; [by left|rs; congruence]. }
    change (sleeps (set_thread t (th <| ph := Outside |>) w)) with (sleeps w). case_decide as Hs; split; try done.
    + change (inv r (set_thread t (th <| ph := Outside |>) (w <| sleeps := None |>))).
      apply Hgo; [by apply look_inv_unsleep|done|done].
    + by apply Hgo.
  - destruct (sleeps w); [|done]. simplify_eq. split; [by apply look_inv_unsleep|done].
Qed.
End Invariant.

(** * Every run *)

Section Runs.
Context {GS : Gscope} {GL : GscopeLaws} (self : nat) (base : nat → nat).
#[local] Abbreviation inv := (inv self base).
#[local] Abbreviation fits := (fits base).
#[local] Abbreviation over := (over base).

(** What the caller finds out about a thread. *)
Lemma inv_stage us ur st st' w t th :
  inv (In us ur st) w → sleeps w = None → listed self us ur t → threads w !! t = Some th →
  (∃ D, (st = Visiting D ∨ st = Asking D t ∨ st = Asked D t) ∧
     (st' = Visiting ({[t]} ∪ D) ∧ over t th ∧ gscope_flag th ≠ WAIT ∨ st' = Asking D t ∧ st = Visiting D)) →
  inv (In us ur st') w.
Proof.
  intros Hi Hs Hl Hth (D & Hst & Hst'). pose proof (iv_stage _ _ _ _ Hi) as (S1 & S2 & _).
  eapply (look_inv_same self base (In us ur st)); try done.
  - unfold sleep_ok. by rewrite Hs.
  - split_and!; [done..|]. by destruct Hst' as [[-> _]|[-> _]].
  - intros u thu Hu Hthu _ Hf. assert (Hv : u ≠ t → visited base D u thu).
    { intros Hut. destruct Hst as [->|[->| ->]]; cbn in Hf; try done. by rewrite decide_False in Hf. }
    destruct Hst' as [(-> & Ho & Hw)|[-> ->]]; [|exact Hf]. cbn. destruct (decide (u = t)) as [->|Hut].
    + simplify_eq. by split.
    + destruct (Hv Hut) as [V1 V2]. split; [|done]. set_solver.
Qed.

Lemma look_listed_thread us ur st w t : inv (In us ur st) w → listed self us ur t → ∃ th, threads w !! t = Some th.
Proof.
  intros Hi [Hin _]. pose proof (iv_stage _ _ _ _ Hi) as (<- & <- & _).
  apply lookup_lt_is_Some_2. by apply (iv_range _ _ _ _ Hi).
Qed.

(** A flag that is not in use, and one that no longer says to wait. *)
Lemma unused_over w r t th : inv r w → t ≠ self → threads w !! t = Some th → gscope_flag th = UNUSED → over t th.
Proof.
  intros Hi Hne Hth Hf. destruct flags as (F1 & F2 & _). left. intros Hp.
  destruct (iv_threads _ _ _ _ Hi _ _ Hne Hth) as [[Hw _] _]. rewrite Hp in Hw. destruct Hw; congruence.
Qed.

Lemma look_cexec_ok {B} r w w' (o : op B) b (K : B → role → Prop) :
  inv r w → sleeps w = None → rule self o r K → exec o w = Some (b, w') → ∃ r', inv r' w' ∧ K b r'.
Proof.
  intros Hi Hs HK He. destruct flags as (F1 & F2 & F3).
  destruct o as [| | | |t|t new old|t v]; cbn in HK, He; unfold at_thread in He.
  - destruct HK as [-> HK]. destruct (locked w) eqn:Hl; [done|]. simplify_eq. eexists. split; [|apply HK, (iv_nodup _ _ _ _ Hi)].
    eapply (look_inv_same self base Before); try done. unfold sleep_ok. rs. by rewrite Hs.
  - destruct r as [|us ur [D| |]|]; try done. destruct HK as [Hall HK]. simplify_eq. exists After. split; [|done].
    pose proof (iv_stage _ _ _ _ Hi) as (S1 & S2 & _).
    eapply (look_inv_same self base (In us ur (Visiting D))); try done; [unfold sleep_ok; rs; by rewrite Hs|].
    split; [done|]. intros t th Hl Hth. rs in Hl. rs in Hth. rewrite S1, S2 in Hl.
    destruct (iv_threads _ _ _ _ Hi _ _ (proj2 Hl) Hth) as [_ [Ho _]]. apply Ho, Hall, Hl.
  - destruct r as [|us ur st|]; try done. pose proof (iv_stage _ _ _ _ Hi) as (S1 & _). simplify_eq. eauto.
  - destruct r as [|us ur st|]; try done. pose proof (iv_stage _ _ _ _ Hi) as (_ & S1 & _). simplify_eq. eauto.
  - destruct r as [|us ur [D| |D u]|]; try done.
    + destruct HK as (Hl & K1 & K2). destruct (look_listed_thread _ _ _ _ _ Hi Hl) as [th Hth]. rewrite Hth in He. cbn in He. simplify_eq.
      destruct (decide (gscope_flag th = UNUSED)) as [E|E].
      * eexists. split; [|rewrite E; exact K1]. eapply inv_stage; [done..|]. exists D. split; [by left|]. left.
        split_and!; [done|eapply unused_over; try done; apply Hl|congruence].
      * eexists. split; [|by apply K2]. eapply inv_stage; [done..|]. exists D. split; [by left|by right].
    + destruct HK as (-> & K1 & K2). pose proof (iv_stage _ _ _ _ Hi) as (_ & _ & Hl).
      destruct (look_listed_thread _ _ _ _ _ Hi Hl) as [th Hth]. rewrite Hth in He. cbn in He. simplify_eq.
      destruct (decide (gscope_flag th = WAIT)) as [E|E]; [rewrite E; by eexists|]. eexists. split; [|by apply K2].
      eapply inv_stage; [done..|]. exists D. split; [by right; right|]. left. split_and!; [done| |done].
      destruct (iv_threads _ _ _ _ Hi _ _ (proj2 Hl) Hth) as [_ Hf]. cbn in Hf. rewrite decide_True in Hf by done. by destruct Hf.
  - destruct r as [|us ur [|D u|]|]; try done. destruct HK as (-> & -> & -> & K1 & K2).
    pose proof (iv_stage _ _ _ _ Hi) as (S1 & S2 & Hl). destruct (look_listed_thread _ _ _ _ _ Hi Hl) as [th Hth]. rewrite Hth in He. cbn in He.
    destruct (iv_threads _ _ _ _ Hi _ _ (proj2 Hl) Hth) as [[Hw Hb] Hf]. destruct (Z.eqb_spec (gscope_flag th) USED) as [E|E]; simplify_eq.
    + eexists. split; [|exact K2]. eapply look_inv_one; try done; [apply Hl| | |].
      * split; [|cbn; rewrite decide_True by done; by left]. split; [|done]. rs. destruct (ph th); [congruence|by right|congruence].
      * unfold sleep_ok, set_thread. rs. by rewrite Hs.
      * intros u thu _ Hut Hfu. cbn. by rewrite decide_False.
    + eexists. split; [|exact K1]. eapply inv_stage; [done..|]. exists D. split; [by right; left|]. left.
      destruct Hf as [_ Hf]. split_and!; [done| |done]. eapply unused_over; try done; [apply Hl|].
      destruct (ph th); [done|by destruct Hw|done].
  - destruct r as [|us ur [| |D u]|]; try done. destruct HK as (-> & -> & HK). pose proof (iv_stage _ _ _ _ Hi) as (S1 & S2 & Hl).
    destruct (look_listed_thread _ _ _ _ _ Hi Hl) as [th Hth]. rewrite Hth in He. cbn in He. eexists. split; [|by destruct b].
    destruct (Z.eqb_spec (gscope_flag th) WAIT) as [E|E]; simplify_eq; [|done].
    eapply look_inv_same; [exact Hi|done..| | |]; [|by apply (iv_stage _ _ _ _ Hi)|done]. unfold sleep_ok. rs. split; [eauto|]. exists th. auto.
Qed.

Definition invariant (w : world) : Prop := ∃ r, inv r w ∧ lsafe self (λ _ r, r = After) (caller w) r.

Lemma look_inv_caller r w p : inv r w → inv r (w <| caller := p |>).
Proof. intros Hi. eapply (look_inv_same self base r); try done; [apply (iv_sleep _ _ _ _ Hi)|apply (iv_stage _ _ _ _ Hi)]. Qed.

Lemma look_step_ok a w w' : invariant w → step self a w = Some w' → invariant w'.
Proof.
  intros (r & Hi & Hp) H. assert (Hd : a = Caller ∨ a ≠ Caller) by (destruct a; auto). destruct Hd as [->|Ha].
  - unfold step in H. destruct (sleeps w) eqn:Hs; [done|]. destruct (caller w) as [v|B o k|C body k]; [done| |].
    + destruct (exec o w) as [[b w1]|] eqn:E; [|done]. cbn in H. simplify_eq.
      destruct (look_cexec_ok _ _ _ _ _ _ Hi Hs Hp E) as (r' & Hi' & HK). exists r'. split; [by apply look_inv_caller|exact HK].
    + simplify_eq. exists r. split; [by apply look_inv_caller|]. by apply (safe_unroll _ (look_rule_mono self)).
  - destruct (look_others_ok _ _ _ _ _ _ Ha Hi H) as [Hi' Hc]. exists r. split; [done|]. by rewrite Hc.
Qed.
Lemma look_reaches_ok w w' : invariant w → reaches self w w' → invariant w'.
Proof. intros Hi H. induction H as [|w1 w2 w3 [a Ha] _ IH]; [done|]. apply IH. by eapply look_step_ok. Qed.
End Runs.

Section Theorems.
Context {GS : Gscope} {GL : GscopeLaws} (self : nat).

(** Nobody waits for a lookup. *)
Record ready (w : world) : Prop := {
  rd_caller : caller w = wait_lookup_done self;
  rd_free : locked w = false ∧ sleeps w = None;
  rd_flags t th : t ≠ self → threads w !! t = Some th →
    match ph th with Inside => gscope_flag th = USED | _ => gscope_flag th = UNUSED end;
  rd_nodup : NoDup (used w ++ user w);
  rd_range t : t ∈ used w ++ user w → (t < length (threads w))%nat;
}.
Definition begun (w : world) (t : nat) : nat := match threads w !! t with Some th => lookups th | None => 0 end.

Lemma look_ready_ok w : ready w → invariant self (begun w) w.
Proof.
  destruct flags as (F1 & F2 & F3). intros [Hc [H1 H2] Hf Hn Hr]. exists Before. split.
  - split; try done; [|unfold sleep_ok; by rewrite H2]. intros t th Hne Hth. specialize (Hf t th Hne Hth). split.
    + split; [destruct (ph th); auto|]. unfold begun. by rewrite Hth.
    + cbn. destruct (ph th); congruence.
  - rewrite Hc. by apply wait_lookup_done_safe.
Qed.

(** C20: when [__wait_lookup_done] returns, every lookup that another listed thread was in at the
    start is over: the thread is in none, or in one that began later. *)
Theorem lookups_over w0 w t th :
  ready w0 → reaches self w0 w → caller w = Ret () → t ∈ used w ++ user w → t ≠ self → threads w !! t = Some th →
  locked w = false ∧ (ph th ≠ Inside ∨ (begun w0 t < lookups th)%nat).
Proof.
  intros H0 Hr Hc Hin Hne Hth. destruct (look_reaches_ok self (begun w0) w0 w) as (r & Hi & Hp); [by apply look_ready_ok|done|].
  rewrite Hc in Hp. cbn in Hp. subst r. destruct (iv_stage _ _ _ _ Hi) as [Hl Ho]. split; [done|]. by apply (Ho t th).
Qed.

(** it waits only as long as a lookup lasts: until it has returned the caller can go on, or the
    thread it sleeps for is in a lookup, or about to wake it. *)
Theorem lookups_progress w0 w :
  ready w0 → reaches self w0 w → caller w ≠ Ret () →
  (∃ w', step self Caller w = Some w') ∨
  ∃ t, sleeps w = Some t ∧ ((∃ w', step self (Leave t) w = Some w') ∨ ∃ w', step self (Wake t) w = Some w').
Proof.
  intros H0 Hr Hc. destruct (look_reaches_ok self (begun w0) w0 w) as (r & Hi & Hp); [by apply look_ready_ok|done|].
  destruct (sleeps w) as [t|] eqn:Hs.
  - right. exists t. split; [done|]. pose proof (iv_sleep _ _ _ _ Hi) as Hsl. unfold sleep_ok in Hsl. rewrite Hs in Hsl.
    destruct Hsl as (_ & th & Hth & _). destruct (sleeping_for _ _ _ _ _ _ Hi Hs Hth) as (Hne & [Hw _] & Hor).
    destruct flags as (F1 & F2 & F3).
    unfold step, at_other, at_thread. rewrite bool_decide_false, Hth by done. cbn. destruct (ph th) eqn:Hph.
    + destruct Hor; congruence.
    + left. destruct (leave (gscope_flag th)). by eexists.
    + right. by eexists.
  - left. unfold step. rewrite Hs. destruct (caller w) as [[]|B o k|C body k]; [done| |by eexists].
    assert (Hd : ∃ bw, exec o w = Some bw).
    { cbn in Hp. destruct o as [| | | |t|t new old|t v]; cbn in Hp |- *; unfold at_thread; eauto.
      - destruct Hp as [-> _]. rewrite (iv_stage _ _ _ _ Hi). eauto.
      - destruct r as [|us ur st|]; try done. assert (Hl : listed self us ur t).
        { pose proof (iv_stage _ _ _ _ Hi) as (_ & _ & Hl). destruct st; [by destruct Hp|done|by destruct Hp as [-> _]]. }
        destruct (look_listed_thread _ _ _ _ _ _ _ Hi Hl) as [th Hth]. rewrite Hth. cbn. eauto.
      - destruct r as [|us ur [|D u|]|]; try done. destruct Hp as [-> _]. pose proof (iv_stage _ _ _ _ Hi) as (_ & _ & Hl).
        destruct (look_listed_thread _ _ _ _ _ _ _ Hi Hl) as [th Hth]. rewrite Hth. cbn. case_match; eauto.
      - destruct r as [|us ur [| |D u]|]; try done. destruct Hp as [-> _]. pose proof (iv_stage _ _ _ _ Hi) as (_ & _ & Hl).
        destruct (look_listed_thread _ _ _ _ _ _ _ Hi Hl) as [th Hth]. rewrite Hth. cbn. eauto. }
    destruct Hd as [[b w1] E]. rewrite E. by eexists.
Qed.
End Theorems.

(** * A run *)

Module DemoLookup.
#[local] Instance demo_gscope : Gscope :=
  {| UNUSED := 0; USED := 1; WAIT := 2; enter := λ _, 1; leave := λ f, (0, bool_decide (f = 2)) |}.
#[local] Instance demo_laws : GscopeLaws.
Proof. split; [apply (bool_decide_eq_true_1 (NoDup _)); by vm_compute|done|done]. Qed.

(** The caller; a thread in its third lookup; one in none. *)
Definition boot : world := mkWorld
  [mkThread Outside 0 0; mkThread Inside 1 3; mkThread Outside 0 5] [1]%nat [0; 2]%nat false (wait_lookup_done 0) None.
Lemma look_boot_ready : ready 0 boot.
Proof.
  split; try done.
  - intros t th Hne Ht. destruct t as [|[|[|t]]]; cbn in Ht; [done|..]; by simplify_eq.
  - apply (bool_decide_eq_true_1 (NoDup _)). by vm_compute.
  - intros t Ht. cbn in *. set_unfold in Ht. lia.
Qed.

(** The lookup is left only when the caller sleeps. *)
Definition asleep : world := drive (step 0) [Caller] 50 boot.
Definition final : world := drive (step 0) [Caller; Leave 1; Wake 1; Enter 1] 49 boot.

Lemma lookups_over_witness : locked final = false ∧ ∃ th, threads final !! 1%nat = Some th ∧
  (ph th ≠ Inside ∨ (3 < lookups th)%nat).
Proof.
  assert (Hr : reaches 0 boot final) by apply (drive_reaches (step 0) [Caller; Leave 1; Wake 1; Enter 1] 49 boot).
  assert (Hth : threads final !! 1%nat = Some (mkThread Inside 1 22)) by by vm_compute.
  destruct (lookups_over 0 boot final 1 (mkThread Inside 1 22) look_boot_ready Hr) as [Hl Ho];
    [by vm_compute|vm_compute; left|done|exact Hth|].
  split; [exact Hl|]. exists (mkThread Inside 1 22). split; [exact Hth|exact Ho].
Defined.

Lemma lookups_progress_witness :
  sleeps asleep = Some 1%nat ∧
  ((∃ w', step 0 Caller asleep = Some w') ∨
   ∃ t, sleeps asleep = Some t ∧ ((∃ w', step 0 (Leave t) asleep = Some w') ∨ ∃ w', step 0 (Wake t) asleep = Some w')).
Proof.
  split; [by vm_compute|].
  apply (lookups_progress 0 boot asleep look_boot_ready); [apply (drive_reaches (step 0) [Caller] 50 boot)|]. vm_compute. congruence.
Defined.

End DemoLookup.
