(* ===== verification/Bytes.v ===== *)
(** Memory as a function from addresses, and a run of bytes written into it. *)
From S2P Require Import Prelude.

Section Bytes.
Context {A : Type}.
Implicit Types (bs : list A) (m : Z → A).

Fixpoint write_bytes (a : Z) bs m : Z → A :=
  match bs with
  | [] => m
  | b :: bs => write_bytes (a + 1) bs (λ x, if x =? a then b else m x)
  end.

(** The bytes from [a] on are [bs]. *)
Definition bytes_at (a : Z) bs m : Prop := ∀ i b, bs !! i = Some b → m (a + Z.of_nat i) = b.

Lemma write_bytes_other a bs m x : ¬ (a ≤ x < a + Z.of_nat (length bs)) → write_bytes a bs m x = m x.
Proof.
  revert a m. induction bs as [|b bs IH]; intros a m H; [done|]. cbn [write_bytes length] in *. rewrite IH by lia.
  rewrite (proj2 (Z.eqb_neq x a)); [done|lia].
Qed.
Lemma write_bytes_at a bs m : bytes_at a bs (write_bytes a bs m).
Proof.
  revert a m. induction bs as [|b bs IH]; intros a m [|i] b' H; cbn [write_bytes] in *; [done..| |].
  - injection H as ->. rewrite write_bytes_other by lia. by rewrite Z.add_0_r, Z.eqb_refl.
  - replace (a + Z.of_nat (S i)) with (a + 1 + Z.of_nat i) by lia. by apply IH.
Qed.
Lemma write_bytes_app a bs bs' m :
  write_bytes (a + Z.of_nat (length bs)) bs' (write_bytes a bs m) = write_bytes a (bs ++ bs') m.
Proof.
  revert a m. induction bs as [|b bs IH]; intros a m; cbn [write_bytes length app]; [by rewrite Z.add_0_r|].
  rewrite <- IH. f_equal. lia.
Qed.

Lemma bytes_at_app a bs bs' m : bytes_at a (bs ++ bs') m → bytes_at a bs m ∧ bytes_at (a + Z.of_nat (length bs)) bs' m.
Proof.
  intros H. split; intros i b Hi.
  - apply H. rewrite lookup_app_l; [done|]. by eapply lookup_lt_Some.
  - replace (a + Z.of_nat (length bs) + Z.of_nat i) with (a + Z.of_nat (length bs + i)) by lia. apply H.
    rewrite lookup_app_r by lia. by replace (length bs + i - length bs)%nat with i by lia.
Qed.
(** What was written before and lies elsewhere is still there. *)
Lemma bytes_at_write a bs a' bs' m :
  bytes_at a bs m → a + Z.of_nat (length bs) ≤ a' ∨ a' + Z.of_nat (length bs') ≤ a →
  bytes_at a bs (write_bytes a' bs' m).
Proof.
  intros H Hd i b Hi. pose proof (lookup_lt_Some _ _ _ Hi). rewrite write_bytes_other by lia. by apply H.
Qed.
End Bytes.
