(* ===== verification/StaticTls.v ===== *)
(** Thread-local storage of a library loaded late: [__pthread_init_static_tls] and
    [init_one_static_tls] (allocatestack.c).

    Every thread has a static TLS area next to its descriptor; when a library gets a part of it at
    run time, the part is filled in for all threads. *)
From S2P Require Import Prelude Bytes.

(** What the linker knows of the library.  A size is a [size_t]. *)
Record link_map := mkMap { l_tls_offset : Z; l_tls_initimage : list Z; l_tls_blocksize : Z }.

Record tls_state := mkTls {
  memory : Z → Z;                                (* bytes *)
  stack_used : list Z; stack_user : list Z;      (* the descriptors of the threads *)
  locked : bool;
}.
#[export] Instance eta_tls : Eta tls_state := λ s, mkTls (memory s) (stack_used s) (stack_user s) (locked s).
Implicit Types s : tls_state.

(** Where static TLS is: below the thread pointer, or above it and what precedes the data. *)
Class TlsLayout := { TLS_TCB_AT_TP : bool; TLS_PRE_TCB_SIZE : Z }.

Definition mempcpy (dest : Z) (src : list Z) : M tls_state Z :=
  modify (λ s, s <| memory := write_bytes dest src (memory s) |>);; mret (dest + Z.of_nat (length src)).
(** A count below zero is a huge one. *)
Definition memset (dest c n : Z) : M tls_state () :=
  if n <? 0 then stop_with Fault
  else modify (λ s, s <| memory := write_bytes dest (replicate (Z.to_nat n) c) (memory s) |>).

Section Tls.
Context {TL : TlsLayout}.

Definition tls_dest (curp : Z) (map : link_map) : Z :=
  if TLS_TCB_AT_TP then curp - l_tls_offset map else curp + l_tls_offset map + TLS_PRE_TCB_SIZE.
Definition init_one_static_tls (map : link_map) (curp : Z) : M tls_state () :=
  end_of_image ← mempcpy (tls_dest curp map) (l_tls_initimage map);
  memset end_of_image 0 (l_tls_blocksize map - Z.of_nat (length (l_tls_initimage map))).

Definition lll_lock : M tls_state () :=
  b ← gets locked; if b : bool then stop_with Blocked else modify (λ s, s <| locked := true |>).
Definition lll_unlock : M tls_state () := modify (λ s, s <| locked := false |>).

Definition pthread_init_static_tls (map : link_map) : M tls_state () :=
  lll_lock;;
  used ← gets stack_used;
  mfor used (init_one_static_tls map);;
  user ← gets stack_user;
  mfor user (init_one_static_tls map);;
  lll_unlock.

(** * What it fills in *)

(** The image, and zeros up to the size of the block. *)
Definition tls_block (map : link_map) : list Z :=
  l_tls_initimage map ++ replicate (Z.to_nat (l_tls_blocksize map - Z.of_nat (length (l_tls_initimage map)))) 0.
Definition map_ok (map : link_map) : Prop := Z.of_nat (length (l_tls_initimage map)) ≤ l_tls_blocksize map.
Lemma tls_block_length map : map_ok map → Z.of_nat (length (tls_block map)) = l_tls_blocksize map.
Proof. unfold map_ok. intros H. unfold tls_block. rewrite length_app, length_replicate. lia. Qed.

Definition in_block (map : link_map) (curp x : Z) : Prop :=
  tls_dest curp map ≤ x < tls_dest curp map + l_tls_blocksize map.
(** The threads in [ts] have the block; the rest of the memory is as in [m]. *)
Definition filled (map : link_map) (ts : list Z) (m m' : Z → Z) : Prop :=
  (∀ t, t ∈ ts → bytes_at (tls_dest t map) (tls_block map) m') ∧
  ∀ x, (∀ t, t ∈ ts → ¬ in_block map t x) → m' x = m x.

Lemma filled_one map ts t m m' :
  map_ok map → filled map ts m m' → (∀ u x, u ∈ ts → in_block map u x → in_block map t x → False) →
  filled map (ts ++ [t]) m (write_bytes (tls_dest t map) (tls_block map) m').
Proof.
  intros Hok [H1 H2] Hd. pose proof (tls_block_length map Hok) as Hlen. split.
  - intros u [Hu| ->%list_elem_of_singleton]%elem_of_app; [|apply write_bytes_at].
    intros i c Hi. pose proof (lookup_lt_Some _ _ _ Hi). rewrite write_bytes_other; [by apply H1|]. rewrite Hlen. intros Hin.
    apply (Hd u (tls_dest u map + Z.of_nat i)); [done|unfold in_block; lia|exact Hin].
  - intros x Hx. rewrite write_bytes_other.
    + apply H2. intros u Hu. apply Hx. set_solver.
    + rewrite Hlen. apply Hx. set_solver.
Qed.

Lemma wp_init_one map t (Q : () → tls_state → Prop) s : map_ok map →
  Q () (s <| memory := write_bytes (tls_dest t map) (tls_block map) (memory s) |>) →
  wp (init_one_static_tls map t) Q s.
Proof.
  intros Hok HQ. unfold map_ok in Hok. unfold init_one_static_tls, mempcpy, memset. wp_step. wp_step. apply wp_modify. apply wp_ret.
  destruct (Z.ltb_spec (l_tls_blocksize map - Z.of_nat (length (l_tls_initimage map))) 0); [lia|].
  apply wp_modify. rs. rewrite write_bytes_app. exact HQ.
Qed.

(** Blocks of different threads do not overlap. *)
Definition apart (map : link_map) (ts : list Z) : Prop :=
  NoDup ts ∧ ∀ t u x, t ∈ ts → u ∈ ts → in_block map t x → in_block map u x → t = u.

Lemma wp_init_list map m0 pre ts post (Q : () → tls_state → Prop) s :
  map_ok map → apart map (pre ++ ts ++ post) → filled map pre m0 (memory s) →
  (∀ m, filled map (pre ++ ts) m0 m → Q () (s <| memory := m |>)) →
  wp (mfor ts (init_one_static_tls map)) Q s.
Proof.
  intros Hok. revert pre s. induction ts as [|t ts IH]; intros pre s Hap Hf HQ; cbn [mfor].
  - apply wp_ret. rewrite app_nil_r in HQ. specialize (HQ _ Hf). by destruct s.
  - wp_step. apply wp_init_one; [done|]. apply (IH (pre ++ [t])).
    + by rewrite <- app_assoc.
    + rs. apply filled_one; [done|done|]. intros u x Hu H1 H2. destruct Hap as [Hnd Hd].
      assert (u = t) as -> by (apply (Hd u t x); set_solver). apply NoDup_app in Hnd as (_ & Hnd & _). apply (Hnd t Hu). set_solver.
    + intros m Hm. rewrite <- app_assoc in Hm. exact (HQ m Hm).
Qed.

(** C21: [__pthread_init_static_tls] gives every thread on either list the image of the library,
    followed by zeros, and changes no other byte; the lists and the lock are as before. *)
Theorem init_static_tls_fills map s :
  locked s = false → map_ok map → apart map (stack_used s ++ stack_user s) →
  wp (pthread_init_static_tls map) (λ _ s', ∃ m,
    filled map (stack_used s ++ stack_user s) (memory s) m ∧ s' = s <| memory := m |>) s.
Proof.
  intros Hl Hok Hap. unfold pthread_init_static_tls, lll_lock, lll_unlock. wp_step. wp_step. apply wp_gets. rewrite Hl.
  apply wp_modify. wp_step. apply wp_gets. wp_step.
  apply (wp_init_list map (memory s) [] _ (stack_user s)); [done|done|by split; [set_solver|]|]. intros m1 H1.
  wp_step. apply wp_gets. wp_step.
  apply (wp_init_list map (memory s) (stack_used s) _ []); [done|by rewrite app_nil_r|exact H1|]. intros m2 H2.
  apply wp_modify. exists m2. split; [exact H2|]. destruct s. cbn in Hl. by subst.
Qed.
End Tls.

Module DemoTls.
#[local] Instance demo_layout : TlsLayout := {| TLS_TCB_AT_TP := true; TLS_PRE_TCB_SIZE := 0 |}.
Definition demo_map : link_map := mkMap 16 [7; 8] 4.
Definition boot : tls_state := mkTls (λ _, 255) [1000; 2000] [3000] false.

Lemma init_static_tls_fills_witness :
  wp (pthread_init_static_tls demo_map) (λ _ s', ∃ m,
    filled demo_map [1000; 2000; 3000] (λ _, 255) m ∧ s' = boot <| memory := m |>) boot.
Proof.
  apply (init_static_tls_fills demo_map boot); [done|unfold map_ok; cbn; lia|]. split.
  - apply (bool_decide_eq_true_1 (NoDup _)). by vm_compute.
  - intros t u x Ht Hu. unfold in_block, tls_dest. cbn [TLS_TCB_AT_TP demo_layout l_tls_offset demo_map l_tls_blocksize].
    intros H1 H2. cbn in Ht, Hu. set_unfold in Ht. set_unfold in Hu. lia.
Defined.
Example demo_bytes :
  match pthread_init_static_tls demo_map boot with
  | Done _ s => memory s <$> [1983; 1984; 1985; 1986; 1987; 1988] = [255; 7; 8; 0; 0; 255]
  | _ => False
  end.
Proof. by vm_compute. Qed.
End DemoTls.
