(* ===== verification/Launch.v ===== *)
(** Starting a command: [CreateProcess] and [CreateProcess_ex] (StartProcess/code/main.c, and
    Schedule/code/main.c, where the new process also gets a priority).

    Both ignore SIGINT and SIGQUIT and block SIGCHLD while they wait for the child.  The
    first gives the command to a shell; the second takes it apart itself: words, variables
    and the redirection of the output.

    A process is its signals, descriptors, scheduling and children.  [c_io] lists how
    the coming calls fail ([None] is a success, and so is everything past its end), [c_sig] the same for
    the calls on signals; the child runs on a copy of the process up to its [exec] or its end. *)
From S2P Require Import Prelude Nptl Unix LibcSystem.
#[local] Open Scope Z_scope.

Inductive policy := SCHED_OTHER | SCHED_FIFO.
Record sched := mkSched { s_policy : policy; s_priority : Z; s_nice : Z }.

(** What a new program starts with. *)
Record program := mkProgram {
  pg_file : str; pg_argv : list str;
  pg_on : both handler; pg_mask : gset Z; pg_fds : gmap Z file; pg_sched : sched;
}.
(** What a child came to. *)
Inductive ending := Became (pg : program) | Quit (code : Z) | Crashed.

Record launcher := mkLauncher {
  c_on : both sigaction; c_mask : gset Z; c_errno : Z; c_fds : fdtable; c_sched : sched;
  c_sig : list (option Z); c_io : list (option Z);
  c_next : Z; c_kids : list Z; c_fates : gmap Z ending;
  c_became : option program; c_code : Z;
}.
#[export] Instance eta_launcher : Eta launcher := λ s, mkLauncher
  (c_on s) (c_mask s) (c_errno s) (c_fds s) (c_sched s) (c_sig s) (c_io s) (c_next s) (c_kids s)
  (c_fates s) (c_became s) (c_code s).
Implicit Types s : launcher.

(** The environment's variables; the file a name opens; whether a program can be executed, found on the search
    path or not; the status a program ends with, if it ends; what a variable that was not
    initialised holds. *)
Class LaunchSystem := {
  getenv : str → option str;
  sys_file : str → Z;
  sys_launch : program → option Z;
  sys_ends : program → option Z;
  some_action : sigaction; some_mask : gset Z;
}.
(** A status is not below zero. *)
Class LaunchLaws `{!LaunchSystem} := ends_nonneg pg st : sys_ends pg = Some st → 0 ≤ st.

(** * The calls *)

Definition next_fails (sel : launcher → list (option Z)) (set : list (option Z) → launcher → launcher) :
    M launcher bool := λ s,
  match sel s with
  | [] => Done false s
  | None :: io => Done false (set io s)
  | Some e :: io => Done true (set io s <| c_errno := e |>)
  end.
Definition fails : M launcher bool := next_fails c_io (λ io s, s <| c_io := io |>).
Definition sig_fails : M launcher bool := next_fails c_sig (λ io s, s <| c_sig := io |>).

Section Calls.
Context `{LaunchSystem}.

(** 0 and the action before, or -1. *)
Definition set_action (sig : signal) (act : sigaction) : M launcher (Z * sigaction) :=
  b ← sig_fails;
  if b : bool then mret (-1, some_action)
  else
    old ← gets (λ s, of_sig (c_on s) sig);
    modify (λ s, s <| c_on := set_sig (c_on s) sig act |>);;
    mret (0, old).
Definition set_procmask (f : gset Z → gset Z) : M launcher (Z * gset Z) :=
  b ← sig_fails;
  if b : bool then mret (-1, some_mask)
  else
    old ← gets c_mask;
    modify (λ s, s <| c_mask := f old |>);;
    mret (0, old).

Definition open_write (path : str) : M launcher Z :=
  b ← fails;
  if b : bool then mret (-1)
  else
    fd ← gets (λ s, lowest_free (c_fds s));
    modify (λ s, s <| c_fds := <[fd := (Other (sys_file path), false)]> (c_fds s) |>);;
    mret fd.
Definition dup_onto (fd1 fd2 : Z) : M launcher () :=
  t ← gets c_fds;
  match t !! fd1 with
  | None => modify (λ s, s <| c_errno := EBADF |>)
  | Some (f, _) =>
      b ← fails;
      when (negb b && negb (fd1 =? fd2)) (modify (λ s, s <| c_fds := <[fd2 := (f, false)]> (c_fds s) |>))
  end.
Definition close_fd (fd : Z) : M launcher () := modify (λ s, s <| c_fds := delete fd (c_fds s) |>).

Definition sched_getparam : M launcher bool := b ← fails; mret (negb b).
(** A real-time priority is from 1 to 99. *)
Definition sched_setscheduler (p : policy) (prio : Z) : M launcher () :=
  b ← fails;
  let ok := match p with SCHED_OTHER => prio =? 0 | SCHED_FIFO => (1 <=? prio) && (prio <=? 99) end in
  when (negb b && ok) (modify (λ s, s <| c_sched := mkSched p prio (s_nice (c_sched s)) |>)).
(** A nice value is brought into the range from -20 to 19. *)
Definition setpriority (value : Z) : M launcher () :=
  b ← fails;
  when (negb b) (modify (λ s, s <| c_sched :=
    mkSched (s_policy (c_sched s)) (s_priority (c_sched s)) ((-20) `max` (value `min` 19)) |>)).

(** Handlers do not outlive an [exec], ignored signals stay ignored. *)
Definition inherited (a : sigaction) : handler :=
  match sa_handler a with Handler _ => SIG_DFL | h => h end.
Definition program_in (s : launcher) (file : str) (argv : list str) : program :=
  mkProgram file argv (mkBoth (inherited (on_int (c_on s))) (inherited (on_quit (c_on s)))) (c_mask s)
    (exec_fds (c_fds s)) (c_sched s).
(** It returns only when it fails. *)
Definition exec_program (file : str) (argv : list str) : M launcher () :=
  pg ← gets (λ s, program_in s file argv);
  match sys_launch pg with
  | None => modify (λ s, s <| c_became := Some pg |>);; stop_with Replaced
  | Some e => modify (λ s, s <| c_errno := e |>)
  end.
Definition exit_with {A} (code : Z) : M launcher A :=
  modify (λ s, s <| c_code := code |>);; stop_with Exited.

Definition fate_of (w : stop) (c : launcher) : ending :=
  match w, c_became c with
  | Replaced, Some pg => Became pg
  | Exited, _ => Quit (c_code c)
  | _, _ => Crashed
  end.
Definition fork_run (pid : Z) (child : M launcher ()) : M launcher Z := λ s,
  match child (s <| c_kids := [] |> <| c_became := None |>) with
  | Stop w c => Done pid (s <| c_io := c_io c |> <| c_sig := c_sig c |> <| c_next := pid + 1 |>
                            <| c_kids := pid :: c_kids s |> <| c_fates := <[pid := fate_of w c]> (c_fates s) |>)
  | Done _ c => Stop Fault c
  end.
(** -1, or the process of the child. *)
Definition fork_process (child : M launcher ()) : M launcher Z :=
  b ← fails;
  if b : bool then mret (-1) else pid ← gets c_next; fork_run pid child.

Definition status_of (f : ending) : option Z :=
  match f with Became pg => sys_ends pg | Quit code => Some (code `mod` 256 * 256) | Crashed => Some 11 end.
(** The status of the child, [None] when the call fails. *)
Definition wait_process (pid : Z) : M launcher (option Z) :=
  b ← fails;
  if b : bool then mret None
  else
    kids ← gets c_kids;
    if bool_decide (pid ∈ kids) then
      fates ← gets c_fates;
      st ← from_option_or Blocked (fates !! pid ≫= status_of);
      modify (λ s, s <| c_kids := filter (.≠ pid) (c_kids s) |>);;
      mret (Some st)
    else modify (λ s, s <| c_errno := ECHILD |>);; mret None.
End Calls.

(** * Taking a command apart *)

(** [std::string::npos], and [find]. *)
Definition npos : Z := W64 - 1.
Definition find_char (c : ascii) (command : str) (pos : Z) : Z :=
  match list_find (.= c) (drop (Z.to_nat pos) command) with
  | Some (i, _) => pos + Z.of_nat i
  | None => npos
  end.
Definition substr (command : str) (pos n : Z) : str := take (Z.to_nat n) (drop (Z.to_nat pos) command).

(** Every round gets past a space, or is the last. *)
Fixpoint split_loop (fuel : nat) (command : str) (pos : Z) (cmd_elems : list str) : list str :=
  match fuel with
  | O => cmd_elems
  | S fuel =>
      let len := Z.of_nat (length command) in
      if pos <? len then
        let find_pos := to_int (find_char " " command pos) in
        if find_pos <? 0 then cmd_elems ++ [substr command pos (len - pos)]
        else split_loop fuel command (find_pos + 1) (cmd_elems ++ [substr command pos (find_pos - pos)])
      else cmd_elems
  end.
Definition split_words (command : str) : list str := split_loop (S (length command)) command 0 [].

(** [s[i]], where the character at the end is the terminating zero. *)
Definition char_at (e : str) (i : nat) : ascii := default zero (e !! i).
(** [erase (pos)]: to the end. *)
Definition erase_from (pos : nat) (e : str) : str := take pos e.

(** The name of the variable a word stands for. *)
Definition variable (e : str) : option str :=
  if bool_decide (char_at e 0 = "$"%char) && (2 <=? length e)%nat then
    let e := drop 1 e in
    Some (if bool_decide (char_at e 1 = "{"%char) && bool_decide (char_at e (length e - 1) = "}"%char)
          then let e := erase_from 1 e in erase_from (length e - 1) e
          else e)
  else None.
Definition is_redirection (e : str) : bool := bool_decide (char_at e 0 = ">"%char) && (length e =? 1)%nat.

Definition PROCESS_MAX_PARAMS := 32.
(** [char *args[PROCESS_MAX_PARAMS + 3]]: the entries written so far, some of them NULL. *)
Abbreviation args_array := (gmap Z (option str)).
Definition store_arg (j : Z) (v : option str) (args : args_array) : M launcher args_array :=
  if (0 <=? j) && (j <? PROCESS_MAX_PARAMS + 3) then mret (<[j := v]> args) else stop_with Fault.
(** The arguments from [args + j] up to the NULL. *)
Fixpoint argv_from (fuel : nat) (j : Z) (args : args_array) : option (list str) :=
  match fuel with
  | O => None
  | S fuel =>
      match args !! j with
      | Some (Some e) => cons e <$> argv_from fuel (j + 1) args
      | Some None => Some []
      | None => None
      end
  end.

Section Functions.
Context `{LaunchSystem}.
(** [NO_WAIT] *)
Context (no_wait : bool).

(** A word with its variable replaced; [None] leaves the word out. *)
Definition substitute (e : str) : option str :=
  match variable e with Some name => getenv name | None => Some e end.

Definition redirect_to (path : str) : M launcher () :=
  fd ← open_write path;
  dup_onto fd 1;;
  close_fd fd.

(** The loop over the words after the first. *)
Fixpoint args_loop (elems : list str) (j : Z) (redirection : bool) (args : args_array) :
    M launcher (Z * args_array) :=
  match elems with
  | [] => mret (j, args)
  | e :: elems =>
      match substitute e with
      | None => args_loop elems j redirection args
      | Some e =>
          if redirection then redirect_to e;; args_loop elems j false args
          else if is_redirection e then args_loop elems j true args
          else args ← store_arg j (Some e) args; args_loop elems (j + 1) redirection args
      end
  end.

Definition SIGABRT := 6.

Inductive PRIO_TYPE := FIFO | NICE.
Record PRIORITY := mkPriority { type : PRIO_TYPE; value : Z }.

Definition set_priority (priority : PRIORITY) : M launcher () :=
  ok ← sched_getparam;
  when ok
    match type priority with
    | NICE => sched_setscheduler SCHED_OTHER 0;; setpriority (value priority)
    | FIFO => sched_setscheduler SCHED_FIFO (value priority)
    end.

(** The child; only one of the two programs has a priority. *)
Definition child_ex (priority : option PRIORITY) (cmdstring : str) (saveintr savequit : sigaction)
    (save_mask : gset Z) : M launcher () :=
  let cmd_elems := split_words cmdstring in
  command ← from_option_or Fault (head cmd_elems);
  args ← store_arg 1 (Some command) ∅;
  args ← store_arg 0 (Some command) args;
  '(j, args) ← args_loop (tail cmd_elems) 2 false args;
  args ← store_arg j None args;
  set_action SIGINT saveintr;;
  set_action SIGQUIT savequit;;
  match priority with Some p => set_priority p | None => mret () end;;
  set_procmask (λ _, save_mask);;
  argv ← from_option_or Fault (argv_from (Z.to_nat (PROCESS_MAX_PARAMS + 3)) 1 args);
  file ← from_option_or Fault (head argv);
  exec_program file argv;;
  exit_with SIGABRT.

(** [while (waitpid (...) < 0) if (errno != EINTR) { status = -1; break; }]  Every failure takes an
    answer, so that the loop is over after as many rounds as there are. *)
Fixpoint wait_loop (fuel : nat) (pid : Z) : M launcher Z :=
  match fuel with
  | O => stop_with Blocked
  | S fuel =>
      r ← wait_process pid;
      match r with
      | Some status => mret status
      | None => e ← gets c_errno; if e =? LibcSystem.EINTR then wait_loop fuel pid else mret (-1)
      end
  end.
Definition wait_child (pid : Z) : M launcher Z :=
  n ← gets (λ s, length (c_io s)); wait_loop (S n) pid.

(** From the [fork] on; 0 is the [status] a variable starts with. *)
Definition status_of_child (child : M launcher ()) : M launcher Z :=
  pid ← fork_process child;
  if pid <? 0 then mret (-1) else if no_wait then mret 0 else wait_child pid.

Definition put_back (saveintr savequit : sigaction) (savemask : gset Z) (status : Z) : M launcher Z :=
  '(r, _) ← set_action SIGINT saveintr;
  if r <? 0 then mret (-1) else
  '(r, _) ← set_action SIGQUIT savequit;
  if r <? 0 then mret (-1) else
  '(r, _) ← set_procmask (λ _, savemask);
  if r <? 0 then mret (-1) else
  mret (if status =? -1 then -1 else 0).

Definition SH_PATH := lit "/bin/sh".
Definition shell_child (cmdstring : str) (saveintr savequit : sigaction) (savemask : gset Z) : M launcher () :=
  set_action SIGINT saveintr;;
  set_action SIGQUIT savequit;;
  set_procmask (λ _, savemask);;
  exec_program SH_PATH [lit "sh"; lit "-c"; cmdstring];;
  exit_with 127.

Definition CreateProcess (cmdstring : option str) : M launcher Z :=
  match cmdstring with
  | None => mret 1
  | Some cmdstring =>
      '(r, saveintr) ← set_action SIGINT ignoring;
      if r <? 0 then mret (-1) else
      '(r, savequit) ← set_action SIGQUIT ignoring;
      if r <? 0 then mret (-1) else
      '(r, savemask) ← set_procmask (λ old, {[LibcSystem.SIGCHLD]} ∪ old);
      if r <? 0 then mret (-1) else
      status ← status_of_child (shell_child cmdstring saveintr savequit savemask);
      put_back saveintr savequit savemask status
  end.

(** [ignore] is not initialised. *)
Definition CreateProcess_with (priority : option PRIORITY) (cmdstring : str) : M launcher Z :=
  '(_, saveintr) ← set_action SIGINT some_action;
  '(_, savequit) ← set_action SIGQUIT some_action;
  '(_, save_mask) ← set_procmask (λ old, {[LibcSystem.SIGCHLD]} ∪ old);
  status ← status_of_child (child_ex priority cmdstring saveintr savequit save_mask);
  put_back saveintr savequit save_mask status.
Definition CreateProcess_ex (cmdstring : str) : M launcher Z := CreateProcess_with None cmdstring.
Definition CreateProcess_ex_priority (cmdstring : str) (priority : PRIORITY) : M launcher Z :=
  CreateProcess_with (Some priority) cmdstring.
End Functions.

(** * What the words are *)

Definition no_space (w : str) : Prop := " "%char ∉ w.
(** Every word with the space that ends it. *)
Definition unwords (ws : list str) : str := mjoin ((λ w, w ++ [" "%char]) <$> ws).
(** A command with the space after its last word. *)
Definition closed (command : str) : str :=
  if decide (default " "%char (last command) = " "%char) then command else command ++ [" "%char].

Lemma closed_cons w rest : no_space w → closed (w ++ " "%char :: rest) = (w ++ [" "%char]) ++ closed rest.
Proof.
  intros Hw. unfold closed. rewrite last_app_cons, last_cons.
  destruct (last rest) as [c|] eqn:E; cbn [default from_option id].
  - destruct (decide (c = " "%char)) as [H|H]; by rewrite <- !app_assoc.
  - apply last_None in E as ->. cbn [id default from_option last]. by rewrite !decide_True, app_nil_r by done.
Qed.
Lemma closed_last w : no_space w → w ≠ [] → closed w = w ++ [" "%char].
Proof.
  intros Hw Hne. unfold closed. destruct (last w) as [c|] eqn:E; [|by apply last_None in E].
  cbn. destruct (decide (c = " "%char)) as [->|]; [|done]. exfalso. apply Hw. apply list_elem_of_lookup.
  rewrite last_lookup in E. eauto.
Qed.
Lemma unwords_cons w ws : unwords (w :: ws) = (w ++ [" "%char]) ++ unwords ws.
Proof. done. Qed.

Lemma to_int_small x : 0 ≤ x < 2147483648 → to_int x = x.
Proof. intros H. unfold to_int. rewrite Z.mod_small; lia. Qed.

Lemma split_loop_exact command fuel pos elems :
  Z.of_nat (length command) < 2147483648 → 0 ≤ pos ≤ Z.of_nat (length command) →
  Z.of_nat (length command) - pos < Z.of_nat fuel →
  ∃ ws, split_loop fuel command pos elems = elems ++ ws ∧ Forall no_space ws ∧
    unwords ws = closed (drop (Z.to_nat pos) command).
Proof.
  intros Hlen. revert pos elems. induction fuel as [|fuel IH]; intros pos elems Hpos Hfuel; [lia|]. cbn [split_loop].
  set (rest := drop (Z.to_nat pos) command). assert (Hr : Z.of_nat (length rest) = Z.of_nat (length command) - pos).
  { unfold rest. rewrite length_drop. lia. }
  destruct (Z.ltb_spec pos (Z.of_nat (length command))) as [Hlt|Hge].
  2:{ exists []. rewrite app_nil_r. destruct rest; [done|cbn in Hr; lia]. }
  unfold find_char. fold rest. destruct (list_find (.= " "%char) rest) as [[i x]|] eqn:E.
  - apply list_find_Some in E as (Hi & -> & Hb). pose proof (lookup_lt_Some _ _ _ Hi) as Hil.
    rewrite to_int_small by lia. destruct (Z.ltb_spec (pos + Z.of_nat i) 0); [lia|].
    destruct (IH (pos + Z.of_nat i + 1) (elems ++ [take i rest])) as (ws & Hws & Hn & Hu); [lia..|].
    assert (Hw : no_space (take i rest)).
    { intros (j & Hj)%list_elem_of_lookup. apply lookup_take_Some in Hj as [Hj Hji]. by apply (Hb j _ Hj Hji). }
    exists (take i rest :: ws). split_and!.
    + unfold substr. fold rest. replace (Z.to_nat (pos + Z.of_nat i - pos)) with i by lia. rewrite <- app_assoc in Hws. exact Hws.
    + by constructor.
    + rewrite unwords_cons, Hu, <- closed_cons by done. rewrite <- (take_drop_middle rest i " "%char Hi) at 2. do 3 f_equal.
      unfold rest. rewrite drop_drop. f_equal. lia.
  - apply list_find_None in E. change (to_int npos) with (-1). cbn [Z.ltb Z.compare].
    assert (Hw : no_space rest) by (intros Hin; rewrite Forall_forall in E; by apply (E _ Hin)).
    exists [rest]. split_and!.
    + unfold substr. fold rest. rewrite take_ge by lia. done.
    + by repeat constructor.
    + rewrite unwords_cons, closed_last; [by rewrite app_nil_r|done|]. intros ->. cbn in Hr. lia.
Qed.

Lemma unwords_inj ws ws' : Forall no_space ws → Forall no_space ws' → unwords ws = unwords ws' → ws = ws'.
Proof.
  intros H. revert ws'. induction H as [|w ws Hw H IH]; intros [|w' ws'] H' E; try done.
  - rewrite unwords_cons in E. by destruct w'.
  - rewrite unwords_cons in E. by destruct w.
  - inversion_clear H' as [|? ? Hw' H'']. rewrite !unwords_cons, <- !app_assoc in E.
    assert (w = w' ∧ unwords ws = unwords ws') as [-> Ht]; [|f_equal; by apply IH].
    clear IH H H''. revert w' Hw' E. induction w as [|c w IHw]; intros [|c' w'] Hw' E; cbn in E; simplify_eq.
    + done.
    + exfalso. apply Hw'. by left.
    + exfalso. apply Hw. by left.
    + destruct (IHw (λ h, Hw (list_elem_of_further _ _ _ h)) w' (λ h, Hw' (list_elem_of_further _ _ _ h))) as [-> ?]; done.
Qed.

Lemma split_words_words command : Z.of_nat (length command) < 2147483648 →
  Forall no_space (split_words command) ∧ unwords (split_words command) = closed command.
Proof.
  intros Hlen. destruct (split_loop_exact command (S (length command)) 0 [] Hlen ltac:(lia) ltac:(lia)) as (ws & E & Hn & Hu).
  unfold split_words. rewrite E. done.
Qed.

(** C32: the loop over the command ends and finds its words: the only list of words without a space
    that, each with one space behind it, are the command (with a space after its last word). *)
Theorem split_words_exact command ws : Z.of_nat (length command) < 2147483648 → Forall no_space ws →
  split_words command = ws ↔ unwords ws = closed command.
Proof.
  intros Hlen Hn. destruct (split_words_words command Hlen) as [Hs Hu]. split; [by intros <-|].
  intros E. apply unwords_inj; [done|done|]. by rewrite Hu, E.
Qed.
Lemma split_words_exact_witness :
  split_words (lit "ls -l  /tmp ") = lit <$> ["ls"; "-l"; ""; "/tmp"]%string.
Proof.
  apply (split_words_exact (lit "ls -l  /tmp ") (lit <$> ["ls"; "-l"; ""; "/tmp"]%string)); [done| |by vm_compute].
  apply (bool_decide_eq_true_1 (Forall no_space _)). by vm_compute.
Defined.

(** * What happens to the process *)

Section Specs.
Context `{Sys : LaunchSystem} {Laws : LaunchLaws} (no_wait : bool).

Lemma wp_fails (Q : bool → launcher → Prop) s :
  (∀ io, (c_io s = [] → io = []) → (length io ≤ length (c_io s))%nat → Q false (s <| c_io := io |>)) →
  (∀ io e, c_io s ≠ [] → (length io < length (c_io s))%nat → Q true (s <| c_io := io |> <| c_errno := e |>)) →
  wp fails Q s.
Proof.
  intros Hf Ht. unfold wp, fails, next_fails. destruct s as [? ? ? ? ? ? io ? ? ? ? ?]. cbn in *.
  destruct io as [|[e|] io]; [apply (Hf [])|apply (Ht io e)|apply (Hf io)]; cbn; try done; lia.
Qed.
Lemma wp_set_action sig act (Q : Z * sigaction → launcher → Prop) s : c_sig s = [] →
  Q (0, of_sig (c_on s) sig) (s <| c_on := set_sig (c_on s) sig act |>) → wp (set_action sig act) Q s.
Proof. intros E HQ. unfold wp, set_action, sig_fails, next_fails, mbind, M_bind. by rewrite E. Qed.
Lemma wp_set_procmask f (Q : Z * gset Z → launcher → Prop) s : c_sig s = [] →
  Q (0, c_mask s) (s <| c_mask := f (c_mask s) |>) → wp (set_procmask f) Q s.
Proof. intros E HQ. unfold wp, set_procmask, sig_fails, next_fails, mbind, M_bind. by rewrite E. Qed.

(** ** The redirections *)

(** All but the descriptors, the errors and the answers. *)
Definition rest s := (c_on s, c_mask s, c_sched s, c_sig s, c_next s, c_kids s, c_fates s, c_became s).
Definition file_open (path : str) : option (file * bool) := Some (Other (sys_file path), false).
(** The output goes to one of the files or where it went before; to the last of the files when no call fails.
    The other descriptors are as they were. *)
Record redirected (files : list str) (s s' : launcher) : Prop := {
  re_rest : rest s' = rest s;
  re_other fd : fd ≠ 1 → c_fds s' !! fd = c_fds s !! fd;
  re_out : c_fds s' !! 1 = c_fds s !! 1 ∨ ∃ f, f ∈ files ∧ c_fds s' !! 1 = file_open f;
  re_last : c_io s = [] → c_io s' = [] ∧
    c_fds s' !! 1 = match last files with Some f => file_open f | None => c_fds s !! 1 end;
}.
Definition std_fds s : Prop := is_Some (c_fds s !! 1) ∧ c_fds s !! (-1) = None.

Lemma redirected_nil s : redirected [] s s.
Proof. split; auto. Qed.
Lemma redirected_trans fs gs s s1 s2 : redirected fs s s1 → redirected gs s1 s2 → redirected (fs ++ gs) s s2.
Proof.
  intros [Ha Hb Hc Hd] [Ha' Hb' Hc' Hd']. split.
  - by rewrite Ha'.
  - intros fd Hfd. rewrite Hb', Hb; done.
  - destruct Hc' as [->|(f & Hf & ->)]; [|right; exists f; set_solver].
    destruct Hc as [->|(f & Hf & ->)]; [by left|right; exists f; set_solver].
  - intros Hio. destruct (Hd Hio) as [Hio1 E1]. destruct (Hd' Hio1) as [Hio2 E2]. split; [done|].
    rewrite E2, last_app. by destruct (last gs).
Qed.
Lemma redirected_std fs s s' : redirected fs s s' → std_fds s → std_fds s'.
Proof.
  intros [_ Hb Hc _] [H1 H2]. split; [|by rewrite Hb].
  destruct Hc as [->|(f & _ & ->)]; [done|by eexists].
Qed.

Lemma wp_redirect_to e s : std_fds s → wp (redirect_to e) (λ _ s', redirected [e] s s') s.
Proof.
  intros [Hout Hneg]. destruct (lowest_free_spec (c_fds s)) as (Hpos & Hnew & _).
  assert (Hne : lowest_free (c_fds s) ≠ 1) by (intros E; rewrite E in Hnew; by destruct Hout as [? ?]; congruence).
  unfold redirect_to, open_write, dup_onto, close_fd. wp_step. wp_step. apply wp_fails.
  - intros io Hio _. wp_go. rs. wp_go. rs. rewrite lookup_insert_eq. wp_step. apply wp_fails.
    + intros io' Hio' _. rs. rewrite (proj2 (Z.eqb_neq _ _) Hne). cbn [negb andb]. wp_go. rs. split; rs.
      * done.
      * intros fd Hfd. destruct (decide (fd = lowest_free (c_fds s))) as [->|]; [by rewrite lookup_delete_eq|].
        by rewrite lookup_delete_ne, !lookup_insert_ne by done.
      * right. exists e. split; [set_solver|]. by rewrite lookup_delete_ne, lookup_insert_eq by done.
      * intros E. split; [by auto|]. by rewrite lookup_delete_ne, lookup_insert_eq by done.
    + intros io' e' Hio' _. cbn [negb andb]. wp_go. rs. rewrite delete_insert_id by done. split; rs; auto.
      intros E. rs. by specialize (Hio E).
  - intros io e' Hio _. wp_go. rs. rewrite Hneg. wp_go. rs. split; rs; try done.
    + intros fd Hfd. destruct (decide (fd = -1)) as [->|]; [by rewrite lookup_delete_eq|by rewrite lookup_delete_ne].
    + left. by rewrite lookup_delete_ne.
Qed.

Definition calm s s' : Prop := rest s' = rest s ∧ (c_io s = [] → c_io s' = []).
Lemma redirected_calm fs s s' : redirected fs s s' → calm s s'.
Proof. intros [Ha _ _ Hd]. split; [done|]. intros E. by destruct (Hd E). Qed.
Lemma calm_trans s s1 s2 : calm s s1 → calm s1 s2 → calm s s2.
Proof. intros [H1 H2] [H1' H2']. split; [congruence|auto]. Qed.

(** ** The arguments *)

(** What the words come to: the arguments, and the files the output is redirected to. *)
Fixpoint arguments (redirection : bool) (ws : list str) : list str * list str :=
  match ws with
  | [] => ([], [])
  | e :: ws =>
      match substitute e with
      | None => arguments redirection ws
      | Some e =>
          if redirection then let '(xs, fs) := arguments false ws in (xs, e :: fs)
          else if is_redirection e then arguments true ws
          else let '(xs, fs) := arguments false ws in (e :: xs, fs)
      end
  end.
Definition holds (args : args_array) (j : Z) (xs : list str) : Prop :=
  ∀ i x, xs !! i = Some x → args !! (j + Z.of_nat i) = Some (Some x).
(** The loop ended in [s'] with the arguments [xs] from [j] on, or was about to write past the array. *)
Definition loop_post (j : Z) (xs fs : list str) (args : args_array) s (r : Z * args_array) s' : Prop :=
  r.1 = j + Z.of_nat (length xs) ∧ r.1 ≤ 35 ∧ holds r.2 j xs ∧ (∀ k, k < j → r.2 !! k = args !! k) ∧ redirected fs s s'.

Lemma wpx_args_loop ws j b args s : 0 ≤ j ≤ 35 → std_fds s →
  let '(xs, fs) := arguments b ws in
  wpx (args_loop ws j b args) (loop_post j xs fs args s) (λ w c, w = Fault ∧ 35 < j + Z.of_nat (length xs) ∧ calm s c) s.
Proof.
  revert j b args s. induction ws as [|e ws IH]; intros j b args s Hj Hstd; cbn [arguments args_loop].
  - unfold loop_post, holds. cbn. split_and!; [lia..|done|done|apply redirected_nil].
  - destruct (substitute e) as [e'|]; [|by apply IH]. destruct b; [|destruct (is_redirection e')].
    + specialize (IH j false args). destruct (arguments false ws) as [xs fs]. apply wpx_bind, wpx_wp.
      eapply wp_mono; [by apply wp_redirect_to|]. intros [] s1 Hs1.
      eapply wpx_mono; [apply IH; [done|by eapply redirected_std]| |].
      2:{ intros w s2 (-> & Hlt & Hc). split_and!; [done..|]. eapply calm_trans; [by eapply redirected_calm|done]. }
      intros [j1 args1] s2 (H1 & H2 & H3 & H4 & H5). split_and!; try done. by apply (redirected_trans [e'] fs _ s1).
    + by apply IH.
    + specialize (IH (j + 1) false (<[j:=Some e']> args) s). destruct (arguments false ws) as [xs fs].
      apply wpx_bind. unfold store_arg, PROCESS_MAX_PARAMS. destruct (Z.ltb_spec j (32 + 3)), (Z.leb_spec 0 j); try lia; cbn [andb].
      2:{ cbn. split_and!; [done| |done..]. cbn [length]. lia. }
      apply wpx_ret. eapply wpx_mono; [apply IH; [lia|done]| |].
      * intros [j' args'] s2 (H1 & H2 & H3 & H4 & H5). cbn [fst snd] in *. unfold loop_post, holds. cbn [fst snd length].
        split_and!; [lia|lia| | |done].
        { intros [|i] x Hx; cbn in Hx.
          - injection Hx as ->. rewrite Z.add_0_r, H4 by lia. apply lookup_insert_eq.
          - replace (j + Z.of_nat (S i)) with (j + 1 + Z.of_nat i) by lia. by apply H3. }
        { intros k Hk. rewrite H4 by lia. rewrite lookup_insert_ne by lia. done. }
      * intros w s2 (-> & Hlt & Hc). split_and!; [done| |done]. cbn [length]. lia.
Qed.

Lemma argv_from_holds fuel j args xs :
  holds args j xs → args !! (j + Z.of_nat (length xs)) = Some None → (length xs < fuel)%nat →
  argv_from fuel j args = Some xs.
Proof.
  revert j xs. induction fuel as [|fuel IH]; intros j xs Hx Hn Hf; [lia|]. cbn [argv_from]. destruct xs as [|x xs].
  - cbn in Hn. rewrite Z.add_0_r in Hn. by rewrite Hn.
  - pose proof (Hx 0%nat x eq_refl) as Hj. rewrite Z.add_0_r in Hj. rewrite Hj, (IH (j + 1) xs); [done| |cbn in Hn|cbn in Hf; lia].
    + intros i y Hi. replace (j + 1 + Z.of_nat i) with (j + Z.of_nat (S i)) by lia. by apply Hx.
    + rewrite <- Hn. f_equal. lia.
Qed.

(** ** The child *)

Definition prioritised (priority : option PRIORITY) (sch : sched) : sched :=
  match priority with
  | None => sch
  | Some p =>
      match type p with
      | NICE => mkSched SCHED_OTHER 0 ((-20) `max` (value p `min` 19))
      | FIFO => if (1 <=? value p) && (value p <=? 99) then mkSched SCHED_FIFO (value p) (s_nice sch) else sch
      end
  end.

(** The calls on the scheduling of the process do what they are meant to, or some of it. *)
Definition scheduled (goal : sched → sched) s s' : Prop :=
  ∃ io e sch, s' = s <| c_io := io |> <| c_errno := e |> <| c_sched := sch |> ∧
    (c_io s = [] → io = [] ∧ sch = goal (c_sched s)).
Lemma scheduled_refl s : scheduled id s s.
Proof. exists (c_io s), (c_errno s), (c_sched s). split; [by destruct s|done]. Qed.
Lemma scheduled_trans g h s s1 s2 : scheduled g s s1 → scheduled h s1 s2 → scheduled (λ x, h (g x)) s s2.
Proof.
  intros (io & e & sch & -> & H) (io' & e' & sch' & -> & H'). exists io', e', sch'. split; [done|]. rs.
  intros E. destruct (H E) as [-> ->]. by apply H'.
Qed.
(** A call that changes the scheduling unless it fails. *)
Lemma wp_sched_call (b0 : bool) (g : sched → sched) s :
  wp (b ← fails; when (negb b && b0) (modify (λ s, s <| c_sched := g (c_sched s) |>)))
    (λ _ s', scheduled (λ x, if b0 then g x else x) s s') s.
Proof.
  wp_step. apply wp_fails.
  - intros io Hio _. cbn [negb andb]. destruct b0; wp_go.
    + exists io, (c_errno s), (g (c_sched s)). rs. split; [by destruct s|auto].
    + exists io, (c_errno s), (c_sched s). rs. split; [by destruct s|auto].
  - intros io e Hio _. cbn [negb andb]. wp_go. exists io, e, (c_sched s). rs. split; [by destruct s|done].
Qed.
Lemma wp_set_priority p s : wp (set_priority p) (λ _ s', scheduled (prioritised (Some p)) s s') s.
Proof.
  unfold set_priority, sched_getparam. wp_step. wp_step. apply wp_fails.
  2:{ intros io e Hio _. cbn [negb]. wp_go. exists io, e, (c_sched s). split; [by destruct s|done]. }
  intros io Hio _. cbn [negb]. wp_step. cbn [negb when].
  assert (H0 : scheduled id s (s <| c_io := io |>)).
  { exists io, (c_errno s), (c_sched s). split; [by destruct s|]. intros E. by rewrite (Hio E). }
  unfold prioritised. destruct (type p).
  - unfold sched_setscheduler.
    eapply wp_mono; [apply (wp_sched_call _ (λ x, mkSched SCHED_FIFO (value p) (s_nice x)))|].
    intros [] s1 H1. by apply (scheduled_trans _ _ _ _ _ H0).
  - wp_step. unfold sched_setscheduler, setpriority.
    eapply wp_mono; [apply (wp_sched_call (0 =? 0) (λ x, mkSched SCHED_OTHER 0 (s_nice x)))|]. intros [] s1 H1.
    cbn [Z.eqb] in H1. pose proof (scheduled_trans _ _ _ _ _ H0 H1) as H2.
    assert (H3 : wp (setpriority (value p)) (λ _ s',
                   scheduled (λ x, mkSched (s_policy x) (s_priority x) ((-20) `max` (value p `min` 19))) s1 s') s1).
    { pose proof (wp_sched_call true (λ x, mkSched (s_policy x) (s_priority x) ((-20) `max` (value p `min` 19))) s1) as H3.
      unfold setpriority. unfold wp, mbind, M_bind in H3 |- *. destruct (fails s1) as [[] ?|]; exact H3. }
    eapply wp_mono; [exact H3|]. intros [] s2 H4. exact (scheduled_trans _ _ _ _ _ H2 H4).
Qed.

(** The program that is to run, in terms of the process that asked for it. *)
Record launches (priority : option PRIORITY) (w0 : str) (xs fs : list str) s (pg : program) : Prop := {
  la_file : pg_file pg = w0;
  la_argv : pg_argv pg = w0 :: xs;
  la_on : pg_on pg = mkBoth (inherited (on_int (c_on s))) (inherited (on_quit (c_on s)));
  la_mask : pg_mask pg = c_mask s;
  la_other fd : fd ≠ 1 → pg_fds pg !! fd = exec_fds (c_fds s) !! fd;
  la_out : pg_fds pg !! 1 = exec_fds (c_fds s) !! 1 ∨ ∃ f, f ∈ fs ∧ pg_fds pg !! 1 = Some (Other (sys_file f));
  la_sched : priority = None → pg_sched pg = c_sched s;
  la_exact : c_io s = [] →
    pg_fds pg !! 1 = match last fs with Some f => Some (Other (sys_file f)) | None => exec_fds (c_fds s) !! 1 end ∧
    pg_sched pg = prioritised priority (c_sched s);
}.
Definition becomes (code : Z) (pg : program) : ending :=
  match sys_launch pg with None => Became pg | Some _ => Quit code end.
(** What a child comes to with the [i]th of [n] arguments past the end of the array, or with room for all of them. *)
Definition child_fate priority w0 xs fs s (f : ending) : Prop :=
  if (length xs <=? 32)%nat then ∃ pg, launches priority w0 xs fs s pg ∧ f = becomes SIGABRT pg else f = Crashed.

Lemma wpx_exec file argv code s (E : stop → launcher → Prop) :
  (∀ w c, fate_of w c = becomes code (program_in s file argv) → c_io c = c_io s → c_sig c = c_sig s → E w c) →
  wpx (exec_program file argv;; exit_with (A := ()) code) (λ _ _, False) E s.
Proof.
  intros HE. unfold exec_program, exit_with. apply wpx_bind. wpx_step. wpx_step.
  destruct (sys_launch (program_in s file argv)) as [e|] eqn:El; wpx_go.
  - apply HE; [|done..]. unfold fate_of, becomes. rs. by rewrite El.
  - apply HE; [|done..]. unfold fate_of, becomes. rs. by rewrite El.
Qed.

Lemma wpx_child_ex priority cmd w0 ws a q m s :
  let '(xs, fs) := arguments false ws in
  split_words cmd = w0 :: ws → c_sig s = [] → std_fds s →
  wpx (child_ex priority cmd a q m) (λ _ _, False)
    (λ w c, child_fate priority w0 xs fs (s <| c_on := mkBoth a q |> <| c_mask := m |>) (fate_of w c) ∧
            c_sig c = [] ∧ (c_io s = [] → c_io c = [])) s.
Proof.
  destruct (arguments false ws) as [xs fs] eqn:Ea. intros Hw Hsig Hstd. unfold child_ex. rewrite Hw. cbn [head tail from_option_or].
  do 3 (apply wpx_bind, wpx_ret). apply wpx_bind.
  pose proof (wpx_args_loop ws 2 false (<[0:=Some w0]> (<[1:=Some w0]> ∅)) s ltac:(lia) Hstd) as Hl. rewrite Ea in Hl.
  eapply wpx_mono; [exact Hl| |].
  2:{ intros w c (-> & Hlt & Hr & Hc). unfold rest in Hr. simplify_eq. split_and!; [|congruence|done].
      unfold child_fate. destruct (Nat.leb_spec (length xs) 32); [lia|done]. }
  intros [j args] s1 (Hj & _ & Hx & Hold & Hre). cbn [fst snd] in *. subst j.
  destruct (redirected_calm _ _ _ Hre) as [Hrest Hio]. unfold rest in Hrest. injection Hrest as Ho Hm Hsc Hsg Hn Hk Hfa Hb.
  apply wpx_bind. unfold store_arg, PROCESS_MAX_PARAMS.
  destruct (Z.leb_spec 0 (2 + Z.of_nat (length xs))); [|lia]. cbn [andb].
  destruct (Z.ltb_spec (2 + Z.of_nat (length xs)) (32 + 3)) as [Hlt|Hge].
  2:{ apply wpx_stop. split_and!; [|congruence|done]. unfold child_fate. destruct (Nat.leb_spec (length xs) 32); [lia|done]. }
  apply wpx_ret. apply wpx_bind, wpx_wp, wp_set_action; [congruence|]. apply wpx_bind, wpx_wp, wp_set_action; [rs; congruence|].
  apply wpx_bind, wpx_wp. rs.
  set (s2 := s1 <| c_on := set_sig (set_sig (c_on s1) SIGINT a) SIGQUIT q |>).
  assert (Hp : wp (match priority with Some p => set_priority p | None => mret () end)
                 (λ _ s', scheduled (prioritised priority) s2 s' ∧ (priority = None → c_sched s' = c_sched s2)) s2).
  { destruct priority as [p|]; [|apply wp_ret; split; [apply scheduled_refl|done]].
    eapply wp_mono; [apply wp_set_priority|]. by intros [] s3 H3. }
  eapply wp_mono; [exact Hp|]. intros [] s3 [(io & e & sch & -> & Hs) Hnone].
  apply wpx_bind, wpx_wp, wp_set_procmask; [subst s2; rs; congruence|]. rs.
  assert (Hargv : argv_from (Z.to_nat (32 + 3)) 1 (<[2 + Z.of_nat (length xs):=None]> args) = Some (w0 :: xs)).
  { apply argv_from_holds; [| |cbn [length]; lia].
    - intros [|i] x Hi; cbn in Hi.
      + injection Hi as <-. rewrite lookup_insert_ne by lia. rewrite Hold by lia.
        by rewrite Z.add_0_r, lookup_insert_ne, lookup_insert_eq by lia.
      + rewrite lookup_insert_ne by (apply lookup_lt_Some in Hi; lia).
        replace (1 + Z.of_nat (S i)) with (2 + Z.of_nat i) by lia. by apply Hx.
    - cbn [length]. replace (1 + Z.of_nat (S (length xs))) with (2 + Z.of_nat (length xs)) by lia. apply lookup_insert_eq. }
  rewrite Hargv. cbn [from_option_or head]. do 2 (apply wpx_bind, wpx_ret). apply wpx_exec. intros w c Hf Hcio Hcsig.
  split_and!; [|rewrite Hcsig; subst s2; rs; congruence|].
  - unfold child_fate. destruct (Nat.leb_spec (length xs) 32); [|lia]. eexists. split; [|exact Hf].
    destruct Hre as [_ Hoth Hout Hlast]. subst s2.
    split; unfold program_in; rs; cbn [pg_fds pg_sched]; try done.
    + intros fd Hfd. rewrite !exec_fds_lookup, Hoth; done.
    + rewrite !exec_fds_lookup. destruct Hout as [->|(f & Hin & ->)]; [by left|right; by exists f].
    + intros ->. rewrite <- Hsc. by apply Hnone.
    + intros E. destruct (Hlast E) as [E1 E2]. destruct (Hs E1) as [_ ->]. rs. rewrite !exec_fds_lookup, E2, Hsc. split; [|done].
      by destruct (last fs).
  - intros E. rewrite Hcio. rs. apply Hs. apply Hio, E.
Qed.

(** ** The parent *)

Lemma both_eta {A} (b : both A) : mkBoth (on_int b) (on_quit b) = b.
Proof. by destruct b. Qed.

Lemma status_nonneg f st : status_of f = Some st → 0 ≤ st.
Proof.
  destruct f as [pg|code|]; cbn; [apply Laws|intros [= <-]|by intros [= <-]].
  pose proof (Z.mod_pos_bound code 256). lia.
Qed.

Lemma wp_wait_loop fuel pid st s :
  pid ∈ c_kids s → c_fates s !! pid ≫= status_of = Some st → (length (c_io s) < fuel)%nat →
  wp (wait_loop fuel pid) (λ r s', ∃ io e,
    r = st ∧ s' = s <| c_io := io |> <| c_errno := e |> <| c_kids := filter (.≠ pid) (c_kids s) |> ∨
    r = -1 ∧ c_io s ≠ [] ∧ s' = s <| c_io := io |> <| c_errno := e |>) s.
Proof.
  revert s. induction fuel as [|fuel IH]; intros s Hk Hst Hf; [lia|]. cbn [wait_loop]. unfold wait_process.
  wp_step. wp_step. apply wp_fails.
  - intros io _ _. do 2 wp_step. rs. rewrite bool_decide_true by done. wp_go. rs. rewrite Hst. apply wp_ret. wp_go. rs.
    exists io, (c_errno s). left. split; [done|]. by destruct s.
  - intros io e Hne Hlt. wp_go; rs.
    + eapply wp_mono; [apply IH; [done|done|rs; lia]|]. intros r s' (io' & e' & [[-> ->]|(-> & _ & ->)]); exists io', e'; [left|right];
        (split_and!; [done|try done..]).
    + exists io, e. right. done.
Qed.

(** After the [fork], in [s'], with the status [r]. *)
Definition forked (P : ending → Prop) s (r : Z) s' : Prop :=
  c_on s' = c_on s ∧ c_mask s' = c_mask s ∧ c_fds s' = c_fds s ∧ c_sched s' = c_sched s ∧ c_sig s' = [] ∧
  (r = -1 ∧ c_io s ≠ [] ∧ c_kids s' = c_kids s ∧ c_fates s' = c_fates s ∨
   ∃ f, P f ∧ c_fates s' = <[c_next s := f]> (c_fates s) ∧
     (0 ≤ r ∧ c_kids s' = (if no_wait then [c_next s] else []) ++ c_kids s ∨
      r = -1 ∧ no_wait = false ∧ c_io s ≠ [] ∧ c_kids s' = c_next s :: c_kids s)).

(** No call on signals fails; the next process is not a child already. *)
Record ready s : Prop := {
  rd_sig : c_sig s = []; rd_next : 0 < c_next s; rd_new : c_next s ∉ c_kids s; rd_std : std_fds s;
}.
Hypothesis ends : no_wait = false → ∀ pg, is_Some (sys_ends pg).

Lemma fate_status f : no_wait = false → is_Some (status_of f).
Proof using ends. intros Hw. destruct f as [pg|code|]; cbn; [by apply ends|by eexists..]. Qed.

Lemma wp_status_of_child child (P : ending → Prop) s : ready s →
  (∀ io, (c_io s = [] → io = []) →
     wpx child (λ _ _, False) (λ w c, P (fate_of w c) ∧ c_sig c = [] ∧ (io = [] → c_io c = []))
       (s <| c_io := io |> <| c_kids := [] |> <| c_became := None |>)) →
  wp (status_of_child no_wait child) (forked P s) s.
Proof using Laws ends.
  intros [Hsig Hnext Hnew Hstd] Hchild. unfold status_of_child, fork_process. wp_step. wp_step. apply wp_fails.
  2:{ intros io e Hne _. apply wp_ret. apply (wp_ret (-1)). unfold forked. rs. split_and!; try done. left. done. }
  intros io Hio _. wp_step. wp_step. unfold wp at 1. unfold fork_run. specialize (Hchild io Hio). unfold wpx in Hchild.
  destruct (child _) as [|w c]; [done|]. destruct Hchild as (HP & Hcs & Hcio). rs.
  destruct (Z.ltb_spec (c_next s) 0); [lia|]. destruct (decide (no_wait = true)) as [Hnw|Hnw%not_true_is_false]; rewrite Hnw.
  - wp_go. unfold forked. rs. rewrite Hnw. split_and!; try done. right. exists (fate_of w c). split_and!; [done|done|]. by left.
  - destruct (fate_status (fate_of w c) Hnw) as [st Hst]. unfold wait_child. wp_step. wp_step. rs.
    eapply wp_mono; [apply (wp_wait_loop _ _ st); rs; [by left|by rewrite lookup_insert_eq|lia]|].
    intros r s' (io' & e' & [[-> ->]|(-> & Hne & ->)]); unfold forked; rs; rewrite Hnw; split_and!; try done; right; exists (fate_of w c).
    + split_and!; [done..|]. left. split; [by eapply status_nonneg|]. rewrite filter_cons_False by (intros Hx; by apply Hx).
      clear -Hnew. cbn [app]. induction (c_kids s) as [|k ks IH]; [done|]. apply not_elem_of_cons in Hnew as [H1 H2].
      rewrite filter_cons_True by done. f_equal. by apply IH.
    + split_and!; [done..|]. right. split_and!; try done. intros E. apply Hne. auto.
Qed.

Lemma wp_put_back a q m st (Q : Z → launcher → Prop) s : c_sig s = [] →
  Q (if st =? -1 then -1 else 0) (s <| c_on := mkBoth a q |> <| c_mask := m |>) → wp (put_back a q m st) Q s.
Proof.
  intros Hs HQ. unfold put_back. do 3 (wp_step; (apply wp_set_action || apply wp_set_procmask); [done|]; rs; cbn [Z.ltb Z.compare]).
  wp_go. rs. destruct s. exact HQ.
Qed.

(** The signals, the mask, the descriptors and the scheduling are as before.  Either no process could be
    made, or one more came to an end that [P] describes; it was waited for (unless that is not wanted), or the
    waiting failed.  The result is 0 or -1 accordingly, whatever the end was. *)
Definition ends_as (P : ending → Prop) s (r : Z) s' : Prop :=
  c_on s' = c_on s ∧ c_mask s' = c_mask s ∧ c_fds s' = c_fds s ∧ c_sched s' = c_sched s ∧
  (r = -1 ∧ c_io s ≠ [] ∧ c_kids s' = c_kids s ∧ c_fates s' = c_fates s ∨
   ∃ f, P f ∧ c_fates s' = <[c_next s := f]> (c_fates s) ∧
     (r = 0 ∧ c_kids s' = (if no_wait then [c_next s] else []) ++ c_kids s ∨
      r = -1 ∧ no_wait = false ∧ c_io s ≠ [] ∧ c_kids s' = c_next s :: c_kids s)).

Lemma wp_run_child child (P : ending → Prop) on' m' s : ready s →
  (∀ io, (c_io s = [] → io = []) →
     wpx child (λ _ _, False) (λ w c, P (fate_of w c) ∧ c_sig c = [] ∧ (io = [] → c_io c = []))
       (s <| c_on := on' |> <| c_mask := m' |> <| c_io := io |> <| c_kids := [] |> <| c_became := None |>)) →
  wp (status ← status_of_child no_wait child; put_back (on_int (c_on s)) (on_quit (c_on s)) (c_mask s) status)
    (ends_as P s) (s <| c_on := on' |> <| c_mask := m' |>).
Proof using Laws ends.
  intros [Hsig Hnext Hnew Hstd] Hchild. wp_step. eapply wp_mono; [apply (wp_status_of_child child P); [by split|exact Hchild]|].
  intros r s1 (_ & _ & Hf & Hsc & Hsg & Hcase). rs. apply wp_put_back; [done|]. rewrite both_eta. unfold ends_as. rs.
  split_and!; try done. destruct Hcase as [(-> & H1 & H2 & H3)|(f & HP & Hfa & [[Hr Hk]|(-> & H1 & H2 & H3)])].
  - left. done.
  - right. exists f. split_and!; [done|done|]. left. split; [|done]. destruct (Z.eqb_spec r (-1)); [lia|done].
  - right. exists f. split_and!; [done|done|]. by right.
Qed.

Lemma child_fate_ext priority w0 xs fs s s' f :
  c_on s' = c_on s → c_mask s' = c_mask s → c_fds s' = c_fds s → c_sched s' = c_sched s → (c_io s' = [] → c_io s = []) →
  child_fate priority w0 xs fs s f → child_fate priority w0 xs fs s' f.
Proof.
  unfold child_fate. intros Ho Hm Hf Hs Hio. destruct (length xs <=? 32)%nat; [|done].
  intros (pg & [H1 H2 H3 H4 H5 H6 H7 H8] & ->). exists pg. split; [|done].
  split; rewrite ?Ho, ?Hm, ?Hf, ?Hs; auto.
Qed.

Lemma wp_launch_with priority cmd w0 ws s : ready s → split_words cmd = w0 :: ws →
  let '(xs, fs) := arguments false ws in
  wp (CreateProcess_with no_wait priority cmd) (ends_as (child_fate priority w0 xs fs s) s) s.
Proof using Laws ends.
  intros Hr Hw. pose proof Hr as [Hsig _ _ Hstd]. destruct (arguments false ws) as [xs fs] eqn:Ea. unfold CreateProcess_with.
  do 3 (wp_step; (apply wp_set_action || apply wp_set_procmask); [done|]; rs).
  apply (wp_run_child _ _ (set_sig (set_sig (c_on s) SIGINT some_action) SIGQUIT some_action) _ s); [done|]. intros io Hio.
  pose proof (wpx_child_ex priority cmd w0 ws (on_int (c_on s)) (on_quit (c_on s)) (c_mask s)) as Hc. rewrite Ea in Hc.
  eapply wpx_mono; [apply Hc; [done|done|done]|done|]. rs. intros w c (Hf & Hsg & Hcio). split_and!; [|done|done].
  eapply child_fate_ext; [..|exact Hf]; rs; auto. symmetry. apply both_eta.
Qed.

(** C11: [CreateProcess_ex], with or without a priority, for a command with at most 32 arguments and when no call on signals
    fails: the signals, the mask, the descriptors and the scheduling of the caller are as before when it returns.  Either no process could be made and
    the result is -1; or the child runs the first word of the command with the arguments the words stand for, the signals and the mask of the caller, the output
    in one of the files named and, if no call failed, in the last one and at the priority asked for, or aborts when the program cannot be executed.
    It is waited for, unless that is not wanted, and the result is 0, however it ended; or the waiting failed, the result is -1 and the
    child stays.  [create_process_ex_overflows] is what more arguments do, [create_process_leaves_ignored] a call on signals that fails. *)
Theorem create_process_ex_runs priority cmd w0 ws xs fs s : ready s →
  split_words cmd = w0 :: ws → arguments false ws = (xs, fs) → (length xs ≤ 32)%nat →
  wp (CreateProcess_with no_wait priority cmd)
    (ends_as (λ f, ∃ pg, launches priority w0 xs fs s pg ∧ f = becomes SIGABRT pg) s) s.
Proof using Laws ends.
  intros Hr Hw Ha Hlen. pose proof (wp_launch_with priority cmd w0 ws s Hr Hw) as H. rewrite Ha in H.
  eapply wp_mono; [exact H|]. unfold ends_as, child_fate. by rewrite (proj2 (Nat.leb_le _ _) Hlen).
Qed.

(** C39: a defect.  With more than 32 arguments the child writes past the end of [args]; the caller is told that
    all went well. *)
Theorem create_process_ex_overflows priority cmd w0 ws xs fs s : ready s →
  split_words cmd = w0 :: ws → arguments false ws = (xs, fs) → (32 < length xs)%nat →
  wp (CreateProcess_with no_wait priority cmd) (ends_as (.= Crashed) s) s.
Proof using Laws ends.
  intros Hr Hw Ha Hlen. pose proof (wp_launch_with priority cmd w0 ws s Hr Hw) as H. rewrite Ha in H.
  eapply wp_mono; [exact H|]. unfold ends_as, child_fate. by rewrite (proj2 (Nat.leb_gt _ _) Hlen).
Qed.

(** [CreateProcess] has a shell run the command, with the signals, the mask and the descriptors of the caller;
    it waits for its end unless that is not wanted, and puts everything back. *)
Theorem create_process_runs cmd s : ready s →
  wp (CreateProcess no_wait (Some cmd))
    (ends_as (.= becomes 127 (program_in s SH_PATH [lit "sh"; lit "-c"; cmd])) s) s.
Proof using Laws ends.
  intros Hr. pose proof Hr as [Hsig _ _ Hstd]. unfold CreateProcess.
  do 3 (wp_step; (apply wp_set_action || apply wp_set_procmask); [done|]; rs; cbn [Z.ltb Z.compare]).
  apply (wp_run_child _ _ (set_sig (set_sig (c_on s) SIGINT ignoring) SIGQUIT ignoring) _ s); [done|]. intros io Hio.
  unfold shell_child. do 3 (apply wpx_bind, wpx_wp; (apply wp_set_action || apply wp_set_procmask); [done|]; rs).
  apply wpx_exec. intros w c Hf Hcio Hcs. rs. split_and!; [|by rewrite Hcs|intros E; by rewrite Hcio].
  by rewrite Hf.
Qed.

(** A defect: when the second call on signals fails SIGINT stays ignored. *)
Lemma create_process_leaves_ignored cmd e s : c_sig s = [None; Some e] →
  wp (CreateProcess no_wait (Some cmd)) (λ r s', r = -1 ∧ on_int (c_on s') = ignoring ∧ c_kids s' = c_kids s) s.
Proof using Type.
  intros E. destruct s. cbn in E. subst. by cbn.
Qed.

(** ** Variables *)

(** [$NAME] stands for the variable; the braces of [${NAME}] are taken for a part of its name. *)
Lemma substitute_plain c name : c ≠ "{"%char → (head name) ≠ Some "{"%char →
  substitute ("$"%char :: c :: name) = getenv (c :: name).
Proof using Type.
  intros Hc Hn. unfold substitute, variable. cbn [char_at lookup list_lookup default from_option length drop].
  destruct name as [|d name]; cbn; [done|]. cbn in Hn.
  destruct (decide (d = "{"%char)) as [->|Hd]; [done|]. unfold char_at. cbn. by rewrite (bool_decide_false (d = "{"%char)).
Qed.
Lemma substitute_braces c name : c ≠ "{"%char →
  substitute ("$"%char :: "{"%char :: c :: name ++ ["}"%char]) = getenv ("{"%char :: c :: name ++ ["}"%char]).
Proof using Type.
  intros Hc. unfold substitute, variable, char_at. cbn. by rewrite (bool_decide_false (c = "{"%char)).
Qed.
End Specs.

Module DemoLaunch.
(** One variable; every file but one can be executed; every program ends well. *)
#[local] Instance demo_launch : LaunchSystem := {
  getenv name := if decide (name = lit "HOME") then Some (lit "/root") else None;
  sys_file path := Z.of_nat (length path);
  sys_launch pg := if decide (pg_file pg = lit "missing") then Some 2 else None;
  sys_ends _ := Some 0;
  some_action := mkSigaction (Handler 7) ∅ 3; some_mask := ∅;
}.
#[local] Instance demo_laws : LaunchLaws.
Proof. intros pg st [= <-]. done. Qed.

Definition boot : launcher := mkLauncher
  (mkBoth (mkSigaction (Handler 5) ∅ 0) (mkSigaction SIG_IGN ∅ 0)) {[10]} 0
  {[0 := (Other 1, false); 1 := (Other 2, false); 2 := (Other 2, false); 3 := (Other 9, true)]}
  (mkSched SCHED_OTHER 0 0) [] [] 100 [] ∅ None 0.
Lemma boot_is_ready : ready boot.
Proof. split; [done|done|apply not_elem_of_nil|]. split; [by eexists|done]. Qed.

Definition command : str := lit "echo $HOME $NONE ${HOME} > out.txt more".
Example command_arguments : ∃ w0 ws, split_words command = w0 :: ws ∧ w0 = lit "echo" ∧
  arguments false ws = (lit <$> ["/root"; "more"]%string, [lit "out.txt"]).
Proof. do 2 eexists. split; [by vm_compute|]. split; by vm_compute. Qed.
Example command_runs :
  match CreateProcess_ex_priority false command (mkPriority NICE (-30)) boot with
  | Done r s => r = 0 ∧ c_fates s !! 100 = Some (Became (mkProgram (lit "echo") (lit <$> ["echo"; "/root"; "more"]%string)
      (mkBoth SIG_DFL SIG_IGN) {[10]} {[0 := Other 1; 1 := Other 7; 2 := Other 2]} (mkSched SCHED_OTHER 0 (-20)))) ∧ c_kids s = []
  | Stop _ _ => False
  end.
Proof. vm_compute. split_and!; reflexivity. Qed.

Lemma create_process_ex_runs_witness :
  wp (CreateProcess_with false None (lit "ls -l"))
    (ends_as false (λ f, ∃ pg, launches None (lit "ls") [lit "-l"] [] boot pg ∧ f = becomes SIGABRT pg) boot) boot.
Proof.
  apply (create_process_ex_runs false (λ _ pg, ltac:(by eexists)) None (lit "ls -l") (lit "ls") [lit "-l"] [lit "-l"] [] boot boot_is_ready);
    [by vm_compute|by vm_compute|cbn; lia].
Defined.

Definition many : str := lit "sum 1 2 3 4 5 6 7 8 9 0 1 2 3 4 5 6 7 8 9 0 1 2 3 4 5 6 7 8 9 0 1 2 3".
Lemma create_process_ex_overflows_witness :
  wp (CreateProcess_with false None many) (ends_as false (.= Crashed) boot) boot.
Proof.
  destruct (arguments false (tail (split_words many))) as [xs fs] eqn:E.
  apply (create_process_ex_overflows false (λ _ pg, ltac:(by eexists)) None many (lit "sum") (tail (split_words many)) xs fs boot boot_is_ready);
    [by vm_compute|exact E|].
  assert (Hl : length xs = 33%nat); [|lia]. change xs with (fst (xs, fs)). rewrite <- E. by vm_compute.
Defined.

Lemma create_process_runs_witness :
  wp (CreateProcess true (Some (lit "./process")))
    (ends_as true (.= becomes 127 (program_in boot SH_PATH [lit "sh"; lit "-c"; lit "./process"])) boot) boot.
Proof. apply (create_process_runs true (λ H, ltac:(done)) (lit "./process") boot boot_is_ready). Defined.

(** An empty command has no first word: the child ends at once, and the caller is told that all went well. *)
Example empty_command :
  match CreateProcess_ex false [] boot with Done r s => r = 0 ∧ c_fates s !! 100 = Some Crashed | Stop _ _ => False end.
Proof. by vm_compute. Qed.
(** The output of a program that cannot be found is created all the same. *)
Example missing_program :
  match CreateProcess_ex false (lit "missing") boot with Done r s => r = 0 ∧ c_fates s !! 100 = Some (Quit 6) | Stop _ _ => False end.
Proof. by vm_compute. Qed.
End DemoLaunch.
