(* ===== verification/Queues.v ===== *)
(** Threads that hand things over: InterProcessComm/code/test1.cpp and test2.cpp.

    Producers fill one of two queues each, and tell the consumers so through a flag with a
    condition variable or, with [SEM], through a semaphore; a consumer takes one thing of each queue when there
    are both.  The programs run for ever; the machine runs one operation of one thread at a
    time.  There may be any number of producers and consumers: [main] starts two and one. *)
From stdpp Require Import functions.
From S2P Require Import Prelude Program.
#[local] Arguments Z.ltb : simpl never.
#[local] Arguments Z.leb : simpl never.

Inductive queue := Q1 | Q2.
#[export] Instance queue_eq_dec : EqDecision queue.
Proof. solve_decision. Defined.
(** [mutex_thread], and the one of a queue. *)
Inductive mutex := MThread | MQueue (q : queue).
#[export] Instance mutex_eq_dec : EqDecision mutex.
Proof. solve_decision. Defined.

Inductive op : Type → Type :=
  | Lock (m : mutex) : op ()
  | Unlock (m : mutex) : op ()
  | Load_ready : op bool
  | Store_ready (b : bool) : op ()
  | Cond_sleep : op ()                           (* release [mutex_thread] and wait to be notified *)
  | Notify_all : op ()
  | Sem_wait : op ()
  | Sem_post : op ()
  | Size (q : queue) : op Z
  | Push (q : queue) : op ()
  | Pop (q : queue) : op ()
  | Print : op ()
  | Sleep (ms : Z) : op ().
#[local] Abbreviation prog := (prog op).

(** [cond.wait (lock)] *)
Definition cond_wait : prog () := call Cond_sleep;; call (Lock MThread).
(** [while (!ready) cond.wait (lock);] *)
Definition wait_ready : prog () :=
  loop (b ← call Load_ready; if b : bool then mret (Some ()) else cond_wait;; mret None).

(** ** test1.cpp *)

Definition wait_routine1 : prog () :=
  loop (call (Lock MThread);; wait_ready;; call (Store_ready false);; call Print;; call (Sleep 30);;
        call (Unlock MThread);; mret None).
Definition notify : prog () :=
  call (Lock MThread);; call (Store_ready true);; call Notify_all;; call (Unlock MThread).
Definition notify_routine1 (USE_FUNC : bool) : prog () :=
  loop (if USE_FUNC then notify;; call Print;; call (Sleep 40);; mret None
        else call (Lock MThread);; call (Store_ready true);; call Notify_all;; call Print;; call (Sleep 40);;
             call (Unlock MThread);; mret None).

(** ** test2.cpp *)

Definition wait_routine (SEM : bool) : prog () :=
  loop ((if SEM then call Sem_wait else call (Lock MThread);; wait_ready;; call (Store_ready false));;
        call Print;;
        call (Lock (MQueue Q1));; call (Lock (MQueue Q2));;
        n1 ← call (Size Q1);
        n2 ← (if 0 <? n1 then call (Size Q2) else mret 0);
        when_p ((0 <? n1) && (0 <? n2)) (call (Pop Q1);; call (Pop Q2);; call (Sleep 20));;
        call (Unlock (MQueue Q2));; call (Unlock (MQueue Q1));;
        when_p (negb SEM) (call (Unlock MThread));; mret None).
Definition notify_routine (SEM : bool) (q : queue) : prog () :=
  loop (call (Lock (MQueue q));;
        call (Push q);;
        n ← call (Size q);
        when_p (4 <? n) (call (Pop q));;
        call (Unlock (MQueue q));;
        (if SEM then call Sem_post else notify);;
        call Print;; call (Sleep 40);; mret None).

(** * The machine *)

Definition SEM_VALUE_MAX := 2147483647.

Section Machine.
(** What is in the queues; [info] is not initialised. *)
Context {INFO : Type} (info : INFO).

Record world := mkWorld {
  threads : list (prog ());
  sleeping : gset nat;                           (* on the condition variable *)
  owner : mutex → option nat;
  contents : queue → list INFO;
  ready : bool; sem : Z;
  fault : bool;                                  (* [pop] of an empty queue *)
}.
#[export] Instance eta_world : Eta world := λ w,
  mkWorld (threads w) (sleeping w) (owner w) (contents w) (ready w) (sem w) (fault w).

Definition exec {B} (o : op B) (t : nat) (w : world) : option (B * world) :=
  match o in op B return option (B * world) with
  | Lock m => match owner w m with None => Some ((), w <| owner := <[m := Some t]> (owner w) |>) | Some _ => None end
  | Unlock m => Some ((), w <| owner := <[m := None]> (owner w) |>)
  | Load_ready => Some (ready w, w)
  | Store_ready b => Some ((), w <| ready := b |>)
  | Cond_sleep => Some ((), w <| owner := <[MThread := None]> (owner w) |> <| sleeping := {[t]} ∪ sleeping w |>)
  | Notify_all => Some ((), w <| sleeping := ∅ |>)
  | Sem_wait => if 0 <? sem w then Some ((), w <| sem := sem w - 1 |>) else None
  | Sem_post => Some ((), if sem w <? SEM_VALUE_MAX then w <| sem := sem w + 1 |> else w)
  | Size q => Some (Z.of_nat (length (contents w q)), w)
  | Push q => Some ((), w <| contents := <[q := contents w q ++ [info]]> (contents w) |>)
  | Pop q =>
      Some ((), match contents w q with
                | [] => w <| fault := true |>
                | _ :: l => w <| contents := <[q := l]> (contents w) |>
                end)
  | Print | Sleep _ => Some ((), w)
  end.
Definition run (p : prog ()) (t : nat) (w : world) : option (prog () * world) :=
  match p with
  | Ret _ => None
  | Act o k => '(b, w) ← exec o t w; Some (k b, w)
  | Loop body k => Some (unroll body k, w)
  end.

(** A thread runs its next operation, or returns from [cond.wait] without a reason. *)
Inductive action := Run (t : nat) | Spurious (t : nat).
Definition step (a : action) (w : world) : option world :=
  match a with
  | Run t =>
      if bool_decide (t ∈ sleeping w) then None
      else p ← threads w !! t; '(p, w) ← run p t w; Some (w <| threads := <[t := p]> (threads w) |>)
  | Spurious t => Some (w <| sleeping := sleeping w ∖ {[t]} |>)
  end.
Definition reaches : world → world → Prop := rtc (λ w w', ∃ a, step a w = Some w').

(** With [main]'s threads. *)
Definition started (ps : list (prog ())) : world := mkWorld ps ∅ (λ _, None) (λ _, []) false 0 false.
Definition main2 (SEM : bool) : world := started [wait_routine SEM; notify_routine SEM Q1; notify_routine SEM Q2].
Definition main1 (USE_FUNC : bool) : world := started [wait_routine1; notify_routine1 USE_FUNC].

(** * What a thread knows *)

Section Roles.
Context (SEM : bool).

Inductive wrole :=
  | W_out | W_lock | W_seen (b : bool) | W_asleep
  | W_got                                        (* it was told that something is there *)
  | W_got1 | W_got2                              (* and has locked the first queue, both *)
  | W_size (a : Z) | W_sizes (a b : Z)
  | W_popped                                     (* the first of the two *)
  | W_done | W_done1 | W_left.
Inductive nrole :=
  | N_out | N_lock | N_pushed | N_size (n : Z) | N_trim
  | N_free                                       (* it has to tell the consumers *)
  | N_cond | N_set                               (* [ready] is set: it has to notify *)
  | N_told.
Inductive role := Consumer (r : wrole) | Producer (q : queue) (r : nrole).

Definition lock_rule (m : mutex) (r : role) : option role :=
  match m, r with
  | MThread, Consumer (W_out | W_asleep) => if SEM then None else Some (Consumer W_lock)
  | MQueue Q1, Consumer W_got => Some (Consumer W_got1)
  | MQueue Q2, Consumer W_got1 => Some (Consumer W_got2)
  | MThread, Producer q (N_out | N_free) => if SEM then None else Some (Producer q N_cond)
  | MQueue q', Producer q N_out => if decide (q = q') then Some (Producer q N_lock) else None
  | _, _ => None
  end.
Definition unlock_rule (m : mutex) (r : role) : option role :=
  match m, r with
  | MQueue Q2, Consumer W_done => Some (Consumer W_done1)
  | MQueue Q2, Consumer (W_size a) => if a <=? 0 then Some (Consumer W_done1) else None
  | MQueue Q2, Consumer (W_sizes a b) => if b <=? 0 then Some (Consumer W_done1) else None
  | MQueue Q1, Consumer W_done1 => Some (Consumer (if SEM then W_out else W_left))
  | MThread, Consumer (W_left | W_got) => if SEM then None else Some (Consumer W_out)
  | MQueue q', Producer q (N_size n) =>
      if decide (q = q') then if n <=? 4 then Some (Producer q N_free) else None else None
  | MQueue q', Producer q N_trim => if decide (q = q') then Some (Producer q N_free) else None
  | MThread, Producer q N_told => Some (Producer q N_out)
  | _, _ => None
  end.
Definition size_rule (q : queue) (n : Z) (r : role) : option role :=
  match q, r with
  | Q1, Consumer W_got2 => Some (Consumer (W_size n))
  | Q2, Consumer (W_size a) => if 0 <? a then Some (Consumer (W_sizes a n)) else None
  | q', Producer q N_pushed => if decide (q = q') then Some (Producer q (N_size n)) else None
  | _, _ => None
  end.
Definition pop_rule (q : queue) (r : role) : option role :=
  match q, r with
  | Q1, Consumer (W_sizes a b) => if (0 <? a) && (0 <? b) then Some (Consumer W_popped) else None
  | Q2, Consumer W_popped => Some (Consumer W_done)
  | q', Producer q (N_size n) => if decide (q = q') then if 4 <? n then Some (Producer q N_trim) else None else None
  | _, _ => None
  end.
Definition push_rule (q' : queue) (r : role) : option role :=
  match r with
  | Producer q N_lock => if decide (q = q') then Some (Producer q N_pushed) else None
  | _ => None
  end.
(** The others. *)
Definition store_rule (b : bool) (r : role) : option role :=
  match b, r with
  | false, Consumer (W_seen true) => Some (Consumer W_got)
  | true, Producer q N_cond => Some (Producer q N_set)
  | _, _ => None
  end.
Definition becomes {B} (o : op B) (b : B) (r : role) : option role :=
  match o in op B return B → option role with
  | Lock m => λ _, lock_rule m r
  | Unlock m => λ _, unlock_rule m r
  | Load_ready => λ b, match r with Consumer W_lock => if SEM then None else Some (Consumer (W_seen b)) | _ => None end
  | Store_ready b => λ _, if SEM then None else store_rule b r
  | Cond_sleep => λ _, match r with Consumer (W_seen false) => if SEM then None else Some (Consumer W_asleep) | _ => None end
  | Notify_all => λ _, match r with Producer q N_set => Some (Producer q N_told) | _ => None end
  | Sem_wait => λ _, match r with Consumer W_out => if SEM then Some (Consumer W_got) else None | _ => None end
  | Sem_post => λ _, match r with Producer q N_free => if SEM then Some (Producer q N_out) else None | _ => None end
  | Size q => λ n, size_rule q n r
  | Push q => λ _, push_rule q r
  | Pop q => λ _, pop_rule q r
  | Print | Sleep _ => λ _, Some r
  end b.
(** The operation fits the role, whatever its answer is. *)
Definition rule {B} (o : op B) (r : role) (K : B → role → Prop) : Prop :=
  ∀ b, ∃ r', becomes o b r = Some r' ∧ K b r'.
Definition fits : prog () → role → Prop := safe (@rule) (λ _ _, False).

Lemma qrule_mono B (o : op B) r (K K' : B → role → Prop) :
  (∀ b r, K b r → K' b r) → rule o r K → rule o r K'.
Proof. intros HK H b. destruct (H b) as (r' & Hr & HK'). exists r'. eauto. Qed.
End Roles.

(** ** The programs *)

Lemma act_fits {SEM A B} (o : op B) (k : B → Program.prog op A) Post r :
  (∀ b, ∃ r', becomes SEM o b r = Some r' ∧ safe (@rule SEM) Post (k b) r') → safe (@rule SEM) Post (Act o k) r.
Proof. done. Qed.
#[local] Ltac act := apply act_fits; intros ?; eexists; split; [cbn; reflexivity|]; cbn [mbind prog_bind].

Lemma wait_ready_fits : safe (@rule false) (λ _ r, r = Consumer (W_seen true)) wait_ready (Consumer W_lock).
Proof.
  apply (safe_loop _ (qrule_mono false) (λ r, r = Consumer W_lock)); [done|]. intros r ->. unfold call.
  cbn [mbind prog_bind]. act. destruct b.
  - done.
  - unfold cond_wait, call. cbn [mbind prog_bind]. act. act. done.
Qed.
Lemma notify_fits q r : r = N_out ∨ r = N_free →
  safe (@rule false) (λ _ r, r = Producer q N_out) notify (Producer q r).
Proof. unfold notify, call. cbn [mbind prog_bind]. intros [-> | ->]; do 4 act; done. Qed.

Lemma forever {SEM} (r : role) (body : Program.prog op (option ())) :
  safe (@rule SEM) (λ c r', c = None ∧ r' = r) body r → fits SEM (loop body) r.
Proof.
  intros H. apply (safe_loop _ (qrule_mono SEM) (λ r', r' = r)); [done|]. intros r' ->.
  eapply (safe_mono _ (qrule_mono SEM)); [|exact H]. by intros c r' [-> ->].
Qed.

Lemma wait_routine1_fits : fits false wait_routine1 (Consumer W_out).
Proof.
  apply forever. unfold call. cbn [mbind prog_bind]. act. eapply (safe_bind _ (qrule_mono false)); [apply wait_ready_fits|].
  intros _ r ->. cbn [mbind prog_bind]. do 4 act. done.
Qed.
Lemma notify_routine1_fits b q : fits false (notify_routine1 b) (Producer q N_out).
Proof.
  destruct b; apply forever.
  - eapply (safe_bind _ (qrule_mono false)); [apply notify_fits; by left|]. intros _ r ->.
    unfold call. cbn [mbind prog_bind]. do 2 act. done.
  - unfold call. cbn [mbind prog_bind]. do 6 act. done.
Qed.

Lemma wait_routine_fits SEM : fits SEM (wait_routine SEM) (Consumer W_out).
Proof.
  apply forever. eapply (safe_bind _ (qrule_mono SEM) (λ _ r, r = Consumer W_got)).
  { destruct SEM; unfold call; cbn [mbind prog_bind]; act; [done|].
    eapply (safe_bind _ (qrule_mono false)); [apply wait_ready_fits|]. intros _ r ->. act. done. }
  intros _ r ->. unfold call. cbn [mbind prog_bind]. do 4 act. rename b2 into n1.
  destruct (Z.ltb_spec 0 n1) as [H1|H1]; cbn [mbind prog_bind mret prog_ret].
  - apply act_fits. intros n2. eexists. split; [cbn; by rewrite (proj2 (Z.ltb_lt _ _) H1)|]. cbn [mbind prog_bind].
    destruct (Z.ltb_spec 0 n2) as [H2|H2]; cbn [andb when_p].
    + cbn [mbind prog_bind]. apply act_fits. intros []. eexists.
      split; [cbn; by rewrite (proj2 (Z.ltb_lt _ _) H1), (proj2 (Z.ltb_lt _ _) H2)|].
      cbn [mbind prog_bind]. do 4 act. destruct SEM; cbn [negb when_p mbind prog_bind mret prog_ret]; [done|]. act. done.
    + cbn [mbind prog_bind mret prog_ret]. apply act_fits. intros []. eexists.
      split; [cbn; by rewrite (proj2 (Z.leb_le _ _) H2)|]. cbn [mbind prog_bind]. act.
      destruct SEM; cbn [negb when_p mbind prog_bind mret prog_ret]; [done|]. act. done.
  - cbn [andb when_p mbind prog_bind mret prog_ret]. apply act_fits. intros []. eexists.
    split; [cbn; by rewrite (proj2 (Z.leb_le _ _) H1)|]. cbn [mbind prog_bind]. act.
    destruct SEM; cbn [negb when_p mbind prog_bind mret prog_ret]; [done|]. act. done.
Qed.

Lemma notify_routine_fits SEM q : fits SEM (notify_routine SEM q) (Producer q N_out).
Proof.
  apply forever. unfold call. cbn [mbind prog_bind].
  apply act_fits. intros []. exists (Producer q N_lock). split; [by destruct q|]. cbn [mbind prog_bind].
  apply act_fits. intros []. exists (Producer q N_pushed). split; [by destruct q|]. cbn [mbind prog_bind].
  apply act_fits. intros n. exists (Producer q (N_size n)). split; [by destruct q|]. cbn [mbind prog_bind].
  apply (safe_bind _ (qrule_mono SEM) (λ _ r, r = Producer q N_trim ∨ r = Producer q (N_size n) ∧ n ≤ 4)).
  { destruct (Z.ltb_spec 4 n) as [H|H]; cbn [when_p]; [|by right].
    apply act_fits. intros []. exists (Producer q N_trim). split; [|by left].
    destruct q; cbn; by rewrite decide_True, (proj2 (Z.ltb_lt _ _) H). }
  intros _ r Hr. apply act_fits. intros []. exists (Producer q N_free). split.
  { destruct Hr as [-> |[-> H]]; destruct q; cbn; rewrite decide_True by done; [done..| |]; by rewrite (proj2 (Z.leb_le _ _) H). }
  cbn [mbind prog_bind mret prog_ret].
  apply (safe_bind _ (qrule_mono SEM) (λ _ r, r = Producer q N_out)).
  { destruct SEM; [by act|]. apply notify_fits. by right. }
  intros _ r' ->. cbn [mbind prog_bind]. do 2 act. done.
Qed.

(** * The invariant *)

Section Invariant.
Context (SEM : bool).

Definition holds (r : role) (m : mutex) : bool :=
  match r, m with
  | Consumer w, MThread => negb SEM && match w with W_out | W_asleep => false | _ => true end
  | Consumer w, MQueue Q1 =>
      match w with W_got1 | W_got2 | W_size _ | W_sizes _ _ | W_popped | W_done | W_done1 => true | _ => false end
  | Consumer w, MQueue Q2 => match w with W_got2 | W_size _ | W_sizes _ _ | W_popped | W_done => true | _ => false end
  | Producer q n, MThread => match n with N_cond | N_set | N_told => true | _ => false end
  | Producer q n, MQueue q' =>
      bool_decide (q = q') && match n with N_lock | N_pushed | N_size _ | N_trim => true | _ => false end
  end.

Definition len (w : world) (q : queue) : Z := Z.of_nat (length (contents w q)).
Definition fact (r : role) (w : world) : Prop :=
  match r with
  | Consumer (W_seen b) => SEM = false ∧ ready w = b
  | Consumer (W_size a) => len w Q1 = a
  | Consumer (W_sizes a b) => len w Q1 = a ∧ len w Q2 = b
  | Consumer W_popped => 0 < len w Q2
  | Producer q N_pushed => 0 < len w q
  | Producer q (N_size n) => len w q = n
  | _ => True
  end.
(** A queue has one too many only while its producer is about to see to it. *)
Definition big (r : role) (q : queue) : bool :=
  match r with Producer q' (N_pushed | N_size _) => bool_decide (q' = q) | _ => false end.
(** Told and not finished, or not told yet. *)
Definition count (r : role) : Z :=
  match r with
  | Consumer (W_got | W_got1 | W_got2 | W_size _ | W_sizes _ _ | W_popped) => 1
  | Producer _ (N_pushed | N_size _ | N_trim | N_free) => 1
  | _ => 0
  end.
(** A pair of which one half is left. *)
Definition half (r : role) : Z := match r with Consumer W_popped => 1 | _ => 0 end.
Lemma count_nonneg r : 0 ≤ count r.
Proof. destruct r as [[]|? []]; cbn; lia. Qed.
Lemma half_nonneg r : 0 ≤ half r.
Proof. destruct r as [[]|? []]; cbn; lia. Qed.

(** The pairs in the queues, against those the consumers know of. *)
Definition pairs_told (roles : list role) (w : world) : Prop :=
  (len w Q1 + sumZ half roles) `min` len w Q2 ≤ sem w + sumZ count roles.

Record good (roles : list role) (w : world) : Prop := {
  g_owner t r m : roles !! t = Some r → holds r m = true ↔ owner w m = Some t;
  g_owned m t : owner w m = Some t → is_Some (roles !! t);
  g_fact t r : roles !! t = Some r → fact r w;
  g_most q : len w q ≤ 5;
  g_four q : (∀ t r, roles !! t = Some r → big r q = false) → len w q ≤ 4;
  g_told : SEM = true → pairs_told roles w;
  g_sem : 0 ≤ sem w ≤ SEM_VALUE_MAX;
  g_asleep t : t ∈ sleeping w → roles !! t = Some (Consumer W_asleep);
  g_wake t : t ∈ sleeping w → ready w = true → ∃ u q, roles !! u = Some (Producer q N_set);
  g_fault : fault w = false;
}.

Lemma fact_stable r w w' :
  (∀ q, holds r (MQueue q) = true → contents w' q = contents w q) →
  (holds r MThread = true → ready w' = ready w) → fact r w → fact r w'.
Proof.
  intros Hq Hr. unfold fact, len.
  destruct r as [[]|q []]; try done; intros H.
  - destruct H as [HS H]. rewrite Hr; [done|]. cbn. by rewrite HS.
  - by rewrite (Hq Q1).
  - by rewrite (Hq Q1), (Hq Q2).
  - by rewrite (Hq Q2).
  - rewrite (Hq q); [done|]. cbn. by rewrite bool_decide_true.
  - rewrite (Hq q); [done|]. cbn. by rewrite bool_decide_true.
Qed.
Lemma big_holds r q : big r q = true → holds r (MQueue q) = true.
Proof. destruct r as [w|q' []]; cbn; try done; intros H; by rewrite H. Qed.

(** One thread moves: what it holds, what it knows, and what it leaves to the others. *)
Lemma good_update roles w t r r' w' :
  good roles w → roles !! t = Some r →
  (∀ m, holds r' m = true ↔ owner w' m = Some t) →
  (∀ m u, u ≠ t → owner w' m = Some u ↔ owner w m = Some u) →
  (∀ q, contents w' q = contents w q ∨ holds r (MQueue q) = true) →
  (ready w' = ready w ∨ holds r MThread = true) →
  fact r' w' →
  (∀ q, len w' q ≤ 4 ∨ big r' q = true ∧ len w' q ≤ 5 ∨
        contents w' q = contents w q ∧ (big r q = true → big r' q = true)) →
  (SEM = true → (len w' Q1 + (sumZ half roles - half r + half r')) `min` len w' Q2
                ≤ sem w' + (sumZ count roles - count r + count r')) →
  0 ≤ sem w' ≤ SEM_VALUE_MAX →
  (∀ u, u ∈ sleeping w' → u = t ∧ r' = Consumer W_asleep ∧ ready w' = false ∨
     u ≠ t ∧ u ∈ sleeping w ∧
     (ready w' = true → (∃ q, r' = Producer q N_set) ∨ ready w = true ∧ ∀ q, r ≠ Producer q N_set)) →
  fault w' = false → good (<[t:=r']> roles) w'.
Proof.
  intros Hg Hr Hown Hoth Hcon Hrdy Hfact Hlen Htold Hsem Hslp Hfault.
  assert (Hlt : (t < length roles)%nat) by by eapply lookup_lt_Some.
  assert (Hin : ∀ u x, <[t:=r']> roles !! u = Some x → u = t ∧ x = r' ∨ u ≠ t ∧ roles !! u = Some x).
  { intros u x [(-> & -> & _)|[Hne Hu]]%list_lookup_insert_Some; [by left|right; auto]. }
  assert (Hsole : ∀ u x m, u ≠ t → roles !! u = Some x → holds x m = true → holds r m = true → False).
  { intros u x m Hne Hu Hx Hrm. apply (g_owner _ _ Hg u x m Hu) in Hx. apply (g_owner _ _ Hg t r m Hr) in Hrm. congruence. }
  split; try done.
  - intros u x m [[-> ->]|[Hne Hu]]%Hin; [apply Hown|]. rewrite Hoth by done. by apply (g_owner _ _ Hg).
  - intros m u Hu. destruct (decide (u = t)) as [->|Hne]; [rewrite list_lookup_insert_eq by done; by eexists|].
    rewrite list_lookup_insert_ne by done. apply (g_owned _ _ Hg m). by apply Hoth.
  - intros u x [[-> ->]|[Hne Hu]]%Hin; [done|]. eapply fact_stable; [| |by apply (g_fact _ _ Hg u)].
    + intros q Hq. destruct (Hcon q) as [E|Hh]; [done|]. exfalso. by eapply Hsole.
    + intros Hq. destruct Hrdy as [E|Hh]; [done|]. exfalso. by eapply Hsole.
  - intros q. pose proof (g_most _ _ Hg q). destruct (Hlen q) as [H1|[[_ H1]|[H1 _]]]; [lia|done|]. unfold len in *. by rewrite H1.
  - intros q Hb. destruct (Hlen q) as [H1|[[Hb' _]|[H1 Hb']]]; [done| |].
    + rewrite (Hb t r') in Hb'; [done|]. by apply list_lookup_insert_eq.
    + unfold len in *. rewrite H1. apply (g_four _ _ Hg q). intros u x Hu. destruct (decide (u = t)) as [->|Hne].
      * rewrite Hr in Hu. injection Hu as <-. destruct (big r q) eqn:E; [|done]. rewrite <- (Hb t r'); [by rewrite Hb'|].
        by apply list_lookup_insert_eq.
      * apply (Hb u). by rewrite list_lookup_insert_ne.
  - intros HS. unfold pairs_told. rewrite !(sumZ_insert _ _ _ r r') by done. by apply Htold.
  - intros u Hu. destruct (Hslp u Hu) as [(-> & -> & _)|(Hne & Hu' & _)]; [by apply list_lookup_insert_eq|].
    rewrite list_lookup_insert_ne by done. by apply (g_asleep _ _ Hg).
  - intros u Hu Hrd. destruct (Hslp u Hu) as [(_ & _ & E)|(Hne & Hu' & Hw)]; [congruence|].
    destruct (Hw Hrd) as [[q ->]|[Hrd0 Hn]]; [exists t, q; by apply list_lookup_insert_eq|].
    destruct (g_wake _ _ Hg u Hu' Hrd0) as (v & q & Hv). exists v, q. rewrite list_lookup_insert_ne; [done|].
    intros ->. rewrite Hr in Hv. injection Hv as ->. by apply (Hn q).
Qed.

(** Only the role changes. *)
Lemma good_role roles w t r r' :
  good roles w → roles !! t = Some r → t ∉ sleeping w → (∀ m, holds r' m = holds r m) → fact r' w →
  (∀ q, big r q = true → big r' q = true) → count r' = count r → half r' = half r →
  (∀ q, r ≠ Producer q N_set) → good (<[t:=r']> roles) w.
Proof.
  intros Hg Hr Ht Hh Hf Hb Hc Hhf Hn. eapply good_update; try done; auto.
  - intros m. rewrite Hh. by apply (g_owner _ _ Hg).
  - intros HS. rewrite Hc, Hhf. pose proof (g_told _ _ Hg HS) as H. unfold pairs_told in H. lia.
  - apply (g_sem _ _ Hg).
  - intros u Hu. right. split_and!; [congruence|done|]. intros Hrd. by right.
  - apply (g_fault _ _ Hg).
Qed.
End Invariant.

(** ** Every operation keeps it *)

Section Steps.
Context (SEM : bool).
#[local] Abbreviation good := (good SEM).
#[local] Abbreviation holds := (holds SEM).

#[local] Ltac break :=
  repeat first
    [ progress simplify_eq/=
    | match goal with
      | H : context [decide ?P] |- _ => destruct (decide P)
      | H : (if ?b then _ else _) = Some _ |- _ => let E := fresh "E" in destruct b eqn:E
      | q : queue |- _ => destruct q
      end ].
#[local] Ltac cases r := destruct r as [[]|? []]; cbn in *; break.

Lemma lock_role m r r' : lock_rule SEM m r = Some r' →
  (∀ m', holds r' m' = holds r m' || bool_decide (m = m')) ∧ (∀ w, fact SEM r' w) ∧ (∀ q, big r q = false) ∧
  (SEM = true → count r' = count r) ∧ half r' = half r ∧ (∀ q, r ≠ Producer q N_set).
Proof.
  intros H. destruct m as [|[]]; cases r;
    (split_and!; [intros [|[]]; cbn; try done; by destruct SEM|done|done|try done; congruence|done|done]).
Qed.
Lemma unlock_role m r r' : unlock_rule SEM m r = Some r' →
  holds r m = true ∧ (∀ m', holds r' m' = holds r m' && negb (bool_decide (m = m'))) ∧ (∀ w, fact SEM r' w) ∧
  (∀ q w, big r q = true → fact SEM r w → len w q ≤ 4) ∧ half r' = half r ∧ half r = 0 ∧ (∀ q, r ≠ Producer q N_set) ∧
  count r' ≤ count r ∧
  (SEM = true → count r' = count r ∨
     count r' = count r - 1 ∧ holds r (MQueue Q1) = true ∧ ∀ w, fact SEM r w → len w Q1 ≤ 0 ∨ len w Q2 ≤ 0).
Proof.
  intros H. destruct m as [|[]]; cases r; rewrite ?Z.leb_le in *; split_and!; try done.
  all: try (intros [|[]]; cbn; try done; by destruct SEM).
  all: try (by destruct SEM).
  all: try lia.
  all: try (intros []; cbn; intros w; try done; intros _ Hf; lia).
  - intros ->. by left.
  - intros _. right. split_and!; [lia|done|]. intros w Hf. lia.
  - intros _. right. split_and!; [lia|done|]. intros w Hf. lia.
Qed.

Lemma good_lock roles w t r r' m :
  good roles w → roles !! t = Some r → t ∉ sleeping w → owner w m = None → lock_rule SEM m r = Some r' →
  good (<[t:=r']> roles) (w <| owner := <[m := Some t]> (owner w) |>).
Proof.
  intros Hg Hr Ht Hm Hl. destruct (lock_role _ _ _ Hl) as (Hh & Hf & Hb & Hc & Hhf & Hn).
  eapply good_update; try done; rs; auto.
  - intros m'. rewrite Hh. destruct (decide (m = m')) as [->|Hne].
    + rewrite fn_lookup_insert, bool_decide_true, orb_true_r by done. done.
    + rewrite fn_lookup_insert_ne, bool_decide_false, orb_false_r by done. by apply (g_owner _ _ _ Hg).
  - intros m' u Hu. destruct (decide (m = m')) as [->|Hne]; [|by rewrite fn_lookup_insert_ne].
    rewrite fn_lookup_insert, Hm. split; congruence.
  - intros q. right. right. split; [done|]. by rewrite Hb.
  - intros HS. rewrite (Hc HS), Hhf. pose proof (g_told _ _ _ Hg HS) as H. unfold pairs_told, len in *. rs. lia.
  - apply (g_sem _ _ _ Hg).
  - intros u Hu. right. split_and!; [congruence|done|]. intros Hrd. by right.
  - apply (g_fault _ _ _ Hg).
Qed.

Lemma good_unlock roles w t r r' m :
  good roles w → roles !! t = Some r → t ∉ sleeping w → unlock_rule SEM m r = Some r' →
  good (<[t:=r']> roles) (w <| owner := <[m := None]> (owner w) |>).
Proof.
  intros Hg Hr Ht Hl. destruct (unlock_role _ _ _ Hl) as (Hm & Hh & Hf & Hb & Hhf & Hh0 & Hn & Hle & Hc).
  apply (g_owner _ _ _ Hg t r m Hr) in Hm. eapply good_update; try done; rs; auto.
  - intros m'. rewrite Hh. destruct (decide (m = m')) as [->|Hne].
    + rewrite fn_lookup_insert, bool_decide_true, andb_false_r by done. done.
    + rewrite fn_lookup_insert_ne, bool_decide_false, andb_true_r by done. by apply (g_owner _ _ _ Hg).
  - intros m' u Hu. destruct (decide (m = m')) as [->|Hne]; [|by rewrite fn_lookup_insert_ne].
    rewrite fn_lookup_insert, Hm. split; congruence.
  - intros q. destruct (big r q) eqn:E; [|by right; right]. left. apply (Hb q w E). by apply (g_fact _ _ _ Hg t).
  - intros HS. rewrite Hhf. pose proof (g_told _ _ _ Hg HS) as H. unfold pairs_told in H.
    change (len (w <| owner := <[m := None]> (owner w) |>)) with (len w).
    destruct (Hc HS) as [->|(Hcr & Hq1 & H0)]; [lia|].
    pose proof (sumZ_member count count_nonneg _ _ _ Hr) as HS1. pose proof (count_nonneg r').
    assert (Hz : sumZ half roles = 0).
    { apply (sumZ_zero half half_nonneg). intros u x Hu. destruct (decide (half x = 0)) as [|Hx]; [done|].
      assert (Hx1 : holds x (MQueue Q1) = true) by (by destruct x as [[]|? []]).
      apply (g_owner _ _ _ Hg u x _ Hu) in Hx1. apply (g_owner _ _ _ Hg t r _ Hr) in Hq1.
      rewrite Hq1 in Hx1. injection Hx1 as <-. rewrite Hr in Hu. by injection Hu as <-. }
    pose proof (g_sem _ _ _ Hg). destruct (H0 w (g_fact _ _ _ Hg t r Hr)); lia.
  - apply (g_sem _ _ _ Hg).
  - intros u Hu. right. split_and!; [congruence|done|]. intros Hrd. by right.
  - apply (g_fault _ _ _ Hg).
Qed.


(** The consequences of [good] for the thread that moves, where its operation changes no owner. *)
Lemma keeps_owner roles w t r r' : good roles w → roles !! t = Some r → (∀ m, holds r' m = holds r m) →
  ∀ m, holds r' m = true ↔ owner w m = Some t.
Proof. intros Hg Hr Hh m. rewrite Hh. by apply (g_owner _ _ _ Hg). Qed.
Lemma keeps_asleep (w w' : world) t r r' : t ∉ sleeping w → sleeping w' = sleeping w → ready w' = ready w →
  (∀ q, r ≠ Producer q N_set) → ∀ u, u ∈ sleeping w' → u = t ∧ r' = Consumer W_asleep ∧ ready w' = false ∨
     u ≠ t ∧ u ∈ sleeping w ∧
     (ready w' = true → (∃ q, r' = Producer q N_set) ∨ ready w = true ∧ ∀ q, r ≠ Producer q N_set).
Proof. intros Ht -> -> Hn u Hu. right. split_and!; [congruence|done|]. intros Hrd. by right. Qed.

Lemma good_sleep roles w t :
  good roles w → roles !! t = Some (Consumer (W_seen false)) →
  good (<[t:=Consumer W_asleep]> roles) (w <| owner := <[MThread := None]> (owner w) |> <| sleeping := {[t]} ∪ sleeping w |>).
Proof.
  intros Hg Hr. destruct (g_fact _ _ _ Hg t _ Hr) as [HS Hrd].
  assert (Hm : owner w MThread = Some t) by (apply (g_owner _ _ _ Hg t _ _ Hr); cbn; by rewrite HS).
  eapply good_update; try done; rs; auto.
  - intros m. destruct (decide (m = MThread)) as [->|Hne].
    + rewrite fn_lookup_insert. cbn. rewrite andb_false_r. split; congruence.
    + rewrite fn_lookup_insert_ne by done. rewrite <- (g_owner _ _ _ Hg t _ _ Hr). by destruct m as [|[]].
  - intros m u Hu. destruct (decide (m = MThread)) as [->|Hne]; [|by rewrite fn_lookup_insert_ne].
    rewrite fn_lookup_insert, Hm. split; congruence.
  - congruence.
  - apply (g_sem _ _ _ Hg).
  - intros u Hu. destruct (decide (u = t)) as [->|Hne]; [by left|]. right. split_and!; [done|set_solver|congruence].
  - apply (g_fault _ _ _ Hg).
Qed.
Lemma good_notify roles w t q :
  good roles w → roles !! t = Some (Producer q N_set) →
  good (<[t:=Producer q N_told]> roles) (w <| sleeping := ∅ |>).
Proof.
  intros Hg Hr. eapply good_update; try done; rs; auto.
  - apply (keeps_owner _ _ _ _ _ Hg Hr). by intros [|[]].
  - intros HS. pose proof (g_told _ _ _ Hg HS) as H. unfold pairs_told, len in *. cbn in *. lia.
  - apply (g_sem _ _ _ Hg).
  - apply (g_fault _ _ _ Hg).
Qed.
Lemma good_store roles w t r r' b :
  SEM = false → good roles w → roles !! t = Some r → t ∉ sleeping w → store_rule b r = Some r' →
  good (<[t:=r']> roles) (w <| ready := b |>).
Proof.
  intros HS Hg Hr Ht Hs.
  assert (Hx : (∀ m, holds r' m = holds r m) ∧ holds r MThread = true ∧ (∀ w, fact SEM r' w) ∧ (∀ q, big r q = false) ∧
              ((b = false) ∨ ∃ q, r' = Producer q N_set) ∧ ∀ q, r ≠ Producer q N_set).
  { destruct b; cases r; (split_and!; [by intros [|[]]|by rewrite ?HS|done|done|eauto|done]). }
  destruct Hx as (Hh & Hm & Hf & Hb & Hw & Hn). eapply good_update; try done; rs; auto.
  - by apply (keeps_owner _ _ _ _ _ Hg Hr).
  - intros q. right. right. split; [done|]. by rewrite Hb.
  - congruence.
  - apply (g_sem _ _ _ Hg).
  - intros u Hu. right. split_and!; [congruence|done|]. intros ->. left. by destruct Hw.
  - apply (g_fault _ _ _ Hg).
Qed.

(** The semaphore, and what is counted on it. *)
Lemma good_count roles w t r r' n :
  good roles w → roles !! t = Some r → t ∉ sleeping w →
  (∀ m, holds r' m = holds r m) → (∀ w, fact SEM r' w) → (∀ q, big r q = false) → half r' = half r → (∀ q, r ≠ Producer q N_set) →
  0 ≤ n ≤ SEM_VALUE_MAX → (n + count r' = sem w + count r ∨ n = SEM_VALUE_MAX ∧ 0 ≤ count r' ∧ count r ≤ 1) →
  good (<[t:=r']> roles) (w <| sem := n |>).
Proof.
  intros Hg Hr Ht Hh Hf Hb Hhf Hn Hrange Hsum. eapply good_update; try done; rs; auto.
  - by apply (keeps_owner _ _ _ _ _ Hg Hr).
  - intros q. right. right. split; [done|]. by rewrite Hb.
  - intros HS. rewrite Hhf. pose proof (g_told _ _ _ Hg HS) as H. unfold pairs_told, len in *. cbn in *.
    destruct Hsum as [Hsum|(-> & H0 & H1)]; [lia|].
    pose proof (g_most _ _ _ Hg Q2) as H2. unfold len in H2. pose proof (sumZ_member count count_nonneg _ _ _ Hr).
    unfold SEM_VALUE_MAX. lia.
  - by apply keeps_asleep.
  - apply (g_fault _ _ _ Hg).
Qed.

Lemma len_insert (w : world) q q' l : len (w <| contents := <[q := l]> (contents w) |>) q' =
  if decide (q = q') then Z.of_nat (length l) else len w q'.
Proof.
  unfold len. rs. case_decide as E; [subst; by rewrite fn_lookup_insert|by rewrite fn_lookup_insert_ne].
Qed.

(** A queue changes, in the hands of the thread that has locked it. *)
Lemma good_contents roles w t r r' q l :
  good roles w → roles !! t = Some r → t ∉ sleeping w →
  (∀ m, holds r' m = holds r m) → holds r (MQueue q) = true → (∀ q, r ≠ Producer q N_set) →
  fact SEM r' (w <| contents := <[q := l]> (contents w) |>) →
  (Z.of_nat (length l) ≤ 4 ∨ big r' q = true ∧ Z.of_nat (length l) ≤ 5) → (∀ q', q' ≠ q → big r q' = false) →
  (SEM = true → (len (w <| contents := <[q := l]> (contents w) |>) Q1 + (sumZ half roles - half r + half r')) `min`
                  len (w <| contents := <[q := l]> (contents w) |>) Q2
                ≤ sem w + (sumZ count roles - count r + count r')) →
  good (<[t:=r']> roles) (w <| contents := <[q := l]> (contents w) |>).
Proof.
  intros Hg Hr Ht Hh Hq Hn Hf Hl Hb Htold. eapply good_update; try done; auto.
  - by apply (keeps_owner _ _ _ _ _ Hg Hr).
  - intros q'. rs. destruct (decide (q = q')) as [->|Hne]; [by right|left; by rewrite fn_lookup_insert_ne].
  - intros q'. rewrite len_insert. case_decide as E; [subst; destruct Hl; [by left|by right; left]|].
    right. right. rs. rewrite fn_lookup_insert_ne by done. split; [done|]. rewrite Hb; [done|congruence].
  - apply (g_sem _ _ _ Hg).
  - by apply keeps_asleep.
  - apply (g_fault _ _ _ Hg).
Qed.

(** Nobody else has a queue too long while a producer has it locked. *)
Lemma locked_four roles w t q : good roles w → roles !! t = Some (Producer q N_lock) → len w q ≤ 4.
Proof.
  intros Hg Hr. apply (g_four _ _ _ Hg). intros u x Hu. destruct (big x q) eqn:E0; [|done].
  pose proof (big_holds SEM _ _ E0) as E. apply (g_owner _ _ _ Hg u x _ Hu) in E.
  assert (Hq : owner w (MQueue q) = Some t).
  { apply (g_owner _ _ _ Hg t _ _ Hr). cbn. by rewrite bool_decide_true. }
  rewrite Hq in E. injection E as <-. rewrite Hr in Hu. by injection Hu as <-.
Qed.

Lemma good_push roles w t r r' q :
  good roles w → roles !! t = Some r → t ∉ sleeping w → push_rule q r = Some r' →
  good (<[t:=r']> roles) (w <| contents := <[q := contents w q ++ [info]]> (contents w) |>).
Proof.
  intros Hg Hr Ht Hp. assert (r = Producer q N_lock ∧ r' = Producer q N_pushed) as [-> ->].
  { destruct r as [|q' []]; cbn in Hp; break; done. }
  pose proof (locked_four _ _ _ _ Hg Hr) as H4. unfold len in H4.
  apply (good_contents _ _ _ (Producer q N_lock)); try done.
  - cbn. by rewrite bool_decide_true.
  - cbn. rewrite len_insert, decide_True, length_app by done. cbn. lia.
  - right. cbn. rewrite bool_decide_true by done. split; [done|]. rewrite length_app. cbn. lia.
  - intros HS. pose proof (g_told _ _ _ Hg HS) as H. unfold pairs_told in H. rewrite !len_insert, length_app. unfold len in *. cbn.
    destruct q; cbn; repeat case_decide; try done; lia.
Qed.

Lemma good_pop roles w t r r' q :
  good roles w → roles !! t = Some r → t ∉ sleeping w → pop_rule q r = Some r' →
  ∃ x l, contents w q = x :: l ∧ good (<[t:=r']> roles) (w <| contents := <[q := l]> (contents w) |>).
Proof.
  intros Hg Hr Ht Hp. pose proof (g_fact _ _ _ Hg t r Hr) as Hf.
  assert (Hx : (∀ m, holds r' m = holds r m) ∧ holds r (MQueue q) = true ∧ (∀ q, r ≠ Producer q N_set) ∧
    (∀ q', q' ≠ q → big r q' = false) ∧ 0 < len w q ∧ (q = Q1 → r' = Consumer W_popped → 0 < len w Q2) ∧
    ((∀ w, fact SEM r' w) ∨ r' = Consumer W_popped) ∧ (r' = Consumer W_popped → q = Q1) ∧
    (half r' = half r ∧ count r' = count r ∨ q = Q1 ∧ half r' = half r + 1 ∧ count r' = count r ∨
     q = Q2 ∧ half r' = half r - 1 ∧ count r' = count r - 1)).
  { destruct q, r as [[]|q []]; cbn in *; break; rewrite ?andb_true_iff, ?Z.ltb_lt in *; split_and!; try done; try lia.
    all: try (by (left + right)); try (by intros [|[]]); try (by intros []).
    - right. left. done.
    - right. right. done. }
  destruct Hx as (Hh & Hq & Hn & Hb & Hlen & Hpop & Hfr & Hq1 & Hcount).
  destruct (contents w q) as [|x l] eqn:E; [unfold len in Hlen; rewrite E in Hlen; cbn in Hlen; lia|].
  exists x, l. split; [done|]. assert (Hl : Z.of_nat (length l) = len w q - 1) by (unfold len; rewrite E; cbn; lia).
  pose proof (g_most _ _ _ Hg q). apply (good_contents _ _ _ r); try done.
  - destruct Hfr as [Hfr | ->]; [|cbn; rewrite len_insert; rewrite (Hq1 eq_refl) in *; cbn; by apply Hpop].
    apply Hfr.
  - left. lia.
  - intros HS. pose proof (g_told _ _ _ Hg HS) as H0. unfold pairs_told in H0. rewrite !len_insert.
    destruct Hcount as [[-> ->]|[(-> & -> & ->)|(-> & -> & ->)]]; [destruct q| |]; cbn; repeat case_decide; try done; lia.
Qed.

Lemma exec_good {B} (o : op B) t b r r' roles w w' :
  good roles w → roles !! t = Some r → t ∉ sleeping w → becomes SEM o b r = Some r' → exec o t w = Some (b, w') →
  good (<[t:=r']> roles) w'.
Proof.
  intros Hg Hr Ht Hb He. pose proof (g_fact _ _ _ Hg t r Hr) as Hf. destruct o; cbn in Hb, He.
  - destruct (owner w m) eqn:Hm; [done|]. injection He as <- <-. by eapply good_lock.
  - injection He as <- <-. by eapply good_unlock.
  - injection He as <- <-. destruct r as [[]|]; try done. assert (HS : SEM = false) by (by destruct SEM). rewrite HS in Hb. injection Hb as <-.
    apply (good_role _ _ _ _ (Consumer W_lock)); done.
  - injection He as <- <-. assert (HS : SEM = false) by (by destruct SEM). rewrite HS in Hb. by eapply good_store.
  - injection He as <- <-. destruct r as [[| |[]| | | | | | | | | |]|]; try done. assert (HS : SEM = false) by (by destruct SEM). rewrite HS in Hb.
    injection Hb as <-. by apply good_sleep.
  - injection He as <- <-. destruct r as [|q []]; try done. injection Hb as <-. by eapply good_notify.
  - destruct (Z.ltb_spec 0 (sem w)); [|done]. injection He as <- <-. destruct r as [[]|]; try done.
    assert (HS : SEM = true) by (by destruct SEM). rewrite HS in Hb. injection Hb as <-. pose proof (g_sem _ _ _ Hg).
    apply (good_count _ _ _ (Consumer W_out)); try done; try lia; [intros [|[]]; cbn; by rewrite ?HS|left; cbn; lia].
  - destruct r as [|q []]; try done. assert (HS : SEM = true) by (by destruct SEM). rewrite HS in Hb. injection Hb as <-. pose proof (g_sem _ _ _ Hg).
    destruct (Z.ltb_spec (sem w) SEM_VALUE_MAX); injection He as <- <-.
    + apply (good_count _ _ _ (Producer q N_free)); try done; try lia. left. cbn. lia.
    + assert (E : sem w = SEM_VALUE_MAX) by lia. replace w with (w <| sem := SEM_VALUE_MAX |>) by (rewrite <- E; by destruct w).
      apply (good_count _ _ _ (Producer q N_free)); try done. right. by cbn.
  - injection He as <- <-. destruct q, r as [[]|q []]; cbn in Hb; break;
      (eapply good_role; [done|exact Hr|done|by intros [|[]]|cbn in *; try done; lia|by intros []|done|done|done]).
  - injection He as <- <-. by eapply good_push.
  - destruct (good_pop _ _ _ _ _ _ Hg Hr Ht Hb) as (x & l & E & Hgood). rewrite E in He. by injection He as <- <-.
  - injection He as <- <-. injection Hb as <-. by rewrite list_insert_id.
  - injection He as <- <-. injection Hb as <-. by rewrite list_insert_id.
Qed.

(** The programs fit the roles. *)
Definition produces (r : role) : bool := match r with Producer _ _ => true | Consumer _ => false end.
Lemma becomes_produces {B} (o : op B) b r r' : becomes SEM o b r = Some r' → produces r' = produces r.
Proof.
  destruct o; cbn; intros H; try (by injection H as <-).
  - destruct m as [|[]]; cases r; done.
  - destruct m as [|[]]; cases r; done.
  - cases r; done.
  - destruct SEM, b0; cases r; done.
  - destruct r as [[| |[]| | | | | | | | | |]|q []]; cbn in *; break; done.
  - cases r; done.
  - cases r; done.
  - cases r; done.
  - destruct q; cases r; done.
  - cases r; done.
  - destruct q; cases r; done.
Qed.

Record inv (kinds : list bool) (roles : list role) (w : world) : Prop := {
  i_kinds : produces <$> roles = kinds;
  i_good : good roles w;
  i_len : length roles = length (threads w);
  i_fits t p r : threads w !! t = Some p → roles !! t = Some r → fits SEM p r;
}.

Lemma good_threads roles w ps : good roles w → good roles (w <| threads := ps |>).
Proof. intros [H1 H2 H3 H4 H5 H6 H7 H8 H9 H10]. split; try done. Qed.
Lemma exec_threads {B} (o : op B) t w b w' : exec o t w = Some (b, w') → threads w' = threads w.
Proof.
  destruct o; cbn; intros H; repeat case_match; simplify_eq; try done.
Qed.

Lemma inv_run ks roles w t p p' w' :
  inv ks roles w → t ∉ sleeping w → threads w !! t = Some p → run p t w = Some (p', w') →
  ∃ roles', inv ks roles' (w' <| threads := <[t:=p']> (threads w') |>).
Proof.
  intros [Hk Hg Hlen Hfits] Ht Hp Hrun. assert (is_Some (roles !! t)) as [r Hr].
  { apply lookup_lt_is_Some. rewrite Hlen. by eapply lookup_lt_Some. }
  pose proof (Hfits t p r Hp Hr) as Hfit. destruct p as [a|B o k|C body k]; cbn in Hrun; [done| |].
  - destruct (exec o t w) as [[b w1]|] eqn:He; [|done]. cbn in Hrun. injection Hrun as <- <-.
    pose proof (exec_threads _ _ _ _ _ He) as Hth.
    destruct (Hfit b) as (r' & Hb & Hkb). exists (<[t:=r']> roles). split.
    + rewrite list_fmap_insert, (becomes_produces _ _ _ _ Hb). rewrite <- Hk. apply list_insert_id.
      by rewrite list_lookup_fmap, Hr.
    + apply good_threads. by eapply exec_good.
    + rs. by rewrite Hth, !length_insert.
    + rs. rewrite Hth. intros u q x Hu Hx. destruct (decide (u = t)) as [->|Hne].
      * rewrite list_lookup_insert_eq in Hu by (by eapply lookup_lt_Some).
        rewrite list_lookup_insert_eq in Hx by (by eapply lookup_lt_Some). by simplify_eq.
      * rewrite list_lookup_insert_ne in Hu by done. rewrite list_lookup_insert_ne in Hx by done. by eapply Hfits.
  - injection Hrun as <- <-. exists roles. split.
    + done.
    + by apply good_threads.
    + rs. by rewrite length_insert.
    + rs. intros u q x Hu Hx. destruct (decide (u = t)) as [->|Hne].
      * rewrite list_lookup_insert_eq in Hu by (by eapply lookup_lt_Some). simplify_eq.
        by apply (safe_unroll _ (qrule_mono SEM)).
      * rewrite list_lookup_insert_ne in Hu by done. by eapply Hfits.
Qed.
Lemma inv_step ks roles w a w' : inv ks roles w → step a w = Some w' → ∃ roles', inv ks roles' w'.
Proof.
  intros Hi Hs. destruct a as [t|t]; cbn in Hs.
  - case_bool_decide as Ht; [done|]. destruct (threads w !! t) as [p|] eqn:Hp; [|done]. cbn in Hs.
    destruct (run p t w) as [[p' w1]|] eqn:Hrun; [|done]. cbn in Hs. injection Hs as <-. by eapply inv_run.
  - injection Hs as <-. exists roles. destruct Hi as [Hk [H1 H2 H3 H4 H5 H6 H7 H8 H9 H10] Hlen Hfits].
    split; [done| |done|done]. split; try done.
    + intros u Hu. apply H8. rs. set_solver.
    + intros u Hu. apply (H9 u). rs. set_solver.
Qed.
Lemma inv_reaches ks roles w w' : inv ks roles w → reaches w w' → ∃ roles', inv ks roles' w'.
Proof.
  intros Hi Hr. revert roles Hi. induction Hr as [w|w w1 w2 [a Ha] _ IH]; intros roles Hi; [by eexists|].
  destruct (inv_step _ _ _ _ _ Hi Ha) as [roles' Hi']. by apply (IH roles').
Qed.

(** The start: consumers and producers that have done nothing. *)
Definition idle (r : role) : Prop := r = Consumer W_out ∨ ∃ q, r = Producer q N_out.
Lemma inv_started ps roles : Forall2 (fits SEM) ps roles → Forall idle roles → inv (produces <$> roles) roles (started ps).
Proof.
  intros Hf Hi. rewrite Forall_lookup in Hi.
  assert (Hz : ∀ f : role → Z, (∀ x, idle x → f x = 0) → (∀ x, 0 ≤ f x) → sumZ f roles = 0).
  { intros f H0 Hn. apply sumZ_zero; [done|]. intros t x Hx. apply H0. by apply (Hi t). }
  split.
  - done.
  - split; try done.
    + intros t r m Hr. cbn. split; [|done]. by destruct (Hi t r Hr) as [-> |[q ->]]; destruct m as [|[]]; cbn; rewrite ?andb_false_r.
    + intros t r Hr. by destruct (Hi t r Hr) as [-> |[q ->]].
    + intros _. unfold pairs_told. cbn. rewrite (Hz half), (Hz count); [done|..]; try apply count_nonneg; try apply half_nonneg;
        by intros x [-> |[q ->]].
  - symmetry. by eapply Forall2_length.
  - intros t p r Hp Hr. eapply Forall2_lookup_lr; eauto.
Qed.

(** * What holds of the programs *)

(** The threads of the two programs; test1.cpp knows no semaphore. *)
Inductive job := Consume | Produce (q : queue) | Consume1 | Produce1 (USE_FUNC : bool).
Definition program_of (j : job) : prog () :=
  match j with
  | Consume => wait_routine SEM
  | Produce q => notify_routine SEM q
  | Consume1 => wait_routine1
  | Produce1 b => notify_routine1 b
  end.
Definition suits (j : job) : Prop := match j with Consume1 | Produce1 _ => SEM = false | _ => True end.
Definition producer (j : job) : bool := match j with Produce _ | Produce1 _ => true | _ => false end.
Definition start_role (j : job) : role :=
  match j with Consume | Consume1 => Consumer W_out | Produce q => Producer q N_out | Produce1 _ => Producer Q1 N_out end.

Lemma jobs_inv js : Forall suits js → inv (producer <$> js) (start_role <$> js) (started (program_of <$> js)).
Proof.
  intros H. assert (E : producer <$> js = produces <$> (start_role <$> js)).
  { rewrite <- list_fmap_compose. apply list_fmap_ext. by intros ? [] _. }
  rewrite E. apply inv_started.
  - induction H as [|j js Hj H IH]; constructor; [|apply IH; by injection E].
    destruct j; cbn in *; [apply wait_routine_fits|apply notify_routine_fits| |]; rewrite Hj;
      [apply wait_routine1_fits|apply notify_routine1_fits].
  - apply Forall_fmap, Forall_true. intros []; cbn; first [by left|right; by eexists].
Qed.

(** no thread takes anything from an empty queue, and a queue that nobody has locked has at most four things in it,
    however many producers and consumers there are and whichever way the consumers are told. *)
Theorem queues_bounded js w : Forall suits js → reaches (started (program_of <$> js)) w →
  fault w = false ∧ ∀ q, len w q ≤ 5 ∧ (owner w (MQueue q) = None → len w q ≤ 4).
Proof.
  intros Hm Hr. destruct (inv_reaches _ _ _ _ (jobs_inv js Hm) Hr) as [roles' [_ Hg _ _]].
  split; [apply (g_fault _ _ _ Hg)|]. intros q. split; [apply (g_most _ _ _ Hg)|]. intros Ho. apply (g_four _ _ _ Hg).
  intros t r Ht. destruct (big r q) eqn:E; [|done]. apply (big_holds SEM) in E. apply (g_owner _ _ _ Hg t r _ Ht) in E. congruence.
Qed.

(** ** Progress *)

Definition rank (m : mutex) : nat := match m with MThread => 0 | MQueue Q1 => 1 | MQueue Q2 => 2 end.
Lemma lock_rank m m' r r' : lock_rule SEM m' r = Some r' → holds r m = true → (rank m < rank m')%nat.
Proof. destruct m' as [|[]]; intros H; cases r; destruct m as [|[]]; cbn in *; try done; lia. Qed.

(** A thread can go on unless it waits for a mutex or for the semaphore. *)
Lemma inv_runs ks roles w t r : inv ks roles w → roles !! t = Some r → t ∉ sleeping w →
  (∃ w', step (Run t) w = Some w') ∨ (∃ m r' u, lock_rule SEM m r = Some r' ∧ owner w m = Some u) ∨ r = Consumer W_out.
Proof.
  intros [_ Hg Hlen Hfits] Hr Ht. assert (is_Some (threads w !! t)) as [p Hp].
  { apply lookup_lt_is_Some. rewrite <- Hlen. by eapply lookup_lt_Some. }
  pose proof (Hfits t p r Hp Hr) as Hf. cbn [step]. rewrite bool_decide_false, Hp by done. cbn.
  destruct p as [a|B o k|C body k]; cbn [run]; [done| |left; by eexists].
  assert (Hd : (∃ b w', exec o t w = Some (b, w')) ∨ (∃ m r' u, lock_rule SEM m r = Some r' ∧ owner w m = Some u) ∨ r = Consumer W_out).
  { destruct o; cbn; try (left; by do 2 eexists).
    - destruct (owner w m) as [u|] eqn:E; [|left; by do 2 eexists]. right. left.
      destruct (Hf ()) as (r' & Hb & _). by exists m, r', u.
    - destruct (0 <? sem w); [left; by do 2 eexists|]. right. right. destruct (Hf ()) as (r' & Hb & _). cbn in Hb.
      by destruct r as [[]|]. }
  destruct Hd as [(b & w' & ->)|Hd]; [left; by eexists|by right].
Qed.
Lemma owner_runs ks roles w : inv ks roles w → ∀ n m u, (rank m + n = 2)%nat → owner w m = Some u →
  ∃ t w', (t ∉ sleeping w) ∧ step (Run t) w = Some w'.
Proof.
  intros Hi. pose proof Hi as [_ Hg _ _]. induction n as [n IH] using lt_wf_ind. intros m u Hn Hm.
  destruct (g_owned _ _ _ Hg m u Hm) as [r Hr]. pose proof (proj2 (g_owner _ _ _ Hg u r m Hr) Hm) as Hh.
  assert (Hs : u ∉ sleeping w).
  { intros Hs. rewrite (g_asleep _ _ _ Hg u Hs) in Hr. injection Hr as <-. destruct m as [|[]]; cbn in Hh; [|done..].
    by rewrite andb_false_r in Hh. }
  destruct (inv_runs _ _ _ _ _ Hi Hr Hs) as [[w' Hw]|[(m' & r' & u' & Hl & Ho)| ->]]; [by exists u, w'| |].
  - pose proof (lock_rank _ _ _ _ Hl Hh). apply (IH (2 - rank m')%nat) with (m := m') (u := u'); [| |done].
    + assert (rank m' ≤ 2)%nat by (destruct m' as [|[]]; cbn; lia). lia.
    + assert (rank m' ≤ 2)%nat by (destruct m' as [|[]]; cbn; lia). lia.
  - destruct m as [|[]]; cbn in Hh; [|done..]. by rewrite andb_false_r in Hh.
Qed.

(** C27: as long as there is a producer nothing deadlocks: a thread that does not sleep can always go on.  While [mutex_thread] is
    free a consumer sleeps only when the flag is not set, so that none sleeps through a flag that is set; two notifications
    may still set it once ([cond_leaves_pairs]). *)
Theorem queues_progress js w : Forall suits js → true ∈ (producer <$> js) → reaches (started (program_of <$> js)) w →
  (∃ t w', (t ∉ sleeping w) ∧ step (Run t) w = Some w') ∧
  ∀ t, t ∈ sleeping w → owner w MThread = None → ready w = false.
Proof.
  intros Hm Hp Hr. destruct (inv_reaches _ _ _ _ (jobs_inv js Hm) Hr) as [roles Hi].
  pose proof Hi as [Hk Hg _ _]. split.
  - rewrite <- Hk in Hp. apply list_elem_of_lookup in Hp as [t Ht]. rewrite list_lookup_fmap in Ht.
    destruct (roles !! t) as [r|] eqn:Hrt; [|done]. cbn in Ht. injection Ht as Hpt.
    assert (Hs : t ∉ sleeping w). { intros Hs. rewrite (g_asleep _ _ _ Hg t Hs) in Hrt. by simplify_eq. }
    destruct (inv_runs _ _ _ _ _ Hi Hrt Hs) as [[w' Hw]|[(m & r' & u & _ & Ho)| ->]]; [by exists t, w'| |done].
    apply (owner_runs _ _ _ Hi (2 - rank m) m u); [destruct m as [|[]]; cbn; lia|done].
  - intros t Ht Hfree. destruct (ready w) eqn:E; [|done]. exfalso. destruct (g_wake _ _ _ Hg t Ht E) as (u & q & Hu).
    assert (Ho : owner w MThread = Some u) by by apply (g_owner _ _ _ Hg u _ _ Hu). congruence.
Qed.
End Steps.

(** ** The semaphore *)

Lemma at_sem_wait {SEM} k r : fits SEM (Act Sem_wait k) r → count r = 0 ∧ half r = 0.
Proof. intros H. destruct (H ()) as (r' & Hb & _). cbn in Hb. by destruct r as [[]|]. Qed.
Lemma at_turn {SEM} q r : fits SEM (notify_routine SEM q) r → count r = 0 ∧ half r = 0.
Proof.
  intros (I & HI & Hb). specialize (Hb r HI). cbn in Hb. destruct (Hb ()) as (r1 & H1 & Hb1). cbn in H1.
  destruct (Hb1 ()) as (r2 & H2 & _). cbn in H2. unfold push_rule in H2. destruct r1 as [|q1 []]; try done.
  destruct q, r as [[]|q2 []]; cbn in H1; repeat case_decide; simplify_eq; destruct SEM; done.
Qed.

(** C12: with the semaphore no pair is left behind: when every consumer waits for it and every producer is between two
    turns, there are no more complete pairs than the semaphore counts. *)
Theorem sem_keeps_pairs js w : Forall (suits true) js → reaches (started (program_of true <$> js)) w →
  (∀ t p, threads w !! t = Some p → (∃ k, p = Act Sem_wait k) ∨ ∃ q, p = notify_routine true q) →
  len w Q1 `min` len w Q2 ≤ sem w.
Proof.
  intros Hm Hr Hrest. destruct (inv_reaches true _ _ _ _ (jobs_inv true js Hm) Hr) as [roles [_ Hg Hlen Hfits]].
  assert (Hz : ∀ t r, roles !! t = Some r → count r = 0 ∧ half r = 0).
  { intros t r Ht. assert (is_Some (threads w !! t)) as [p Hp].
    { apply lookup_lt_is_Some. rewrite <- Hlen. by eapply lookup_lt_Some. }
    pose proof (Hfits t p r Hp Ht) as Hf. destruct (Hrest t p Hp) as [[k ->]|[q ->]]; [by eapply at_sem_wait|by eapply at_turn]. }
  pose proof (g_told _ _ _ Hg eq_refl) as H. unfold pairs_told in H.
  rewrite (sumZ_zero half half_nonneg), (sumZ_zero count count_nonneg) in H; [lia| |]; intros t r Ht; by apply (Hz t r).
Qed.

End Machine.

Module DemoQueues.
#[local] Abbreviation step := (step (INFO := Z) 0).
#[local] Abbreviation reaches := (reaches (INFO := Z) 0).
Definition crew : list job := [Consume; Produce Q1; Produce Q2].
Lemma crew_suits SEM : Forall (suits SEM) crew.
Proof. by repeat constructor. Qed.
Example crew_is_main SEM : @started Z (program_of SEM <$> crew) = main2 SEM.
Proof. done. Qed.

(** Every producer has a turn of its own, or two, while the consumer does nothing. *)
Definition turns (SEM : bool) (n : nat) (w : world (INFO := Z)) : world :=
  drive step [Run 2] n (drive step [Run 1] n w).
Lemma turns_reaches SEM n w w' : reaches w w' → reaches w (turns SEM n w').
Proof. intros H. etrans; [exact H|]. etrans; apply drive_reaches. Qed.

Definition posted : world := drive step [Run 0] 1 (turns true 8 (main2 true)).
Lemma posted_reached : reaches (main2 true) posted.
Proof. etrans; [apply (turns_reaches true 8), rtc_refl|apply drive_reaches]. Qed.

Definition at_sem (p : Program.prog op ()) : Prop := match p with Act Sem_wait _ => True | _ => False end.
Lemma at_sem_inv p : at_sem p → ∃ k, p = Act Sem_wait k.
Proof. destruct p as [|B o k|]; [done| |done]. destruct o; try done. by eexists. Qed.
Lemma posted_threads :
  match threads posted with [p0; p1; p2] => at_sem p0 ∧ p1 = notify_routine true Q1 ∧ p2 = notify_routine true Q2 | _ => False end.
Proof. by vm_compute. Qed.

Lemma queues_bounded_witness : fault posted = false ∧ ∀ q, len posted q ≤ 5 ∧ (owner posted (MQueue q) = None → len posted q ≤ 4).
Proof. exact (queues_bounded 0 true crew posted (crew_suits true) posted_reached). Defined.
Lemma sem_keeps_pairs_witness : len posted Q1 = 1 ∧ len posted Q2 = 1 ∧ len posted Q1 `min` len posted Q2 ≤ sem posted.
Proof.
  split_and!; [by vm_compute..|]. apply (sem_keeps_pairs 0 crew posted (crew_suits true) posted_reached).
  intros t p Hp. pose proof posted_threads as H. destruct (threads posted) as [|p0 [|p1 [|p2 [|? ?]]]]; try done.
  destruct H as (H0 & -> & ->). destruct t as [|[|[|t]]]; try done; cbn in Hp; injection Hp as <-; [left; by apply at_sem_inv|right; by eexists..].
Defined.

(** The consumer tells nothing from a thing that was there before: four turns of the producers, one of the consumer. *)
Definition left_behind : world := drive step [Run 0] 100 (turns false 11 (turns false 11 (main2 false))).
Lemma left_behind_reached : reaches (main2 false) left_behind.
Proof. etrans; [do 2 apply (turns_reaches false 11); apply rtc_refl|apply drive_reaches]. Qed.
Lemma queues_progress_witness :
  (∃ t w', (t ∉ sleeping left_behind) ∧ step (Run t) left_behind = Some w') ∧
  ∀ t, t ∈ sleeping left_behind → owner left_behind MThread = None → ready left_behind = false.
Proof.
  apply (queues_progress 0 false crew left_behind (crew_suits false)); [cbn; set_solver|exact left_behind_reached].
Defined.

(** C40: with the condition variable a pair can be left behind: two notifications count as one when the consumer
    is not waiting, and it sleeps although both queues have something in them and the producers are
    between two turns. *)
Theorem cond_leaves_pairs : ∃ w, reaches (main2 false) w ∧
  0%nat ∈ sleeping w ∧ ready w = false ∧ len w Q1 = 1 ∧ len w Q2 = 1 ∧ (∀ m, owner w m = None) ∧
  threads w !! 1%nat = Some (notify_routine false Q1) ∧ threads w !! 2%nat = Some (notify_routine false Q2).
Proof.
  exists left_behind. split; [exact left_behind_reached|]. split_and!; try by vm_compute.
  by intros [|[]].
Qed.
End DemoQueues.
