(* ===== verification/Backtrace.v ===== *)
(** Backtraces from a signal handler: libbacktrace/backtrace.c.

    The frames come from the unwinder, and what is known of an address from [dladdr]: both are
    parameters.  The names are written one after the other into the memory of the array of their
    addresses; the memory is one of bytes, and a write past its end is a fault. *)
From S2P Require Import Prelude Unix Bytes.

(** * Collecting the frames *)

(** [array] is as long as the memory behind the pointer. *)
Record trace_arg := mkTrace { array : list Z; cnt : Z; size : Z }.
#[export] Instance eta_trace : Eta trace_arg := λ s, mkTrace (array s) (cnt s) (size s).

(** Whether the unwinder is to go on. *)
Definition backtrace_helper (ip : Z) : M trace_arg bool :=
  n ← gets cnt;
  when (negb (n =? -1))
    (a ← gets array;
     if (0 <=? n) && (n <? Z.of_nat (length a))
     then modify (λ s, s <| array := <[Z.to_nat n := ip]> a |>) else stop_with Fault);;
  modify (λ s, s <| cnt := n + 1 |>);;
  m ← gets size;
  mret (negb (n + 1 =? m)).

(** [_Unwind_Backtrace]: the function is called for every frame until it says otherwise. *)
Fixpoint unwind_backtrace (ips : list Z) : M trace_arg () :=
  match ips with
  | [] => mret ()
  | ip :: ips => b ← backtrace_helper ip; when b (unwind_backtrace ips)
  end.

(** The number of frames, and the array with them. *)
Definition backtrace (ips : list Z) (arr : list Z) (sz : Z) : outcome trace_arg Z :=
  (when (1 <=? sz) (unwind_backtrace ips);;
   n ← gets cnt;
   a ← gets array;
   when ((1 <? n) && bool_decide (a !! Z.to_nat (n - 1) = Some 0)) (modify (λ s, s <| cnt := n - 1 |>));;
   n ← gets cnt;
   mret (if negb (n =? -1) then n else 0)) (mkTrace arr (-1) sz).

(** * What is known of an address *)

(** Of a call of [dladdr] that finds something. *)
Record Dl_info := mkInfo { dli_fname : option str; dli_sname : option str; dli_saddr : Z }.
Class Dynlink := {
  dladdr : Z → option Dl_info;
  unwound : list Z;                              (* the frames, from [backtrace] itself on *)
}.
(** Names are C strings. *)
Class DynlinkLaws `{!Dynlink} := {
  fname_string a i f : dladdr a = Some i → dli_fname i = Some f → zero ∉ f;
  sname_string a i f : dladdr a = Some i → dli_sname i = Some f → zero ∉ f;
}.

Definition WORD_WIDTH := 16.

Definition digits : str := lit "0123456789abcdef".
Definition hex_digit (n : Z) : ascii := default "?"%char (digits !! Z.to_nat n).
Fixpoint hex (fuel : nat) (n : Z) : str :=
  match fuel with
  | O => []
  | S fuel => (if n / 16 =? 0 then [] else hex fuel (n / 16)) ++ [hex_digit (n mod 16)]
  end.
(** [%#lx] and [%p]; a word has at most 16 digits. *)
Definition hex_alt (n : Z) : str := if n =? 0 then lit "0" else lit "0x" ++ hex 16 n.
Definition pointer (a : Z) : str := if a =? 0 then lit "(nil)" else lit "0x" ++ hex 16 a.

Section Symbols.
Context `{Dynlink}.

(** [info[cnt].dli_fname && info[cnt].dli_fname[0] != '\0'] *)
Definition file_of (info : Dl_info) : option str :=
  match dli_fname info with Some (c :: f) => Some (c :: f) | _ => None end.

(** What is added to [total] for an address. *)
Definition entry_room (a : Z) : Z :=
  match dladdr a with
  | Some info =>
      match file_of info with
      | Some f =>
          Z.of_nat (length f) +
          match dli_sname info with Some s => Z.of_nat (length s) + 3 + WORD_WIDTH + 3 | None => 1 end + WORD_WIDTH + 5
      | None => 5 + WORD_WIDTH
      end
  | None => 5 + WORD_WIDTH
  end.

(** The offset from the symbol, written into [buf]. *)
Definition offset_text (a saddr : Z) : str :=
  if saddr <=? a then "+"%char :: hex_alt (w64 (a - saddr)) else "-"%char :: hex_alt (w64 (saddr - a)).
Definition bracketed (a : Z) : str := lit "[" ++ pointer a ++ lit "]".

Record text := mkText {
  memory : Z → ascii;
  result : gmap Z Z;                             (* the pointers, as offsets into the memory *)
  capacity : Z;
}.
Definition set_memory (m : Z → ascii) (t : text) : text := mkText m (result t) (capacity t).
Definition set_result (r : gmap Z Z) (t : text) : text := mkText (memory t) r (capacity t).

(** [sprintf] into a buffer with room for [room] characters. *)
Definition sprintf_in (room : Z) (s : str) : M text str :=
  if Z.of_nat (length s) + 1 <=? room then mret s else stop_with Fault.
(** [sprintf (last, ...)], and the length of what was written. *)
Definition sprintf_at (last : Z) (s : str) : M text Z :=
  cap ← gets capacity;
  if last + Z.of_nat (length s) + 1 <=? cap then
    modify (λ t, set_memory (write_bytes last (s ++ [zero]) (memory t)) t);;
    mret (Z.of_nat (length s))
  else stop_with Fault.
Definition store_result (i v : Z) : M text () :=
  cap ← gets capacity;
  if 8 * i + 8 <=? cap then modify (λ t, set_result (<[i := v]> (result t)) t) else stop_with Fault.

Definition write_entry (last a : Z) : M text Z :=
  match dladdr a with
  | Some info =>
      match file_of info with
      | Some f =>
          buf ← sprintf_in 20 (offset_text a (dli_saddr info));
          sprintf_at last (f ++ match dli_sname info with Some s => lit "(" ++ s ++ buf ++ lit ") " | None => lit " " end
                             ++ bracketed a)
      | None => sprintf_at last (bracketed a)
      end
  | None => sprintf_at last (bracketed a)
  end.
Fixpoint write_entries (i : Z) (addrs : list Z) (last : Z) : M text Z :=
  match addrs with
  | [] => mret last
  | a :: addrs =>
      store_result i last;;
      n ← write_entry last a;
      write_entries (i + 1) addrs (last + (1 + n))
  end.

(** An array of variable length has at least one element. *)
Definition backtrace_symbols (addrs : list Z) (max_len : Z) : M text () :=
  if (length addrs =? 0)%nat then stop_with Fault else
  last ← write_entries 0 addrs (8 * Z.of_nat (length addrs));
  assert (last <=? max_len).

(** * Printing them *)

Definition MAX_SYS_TRACE_LAYER := 15.
Definition MAX_SYS_TRACE_PRINT := 1536.

(** The C string at an offset. *)
Fixpoint read_string (fuel : nat) (a : Z) : M text str :=
  match fuel with
  | O => stop_with Fault
  | S fuel =>
      c ← gets (λ t, memory t a);
      if decide (c = zero) then mret [] else s ← read_string fuel (a + 1); mret (c :: s)
  end.
Definition decimal2 (i : Z) : str := [hex_digit (i / 10); hex_digit (i mod 10)].
(** [printf ("#%02d %s\n", i, name[i])] *)
Definition line (i : Z) (name : str) : str := "#"%char :: decimal2 i ++ " "%char :: name.
Fixpoint print_lines (n : nat) (i : Z) : M text (list str) :=
  match n with
  | O => mret []
  | S n =>
      t ← gets id;
      a ← from_option_or Fault (result t !! i);
      s ← read_string (Z.to_nat (capacity t - a)) a;
      rest ← print_lines n (i + 1);
      mret (line i s :: rest)
  end.

(** [char *name[MAX_SYS_TRACE_PRINT] = {0}], eight bytes for each. *)
Definition empty_text : text := mkText (λ _, zero) ∅ (8 * MAX_SYS_TRACE_PRINT).
Definition watch_backtrace : outcome text (list str) :=
  match backtrace unwound (replicate (Z.to_nat MAX_SYS_TRACE_LAYER) 0) MAX_SYS_TRACE_LAYER with
  | Done n tr =>
      (backtrace_symbols (take (Z.to_nat n) (array tr)) MAX_SYS_TRACE_PRINT;;
       print_lines (Z.to_nat n) 0) empty_text
  | Stop w _ => Stop w empty_text
  end.

(** * The handler *)

(** What a process does on a signal, the signals it has raised, and what it printed. *)
Inductive disposition := SIG_DFL | Handled.
#[export] Instance disposition_eq_dec : EqDecision disposition.
Proof. solve_decision. Defined.
Record process := mkProcess { actions : gmap Z disposition; raised : list Z; printed : list str }.
#[export] Instance eta_process : Eta process := λ s, mkProcess (actions s) (raised s) (printed s).
Definition SIGSEGV := 11.
Definition SIGABRT := 6.

Definition sigaction (signalnum : Z) (d : disposition) : M process () :=
  modify (λ p, p <| actions := <[signalnum := d]> (actions p) |>).
Definition backtrace_reg : M process () := sigaction SIGSEGV Handled;; sigaction SIGABRT Handled.

(** The line that names the signal, the process and the thread, and the two lines around the frames. *)
Context (header : Z → str) (start_line end_line : str).
Definition printf (l : str) : M process () := modify (λ p, p <| printed := printed p ++ [l] |>).
Definition handler_func (signalnum : Z) : M process () :=
  printf (header signalnum);;
  printf start_line;;
  (λ p, match watch_backtrace with
        | Done ls _ => Done () (p <| printed := printed p ++ ls |>)
        | Stop w _ => Stop w p
        end);;
  printf end_line;;
  sigaction signalnum SIG_DFL;;
  modify (λ p, p <| raised := raised p ++ [signalnum] |>).

(** A signal comes; the same one raised by the handler comes when the handler is done.  By default the process is killed. *)
Definition signal_comes (signalnum : Z) : M process () :=
  acts ← gets actions;
  match acts !! signalnum with
  | Some Handled =>
      handler_func signalnum;;
      p ← gets id;
      if bool_decide (signalnum ∈ raised p) && bool_decide (actions p !! signalnum ≠ Some Handled) then stop_with Aborted
      else mret ()
  | _ => stop_with Aborted
  end.
(** The program of the demonstration: it writes through a null pointer. *)
Definition main : M process () := backtrace_reg;; signal_comes SIGSEGV.
End Symbols.

(** * Numbers *)

Definition digit_value (c : ascii) : Z := match list_find (.= c) digits with Some (i, _) => Z.of_nat i | None => 0 end.
Definition hex_value (s : str) : Z := foldl (λ v c, 16 * v + digit_value c) 0 s.

Lemma digit_case (P : Z → Prop) : Forall P (Z.of_nat <$> seq 0 16) → ∀ d, 0 ≤ d < 16 → P d.
Proof.
  intros H d Hd. rewrite Forall_forall in H. apply H. apply list_elem_of_fmap. exists (Z.to_nat d).
  split; [lia|]. apply elem_of_seq. lia.
Qed.
Lemma hex_digit_value d : 0 ≤ d < 16 → digit_value (hex_digit d) = d.
Proof. apply (digit_case (λ d, digit_value (hex_digit d) = d)). by repeat constructor. Qed.
Lemma hex_digit_not_zero d : 0 ≤ d < 16 → hex_digit d ≠ zero.
Proof. apply (digit_case (λ d, hex_digit d ≠ zero)). by repeat constructor. Qed.

(** The digits of a number below [16^fuel] are its value; so an address in a backtrace is the address. *)
Lemma hex_reads_back fuel n : 0 ≤ n < 16 ^ Z.of_nat fuel → hex_value (hex fuel n) = n.
Proof.
  revert n. induction fuel as [|fuel IH]; intros n Hn; [by replace n with 0 by lia|]. cbn [hex].
  pose proof (Z.mod_pos_bound n 16). pose proof (Z.div_mod n 16).
  assert (Hd : 0 ≤ n / 16 < 16 ^ Z.of_nat fuel).
  { split; [apply Z.div_pos; lia|]. apply Z.div_lt_upper_bound; [lia|]. rewrite Nat2Z.inj_succ, Z.pow_succ_r in Hn; lia. }
  unfold hex_value. rewrite foldl_app. cbn [foldl]. rewrite hex_digit_value by lia.
  destruct (Z.eqb_spec (n / 16) 0) as [E|E]; [cbn; lia|]. fold (hex_value (hex fuel (n / 16))). rewrite IH by done. lia.
Qed.
Lemma hex_length fuel n : (length (hex fuel n) ≤ fuel)%nat.
Proof.
  revert n. induction fuel as [|fuel IH]; intros n; [done|]. cbn [hex]. rewrite length_app. cbn.
  destruct (n / 16 =? 0); [cbn; lia|]. pose proof (IH (n / 16)). lia.
Qed.
Lemma hex_string fuel n : zero ∉ hex fuel n.
Proof.
  revert n. induction fuel as [|fuel IH]; intros n; cbn [hex]; [apply not_elem_of_nil|].
  rewrite not_elem_of_app, list_elem_of_singleton. split; [destruct (n / 16 =? 0); [apply not_elem_of_nil|apply IH]|].
  intros E. symmetry in E. revert E. apply hex_digit_not_zero. apply Z.mod_pos_bound. lia.
Qed.

(** * The frames *)

Lemma wp_helper ip a n sz (Q : bool → trace_arg → Prop) :
  0 ≤ n < Z.of_nat (length a) →
  Q (negb (n + 1 =? sz)) (mkTrace (<[Z.to_nat n := ip]> a) (n + 1) sz) →
  wp (backtrace_helper ip) Q (mkTrace a n sz).
Proof.
  intros Hn HQ. unfold backtrace_helper. wp_step. wp_step. wp_step. cbn [cnt]. rewrite (proj2 (Z.eqb_neq n (-1))) by lia.
  cbn [negb when]. wp_step. wp_step. cbn [array].
  rewrite (proj2 (Z.leb_le 0 n)), (proj2 (Z.ltb_lt n _)) by lia. cbn [andb]. wp_go. exact HQ.
Qed.
(** From the [n]th entry on. *)
Lemma wp_unwind ips a n sz :
  0 ≤ n < sz → sz ≤ Z.of_nat (length a) →
  wp (unwind_backtrace ips) (λ _ s, ∃ k, k = Z.min (Z.of_nat (length ips)) (sz - n) ∧
    s = mkTrace (take (Z.to_nat n) a ++ take (Z.to_nat k) ips ++ drop (Z.to_nat (n + k)) a) (n + k) sz) (mkTrace a n sz).
Proof.
  revert a n. induction ips as [|ip ips IH]; intros a n Hn Hsz; cbn [unwind_backtrace].
  - apply wp_ret. exists 0. split; [cbn; lia|]. rewrite Z.add_0_r, take_nil. cbn [app]. by rewrite take_drop.
  - wp_step. apply wp_helper; [lia|]. destruct (Z.eqb_spec (n + 1) sz) as [E|E]; cbn [negb when].
    + apply wp_ret. exists 1. split; [cbn [length]; lia|]. change (Z.to_nat 1) with 1%nat. cbn [take]. f_equal.
      rewrite insert_take_drop by lia. do 3 f_equal. lia.
    + eapply wp_mono; [apply IH; [lia|rewrite length_insert; lia]|]. intros [] s (k & Hk & ->).
      exists (k + 1). split; [cbn [length]; lia|]. f_equal; [|lia].
      replace (Z.to_nat (k + 1)) with (S (Z.to_nat k)) by lia. cbn [take app].
      rewrite insert_take_drop by lia. replace (Z.to_nat (n + 1)) with (S (Z.to_nat n)) by lia.
      replace (Z.to_nat (n + 1 + k)) with (S (Z.to_nat n) + Z.to_nat k)%nat by lia.
      assert (Hl : length (take (Z.to_nat n) a) = Z.to_nat n) by (rewrite length_take; lia).
      rewrite take_app, Hl, drop_app, Hl.
      rewrite (take_ge (take (Z.to_nat n) a)) by lia. rewrite (drop_ge (take (Z.to_nat n) a)) by lia.
      replace (S (Z.to_nat n) - Z.to_nat n)%nat with 1%nat by lia. cbn [take app]. rewrite <- app_assoc. cbn [app].
      rewrite take_0. cbn [app]. do 3 f_equal. replace (S (Z.to_nat n) + Z.to_nat k - Z.to_nat n)%nat with (S (Z.to_nat k)) by lia.
      cbn [drop]. rewrite drop_drop. f_equal. lia.
Qed.

(** What is shown of the frames: as many as there is room for, without a last one that is NULL. *)
Definition shown (sz : nat) (frames : list Z) : list Z :=
  let l := take sz frames in if bool_decide (last l = Some 0) && (1 <? length l)%nat then removelast l else l.

Lemma shown_length sz frames : (length (shown sz frames) ≤ sz)%nat.
Proof.
  unfold shown. assert (H : (length (take sz frames) ≤ sz)%nat) by (rewrite length_take; lia). revert H.
  destruct (_ && _); [|done]. induction (take sz frames) as [|a l _] using rev_ind; [done|].
  rewrite removelast_last, length_app. lia.
Qed.

(** [backtrace] fills the array with the frames that called it, as many as there are and fit, leaves out a NULL at the
    end and writes nothing past the array. *)
Lemma backtrace_run here frames arr sz : 1 ≤ sz ≤ Z.of_nat (length arr) →
  ∃ s, backtrace (here :: frames) arr sz = Done (Z.of_nat (length (shown (Z.to_nat sz) frames))) s ∧
    take (length (shown (Z.to_nat sz) frames)) (array s) = shown (Z.to_nat sz) frames ∧
    length (array s) = length arr ∧
    ∀ i, (length frames ≤ i ∨ Z.to_nat sz ≤ i)%nat → array s !! i = arr !! i.
Proof.
  intros Hsz. unfold backtrace. rewrite (proj2 (Z.leb_le 1 sz)) by lia. cbn [when].
  set (l := take (Z.to_nat sz) frames).
  assert (Hu : wp (unwind_backtrace (here :: frames)) (λ _ s, s = mkTrace (l ++ drop (length l) arr) (Z.of_nat (length l)) sz)
                 (mkTrace arr (-1) sz)).
  { cbn [unwind_backtrace]. wp_step. unfold wp at 1.
    change (backtrace_helper here (mkTrace arr (-1) sz)) with (Done (negb (0 =? sz)) (mkTrace arr 0 sz)).
    cbv iota beta. rewrite (proj2 (Z.eqb_neq 0 sz)) by lia.
    cbn [negb when]. eapply wp_mono; [apply wp_unwind; lia|]. intros [] s (k & Hk & ->).
    assert (Z.to_nat k = length l) by (unfold l; rewrite length_take; lia). rewrite Z.add_0_l. f_equal; [|lia].
    change (take (Z.to_nat 0) arr) with (@nil Z). cbn [app]. rewrite H. f_equal. unfold l. rewrite length_take.
    destruct (decide (Z.to_nat sz ≤ length frames)%nat); [f_equal; lia|by rewrite !take_ge by lia]. }
  apply wp_done in Hu as ([] & s1 & E & ->). unfold mbind, M_bind. rewrite E. unfold gets, when, modify, mret, M_ret. cbn [cnt array size].
  assert (Hl : (length l ≤ Z.to_nat sz)%nat) by (unfold l; rewrite length_take; lia).
  assert (Hll : length (l ++ drop (length l) arr) = length arr) by (rewrite length_app, length_drop; lia).
  assert (Hf : ∀ i, (length frames ≤ i ∨ Z.to_nat sz ≤ i)%nat → (l ++ drop (length l) arr) !! i = arr !! i).
  { intros i Hi. unfold l in *. rewrite length_take in *. rewrite lookup_app_r by (rewrite length_take; lia).
    rewrite lookup_drop, length_take. f_equal. lia. }
  unfold shown. fold l.
  assert (Hc : (1 <? Z.of_nat (length l)) && bool_decide ((l ++ drop (length l) arr) !! Z.to_nat (Z.of_nat (length l) - 1) = Some 0)
             = bool_decide (last l = Some 0) && (1 <? length l)%nat).
  { rewrite andb_comm. destruct (Z.ltb_spec 1 (Z.of_nat (length l))), (Nat.ltb_spec 1 (length l)); try lia; try by rewrite !andb_false_r.
    rewrite last_lookup, lookup_app_l by lia. f_equal. apply bool_decide_ext. by replace (Z.to_nat (Z.of_nat (length l) - 1)) with (pred (length l)) by lia. }
  rewrite Hc. clear Hc E. destruct (bool_decide (last l = Some 0) && (1 <? length l)%nat) eqn:E.
  - apply andb_prop in E as [_ E%Nat.ltb_lt]. rewrite removelast_firstn_len.
    assert (Hr : length (take (pred (length l)) l) = pred (length l)) by (rewrite length_take; lia).
    exists (mkTrace (l ++ drop (length l) arr) (Z.of_nat (length l) - 1) sz). rs. cbn [cnt array size]. rewrite (proj2 (Z.eqb_neq _ (-1))) by lia. cbn [negb]. split_and!; [|by rewrite Hr, take_app_le by lia|done|exact Hf].
    f_equal. rewrite Hr. lia.
  - exists (mkTrace (l ++ drop (length l) arr) (Z.of_nat (length l)) sz). cbn [cnt array size]. rewrite (proj2 (Z.eqb_neq _ (-1))) by lia. cbn [negb].
    split_and!; [done|by rewrite take_app_length|done|exact Hf].
Qed.

(** * The names *)

Section Names.
Context `{DL : Dynlink} {Laws : DynlinkLaws}.

Definition entry_text (a : Z) : str :=
  match dladdr a with
  | Some info =>
      match file_of info with
      | Some f =>
          f ++ match dli_sname info with
               | Some s => lit "(" ++ s ++ offset_text a (dli_saddr info) ++ lit ") "
               | None => lit " "
               end ++ bracketed a
      | None => bracketed a
      end
  | None => bracketed a
  end.
(** The names of some addresses, each with its end. *)
Definition flat (addrs : list Z) : str := mjoin ((λ a, entry_text a ++ [zero]) <$> addrs).
Lemma flat_app l l' : flat (l ++ l') = flat l ++ flat l'.
Proof. unfold flat. by rewrite fmap_app, join_app. Qed.
Lemma flat_cons a l : flat (a :: l) = (entry_text a ++ [zero]) ++ flat l.
Proof. done. Qed.

Lemma prefixed_length n : (length (lit "0x" ++ hex 16 n) ≤ 18)%nat.
Proof. pose proof (hex_length 16 n). rewrite length_app. change (length (lit "0x")) with 2%nat. lia. Qed.
Lemma hex_alt_length n : (length (hex_alt n) ≤ 18)%nat.
Proof. unfold hex_alt. destruct (n =? 0); [cbn; lia|apply prefixed_length]. Qed.
Lemma offset_length a b : (length (offset_text a b) ≤ 19)%nat.
Proof. unfold offset_text. destruct (b <=? a); cbn [length]; apply le_n_S, hex_alt_length. Qed.
Lemma bracketed_length a : (length (bracketed a) ≤ 20)%nat.
Proof.
  unfold bracketed, pointer. rewrite !length_app. change (length (lit "[")) with 1%nat. change (length (lit "]")) with 1%nat.
  destruct (a =? 0); [cbn; lia|]. pose proof (prefixed_length a). lia.
Qed.

(** what [backtrace_symbols] adds up for an address is room enough for what it writes for it. *)
Theorem entry_room_suffices addrs : Z.of_nat (length (flat addrs)) ≤ sumZ entry_room addrs.
Proof.
  induction addrs as [|a addrs IH]; [done|]. rewrite flat_cons, !length_app. cbn [length].
  change (sumZ entry_room (a :: addrs)) with (entry_room a + sumZ entry_room addrs).
  assert (He : Z.of_nat (length (entry_text a)) + 1 ≤ entry_room a); [|lia]. pose proof (bracketed_length a).
  unfold entry_text, entry_room, WORD_WIDTH. destruct (dladdr a) as [i|]; [|lia]. destruct (file_of i) as [f|]; [|lia].
  pose proof (offset_length a (dli_saddr i)). destruct (dli_sname i); rewrite !length_app; cbn [length lit String.list_ascii_of_string]; lia.
Qed.

Lemma write_entry_text last a (Q : Z → text → Prop) (E : stop → text → Prop) t :
  (last + Z.of_nat (length (entry_text a)) + 1 ≤ capacity t →
     Q (Z.of_nat (length (entry_text a))) (set_memory (write_bytes last (entry_text a ++ [zero]) (memory t)) t)) →
  (capacity t < last + Z.of_nat (length (entry_text a)) + 1 → E Fault t) →
  wpx (write_entry last a) Q E t.
Proof.
  intros HQ HE. assert (Hs : wpx (sprintf_at last (entry_text a)) Q E t).
  { unfold sprintf_at. wpx_step. wpx_step. destruct (Z.leb_spec (last + Z.of_nat (length (entry_text a)) + 1) (capacity t)).
    - wpx_go. by apply HQ.
    - apply wpx_stop, HE. lia. }
  unfold write_entry, entry_text in *. destruct (dladdr a) as [i|]; [|done]. destruct (file_of i) as [f|]; [|done].
  unfold sprintf_in. wpx_step. pose proof (offset_length a (dli_saddr i)).
  rewrite (proj2 (Z.leb_le _ 20)) by lia. wpx_step. exact Hs.
Qed.

(** All the names, from [last] on, and where each of them is. *)
Lemma wpx_write_entries i addrs last t :
  0 ≤ i → 8 * (i + Z.of_nat (length addrs)) ≤ last ≤ capacity t →
  wpx (write_entries i addrs last)
    (λ r t', r = last + Z.of_nat (length (flat addrs)) ∧ r ≤ capacity t ∧ capacity t' = capacity t ∧
       memory t' = write_bytes last (flat addrs) (memory t) ∧
       (∀ k, (k < length addrs)%nat → result t' !! (i + Z.of_nat k) = Some (last + Z.of_nat (length (flat (take k addrs))))) ∧
       ∀ k, k < i → result t' !! k = result t !! k)
    (λ w _, w = Fault ∧ capacity t < last + Z.of_nat (length (flat addrs))) t.
Proof.
  revert i last t. induction addrs as [|a addrs IH]; intros i last t Hi Hl; cbn [write_entries].
  - wpx_step. cbn. split_and!; [lia|lia|done|done| |done]. intros k Hk. lia.
  - cbn [length] in Hl. wpx_step. unfold store_result. wpx_step. wpx_step. rewrite (proj2 (Z.leb_le (8 * i + 8) (capacity t))) by lia.
    wpx_step. wpx_step. rewrite flat_cons, !length_app. cbn [length]. apply write_entry_text.
    2:{ cbn [capacity set_result]. intros Hc. split; [done|lia]. }
    cbn [capacity set_result memory]. intros Hc.
    eapply wpx_mono; [apply IH; cbn [capacity set_result set_memory]; lia| |].
    + cbn [capacity set_result set_memory memory result]. intros r t' (-> & Hr & Hcap & Hm & Hres & Hold). split_and!.
      * lia.
      * lia.
      * done.
      * rewrite Hm. replace (last + (1 + Z.of_nat (length (entry_text a)))) with (last + Z.of_nat (length (entry_text a ++ [zero])))
          by (rewrite length_app; cbn; lia). apply write_bytes_app.
      * intros [|k] Hk.
        { rewrite Z.add_0_r. rewrite Hold by lia. rewrite lookup_insert_eq. cbn. by rewrite Z.add_0_r. }
        { replace (i + Z.of_nat (S k)) with (i + 1 + Z.of_nat k) by lia. rewrite Hres by (cbn in Hk; lia).
          cbn [take]. rewrite flat_cons, !length_app. cbn [length]. f_equal. lia. }
      * intros k Hk. rewrite Hold by lia. by rewrite lookup_insert_ne by lia.
    + cbn [capacity set_result set_memory]. intros w t' [-> Hlt]. split; [done|lia].
Qed.

(** ** Reading them *)

Lemma offset_string a b : zero ∉ offset_text a b.
Proof.
  assert (Hx : ∀ n, zero ∉ hex_alt n).
  { intros n. unfold hex_alt. destruct (n =? 0); [by apply (bool_decide_eq_true_1 (zero ∉ lit "0"))|].
    rewrite not_elem_of_app. split; [by apply (bool_decide_eq_true_1 (zero ∉ lit "0x"))|apply hex_string]. }
  unfold offset_text. destruct (b <=? a); apply not_elem_of_cons; by split.
Qed.
Lemma bracketed_string a : zero ∉ bracketed a.
Proof.
  unfold bracketed, pointer. rewrite !not_elem_of_app. split_and!; try by apply (bool_decide_eq_true_1 (zero ∉ lit _)).
  destruct (a =? 0); [by apply (bool_decide_eq_true_1 (zero ∉ lit "(nil)"))|].
  rewrite not_elem_of_app. split; [by apply (bool_decide_eq_true_1 (zero ∉ lit "0x"))|apply hex_string].
Qed.
Lemma entry_string a : zero ∉ entry_text a.
Proof using Laws.
  unfold entry_text. destruct (dladdr a) as [i|] eqn:E; [|apply bracketed_string].
  destruct (file_of i) as [f|] eqn:Ef; [|apply bracketed_string].
  assert (Hf : dli_fname i = Some f). { unfold file_of in Ef. destruct (dli_fname i) as [[|c g]|]; by simplify_eq. }
  rewrite !not_elem_of_app. split_and!; [by eapply fname_string| |apply bracketed_string].
  destruct (dli_sname i) as [s|] eqn:Es; [|by apply (bool_decide_eq_true_1 (zero ∉ lit " "))].
  rewrite !not_elem_of_app. split_and!; [by apply (bool_decide_eq_true_1 (zero ∉ lit "("))|by eapply sname_string|apply offset_string|].
  by apply (bool_decide_eq_true_1 (zero ∉ lit ") ")).
Qed.

Lemma wp_read_string fuel a s (Q : str → text → Prop) t :
  zero ∉ s → bytes_at a (s ++ [zero]) (memory t) → (length s < fuel)%nat → Q s t → wp (read_string fuel a) Q t.
Proof.
  revert a s Q. induction fuel as [|fuel IH]; intros a s Q Hs Hb Hf HQ; [lia|]. cbn [read_string]. wp_step. wp_step.
  pose proof (Hb 0%nat) as H0. rewrite Z.add_0_r in H0. destruct s as [|c s]; cbn in H0.
  - rewrite (H0 _ eq_refl), decide_True by done. wp_go. done.
  - apply not_elem_of_cons in Hs as [Hc Hs]. rewrite (H0 _ eq_refl), decide_False by done. wp_step. apply (IH _ s); [done| |cbn in Hf; lia|].
    + intros i b Hi. replace (a + 1 + Z.of_nat i) with (a + Z.of_nat (S i)) by lia. by apply Hb.
    + wp_go. done.
Qed.
Definition lines_of (i : Z) (addrs : list Z) : list str := imap (λ k a, line (i + Z.of_nat k) (entry_text a)) addrs.
Lemma lines_of_cons i a addrs : lines_of i (a :: addrs) = line i (entry_text a) :: lines_of (i + 1) addrs.
Proof.
  unfold lines_of. cbn [imap]. rewrite Z.add_0_r. f_equal. apply imap_ext. intros k x _. cbn [compose]. by replace (i + Z.of_nat (S k)) with (i + 1 + Z.of_nat k) by lia.
Qed.

Lemma wp_print_lines pre addrs last (Q : list str → text → Prop) t :
  bytes_at last (flat (pre ++ addrs)) (memory t) → last + Z.of_nat (length (flat (pre ++ addrs))) ≤ capacity t →
  (∀ k, (k < length (pre ++ addrs))%nat →
     result t !! Z.of_nat k = Some (last + Z.of_nat (length (flat (take k (pre ++ addrs)))))) →
  Q (lines_of (Z.of_nat (length pre)) addrs) t →
  wp (print_lines (length addrs) (Z.of_nat (length pre))) Q t.
Proof using Laws.
  revert pre Q. induction addrs as [|a addrs IH]; intros pre Q Hb Hc Hr HQ; cbn [print_lines length].
  - wp_go. exact HQ.
  - wp_step. wp_step. wp_step. unfold id. rewrite Hr by (rewrite length_app; cbn; lia). rewrite take_app_length. apply wp_ret.
    pose proof Hb as Hb'. pose proof Hc as Hc'. rewrite flat_app, flat_cons in Hb, Hc. rewrite !length_app in Hc. cbn [length] in Hc.
    apply bytes_at_app in Hb as [Hb1 Hb2]. pose proof Hb2 as Hb3. apply bytes_at_app in Hb2 as [Hb2 _].
    wp_step. eapply (wp_read_string _ _ (entry_text a)); [apply entry_string|exact Hb2|lia|].
    wp_step. replace (Z.of_nat (length pre) + 1) with (Z.of_nat (length (pre ++ [a]))) by (rewrite length_app; cbn; lia).
    apply IH; rewrite <- ?app_assoc; cbn [app].
    + exact Hb'.
    + exact Hc'.
    + exact Hr.
    + wp_go. rewrite lines_of_cons in HQ. rewrite length_app. cbn [length].
      by replace (Z.of_nat (length pre + 1)) with (Z.of_nat (length pre) + 1) by lia.
Qed.
End Names.

(** * What is printed *)

Section Printing.
Context `{DL : Dynlink} {Laws : DynlinkLaws}.

Definition bytes_needed (addrs : list Z) : Z := 8 * Z.of_nat (length addrs) + Z.of_nat (length (flat addrs)).

Lemma shown_nonempty n frames : frames ≠ [] → shown (S n) frames ≠ [].
Proof.
  intros Hf. unfold shown. destruct frames as [|a l]; [done|]. cbn [take]. destruct (take n l) as [|b l'].
  - cbn [length]. by rewrite andb_false_r.
  - by destruct (_ && _).
Qed.

Lemma wpx_symbols addrs t : addrs ≠ [] → capacity t = 8 * MAX_SYS_TRACE_PRINT →
  Z.of_nat (length addrs) ≤ MAX_SYS_TRACE_LAYER →
  wpx (backtrace_symbols addrs MAX_SYS_TRACE_PRINT ;; print_lines (length addrs) 0)
    (λ ls _, ls = lines_of 0 addrs ∧ bytes_needed addrs ≤ MAX_SYS_TRACE_PRINT)
    (λ w _, (w = AssertFailed ∧ MAX_SYS_TRACE_PRINT < bytes_needed addrs ≤ 8 * MAX_SYS_TRACE_PRINT) ∨
            (w = Fault ∧ 8 * MAX_SYS_TRACE_PRINT < bytes_needed addrs)) t.
Proof using Laws.
  intros Hn Hc Hl. unfold backtrace_symbols, bytes_needed, MAX_SYS_TRACE_PRINT, MAX_SYS_TRACE_LAYER in *.
  rewrite (proj2 (Nat.eqb_neq (length addrs) 0)) by (by destruct addrs).
  wpx_step. wpx_step. eapply wpx_mono; [apply wpx_write_entries; lia| |].
  - intros r t' (-> & Hr & Hcap & Hm & Hres & _). unfold assert.
    destruct (Z.leb_spec (8 * Z.of_nat (length addrs) + Z.of_nat (length (flat addrs))) 1536) as [Hle|Hgt].
    + wpx_step. apply wpx_wp. eapply (wp_print_lines []); [| |exact Hres|]; cbn [app].
      * intros i b Hi. rewrite Hm. by apply write_bytes_at.
      * lia.
      * done.
    + wpx_step. left. split; [done|lia].
  - intros w t' [-> Hlt]. right. split; [done|lia].
Qed.

(** The lines of a backtrace are the frames from the caller on, at most fifteen, each with its number, file, symbol,
    offset and address, when the text of them takes at most 1536 bytes; the array the text is written to has eight times as
    many, so that a longer text is written first and found too long afterwards, and one that does not fit the array either
    is a write outside it. *)
Lemma watch_backtrace_shows here frames : unwound = here :: frames → frames ≠ [] →
  let addrs := shown (Z.to_nat MAX_SYS_TRACE_LAYER) frames in
  match watch_backtrace with
  | Done ls _ => ls = lines_of 0 addrs ∧ bytes_needed addrs ≤ MAX_SYS_TRACE_PRINT
  | Stop AssertFailed _ => MAX_SYS_TRACE_PRINT < bytes_needed addrs ≤ 8 * MAX_SYS_TRACE_PRINT
  | Stop Fault _ => 8 * MAX_SYS_TRACE_PRINT < bytes_needed addrs
  | Stop _ _ => False
  end.
Proof using Laws.
  intros Hu Hf addrs. unfold watch_backtrace. rewrite Hu.
  destruct (backtrace_run here frames (replicate (Z.to_nat MAX_SYS_TRACE_LAYER) 0) MAX_SYS_TRACE_LAYER) as (s & -> & Ha & _ & _); [done|].
  fold addrs in Ha |- *. rewrite Nat2Z.id, Ha. pose proof (shown_length (Z.to_nat MAX_SYS_TRACE_LAYER) frames) as Hl. fold addrs in Hl.
  assert (H : Z.of_nat (length addrs) ≤ MAX_SYS_TRACE_LAYER) by (unfold MAX_SYS_TRACE_LAYER in *; lia).
  apply (wpx_symbols addrs empty_text (shown_nonempty 14 frames Hf) eq_refl) in H. unfold wpx in H.
  destruct ((backtrace_symbols _ _ ≫= _) empty_text) as [ls t|w t]; [exact H|]. by destruct H as [[-> H]|[-> H]].
Qed.

Context (header : Z → str) (start_line end_line : str).

Lemma wp_handler sig ls t (Q : () → process → Prop) p : watch_backtrace = Done ls t →
  Q () (mkProcess (<[sig := SIG_DFL]> (actions p)) (raised p ++ [sig]) (printed p ++ [header sig; start_line] ++ ls ++ [end_line])) →
  wp (handler_func header start_line end_line sig) Q p.
Proof.
  intros Hw HQ. unfold handler_func, printf, sigaction. wp_go. unfold wp at 1. rewrite Hw. wp_go.
  rs. refine (eq_ind _ (Q ()) HQ _ _). unfold set_field. cbn. by rewrite <- !app_assoc.
Qed.

(** the program with the handlers is killed by the signal that it got, as it is without them, and has printed its
    backtrace before, when that fits. *)
Theorem main_reports here frames : unwound = here :: frames → frames ≠ [] →
  let addrs := shown (Z.to_nat MAX_SYS_TRACE_LAYER) frames in
  bytes_needed addrs ≤ MAX_SYS_TRACE_PRINT → ∀ p,
  main header start_line end_line p =
    Stop Aborted (mkProcess (<[SIGSEGV := SIG_DFL]> (<[SIGABRT := Handled]> (actions p))) (raised p ++ [SIGSEGV])
                   (printed p ++ [header SIGSEGV; start_line] ++ lines_of 0 addrs ++ [end_line])).
Proof using Laws.
  intros Hu Hf addrs Hb p. assert (Hw : ∃ t, watch_backtrace = Done (lines_of 0 addrs) t).
  { pose proof (watch_backtrace_shows here frames Hu Hf) as H. cbv zeta in H. fold addrs in H. unfold MAX_SYS_TRACE_PRINT in *.
    destruct watch_backtrace as [ls t|[] t]; try done; [destruct H as [-> _]; by eexists|lia|lia]. }
  destruct Hw as [t Hw].
  assert (H : wpx (main header start_line end_line) (λ _ _, False) (λ w q, w = Aborted ∧
     q = mkProcess (<[SIGSEGV := SIG_DFL]> (<[SIGABRT := Handled]> (actions p))) (raised p ++ [SIGSEGV])
                   (printed p ++ [header SIGSEGV; start_line] ++ lines_of 0 addrs ++ [end_line])) p).
  { unfold main, backtrace_reg, signal_comes, sigaction. wpx_go. rs.
    rewrite lookup_insert_ne, lookup_insert_eq by done.
    wpx_step. apply wpx_wp. eapply wp_handler; [exact Hw|]. wpx_step. wpx_step. unfold id. rs. cbn [raised actions].
    rewrite lookup_insert_eq, !bool_decide_eq_true_2; [|done|set_solver]. cbn [andb]. wpx_step. split; [done|].
    rs. f_equal. by rewrite (insert_insert_ne _ SIGABRT SIGSEGV), insert_insert_eq by done. }
  unfold wpx in H. destruct (main _ _ _ p) as [|w q]; [done|]. by destruct H as [-> ->].
Qed.
End Printing.

(** ** The output of a backtrace *)

Section Output.
Context `{DL : Dynlink} {Laws : DynlinkLaws}.

(** C34: the lines of a backtrace are the frames from the caller on, at most fifteen, each with its number, file, symbol,
    offset and address, when the text of them and the addresses of the texts take at most 1536 bytes.  The array that the
    text is written to has eight times as many: a text that is longer but fits the array is written and found too long
    afterwards, and one that does not fit the array is a write outside it. *)
Theorem watch_backtrace_prints here frames : unwound = here :: frames → frames ≠ [] →
  let addrs := shown (Z.to_nat MAX_SYS_TRACE_LAYER) frames in
  (bytes_needed addrs ≤ MAX_SYS_TRACE_PRINT → ∃ t, watch_backtrace = Done (lines_of 0 addrs) t) ∧
  (MAX_SYS_TRACE_PRINT < bytes_needed addrs ≤ 8 * MAX_SYS_TRACE_PRINT → ∃ t, watch_backtrace = Stop AssertFailed t) ∧
  (8 * MAX_SYS_TRACE_PRINT < bytes_needed addrs → ∃ t, watch_backtrace = Stop Fault t).
Proof using Laws.
  intros Hu Hf addrs. pose proof (watch_backtrace_shows here frames Hu Hf) as H. cbv zeta in H. fold addrs in H.
  unfold MAX_SYS_TRACE_PRINT in *.
  destruct watch_backtrace as [ls t|[] t]; try done; [destruct H as [-> ?]|..]; split_and!; intros; try lia; by eexists.
Qed.

(** A program that nothing calls has no frames besides the one of [backtrace]: the arrays for them would have no element. *)
Lemma no_frames here : unwound = [here] → ∃ t, watch_backtrace = Stop Fault t.
Proof. intros Hu. unfold watch_backtrace. rewrite Hu. by eexists. Qed.
End Output.

(** * An example *)

Module DemoBacktrace.

(** A program [app] with a function, called from the start of the program, of which nothing is known. *)
Definition demo_dladdr (file : str) (a : Z) : option Dl_info :=
  if (4096 <=? a) && (a <? 8192) then Some (mkInfo (Some file) (Some (lit "f")) 4096)
  else if a =? 9000 then Some (mkInfo (Some file) None 0) else None.
Definition demo (file : str) : Dynlink := {| dladdr := demo_dladdr file; unwound := [20; 4100; 9000; 30; 0] |}.
Lemma backtrace_demo_laws file : zero ∉ file → @DynlinkLaws (demo file).
Proof.
  intros Hf. split; unfold dladdr, unwound; cbn.
  - intros a i f. unfold demo_dladdr. repeat case_match; intros [= <-] [= <-]; done.
  - intros a i f. unfold demo_dladdr. repeat case_match; intros [= <-]; cbn; intros [= <-]. by apply (bool_decide_eq_true_1 (zero ∉ lit "f")).
Qed.
#[local] Abbreviation app := (lit "app").
#[local] Abbreviation long := (repeat "a"%char 800).

Lemma watch_backtrace_prints_witness :
  ∃ t, @watch_backtrace (demo app) = Done [lit "#00 app(f+0x4) [0x1004]"; lit "#01 app [0x2328]"; lit "#02 [0x1e]"] t.
Proof.
  refine (proj1 (@watch_backtrace_prints (demo app) (backtrace_demo_laws app _) 20 [4100; 9000; 30; 0] eq_refl _) _);
    [by apply (bool_decide_eq_true_1 (zero ∉ app))|done|done].
Defined.
(** Names of 800 characters do not fit into 1536 bytes. *)
Example long_backtrace_fails : ∃ t, @watch_backtrace (demo long) = Stop AssertFailed t.
Proof. by eexists; vm_compute. Qed.
Lemma main_reports_witness : ∃ p, @main (demo app) (λ _, lit "signal") (lit "start") (lit "end") (mkProcess ∅ [] []) = Stop Aborted p ∧
  printed p = [lit "signal"; lit "start"; lit "#00 app(f+0x4) [0x1004]"; lit "#01 app [0x2328]"; lit "#02 [0x1e]"; lit "end"].
Proof.
  eexists. split.
  - refine (@main_reports (demo app) (backtrace_demo_laws app _) (λ _, lit "signal") (lit "start") (lit "end") 20 [4100; 9000; 30; 0]
      eq_refl _ _ (mkProcess ∅ [] [])); [by apply (bool_decide_eq_true_1 (zero ∉ app))|done|done].
  - done.
Defined.
Lemma hex_reads_back_witness : hex 16 4100 = lit "1004" ∧ hex_value (hex 16 4100) = 4100.
Proof. split; [done|]. apply (hex_reads_back 16 4100). by vm_compute. Defined.
End DemoBacktrace.
