(* ===== verification/MoveDir.v ===== *)
(** Moving a directory: move.c of the ltrace example.

    The file system is a map from paths to what they name.  A path has its last name first, so that the directory of
    [n :: d] is [d] and the paths below [d] are those that end in [d]; the first name is the string the function was called
    with.  Links are followed, at most forty on the way to a file; what the text of a link means is a parameter.  The
    caller has all permissions. *)
From S2P Require Import Prelude Unix.

Abbreviation path := (list str).
Inductive node := Dir (mode : Z) | Reg (data : str) (mode : Z) | Lnk (target : str) | Special (bytes : Z).
Abbreviation files :=
  (@gmap path (@list_eq_dec str (@list_eq_dec ascii Ascii.eq_dec))
     (@list_countable str _ (@list_countable ascii Ascii.eq_dec Ascii.countable)) node).

Class FileSystem := {
  same_device : bool;                            (* whether both directories are on one file system *)
  umask : Z;
  dir_size : Z;                                  (* [st_size] of a directory *)
  target_path : path → str → path;               (* of a link in a directory *)
  dir_order : list str → list str;               (* the order [readdir] returns the names in *)
  sent : nat → nat → Z;                          (* how much [sendfile] copies, from an offset, of what is left; or an error *)
}.
Class FileSystemLaws `{!FileSystem} := { dir_order_all l : dir_order l ≡ₚ l }.

Section Calls.
Context `{FileSystem}.
Implicit Types (s : files) (p q d : path).

(** * Looking up paths *)

Definition is_dir s d : bool :=
  match d with [] => true | _ => match s !! d with Some (Dir _) => true | _ => false end end.
(** The path without links; the last name may be missing. *)
Definition resolve_in (links : option (path → option path)) s : path → option path := fix go p :=
  match p with
  | [] => Some []
  | n :: d =>
      d' ← go d;
      if is_dir s d' then
        match s !! (n :: d') with
        | Some (Lnk t) => follow ← links; follow (target_path d' t)
        | _ => Some (n :: d')
        end
      else None
  end.
Fixpoint resolve (links : nat) s : path → option path :=
  resolve_in (match links with O => None | S links => Some (resolve links s) end) s.
Definition MAXSYMLINKS : nat := 40.
(** The directory that a path names. *)
Definition dir_at s d : option path :=
  d' ← resolve MAXSYMLINKS s d;
  if is_dir s d' then Some d' else None.
(** The entry that a path names; a link at the end is not followed. *)
Definition entry_at s p : option path :=
  match p with [] => None | n :: d => d' ← dir_at s d; Some (n :: d') end.

(** * System calls *)

Definition lstat p : M files (option node) := gets (λ s : files, k ← entry_at s p; s !! k).
Definition stat p : M files (option node) := gets (λ s : files, k ← resolve MAXSYMLINKS s p; s !! k).
Definition access p : M files bool := gets (λ s : files, bool_decide (is_Some (k ← resolve MAXSYMLINKS s p; s !! k))).
Definition st_size (x : node) : Z :=
  match x with Dir _ => dir_size | Reg data _ => Z.of_nat (length data) | Lnk t => Z.of_nat (length t) | Special n => n end.
Definition unlink p : M files bool := λ s,
  match entry_at s p with
  | Some k => match s !! k with Some (Dir _) | None => Done false s | Some _ => Done true (delete k s) end
  | None => Done false s
  end.
(** Of something that is not a directory. *)
Definition rename p q : M files bool := λ s,
  match entry_at s p, entry_at s q with
  | Some k, Some k' =>
      match s !! k, s !! k' with
      | None, _ | _, Some (Dir _) => Done false s
      | Some x, _ =>
          if same_device then Done true (if decide (k = k') then s else <[k' := x]> (delete k s)) else Done false s
      end
  | _, _ => Done false s
  end.
Inductive mkdir_result := Made | Exists_ | MkdirError.
Definition mkdir p (mode : Z) : M files mkdir_result := λ s,
  match entry_at s p with
  | Some k =>
      match s !! k with
      | Some _ => Done Exists_ s
      | None => Done Made (<[k := Dir (Z.land mode (Z.lnot umask))]> s)
      end
  | None => Done MkdirError s
  end.
Definition names_in s d : list str :=
  omap (λ p, match p with n :: d' => if decide (d' = d) then Some n else None | [] => None end) (elements (dom s)).
Definition rmdir p : M files bool := λ s,
  match entry_at s p with
  | Some k =>
      match s !! k, names_in s k with
      | Some (Dir _), [] => Done true (delete k s)
      | _, _ => Done false s
      end
  | None => Done false s
  end.
Definition symlink (t : str) p : M files bool := λ s,
  match entry_at s p with
  | Some k =>
      match t, s !! k with
      | _ :: _, None => Done true (<[k := Lnk t]> s)
      | _, _ => Done false s
      end
  | None => Done false s
  end.
(** A file opened to be read, or made and opened to be written; its path without links stands for the descriptor. *)
Definition open_read p : M files (option path) := gets (λ s : files,
  k ← resolve MAXSYMLINKS s p; match s !! k with Some (Reg _ _) => Some k | _ => None end).
Definition open_create p (mode : Z) : M files (option path) := λ s,
  match resolve MAXSYMLINKS s p with
  | Some k =>
      match s !! k with
      | Some (Reg _ _) => Done (Some k) s
      | None => Done (Some k) (<[k := Reg [] (Z.land mode (Z.lnot umask))]> s)
      | _ => Done None s
      end
  | None => Done None s
  end.
Definition chmod p (mode : Z) : M files bool := λ s,
  match resolve MAXSYMLINKS s p with
  | Some k =>
      match s !! k with
      | Some (Reg data _) => Done true (<[k := Reg data mode]> s)
      | Some (Dir _) => Done true (<[k := Dir mode]> s)
      | _ => Done false s
      end
  | None => Done false s
  end.
(** [sendfile] from one offset to the same: the number of bytes, or an error. *)
Definition sendfile (dst src : option path) (pos : nat) (count : nat) : M files Z := λ s : files,
  match dst, src with
  | Some k', Some k =>
      match s !! k', s !! k with
      | Some (Reg out mode), Some (Reg data _) =>
          let chunk := take count (drop pos data) in
          if (length chunk =? 0)%nat then Done 0 s else
          let c := sent pos (length chunk) in
          if c <=? 0 then Done (-1) s else
          let chunk := take (Z.to_nat c) chunk in
          Done (Z.of_nat (length chunk)) (<[k' := Reg (take pos out ++ chunk ++ drop (pos + length chunk) out) mode]> s)
      | _, _ => Done (-1) s
      end
  | _, _ => Done (-1) s
  end.

(** * move_dir *)

Definition PATH_BYTES : nat := 512.
Definition LINK_BYTES : nat := 128.
Fixpoint path_text p : str :=
  match p with [] => [] | [n] => n | n :: d => path_text d ++ "/"%char :: n end.
Definition S_IRWXU := 448.

(** [readlink] into an array of zeros, and what is a string in it: there is an end when the text is shorter. *)
Definition readlink p : M files str :=
  x ← lstat p;
  match x with
  | Some (Lnk t) => if (length t <? LINK_BYTES)%nat then mret t else stop_with Fault
  | _ => mret []
  end.

Definition move_link (srcPath dstPath : path) : M files () :=
  a ← access dstPath;
  dstStat ← (if a then lstat dstPath else mret None);
  match dstStat with
  | Some (Lnk _) => unlink srcPath;; mret ()
  | _ =>
      when a (unlink dstPath;; mret ());;
      r ← rename srcPath dstPath;
      when (negb r) (linkPath ← readlink srcPath; symlink linkPath dstPath;; unlink srcPath;; mret ())
  end.

(** [while (sendfile (...) > 0)]; every call but the last copies a byte at least, so that as many calls as the file has
    bytes, and one more, are enough. *)
Fixpoint copy_loop (fuel : nat) (dst src : option path) (pos : nat) : M files () :=
  match fuel with
  | O => stop_with Blocked
  | S fuel => n ← sendfile dst src pos (Z.to_nat 0x8000); when (0 <? n) (copy_loop fuel dst src (pos + Z.to_nat n))
  end.
Definition bytes_in (src : option path) s : nat :=
  match k ← src; s !! k with Some (Reg data _) => length data | _ => 0 end.
Definition move_reg (srcPath dstPath : path) (size mode : Z) : M files () :=
  a ← access dstPath;
  dstStat ← (if a then stat dstPath else mret None);
  if match dstStat with Some x => st_size x =? size | None => false end then unlink srcPath;; mret ()
  else
    when a (unlink dstPath;; mret ());;
    r ← rename srcPath dstPath;
    when (negb r)
      (srcFd ← open_read srcPath;
       dstFd ← open_create dstPath 511;
       fuel ← gets (bytes_in srcFd);
       copy_loop (S fuel) dstFd srcFd 0;;
       chmod dstPath mode;;
       unlink srcPath;;
       mret ()).

(** The loop over the entries, with the result; after an error the others are not looked at. *)
Fixpoint entries (move_dir : path → path → M files Z) (srcDir dstDir : path) (names : list str) : M files Z :=
  match names with
  | [] => mret 0
  | n :: names =>
      let continue := entries move_dir srcDir dstDir names in
      if bool_decide (n = lit "." ∨ n = lit "..") then continue else
      let srcPath := n :: srcDir in
      let dstPath := n :: dstDir in
      if (PATH_BYTES <=? length (path_text srcPath))%nat || (PATH_BYTES <=? length (path_text dstPath))%nat then mret (-1) else
      scrStat ← lstat srcPath;
      match scrStat with
      | None => mret (-1)
      | Some (Lnk _) => move_link srcPath dstPath;; continue
      | Some (Dir _) =>
          m ← mkdir dstPath S_IRWXU;
          match m with
          | MkdirError => mret (-1)
          | _ => r ← move_dir srcPath dstPath; if r =? 0 then continue else mret (-1)
          end
      | Some (Reg data mode) => move_reg srcPath dstPath (Z.of_nat (length data)) mode;; continue
      | Some (Special _) => continue
      end
  end.
(** A call stops as [Blocked] when the calls are nested more deeply than [fuel]. *)
Fixpoint move_dir_at (fuel : nat) (srcDir dstDir : path) : M files Z :=
  match fuel with
  | O => stop_with Blocked
  | S fuel =>
      s ← gets id;
      match dir_at s srcDir with
      | None => stop_with Fault                  (* [readdir (NULL)] *)
      | Some d =>
          ret ← entries (move_dir_at fuel) srcDir dstDir (dir_order (lit "." :: lit ".." :: names_in s d));
          rmdir srcDir;;
          mret ret
      end
  end.
(** A NULL for a directory is refused. *)
Definition move_dir (srcDir dstDir : option str) : M files Z :=
  match srcDir, dstDir with
  | Some srcDir, Some dstDir => move_dir_at (S PATH_BYTES) [srcDir] [dstDir]
  | _, _ => mret (-1)
  end.
End Calls.

(** * Moving always comes to an end

    Every nested call has a longer path, and paths of 512 bytes are refused; every call of [sendfile] but the last one
    copies something.  What can go wrong is that the source is no directory or that a link is too long: the lemmas
    say of every operation that it returns, and that it faults only unless [B], which stands for neither being so. *)

(** The text of every link fits the array for it. *)
Definition short_links (s : files) : Prop := ∀ k t, s !! k = Some (Lnk t) → (length t < LINK_BYTES)%nat.

Section Ends.
Context `{FS : FileSystem} (B : Prop).
Implicit Types (s : files).

Definition ok s : Prop := B → short_links s.
Definition ends {A : Type} (m : M files A) : Prop := ∀ s, ok s → wpx m (λ _ s', ok s') (λ w _, w = Fault ∧ ¬ B) s.
Lemma ends_ret {A : Type} (a : A) : ends (mret a).
Proof. by intros s Hs. Qed.
Lemma ends_gets {A : Type} (f : files → A) : ends (gets f).
Proof. by intros s Hs. Qed.
Lemma ends_bind {A C : Type} (m : M files A) (k : A → M files C) : ends m → (∀ a, ends (k a)) → ends (m ≫= k).
Proof. intros Hm Hk s Hs. wpx_step. eapply wpx_mono; [by apply Hm| |done]. intros a s' Hs'. by apply Hk. Qed.
Lemma ends_when b (m : M files ()) : ends m → ends (when b m).
Proof. destruct b; [done|]. intros _. apply ends_ret. Qed.
Hint Resolve ends_ret ends_gets ends_bind ends_when : core.

Lemma ok_delete s k : ok s → ok (delete k s).
Proof. intros Hs HB k' t [_ H]%lookup_delete_Some. by eapply Hs. Qed.
Lemma ok_insert s k x : ok s → (B → ∀ t, x = Lnk t → (length t < LINK_BYTES)%nat) → ok (<[k:=x]> s).
Proof. intros Hs Hx HB k' t [[_ E]|[_ H]]%lookup_insert_Some; [by eapply Hx|by eapply Hs]. Qed.
(** A call that returns, and adds no link but from the file system. *)
Ltac call_ends :=
  let t := fresh in let Ht := fresh in intros t Ht; unfold wpx; repeat (case_match || unfold gets); simplify_eq;
  eauto using ok_delete; try (apply ok_insert; [by auto using ok_delete|intros ? ? ?; simplify_eq; by eapply Ht]).

Lemma unlink_ends p : ends (unlink p).
Proof. unfold unlink. call_ends. Qed.
Lemma rename_ends p q : ends (rename p q).
Proof. unfold rename. call_ends. Qed.
Lemma mkdir_ends p m : ends (mkdir p m).
Proof. unfold mkdir. call_ends. Qed.
Lemma rmdir_ends p : ends (rmdir p).
Proof. unfold rmdir. call_ends. Qed.
Lemma chmod_ends p m : ends (chmod p m).
Proof. unfold chmod. call_ends. Qed.
Lemma open_create_ends p m : ends (open_create p m).
Proof. unfold open_create. call_ends. Qed.
Hint Resolve unlink_ends rename_ends mkdir_ends rmdir_ends chmod_ends open_create_ends : core.

(** A link that was read is short enough to be made again. *)
Lemma copy_link_ends p q : ends (t ← readlink p; symlink t q;; unlink p;; mret ()).
Proof.
  intros s Hs. unfold readlink, lstat. do 2 wpx_step. apply wpx_gets. cbn beta.
  assert (Hsym : ∀ t, (length t < LINK_BYTES)%nat → wpx (symlink t q;; unlink p;; mret ()) (λ _ s', ok s') (λ w _, w = Fault ∧ ¬ B) s).
  { intros t Ht. wpx_step. apply (wpx_mono _ _ (λ _ s', ok s') _ (λ w _, w = Fault ∧ ¬ B)); [|intros ? s' Hs'|done].
    - unfold wpx, symlink. repeat case_match; simplify_eq; try done. apply ok_insert; [done|]. by intros _ ? [= <-].
    - assert (He : ends (unlink p;; mret ())) by eauto. by apply He. }
  destruct (entry_at s p) as [k|]; cbn [mbind option_bind]; [|by wpx_step; apply Hsym; unfold LINK_BYTES; cbn; lia].
  destruct (s !! k) as [[| |t|]|] eqn:Ek; try (by wpx_step; apply Hsym; unfold LINK_BYTES; cbn; lia).
  destruct (Nat.ltb_spec (length t) LINK_BYTES) as [|Hl]; [by wpx_step; apply Hsym|]. split; [done|]. intros HB.
  specialize (Hs HB k t Ek). lia.
Qed.
Lemma move_link_ends p q : ends (move_link p q).
Proof.
  unfold move_link. apply ends_bind; [apply ends_gets|]. intros a. apply ends_bind; [destruct a; unfold lstat; eauto|].
  intros x. assert (He : ends (when a (unlink q;; mret ());; r ← rename p q;
    when (negb r) (linkPath ← readlink p; symlink linkPath q;; unlink p;; mret ()))).
  { apply ends_bind; [eauto|]. intros _. apply ends_bind; [eauto|]. intros r. apply ends_when, copy_link_ends. }
  by destruct x as [[| | |]|]; eauto.
Qed.

(** [sendfile] leaves the source as long as it is, also when it is the destination. *)
Lemma wpx_sendfile k' k pos count (Q : Z → files → Prop) (E : stop → files → Prop) s : ok s →
  (∀ n, n ≤ 0 → Q n s) →
  (∀ n s', 0 < n → Z.of_nat pos + n ≤ Z.of_nat (bytes_in k s) → bytes_in k s' = bytes_in k s → ok s' → Q n s') →
  wpx (sendfile k' k pos count) Q E s.
Proof.
  intros Hs H0 HQ. unfold wpx, sendfile. destruct k' as [k'|], k as [k|]; try (by apply H0).
  destruct (s !! k') as [[|out m| |]|] eqn:E'; try (by apply H0).
  destruct (s !! k) as [[|data m0| |]|] eqn:Ek; try (by apply H0).
  set (chunk := take count (drop pos data)). destruct (Nat.eqb_spec (length chunk) 0); [by apply H0|].
  destruct (Z.leb_spec (sent pos (length chunk)) 0); [by apply H0|]. set (c := Z.to_nat _).
  assert (Hc : (length chunk ≤ length data - pos)%nat) by (unfold chunk; rewrite length_take, length_drop; lia).
  assert (Hb : bytes_in (Some k) s = length data) by (unfold bytes_in; cbn; by rewrite Ek).
  assert (Ht : (1 ≤ length (take c chunk) ≤ length chunk)%nat) by (rewrite length_take; lia).
  apply HQ; [lia|lia| |by apply ok_insert]. rewrite Hb. unfold bytes_in. cbn. destruct (decide (k' = k)) as [->|Hne].
  - simplify_eq. rewrite lookup_insert_eq, !length_app, length_take, length_drop. lia.
  - by rewrite lookup_insert_ne, Ek.
Qed.
Lemma copy_loop_ends k k' fuel : ∀ pos s, ok s → (bytes_in k s - pos < fuel)%nat →
  wpx (copy_loop fuel k' k pos) (λ _ s', ok s') (λ w _, w = Fault ∧ ¬ B) s.
Proof.
  induction fuel as [|fuel IH]; intros pos s Hs Hf; [lia|]. cbn [copy_loop]. wpx_step. apply wpx_sendfile; [done| |].
  - intros n Hn. rewrite (proj2 (Z.ltb_ge 0 n)) by lia. by apply ends_ret.
  - intros n s' Hn Hb E Hs'. rewrite (proj2 (Z.ltb_lt 0 n)) by lia. apply IH; [done|lia].
Qed.
Lemma copy_ends k k' (rest : M files ()) : ends rest → ends (fuel ← gets (bytes_in k); copy_loop (S fuel) k' k 0;; rest).
Proof.
  intros Hr s Hs. wpx_step. apply wpx_gets. wpx_step. eapply wpx_mono; [apply copy_loop_ends; [done|lia]| |done].
  intros [] s' Hs'. by apply Hr.
Qed.
Lemma move_reg_ends p q size mode : ends (move_reg p q size mode).
Proof.
  unfold move_reg. apply ends_bind; [apply ends_gets|]. intros a. apply ends_bind; [destruct a; unfold stat; eauto|]. intros x.
  destruct (match x with Some x => _ | None => _ end); [eauto|]. apply ends_bind; [eauto|]. intros _.
  apply ends_bind; [eauto|]. intros r. apply ends_when. apply ends_bind; [apply ends_gets|]. intros k. apply ends_bind; [eauto|].
  intros k'. apply copy_ends. eauto.
Qed.

(** ** Directories stay where they are when another one is made *)

Lemma resolve_name_cons l s n d : resolve l s (n :: d) =
  (d' ← resolve l s d;
   if is_dir s d' then
     match s !! (n :: d') with
     | Some (Lnk t) => match l with O => None | S l => resolve l s (target_path d' t) end
     | _ => Some (n :: d')
     end
   else None).
Proof. by destruct l. Qed.
Lemma is_dir_insert s k m d : s !! k = None → is_dir s d = true → is_dir (<[k:=Dir m]> s) d = true.
Proof. intros Hk. destruct d as [|n d]; [done|]. cbn. by destruct (decide (k = n :: d)) as [->|Hne]; [rewrite Hk|rewrite lookup_insert_ne]. Qed.
Lemma resolve_insert l s k m p q : s !! k = None → resolve l s p = Some q → resolve l (<[k:=Dir m]> s) p = Some q.
Proof.
  intros Hk. revert p q. induction l as [l IHl] using lt_wf_ind. induction p as [|n d IHd]; intros q; [by destruct l|].
  rewrite !resolve_name_cons. destruct (resolve l s d) as [d'|]; [|done]. rewrite (IHd d' eq_refl). cbn.
  destruct (is_dir s d') eqn:Ed; [|done]. rewrite is_dir_insert by done.
  destruct (decide (k = n :: d')) as [->|Hne]; [by rewrite Hk, lookup_insert_eq|]. rewrite lookup_insert_ne by done.
  destruct (s !! (n :: d')) as [[| |t|]|]; try done. destruct l as [|l]; [done|]. apply IHl. lia.
Qed.
Lemma dir_at_insert s k m p : s !! k = None → is_Some (dir_at s p) → is_Some (dir_at (<[k:=Dir m]> s) p).
Proof.
  intros Hk [q Hq]. unfold dir_at in *. destruct (resolve MAXSYMLINKS s p) as [q'|] eqn:E; [|done].
  rewrite (resolve_insert _ _ _ _ _ _ Hk E). cbn in *. destruct (is_dir s q') eqn:Ed; [|done]. rewrite is_dir_insert by done. by eexists.
Qed.
Lemma dir_at_entry s n d k m : entry_at s (n :: d) = Some k → s !! k = Some (Dir m) → is_Some (dir_at s (n :: d)).
Proof.
  unfold entry_at, dir_at. rewrite resolve_name_cons. destruct (resolve MAXSYMLINKS s d) as [d'|]; [|done]. cbn.
  destruct (is_dir s d') eqn:Ed; [|done]. intros [= <-] Hm. rewrite Hm. cbn. rewrite Hm. by eexists.
Qed.
Lemma wpx_and {A} (m : M files A) (P Q : A → files → Prop) (E : stop → files → Prop) s :
  wpx m P E s → wp m Q s → wpx m (λ a s', P a s' ∧ Q a s') E s.
Proof. unfold wpx, wp. by destruct (m s). Qed.
Lemma mkdir_keeps p q m s : is_Some (dir_at s p) → wp (mkdir q m) (λ _ s', is_Some (dir_at s' p)) s.
Proof. intros Hp. unfold wp, mkdir. repeat case_match; simplify_eq; try done. by apply dir_at_insert. Qed.

(** ** The answer *)

Lemma path_text_length n d : d ≠ [] → length (path_text (n :: d)) = (length (path_text d) + S (length n))%nat.
Proof. destruct d; [done|]. intros _. cbn [path_text]. by rewrite length_app. Qed.

Definition answers (m : M files Z) s : Prop := wpx m (λ r s', (r = 0 ∨ r = -1) ∧ ok s') (λ w _, w = Fault ∧ ¬ B) s.
Lemma answers_bind {A : Type} (m : M files A) (k : A → M files Z) s :
  ends m → ok s → (∀ a s', ok s' → answers (k a) s') → answers (m ≫= k) s.
Proof. intros Hm Hs Hk. unfold answers. wpx_step. eapply wpx_mono; [by apply Hm| |done]. intros a s' Hs'. by apply Hk. Qed.
Lemma answers_value (r : Z) s : ok s → r = 0 ∨ r = -1 → answers (mret r) s.
Proof. intros Hs H. unfold answers. by wpx_step. Qed.

(** A directory that was looked up can be opened. *)
Definition openable s p : Prop := B → is_Some (dir_at s p).
Lemma entries_answer md src dst names :
  (∀ n s, (length (path_text (n :: src)) < PATH_BYTES)%nat → ok s → openable s (n :: src) → answers (md (n :: src) (n :: dst)) s) →
  ∀ s, ok s → answers (entries md src dst names) s.
Proof.
  intros Hmd. induction names as [|n names IH]; intros s Hs; cbn [entries]; [by apply answers_value; auto|].
  case_bool_decide; [by apply IH|]. destruct (Nat.leb_spec PATH_BYTES (length (path_text (n :: src)))) as [|Hl]; cbn [orb]; [by apply answers_value; auto|].
  destruct (PATH_BYTES <=? _)%nat; [by apply answers_value; auto|]. unfold lstat, answers. wpx_step. apply wpx_gets.
  destruct (entry_at s (n :: src)) as [k|] eqn:Ek; cbn [mbind option_bind]; [|by apply answers_value; auto].
  destruct (s !! k) as [[m| | |]|] eqn:Em; try (apply answers_bind; [first [apply move_reg_ends|apply move_link_ends]|done|auto]).
  - wpx_step. pose proof (dir_at_entry _ _ _ _ _ Ek Em) as Hd.
    eapply wpx_mono; [apply (wpx_and _ _ _ _ _ (mkdir_ends (n :: dst) S_IRWXU s Hs) (mkdir_keeps (n :: src) (n :: dst) S_IRWXU s Hd))| |done].
    intros x s1 [Hs1 Hd1].
    assert (Ha : answers (r ← md (n :: src) (n :: dst); if r =? 0 then entries md src dst names else mret (-1)) s1).
    { unfold answers. wpx_step. eapply wpx_mono; [by apply Hmd; [| |intros _]| |done]. intros r s2 [_ Hs2]. destruct (r =? 0); [by apply IH|by apply answers_value; auto]. }
    destruct x; [done|done|by apply answers_value; auto].
  - by apply IH.
  - by apply answers_value; auto.
Qed.
Lemma move_dir_at_answers fuel src dst s : fuel ≠ O → src ≠ [] →
  (PATH_BYTES < fuel + length (path_text src))%nat → ok s → openable s src → answers (move_dir_at fuel src dst) s.
Proof.
  revert src dst s. induction fuel as [|fuel IH]; intros src dst s Hf Hne Hl Hs Ho; [done|]. cbn [move_dir_at].
  unfold answers. wpx_step. apply wpx_gets. unfold id. destruct (dir_at s src) as [d|] eqn:Ed.
  - wpx_step. eapply wpx_mono; [apply entries_answer; [|done]| |done].
    + intros n s1 Hn. pose proof (path_text_length n src Hne). apply IH; [|done|]; lia.
    + intros r s1 [Hr Hs1]. apply answers_bind; [eauto|done|]. intros _ s2 Hs2. by apply answers_value.
  - split; [done|]. intros HB. unfold openable in Ho. rewrite Ed in Ho. by destruct (Ho HB).
Qed.
Lemma move_dir_answers src dst s :
  ok s → match src, dst with Some src, Some dst => openable s [src] | _, _ => True end → answers (move_dir src dst) s.
Proof.
  intros Hs Ho. unfold move_dir. destruct src as [src|]; [|by apply answers_value; auto]. destruct dst as [dst|]; [|auto using answers_value].
  by apply move_dir_at_answers; [| |unfold PATH_BYTES; lia|..].
Qed.
End Ends.

(** C33: [move_dir] returns, with 0 or -1, when the source is a directory and no link has a text of 128 bytes or more (or
    one of the arguments is NULL).  Otherwise it returns such a value too, or it reads from a directory that could not be opened, or past the array
    for the text of a link; it never runs on for ever: calls are nested at most 513 deep, and [sendfile] is called at most once more than the file has bytes. *)
Theorem move_dir_returns `{FS : FileSystem} src dst s :
  match move_dir src dst s with
  | Done r _ => r = 0 ∨ r = -1
  | Stop w _ => w = Fault ∧ ∃ src', src = Some src' ∧ dst ≠ None ∧ (dir_at s [src'] = None ∨ ¬ short_links s)
  end.
Proof.
  destruct src as [src|]; [|by right]. destruct dst as [dst|]; [|by right].
  pose proof (move_dir_answers (is_Some (dir_at s [src]) ∧ short_links s) (Some src) (Some dst) s) as H.
  unfold answers, wpx in H. destruct (move_dir _ _ s) as [r s'|w s'].
  - by apply H; [intros [_ ?]|intros [? _]].
  - destruct H as [-> HB]; [by intros [_ ?]|by intros [? _]|]. split; [done|]. exists src. split_and!; [done|done|].
    destruct (dir_at s [src]) as [d|] eqn:E; [right|by left]. intros Hl. apply HB. by split.
Qed.


(** * What is moved *)

Section Moving.
Context `{FS : FileSystem} {Laws : FileSystemLaws}.
Implicit Types (s : files) (p q d src dst : path).

(** ** Paths of directories without links *)

Fixpoint real s p : Prop := match p with [] => True | n :: d => (∃ m, s !! (n :: d) = Some (Dir m)) ∧ real s d end.

Lemma real_is_dir s p : real s p → is_dir s p = true.
Proof. destruct p; [done|]. intros [[m E] _]. cbn. by rewrite E. Qed.
Lemma resolve_real l s p : real s p → resolve l s p = Some p.
Proof.
  intros Hp. destruct l; cbn [resolve]; induction p as [|n d IH]; [done| |done|].
  all: destruct Hp as [[m E] Hd]; cbn [resolve_in]; rewrite (IH Hd); cbn; by rewrite real_is_dir, E.
Qed.
Lemma resolve_entry l s n d : real s d →
  resolve l s (n :: d) = match s !! (n :: d) with
                         | Some (Lnk t) => match l with O => None | S l => resolve l s (target_path d t) end
                         | _ => Some (n :: d)
                         end.
Proof.
  intros Hd. pose proof (resolve_real l s d Hd) as E.
  destruct l; cbn [resolve resolve_in] in *; rewrite E; cbn; by rewrite real_is_dir.
Qed.
Lemma dir_at_real s d : real s d → dir_at s d = Some d.
Proof. intros Hd. unfold dir_at. rewrite resolve_real by done. cbn. by rewrite real_is_dir. Qed.
Lemma entry_at_real s n d : real s d → entry_at s (n :: d) = Some (n :: d).
Proof. intros Hd. unfold entry_at. by rewrite dir_at_real. Qed.
Lemma real_frame s s' p : real s p → (∀ k, k `suffix_of` p → s' !! k = s !! k) → real s' p.
Proof.
  induction p as [|n d IH]; [done|]. intros [[m E] Hd] H. split; [exists m; by rewrite H|].
  apply IH; [done|]. intros k Hk. apply H. by apply suffix_cons_r.
Qed.

(** Neither directory is inside the other. *)
Definition apart src dst : Prop := ¬ src `suffix_of` dst ∧ ¬ dst `suffix_of` src.
Lemma suffix_total p q k : p `suffix_of` k → q `suffix_of` k → p `suffix_of` q ∨ q `suffix_of` p.
Proof.
  intros [a ->] [b E]. revert b E. induction a as [|x a IH]; intros b E; cbn in E; [right; by exists b|].
  destruct b as [|y b]; cbn in E; [left; by exists (x :: a)|]. injection E as _ E. by apply (IH b).
Qed.
Lemma apart_path src dst p : apart src dst → src `suffix_of` p → ¬ dst `suffix_of` p.
Proof. intros [H1 H2] Hs Hd. by destruct (suffix_total _ _ _ Hs Hd). Qed.
Lemma suffix_child n d p : (n :: d) `suffix_of` p → d `suffix_of` p.
Proof. intros [a ->]. exists (a ++ [n]). by rewrite <- app_assoc. Qed.
Lemma apart_child n src dst : apart src dst → apart (n :: src) (n :: dst).
Proof.
  assert (H : ∀ a b, ¬ a `suffix_of` b → ¬ (n :: a) `suffix_of` (n :: b)).
  { intros a b H Hs. apply suffix_cons_inv in Hs as [[= ->]|Hs]; [by apply H|]. by apply suffix_child in Hs. }
  intros [H1 H2]. by split; apply H.
Qed.
Lemma child_inj n m d p : (n :: d) `suffix_of` p → (m :: d) `suffix_of` p → n = m.
Proof.
  intros H1 H2. destruct (suffix_total _ _ _ H1 H2) as [H|H]; apply suffix_cons_inv in H as [[=]|H]; try done;
    apply suffix_length in H; cbn in H; lia.
Qed.
Lemma not_above n d : ¬ (n :: d) `suffix_of` d.
Proof. intros H. apply suffix_length in H. cbn in H. lia. Qed.

(** ** What becomes of an entry *)

Definition is_directory (x : option node) : Prop := ∃ m, x = Some (Dir m).
Definition is_link (x : option node) : Prop := ∃ t, x = Some (Lnk t).
(** What can be moved: a directory to a new or an old directory, anything else to where there is no directory; from one
    file system to another a file and a link replace no link, and the text of a link fits. *)
Definition mergeable (x y : option node) : Prop :=
  match x with
  | None => True
  | Some (Dir _) => y = None ∨ is_directory y
  | Some (Reg _ _) => ¬ is_directory y ∧ (same_device = true ∨ ¬ is_link y)
  | Some (Lnk t) => ¬ is_directory y ∧ (same_device = true ∨ ¬ is_link y ∧ t ≠ [] ∧ (length t < LINK_BYTES)%nat)
  | Some (Special _) => False
  end.
Definition new_mode : Z := Z.land S_IRWXU (Z.lnot umask).
(** What is at the destination then.  A file replaces a file of another length, and not one of the same; a link at the
    destination may stay or be replaced, as it leads somewhere or not. *)
Definition merged (x y z : option node) : Prop :=
  match x, y with
  | None, _ => z = y
  | Some (Dir _), None => z = Some (Dir new_mode)
  | Some (Dir _), Some _ => z = y
  | Some x, None => z = Some x
  | Some (Reg a _), Some (Reg b _) => z = if (length a =? length b)%nat then y else x
  | Some (Lnk _), Some (Reg _ _ | Special _) => z = x
  | Some _, Some _ => z = x ∨ z = y
  end.

Definition Moved s s' p p' : Prop :=
  (∀ q, s' !! (q ++ p) = None) ∧
  (∀ q, merged (s !! (q ++ p)) (s !! (q ++ p')) (s' !! (q ++ p'))) ∧
  ∀ k, ¬ p `suffix_of` k → ¬ p' `suffix_of` k → s' !! k = s !! k.

Lemma moved_none s p p' : (∀ q, s !! (q ++ p) = None) → Moved s s p p'.
Proof. intros H. split_and!; [done| |done]. intros q. by rewrite H. Qed.
(** A file or a link. *)
Lemma moved_leaf s p p' x : p ≠ p' → apart p p' → (∀ q, q ≠ [] → s !! (q ++ p) = None) → merged (s !! p) (s !! p') (Some x) →
  Moved s (<[p' := x]> (delete p s)) p p'.
Proof.
  intros Hp Ha Hl Hm. assert (Hn : ∀ q, p' ≠ q ++ p).
  { intros q E. destruct Ha as [Ha _]. apply Ha. by exists q. }
  assert (Hn' : ∀ q, p ≠ q ++ p').
  { intros q E. destruct Ha as [_ Ha]. apply Ha. by exists q. }
  assert (Hq : ∀ q r, q ≠ [] → r ≠ q ++ r).
  { intros q r Hq E. apply (f_equal length) in E. rewrite length_app in E. destruct q; [done|]. cbn in E. lia. }
  split_and!.
  - intros q. rewrite lookup_insert_ne by done. destruct (decide (q = [])) as [->|Hne]; [by rewrite lookup_delete_eq|].
    rewrite lookup_delete_ne by auto. auto.
  - intros q. destruct (decide (q = [])) as [->|Hne]; [by rewrite lookup_insert_eq|].
    rewrite Hl by done. cbn [merged]. by rewrite lookup_insert_ne, lookup_delete_ne by auto.
  - intros k H1 H2. rewrite lookup_insert_ne, lookup_delete_ne; [done|intros <-; by apply H1|intros <-; by apply H2].
Qed.

(** ** Single entries *)

Section Entry.
Context (s : files) (n : str) (src dst : path) (Hs : real s src) (Hd : real s dst) (Hap : apart src dst).
Local Abbreviation sp := (n :: src).
Local Abbreviation dp := (n :: dst).

Lemma entries_differ : sp ≠ dp.
Proof using Hap. intros [= E]. destruct Hap as [H _]. by rewrite E in H. Qed.
Lemma real_src s' : (∀ k, k ≠ sp → k ≠ dp → s' !! k = s !! k) → real s' src ∧ real s' dst.
Proof using Hs Hd Hap.
  intros H. destruct Hap as [H1 H2].
  split; eapply real_frame; try done; intros k Hk; apply H; intros ->;
    try (apply suffix_length in Hk; cbn in Hk; lia); apply suffix_child in Hk; done.
Qed.
Lemma wp_unlink_entry p (Q : bool → files → Prop) : p = sp ∨ p = dp → ¬ is_directory (s !! p) → is_Some (s !! p) →
  Q true (delete p s) → wp (unlink p) Q s.
Proof using Hs Hd.
  intros Hp Hnd [x Hx] HQ. unfold wp, unlink. destruct Hp as [-> | ->]; rewrite entry_at_real by done; rewrite Hx;
    destruct x; try done; destruct Hnd; rewrite Hx; by eexists.
Qed.
Lemma wp_access (Q : bool → files → Prop) :
  (∀ b, (s !! dp = None → b = false) → (is_Some (s !! dp) → ¬ is_link (s !! dp) → b = true) → Q b s) → wp (access dp) Q s.
Proof using Hd.
  intros HQ. unfold access. apply HQ; rewrite resolve_entry by done.
  - intros E. rewrite E. cbn. by rewrite E.
  - intros [x Hx] Hl. rewrite Hx. destruct x as [| |t|]; cbn; try (rewrite Hx; by apply bool_decide_eq_true_2).
    destruct Hl. rewrite Hx. by eexists.
Qed.
Lemma wp_lstat p (Q : option node → files → Prop) : p = sp ∨ p = dp → Q (s !! p) s → wp (lstat p) Q s.
Proof using Hs Hd. intros Hp HQ. unfold lstat, wp, gets. destruct Hp as [-> | ->]; by rewrite entry_at_real. Qed.
Lemma wp_rename x (Q : bool → files → Prop) : s !! sp = Some x → ¬ is_directory (s !! dp) →
  (if same_device then Q true (<[dp := x]> (delete sp s)) else Q false s) → wp (rename sp dp) Q s.
Proof using Hs Hd Hap.
  intros Hx Hnd HQ. unfold wp, rename. rewrite !entry_at_real, Hx by done.
  rewrite (decide_False (P := sp = dp)) by apply entries_differ.
  destruct (s !! dp) as [[m| | |]|]; try by destruct same_device. destruct Hnd. by eexists.
Qed.
End Entry.

Lemma delete_twice (a b : path) x s : <[b := x]> (delete a (delete b s)) = <[b := x]> (delete a s).
Proof.
  apply map_eq. intros k. destruct (decide (k = b)) as [->|Hb]; [by rewrite !lookup_insert_eq|].
  rewrite !lookup_insert_ne by done. destruct (decide (k = a)) as [->|Ha]; [by rewrite !lookup_delete_eq|].
  by rewrite !lookup_delete_ne by done.
Qed.

(** The end of [move_link] and of [move_reg]: the destination is free, or is replaced by [rename]. *)
Lemma wp_put_link s n src dst t (Q : () → files → Prop) : real s src → real s dst → apart src dst →
  s !! (n :: src) = Some (Lnk t) → ¬ is_directory (s !! (n :: dst)) →
  same_device = true ∨ s !! (n :: dst) = None ∧ t ≠ [] ∧ (length t < LINK_BYTES)%nat →
  Q () (<[n :: dst := Lnk t]> (delete (n :: src) s)) →
  wp (r ← rename (n :: src) (n :: dst);
      when (negb r) (linkPath ← readlink (n :: src); symlink linkPath (n :: dst);; unlink (n :: src);; mret ())) Q s.
Proof.
  intros Hs Hd Hap Hx Hnd Hc HQ. pose proof (entries_differ n src dst Hap) as Hne.
  wp_step. eapply wp_rename; [done..|]. destruct same_device; cbn [negb when]; [by wp_step|].
  destruct Hc as [|(Hn & Ht & Hl)]; [done|]. wp_step. unfold readlink. wp_step. apply (wp_lstat s n src dst Hs Hd); [by left|].
  rewrite Hx, (proj2 (Nat.ltb_lt _ _) Hl). wp_step. wp_step. unfold wp, symlink. rewrite entry_at_real, Hn by done.
  destruct t as [|c t]; [done|]. destruct (real_src s n src dst Hs Hd Hap (<[n :: dst := Lnk (c :: t)]> s)) as [Hs' Hd'].
  { intros k _ Hk. by rewrite lookup_insert_ne. }
  fold (wp (unlink (n :: src);; mret ()) Q (<[n :: dst := Lnk (c :: t)]> s)). wp_step.
  eapply (wp_unlink_entry _ n src dst Hs' Hd'); [by left| | |].
  - rewrite lookup_insert_ne, Hx by done. by intros [m [=]].
  - rewrite lookup_insert_ne, Hx by done. by eexists.
  - wp_step. by rewrite delete_insert_ne by done.
Qed.

Lemma wp_move_link s n src dst t (Q : () → files → Prop) : real s src → real s dst → apart src dst →
  s !! (n :: src) = Some (Lnk t) → mergeable (s !! (n :: src)) (s !! (n :: dst)) →
  (∀ z, merged (s !! (n :: src)) (s !! (n :: dst)) (Some z) → Q () (<[n :: dst := z]> (delete (n :: src) s))) →
  wp (move_link (n :: src) (n :: dst)) Q s.
Proof.
  intros Hs Hd Hap Hx Hm HQ. pose proof (entries_differ n src dst Hap) as Hne. rewrite Hx in Hm, HQ. destruct Hm as [Hnd Hc].
  unfold move_link. wp_step. apply (wp_access s n dst Hd). intros b Hb0 Hb1. wp_step. destruct b.
  - apply (wp_lstat s n src dst Hs Hd); [by right|]. destruct (s !! (n :: dst)) as [y|] eqn:Ey; [|by specialize (Hb0 eq_refl)].
    assert (Hu : ¬ is_link (Some y) → merged (Some (Lnk t)) (Some y) (Some (Lnk t)) → 
      wp (when true (unlink (n :: dst);; mret ());; r ← rename (n :: src) (n :: dst);
      when (negb r) (linkPath ← readlink (n :: src); symlink linkPath (n :: dst);; unlink (n :: src);; mret ())) Q s).
    { intros Hy Hmg. wp_step. cbn [when]. wp_step. apply (wp_unlink_entry s n src dst Hs Hd); [by right|by rewrite Ey|by rewrite Ey; eexists|].
      wp_step. destruct (real_src s n src dst Hs Hd Hap (delete (n :: dst) s)) as [Hs' Hd'].
      { intros k _ Hk. by rewrite lookup_delete_ne. }
      eapply wp_put_link; try done.
      - rewrite lookup_delete_ne by done. exact Hx.
      - rewrite lookup_delete_eq. by intros [m [=]].
      - rewrite lookup_delete_eq. destruct Hc as [|(_ & Ht & Hl)]; [by left|right; done].
      - rewrite delete_twice. by apply HQ. }
    destruct y as [m|a m|u|b]; [by destruct Hnd; eexists|apply Hu; [by intros [? [=]]|done]| |apply Hu; [by intros [? [=]]|done]].
    wp_step. apply (wp_unlink_entry s n src dst Hs Hd); [by left|rewrite Hx; by intros [m [=]]|by rewrite Hx; eexists|].
    wp_step. specialize (HQ (Lnk u)). rewrite insert_id in HQ by (rewrite lookup_delete_ne by done; exact Ey). apply HQ. by right.
  - wp_step. wp_step. cbn [when]. wp_step. eapply wp_put_link; try done.
    + destruct Hc as [|(Hy & Ht & Hl)]; [by left|]. right. split_and!; [|done..].
      destruct (s !! (n :: dst)) as [y|]; [|done]. by specialize (Hb1 (ex_intro _ y eq_refl) Hy).
    + apply HQ. destruct (s !! (n :: dst)) as [[m|a m|u|b]|] ; cbn; auto.
Qed.

(** ** Files *)

(** Without errors, and not for ever without a byte. *)
Definition sends : Prop := ∀ pos left, (0 < left)%nat → 0 < sent pos left.

Lemma wp_copy_loop fuel k' k data m m' pos s (Q : () → files → Prop) : sends → k ≠ k' →
  s !! k = Some (Reg data m) → s !! k' = Some (Reg (take pos data) m') → (length data - pos < fuel)%nat →
  Q () (<[k' := Reg data m']> s) → wp (copy_loop fuel (Some k') (Some k) pos) Q s.
Proof.
  intros Hsend Hk. revert pos s. induction fuel as [|fuel IH]; intros pos s Hx Hy Hf HQ; [lia|]. cbn [copy_loop]. wp_step.
  unfold sendfile. unfold wp at 1. rewrite Hy, Hx. set (chunk := take (Z.to_nat 0x8000) (drop pos data)).
  assert (Hlen : length chunk = Nat.min (Z.to_nat 0x8000) (length data - pos)) by (unfold chunk; by rewrite length_take, length_drop).
  destruct (Nat.eqb_spec (length chunk) 0) as [E|E].
  - cbn [when]. wp_step. rewrite (take_ge data pos) in Hy by lia. by rewrite insert_id in HQ.
  - pose proof (Hsend pos (length chunk) ltac:(lia)) as Hc. rewrite (proj2 (Z.leb_gt _ 0)) by lia.
    set (c := Z.to_nat (sent pos (length chunk))). assert (1 ≤ length (take c chunk))%nat by (rewrite length_take; lia).
    rewrite (proj2 (Z.ltb_lt 0 _)) by lia. cbn [when]. rewrite Nat2Z.id.
    assert (Ht : take pos (take pos data) ++ take c chunk ++ drop (pos + length (take c chunk)) (take pos data) =
                 take (pos + length (take c chunk)) data).
    { rewrite take_take, Nat.min_id, (drop_ge (take pos data)), app_nil_r by (rewrite length_take; lia).
      rewrite <- take_take_drop. f_equal. unfold chunk. rewrite !take_take, length_take, length_drop.
      destruct (decide (Nat.min c (Z.to_nat 0x8000) ≤ length data - pos)%nat); [f_equal; lia|].
      rewrite !take_ge by (rewrite length_drop; lia). done. }
    rewrite Ht. apply IH.
    + by rewrite lookup_insert_ne.
    + by rewrite lookup_insert_eq.
    + lia.
    + by rewrite insert_insert_eq.
Qed.

Lemma wp_put_reg s n src dst data mode (Q : () → files → Prop) : real s src → real s dst → apart src dst →
  s !! (n :: src) = Some (Reg data mode) → ¬ is_directory (s !! (n :: dst)) →
  same_device = true ∨ s !! (n :: dst) = None ∧ sends →
  Q () (<[n :: dst := Reg data mode]> (delete (n :: src) s)) →
  wp (r ← rename (n :: src) (n :: dst);
      when (negb r)
        (srcFd ← open_read (n :: src);
         dstFd ← open_create (n :: dst) 511;
         fuel ← gets (bytes_in srcFd);
         copy_loop (S fuel) dstFd srcFd 0;;
         chmod (n :: dst) mode;;
         unlink (n :: src);;
         mret ())) Q s.
Proof.
  intros Hs Hd Hap Hx Hnd Hc HQ. pose proof (entries_differ n src dst Hap) as Hne.
  wp_step. eapply wp_rename; [done..|]. destruct same_device; cbn [negb when]; [by wp_step|].
  destruct Hc as [|[Hn Hsend]]; [done|]. wp_step. unfold open_read. wp_step. rewrite resolve_entry, Hx by done. cbn [mbind option_bind]. rewrite Hx.
  wp_step. unfold open_create. unfold wp at 1. rewrite resolve_entry, Hn by done. cbn [mbind option_bind]. rewrite Hn.
  assert (Hr : ∀ m, real (<[n :: dst := m]> s) src ∧ real (<[n :: dst := m]> s) dst).
  { intros m. apply (real_src s n src dst Hs Hd Hap). intros k _ Hk. by rewrite lookup_insert_ne. }
  do 2 wp_step. cbn beta. unfold bytes_in. cbn [mbind option_bind]. rewrite lookup_insert_ne, Hx by done.
  wp_step. eapply wp_copy_loop; [done|exact Hne| | | |].
  - rewrite lookup_insert_ne by done. exact Hx.
  - by rewrite lookup_insert_eq, take_0.
  - lia.
  - rewrite insert_insert_eq. wp_step. unfold chmod. unfold wp at 1.
    rewrite resolve_entry by apply Hr. rewrite !lookup_insert_eq. cbv iota beta. rewrite ?lookup_insert_eq, insert_insert_eq.
    destruct (Hr (Reg data mode)) as [Hs' Hd']. cbv iota beta. wp_step.
    eapply (wp_unlink_entry _ n src dst Hs' Hd'); [by left| | |].
    + rewrite lookup_insert_ne, Hx by done. by intros [m [=]].
    + rewrite lookup_insert_ne, Hx by done. by eexists.
    + wp_step. by rewrite delete_insert_ne by done.
Qed.

Lemma wp_stat s n dst (Q : option node → files → Prop) : real s dst →
  (∀ o, (∀ b m, s !! (n :: dst) = Some (Reg b m) → o = Some (Reg b m)) → Q o s) → wp (stat (n :: dst)) Q s.
Proof.
  intros Hd HQ. unfold stat, wp, gets. apply HQ. intros b m E. rewrite resolve_entry, E by done. exact E.
Qed.

Lemma wp_move_reg s n src dst data mode (Q : () → files → Prop) : real s src → real s dst → apart src dst →
  same_device = true ∨ sends →
  s !! (n :: src) = Some (Reg data mode) → mergeable (s !! (n :: src)) (s !! (n :: dst)) →
  (∀ z, merged (s !! (n :: src)) (s !! (n :: dst)) (Some z) → Q () (<[n :: dst := z]> (delete (n :: src) s))) →
  wp (move_reg (n :: src) (n :: dst) (Z.of_nat (length data)) mode) Q s.
Proof.
  intros Hs Hd Hap Hsend Hx Hm HQ. pose proof (entries_differ n src dst Hap) as Hne. rewrite Hx in Hm, HQ. destruct Hm as [Hnd Hc].
  unfold move_reg. wp_step. apply (wp_access s n dst Hd). intros b Hb0 Hb1. wp_step. destruct b.
  - destruct (s !! (n :: dst)) as [y|] eqn:Ey; [|by specialize (Hb0 eq_refl)].
    apply wp_stat; [done|]. intros o Ho. rewrite Ey in Ho. 
    destruct (match o with Some x => st_size x =? Z.of_nat (length data) | None => false end) eqn:Esz.
    + wp_step. apply (wp_unlink_entry s n src dst Hs Hd); [by left|rewrite Hx; by intros [m [=]]|by rewrite Hx; eexists|]. wp_step.
      specialize (HQ y). rewrite insert_id in HQ by (rewrite lookup_delete_ne by done; exact Ey). apply HQ.
      destruct y as [m|a m|u|c]; cbn; auto. rewrite (Ho a m eq_refl) in Esz. cbn in Esz.
      apply Z.eqb_eq in Esz. by rewrite (proj2 (Nat.eqb_eq _ _)) by lia.
    + wp_step. cbn [when]. wp_step. apply (wp_unlink_entry s n src dst Hs Hd); [by right|by rewrite Ey|by rewrite Ey; eexists|].
      wp_step. destruct (real_src s n src dst Hs Hd Hap (delete (n :: dst) s)) as [Hs' Hd'].
      { intros k _ Hk. by rewrite lookup_delete_ne. }
      eapply wp_put_reg; try done.
      * rewrite lookup_delete_ne by done. exact Hx.
      * rewrite lookup_delete_eq. by intros [m [=]].
      * rewrite lookup_delete_eq. destruct Hsend; [by left|by right].
      * rewrite delete_twice. apply HQ. destruct y as [m|a m|u|c]; cbn; auto. rewrite (Ho a m eq_refl) in Esz. cbn in Esz.
        apply Z.eqb_neq in Esz. by rewrite (proj2 (Nat.eqb_neq _ _)) by lia.
  - wp_step. cbn iota. wp_step. cbn [when]. wp_step. eapply wp_put_reg; try done.
    + destruct Hc as [|Hy]; [by left|]. destruct Hsend as [|Hsend]; [by left|]. right. split; [|done].
      destruct (s !! (n :: dst)) as [y|]; [|done]. by specialize (Hb1 (ex_intro _ y eq_refl) Hy).
    + apply HQ. destruct (s !! (n :: dst)) as [[m|a m|u|c]|]; cbn; auto.
      assert (false = true) as [=]. apply Hb1; [by eexists|by intros [? [=]]].
Qed.
(** ** Directories *)

Record ready s src dst : Prop := {
  rd_src : real s src;
  rd_dst : real s dst;
  rd_closed q n : is_Some (s !! (n :: q ++ src)) → is_directory (s !! (q ++ src));
  rd_names q n : is_Some (s !! (n :: q ++ src)) → n ≠ lit "." ∧ n ≠ lit "..";
  rd_short q : q ≠ [] → is_Some (s !! (q ++ src)) →
    (length (path_text (q ++ src)) < PATH_BYTES)%nat ∧ (length (path_text (q ++ dst)) < PATH_BYTES)%nat;
  rd_pairs q : q ≠ [] → mergeable (s !! (q ++ src)) (s !! (q ++ dst));
}.

(** The entries with some names, and nothing else. *)
Definition MovedAll s s' src dst (names : list str) : Prop :=
  (∀ n, n ∈ names → (∀ q, s' !! (q ++ n :: src) = None) ∧
     ∀ q, merged (s !! (q ++ n :: src)) (s !! (q ++ n :: dst)) (s' !! (q ++ n :: dst))) ∧
  ∀ k, (∀ n, n ∈ names → ¬ (n :: src) `suffix_of` k ∧ ¬ (n :: dst) `suffix_of` k) → s' !! k = s !! k.

Lemma below n q p : (n :: p) `suffix_of` (q ++ n :: p).
Proof. by exists q. Qed.
Lemma other_child n m q p : n ≠ m → ¬ (n :: p) `suffix_of` (q ++ m :: p).
Proof. intros Hn H. apply Hn. eapply child_inj; [exact H|apply below]. Qed.
Lemma child_apart n m q src dst : apart src dst → ¬ (n :: src) `suffix_of` (q ++ m :: dst).
Proof.
  intros Hap H. apply suffix_child in H. apply (apart_path src dst (q ++ m :: dst)); [done..|].
  exists (q ++ [m]). by rewrite <- app_assoc.
Qed.
Lemma apart_sym src dst : apart src dst → apart dst src.
Proof. by intros [? ?]. Qed.
Lemma child_split q p : q ≠ [] → ∃ a n, q ++ p = a ++ n :: p ∧ q = a ++ [n].
Proof. intros Hq. destruct q as [|n a _] using rev_ind; [done|]. exists a, n. by rewrite <- app_assoc. Qed.

Lemma moved_all_cons s s1 s2 src dst n names : apart src dst → n ∉ names →
  Moved s s1 (n :: src) (n :: dst) → MovedAll s1 s2 src dst names → MovedAll s s2 src dst (n :: names).
Proof.
  intros Hap Hn (Ha & Hb & Hc) [Hd He].
  assert (Hsame : ∀ q, s2 !! (q ++ n :: src) = s1 !! (q ++ n :: src) ∧ s2 !! (q ++ n :: dst) = s1 !! (q ++ n :: dst)).
  { intros q. split; apply He; intros m Hm; assert (m ≠ n) by (by intros ->); split; auto using other_child, child_apart, apart_sym. }
  assert (Hother : ∀ m q, m ∈ names → s1 !! (q ++ m :: src) = s !! (q ++ m :: src) ∧ s1 !! (q ++ m :: dst) = s !! (q ++ m :: dst)).
  { intros m q Hm. assert (n ≠ m) by (by intros ->). split; apply Hc; auto using other_child, child_apart, apart_sym. }
  split.
  - intros m Hm. apply elem_of_cons in Hm as [-> | Hm].
    + split; intros q; destruct (Hsame q) as [E1 E2]; [by rewrite E1|rewrite E2; apply Hb].
    + destruct (Hd m Hm) as [H1 H2]. split; [done|]. intros q. destruct (Hother m q Hm) as [E1 E2]. rewrite <- E1, <- E2. apply H2.
  - intros k Hk. destruct (Hk n) as [H1 H2]; [by left|]. rewrite He; [by apply Hc|]. intros m Hm. apply Hk. by right.
Qed.
Lemma moved_all_nil s src dst : MovedAll s s src dst [].
Proof. split; [|done]. intros n Hn. by apply not_elem_of_nil in Hn. Qed.

(** Moving an entry leaves the others as they are. *)
Lemma ready_moved s s1 src dst n : apart src dst → ready s src dst → Moved s s1 (n :: src) (n :: dst) → ready s1 src dst.
Proof.
  intros Hap R (Ha & Hb & Hc).
  assert (Habove : ∀ d k, (d = src ∨ d = dst) → k `suffix_of` d → s1 !! k = s !! k).
  { intros d k Hd Hk. apply Hc; intros H; pose proof (transitivity H Hk) as Hk2; clear Hk; rename Hk2 into Hk; destruct Hd as [-> | ->].
    - by eapply not_above.
    - apply suffix_child in Hk. by destruct Hap.
    - apply suffix_child in Hk. by destruct Hap.
    - by eapply not_above. }
  assert (Hs : ∀ q, is_Some (s1 !! (q ++ src)) → s1 !! (q ++ src) = s !! (q ++ src) ∧ ¬ (n :: src) `suffix_of` (q ++ src)).
  { intros q Hq. assert (Hn : ¬ (n :: src) `suffix_of` (q ++ src)). { intros [a E]. rewrite E, Ha in Hq. by destruct Hq. }
    split; [|done]. apply Hc; [done|]. intros H. apply suffix_child in H. apply (apart_path _ _ (q ++ src) Hap); [by exists q|done]. }
  split.
  - eapply real_frame; [apply (rd_src _ _ _ R)|]. intros k. apply Habove. by left.
  - eapply real_frame; [apply (rd_dst _ _ _ R)|]. intros k. apply Habove. by right.
  - intros q m Hq. destruct (Hs (m :: q) Hq) as [E Hn]. cbn [app] in E, Hn. rewrite E in Hq. apply (rd_closed _ _ _ R) in Hq.
    rewrite Hc; [done| |]; intros H.
    + apply Hn. by apply suffix_cons_r.
    + apply suffix_child in H. apply (apart_path _ _ (q ++ src) Hap); [by exists q|done].
  - intros q m Hq. destruct (Hs (m :: q) Hq) as [E Hn]. cbn [app] in E. rewrite E in Hq. by apply (rd_names _ _ _ R) in Hq.
  - intros q Hne Hq. destruct (Hs q Hq) as [E Hn]. rewrite E in Hq. by apply (rd_short _ _ _ R).
  - intros q Hne. destruct (s1 !! (q ++ src)) as [x|] eqn:Ex; [|done]. destruct (Hs q) as [E Hn]; [by rewrite Ex|].
    rewrite <- Ex, E, (Hc (q ++ dst)); [by apply (rd_pairs _ _ _ R)| |]; intros H.
    + apply suffix_child in H. apply (apart_path _ _ (q ++ dst) Hap); [done|by exists q].
    + destruct (child_split q dst Hne) as (a & m & E1 & ->). rewrite E1 in H.
      assert (n = m) as -> by (eapply child_inj; [exact H|apply below]). apply Hn. rewrite <- app_assoc. apply below.
Qed.

(** A directory that is there on both sides. *)
Lemma ready_child s src dst n : ready s src dst → is_directory (s !! (n :: src)) → is_directory (s !! (n :: dst)) →
  ready s (n :: src) (n :: dst).
Proof.
  intros R Hs Hd. assert (E : ∀ q d, q ++ n :: d = (q ++ [n]) ++ d) by (intros; by rewrite <- app_assoc). split.
  - split; [done|apply R].
  - split; [done|apply R].
  - intros q m H. rewrite E in H |- *. by eapply (rd_closed _ _ _ R).
  - intros q m H. rewrite E in H. by eapply (rd_names _ _ _ R).
  - intros q Hq H. rewrite (E q src) in H |- *. rewrite (E q dst). apply (rd_short _ _ _ R); [by destruct q|done].
  - intros q Hq. rewrite (E q src), (E q dst). apply (rd_pairs _ _ _ R). by destruct q.
Qed.

Definition MovedDir s s' src dst : Prop :=
  (∀ q, s' !! (q ++ src) = None) ∧
  (∀ q, q ≠ [] → merged (s !! (q ++ src)) (s !! (q ++ dst)) (s' !! (q ++ dst))) ∧
  ∀ k, ¬ src `suffix_of` k → (k = dst ∨ ¬ dst `suffix_of` k) → s' !! k = s !! k.

(** A new directory is made first. *)
Lemma moved_made s s' p p' : apart p p' → is_directory (s !! p) → s !! p' = None →
  MovedDir (<[p' := Dir new_mode]> s) s' p p' → Moved s s' p p'.
Proof.
  intros [Ha1 Ha2] [m Hp] Hp' (H1 & H2 & H3). split_and!; [done| |].
  - intros q. destruct (decide (q = [])) as [->|Hq].
    + cbn [app]. rewrite Hp, Hp'. cbn. rewrite H3 by (done || by left). by rewrite lookup_insert_eq.
    + specialize (H2 q Hq). rewrite !lookup_insert_ne in H2; [done| |].
      * intros E. apply (f_equal length) in E. rewrite length_app in E. destruct q; [done|cbn in E; lia].
      * intros E. apply Ha1. by exists q.
  - intros k Hk Hk'. rewrite H3 by auto. rewrite lookup_insert_ne; [done|]. by intros <-; apply Hk'.
Qed.
Lemma moved_kept s s' p p' : is_directory (s !! p) → is_directory (s !! p') → ¬ p `suffix_of` p' → MovedDir s s' p p' → Moved s s' p p'.
Proof.
  intros [m Hp] [m' Hp'] Hn (H1 & H2 & H3). split_and!; [done| |auto].
  intros q. destruct (decide (q = [])) as [->|Hq]; [|auto]. cbn [app]. rewrite Hp, Hp'. cbn. rewrite H3; auto.
Qed.

Lemma names_in_spec s d n : n ∈ names_in s d ↔ is_Some (s !! (n :: d)).
Proof.
  unfold names_in. rewrite list_elem_of_omap. split.
  - intros (p & Hp & E). apply elem_of_elements, elem_of_dom in Hp. destruct p as [|m d']; [done|].
    destruct (decide (d' = d)) as [->|]; [|done]. by injection E as ->.
  - intros H. exists (n :: d). split; [by apply elem_of_elements, elem_of_dom|]. by rewrite decide_True.
Qed.
Lemma names_in_nodup s d : NoDup (names_in s d).
Proof.
  unfold names_in. pose proof (NoDup_elements (dom s)) as H. revert H. generalize (elements (dom s)) as l.
  induction l as [|p l IH]; intros H; [constructor|]. apply NoDup_cons in H as [Hp H]. cbn [omap list_omap].
  destruct p as [|m d']; [by apply IH|]. destruct (decide (d' = d)) as [->|]; [|by apply IH].
  apply NoDup_cons. split; [|by apply IH]. intros (q & Hq & E)%list_elem_of_omap.
  destruct q as [|m' d']; [done|]. destruct (decide (d' = d)) as [->|]; [|done]. by injection E as ->.
Qed.

(** ** The loop, and the calls inside *)

Lemma no_children s src dst n q : ready s src dst → ¬ is_directory (s !! (n :: src)) → q ≠ [] → s !! (q ++ n :: src) = None.
Proof.
  intros R Hn. induction q as [|a q IH]; [done|]. intros _. destruct (s !! ((a :: q) ++ n :: src)) as [x|] eqn:E; [|done].
  assert (H : is_directory (s !! (q ++ n :: src))).
  { pose proof (rd_closed _ _ _ R (q ++ [n]) a) as H. rewrite <- app_assoc in H. cbn [app] in *. apply H. by rewrite E. }
  destruct q as [|b q]; [done|]. destruct H as [m H]. by rewrite IH in H.
Qed.
Lemma ready_made s src dst n : apart src dst → ready s src dst → is_directory (s !! (n :: src)) →
  ready (<[n :: dst := Dir new_mode]> s) src dst.
Proof.
  intros Hap R Hn. set (s1 := <[n :: dst := Dir new_mode]> s).
  assert (Hs : ∀ q, s1 !! (q ++ src) = s !! (q ++ src)).
  { intros q. apply lookup_insert_ne. intros E. apply (apart_path src dst (n :: dst) Hap); [by exists q|by exists [n]]. }
  destruct (real_src s n src dst (rd_src _ _ _ R) (rd_dst _ _ _ R) Hap s1) as [H1 H2].
  { intros k _ Hk. by apply lookup_insert_ne. }
  split; [done..| | | |].
  - intros q m. rewrite Hs. intros H. pose proof (Hs (m :: q)) as E; cbn [app] in E; rewrite E in H; clear E. by apply (rd_closed _ _ _ R) in H.
  - intros q m H. pose proof (Hs (m :: q)) as E; cbn [app] in E; rewrite E in H; clear E. by apply (rd_names _ _ _ R) in H.
  - intros q Hq. rewrite Hs. by apply (rd_short _ _ _ R).
  - intros q Hq. rewrite Hs. destruct (decide (q ++ dst = n :: dst)) as [E|E].
    + unfold s1. rewrite E, lookup_insert_eq. apply (app_inv_tail dst q [n]) in E as ->. cbn [app].
      destruct Hn as [m ->]. cbn. right. by eexists.
    + unfold s1. rewrite lookup_insert_ne by done. by apply (rd_pairs _ _ _ R).
Qed.

Section Calls.
Context (Hsend : same_device = true ∨ sends).

(** What a call on two directories does. *)
Definition moves_dir (md : path → path → M files Z) src dst : Prop := ∀ s, ready s src dst →
  wp (md src dst) (λ r s', r = 0 ∧ MovedDir s s' src dst) s.

Lemma wp_entry md src dst s n names (Q : Z → files → Prop) : apart src dst → ready s src dst → is_Some (s !! (n :: src)) →
  moves_dir md (n :: src) (n :: dst) →
  (∀ s1, Moved s s1 (n :: src) (n :: dst) → wp (entries md src dst names) Q s1) →
  wp (entries md src dst (n :: names)) Q s.
Proof using Hsend.
  intros Hap R Hx Hmd HQ. cbn [entries]. destruct (rd_names _ _ _ R [] n Hx) as [N1 N2].
  rewrite bool_decide_eq_false_2 by (by intros [?|?]).
  destruct (rd_short _ _ _ R [n] ltac:(done) Hx) as [S1 S2]. cbn [app] in S1, S2.
  rewrite (proj2 (Nat.leb_gt _ _) S1), (proj2 (Nat.leb_gt _ _) S2). cbn [orb].
  pose proof (rd_src _ _ _ R) as Rs. pose proof (rd_dst _ _ _ R) as Rd. pose proof (apart_child n _ _ Hap) as Hapn.
  pose proof (rd_pairs _ _ _ R [n] ltac:(done)) as Hm. cbn [app] in Hm.
  wp_step. apply (wp_lstat s n src dst Rs Rd); [by left|].
  assert (Hleaf : ¬ is_directory (s !! (n :: src)) → ∀ z, merged (s !! (n :: src)) (s !! (n :: dst)) (Some z) →
    wp (entries md src dst names) Q (<[n :: dst := z]> (delete (n :: src) s))).
  { intros Hd z Hz. apply HQ. apply moved_leaf; [by apply entries_differ|done| |done]. intros q. by eapply no_children. }
  destruct Hx as [x Hx]. rewrite Hx in *. destruct x as [m|data m|t|b]; [| | |done].
  - wp_step. unfold mkdir. unfold wp at 1. rewrite entry_at_real by done.
    assert (Hgo : ∀ s1, ready s1 (n :: src) (n :: dst) → (∀ s2, MovedDir s1 s2 (n :: src) (n :: dst) → Moved s s2 (n :: src) (n :: dst)) →
      wp (r ← md (n :: src) (n :: dst); if r =? 0 then entries md src dst names else mret (-1)) Q s1).
    { intros s1 R1 H1. wp_step. eapply wp_mono; [by apply Hmd|]. intros r s2 [-> H2]. cbn. by apply HQ, H1. }
    assert (Hds : is_directory (s !! (n :: src))) by (rewrite Hx; by eexists).
    destruct (s !! (n :: dst)) as [y|] eqn:Ey.
    + destruct Hm as [|Hdd]; [done|]. apply Hgo.
      * apply ready_child; [done|done|by rewrite Ey].
      * intros s2. apply moved_kept; [done|by rewrite Ey|]. apply Hapn.
    + apply Hgo.
      * apply ready_child; [by apply ready_made| |by rewrite lookup_insert_eq; eexists].
        rewrite lookup_insert_ne; [done|]. intros E. symmetry in E. revert E. by apply entries_differ.
      * intros s2. by apply moved_made.
  - wp_step. apply wp_move_reg; try done; rewrite Hx; [done|]. intros z Hz. apply Hleaf; [by intros [? [=]]|done].
  - wp_step. eapply wp_move_link; try done; rewrite Hx; [done|]. intros z Hz. apply Hleaf; [by intros [? [=]]|done].
Qed.

Lemma wp_entries md src dst names s : apart src dst → ready s src dst → NoDup names →
  (∀ n, n ∈ names → n = lit "." ∨ n = lit ".." ∨ is_Some (s !! (n :: src))) →
  (∀ n, (length (path_text (n :: src)) < PATH_BYTES)%nat → moves_dir md (n :: src) (n :: dst)) →
  wp (entries md src dst names) (λ r s', r = 0 ∧ MovedAll s s' src dst names ∧ ready s' src dst) s.
Proof using Hsend.
  intros Hap R Hnd Hex Hmd. revert s R Hex. induction Hnd as [|n names Hn Hnd IH]; intros s R Hex.
  - apply wp_ret. split_and!; [done|apply moved_all_nil|done].
  - assert (Hcont : ∀ s1, Moved s s1 (n :: src) (n :: dst) →
      wp (entries md src dst names) (λ r s', r = 0 ∧ MovedAll s s' src dst (n :: names) ∧ ready s' src dst) s1).
    { intros s1 H1. eapply wp_mono; [apply IH|].
      - by eapply ready_moved.
      - intros m Hm. destruct H1 as (_ & _ & ->); [apply Hex; by right| |].
        + apply (other_child n m []). by intros ->.
        + apply (child_apart n m [] dst src). by apply apart_sym.
      - intros r s' (-> & H2 & H3). split_and!; [done|by eapply moved_all_cons|done]. }
    destruct (decide (n = lit "." ∨ n = lit "..")) as [Hdot|Hdot].
    + cbn [entries]. rewrite bool_decide_eq_true_2 by done. apply Hcont. apply moved_none.
      assert (Hnone : s !! (n :: src) = None).
      { destruct (s !! (n :: src)) as [x|] eqn:E; [|done]. destruct (rd_names _ _ _ R [] n) as [N1 N2]; [cbn [app]; by rewrite E|].
        by destruct Hdot. }
      intros q. destruct (decide (q = [])) as [->|Hq]; [done|]. eapply no_children; [done| |done]. rewrite Hnone. by intros [? [=]].
    + destruct (Hex n) as [|[|Hx]]; [by left|tauto|tauto|]. apply wp_entry; [done..| |done].
      apply Hmd. by apply (rd_short _ _ _ R [n]).
Qed.
(** Nothing is left in the source directory, which then goes as well. *)
Lemma moved_all_dir s s1 src dst names : apart src dst → ready s src dst →
  (∀ n, is_Some (s !! (n :: src)) → n ∈ names) → MovedAll s s1 src dst names → MovedDir s (delete src s1) src dst.
Proof.
  intros Hap R Hall [H1 H2].
  assert (Hk : ∀ q d, d = src ∨ d = dst → q ≠ [] →
    (∃ n a, q ++ d = a ++ n :: d ∧ n ∈ names ∧ q = a ++ [n]) ∨ (s !! (q ++ src) = None ∧ s1 !! (q ++ d) = s !! (q ++ d))).
  { intros q d Hd Hq. destruct (child_split q d Hq) as (a & n & E & ->). rewrite E. destruct (decide (n ∈ names)) as [Hn|Hn]; [left; eauto|].
    right. split.
    - assert (Hnone : s !! (n :: src) = None) by (destruct (s !! (n :: src)) eqn:E'; [destruct Hn; apply Hall; by rewrite E'|done]).
      rewrite <- app_assoc. cbn [app]. destruct a as [|b a]; [done|]. eapply no_children; [done| |done]. rewrite Hnone. by intros [? [=]].
    - apply H2. intros m Hm. assert (m ≠ n) by (by intros ->).
      destruct Hd as [-> | ->]; auto using other_child, child_apart, apart_sym. }
  assert (Hdst : ∀ q, src ≠ q ++ dst) by (intros q E; destruct Hap as [_ Hd]; apply Hd; by exists q).
  split_and!.
  - intros q. destruct (decide (q = [])) as [->|Hq]; [apply lookup_delete_eq|].
    rewrite lookup_delete_ne by (intros E; apply (f_equal length) in E; rewrite length_app in E; destruct q; [done|cbn in E; lia]).
    destruct (Hk q src) as [(n & a & E & Hn & _)|[E ->]]; [by left|done| |done]. rewrite E. by apply H1.
  - intros q Hq. rewrite lookup_delete_ne by done. destruct (Hk q dst) as [(n & a & E & Hn & ->)|[E ->]]; [by right|done| |by rewrite E].
    rewrite <- !app_assoc. cbn [app]. by apply H1.
  - intros k Hs Hd. rewrite lookup_delete_ne by (intros <-; apply Hs; by exists []). apply H2. intros n _. split; intros H.
    + by apply suffix_child in H.
    + destruct Hd as [-> | Hd]; [by apply not_above in H|by apply suffix_child in H].
Qed.

Lemma wp_rmdir s p (Q : bool → files → Prop) : p ≠ [] → real s p → (∀ n, s !! (n :: p) = None) →
  Q true (delete p s) → wp (rmdir p) Q s.
Proof.
  intros Hp Hr Hn HQ. destruct p as [|n d]; [done|]. destruct Hr as [[m E] Hd]. unfold wp, rmdir. rewrite entry_at_real, E by done.
  destruct (names_in s (n :: d)) as [|x l] eqn:El; [done|].
  assert (H : x ∈ names_in s (n :: d)) by (rewrite El; by left). apply names_in_spec in H. rewrite Hn in H. by destruct H.
Qed.

Lemma wp_move_dir_at fuel src dst : fuel ≠ O → src ≠ [] → apart src dst → (PATH_BYTES < fuel + length (path_text src))%nat →
  moves_dir (move_dir_at fuel) src dst.
Proof using Hsend Laws.
  revert src dst. induction fuel as [|fuel IH]; intros src dst Hf Hs Hap Hl s R; [done|]. cbn [move_dir_at]. wp_step. wp_step.
  unfold id. rewrite (dir_at_real s src (rd_src _ _ _ R)). wp_step.
  set (names := dir_order _). assert (Hp : names ≡ₚ lit "." :: lit ".." :: names_in s src) by apply dir_order_all.
  assert (Hin : ∀ n, is_Some (s !! (n :: src)) → n ∈ names).
  { intros n Hn. rewrite Hp. right; right. by apply names_in_spec. }
  eapply wp_mono; [apply wp_entries; [done|done| | |]|].
  - rewrite Hp. assert (Hdots : ∀ n, n ∈ names_in s src → n ≠ lit "." ∧ n ≠ lit "..").
    { intros n Hn. apply names_in_spec in Hn. by apply (rd_names _ _ _ R []). }
    apply NoDup_cons. split; [|apply NoDup_cons; split; [|apply names_in_nodup]].
    + intros [E|H]%elem_of_cons; [done|]. by destruct (Hdots _ H).
    + intros H. by destruct (Hdots _ H).
  - intros n. rewrite Hp, !elem_of_cons, names_in_spec. tauto.
  - intros n Hn. pose proof (path_text_length n src Hs). apply IH; [lia|done|by apply apart_child|lia].
  - intros r s1 (-> & H1 & R1). wp_step. apply wp_rmdir; [done|apply R1| |].
    + intros n. destruct (s1 !! (n :: src)) eqn:E; [|done]. destruct (decide (n ∈ names)) as [Hn|Hn].
      * destruct H1 as [H1 _]. destruct (H1 n Hn) as [H1' _]. specialize (H1' []). cbn in H1'. by rewrite H1' in E.
      * exfalso. apply Hn, Hin. destruct H1 as [_ H1]. rewrite <- H1; [by rewrite E|]. intros m Hm. split.
        -- intros H. assert (m = n) as -> by (by eapply child_inj; [exact H|by exists []]). done.
        -- apply (child_apart m n [] dst src). by apply apart_sym.
    + wp_step. split; [done|]. by eapply moved_all_dir.
Qed.
End Calls.

(** C10: moving a directory of directories, files and links into another one that is apart from it, with no directory in the place of anything
    else and with paths below 512 bytes; on another file system no [sendfile] fails, links are not empty, shorter than 128 bytes and in
    the place of no link ([ready]).  Then 0 is returned, the source is gone, nothing outside the two is changed, and what was in the
    source is at the destination, except that where both have files of one length the destination's stays and the source's is lost
    ([same_length_lost]), and that a link at the destination, or something special in the place of a file, may stay in the same way
    ([merged]).  Directories that both have keep the destination's mode. *)
Theorem move_dir_merges srcDir dstDir s : same_device = true ∨ sends → srcDir ≠ dstDir → ready s [srcDir] [dstDir] →
  ∃ s', move_dir (Some srcDir) (Some dstDir) s = Done 0 s' ∧
    (∀ q, s' !! (q ++ [srcDir]) = None) ∧
    (∀ q, q ≠ [] → merged (s !! (q ++ [srcDir])) (s !! (q ++ [dstDir])) (s' !! (q ++ [dstDir]))) ∧
    ∀ k, ¬ [srcDir] `suffix_of` k → (k = [dstDir] ∨ ¬ [dstDir] `suffix_of` k) → s' !! k = s !! k.
Proof using Laws.
  intros Hsend Hne R. assert (Hap : apart [srcDir] [dstDir]).
  { split; intros H; apply suffix_cons_inv in H as [[= H]|H]; try done; apply suffix_nil_inv in H; done. }
  assert (H : moves_dir (move_dir_at (S PATH_BYTES)) [srcDir] [dstDir]).
  { apply wp_move_dir_at; [done|done|done|done|unfold PATH_BYTES; lia]. }
  specialize (H s R). apply wp_done in H as (r & s' & E & -> & H). exists s'. by split.
Qed.
End Moving.

(** * Examples *)

Module DemoMoveDir.

Definition sdir := lit "src".
Definition ddir := lit "dst".
Definition d := lit "d".
Definition f := lit "f".
Definition g := lit "g".
Definition l := lit "l".
(** The text of a link is the name of one directory; the order is that of the map; a call copies half of what is left. *)
Definition demo (same : bool) (copies : Z → Z) : FileSystem := {|
  same_device := same; umask := 18; dir_size := 4096; target_path := λ _ t, [t]; dir_order := id;
  sent := λ _ left, copies (Z.of_nat left) |}.
Lemma move_demo_laws same copies : @FileSystemLaws (demo same copies).
Proof. by split. Qed.
Definition half (n : Z) : Z := n / 2 + 1.
Definition disk (entries : list (path * node)) : files := list_to_map entries.

(** A directory with a file and a link, and one file besides; at the destination there is the directory, with a file of the
    same name. *)
Definition tree : list (path * node) :=
  [([sdir], Dir 493); ([d; sdir], Dir 493); ([f; d; sdir], Reg (lit "new text") 420); ([l; d; sdir], Lnk (lit "x"));
   ([g; sdir], Reg (lit "g") 420); ([ddir], Dir 493); ([d; ddir], Dir 448); ([f; d; ddir], Reg (lit "old") 384)].
Lemma in_tree k x : disk tree !! k = Some x → (k, x) ∈ tree.
Proof. apply elem_of_list_to_map_2. Qed.
Ltac tree_cases H := apply in_tree in H; unfold tree in H;
  repeat (apply elem_of_cons in H as [H|H]; [injection H as H ->|]); [..|by apply not_elem_of_nil in H].
Lemma path_cases (q : path) (a : str) (p : path) : q ++ [sdir] = p → last p = Some a → a = sdir ∧ q = removelast p.
Proof. intros <- E. rewrite last_snoc in E. injection E as <-. by rewrite removelast_last. Qed.

Lemma ready_demo : @ready (demo false half) (disk tree) [sdir] [ddir].
Proof.
  assert (Hq : ∀ q x, disk tree !! (q ++ [sdir]) = Some x → (q, x) ∈
    [([], Dir 493); ([d], Dir 493); ([f; d], Reg (lit "new text") 420); ([l; d], Lnk (lit "x")); ([g], Reg (lit "g") 420)]).
  { intros q x H. tree_cases H; (eapply path_cases in H as [E ->]; [|done]); try done; set_solver. }
  split.
  - split; [by exists 493|done].
  - split; [by exists 493|done].
  - intros q n [x H]. apply (Hq (n :: q)) in H. rewrite !elem_of_cons in H.
    destruct H as [H|[H|[H|[H|[H|H%not_elem_of_nil]]]]]; simplify_eq; by exists 493.
  - intros q n [x H]. apply (Hq (n :: q)) in H. rewrite !elem_of_cons in H.
    destruct H as [H|[H|[H|[H|[H|H%not_elem_of_nil]]]]]; by simplify_eq.
  - intros q Hn [x H]. apply Hq in H. rewrite !elem_of_cons in H.
    destruct H as [H|[H|[H|[H|[H|H%not_elem_of_nil]]]]]; simplify_eq; cbn; unfold PATH_BYTES; lia.
  - intros q Hn. destruct (disk tree !! (q ++ [sdir])) as [x|] eqn:H; [|done]. apply Hq in H. rewrite !elem_of_cons in H.
    destruct H as [H|[H|[H|[H|[H|H%not_elem_of_nil]]]]]; simplify_eq.
    + right. by exists 448.
    + split; [|right]; by intros [? [=]].
    + split; [by intros [? [=]]|right]. split_and!; [by intros [? [=]]|done|unfold LINK_BYTES; cbn; lia].
    + split; [|right]; by intros [? [=]].
Qed.

Lemma move_dir_merges_witness : ∃ s, @move_dir (demo false half) (Some sdir) (Some ddir) (disk tree) = Done 0 s ∧
  s !! [f; d; ddir] = Some (Reg (lit "new text") 420) ∧ s !! [l; d; ddir] = Some (Lnk (lit "x")) ∧ s !! [sdir] = None.
Proof.
  destruct (@move_dir_merges (demo false half) (move_demo_laws _ _) sdir ddir (disk tree)) as (s & E & H1 & H2 & _).
  - right. intros pos left Hl. cbn. unfold half. pose proof (Z.div_pos (Z.of_nat left) 2). lia.
  - done.
  - apply ready_demo.
  - exists s. split_and!; [exact E| | |apply (H1 [])].
    + apply (H2 [f; d]). done.
    + apply (H2 [l; d]). done.
Defined.

Ltac by_computation := match goal with |- _ = ?r => vm_cast_no_check (eq_refl r) end.
(** A file of the same length is taken to be the same file. *)
Example same_length_lost : @move_dir (demo true half) (Some sdir) (Some ddir) (disk
    [([sdir], Dir 493); ([f; sdir], Reg (lit "new") 420); ([ddir], Dir 493); ([f; ddir], Reg (lit "old") 420)]) =
  Done 0 (disk [([ddir], Dir 493); ([f; ddir], Reg (lit "old") 420)]).
Proof. by_computation. Qed.
(** A file in the place of a directory: the files of the directory are deleted. *)
Example directory_lost : @move_dir (demo true half) (Some sdir) (Some ddir) (disk
    [([sdir], Dir 493); ([d; sdir], Dir 493); ([f; d; sdir], Reg (lit "new") 420); ([ddir], Dir 493); ([d; ddir], Reg [] 420)]) =
  Done 0 (disk [([ddir], Dir 493); ([d; ddir], Reg [] 420)]).
Proof. by_computation. Qed.
(** No room on the other file system: the file is deleted. *)
Example full_disk_loses : @move_dir (demo false (λ _, -1)) (Some sdir) (Some ddir) (disk
    [([sdir], Dir 493); ([f; sdir], Reg (lit "text") 420); ([ddir], Dir 493)]) =
  Done 0 (disk [([ddir], Dir 493); ([f; ddir], Reg [] 420)]).
Proof. by_computation. Qed.
(** The text of a link that fills the array has no end there. *)
Example long_link_fails : match @move_dir (demo false half) (Some sdir) (Some ddir) (disk
    [([sdir], Dir 493); ([l; sdir], Lnk (repeat "x"%char 128)); ([ddir], Dir 493)]) with
  Stop Fault _ => True | _ => False end.
Proof. vm_cast_no_check I. Qed.
(** [opendir] fails, and its result is not looked at. *)
Example not_a_directory s : @move_dir (demo true half) (Some sdir) (Some ddir) (disk [([sdir], Reg s 420)]) =
  Stop Fault (disk [([sdir], Reg s 420)]).
Proof. by_computation. Qed.
End DemoMoveDir.
