(* ===== verification/Deadlock.v ===== *)
(** Threads that take two mutexes each: main.c of the strace example.

    Every thread goes round for ever: it locks a mutex, then another one, and unlocks both.  The lemmas are about any number
    of such threads, each with the two mutexes that it takes; [main] starts three of them in a ring. *)
From S2P Require Import Prelude Program.

Inductive mutex := mutex_value1 | mutex_value2 | mutex_value3.
#[export] Instance mutex_dec : EqDecision mutex.
Proof. solve_decision. Defined.

Inductive op : Type → Type :=
  | Lock (m : mutex) : op ()
  | Unlock (m : mutex) : op ()
  | Sleep (s : Z) : op ().
#[local] Abbreviation prog := (prog op).

(** ** The program *)

Definition body1 : prog (option ()) :=
  call (Lock mutex_value1);; call (Lock mutex_value2);; call (Unlock mutex_value2);; call (Unlock mutex_value1);;
  call (Sleep 1);; mret None.
Definition body2 : prog (option ()) :=
  call (Lock mutex_value2);; call (Sleep 1);; call (Lock mutex_value3);; call (Unlock mutex_value3);;
  call (Unlock mutex_value2);; call (Sleep 1);; mret None.
Definition body3 : prog (option ()) :=
  call (Lock mutex_value3);; call (Sleep 1);; call (Lock mutex_value1);; call (Unlock mutex_value1);;
  call (Unlock mutex_value3);; call (Sleep 1);; mret None.
Definition thread_func1 : prog () := loop body1.
Definition thread_func2 : prog () := loop body2.
Definition thread_func3 : prog () := loop body3.

Record world := mkWorld { threads : list (prog ()); owner : mutex → option nat }.

(** An operation of a thread; a mutex that is locked makes it wait. *)
Definition exec {B} (o : op B) (t : nat) (f : mutex → option nat) : option (B * (mutex → option nat)) :=
  match o in op B return option (B * (mutex → option nat)) with
  | Lock m => match f m with None => Some ((), λ x, if decide (x = m) then Some t else f x) | Some _ => None end
  | Unlock m => Some ((), λ x, if decide (x = m) then None else f x)
  | Sleep _ => Some ((), f)
  end.
Definition run (p : prog ()) (t : nat) (f : mutex → option nat) : option (prog () * (mutex → option nat)) :=
  match p with
  | Ret _ => None
  | Act o k => '(b, f) ← exec o t f; Some (k b, f)
  | Loop body k => Some (unroll body k, f)
  end.
Definition step (t : nat) (w : world) : option world :=
  p ← threads w !! t; '(p, f) ← run p t (owner w); Some (mkWorld (<[t := p]> (threads w)) f).
Definition reaches : world → world → Prop := rtc (λ w w', ∃ t, step t w = Some w').
Definition stuck (w : world) : Prop := ∀ t, step t w = None.

Definition started (ps : list (prog ())) : world := mkWorld ps (λ _, None).
Definition main : world := started [thread_func1; thread_func2; thread_func3].

(** * What a thread holds *)

(** The two mutexes of a thread, and whether it sleeps between them. *)
Record job := mkJob { first : mutex; second : mutex; naps : bool }.
Inductive point := Begin | LockFirst | Nap | LockSecond | UnlockSecond | UnlockFirst | Rest | End_.
(** What is left of the body at a point. *)
Definition from_ (j : job) (p : point) : prog (option ()) :=
  let rest := call (Sleep 1);; mret None in
  let unlock1 := call (Unlock (first j));; rest in
  let unlock2 := call (Unlock (second j));; unlock1 in
  let lock2 := call (Lock (second j));; unlock2 in
  let nap := call (Sleep 1);; lock2 in
  match p with
  | Begin | LockFirst => call (Lock (first j));; (if naps j then nap else lock2)
  | Nap => nap
  | LockSecond => lock2
  | UnlockSecond => unlock2
  | UnlockFirst => unlock1
  | Rest => rest
  | End_ => mret None
  end.
Definition code (j : job) (p : point) : prog () :=
  match p with
  | Begin | End_ => loop (from_ j LockFirst)
  | _ => c ← from_ j p; match c with None => loop (from_ j LockFirst) | Some c => Ret c end
  end.
Definition next (j : job) (p : point) : point :=
  match p with
  | Begin | End_ => LockFirst
  | LockFirst => if naps j then Nap else LockSecond
  | Nap => LockSecond
  | LockSecond => UnlockSecond
  | UnlockSecond => UnlockFirst
  | UnlockFirst => Rest
  | Rest => End_
  end.
Definition held (j : job) (p : point) : list mutex :=
  match p with
  | Nap | LockSecond | UnlockFirst => [first j]
  | UnlockSecond => [first j; second j]
  | _ => []
  end.
(** What a thread waits for. *)
Definition wants (j : job) (p : point) : option mutex :=
  match p with LockFirst => Some (first j) | LockSecond => Some (second j) | _ => None end.

Definition run_point (j : job) (p : point) (t : nat) (f : mutex → option nat) : option (mutex → option nat) :=
  match p with
  | LockFirst => match f (first j) with None => Some (λ x, if decide (x = first j) then Some t else f x) | Some _ => None end
  | LockSecond => match f (second j) with None => Some (λ x, if decide (x = second j) then Some t else f x) | Some _ => None end
  | UnlockSecond => Some (λ x, if decide (x = second j) then None else f x)
  | UnlockFirst => Some (λ x, if decide (x = first j) then None else f x)
  | _ => Some f
  end.
Lemma run_code j p t f : run (code j p) t f = (λ f', (code j (next j p), f')) <$> run_point j p t f.
Proof.
  destruct j as [a b []], p; cbn -[decide]; try done; by case_match.
Qed.

(** The owners are the threads that hold the mutexes. *)
Record kept (js : list job) (ps : list point) (w : world) : Prop := {
  kept_length : length ps = length js;
  kept_threads : threads w = zip_with code js ps;
  kept_owner m t : owner w m = Some t ↔ ∃ j p, js !! t = Some j ∧ ps !! t = Some p ∧ m ∈ held j p;
}.

Section Jobs.
Context (js : list job) (Hdiff : ∀ j, j ∈ js → first j ≠ second j).

Lemma kept_started : kept js (const Begin <$> js) (started ((λ j, loop (from_ j LockFirst)) <$> js)).
Proof using.
  clear Hdiff. split.
  - by rewrite length_fmap.
  - cbn. induction js as [|j l IH]; cbn; [done|]. by rewrite IH.
  - intros m t. cbn. split; [intros [=]|]. intros (j & p & _ & Hp & Hm). rewrite list_lookup_fmap in Hp.
    destruct (js !! t); [|done]. injection Hp as <-. by apply not_elem_of_nil in Hm.
Qed.

Lemma step_kept t w ps j p : kept js ps w → js !! t = Some j → ps !! t = Some p →
  step t w = (λ f, mkWorld (<[t := code j (next j p)]> (threads w)) f) <$> run_point j p t (owner w).
Proof using.
  clear Hdiff. intros K Hj Hp. unfold step. rewrite (kept_threads _ _ _ K).
  rewrite lookup_zip_with, Hj. cbn. rewrite Hp. cbn. rewrite run_code. by destruct (run_point j p t (owner w)).
Qed.

(** What a step does to the owners. *)
Lemma point_owner j p t f f' m : first j ≠ second j → (∀ x, x ∈ held j p → f x = Some t) → run_point j p t f = Some f' →
  (m ∈ held j (next j p) ∧ f' m = Some t ∧ (m ∈ held j p ∨ f m = None)) ∨
  ((m ∉ held j (next j p)) ∧ m ∈ held j p ∧ f' m = None) ∨
  ((m ∉ held j (next j p)) ∧ (m ∉ held j p) ∧ f' m = f m).
Proof using.
  clear Hdiff. intros Hd Hf Hr. pose proof (Hf m) as Hm. clear Hf.
  assert (Hi : ∀ (x : mutex) l, x ∈ l ↔ In x l) by (intros; apply list_elem_of_In).
  rewrite Hi in Hm. rewrite !Hi. clear Hi.
  destruct (decide (first j = m)), p; cbn -[decide] in *; repeat case_match; simplify_eq; cbn -[decide]; repeat case_decide; intuition congruence.
Qed.
Lemma kept_step t w w' ps : kept js ps w → step t w = Some w' → ∃ ps', kept js ps' w'.
Proof using Hdiff.
  intros K E. destruct (js !! t) as [j|] eqn:Hj.
  2:{ exfalso. unfold step in E. rewrite (kept_threads _ _ _ K), lookup_zip_with, Hj in E. done. }
  destruct (ps !! t) as [p|] eqn:Hp.
  2:{ apply lookup_ge_None in Hp. apply lookup_lt_Some in Hj. rewrite (kept_length _ _ _ K) in Hp. lia. }
  rewrite (step_kept t w ps j p K Hj Hp) in E. destruct (run_point j p t (owner w)) as [f'|] eqn:Er; [|done].
  injection E as <-. exists (<[t := next j p]> ps).
  assert (Hh : ∀ x, x ∈ held j p → owner w x = Some t) by (intros x Hx; apply (kept_owner _ _ _ K); eauto).
  split.
  - by rewrite length_insert, (kept_length _ _ _ K).
  - cbn. rewrite (kept_threads _ _ _ K). rewrite <- (list_insert_id js t j) at 2 by done. by rewrite <- insert_zip_with.
  - intros m u. cbn. pose proof (point_owner j p t _ _ m (Hdiff _ (list_elem_of_lookup_2 _ _ _ Hj)) Hh Er) as Hm.
    assert (Hlt : (t < length ps)%nat) by (by eapply lookup_lt_Some).
    destruct (decide (u = t)) as [->|Hu].
    + rewrite list_lookup_insert_eq by done. rewrite Hj. split.
      * intros Ho. exists j, (next j p). split_and!; [done..|]. destruct Hm as [(H & _)|[(_ & _ & H)|(_ & Hn & H)]]; [done|congruence|].
        rewrite H in Ho. apply (kept_owner _ _ _ K) in Ho as (j' & p' & Hj' & Hp' & Hin). by simplify_eq.
      * intros (j' & p' & Hj' & Hp' & Hin). simplify_eq. destruct Hm as [(_ & H & _)|[(H & _)|(H & _)]]; [exact H|done|done].
    + rewrite list_lookup_insert_ne by done. rewrite <- (kept_owner _ _ _ K). destruct Hm as [(_ & H & Hor)|[(_ & Hin & H)|(_ & _ & H)]].
      * rewrite H. split; [congruence|]. intros Ho. destruct Hor as [Hin|Hno]; [|congruence]. apply Hh in Hin. congruence.
      * rewrite H. apply Hh in Hin. split; congruence.
      * by rewrite H.
Qed.
Lemma kept_reaches w : reaches (started ((λ j, loop (from_ j LockFirst)) <$> js)) w → ∃ ps, kept js ps w.
Proof using Hdiff.
  intros H. remember (started _) as w0 eqn:E. assert (K : ∃ ps, kept js ps w0) by (subst; eauto using kept_started). clear E.
  induction H as [w|w0 w1 w2 [t Ht] _ IH]; [done|]. apply IH. destruct K as [ps K]. by eapply kept_step.
Qed.

(** ** Threads that wait *)

(** A thread that is stuck waits for a mutex of another one. *)
Lemma stuck_point w ps t j p : kept js ps w → stuck w → js !! t = Some j → ps !! t = Some p →
  ∃ m u, wants j p = Some m ∧ owner w m = Some u.
Proof using.
  intros K Hs Hj Hp. specialize (Hs t). rewrite (step_kept t w ps j p K Hj Hp) in Hs.
  destruct p; cbn in *; try done; (destruct (owner w _) as [u|] eqn:E; [|done]); eauto.
Qed.
Lemma stuck_holder w ps m u : kept js ps w → stuck w → owner w m = Some u →
  ∃ j, js !! u = Some j ∧ ps !! u = Some LockSecond ∧ first j = m ∧ ∃ v, owner w (second j) = Some v.
Proof using.
  intros K Hs Ho. apply (kept_owner _ _ _ K) in Ho as (j & p & Hj & Hp & Hm).
  destruct (stuck_point w ps u j p K Hs Hj Hp) as (m' & v & Hw & Ho').
  destruct p; cbn in Hw, Hm; simplify_eq; try (by apply not_elem_of_nil in Hm).
  apply list_elem_of_singleton in Hm as ->. exists j. eauto 10.
Qed.

(** No thread ever waits when every thread takes its mutexes in one order: behind a thread that waits there would be one
    that waits for a mutex further up. *)
Lemma ordered_runs (rank : mutex → nat) bound w : js ≠ [] → (∀ j, j ∈ js → rank (first j) < rank (second j) ≤ bound)%nat →
  (∃ ps, kept js ps w) → ¬ stuck w.
Proof using.
  clear Hdiff. intros Hne Hr [ps K] Hs. assert (Hno : ∀ n m u, (bound - rank m < n)%nat → owner w m = Some u → False).
  { induction n as [|n IH]; intros m u Hn Ho; [lia|]. destruct (stuck_holder w ps m u K Hs Ho) as (j & Hj & _ & <- & v & Ho').
    apply list_elem_of_lookup_2, Hr in Hj. apply (IH (second j) v); [lia|done]. }
  assert (Hj : ∃ j, js !! 0%nat = Some j) by (destruct js; [done|by eexists]). destruct Hj as [j Hj].
  destruct (ps !! 0%nat) as [p|] eqn:Hp.
  - destruct (stuck_point w ps 0 j p K Hs Hj Hp) as (m & u & _ & Ho). apply (Hno (S bound) m u); [lia|done].
  - apply lookup_ge_None in Hp. apply lookup_lt_Some in Hj. rewrite (kept_length _ _ _ K) in Hp. lia.
Qed.

(** With different first mutexes, threads that are stuck have all taken their first one. *)
Lemma distinct_stuck w ps : NoDup (first <$> js) → kept js ps w → stuck w → ∀ t j, js !! t = Some j →
  owner w (first j) = Some t ∧ ∃ u, owner w (second j) = Some u.
Proof using.
  intros Hnd K Hs t j Hj. destruct (ps !! t) as [p|] eqn:Hp.
  2:{ apply lookup_ge_None in Hp. apply lookup_lt_Some in Hj. rewrite (kept_length _ _ _ K) in Hp. lia. }
  destruct (stuck_point w ps t j p K Hs Hj Hp) as (m & u & Hw & Ho).
  destruct (stuck_holder w ps m u K Hs Ho) as (j' & Hj' & Hp' & <- & v & Ho'). destruct p; cbn in Hw; try done; injection Hw as Hw.
  - assert (u = t) as ->; [|by simplify_eq]. eapply NoDup_lookup; [exact Hnd| |]; rewrite list_lookup_fmap.
    + by rewrite Hj'.
    + rewrite Hj. cbn. by rewrite Hw.
  - rewrite Hw. split; [|eauto]. apply (kept_owner _ _ _ K). exists j, LockSecond. split_and!; [done..|]. by left.
Qed.
End Jobs.

(** * The three threads *)

Definition jobs : list job :=
  [mkJob mutex_value1 mutex_value2 false; mkJob mutex_value2 mutex_value3 true; mkJob mutex_value3 mutex_value1 true].
Lemma main_jobs : main = started ((λ j, loop (from_ j LockFirst)) <$> jobs).
Proof. done. Qed.
Lemma jobs_differ (l : list job) : (∀ j, j ∈ l → j ∈ jobs) → ∀ j, j ∈ l → first j ≠ second j.
Proof. intros H j Hj. apply H in Hj. unfold jobs in Hj. rewrite !elem_of_cons, elem_of_nil in Hj. by destruct Hj as [-> |[-> |[-> |[]]]]. Qed.

(** C28: the three threads can deadlock; and when no thread of them can go on, each has taken its first mutex and waits for
    the one that the next thread has taken: the owners of the mutexes lead round the ring. *)
Theorem main_deadlocks : (∃ w, reaches main w ∧ stuck w) ∧
  ∀ w, reaches main w → stuck w →
    owner w mutex_value1 = Some 0%nat ∧ owner w mutex_value2 = Some 1%nat ∧ owner w mutex_value3 = Some 2%nat.
Proof.
  split.
  - exists (drive step [2]%nat 3 (drive step [1]%nat 3 (drive step [0]%nat 2 main))).
    split; [do 2 (etrans; [|apply drive_reaches]); apply drive_reaches|]. intros [|[|[|t]]]; done.
  - intros w Hw Hs. rewrite main_jobs in Hw. apply (kept_reaches _ (jobs_differ _ (λ _ H, H))) in Hw as [ps K].
    assert (H := distinct_stuck jobs w ps ltac:(by apply (bool_decide_eq_true_1 (NoDup _))) K Hs).
    split_and!; [apply (H 0%nat _ eq_refl)|apply (H 1%nat _ eq_refl)|apply (H 2%nat _ eq_refl)].
Qed.

(** How far up a mutex is, when one thread is left out. *)
Definition rank_from (m0 m : mutex) : nat :=
  match m0, m with
  | mutex_value1, mutex_value1 | mutex_value2, mutex_value2 | mutex_value3, mutex_value3 => 0
  | mutex_value1, mutex_value2 | mutex_value2, mutex_value3 | mutex_value3, mutex_value1 => 1
  | _, _ => 2
  end.

(** C29: it takes all three: without one of the threads, there is always one that can go on. *)
Theorem two_go_on t w : (t < 3)%nat → reaches (started (delete t [thread_func1; thread_func2; thread_func3])) w → ¬ stuck w.
Proof.
  intros Ht Hw. set (l := delete t jobs).
  assert (Hl : ∀ j, j ∈ l → j ∈ jobs) by (intros j; unfold l, jobs; destruct t as [|[|[|t]]]; [..|lia]; cbn; rewrite !elem_of_cons; tauto).
  assert (E : started (delete t [thread_func1; thread_func2; thread_func3]) = started ((λ j, loop (from_ j LockFirst)) <$> l)).
  { destruct t as [|[|[|t]]]; [done..|lia]. }
  rewrite E in Hw. apply (kept_reaches _ (jobs_differ _ Hl)) in Hw.
  apply (ordered_runs l (rank_from (match t with O => mutex_value2 | S O => mutex_value3 | _ => mutex_value1 end)) 2).
  - by destruct t as [|[|[|t]]].
  - intros j Hj. destruct t as [|[|[|t]]]; [..|lia]; unfold l, jobs in Hj; cbn in Hj;
      rewrite !elem_of_cons, elem_of_nil in Hj; destruct Hj as [-> |[-> |[]]]; cbn; lia.
  - done.
Qed.

Module DemoDeadlock.
Lemma main_deadlocks_witness : ∃ w, reaches main w ∧ stuck w ∧ owner w mutex_value1 = Some 0%nat.
Proof.
  pose proof main_deadlocks as [(w & Hw & Hs) H]. exists w. split_and!; [done|done|]. by apply (H w Hw Hs).
Defined.
Lemma two_go_on_witness : ∃ w, reaches (started [thread_func2; thread_func3]) w ∧ owner w mutex_value2 = Some 0%nat ∧
  owner w mutex_value3 = Some 1%nat ∧ ¬ stuck w.
Proof.
  exists (drive step [1]%nat 3 (drive step [0]%nat 3 (started [thread_func2; thread_func3]))).
  assert (H : reaches (started [thread_func2; thread_func3])
    (drive step [1]%nat 3 (drive step [0]%nat 3 (started [thread_func2; thread_func3])))).
  { etrans; [|apply drive_reaches]. apply drive_reaches. }
  split_and!.
  - exact H.
  - done.
  - done.
  - apply (two_go_on 0 _ ltac:(lia)). exact H.
Defined.
End DemoDeadlock.
