(* ===== verification/Inherit.v ===== *)
(** A server whose socket is inherited: InheritProcess/code/server.c, and subprocess.c, the program that it starts.

    One thread serves clients on a port, one after the other, with a new listening socket for each; another thread forks
    a process that executes a program.  The steps of the threads and of the process interleave in any way.  A socket is
    closed when no descriptor of any process refers to it; a port is in use while there is a socket bound to it or
    a connection of it.  What else the system may answer is an input of each step. *)
From S2P Require Import Prelude Unix Program.

(** ** Sockets and descriptors *)

Inductive kind := Unbound | Bound | Connection.
#[export] Instance kind_dec : EqDecision kind.
Proof. solve_decision. Defined.
Record desc := mkDesc { socket : nat; cloexec : bool }.

Inductive op : Type → Type :=
  | Socket (SOCK_CLOEXEC : bool) : op (option nat)
  | Fcntl_cloexec (fd : nat) : op ()
  | Bind (fd : nat) : op bool
  | Listen (fd : nat) : op bool
  | Accept (fd : nat) : op (option nat)
  | Recv (fd : nat) : op (option str)
  | Store (at_ : nat) : op ()                    (* [buf[at_] = '\0'] *)
  | Close (fd : nat) : op ()
  | Fork : op bool
  | Execl : op bool
  | Exit_ : op ()
  | Print : op ()
  | Sleep (s : Z) : op ().
#[local] Abbreviation prog := (prog op).

(** ** The program *)

Definition BUF : nat := 1024.
(** The string in [buf], and whether it contains "quit". *)
Fixpoint c_string (buf : str) : str :=
  match buf with [] => [] | c :: buf => if decide (c = zero) then [] else c :: c_string buf end.
Fixpoint strstr (buf s : str) : bool :=
  bool_decide (take (length s) buf = s) || match buf with [] => false | _ :: buf => strstr buf s end.
Definition quits (buf : str) : bool := strstr (c_string buf) (lit "quit").

Definition msg_process (sockfd : nat) : prog () :=
  call Print;;
  connect_fd ← loop (call (Accept sockfd));
  call Print;;
  done ← loop (
    numbytes ← call (Recv connect_fd);
    match numbytes with
    | None => call Print;; mret (Some false)
    | Some [] => mret None
    | Some buf =>
        call (Store (length buf));;
        call Print;;
        if quits buf then mret (Some true) else call (Sleep 1);; mret None
    end);
  when_p done (call (Close connect_fd);; call (Close sockfd)).
Definition remote_process (USE_SOCK_CLOEXEC USE_FD_CLOEXEC : bool) : prog () :=
  loop (
    sockfd ← call (Socket USE_SOCK_CLOEXEC);
    match sockfd with
    | None => call Print;; mret (Some ())
    | Some sockfd =>
        when_p USE_FD_CLOEXEC (call (Fcntl_cloexec sockfd));;
        b ← call (Bind sockfd);
        if b : bool then
          l ← call (Listen sockfd);
          if l : bool then msg_process sockfd;; mret None else call Print;; mret (Some ())
        else call Print;; mret (Some ())
    end).
Definition sub_process : prog () := call Fork;; call Print.
(** The process: the shell executes the program of subprocess.c. *)
Definition subprocess_main : prog () := loop (call Print;; call (Sleep 5);; mret None).
Definition child_process : prog () :=
  r ← call Execl;
  if r : bool then subprocess_main else call Exit_.

(** ** The machine *)

Record child := mkChild { child_code : prog (); child_fds : gmap nat desc }.
Record world := mkWorld {
  threads : list (prog ());
  fds : gmap nat desc;
  sub : option child;
  kinds : gmap nat kind;                         (* of the sockets there have been *)
  overrun : bool;                                (* a store past the end of [buf] *)
}.
#[export] Instance eta_world : Eta world := λ w, mkWorld (threads w) (fds w) (sub w) (kinds w) (overrun w).

(** What the system answers, besides what follows from the state. *)
Inductive answer := Fine | Refused | Data (s : str).

Definition uses (ks : gmap nat kind) (k : nat) : bool :=
  match ks !! k with Some (Bound | Connection) => true | _ => false end.
Definition all_fds (w : world) : list desc :=
  (map_to_list (fds w)).*2 ++ match sub w with Some c => (map_to_list (child_fds c)).*2 | None => [] end.
Definition port_used (w : world) : bool := existsb (λ d, uses (kinds w) (socket d)) (all_fds w).

Definition open_socket (c : bool) (k : kind) (w : world) : nat * world :=
  let fd := fresh (dom (fds w)) in
  let id := fresh (dom (kinds w)) in
  (fd, w <| fds := <[fd := mkDesc id c]> (fds w) |> <| kinds := <[id := k]> (kinds w) |>).
Definition exec {B} (o : op B) (a : answer) (w : world) : option (B * world) :=
  match o in op B return option (B * world) with
  | Socket c => match a with Fine => let '(fd, w) := open_socket c Unbound w in Some (Some fd, w) | _ => Some (None, w) end
  | Fcntl_cloexec fd =>
      Some ((), match fds w !! fd with Some d => w <| fds := <[fd := mkDesc (socket d) true]> (fds w) |> | None => w end)
  | Bind fd =>
      match fds w !! fd, a with
      | Some d, Fine =>
          if port_used w then Some (false, w) else Some (true, w <| kinds := <[socket d := Bound]> (kinds w) |>)
      | _, _ => Some (false, w)
      end
  | Listen fd => Some (match a with Fine => true | _ => false end, w)
  | Accept fd =>
      match a with Fine => let '(c, w) := open_socket false Connection w in Some (Some c, w) | _ => Some (None, w) end
  | Recv fd => match a with Data s => if (length s <=? BUF)%nat then Some (Some s, w) else None | _ => Some (None, w) end
  | Store i => Some ((), if (i <? BUF)%nat then w else w <| overrun := true |>)
  | Close fd => Some ((), w <| fds := delete fd (fds w) |>)
  | Fork =>
      match a, sub w with
      | Fine, None => Some (true, w <| sub := Some (mkChild child_process (fds w)) |>)
      | _, _ => Some (false, w)
      end
  | Print | Sleep _ => Some (tt, w)
  | Execl | Exit_ => None
  end.
(** The process that was forked only executes its program, or ends. *)
Definition exec_child {B} (o : op B) (a : answer) (f : gmap nat desc) : option (B * option (gmap nat desc)) :=
  match o in op B return option (B * option (gmap nat desc)) with
  | Execl => match a with Fine => Some (true, Some (filter (λ x, cloexec x.2 = false) f)) | _ => Some (false, Some f) end
  | Exit_ => Some (tt, None)
  | Print | Sleep _ => Some (tt, Some f)
  | _ => None
  end.

Inductive action := Thread (t : nat) (a : answer) | Child (a : answer).
Definition step (x : action) (w : world) : option world :=
  match x with
  | Thread t a =>
      p ← threads w !! t;
      match p with
      | Ret _ => None
      | Act o k => '(b, w') ← exec o a w; Some (w' <| threads := <[t := k b]> (threads w') |>)
      | Loop body k => Some (w <| threads := <[t := unroll body k]> (threads w) |>)
      end
  | Child a =>
      c ← sub w;
      match child_code c with
      | Ret _ => None
      | Act o k => '(b, f) ← exec_child o a (child_fds c); Some (w <| sub := mkChild (k b) <$> f |>)
      | Loop body k => Some (w <| sub := Some (mkChild (unroll body k) (child_fds c)) |>)
      end
  end.
Definition reaches : world → world → Prop := rtc (λ w w', ∃ x, step x w = Some w').
Definition main (USE_SOCK_CLOEXEC USE_FD_CLOEXEC : bool) : world :=
  mkWorld [remote_process USE_SOCK_CLOEXEC USE_FD_CLOEXEC; sub_process] ∅ None ∅ false.

(** * What a process holds *)

(** A program that only prints and sleeps. *)
Definition quiet_rule (B : Type) (o : op B) (_ : ()) (K : B → () → Prop) : Prop :=
  match o with Print | Sleep _ => ∀ b, K b () | _ => False end.
Definition quiet (p : prog ()) : Prop := safe quiet_rule (λ _ _, False) p ().
Lemma quiet_mono B (o : op B) r (K K' : B → () → Prop) : (∀ b r, K b r → K' b r) → quiet_rule B o r K → quiet_rule B o r K'.
Proof. destruct o; cbn; auto. Qed.
Lemma quiet_subprocess : quiet subprocess_main.
Proof. exists (λ _, True). split; [done|]. by intros []. Qed.
(** Only such programs of [safe] ones run. *)
Definition sock_rule (B : Type) (o : op B) (_ : ()) (K : B → () → Prop) : Prop :=
  match o with Socket c => c = true | _ => True end ∧ ∀ b, K b ().
Lemma sock_mono B (o : op B) r (K K' : B → () → Prop) : (∀ b r, K b r → K' b r) → sock_rule B o r K → sock_rule B o r K'.
Proof. intros H [? HK]. split; auto. Qed.
Definition with_flag (p : prog ()) : Prop := safe sock_rule (λ _ _, True) p ().

Lemma all_fds_elem w d : d ∈ all_fds w ↔
  (∃ fd, fds w !! fd = Some d) ∨ ∃ c fd, sub w = Some c ∧ child_fds c !! fd = Some d.
Proof.
  unfold all_fds. rewrite elem_of_app. assert (H : ∀ m : gmap nat desc, d ∈ (map_to_list m).*2 ↔ ∃ fd, m !! fd = Some d).
  { intros m. rewrite list_elem_of_fmap. split.
    - intros ([fd x] & -> & Hx). exists fd. by apply elem_of_map_to_list.
    - intros [fd Hx]. exists (fd, d). split; [done|]. by apply elem_of_map_to_list. }
  rewrite H. destruct (sub w) as [c|].
  - rewrite H. split; intros [?|Hc]; auto; right; [destruct Hc as [fd ?]; eauto|by destruct Hc as (? & fd & [= <-] & ?); eauto].
  - rewrite elem_of_nil. split; [intros [?|[]]; auto|intros [?|(? & ? & [=] & _)]; auto].
Qed.
Lemma port_used_spec w : port_used w = true ↔ ∃ d, d ∈ all_fds w ∧ uses (kinds w) (socket d) = true.
Proof. unfold port_used. rewrite existsb_exists. by setoid_rewrite list_elem_of_In. Qed.

(** Once bound or connected a socket stays so. *)
Lemma exec_uses {B} (o : op B) a w b w' k x : exec o a w = Some (b, w') → kinds w !! k = Some x → uses (kinds w) k = true →
  kinds w' !! k = Some x.
Proof.
  assert (Hfresh : ∀ y, kinds w !! k = Some x → <[fresh (dom (kinds w)) := y]> (kinds w) !! k = Some x).
  { intros y Hk. rewrite lookup_insert_ne; [done|]. intros E. apply (is_fresh (dom (kinds w))). rewrite E. by apply elem_of_dom_2 in Hk. }
  destruct o; cbn; intros E Hk Hu; repeat case_match; simplify_eq; rs; auto.
  rewrite lookup_insert_ne; [done|]. intros Ek. assert (Hp : port_used w = true); [|congruence].
  apply port_used_spec. exists d. split; [apply all_fds_elem; eauto|by rewrite Ek].
Qed.

Lemma exec_sub {B} (o : op B) a w b w' c : exec o a w = Some (b, w') → sub w = Some c → sub w' = Some c.
Proof. destruct o; cbn; intros E Hc; repeat case_match; simplify_eq; rs; auto; congruence. Qed.

Lemma exec_forks {B} (o : op B) a w b w' : exec o a w = Some (b, w') →
  threads w' = threads w ∧ (sub w' = sub w ∨ (sub w' = Some (mkChild child_process (fds w)) ∧ kinds w' = kinds w)).
Proof. destruct o; cbn; intros E; repeat case_match; simplify_eq; rs; auto. Qed.
(** A process that runs its program goes on, with its descriptors. *)
Definition running (f : gmap nat desc) (w : world) : Prop :=
  ∃ c, sub w = Some c ∧ quiet (child_code c) ∧ child_fds c = f.
Lemma step_keeps_running f x w w' : running f w → step x w = Some w' → running f w'.
Proof.
  intros (c & Hc & Hq & Hf) E. destruct x as [t a|a]; cbn [step] in E.
  - destruct (threads w !! t) as [[|B o k|C body k]|]; cbn in E; simplify_eq.
    + destruct (exec o a w) as [[b w1]|] eqn:Eo; cbn in E; simplify_eq. exists c. rs. split; [|done]. by eapply exec_sub.
    + exists c. by rs.
  - rewrite Hc in E. cbn in E. unfold quiet in Hq. destruct (child_code c) as [|B o k|C body k]; [done| |]; cbn in E.
    + destruct o; try done; cbn in E, Hq; simplify_eq; (eexists; rs; split_and!; [done|apply Hq|done]).
    + simplify_eq. eexists. rs. split_and!; [done| |done]. cbn. apply safe_unroll; [exact quiet_mono|exact Hq].
Qed.
Lemma step_uses x w w' k y : step x w = Some w' → kinds w !! k = Some y → uses (kinds w) k = true → kinds w' !! k = Some y.
Proof.
  intros E Hk Hu. destruct x as [t a|a]; cbn [step] in E.
  - destruct (threads w !! t) as [[|B o p|C body p]|]; cbn in E; simplify_eq; [|by rs].
    destruct (exec o a w) as [[b w1]|] eqn:Eo; cbn in E; simplify_eq. rs. by eapply exec_uses.
  - destruct (sub w) as [c|]; [|done]. cbn in E. destruct (child_code c) as [|B o p|C body p]; [done| |]; cbn in E; simplify_eq; [|by rs].
    destruct (exec_child o a (child_fds c)) as [[b f]|]; cbn in E; simplify_eq. by rs.
Qed.

Lemma running_port f fd d w w' : running f w → f !! fd = Some d → uses (kinds w) (socket d) = true → reaches w w' →
  port_used w' = true.
Proof.
  intros Hrun Hd Hu Hr. induction Hr as [w|w w1 w2 [x E] _ IH].
  - destruct Hrun as (c & Hc & _ & <-). apply port_used_spec. exists d. split; [|done]. apply all_fds_elem. right. by exists c, fd.
  - apply IH; [by eapply step_keeps_running|]. unfold uses in *. destruct (kinds w !! socket d) as [y|] eqn:Ek; [|done].
    assert (Ek1 : kinds w1 !! socket d = Some y) by (eapply step_uses; [exact E|done|by unfold uses; rewrite Ek]). by rewrite Ek1.
Qed.
Lemma used_no_bind w fd a : port_used w = true → exec (Bind fd) a w = Some (false, w).
Proof. cbn. intros ->. by repeat case_match. Qed.

(** ** Without the flags *)

(** A program that asks for no flag. *)
Definition plain_rule (B : Type) (o : op B) (_ : ()) (K : B → () → Prop) : Prop :=
  match o with Socket c => c = false | Fcntl_cloexec _ => False | _ => True end ∧ ∀ b, K b ().
Lemma plain_mono B (o : op B) r (K K' : B → () → Prop) : (∀ b r, K b r → K' b r) → plain_rule B o r K → plain_rule B o r K'.
Proof. intros H [? HK]. split; auto. Qed.
Definition without_flag (p : prog ()) : Prop := safe plain_rule (λ _ _, True) p ().

(** A program that only prints something, and ends with [fin]. *)
Fixpoint winds_up {A} (fin : A → Prop) (p : prog A) : Prop :=
  match p with
  | Ret a => fin a
  | Act o k => match o with Print => ∀ b, winds_up fin (k b) | _ => False end
  | Loop _ _ => False
  end.
(** A program that does no more than that when [bind] has failed. *)
Fixpoint bind_or_end {A} (fin : A → Prop) (p : prog A) : Prop :=
  match p with
  | Ret _ => True
  | Act o k => (∀ b, bind_or_end fin (k b)) ∧
      match o in op B return (B → prog A) → Prop with Bind _ => λ k, winds_up fin (k false) | _ => λ _, True end k
  | Loop body k =>
      bind_or_end (λ c, match c with Some c => winds_up fin (k c) | None => False end) body ∧ ∀ c, bind_or_end fin (k c)
  end.
Lemma winds_up_bind {A B} (fin : A → Prop) (fin' : B → Prop) (p : prog A) (f : A → prog B) :
  winds_up fin p → (∀ a, fin a → winds_up fin' (f a)) → winds_up fin' (p ≫= f).
Proof.
  intros Hp Hf. induction p as [A a|A C o k IH|]; [by apply Hf| |done]. destruct o; try done. intros b. apply (IH b fin); [apply Hp|done].
Qed.
Lemma winds_up_mono {A} (fin fin' : A → Prop) (p : prog A) : winds_up fin p → (∀ a, fin a → fin' a) → winds_up fin' p.
Proof.
  intros Hp Hf. induction p as [A a|A C o k IH|]; [by apply Hf| |done]. destruct o; try done. intros b. apply (IH b fin); [apply Hp|done].
Qed.
Lemma bind_or_end_mono {A} (fin fin' : A → Prop) (p : prog A) :
  bind_or_end fin p → (∀ a, fin a → fin' a) → bind_or_end fin' p.
Proof.
  intros Hp Hf. induction p as [A a|A C o k IH|A C body IHb k IHk]; cbn [bind_or_end] in *; [done| |].
  - destruct Hp as [Hk Ho]. split; [intros b; by apply (IH b fin)|]. destruct o; try done. by eapply winds_up_mono.
  - destruct Hp as [Hb Hk]. split; [|intros c; by apply (IHk c fin)]. eapply IHb; [exact Hb|].
    intros [c|]; [|done]. intros H. by eapply winds_up_mono.
Qed.
Lemma bind_or_end_bind {A B} (fin : A → Prop) (fin' : B → Prop) (p : prog A) (f : A → prog B) :
  bind_or_end fin p → (∀ a, bind_or_end fin' (f a)) → (∀ a, fin a → winds_up fin' (f a)) → bind_or_end fin' (p ≫= f).
Proof.
  intros Hp Hf Hw. induction p as [A a|A C o k IH|A C body _ k IHk]; cbn [mbind prog_bind bind_or_end] in *; [done| |].
  - destruct Hp as [Hk Ho]. split; [intros b; by apply (IH b fin)|]. destruct o; try done. by eapply winds_up_bind.
  - destruct Hp as [Hb Hk]. split; [|intros c; by apply (IHk c fin)]. eapply bind_or_end_mono; [exact Hb|].
    intros [c|]; [|done]. intros H. by eapply winds_up_bind.
Qed.
Lemma bind_or_end_unroll {A C} (fin : A → Prop) (body : prog (option C)) (k : C → prog A) :
  bind_or_end fin (Loop body k) → bind_or_end fin (unroll body k).
Proof. intros [Hb Hk]. unfold unroll. eapply bind_or_end_bind; [exact Hb| |by intros [c|]]. intros [c|]; [apply Hk|by split]. Qed.

Definition ending : prog () → Prop := bind_or_end (λ _, True).
Record plain (w : world) : Prop := {
  plain_threads : Forall (λ p, without_flag p ∧ ending p) (threads w);
  plain_fds fd d : fds w !! fd = Some d → cloexec d = false;
}.
Ltac plain_step :=
  repeat first
    [ done | progress cbn [safe mbind prog_bind mret prog_ret call loop when_p msg_process bind_or_end winds_up]
    | match goal with
      | |- match ?x with _ => _ end => destruct x
      | |- context [when_p ?x _] => destruct x
      | |- context [safe _ _ (if ?x then _ else _)] => destruct x
      | |- context [safe _ _ (match ?x with _ => _ end)] => destruct x
      | |- context [bind_or_end _ (if ?x then _ else _)] => destruct x
      | |- context [bind_or_end _ (match ?x with _ => _ end)] => destruct x
      | |- plain_rule _ _ _ _ => split; [done|intros ?]
      | |- ∃ _ : () → Prop, _ => exists (λ _, True); split; [done|]; intros [] _
      | |- _ ∧ _ => split
      | |- ∀ _, _ => intros ?
      end ].
Lemma main_plain : plain (main false false).
Proof.
  split; [|done]. cbn [threads main]. apply Forall_cons. split; [|apply Forall_singleton];
    unfold without_flag, ending, remote_process, sub_process; plain_step.
Qed.

Lemma step_plain x w w' : plain w → step x w = Some w' → plain w'.
Proof.
  intros [Ht Hf] E. destruct x as [t a|a]; cbn [step] in E.
  - destruct (threads w !! t) as [p|] eqn:Ep; [|done]. cbn in E. destruct (Forall_lookup_1 _ _ _ _ Ht Ep) as [Hp He].
    destruct p as [|B o k|C body k]; [done| |].
    + destruct (exec o a w) as [[b w1]|] eqn:Eo; cbn in E; simplify_eq. destruct Hp as [Ho Hp], He as [He _]. split; rs.
      * apply Forall_insert; [|split; [apply Hp|apply He]]. by rewrite (proj1 (exec_forks o a w b w1 Eo)).
      * intros fd d. clear He Hp k Ep. destruct o; cbn in Eo; repeat case_match; simplify_eq; rs; try done; eauto;
          rewrite ?lookup_insert_Some, ?lookup_delete_Some; naive_solver.
    + simplify_eq. split; rs; [|done]. apply Forall_insert; [done|]. split; [|by apply bind_or_end_unroll].
      apply safe_unroll; [exact plain_mono|exact Hp].
  - destruct (sub w) as [c|]; [|done]. cbn in E. destruct (child_code c) as [|B o k|C body k]; [done| |]; cbn in E;
      [destruct (exec_child o a (child_fds c)) as [[b f]|]; cbn in E|]; simplify_eq; by split; rs.
Qed.
Lemma reaches_plain w : reaches (main false false) w → plain w.
Proof.
  intros Hr. pose proof main_plain as Hp. revert Hp. induction Hr as [w|w w1 w2 [x E] _ IH]; [done|].
  intros Hp. apply IH. by eapply step_plain.
Qed.

(** The process has a socket of the port, and has executed its program or is about to. *)
Definition holds_port (w : world) : Prop :=
  ∃ c fd d, sub w = Some c ∧ child_fds c !! fd = Some d ∧ cloexec d = false ∧ uses (kinds w) (socket d) = true ∧
    (child_code c = child_process ∨ quiet (child_code c)).
Lemma holds_used w : holds_port w → port_used w = true.
Proof. intros (c & fd & d & Hc & Hd & _ & Hu & _). apply port_used_spec. exists d. split; [|done]. apply all_fds_elem. right. by exists c, fd. Qed.
(** The process succeeds in executing the shell. *)
Definition executes (x : action) : Prop := match x with Child a => a = Fine | Thread _ _ => True end.
Definition goes_on : world → world → Prop := rtc (λ w w', ∃ x, executes x ∧ step x w = Some w').

Lemma step_holds x w w' : executes x → holds_port w → step x w = Some w' → holds_port w'.
Proof.
  intros Hx (c & fd & d & Hc & Hd & Hcl & Hu & Hrun) E.
  assert (Hu' : uses (kinds w') (socket d) = true).
  { unfold uses in *. destruct (kinds w !! socket d) as [y|] eqn:Ek; [|done].
    rewrite (step_uses x w w' _ y E Ek); [done|]. unfold uses. by rewrite Ek. }
  destruct x as [t a|a]; cbn [step] in E.
  - exists c, fd, d. split_and!; try done. destruct (threads w !! t) as [[|B o k|C body k]|]; cbn in E; simplify_eq; [|done].
    destruct (exec o a w) as [[b w1]|] eqn:Eo; cbn in E; simplify_eq. rs. by eapply exec_sub.
  - cbn in Hx. subst a. rewrite Hc in E. cbn in E. destruct Hrun as [Eb|Hq].
    + rewrite Eb in E. cbn in E. simplify_eq. eexists _, fd, d. rs. split_and!; [done| |done|exact Hu'|right; apply quiet_subprocess].
      cbn. by apply map_lookup_filter_Some.
    + assert (Hrun : running (child_fds c) w) by by exists c. assert (E' : step (Child Fine) w = Some w') by by cbn [step]; rewrite Hc.
      destruct (step_keeps_running _ _ _ _ Hrun E') as (c' & Hc' & Hq' & Hf). exists c', fd, d. rewrite Hf. split_and!; try done. by right.
Qed.

(** Nothing new is bound while the port is in use. *)
Lemma step_binds_none x w w' k : port_used w = true → step x w = Some w' → kinds w' !! k = Some Bound → kinds w !! k = Some Bound.
Proof.
  intros Hp E. destruct x as [t a|a]; cbn [step] in E.
  - destruct (threads w !! t) as [[|B o p|C body p]|]; cbn in E; simplify_eq; [|by rs].
    destruct (exec o a w) as [[b w1]|] eqn:Eo; cbn in E; simplify_eq. rs. clear p.
    destruct o; cbn in Eo; repeat case_match; simplify_eq; rs; try done; by intros [[_ [=]]|[_ H]]%lookup_insert_Some.
  - destruct (sub w) as [c|]; [|done]. cbn in E. destruct (child_code c) as [|B o p|C body p]; [done| |]; cbn in E;
      [destruct (exec_child o a (child_fds c)) as [[b f]|]; cbn in E|]; simplify_eq; by rs.
Qed.

(** What follows the fork. *)
Lemma goes_on_holds w w' : holds_port w → goes_on w w' →
  holds_port w' ∧ reaches w w' ∧ ∀ k, kinds w' !! k = Some Bound → kinds w !! k = Some Bound.
Proof.
  intros H0 Hr. induction Hr as [w|w w1 w2 (x & Hx & E) _ IH]; [split_and!; [done|apply rtc_refl|done]|].
  destruct IH as (H2 & Hr2 & Hk); [by eapply step_holds|..]. split_and!; [done|eapply rtc_l; [by exists x|done]|].
  intros k Hb. eapply step_binds_none; [by apply holds_used|exact E|by apply Hk].
Qed.
Lemma fork_holds x w w1 : plain w → port_used w = true → sub w = None → sub w1 ≠ None → step x w = Some w1 → holds_port w1.
Proof.
  intros Hpl Hp Hn Hs E. destruct x as [t a|a]; cbn [step] in E; [|by rewrite Hn in E].
  destruct (threads w !! t) as [[|B o k|C body k]|]; cbn in E; simplify_eq.
  destruct (exec o a w) as [[b w2]|] eqn:Eo; cbn in E; simplify_eq. rs in Hs.
  destruct (exec_forks o a w b w2 Eo) as [_ [E|[E Ek]]]; [congruence|].
  apply port_used_spec in Hp as (d & [[fd Hd]|(c & fd & Hc & _)]%all_fds_elem & Hu); [|congruence].
  exists (mkChild child_process (fds w)), fd, d. rs. split_and!; [done|done|by eapply plain_fds|by rewrite Ek|by left].
Qed.

(** C16: without the flags, when the process is forked while the server has a socket of the port, and executes its
    program, the port is in use for ever, although the process only prints and sleeps: no socket is bound any more, and when
    the server comes to its next [bind] all that it still does is to print an error and to end. *)
Theorem inherited_port_stays x w w1 w' : reaches (main false false) w → port_used w = true → sub w = None →
  step x w = Some w1 → sub w1 ≠ None → goes_on w1 w' →
  port_used w' = true ∧ (∀ k, kinds w' !! k = Some Bound → kinds w1 !! k = Some Bound) ∧
  ∀ t sockfd k, threads w' !! t = Some (Act (Bind sockfd) k) → ∀ a w2, step (Thread t a) w' = Some w2 →
    ∃ p, threads w2 !! t = Some p ∧ winds_up (λ _, True) p.
Proof.
  intros Hr Hp Hn E Hs Hg. pose proof (reaches_plain _ Hr) as Hpl.
  destruct (goes_on_holds w1 w') as (Hh & Hr' & Hk); [by eapply fork_holds|done|]. pose proof (holds_used _ Hh) as Hu.
  split_and!; [done|done|]. intros t sockfd k Ht a w2 E2.
  assert (Hpl' : plain w').
  { apply reaches_plain. etrans; [exact Hr|]. eapply rtc_l; [by exists x|exact Hr']. }
  destruct (Forall_lookup_1 _ _ _ _ (plain_threads _ Hpl') Ht) as [_ [_ Hb]].
  cbn [step] in E2. destruct (threads w' !! t) as [p|] eqn:Ep; [|done]. injection Ht as ->. cbn [mbind option_bind] in E2.
  rewrite used_no_bind in E2 by done. cbn in E2. simplify_eq.
  exists (k false). rs. split; [|exact Hb]. apply list_lookup_insert_eq. by eapply lookup_lt_Some.
Qed.

(** ** With SOCK_CLOEXEC *)

(** A descriptor that is not kept, or is one of a connection. *)
Definition fine (ks : gmap nat kind) (f : gmap nat desc) : Prop :=
  ∀ fd d, f !! fd = Some d → cloexec d = true ∨ ks !! socket d = Some Connection.
Definition connections (ks : gmap nat kind) (f : gmap nat desc) : Prop := ∀ fd d, f !! fd = Some d → ks !! socket d = Some Connection.
(** Before it executes its program, when that has failed, and after. *)
Definition child_fine (ks : gmap nat kind) (c : child) : Prop :=
  (child_code c = child_process ∧ fine ks (child_fds c)) ∨ child_code c = call Exit_ ∨
  (quiet (child_code c) ∧ connections ks (child_fds c)).
Lemma child_fine_mono ks ks' c : (∀ k, ks !! k = Some Connection → ks' !! k = Some Connection) → child_fine ks c → child_fine ks' c.
Proof.
  intros Hk [[E H]|[E|[Hq H]]]; [left|by right; left|right; right]; (split; [done|]); intros fd d Hd; [|apply Hk; by eapply H].
  destruct (H fd d Hd); auto.
Qed.
Record flagged (w : world) : Prop := {
  flagged_threads : Forall with_flag (threads w);
  flagged_fds : fine (kinds w) (fds w);
  flagged_sub c : sub w = Some c → child_fine (kinds w) c;
}.
Ltac flag :=
  repeat first
    [ done | progress cbn [safe mbind prog_bind mret prog_ret call loop when_p msg_process]
    | match goal with
      | |- match ?x with _ => _ end => destruct x
      | |- context [safe _ _ (if ?x then _ else _)] => destruct x
      | |- context [safe _ _ (match ?x with _ => _ end)] => destruct x
      | |- sock_rule _ _ _ _ => split; [done|intros ?]
      | |- ∃ _ : () → Prop, _ => exists (λ _, True); split; [done|]; intros [] _
      end ].
Lemma remote_flagged b : with_flag (remote_process true b).
Proof. unfold with_flag, remote_process. destruct b; flag. Qed.
Lemma main_flagged b : flagged (main true b).
Proof.
  split; [|done|done]. cbn. apply Forall_cons. split; [apply remote_flagged|]. apply Forall_singleton. unfold with_flag, sub_process. flag.
Qed.

Lemma exec_fds {B} (o : op B) a w b w' : with_flag (Act o (λ _, Ret ())) → exec o a w = Some (b, w') →
  fine (kinds w) (fds w) → fine (kinds w') (fds w').
Proof.
  intros [Hflag _] E Hf.
  assert (Hk : ∀ d, cloexec d = true ∨ kinds w !! socket d = Some Connection →
    cloexec d = true ∨ kinds w' !! socket d = Some Connection).
  { intros d [?|Hd]; [by left|right]. eapply exec_uses; [exact E|exact Hd|]. unfold uses. by rewrite Hd. }
  assert (Hnew : ∀ fd d, fds w' = <[fd := d]> (fds w) → (cloexec d = true ∨ kinds w' !! socket d = Some Connection) →
    fine (kinds w') (fds w')).
  { intros fd d -> Hd fd' d' [[_ <-]|[_ H]]%lookup_insert_Some; [done|]. apply Hk. by eapply Hf. }
  assert (Hsame : fds w' = fds w → fine (kinds w') (fds w')).
  { intros -> fd d Hd. apply Hk. by eapply Hf. }
  destruct o; cbn in E; repeat case_match; simplify_eq; auto.
  - apply (Hnew (fresh (dom (fds w))) (mkDesc (fresh (dom (kinds w))) true)); [done|by left].
  - eapply Hnew; [by rs|]. by left.
  - eapply Hnew; [by rs|]. right. rs. by rewrite lookup_insert_eq.
  - rs. intros fd' d' [_ H]%lookup_delete_Some. by eapply Hf.
Qed.
Lemma step_flagged x w w' : flagged w → step x w = Some w' → flagged w'.
Proof.
  intros [Ht Hf Hs] E. assert (Hk : ∀ k, kinds w !! k = Some Connection → kinds w' !! k = Some Connection).
  { intros k Hk. eapply step_uses; [exact E|done|]. unfold uses. by rewrite Hk. }
  destruct x as [t a|a]; cbn [step] in E.
  - destruct (threads w !! t) as [p|] eqn:Ep; [|done]. cbn in E. assert (Hp : with_flag p) by by eapply Forall_lookup_1.
    destruct p as [|B o k|C body k]; [done| |].
    + destruct (exec o a w) as [[b w1]|] eqn:Eo; cbn in E; simplify_eq. rs in Hk. destruct Hp as [Hfl Hp]. split; rs.
      * apply Forall_insert; [|apply Hp]. by rewrite (proj1 (exec_forks o a w b w1 Eo)).
      * eapply exec_fds; [|exact Eo|done]. by split.
      * intros c Hc. destruct (exec_forks o a w b w1 Eo) as [_ [E|[E E']]]; rewrite E in Hc.
        -- eapply child_fine_mono; [exact Hk|by apply Hs].
        -- injection Hc as <-. left. split; [done|]. by rewrite E'.
    + simplify_eq. split; rs; [|done..]. apply Forall_insert; [done|]. apply safe_unroll; [exact sock_mono|exact Hp].
  - destruct (sub w) as [c|] eqn:Ec; [|done]. cbn in E. destruct (Hs c eq_refl) as [[Eb H]|[Eb|[Hq H]]].
    + rewrite Eb in E. cbn in E. destruct a; cbn in E; simplify_eq; (split; rs; [done..|]); intros c' [= <-]; [right; right|by right; left..].
      split; [apply quiet_subprocess|]. intros fd d Hd. apply map_lookup_filter_Some in Hd as [Hd Hc]. cbn in Hc.
      destruct (H fd d Hd); congruence.
    + rewrite Eb in E. cbn in E. simplify_eq. by split; rs.
    + unfold quiet in Hq. destruct (child_code c) as [|B o k|C body k]; [done| |]; cbn in E.
      * destruct o; try done; cbn in E, Hq; simplify_eq; (split; rs; [done..|]); intros c' [= <-]; right; right; (split; [apply Hq|done]).
      * simplify_eq. split; rs; [done..|]. intros c' [= <-]. right; right. split; [|done].
        apply safe_unroll; [exact quiet_mono|exact Hq].
Qed.

(** C17: with [SOCK_CLOEXEC] no descriptor of a listening socket is ever kept by the program that the process executes: it
    has at most those of connections, for which there is no such flag. *)
Theorem sock_cloexec_keeps_none b w c fd d : reaches (main true b) w → sub w = Some c → quiet (child_code c) →
  child_fds c !! fd = Some d → kinds w !! socket d = Some Connection.
Proof.
  intros Hr Hc Hq Hd. assert (F : flagged w).
  { assert (F : flagged (main true b)) by apply main_flagged. revert F.
    induction Hr as [w|w w1 w2 [x E] _ IH]; [done|]. intros F. apply IH; [done|]. by eapply step_flagged. }
  destruct (flagged_sub w F c Hc) as [[E _]|[E|[_ H]]]; [by rewrite E in Hq|by rewrite E in Hq|by apply (H fd)].
Qed.

(** * Examples *)

Module DemoInherit.

Fixpoint play (xs : list action) (w : world) : option world :=
  match xs with [] => Some w | x :: xs => w ← step x w; play xs w end.
Lemma play_reaches xs w w' : play xs w = Some w' → reaches w w'.
Proof.
  revert w. induction xs as [|x xs IH]; intros w E; cbn in E; [injection E as ->; apply rtc_refl|].
  destruct (step x w) as [w1|] eqn:Ex; [|done]. eapply rtc_l; [by exists x|by apply IH].
Qed.

Definition server (n : nat) : list action := replicate n (Thread 0 Fine).
(** The other thread forks, and the process executes its program. *)
Definition forks : list action := [Thread 1 Fine].
Definition executes_sh : list action := [Child Fine].
(** The connection ends after one message. *)
Definition quit_now : list action := [Thread 0 (Data (lit "quit!"))] ++ server 4.

Definition scenario_none : list action := server 6 ++ forks ++ executes_sh ++ server 3 ++ quit_now.
(** The process is forked between [socket] and [fcntl]. *)
Definition scenario_race : list action := server 2 ++ forks ++ executes_sh ++ server 8 ++ quit_now.
Definition scenario_connection : list action := server 10 ++ forks ++ executes_sh ++ quit_now.
(** [recv] fails. *)
Definition scenario_reset : list action := server 10 ++ [Thread 0 Refused] ++ server 6.

(** What a scenario leaves behind: what the server still has, what the process has, and whether the server has ended. *)
Definition left_behind (xs : list action) (w : world) : option (list (nat * desc) * option (list (nat * desc)) * bool) :=
  w ← play xs w;
  Some (map_to_list (fds w), (λ c, map_to_list (child_fds c)) <$> sub w, match threads w with Ret _ :: _ => true | _ => false end).
(** The world that a scenario ends in. *)
Definition final (xs : list action) (w : world) : world := default w (play xs w).
Lemma final_reaches xs w : is_Some (play xs w) → reaches w (final xs w).
Proof. intros [w' E]. unfold final. rewrite E. by apply (play_reaches xs). Qed.

Lemma runs_program w f : child_code <$> sub w = Some subprocess_main → child_fds <$> sub w = Some f → running f w.
Proof. intros H1 H2. destruct (sub w) as [c|] eqn:E; [|done]. injection H1 as H1. injection H2 as H2. exists c. rewrite H1. by split; [|split; [apply quiet_subprocess|]]. Qed.

Lemma play_goes_on xs w w' : Forall executes xs → play xs w = Some w' → goes_on w w'.
Proof.
  intros Hx. revert w. induction Hx as [|x xs Hx _ IH]; intros w E; cbn in E; [injection E as ->; apply rtc_refl|].
  destruct (step x w) as [w1|] eqn:Ex; [|done]. eapply rtc_l; [by exists x|by apply IH].
Qed.
(** The process is forked while the server waits for a client; the client quits, and the server comes to its next [bind]. *)
Lemma inherited_port_stays_witness :
  let w1 := final (server 6 ++ forks) (main false false) in
  let w' := final (executes_sh ++ server 3 ++ quit_now ++ server 2) w1 in
  goes_on w1 w' ∧ port_used w' = true ∧ (∃ sockfd k, threads w' !! 0%nat = Some (Act (Bind sockfd) k)) ∧
  ∀ sockfd k, threads w' !! 0%nat = Some (Act (Bind sockfd) k) → ∀ a w2, step (Thread 0 a) w' = Some w2 →
    ∃ p, threads w2 !! 0%nat = Some p ∧ winds_up (λ _, True) p.
Proof.
  intros w1 w'. set (w := final (server 6) (main false false)).
  assert (Hr : reaches (main false false) w) by (apply final_reaches, (bool_decide_eq_true_1 (is_Some _)); by vm_compute).
  assert (E : step (Thread 1 Fine) w = Some w1) by by vm_compute.
  assert (Hg : goes_on w1 w').
  { apply (play_goes_on (executes_sh ++ server 3 ++ quit_now ++ server 2)); [|by vm_compute]. repeat constructor. }
  destruct (inherited_port_stays (Thread 1 Fine) w w1 w' Hr) as (Hu & _ & Hb); [by vm_compute|by vm_compute|exact E| |exact Hg|].
  { intros Hn. assert (He : match sub w1 with Some _ => true | None => false end = true) by by vm_compute. by rewrite Hn in He. }
  split_and!; [done|done| |by apply Hb]. vm_compute. eexists _, _. reflexivity.
Defined.
(** [FD_CLOEXEC] comes too late when the process is forked in between: the server can never serve another client. *)
Example fd_cloexec_race : left_behind scenario_race (main false true) = Some ([], Some [(0%nat, mkDesc 0 false)], false) ∧
  ∀ w', reaches (final scenario_race (main false true)) w' → port_used w' = true.
Proof.
  split; [by vm_compute|]. intros w' Hr. eapply (running_port {[0%nat := mkDesc 0 false]} 0 (mkDesc 0 false)); [| | |exact Hr]; [|by vm_compute..].
  by apply runs_program; vm_compute.
Qed.
Lemma sock_cloexec_keeps_none_witness : ∃ w c, reaches (main true false) w ∧ sub w = Some c ∧
  child_fds c !! 1%nat = Some (mkDesc 1 false) ∧ kinds w !! 1%nat = Some Connection.
Proof.
  set (w := final (server 9 ++ forks ++ executes_sh) (main true false)).
  assert (Hr : reaches (main true false) w) by (apply (final_reaches (server 9 ++ forks ++ executes_sh)), (bool_decide_eq_true_1 (is_Some _)); by vm_compute).
  destruct (runs_program w {[1%nat := mkDesc 1 false]}) as (c & Hc & Hq & Hf); [by vm_compute..|].
  assert (Hd : child_fds c !! 1%nat = Some (mkDesc 1 false)) by by rewrite Hf.
  exists w, c. split_and!; [done..|]. exact (sock_cloexec_keeps_none false w c 1 (mkDesc 1 false) Hr Hc Hq Hd).
Defined.
(** A connection that is inherited keeps the port too, with both flags. *)
Example connection_inherited : left_behind scenario_connection (main true true) = Some ([], Some [(1%nat, mkDesc 1 false)], false) ∧
  ∀ w', reaches (final scenario_connection (main true true)) w' → port_used w' = true.
Proof.
  split; [by vm_compute|]. intros w' Hr. eapply (running_port {[1%nat := mkDesc 1 false]} 1 (mkDesc 1 false)); [| | |exact Hr]; [|by vm_compute..].
  by apply runs_program; vm_compute.
Qed.
(** When [recv] fails nothing is closed: the server cannot bind its next socket and ends. *)
Example reset_ends_server : match left_behind scenario_reset (main true true) with
  | Some (l, None, true) => (length l = 3)%nat | _ => False end.
Proof. by vm_compute. Qed.
(** A message of the length of [buf], as the client sends it. *)
Example full_message_overruns :
  overrun <$> play (server 9 ++ [Thread 0 (Data (repeat "x"%char 1024)); Thread 0 Fine]) (main true false) = Some true.
Proof. by vm_compute. Qed.
End DemoInherit.
